(* ===== verification/_CoqProject ===== *)
-Q . S2P
Prelude.v
Alloc.v
Sbuffer.v
Vrefbuffer.v
VrefbufferSpec.v
Zbuffer.v
ZbufferSpec.v
Zone.v
ZoneSpec.v
FloatBits.v
MsgObject.v
NetFrame.v
PromiseClient.v
PromiseServer.v
PromiseRuns.v
Pack.v
Fbuffer.v
Parse.v
ParseLoop.v
Visitor.v
Format.v
Tokens.v
Decode.v
UnpackV1.v
UnpackV1Spec.v
Roundtrip.v
Canonical.v
Clone.v
CloneSpec.v
Stream.v
Unpacker.v
UnpackerV1.v
Morphism.v
UnpackerSpec.v
UnpackerMove.v
Adaptors.v
AdaptorLaws.v
Containers.v
Ordered.v
ContainerLaws.v
OrderedSpec.v
Unordered.v
Structs.v
StructSpec.v
References.v
Handler.v
Text.v
Response.v
Dispatcher.v
DispatcherSpec.v
AsyncWriter.v
Receiver.v
UnpackerV1Spec.v
Server.v
ServerSpec.v
ServerSafety.v
ServerLife.v
Client.v
ClientSpec.v
ClientSafety.v
ClientLife.v
RemoteCall.v
ExampleClient.v
ExampleServer.v
ExampleRuns.v
ExampleMain.v
MainRuns.v
ClientRuns.v
