(* ===== verification/Prelude.v ===== *)
(** * Verification of the rpclib client/server example

    The repository is a client and a server built on rpclib (src/client.cpp,
    src/server.cpp under src/), rpclib itself (rpclib/), which is included as source with the
    msgpack library it carries (rpclib/include/rpc/msgpack/), and a demo of the
    std::promise pattern on plain sockets (src/promise_demo/). This library models
    these programs as they are written and proves what they promise, and what
    they do where they keep no promise. Paths below are short for
    rpclib/include/rpc/msgpack/ (v1/, v2/, adaptor/) and rpclib/ (lib/rpc/, include/rpc/).

    ** How the program works

    A client packs a call into a byte string (Adaptors, Pack) and gives it to its
    strand (Client), which writes it to the socket one buffer at a time (AsyncWriter). A
    session of the server receives the bytes into the buffer of an unpacker (Unpacker), whose
    parser (Parse) drives a visitor that builds the object in a zone (Visitor, Zone). Each
    object goes to a worker, which finds the function (Dispatcher), converts the arguments,
    runs it (Handler), packs the result into a response (Response), and posts what is to be
    written to the strand of the session (Server). The client's read handler unpacks the
    response and resolves the promise of the call.

    ** The files

    Foundations:
    - Prelude: bytes, fixed-width integers, slices, big-endian numbers, the result type.
    - FloatBits: double and float as bit patterns, narrowing and widening, equality.

    Memory:
    - Alloc: the C heap (malloc, realloc, free, stores), and the doubling loop of all buffers.
    - Sbuffer: v1/sbuffer.hpp, the output buffer; refined to byte strings.
    - Vrefbuffer, VrefbufferSpec: v1/vrefbuffer.hpp, the buffer that refers to long strings instead of
      copying them, and migrates; refined to byte strings, and where it overruns its memory.
    - Zbuffer, ZbufferSpec: v1/zbuffer.hpp, the buffer that compresses, over the zlib functions it
      calls. Fbuffer: v1/fbuffer.hpp, output to a file.
    - Zone, ZoneSpec: v1/detail/cpp11_zone.hpp, the arena objects live in, and its safety.
    - Clone, CloneSpec: cloning an object into a zone (v1/object.hpp).

    Messages:
    - MsgObject: the object tree, operator== and the size of a clone (v1/object.hpp).
    - Pack: every pack_... member of the packer and pack<object> (v1/pack.hpp).
    - Parse, ParseLoop: the streaming parser (v2/parse.hpp), for any visitor; it ends, and it can
      be interrupted anywhere.
    - Visitor: create_object_visitor over a memory of blocks and pointers, null_visitor, and the
      unpack functions (v2/create_object_visitor.hpp, v2/unpack.hpp).
    - Format: what a byte string means, a decoder by recursive descent: the specification of the
      parser. Tokens, Decode: the parser refines it. Roundtrip: it reads what Pack writes.
    - Canonical: every object unpacked is well-formed, and packs to no more than it was read from.
    - UnpackV1, UnpackV1Spec: the older parser (v1/unpack.hpp), in lock step with the streaming one.
    - UnpackerV1, UnpackerV1Spec: the unpacker around it, in lock step with the one rpclib uses.
      UnpackerMove: moving either.
    - Stream, Morphism: a parser call as a function of the bytes still to come.
    - Unpacker, UnpackerSpec: the unpacker's buffer, its reference counts, zones and handles
      (v2/parse.hpp, v2/unpack.hpp, v1/unpack.hpp).

    C++ values and messages (v1/adaptor/):
    - Adaptors, AdaptorLaws: integers, floats, strings, vectors, tuples; the class of laws every
      type satisfies.
    - Containers, ContainerLaws: sequences, arrays, pairs, optional values, bytes, ext.
    - Ordered, OrderedSpec: sets and maps. Unordered: the unordered ones, up to the order.
    - Structs, StructSpec: what the MSGPACK_DEFINE macros generate, and C arrays. References: references
      to variables.

    The server (lib/rpc/server.cc, detail/server_session.cc, dispatcher.cc, ...):
    - Handler: the objects a function can reach, exceptions, and the monad functions run in.
    - Text: an object as text (operator<< of v1/object.hpp), and reading it back.
    - Response: detail/response.cc. Dispatcher, DispatcherSpec: dispatcher.cc and dispatcher.inl.
    - AsyncWriter: detail/async_writer.h. Receiver: the unpacker as the interface the sessions and
      the client use, with its two implementations (UnpackerV1Spec has a third).
    - Server, ServerSpec, ServerSafety: the server and its sessions, as steps of workers, strands
      and sockets in any order.
    - ServerLife: the server objects: threads, stopping, destruction, moves, and the pointers back.

    The client (lib/rpc/client.cc, client.inl) and the two composed:
    - Client, ClientSpec, ClientSafety: calls, promises, responses, timeouts, lost connections.
    - ClientLife: constructing and destroying a client, and what becomes of its futures.
    - RemoteCall: a call from the caller to the function and back.

    The programs of the repository:
    - ExampleServer, ExampleClient: src/server.cpp and wait_any of src/client.cpp.
    - ExampleMain: main of src/client.cpp, over the class Rpc of what it uses of the client.
    - ExampleRuns, ClientRuns: runs of both on concrete messages, and witnesses. MainRuns: main
      over the models of the client and the server together.
    - NetFrame, PromiseClient, PromiseServer, PromiseRuns: src/promise_demo/: the frame codec, the
      client's connection and I/O thread, the two echo servers.

    ** What is proved

    - End to end: remote_call_returns (a remote call gives the caller the value the function
      returns), main_prints (the example client's output, in any order of responses),
      echo_end_to_end and servers_equivalent for the demo.
    - The server: request_answered, request_rejected, call_returns_result,
      suppressed_calls_do_not_raise, notification_never_answered, unmoved_servers_are_safe,
      connection_carries_responses (a connection only ever carries whole responses, whatever the
      workers and the peer do), writes_in_order, everything_is_sent.
    - The client: responses_resolve_calls, future_is_final, lost_connection_leaves_calls,
      destroyed_client_settles_futures,
      wait_any_first, and for the demo closed_leaves_none_waiting,
      io_thread_exceptions, run_bodies_refined.
    - Messages: unpack_refines (the parser against Format, every input), unpack_pack,
      execute_total, execute_resume, received_objects, unpacked_well_formed, v1_unpack_agrees (the
      two parsers give the same objects and the same errors), text_reads_back.
    - Values: value_roundtrip, unordered_roundtrip, ordered_containers, struct_versions,
      array_refs_carry_sequences, convert_integer_exact.
    - Memory: v1_unpackers_agree (the two unpackers receive the same), zone_is_safe,
      clone_is_deep, sbuffers_are_strings, vrefbuffers_are_strings, buffers_released,
      zbuffer_compresses.
    - What goes wrong, where the code lets it: notification_error_undefined,
      malformed_call_terminates, two_rejections_use_after_free,
      unsolicited_response_breaks_call, wrapped_length_never_ends, moved_server_serves_nobody,
      and the examples next to the definitions they are about.

    ** Conventions

    - The platform is x86-64 Linux: int is 32 bits, long and size_t 64, char is signed. A machine
      integer is a Z; what the code computes modulo 2^w is written [wrap w] or [sext w].
    - Errors are values ([res], [outcome]); undefined behaviour is an outcome of its own
      ([Undefined], [invalid_access], [None]) that the theorems exclude or, for a defect, derive.
    - Concurrency is interleaving: a state and a function or relation of single steps, each a
      piece of code that runs under one mutex or on one strand. Memory is sequentially
      consistent.
    - Fuel: [execute] is given one unit for each byte and a constant, which execute_total shows to
      be enough for every input; [grow] has 64, one for each doubling a size_t allows
      ([grow_total]); [decode] its input's length; [wait_any], [ExampleMain.main] and the
      receiving loops are followed by theorems that some fuel gives the result.
    - Where the code depends on what it does not fix it is a parameter: malloc, zlib, the bytes a
      socket transfers, the order of an unordered container, which worker runs a job,
      std::sort, the union member an object of the wrong type holds.

    ** What is not modelled

    - The Spirit parser and the C++03 variants.
    - The Boost types, which the build does not enable.
    - Resolving addresses, logging; asio itself, of which
      the step functions of Server, Client and AsyncWriter state what the code relies on. *)

From stdpp Require Export base numbers list gmap strings.
From Stdlib Require Import Lia.
From Stdlib Require Strings.Byte.

#[global] Open Scope Z_scope.

(** ** Bytes

    [char] and [uint8_t] data are [Byte.byte]; [u8] reads one as the unsigned
    value 0..255, [i8] as the two's complement value -128..127, and [chr]
    is the narrowing cast of an integer to one byte. *)

Abbreviation byte := Init.Byte.byte.
Abbreviation bytes := (list byte).

#[export] Instance byte_eq_dec : EqDecision byte := Byte.byte_eq_dec.

Definition u8 (b : byte) : Z := Z.of_N (Byte.to_N b).
Definition chr (z : Z) : byte :=
  default Byte.x00 (Byte.of_N (Z.to_N (z mod 256))).

(** Wrap-around to [w] bits, and the reading of a [w]-bit pattern as signed. *)
Definition wrap (w z : Z) : Z := z mod 2 ^ w.
Definition sext (w z : Z) : Z :=
  let u := wrap w z in if u <? 2 ^ (w - 1) then u else u - 2 ^ w.
Definition i8 (b : byte) : Z := sext 8 (u8 b).

Lemma u8_range b : 0 <= u8 b < 256.
Proof.
  unfold u8. pose proof (Byte.to_N_bounded b) as H.
  apply N2Z.inj_le in H. change (Z.of_N 255) with 255 in H. lia.
Qed.

Lemma u8_chr z : u8 (chr z) = z mod 256.
Proof.
  unfold u8, chr. pose proof (Z.mod_pos_bound z 256 eq_refl) as Hz.
  destruct (Byte.of_N (Z.to_N (z mod 256))) as [b|] eqn:E; simpl.
  - apply Byte.to_of_N in E. rewrite E. apply Z2N.id. lia.
  - apply Byte.of_N_None_iff in E. lia.
Qed.

Lemma u8_inj b c : u8 b = u8 c -> b = c.
Proof.
  unfold u8. intros H%N2Z.inj.
  pose proof (Byte.of_to_N b) as Hb. rewrite H, Byte.of_to_N in Hb. congruence.
Qed.

Lemma chr_u8 b : chr (u8 b) = b.
Proof. apply u8_inj. rewrite u8_chr. apply Z.mod_small, u8_range. Qed.

Lemma u8_chr_small z : 0 <= z < 256 -> u8 (chr z) = z.
Proof. intros. rewrite u8_chr. now apply Z.mod_small. Qed.

Lemma wrap_range w z : 0 <= w -> 0 <= wrap w z < 2 ^ w.
Proof. intros. apply Z.mod_pos_bound. lia. Qed.

Lemma wrap_small w z : 0 <= z < 2 ^ w -> wrap w z = z.
Proof. apply Z.mod_small. Qed.

(** Or-ing a value below bit [k] into a multiple of [2^k] adds it. *)
Lemma lor_add_disjoint a b k :
  0 <= k -> 0 <= b < 2 ^ k -> Z.lor (a * 2 ^ k) b = a * 2 ^ k + b.
Proof.
  intros Hk Hb. symmetry. apply Z.add_nocarry_lor. apply Z.bits_inj'. intros n Hn.
  rewrite Z.land_spec, Z.bits_0. destruct (Z.ltb_spec n k).
  - rewrite Z.mul_pow2_bits_low by lia. reflexivity.
  - rewrite <- (Z.mod_small b (2 ^ k)) by lia.
    rewrite Z.mod_pow2_bits_high by lia. apply andb_false_r.
Qed.

Lemma land_255 z : Z.land z 255 = z mod 256.
Proof. change 255 with (Z.ones 8). now rewrite Z.land_ones. Qed.

Lemma chr_mod z : chr (z mod 256) = chr z.
Proof. apply u8_inj. rewrite !u8_chr. now rewrite Z.mod_mod. Qed.

#[export] Instance byte_countable : Countable byte := inj_countable' u8 chr chr_u8.

(** ** Sizes and slices of byte strings *)

Definition len {A} (l : list A) : Z := Z.of_nat (length l).

(** The [n] elements at offset [pos]; what a [memcpy] or a [substr] reads. *)
Definition slice {A} (l : list A) (pos n : Z) : list A :=
  take (Z.to_nat n) (drop (Z.to_nat pos) l).

Lemma len_nonneg {A} (l : list A) : 0 <= len l.
Proof. unfold len. lia. Qed.

Lemma len_app {A} (k l : list A) : len (k ++ l) = len k + len l.
Proof. unfold len. rewrite length_app. lia. Qed.

Lemma len_cons {A} (x : A) l : len (x :: l) = 1 + len l.
Proof. unfold len. cbn [length]. lia. Qed.

Lemma len_nil {A} : len (@nil A) = 0.
Proof. reflexivity. Qed.

Lemma drop_len_app {A} (k l : list A) : drop (Z.to_nat (len k)) (k ++ l) = l.
Proof. unfold len. rewrite Nat2Z.id. apply drop_app_length. Qed.

Lemma slice_app {A} (k m l : list A) n :
  n = len m -> slice (k ++ m ++ l) (len k) n = m.
Proof.
  intros ->. unfold slice. rewrite drop_len_app. unfold len.
  rewrite Nat2Z.id. apply take_app_length.
Qed.

Lemma slice_0_app {A} (m l : list A) n : n = len m -> slice (m ++ l) 0 n = m.
Proof. intros. now apply (slice_app [] m l). Qed.

Lemma slice_prefix {A} (k l : list A) pos n :
  0 <= pos -> pos + n <= len k -> slice (k ++ l) pos n = slice k pos n.
Proof.
  unfold slice, len. intros Hp Hn. destruct (decide (n <= 0)).
  - replace (Z.to_nat n) with 0%nat by lia. done.
  - rewrite drop_app_le by lia. apply take_app_le. rewrite length_drop. lia.
Qed.

Lemma drop_ge_nil {A} (l : list A) (n : Z) : len l <= n -> drop (Z.to_nat n) l = [].
Proof. unfold len. intros. apply drop_ge. lia. Qed.

(** ** Big-endian integers

    [be n z] is the [n]-byte big-endian encoding of [z mod 2^(8n)] and
    [be_val] reads a byte string back. *)

Fixpoint be (n : nat) (z : Z) : bytes :=
  match n with
  | O => []
  | S m => chr (Z.shiftr z (8 * Z.of_nat m)) :: be m z
  end.

Fixpoint be_val (l : bytes) : Z :=
  match l with
  | [] => 0
  | b :: t => u8 b * 2 ^ (8 * len t) + be_val t
  end.

Lemma length_be n z : length (be n z) = n.
Proof. induction n; simpl; congruence. Qed.

Lemma len_be n z : len (be n z) = Z.of_nat n.
Proof. unfold len. now rewrite length_be. Qed.

Lemma be_val_range l : 0 <= be_val l < 2 ^ (8 * len l).
Proof.
  induction l as [|b l IH]; [change (0 <= 0 < 1); lia|].
  cbn [be_val]. rewrite len_cons.
  replace (8 * (1 + len l)) with (8 + 8 * len l) by lia.
  pose proof (len_nonneg l). rewrite Z.pow_add_r by lia.
  change (2 ^ 8) with 256. pose proof (u8_range b). nia.
Qed.

Lemma be_val_be n z : be_val (be n z) = z mod 2 ^ (8 * Z.of_nat n).
Proof.
  induction n as [|n IH]; [simpl; now rewrite Z.mod_1_r|].
  cbn [be be_val]. rewrite IH, len_be, u8_chr, Z.shiftr_div_pow2 by lia.
  replace (8 * Z.of_nat (S n)) with (8 * Z.of_nat n + 8) by lia.
  assert (0 < 2 ^ (8 * Z.of_nat n)) by (apply Z.pow_pos_nonneg; lia).
  rewrite Z.pow_add_r by lia. change (2 ^ 8) with 256.
  rewrite Z.rem_mul_r by lia. lia.
Qed.

Lemma be_val_be_small n z : 0 <= z < 2 ^ (8 * Z.of_nat n) -> be_val (be n z) = z.
Proof. intros. rewrite be_val_be. now apply Z.mod_small. Qed.

(** A [w]-bit signed value survives being stored and read back as signed. *)
Lemma sext_wrap w z : 0 < w -> - 2 ^ (w - 1) <= z < 2 ^ (w - 1) -> sext w z = z.
Proof.
  intros Hw Hz. unfold sext, wrap.
  assert (H2 : 2 ^ w = 2 * 2 ^ (w - 1)).
  { rewrite <- Z.pow_succ_r by lia. f_equal. lia. }
  destruct (decide (0 <= z)).
  - rewrite Z.mod_small by lia. destruct (Z.ltb_spec z (2 ^ (w - 1))); lia.
  - replace (z mod 2 ^ w) with (z + 2 ^ w).
    + destruct (Z.ltb_spec (z + 2 ^ w) (2 ^ (w - 1))); lia.
    + rewrite <- (Z.mod_small (z + 2 ^ w) (2 ^ w)) by lia.
      rewrite <- Z.add_mod_idemp_r, Z.mod_same by lia. now rewrite Z.add_0_r.
Qed.

Lemma sext_mod w z : 0 < w -> sext w (z mod 2 ^ w) = sext w z.
Proof. intros. unfold sext, wrap. now rewrite Z.mod_mod by (apply Z.pow_nonzero; lia). Qed.

Lemma sext_be_val n z :
  let w := 8 * Z.of_nat n in
  0 < w -> - 2 ^ (w - 1) <= z < 2 ^ (w - 1) -> sext w (be_val (be n z)) = z.
Proof. intros w Hw Hz. rewrite be_val_be, sext_mod by lia. now apply sext_wrap. Qed.

(** ** Outcomes of fallible code

    A C++ function that may throw returns a [res]: a value, or the exception
    that left it. *)

Inductive res (E A : Type) : Type :=
| Ok (a : A)
| Throw (e : E).
Arguments Ok {E A} a.
Arguments Throw {E A} e.

Definition res_bind {E A B} (m : res E A) (k : A -> res E B) : res E B :=
  match m with Ok a => k a | Throw e => Throw e end.

Declare Scope res_scope.
Delimit Scope res_scope with res.
Notation "'let?' p := m 'in' k" := (res_bind m (fun p => k))
  (at level 10, p pattern, m at level 100, k at level 200) : res_scope.

Lemma res_bind_ok {E A B} (m : res E A) (k : A -> res E B) b :
  res_bind m k = Ok b <-> exists a, m = Ok a /\ k a = Ok b.
Proof.
  destruct m as [a|e]; simpl; split; [eauto | | discriminate |].
  - intros (a' & [= <-] & H). exact H.
  - intros (a' & [=] & _).
Qed.

(** ** Automation *)

Create HintDb rpc.
Create Rewrite HintDb rpc.
#[export] Hint Rewrite @len_app @len_cons @len_nil len_be @length_be : rpc.
#[export] Hint Resolve u8_range len_nonneg wrap_range : rpc.

(** Split every boolean integer comparison of the goal into its two cases. *)
Ltac split_cmp :=
  repeat (match goal with
  | |- context [?a <? ?b] => destruct (Z.ltb_spec a b)
  | |- context [?a <=? ?b] => destruct (Z.leb_spec a b)
  | |- context [?a =? ?b] => destruct (Z.eqb_spec a b)
  end; cbv match; try (exfalso; lia)).

(** Normalise sizes, then finish with linear arithmetic. *)
Ltac len_lia :=
  autorewrite with rpc in *;
  repeat match goal with
  | l : list _ |- _ => lazymatch goal with
      | H : 0 <= len l |- _ => fail
      | _ => pose proof (len_nonneg l) end
  end; lia.
