(* ===== verification/Alloc.v ===== *)
(** * The C heap

    What the buffers and zones of msgpack ask of [malloc], [realloc] and [free]:
    blocks of bytes at addresses, some not written yet. The system decides which
    requests it grants and where ([os_malloc]); [MallocLaws] is what the C
    standard promises of it. Freeing or writing what is not allocated is
    [None]. *)

From S2P Require Import Prelude.

Abbreviation block := (list (option byte)).      (* [None]: indeterminate *)
Abbreviation heap := (gmap Z block).

(** The block at [a] lies at addresses [a .. a + len b - 1]. *)
Definition apart (a n a' n' : Z) : Prop := a + n <= a' \/ a' + n' <= a.

Class Malloc := os_malloc : heap -> Z -> option Z.

Class MallocLaws {MA : Malloc} : Prop := {
  malloc_aligned h n a : os_malloc h n = Some a -> 0 < a /\ a mod 16 = 0;
  malloc_bounded h n a : os_malloc h n = Some a -> a + n < 2 ^ 63;
  malloc_fresh h n a : os_malloc h n = Some a -> h !! a = None;
  malloc_apart h n a a' b : os_malloc h n = Some a -> h !! a' = Some b -> apart a n a' (len b);
}.
Arguments MallocLaws : clear implicits.

Section Heap.
Context {MA : Malloc}.

Definition blank (n : Z) : block := replicate (Z.to_nat n) None.

Definition malloc (n : Z) (h : heap) : option Z * heap :=
  match os_malloc h n with
  | Some a => (Some a, <[a := blank n]> h)
  | None => (None, h)
  end.

(** [free(NULL)] does nothing. *)
Definition free (p : option Z) (h : heap) : option heap :=
  match p with
  | None => Some h
  | Some a => match h !! a with Some _ => Some (delete a h) | None => None end
  end.

(** The new block may be where the old one was; a refused request leaves the old. *)
Definition realloc (p : option Z) (n : Z) (h : heap) : option (option Z * heap) :=
  match p with
  | None => Some (malloc n h)
  | Some a =>
    match h !! a with
    | None => None
    | Some b =>
      Some match os_malloc (delete a h) n with
           | Some a' => (Some a', <[a' := take (Z.to_nat n) b ++ blank (n - len b)]> (delete a h))
           | None => (None, h)
           end
    end
  end.

(** [memcpy] of [d] to offset [off] of the block at [p]; of nothing, anywhere. *)
Definition store (p : option Z) (off : Z) (d : bytes) (h : heap) : option heap :=
  match d, p with
  | [], _ => Some h
  | _, None => None
  | _, Some a =>
    match h !! a with
    | Some b =>
      if (0 <=? off) && (off + len d <=? len b)
      then Some (<[a := take (Z.to_nat off) b ++ map Some d ++ drop (Z.to_nat (off + len d)) b]> h)
      else None
    | None => None
    end
  end.

(** ** Laws *)

Lemma len_blank n : 0 <= n -> len (blank n) = n.
Proof. intros. unfold len, blank. rewrite length_replicate. lia. Qed.

Lemma len_take_blank n (b : block) :
  len b <= n -> len (take (Z.to_nat n) b ++ blank (n - len b)) = n.
Proof.
  intros H. rewrite len_app, len_blank by lia. unfold len in *.
  rewrite length_take. lia.
Qed.

Lemma realloc_cases `{!MallocLaws MA} p n h :
  0 <= n -> match p with Some a => exists b, h !! a = Some b /\ len b <= n | None => True end ->
  (realloc p n h = Some (None, h)) \/
  exists a', realloc p n h =
      Some (Some a', <[a' := match p ≫= (fun a => h !! a) with
                             | Some b => b ++ blank (n - len b) | None => blank n end]>
                     (match p with Some a => delete a h | None => h end)) /\
    (match p with Some a => delete a h | None => h end) !! a' = None.
Proof.
  intros Hn Hp. destruct p as [a|]; cbn [realloc].
  - destruct Hp as (b & Hb & Hl). rewrite Hb.
    destruct (os_malloc (delete a h) n) as [a'|] eqn:E; [right|by left].
    exists a'. split; [|by eapply malloc_fresh]. simpl. rewrite Hb.
    rewrite take_ge; [done|]. unfold len in Hl. lia.
  - unfold malloc. destruct (os_malloc h n) as [a'|] eqn:E; [right|by left].
    exists a'. split; [done|by eapply malloc_fresh].
Qed.

Lemma store_ok a b off d h :
  h !! a = Some b -> 0 <= off -> off + len d <= len b ->
  store (Some a) off d h =
  Some (<[a := take (Z.to_nat off) b ++ map Some d ++ drop (Z.to_nat (off + len d)) b]> h).
Proof.
  intros Hb Ho Hl. destruct d as [|x d]; cbn [store].
  - f_equal. symmetry. simpl. rewrite len_nil, Z.add_0_r, take_drop.
    now apply insert_id.
  - rewrite Hb. destruct (Z.leb_spec 0 off); [|lia].
    destruct (Z.leb_spec (off + len (x :: d)) (len b)); [|lia]. done.
Qed.

Lemma store_len a b off d h h' :
  store (Some a) off d h = Some h' -> h !! a = Some b ->
  exists b', h' !! a = Some b' /\ len b' = len b.
Proof.
  destruct d as [|x d]; cbn [store]; [intros [= <-]; eauto|].
  intros E Hb. rewrite Hb in E. destruct (_ && _) eqn:Hc; [|done]. injection E as <-.
  apply andb_true_iff in Hc as [H1%Z.leb_le H2%Z.leb_le].
  eexists. split; [apply lookup_insert_eq|]. autorewrite with rpc in *. unfold len in *.
  rewrite length_take, length_drop, length_map. simpl in *. lia.
Qed.
End Heap.

(** ** Heaps

    The blocks lie in the address space, none on another. *)

Record heap_ok (h : heap) : Prop := {
  heap_bounds : forall a b, h !! a = Some b -> 0 < a /\ a + len b < 2 ^ 63;
  heap_apart : forall a b a' b', h !! a = Some b -> h !! a' = Some b' -> a <> a' ->
               apart a (len b) a' (len b');
}.

Lemma heap_ok_empty : heap_ok ∅.
Proof. split; [intros a b H|intros a b a' b' H]; by apply lookup_empty_Some in H. Qed.

Lemma heap_ok_delete h a : heap_ok h -> heap_ok (delete a h).
Proof.
  intros [B A]. split.
  - intros c b [_ H]%lookup_delete_Some. by apply B.
  - intros c b c' b' [_ H]%lookup_delete_Some [_ H']%lookup_delete_Some. by apply A.
Qed.

Lemma heap_ok_update h a b b' :
  heap_ok h -> h !! a = Some b -> len b' = len b -> heap_ok (<[a := b']> h).
Proof.
  intros [B A] Ha Hl. split.
  - intros c x [[<- <-]|[_ Hc]]%lookup_insert_Some; [rewrite Hl|]; by apply B.
  - intros c x c' x' [[<- <-]|[Hne Hc]]%lookup_insert_Some [[<- <-]|[Hne' Hc']]%lookup_insert_Some Hcc;
      [done|rewrite Hl..|]; by apply A.
Qed.

Lemma heap_ok_malloc {MA : Malloc} {LA : MallocLaws MA} h n a :
  heap_ok h -> 0 <= n -> os_malloc h n = Some a -> forall b, len b = n -> heap_ok (<[a := b]> h).
Proof.
  intros [B A] Hn E b Hb. pose proof (malloc_aligned _ _ _ E). pose proof (malloc_bounded _ _ _ E).
  assert (Hap : forall c x, h !! c = Some x -> apart a n c (len x)) by (intros; by eapply malloc_apart).
  split.
  - intros c x [[<- <-]|[_ Hc]]%lookup_insert_Some; [lia|by apply B].
  - intros c x c' x' [[<- <-]|[Hne Hc]]%lookup_insert_Some [[<- <-]|[Hne' Hc']]%lookup_insert_Some Hcc;
      [done|rewrite Hb; by apply Hap| |by apply A].
    rewrite Hb. destruct (Hap c x Hc); [by right|by left].
Qed.

(** ** The doubling loop

    [next *= 2] until it reaches [need], and [need] itself when doubling would
    overflow [size_t]: the same loop in [sbuffer], [zone] and [parser]. *)

Fixpoint grow (fuel : nat) (next_size need : Z) : option Z :=
  if next_size <? need then
    let tmp_next_size := wrap 64 (next_size * 2) in
    if tmp_next_size <=? next_size then Some need
    else match fuel with O => None | S f => grow f tmp_next_size need end
  else Some next_size.

Lemma grow_total : forall f next need,
  2 ^ (64 - Z.of_nat f) <= next < 2 ^ 64 -> (f <= 64)%nat -> 0 <= need < 2 ^ 64 ->
  exists r, grow f next need = Some r /\ need <= r /\ 0 <= r < 2 ^ 64.
Proof.
  induction f as [|f IH]; intros next need Hn Hf Hneed.
  - change (64 - Z.of_nat 0) with 64 in Hn. lia.
  - cbn [grow]. destruct (Z.ltb_spec next need); [|eauto with lia].
    destruct (Z.leb_spec (wrap 64 (next * 2)) next); [eauto with lia|].
    pose proof (wrap_range 64 (next * 2) ltac:(lia)) as Hw. apply IH; [|lia|done].
    split; [|lia]. assert (next * 2 < 2 ^ 64).
    { destruct (Z.ltb_spec (next * 2) (2 ^ 64)); [done|]. exfalso.
      assert (wrap 64 (next * 2) = next * 2 - 2 ^ 64); [|lia].
      unfold wrap. symmetry. apply Z.mod_unique with 1; lia. }
    rewrite wrap_small by lia.
    replace (64 - Z.of_nat f) with (Z.succ (64 - Z.of_nat (S f))) by lia.
    rewrite Z.pow_succ_r by lia. lia.
Qed.

(** Enough fuel whatever the sizes, and the result is never too small. *)
Lemma grow_ok next need :
  0 <= next < 2 ^ 64 -> 0 <= need < 2 ^ 64 ->
  exists r, grow 64 next need = Some r /\ need <= r /\ 0 <= r < 2 ^ 64.
Proof.
  intros Hn Hneed. destruct (Z.eq_dec next 0) as [->|].
  - cbn [grow]. destruct (Z.ltb_spec 0 need); [|eauto with lia].
    change (wrap 64 (0 * 2) <=? 0) with true. eauto with lia.
  - apply grow_total; [|lia|done]. change (64 - Z.of_nat 64) with 0. change (2 ^ 0) with 1. lia.
Qed.

Lemma grow_ge : forall f next need r, grow f next need = Some r -> next <= r.
Proof.
  induction f as [|f IH]; intros next need r Hg; cbn [grow] in Hg;
    (destruct (Z.ltb_spec next need); [|injection Hg as <-; lia]);
    (destruct (Z.leb_spec (wrap 64 (next * 2)) next); [injection Hg as <-; lia|]); [done|].
  apply IH in Hg. lia.
Qed.

Lemma grow_le : forall f next need r,
  grow f next need = Some r -> 0 <= next -> 0 <= need -> r <= Z.max next (2 * need).
Proof.
  induction f as [|f IH]; intros next need r Hg Hn Hd; cbn [grow] in Hg;
    (destruct (Z.ltb_spec next need); [|injection Hg as <-; lia]);
    (destruct (Z.leb_spec (wrap 64 (next * 2)) next); [injection Hg as <-; lia|]); [done|].
  apply IH in Hg; [|lia|done].
  assert (wrap 64 (next * 2) <= next * 2) by (apply Z.mod_le; lia). lia.
Qed.

(** ** A system that keeps the laws

    Blocks one after the other, up to a given number of bytes each. *)

Definition top (h : heap) : Z :=
  map_fold (fun a (b : block) t => Z.max t (a + len b + 1)) 16 h.

Definition bump (cap : Z) : Malloc := fun h n =>
  let a := (top h + 15) / 16 * 16 in
  if (0 <=? n) && (n <=? cap) && (a + n <? 2 ^ 63) then Some a else None.

Lemma top_above h : 16 <= top h /\ forall a b, h !! a = Some b -> a + len b < top h.
Proof.
  unfold top. apply (map_fold_weak_ind
    (fun t (m : heap) => 16 <= t /\ forall a b, m !! a = Some b -> a + len b < t)).
  - split; [lia|]. intros a b H. by apply lookup_empty_Some in H.
  - intros i x m r Hi [Hr IH]. split; [lia|]. intros a b H.
    apply lookup_insert_Some in H as [[<- <-]|[Hne Hb]]; [lia|]. specialize (IH a b Hb). lia.
Qed.

Lemma bump_laws cap : MallocLaws (bump cap).
Proof.
  assert (H : forall h n a, bump cap h n = Some a ->
            a = (top h + 15) / 16 * 16 /\ top h <= a /\ a + n < 2 ^ 63 /\ 0 <= n).
  { unfold bump. intros h n a. destruct (_ && _) eqn:E; [|done]. intros [= <-].
    apply andb_true_iff in E as [[H1%Z.leb_le H2%Z.leb_le]%andb_true_iff H3%Z.ltb_lt].
    split; [done|]. split; [|lia].
    pose proof (Z.div_mod (top h + 15) 16 ltac:(lia)). pose proof (Z.mod_pos_bound (top h + 15) 16). lia. }
  assert (F : forall h n a a' b, bump cap h n = Some a -> h !! a' = Some b -> a' + len b < a).
  { intros h n a a' b (_ & Ht & _)%H Hb. pose proof (proj2 (top_above h) a' b Hb). lia. }
  split.
  - intros h n a (-> & Ht & _)%H. pose proof (proj1 (top_above h)). split; [lia|]. apply Z.mod_mul. lia.
  - intros h n a (_ & _ & Hn & _)%H. done.
  - intros h n a E. destruct (h !! a) as [b|] eqn:Hb; [|done].
    pose proof (F _ _ _ _ _ E Hb). pose proof (len_nonneg b). lia.
  - intros h n a a' b E Hb. right. pose proof (F _ _ _ _ _ E Hb). lia.
Qed.
