(* ===== verification/Sbuffer.v ===== *)
(** * The simple buffer

    Models [sbuffer] (v1/sbuffer.hpp), the output buffer of every message: its
    memory on the C heap of [Alloc], its growth, and its moves. The rest of the
    development writes messages as byte strings that are appended to; this
    file proves that the buffer implements that. *)

From S2P Require Import Prelude Alloc.

Definition MSGPACK_SBUFFER_INIT_SIZE : Z := 8192.

Record sbuffer := { m_size : Z; m_data : option Z; m_alloc : Z }.

Inductive fault :=
| bad_alloc
| invalid_access | out_of_fuel.       (* undefined behaviour; no fuel *)

Definition moved_from : sbuffer := {| m_size := 0; m_data := None; m_alloc := 0 |}.

Section Sbuffer.
Context {MA : Malloc}.

Definition new_sbuffer (initsz : Z) (h : heap) : res fault sbuffer * heap :=
  if initsz =? 0 then (Ok {| m_size := 0; m_data := None; m_alloc := initsz |}, h)
  else match malloc initsz h with
       | (Some a, h) => (Ok {| m_size := 0; m_data := Some a; m_alloc := initsz |}, h)
       | (None, h) => (Throw bad_alloc, h)
       end.

Definition destroy (b : sbuffer) (h : heap) : res fault unit * heap :=
  match free (m_data b) h with
  | Some h => (Ok tt, h)
  | None => (Throw invalid_access, h)
  end.

Definition expand_buffer (l : Z) (b : sbuffer) (h : heap) : res fault sbuffer * heap :=
  let nsize := if 0 <? m_alloc b then wrap 64 (m_alloc b * 2) else MSGPACK_SBUFFER_INIT_SIZE in
  match grow 64 nsize (wrap 64 (m_size b + l)) with
  | None => (Throw out_of_fuel, h)
  | Some nsize =>
    match realloc (m_data b) nsize h with
    | None => (Throw invalid_access, h)
    | Some (None, h) => (Throw bad_alloc, h)
    | Some (Some a, h) => (Ok {| m_size := m_size b; m_data := Some a; m_alloc := nsize |}, h)
    end
  end.

Definition write (buf : bytes) (b : sbuffer) (h : heap) : res fault sbuffer * heap :=
  match (if wrap 64 (m_alloc b - m_size b) <? len buf then expand_buffer (len buf) b h
         else (Ok b, h)) with
  | (Throw e, h) => (Throw e, h)
  | (Ok b, h) =>
    match store (m_data b) (m_size b) buf h with
    | Some h =>
      (Ok {| m_size := wrap 64 (m_size b + len buf); m_data := m_data b; m_alloc := m_alloc b |}, h)
    | None => (Throw invalid_access, h)
    end
  end.

(** [operator=(sbuffer&&)] from another buffer: the result, and what [other] becomes. *)
Definition move_assign (b other : sbuffer) (h : heap) : res fault (sbuffer * sbuffer) * heap :=
  match destroy b h with
  | (Ok _, h) => (Ok (other, moved_from), h)
  | (Throw e, h) => (Throw e, h)
  end.

Definition release (b : sbuffer) : option Z * sbuffer := (m_data b, moved_from).

Definition clear (b : sbuffer) : sbuffer :=
  {| m_size := 0; m_data := m_data b; m_alloc := m_alloc b |}.

(** ** Programs with several buffers

    Variables that hold a buffer, and the pointers [release] gave away. *)

Record state := { vars : gmap Z sbuffer; released : list Z; hp : heap }.

Inductive op :=
| New (i initsz : Z)
| Write (i : Z) (d : bytes)
| MoveNew (j i : Z)                  (* [sbuffer j(std::move(i))] *)
| Assign (j i : Z)                   (* [j = std::move(i)] *)
| Clear (i : Z)
| Release (i : Z)
| Free                               (* the first pointer given away *)
| Destroy (i : Z).

Definition with_vars (v : gmap Z sbuffer) (h : heap) (s : state) : state :=
  {| vars := v; released := released s; hp := h |}.

(** [None]: the program is not one (a variable declared twice, or not at all). *)
Definition step (o : op) (s : state) : option (res fault state) :=
  match o with
  | New i n =>
    match vars s !! i with
    | Some _ => None
    | None => Some match new_sbuffer n (hp s) with
                   | (Ok b, h) => Ok (with_vars (<[i := b]> (vars s)) h s)
                   | (Throw e, _) => Throw e
                   end
    end
  | Write i d =>
    b ← vars s !! i;
    Some match write d b (hp s) with
         | (Ok b, h) => Ok (with_vars (<[i := b]> (vars s)) h s)
         | (Throw e, _) => Throw e
         end
  | MoveNew j i =>
    b ← vars s !! i;
    match vars s !! j with
    | Some _ => None
    | None => Some (Ok (with_vars (<[j := b]> (<[i := moved_from]> (vars s))) (hp s) s))
    end
  | Assign j i =>
    if j =? i then None else
    b ← vars s !! j;
    other ← vars s !! i;
    Some match move_assign b other (hp s) with
         | (Ok (b, other), h) => Ok (with_vars (<[j := b]> (<[i := other]> (vars s))) h s)
         | (Throw e, _) => Throw e
         end
  | Clear i => b ← vars s !! i; Some (Ok (with_vars (<[i := clear b]> (vars s)) (hp s) s))
  | Release i =>
    b ← vars s !! i;
    let '(p, b) := release b in
    Some (Ok {| vars := <[i := b]> (vars s); released := option_list p ++ released s; hp := hp s |})
  | Free =>
    match released s with
    | [] => None
    | a :: r => Some match free (Some a) (hp s) with
                     | Some h => Ok {| vars := vars s; released := r; hp := h |}
                     | None => Throw invalid_access
                     end
    end
  | Destroy i =>
    b ← vars s !! i;
    Some match destroy b (hp s) with
         | (Ok _, h) => Ok (with_vars (delete i (vars s)) h s)
         | (Throw e, _) => Throw e
         end
  end.

Fixpoint run (ops : list op) (s : state) : option (res fault state) :=
  match ops with
  | [] => Some (Ok s)
  | o :: ops =>
    match step o s with
    | Some (Ok s) => run ops s
    | r => r
    end
  end.

(** ** The abstract buffers: byte strings *)

Definition spec_step (o : op) (v : gmap Z bytes) : gmap Z bytes :=
  match o with
  | New i _ => <[i := []]> v
  | Write i d => <[i := default [] (v !! i) ++ d]> v
  | MoveNew j i | Assign j i => <[j := default [] (v !! i)]> (<[i := []]> v)
  | Clear i | Release i => <[i := []]> v
  | Free => v
  | Destroy i => delete i v
  end.

Definition spec_run (ops : list op) (v : gmap Z bytes) : gmap Z bytes :=
  fold_left (fun v o => spec_step o v) ops v.

(** Sizes a program can have: [size_t], and what is in memory. *)
Definition op_fits (o : op) : Prop :=
  match o with
  | New _ n => 0 <= n < 2 ^ 64
  | Write _ d => len d < 2 ^ 63
  | _ => True
  end.
End Sbuffer.

(** ** One buffer *)

Record holds (h : heap) (b : sbuffer) (d : bytes) : Prop := {
  holds_size : m_size b = len d;
  holds_alloc : len d <= m_alloc b < 2 ^ 63;
  holds_data : match m_data b with
               | None => m_alloc b = 0
               | Some a => exists rest, h !! a = Some (map Some d ++ rest) /\ len d + len rest = m_alloc b
               end;
}.

Definition keys (h : heap) : list Z := (map_to_list h).*1.

(** From [h] to [h'], the block [p] was given up and [p'] obtained. *)
Definition moved (h : heap) (p : option Z) (h' : heap) (p' : option Z) : Prop :=
  (forall a b, h !! a = Some b -> p <> Some a -> h' !! a = Some b) /\
  option_list p' ++ keys h ≡ₚ option_list p ++ keys h'.

Lemma keys_insert a b h : h !! a = None -> keys (<[a := b]> h) ≡ₚ a :: keys h.
Proof. intros H. unfold keys. by rewrite map_to_list_insert. Qed.

Lemma keys_delete a b h : h !! a = Some b -> keys h ≡ₚ a :: keys (delete a h).
Proof. intros H. unfold keys. by rewrite <- (map_to_list_delete h a b H). Qed.

Lemma keys_update a b b' h : h !! a = Some b -> keys (<[a := b']> h) ≡ₚ keys h.
Proof.
  intros H. rewrite (keys_delete a b h) by done. rewrite <- insert_delete_eq.
  apply keys_insert, lookup_delete_eq.
Qed.

Lemma keys_elem a h : a ∈ keys h <-> is_Some (h !! a).
Proof.
  unfold keys. rewrite list_elem_of_fmap. split.
  - intros ([x b] & -> & H%elem_of_map_to_list). eauto.
  - intros [b H]. exists (a, b). by rewrite elem_of_map_to_list.
Qed.

Lemma NoDup_keys h : NoDup (keys h).
Proof. apply NoDup_fst_map_to_list. Qed.

Lemma moved_refl h p : moved h p h p.
Proof. by split. Qed.

(** A block obtained was not there before, unless it is the one given up. *)
Lemma moved_fresh h p h' a :
  moved h p h' (Some a) -> is_Some (h !! a) -> p = Some a.
Proof.
  intros [_ P] Ha%keys_elem. destruct (decide (p = Some a)) as [|Hp]; [done|exfalso].
  simpl in P. pose proof (Permutation_count_occ Z.eq_dec) as C. apply C with (x := a) in P.
  rewrite count_occ_cons_eq, count_occ_app in P by done.
  apply list_elem_of_In, (count_occ_In Z.eq_dec) in Ha.
  pose proof (proj1 (NoDup_count_occ Z.eq_dec _) (proj1 (NoDup_ListNoDup _) (NoDup_keys h')) a).
  assert (count_occ Z.eq_dec (option_list p) a = 0%nat); [|lia].
  apply count_occ_not_In. destruct p as [c|]; simpl; [|tauto]. intros [->|[]]. by apply Hp.
Qed.

Lemma moved_trans h p h1 p1 h2 p2 : moved h p h1 p1 -> moved h1 p1 h2 p2 -> moved h p h2 p2.
Proof.
  intros M1 M2. destruct M1 as [F1 P1] eqn:E1, M2 as [F2 P2]. clear E1. split.
  - intros a b Ha Hp. apply F2; [by apply F1|]. intros ->. apply Hp.
    by apply (moved_fresh h p h1 a M1).
  - apply (Permutation_app_inv_l (option_list p1)).
    rewrite (Permutation_app_comm (option_list p1) (option_list p2 ++ keys h)), <- app_assoc.
    rewrite (Permutation_app_comm (keys h)), P1.
    rewrite !app_assoc, (Permutation_app_comm (option_list p2)), <- app_assoc, P2.
    rewrite !app_assoc. apply Permutation_app_tail, Permutation_app_comm.
Qed.

Lemma moved_malloc a b h : h !! a = None -> moved h None (<[a := b]> h) (Some a).
Proof.
  intros H. split.
  - intros a' b' Ha' _. rewrite lookup_insert_ne; [done|congruence].
  - simpl. by rewrite keys_insert.
Qed.

Lemma moved_free a b h : h !! a = Some b -> moved h (Some a) (delete a h) None.
Proof.
  intros H. split.
  - intros a' b' Ha' Hn. rewrite lookup_delete_ne; [done|congruence].
  - simpl. by apply keys_delete with b.
Qed.

Lemma moved_store a b b' h : h !! a = Some b -> moved h (Some a) (<[a := b']> h) (Some a).
Proof.
  intros H. split.
  - intros a' x Ha' Hn. rewrite lookup_insert_ne; [done|congruence].
  - simpl. by rewrite (keys_update a b).
Qed.

Section Proofs.
Context {MA : Malloc} {LA : MallocLaws MA}.

Lemma new_holds n h :
  0 <= n < 2 ^ 64 ->
  match new_sbuffer n h with
  | (Ok b, h') => holds h' b [] /\ moved h None h' (m_data b)
  | (Throw e, h') => e = bad_alloc
  end.
Proof.
  intros Hn. unfold new_sbuffer, malloc. destruct (Z.eqb_spec n 0) as [->|Hz].
  - split; [|apply moved_refl]. by split.
  - destruct (os_malloc h n) as [a|] eqn:E; [|done].
    pose proof (malloc_bounded _ _ _ E). pose proof (malloc_aligned _ _ _ E).
    pose proof (malloc_fresh _ _ _ E). split; [|by apply moved_malloc].
    split; simpl; [done|unfold len; simpl; lia|]. exists (blank n). rewrite lookup_insert_eq.
    split; [done|]. rewrite len_nil, len_blank; lia.
Qed.

Lemma destroy_holds h b d : holds h b d ->
  exists h', destroy b h = (Ok tt, h') /\ moved h (m_data b) h' None.
Proof.
  intros [_ _ Hd]. unfold destroy, free. destruct (m_data b) as [a|].
  - destruct Hd as (rest & Ha & _). rewrite Ha. eexists. split; [done|]. by eapply moved_free.
  - eexists. split; [done|apply moved_refl].
Qed.

(** The buffer grows to the room asked for and keeps its bytes, or the system refuses. *)
Lemma expand_holds h b d l :
  holds h b d -> 0 <= l < 2 ^ 63 -> m_alloc b - len d < l ->
  match expand_buffer l b h with
  | (Ok b', h') => holds h' b' d /\ moved h (m_data b) h' (m_data b') /\ len d + l <= m_alloc b'
  | (Throw e, h') => e = bad_alloc /\ h' = h
  end.
Proof.
  intros [Hs Ha Hd] Hl Hsh. unfold expand_buffer. pose proof (len_nonneg d).
  rewrite (wrap_small 64 (m_size b + l)) by lia.
  set (n0 := if 0 <? m_alloc b then _ else _).
  assert (Hn0 : 0 <= n0 < 2 ^ 64).
  { subst n0. destruct (0 <? m_alloc b); [by apply wrap_range|unfold MSGPACK_SBUFFER_INIT_SIZE; lia]. }
  assert (Hbig : forall r, m_size b + l <= r -> m_alloc b <= r) by lia.
  destruct (grow_ok n0 (m_size b + l) Hn0 ltac:(lia)) as (r & -> & Hr & Hr2).
  destruct (m_data b) as [a|].
  - destruct Hd as (rest & Hb & Hlen). simpl. rewrite Hb.
    destruct (os_malloc (delete a h) r) as [a'|] eqn:E; [|done].
    pose proof (malloc_bounded _ _ _ E). pose proof (malloc_aligned _ _ _ E).
    pose proof (malloc_fresh _ _ _ E) as Hf.
    assert (Hlm : len (map Some d ++ rest) = m_alloc b).
    { rewrite len_app. unfold len at 1. rewrite length_map. exact Hlen. }
    split; [|split].
    + split; simpl; [done|lia|]. exists (rest ++ blank (r - m_alloc b)).
      rewrite lookup_insert_eq. rewrite Hlm, take_ge by (unfold len in Hlm; lia).
      rewrite <- app_assoc, len_app, len_blank by lia. split; [done|lia].
    + eapply (moved_trans _ _ _ None); [by eapply moved_free|by apply moved_malloc].
    + simpl. lia.
  - simpl. unfold malloc. destruct (os_malloc h r) as [a'|] eqn:E; [|done].
    pose proof (malloc_bounded _ _ _ E). pose proof (malloc_aligned _ _ _ E).
    pose proof (malloc_fresh _ _ _ E) as Hf. assert (d = []) as -> by (destruct d; [done|len_lia]).
    split; [|split].
    + split; simpl; [done|lia|]. exists (blank r). rewrite lookup_insert_eq, len_nil, len_blank by lia.
      split; [done|lia].
    + by apply moved_malloc.
    + simpl. lia.
Qed.

Lemma append_ok h b d x :
  holds h b d -> len d + len x <= m_alloc b ->
  exists h', store (m_data b) (m_size b) x h = Some h' /\
    holds h' {| m_size := wrap 64 (m_size b + len x); m_data := m_data b; m_alloc := m_alloc b |}
          (d ++ x) /\
    moved h (m_data b) h' (m_data b).
Proof.
  intros [Hs Ha Hd] Hroom. pose proof (len_nonneg d). pose proof (len_nonneg x).
  rewrite Hs. destruct (m_data b) as [a|] eqn:Ea.
  - destruct Hd as (rest & Hb & Hlen). pose proof (len_nonneg rest).
    assert (Hmd : len (map (@Some byte) d) = len d) by (unfold len; by rewrite length_map).
    rewrite (store_ok a _ (len d) x h Hb) by (rewrite ?len_app, ?Hmd; lia).
    eexists. split; [done|]. split; [|by eapply moved_store].
    split; simpl.
    + rewrite len_app. apply wrap_small. lia.
    + rewrite len_app. lia.
    + exists (drop (Z.to_nat (len x)) rest). rewrite lookup_insert_eq. split.
      * f_equal. rewrite map_app, <- app_assoc. rewrite <- Hmd at 1. unfold len at 1.
        rewrite Nat2Z.id, take_app_length. do 2 f_equal.
        rewrite drop_app_ge by (rewrite length_map; unfold len; lia). f_equal.
        rewrite length_map. unfold len. lia.
      * rewrite len_app. unfold len in *. rewrite length_drop. lia.
  - destruct x as [|y x]; [|pose proof (len_nonneg x); rewrite len_cons in *; lia]. simpl. rewrite app_nil_r, len_nil.
    eexists. split; [done|]. split; [|apply moved_refl]. split; simpl; [|done|done].
    rewrite Z.add_0_r. apply wrap_small. lia.
Qed.

Lemma write_holds h b d x :
  holds h b d -> len x < 2 ^ 63 ->
  match write x b h with
  | (Ok b', h') => holds h' b' (d ++ x) /\ moved h (m_data b) h' (m_data b')
  | (Throw e, h') => e = bad_alloc /\ h' = h
  end.
Proof.
  intros Hb Hx. unfold write. pose proof (len_nonneg d). pose proof (len_nonneg x).
  pose proof (holds_size _ _ _ Hb) as Hs. pose proof (holds_alloc _ _ _ Hb) as Ha.
  rewrite wrap_small by lia. destruct (Z.ltb_spec (m_alloc b - m_size b) (len x)).
  - pose proof (expand_holds h b d (len x) Hb ltac:(lia) ltac:(lia)) as He.
    destruct (expand_buffer (len x) b h) as [[b'|e] h1]; [|done].
    destruct He as (Hb' & Hm & Hroom).
    destruct (append_ok h1 b' d x Hb' Hroom) as (h2 & -> & Hb2 & Hm2). split; [done|].
    by eapply moved_trans.
  - destruct (append_ok h b d x Hb ltac:(lia)) as (h2 & -> & Hb2 & Hm2). by split.
Qed.

(** ** Programs *)

(** Every live block has one owner: a variable, or the pointers given away. *)
Definition slots (v : gmap Z sbuffer) : list Z :=
  omap (fun kv => m_data kv.2) (map_to_list v).

Record good (s : state) (v : gmap Z bytes) : Prop := {
  good_vars : forall i, match vars s !! i, v !! i with
                        | Some b, Some d => holds (hp s) b d
                        | None, None => True
                        | _, _ => False
                        end;
  good_owners : slots (vars s) ++ released s ≡ₚ keys (hp s);
}.

Lemma slots_insert v i b : v !! i = None -> slots (<[i := b]> v) ≡ₚ option_list (m_data b) ++ slots v.
Proof.
  intros H. unfold slots. rewrite map_to_list_insert by done. simpl.
  by destruct (m_data b).
Qed.

Lemma slots_delete v i :
  slots v ≡ₚ option_list (v !! i ≫= m_data) ++ slots (delete i v).
Proof.
  destruct (v !! i) as [b|] eqn:E.
  - rewrite <- (slots_insert _ i b) by apply lookup_delete_eq. by rewrite insert_delete_id.
  - simpl. by rewrite delete_id.
Qed.

Lemma slots_put v i b :
  option_list (v !! i ≫= m_data) ++ slots (<[i := b]> v) ≡ₚ option_list (m_data b) ++ slots v.
Proof.
  rewrite (slots_delete v i), <- insert_delete_eq, slots_insert by apply lookup_delete_eq.
  by rewrite !app_assoc, (Permutation_app_comm (option_list (m_data b))).
Qed.

Lemma good_apart s v i k b a :
  good s v -> i <> k -> vars s !! k = Some b -> m_data b = Some a ->
  vars s !! i ≫= m_data <> Some a.
Proof.
  intros G Hne Hk Ha Hi. pose proof (NoDup_keys (hp s)) as Hnd.
  rewrite <- (good_owners _ _ G), (slots_delete _ i), Hi, (slots_delete _ k) in Hnd.
  rewrite lookup_delete_ne, Hk in Hnd by done. simpl in Hnd. rewrite Ha in Hnd. simpl in Hnd.
  apply NoDup_cons in Hnd as [Hnin _]. apply Hnin, list_elem_of_here.
Qed.

Lemma holds_moved h b d p h' p' :
  holds h b d -> moved h p h' p' -> (forall a, m_data b = Some a -> p <> Some a) -> holds h' b d.
Proof.
  intros [Hs Ha Hd] [F _] Hp. split; [done|done|]. destruct (m_data b) as [a|]; [|done].
  destruct Hd as (rest & Hb & Hl). exists rest. split; [|done]. apply F; [done|]. by apply Hp.
Qed.

Lemma put_good s v i b d h' :
  good s v -> moved (hp s) (vars s !! i ≫= m_data) h' (m_data b) -> holds h' b d ->
  good (with_vars (<[i := b]> (vars s)) h' s) (<[i := d]> v).
Proof.
  intros G M Hb. split; simpl.
  - intros k. destruct (decide (i = k)) as [<-|Hne]; [by rewrite !lookup_insert_eq|].
    rewrite !lookup_insert_ne by done. pose proof (good_vars _ _ G k) as Gk.
    destruct (vars s !! k) as [bk|] eqn:Ek, (v !! k); try done.
    apply (holds_moved _ _ _ _ _ _ Gk M). intros a Ha. by apply (good_apart s v i k bk a).
  - destruct M as [_ P]. apply (Permutation_app_inv_l (option_list (vars s !! i ≫= m_data))).
    rewrite app_assoc, slots_put, <- P.
    rewrite <- app_assoc. apply Permutation_app_head. apply good_owners with v, G.
Qed.

(** The buffer of [i] goes to [j], which has none. *)
Lemma shift_good s v i j b d :
  good s v -> i <> j -> vars s !! i = Some b -> v !! i = Some d -> vars s !! j ≫= m_data = None ->
  good (with_vars (<[j := b]> (<[i := moved_from]> (vars s))) (hp s) s) (<[j := d]> (<[i := []]> v)).
Proof.
  intros G Hne Hi Hd Hj. pose proof (good_vars _ _ G i) as Gi. rewrite Hi, Hd in Gi. split; simpl.
  - intros k. destruct (decide (j = k)) as [<-|]; [by rewrite !lookup_insert_eq|].
    rewrite !(lookup_insert_ne _ j) by done.
    destruct (decide (i = k)) as [<-|]; [rewrite !lookup_insert_eq; by split|].
    rewrite !lookup_insert_ne by done. apply (good_vars _ _ G).
  - rewrite <- (good_owners _ _ G). apply Permutation_app_tail.
    pose proof (slots_put (<[i := moved_from]> (vars s)) j b) as P.
    rewrite lookup_insert_ne, Hj in P by done. simpl in P. rewrite P.
    pose proof (slots_put (vars s) i moved_from) as Q. rewrite Hi in Q. simpl in Q. exact Q.
Qed.

Lemma release_good s v i r :
  good s v -> step (Release i) s = Some r ->
  match r with Ok s' => good s' (<[i := []]> v) | Throw e => e = bad_alloc end.
Proof.
  cbn [step]. intros G Hs.
  apply bind_Some in Hs as (b & Ei & [= <-]). pose proof (good_vars _ _ G i) as Gi.
  rewrite Ei in Gi. split; simpl.
  - intros k. destruct (decide (i = k)) as [<-|]; [rewrite !lookup_insert_eq; by split|].
    rewrite !lookup_insert_ne by done. apply (good_vars _ _ G).
  - rewrite <- (good_owners _ _ G). rewrite app_assoc. apply Permutation_app_tail.
    pose proof (slots_put (vars s) i moved_from) as P. rewrite Ei in P. simpl in P. rewrite <- P.
    apply Permutation_app_comm.
Qed.

Lemma free_good s v r :
  good s v -> step Free s = Some r -> match r with Ok s' => good s' v | Throw e => e = bad_alloc end.
Proof.
  cbn [step]. intros G Hs.
  destruct (released s) as [|a l] eqn:El; [done|]. injection Hs as <-.
  pose proof (good_owners _ _ G) as P. rewrite El, <- Permutation_middle in P.
  assert (Ha : a ∈ keys (hp s)) by (rewrite <- P; apply list_elem_of_here).
  apply keys_elem in Ha as [b Hb]. simpl. rewrite Hb. pose proof (moved_free a b _ Hb) as M.
  split; simpl.
  - intros k. pose proof (good_vars _ _ G k) as Gk. destruct (vars s !! k) as [bk|] eqn:Ek, (v !! k); try done.
    apply (holds_moved _ _ _ _ _ _ Gk M). intros c Hc [= ->].
    pose proof (NoDup_keys (hp s)) as Hnd. rewrite <- P, (slots_delete _ k), Ek in Hnd. simpl in Hnd.
    rewrite Hc in Hnd. simpl in Hnd. apply NoDup_cons in Hnd as [Hnin _]. apply Hnin, list_elem_of_here.
  - rewrite (keys_delete a b) in P by done. by apply Permutation_cons_inv in P.
Qed.

Lemma destroy_good s v i r :
  good s v -> step (Destroy i) s = Some r ->
  match r with Ok s' => good s' (delete i v) | Throw e => e = bad_alloc end.
Proof.
  cbn [step]. intros G Hs.
  apply bind_Some in Hs as (b & Ei & [= <-]). pose proof (good_vars _ _ G i) as Gi.
  rewrite Ei in Gi. destruct (v !! i) as [d|]; [|done].
  destruct (destroy_holds _ _ _ Gi) as (h' & -> & M). split; simpl.
  - intros k. destruct (decide (i = k)) as [<-|Hne]; [by rewrite !lookup_delete_eq|].
    rewrite !lookup_delete_ne by done. pose proof (good_vars _ _ G k) as Gk.
    destruct (vars s !! k) as [bk|] eqn:Ek, (v !! k); try done.
    apply (holds_moved _ _ _ _ _ _ Gk M). intros a Ha.
    pose proof (good_apart s v i k bk a G Hne Ek Ha) as Hx. rewrite Ei in Hx. exact Hx.
  - pose proof (good_owners _ _ G) as P. rewrite (slots_delete _ i), Ei in P. simpl in P.
    destruct M as [_ Q]. simpl in Q. rewrite Q, <- app_assoc in P.
    by apply Permutation_app_inv_l in P.
Qed.

(** Every operation keeps the invariant and does what it does on byte strings, or memory
    ran out. *)
Lemma step_good o s v r :
  good s v -> op_fits o -> step o s = Some r ->
  match r with Ok s' => good s' (spec_step o v) | Throw e => e = bad_alloc end.
Proof.
  intros G Hf Hs. destruct o as [i n|i x|j i|j i|i|i| |i];
    [cbn [step spec_step] in *..|by apply (release_good s v i)|by apply (free_good s v)|by apply (destroy_good s v i)].
  - pose proof (new_holds n (hp s) Hf) as Hn. destruct (vars s !! i) eqn:Ei; [done|].
    injection Hs as <-. destruct (new_sbuffer n (hp s)) as [[b|e] h']; [|done].
    destruct Hn as [Hb M]. apply put_good; [done|by rewrite Ei|done].
  - apply bind_Some in Hs as (b & Ei & [= <-]). pose proof (good_vars _ _ G i) as Gi.
    rewrite Ei in Gi. destruct (v !! i) as [d|]; [|done].
    pose proof (write_holds _ _ _ x Gi Hf) as Hw. destruct (write x b (hp s)) as [[b'|e] h']; [|by destruct Hw].
    destruct Hw as [Hb M]. simpl. apply put_good; [done|by rewrite Ei|done].
  - apply bind_Some in Hs as (b & Ei & Hs). destruct (vars s !! j) as [|] eqn:Ej; [done|].
    injection Hs as <-. pose proof (good_vars _ _ G i) as Gi. rewrite Ei in Gi.
    destruct (v !! i) as [d|] eqn:Ed; [|done].
    apply shift_good; [done|congruence|done|done|by rewrite Ej].
  - destruct (Z.eqb_spec j i) as [|Hne]; [done|]. apply bind_Some in Hs as (b & Ej & Hs).
    apply bind_Some in Hs as (b' & Ei & [= <-]). unfold move_assign.
    pose proof (good_vars _ _ G j) as Gj. pose proof (good_vars _ _ G i) as Gi.
    rewrite Ej in Gj. rewrite Ei in Gi. destruct (v !! j) as [dj|]; [|done].
    destruct (v !! i) as [d|] eqn:Ed; [|done].
    destruct (destroy_holds _ _ _ Gj) as (h' & -> & M). simpl.
    assert (G1 : good (with_vars (<[j := moved_from]> (vars s)) h' s) (<[j := []]> v)).
    { apply put_good; [done|by rewrite Ej|by split]. }
    apply (shift_good _ _ i j b' d) in G1; [|congruence|..]; simpl.
    2: by rewrite lookup_insert_ne. 2: by rewrite lookup_insert_ne. 2: by rewrite lookup_insert_eq.
    unfold with_vars in *. simpl in *.
    rewrite !(insert_insert_ne _ i j), !insert_insert_eq in G1 by congruence.
    exact G1.
  - apply bind_Some in Hs as (b & Ei & [= <-]). pose proof (good_vars _ _ G i) as Gi.
    rewrite Ei in Gi. destruct (v !! i) as [d|]; [|done].
    apply put_good; [done|rewrite Ei; apply moved_refl|].
    destruct Gi as [Hs' Ha Hd]. pose proof (len_nonneg d). split; simpl; [done|unfold len; simpl; lia|].
    destruct (m_data b) as [a|]; [|done]. destruct Hd as (rest & Hb & Hl).
    eexists. split; [exact Hb|]. rewrite len_nil, len_app. unfold len in *. rewrite length_map. lia.
Qed.

Lemma run_good ops s v r :
  good s v -> Forall op_fits ops -> run ops s = Some r ->
  match r with Ok s' => good s' (spec_run ops v) | Throw e => e = bad_alloc end.
Proof.
  revert s v. induction ops as [|o ops IH]; intros s v G Hf Hr; cbn [run] in Hr; [by injection Hr as <-|].
  apply Forall_cons in Hf as [Ho Hf]. destruct (step o s) as [r1|] eqn:E; [|done].
  pose proof (step_good o s v r1 G Ho E) as H. destruct r1 as [s1|e]; [|by injection Hr as <-].
  by apply (IH s1 (spec_step o v)).
Qed.
End Proofs.

Definition start : state := {| vars := ∅; released := []; hp := ∅ |}.

Lemma start_good : good start ∅.
Proof. split; [|done]. intros i. by rewrite !lookup_empty. Qed.

(** C28. A program with any number of output buffers (created, written to, moved, assigned,
    cleared, released, destroyed, in any order) computes on them what it computes on byte strings
    that are appended to, unless memory runs out: growing never loses or overruns anything, and
    when every buffer is destroyed and every released pointer freed nothing is left allocated. *)
Theorem sbuffers_are_strings {MA : Malloc} {LA : MallocLaws MA} ops r :
  Forall op_fits ops -> run ops start = Some r ->
  match r with
  | Ok s =>
    (forall i, match vars s !! i, spec_run ops ∅ !! i with
               | Some b, Some d => holds (hp s) b d
               | None, None => True
               | _, _ => False
               end) /\
    (vars s = ∅ -> released s = [] -> hp s = ∅)
  | Throw e => e = bad_alloc
  end.
Proof.
  intros Hf Hr. pose proof (run_good ops start ∅ r start_good Hf Hr) as H.
  destruct r as [s|e]; [|done]. split; [apply H|]. intros Hv Hl.
  pose proof (good_owners _ _ H) as P. rewrite Hv, Hl in P. unfold keys in P.
  apply Permutation_nil_l in P. symmetry in P. by apply fmap_nil_inv, map_to_list_empty_iff in P.
Qed.

(** Two buffers: the first outgrows its memory, moves to the second, which is released. *)
Definition sample_program : list op :=
  [New 1 4; New 2 0; Write 2 [chr 7]; Write 1 [chr 1; chr 2; chr 3]; Write 1 [chr 4; chr 5; chr 6];
   Assign 2 1; Write 2 [chr 8]; Write 1 [chr 9]; Release 2; Free; Destroy 1].

Lemma sbuffers_are_strings_witness :
  exists s, run (MA := bump 100000) sample_program start = Some (Ok s) /\
    (vars s = {[2 := moved_from]} /\ hp s = ∅) /\
    forall i, match vars s !! i, spec_run sample_program ∅ !! i with
               | Some b, Some d => holds (hp s) b d
               | None, None => True
               | _, _ => False
               end.
Proof.
  destruct (run (MA := bump 100000) sample_program start) as [[s|e]|] eqn:E;
    [|vm_compute in E; discriminate E..].
  exists s. split; [done|]. split.
  - vm_compute in E. injection E as <-. split; vm_compute; reflexivity.
  - eapply (sbuffers_are_strings (LA := bump_laws 100000) sample_program (Ok s)); [|exact E].
    repeat constructor; vm_compute; congruence.
Defined.
