(* ===== verification/Vrefbuffer.v ===== *)
(** * The zero-copy buffer

    Models [vrefbuffer] (v1/vrefbuffer.hpp): a vector of [iovec]s that point to the bytes
    written, short ones copied into chunks the buffer owns, long ones where the caller
    has them. The chunks and the vector are blocks of the heap of [Alloc]; the
    entries of the vector are kept in the buffer's record beside the block reserved for
    them, and the links of the chunks as the list of their addresses. *)

From S2P Require Import Prelude Alloc.

(** [sizeof(chunk)] and [sizeof(iovec)]: one pointer; a pointer and a size. *)
Definition sizeof_chunk : Z := 8.
Definition sizeof_iovec : Z := 16.
Definition packer_max_buffer_size : Z := 9.

Inductive fault :=
| bad_alloc
| invalid_access | out_of_fuel.        (* undefined behaviour; no fuel *)

(** ** Pointers

    The block pointed into and the offset there; two are equal when their addresses are. *)

Abbreviation pointer := (Z * Z)%type.

Definition address (p : pointer) : Z := p.1 + p.2.

(** The [n] bytes at [p]: inside one block, and written. *)
Definition load (p : pointer) (n : Z) (h : heap) : option bytes :=
  b ← h !! p.1;
  if (0 <=? p.2) && (0 <=? n) && (p.2 + n <=? len b) then mapM id (slice b p.2 n) else None.

Definition overlap (p q : pointer) (n : Z) : bool :=
  (p.1 =? q.1) && (p.2 <? q.2 + n) && (q.2 <? p.2 + n).

Definition memcpy (dst src : pointer) (n : Z) (h : heap) : option heap :=
  d ← load src n h;
  if overlap dst src n then None else store (Some dst.1) dst.2 d h.

(** ** The buffer *)

Record iovec := { iov_base : pointer; iov_len : Z }.

(** [m_tail - m_array] entries are in use of [m_end - m_array]. *)
Record vrefbuffer := {
  m_array : Z;
  entries : list iovec;
  m_end : Z;
  m_ref_size : Z;
  m_chunk_size : Z;
  ib_free : Z;
  ib_ptr : pointer;
  ib_head : list Z;                    (* from head along next *)
}.

Definition set_vector (a : Z) (l : list iovec) (e : Z) (b : vrefbuffer) : vrefbuffer :=
  {| m_array := a; entries := l; m_end := e; m_ref_size := m_ref_size b;
     m_chunk_size := m_chunk_size b; ib_free := ib_free b; ib_ptr := ib_ptr b; ib_head := ib_head b |}.
Definition set_entries (l : list iovec) (b : vrefbuffer) : vrefbuffer :=
  set_vector (m_array b) l (m_end b) b.
Definition set_inner (free : Z) (ptr : pointer) (head : list Z) (b : vrefbuffer) : vrefbuffer :=
  {| m_array := m_array b; entries := entries b; m_end := m_end b; m_ref_size := m_ref_size b;
     m_chunk_size := m_chunk_size b; ib_free := free; ib_ptr := ptr; ib_head := head |}.

(** What the members return: a state survives an exception. *)
Abbreviation outcome S := (res fault unit * S)%type.

Section Vrefbuffer.
Context {MA : Malloc}.

Definition new_vrefbuffer (ref_size chunk_size : Z) (h : heap) : res fault vrefbuffer * heap :=
  let nfirst := if sizeof_iovec <? 72 / 2 then 72 / sizeof_iovec else 8 in
  match malloc (sizeof_iovec * nfirst) h with
  | (None, h) => (Throw bad_alloc, h)
  | (Some array, h) =>
    match malloc (wrap 64 (sizeof_chunk + chunk_size)) h with
    | (None, h) =>
      match free (Some array) h with
      | Some h => (Throw bad_alloc, h)
      | None => (Throw invalid_access, h)
      end
    | (Some c, h) =>
      (Ok {| m_array := array; entries := []; m_end := nfirst;
             m_ref_size := Z.max ref_size (packer_max_buffer_size + 1);
             m_chunk_size := chunk_size;
             ib_free := chunk_size; ib_ptr := (c, sizeof_chunk); ib_head := [c] |}, h)
    end
  end.

Fixpoint free_chunks (l : list Z) (h : heap) : option heap :=
  match l with
  | [] => Some h
  | c :: n => h ← free (Some c) h; free_chunks n h
  end.

Definition destroy (b : vrefbuffer) (h : heap) : option heap :=
  h ← free_chunks (ib_head b) h;
  free (Some (m_array b)) h.

(** ** Writing *)

Definition grow_vector (s : vrefbuffer * heap) : outcome (vrefbuffer * heap) :=
  let '(b, h) := s in
  let nused := len (entries b) in
  let nnext := wrap 64 (nused * 2) in
  match realloc (Some (m_array b)) (wrap 64 (sizeof_iovec * nnext)) h with
  | None => (Throw invalid_access, s)
  | Some (None, h) => (Throw bad_alloc, (b, h))
  | Some (Some nvec, h) => (Ok tt, (set_vector nvec (entries b) nnext b, h))
  end.

Definition append_ref (buf : pointer) (n : Z) (s : vrefbuffer * heap) : outcome (vrefbuffer * heap) :=
  match (if len (entries s.1) =? m_end s.1 then grow_vector s else (Ok tt, s)) with
  | (Ok _, (b, h)) =>
    (Ok tt, (set_entries (entries b ++ [{| iov_base := buf; iov_len := n |}]) b, h))
  | r => r
  end.

Definition new_chunk (n : Z) (s : vrefbuffer * heap) : outcome (vrefbuffer * heap) :=
  let '(b, h) := s in
  let sz := if m_chunk_size b <? n then n else m_chunk_size b in
  match malloc (wrap 64 (sizeof_chunk + sz)) h with
  | (None, h) => (Throw bad_alloc, (b, h))
  | (Some c, h) => (Ok tt, (set_inner sz (c, sizeof_chunk) (c :: ib_head b) b, h))
  end.

(** The last entry is made longer when the new bytes follow it in memory. *)
Definition follows (m : pointer) (l : list iovec) : bool :=
  match last l with
  | Some e => address m =? address (iov_base e) + iov_len e
  | None => false
  end.

Definition extend_last (n : Z) (l : list iovec) : list iovec :=
  match last l with
  | Some e => removelast l ++ [{| iov_base := iov_base e; iov_len := wrap 64 (iov_len e + n) |}]
  | None => l
  end.

Definition append_copy (buf : pointer) (n : Z) (s : vrefbuffer * heap) : outcome (vrefbuffer * heap) :=
  match (if ib_free s.1 <? n then new_chunk n s else (Ok tt, s)) with
  | (Ok _, (b, h)) =>
    let m := ib_ptr b in
    match memcpy m buf n h with
    | None => (Throw invalid_access, (b, h))
    | Some h =>
      let b := set_inner (wrap 64 (ib_free b - n)) (m.1, m.2 + n) (ib_head b) b in
      if follows m (entries b) then (Ok tt, (set_entries (extend_last n (entries b)) b, h))
      else append_ref m n (b, h)
    end
  | r => r
  end.

Definition write (buf : pointer) (n : Z) (s : vrefbuffer * heap) : outcome (vrefbuffer * heap) :=
  if n <? m_ref_size s.1 then append_copy buf n s else append_ref buf n s.

(** ** Clearing, and giving everything to another buffer *)

Definition clear (s : vrefbuffer * heap) : outcome (vrefbuffer * heap) :=
  let '(b, h) := s in
  match ib_head b with
  | [] => (Throw invalid_access, s)
  | c :: n =>
    match free_chunks n h with
    | None => (Throw invalid_access, s)
    | Some h =>
      (Ok tt, (set_entries [] (set_inner (m_chunk_size b) (c, sizeof_chunk) [c] b), h))
    end
  end.

(** Room for [nused] entries more in [to], as [migrate] sees to it: the last member of
    the test is [m_end] of the buffer they come from. *)
Definition migrate_room (b to : vrefbuffer) (h : heap) : outcome (vrefbuffer * heap) :=
  let nused := len (entries b) in
  let tosize := len (entries to) in
  if m_array to + sizeof_iovec * (tosize + nused) <? m_array b + sizeof_iovec * m_end b then
    let reqsize := wrap 64 (nused + tosize) in
    match grow 64 (wrap 64 (m_end to * 2)) reqsize with
    | None => (Throw out_of_fuel, (to, h))
    | Some nnext =>
      match realloc (Some (m_array to)) (wrap 64 (sizeof_iovec * nnext)) h with
      | None => (Throw invalid_access, (to, h))
      | Some (None, h) => (Throw bad_alloc, (to, h))
      | Some (Some nvec, h) => (Ok tt, (set_vector nvec (entries to) nnext to, h))
      end
    end
  else (Ok tt, (to, h)).

(** The entries and the chunks of [b] after those of [to]; [to] goes on in the chunk with
    more room. *)
Definition adopt (b to : vrefbuffer) : vrefbuffer :=
  let '(free, ptr) := if ib_free to <? ib_free b then (ib_free b, ib_ptr b)
                      else (ib_free to, ib_ptr to) in
  set_entries (entries to ++ entries b) (set_inner free ptr (ib_head b ++ ib_head to) to).

Definition migrate (b to : vrefbuffer) (h : heap) : outcome (vrefbuffer * vrefbuffer * heap) :=
  let sz := m_chunk_size b in
  match malloc (wrap 64 (sizeof_chunk + sz)) h with
  | (None, h) => (Throw bad_alloc, (b, to, h))
  | (Some empty, h) =>
    match migrate_room b to h with
    | (Throw bad_alloc, (to, h)) =>
      match free (Some empty) h with
      | Some h => (Throw bad_alloc, (b, to, h))
      | None => (Throw invalid_access, (b, to, h))
      end
    | (Throw e, (to, h)) => (Throw e, (b, to, h))
    | (Ok _, (to, h)) =>
      if m_end to <? len (entries to) + len (entries b) then (Throw invalid_access, (b, to, h))
      else (Ok tt, (set_entries [] (set_inner sz (empty, sizeof_chunk) [empty] b), adopt b to, h))
    end
  end.

(** ** Programs with several buffers

    What an [iovec] vector stands for, and buffers in variables. *)

Definition contents (h : heap) (l : list iovec) : option bytes :=
  @concat byte <$> mapM (fun e => load (iov_base e) (iov_len e) h) l.

Record state := { vars : gmap Z vrefbuffer; hp : heap }.

Inductive op :=
| New (i ref_size chunk_size : Z)
| Write (i : Z) (buf : pointer) (n : Z)
| AppendRef (i : Z) (buf : pointer) (n : Z)
| AppendCopy (i : Z) (buf : pointer) (n : Z)
| Clear (i : Z)
| Migrate (i j : Z)                    (* [i.migrate(&j)] *)
| Destroy (i : Z).

Definition on (i : Z) (f : vrefbuffer * heap -> outcome (vrefbuffer * heap)) (s : state)
  : option (outcome state) :=
  b ← vars s !! i;
  let '(r, (b, h)) := f (b, hp s) in
  Some (r, {| vars := <[i := b]> (vars s); hp := h |}).

(** [None]: the program is not one (a variable declared twice, or not at all). *)
Definition step (o : op) (s : state) : option (outcome state) :=
  match o with
  | New i ref_size chunk_size =>
    match vars s !! i with
    | Some _ => None
    | None =>
      Some match new_vrefbuffer ref_size chunk_size (hp s) with
           | (Ok b, h) => (Ok tt, {| vars := <[i := b]> (vars s); hp := h |})
           | (Throw e, h) => (Throw e, {| vars := vars s; hp := h |})
           end
    end
  | Write i buf n => on i (write buf n) s
  | AppendRef i buf n => on i (append_ref buf n) s
  | AppendCopy i buf n => on i (append_copy buf n) s
  | Clear i => on i clear s
  | Migrate i j =>
    if i =? j then None else
    b ← vars s !! i;
    to ← vars s !! j;
    let '(r, (b, to, h)) := migrate b to (hp s) in
    Some (r, {| vars := <[j := to]> (<[i := b]> (vars s)); hp := h |})
  | Destroy i =>
    b ← vars s !! i;
    Some match destroy b (hp s) with
         | Some h => (Ok tt, {| vars := delete i (vars s); hp := h |})
         | None => (Throw invalid_access, s)
         end
  end.

(** A program goes on after an exception, with what each operation returned. *)
Fixpoint run (ops : list op) (s : state) : option (list (res fault unit) * state) :=
  match ops with
  | [] => Some ([], s)
  | o :: ops =>
    '(r, s) ← step o s;
    match r with
    | Ok _ | Throw bad_alloc => '(rs, s) ← run ops s; Some (r :: rs, s)
    | Throw _ => Some ([r], s)
    end
  end.
End Vrefbuffer.
