(* ===== verification/VrefbufferSpec.v ===== *)
(** * What the zero-copy buffer promises

    The vector of a [vrefbuffer] stands for the bytes written to it, whichever of them
    were copied, as long as the memory the caller refers to stays as it is. A buffer
    owns its vector and its chunks, and gives them back. *)

From S2P Require Import Prelude Alloc Vrefbuffer.

(** ** Reading memory *)

Lemma mapM_id_Some {A} (l : list (option A)) k : mapM id l = Some k <-> l = map Some k.
Proof.
  revert k. induction l as [|x l IH]; intros k; simpl.
  - split; [by intros [= <-]|by destruct k].
  - split.
    + intros (y & Hy & (k' & Hk & [= <-])%bind_Some)%bind_Some. simpl in Hy. simplify_eq.
      simpl. f_equal. by apply IH.
    + destruct k as [|y k]; [done|]. intros [= -> Hl%IH]. simpl. by rewrite Hl.
Qed.

(** What a successful [load] says of the block. *)
Lemma load_split p n h x :
  load p n h = Some x <->
  exists l r, h !! p.1 = Some (l ++ map Some x ++ r) /\ len l = p.2 /\ len x = n.
Proof.
  unfold load. split.
  - intros (b & Hb & H)%bind_Some. destruct (_ && _) eqn:E; [|done].
    apply andb_true_iff in E as [[H1%Z.leb_le H2%Z.leb_le]%andb_true_iff H3%Z.leb_le].
    apply mapM_id_Some in H. unfold slice in H.
    exists (take (Z.to_nat p.2) b), (drop (Z.to_nat n) (drop (Z.to_nat p.2) b)).
    rewrite <- H, !take_drop. split; [done|]. unfold len in *.
    apply (f_equal length) in H. rewrite length_map, length_take, length_drop in H.
    rewrite length_take. lia.
  - intros (l & r & Hb & Hl & Hx). rewrite Hb. cbn [mbind option_bind].
    pose proof (len_nonneg l). pose proof (len_nonneg x). pose proof (len_nonneg r).
    assert (Hm : len (map (@Some byte) x) = n) by (unfold len in *; by rewrite length_map).
    rewrite !len_app, Hm.
    rewrite !(proj2 (Z.leb_le _ _)) by lia. simpl.
    apply mapM_id_Some. rewrite <- Hl. rewrite slice_app by done. done.
Qed.

Lemma load_agree p n h h' : h' !! p.1 = h !! p.1 -> load p n h' = load p n h.
Proof. unfold load. by intros ->. Qed.

Lemma load_app a o n m h x y :
  load (a, o) n h = Some x -> load (a, o + n) m h = Some y -> load (a, o) (n + m) h = Some (x ++ y).
Proof.
  rewrite !load_split. intros (l & r & Hb & Hl & Hx) (l' & r' & Hb' & Hl' & Hy). cbn [fst snd] in *.
  assert (Hxl : len (l ++ map Some x) = len l').
  { rewrite len_app. unfold len in *. rewrite length_map. lia. }
  rewrite Hb, app_assoc in Hb'. injection Hb' as Heq.
  apply app_inj_1 in Heq as [<- ->]; [|unfold len in Hxl; lia].
  exists l, r'. rewrite Hb, map_app, <- !app_assoc. split; [done|]. rewrite len_app. lia.
Qed.

(** What is stored can be read, and what was before it still can. *)
Lemma store_load a b off d h :
  h !! a = Some b -> 0 <= off -> off + len d <= len b ->
  exists b', store (Some a) off d h = Some (<[a := b']> h) /\ len b' = len b /\
    load (a, off) (len d) (<[a := b']> h) = Some d /\
    forall o n x, load (a, o) n h = Some x -> o + n <= off ->
      load (a, o) n (<[a := b']> h) = Some x.
Proof.
  intros Hb Ho Hd. pose proof (len_nonneg d). eexists.
  split; [by apply store_ok|]. split; [|split].
  - rewrite !len_app. unfold len in *. rewrite length_take, length_map, length_drop. lia.
  - apply load_split. do 2 eexists. cbn [fst snd]. rewrite lookup_insert_eq.
    split; [done|]. unfold len in *. rewrite length_take. lia.
  - intros o n x (l & r & Hl & Hlo & Hx)%load_split Hn. cbn [fst snd] in *. rewrite Hb in Hl.
    injection Hl as ->. apply load_split. exists l. cbn [fst snd]. rewrite lookup_insert_eq.
    exists (take (Z.to_nat (off - (o + n))) r ++ map Some d ++ drop (Z.to_nat (off + len d)) (l ++ map Some x ++ r)).
    split; [|done]. f_equal. rewrite (app_assoc l (map Some x) r) at 1. rewrite take_app_ge, <- !app_assoc.
    + do 4 f_equal. rewrite length_app, length_map. unfold len in *. lia.
    + rewrite length_app, length_map. unfold len in *. lia.
Qed.

(** ** Trading blocks

    From [h] to [h'], the blocks [l] were given up, or kept, for the blocks [l'], and nothing
    else changed. *)

Record traded (h : heap) (l : list Z) (h' : heap) (l' : list Z) : Prop := {
  traded_out : forall a, a ∉ l' -> h' !! a = if decide (a ∈ l) then None else h !! a;
  traded_new : forall a, a ∈ l' -> a ∈ l \/ h !! a = None;
  traded_nodup : NoDup l -> NoDup l';
}.

#[export] Instance traded_proper :
  Proper (eq ==> (≡ₚ) ==> eq ==> (≡ₚ) ==> iff) traded.
Proof.
  assert (H : forall h l1 l2 h' k1 k2, l1 ≡ₚ l2 -> k1 ≡ₚ k2 -> traded h l1 h' k1 -> traded h l2 h' k2).
  { intros h l1 l2 h' k1 k2 Hl Hk [T1 T2 T3]. split; [intros a; rewrite <- Hk..|by rewrite <- Hl, <- Hk].
    - intros Ha. rewrite T1 by done. apply decide_ext. by rewrite Hl.
    - intros [Ha|Ha]%T2; [left|by right]. by rewrite <- Hl. }
  intros h _ <- l1 l2 Hl h' _ <- k1 k2 Hk. split; apply H; done || by symmetry.
Qed.

Lemma traded_refl h : traded h [] h [].
Proof. split; [intros a H..|done]; [by rewrite decide_False by apply not_elem_of_nil|by apply elem_of_nil in H]. Qed.

Lemma traded_trans h l h1 l1 h2 l2 : traded h l h1 l1 -> traded h1 l1 h2 l2 -> traded h l h2 l2.
Proof.
  intros [O1 N1 D1] [O2 N2 D2]. split; [intros a Ha..|by intros ?%D1%D2].
  - rewrite O2 by done. destruct (decide (a ∈ l1)) as [Hl1|Hl1]; [|by apply O1].
    destruct (N1 a Hl1); by case_decide.
  - destruct (N2 a Ha) as [Hl1|Hl1]; [by apply N1|].
    destruct (decide (a ∈ l1)); [by apply N1|]. rewrite O1 in Hl1 by done. case_decide; [by left|by right].
Qed.

(** Blocks that exist and take no part. *)
Lemma traded_frame h l h' l' (f : list Z) :
  (forall a, a ∈ f -> is_Some (h !! a) /\ a ∉ l) -> traded h l h' l' ->
  (forall a, a ∈ f -> h' !! a = h !! a /\ a ∉ l').
Proof.
  intros Hf [O N _] a Ha. destruct (Hf a Ha) as [[b Hb] Hl].
  assert (Hl' : a ∉ l') by (intros H; destruct (N a H); congruence).
  split; [|done]. rewrite O by done. by rewrite decide_False.
Qed.

Lemma traded_user (h0 h : heap) l h' l' :
  h0 ⊆ h -> (forall a, a ∈ l -> h0 !! a = None) -> traded h l h' l' -> h0 ⊆ h'.
Proof.
  intros Hu Hl [O N _]. apply map_subseteq_spec. intros a x Hx.
  assert (Ha : a ∉ l) by (intros H; by rewrite (Hl a H) in Hx).
  pose proof (lookup_weaken _ _ _ _ Hx Hu) as Hh.
  rewrite O, decide_False by first [done|intros H; destruct (N a H); congruence]. done.
Qed.

Lemma traded_with h l h' l' (f : list Z) :
  (forall a, a ∈ f -> is_Some (h !! a) /\ a ∉ l) -> traded h l h' l' -> traded h (f ++ l) h' (f ++ l').
Proof.
  intros Hf T. pose proof (traded_frame _ _ _ _ f Hf T) as F. destruct T as [O N D].
  split; [intros a; rewrite !elem_of_app..|].
  - intros Ha. rewrite O by tauto. apply decide_ext. rewrite elem_of_app. tauto.
  - intros [Ha|Ha]; [tauto|]. destruct (N a Ha); tauto.
  - intros (D1 & _ & D2)%NoDup_app. apply NoDup_app. split; [done|]. split; [|by apply D].
    intros a Ha. by apply F.
Qed.

Lemma traded_malloc h a b : h !! a = None -> traded h [] (<[a := b]> h) [a].
Proof.
  intros H. split; [intros c..|intros _; apply NoDup_singleton].
  - intros Hc%not_elem_of_cons. rewrite lookup_insert_ne by (symmetry; apply Hc).
    by rewrite decide_False by apply not_elem_of_nil.
  - intros ->%list_elem_of_singleton. by right.
Qed.

Lemma traded_free h a : traded h [a] (delete a h) [].
Proof.
  split; [intros c Hc..|intros _; constructor]; [|by apply elem_of_nil in Hc].
  destruct (decide (c ∈ [a])) as [->%list_elem_of_singleton|H]; [apply lookup_delete_eq|].
  rewrite lookup_delete_ne; [done|]. intros ->. by apply H, list_elem_of_here.
Qed.

Lemma traded_store h a b l : a ∈ l -> traded h l (<[a := b]> h) l.
Proof.
  intros Hl. split; [intros c Hc|by left|done]. rewrite decide_False by done.
  rewrite lookup_insert_ne; [done|]. by intros ->.
Qed.

(** ** The contents of a vector *)

Lemma contents_cons h e l :
  contents h (e :: l) = x ← load (iov_base e) (iov_len e) h; y ← contents h l; Some (x ++ y).
Proof.
  unfold contents. cbn [mapM]. destruct (load _ _ _); [|done]. simpl. by destruct (mapM _ l).
Qed.

Lemma contents_app h l k x y :
  contents h l = Some x -> contents h k = Some y -> contents h (l ++ k) = Some (x ++ y).
Proof.
  intros Hl Hk. revert x Hl. induction l as [|e l IH]; intros x Hl; [by injection Hl as <-|].
  rewrite contents_cons in Hl. apply bind_Some in Hl as (z & Hz & (w & Hw & [= <-])%bind_Some).
  change ((e :: l) ++ k) with (e :: (l ++ k)). rewrite contents_cons, Hz, (IH _ Hw). simpl.
  by rewrite app_assoc.
Qed.

Lemma contents_one h e x : load (iov_base e) (iov_len e) h = Some x -> contents h [e] = Some x.
Proof. intros H. rewrite contents_cons, H. simpl. by rewrite app_nil_r. Qed.

Lemma contents_snoc h l e d :
  contents h (l ++ [e]) = Some d ->
  exists x y, contents h l = Some x /\ load (iov_base e) (iov_len e) h = Some y /\ d = x ++ y.
Proof.
  revert d. induction l as [|f l IH]; intros d; rewrite ?app_nil_l, <- ?app_comm_cons, contents_cons.
  - intros (y & Hy & [= <-])%bind_Some. exists [], y. by rewrite app_nil_r.
  - intros (z & Hz & (w & Hw & [= <-])%bind_Some)%bind_Some. destruct (IH w Hw) as (x & y & Hx & Hy & ->).
    exists (z ++ x), y. rewrite contents_cons, Hz, Hx. simpl. by rewrite app_assoc.
Qed.

(** Whatever is read from [h] is read from [h']. *)
Lemma contents_mono h h' l d :
  (forall e x, e ∈ l -> load (iov_base e) (iov_len e) h = Some x -> load (iov_base e) (iov_len e) h' = Some x) ->
  contents h l = Some d -> contents h' l = Some d.
Proof.
  revert d. induction l as [|e l IH]; intros d H; [done|]. rewrite !contents_cons.
  intros (x & Hx & (y & Hy & [= <-])%bind_Some)%bind_Some.
  rewrite (H e x (list_elem_of_here _ _) Hx). simpl. rewrite (IH y); [done| |done].
  intros f z Hf. apply H. by apply list_elem_of_further.
Qed.

(** ** One buffer

    [h0]: the heap without the buffers, where the caller's bytes are; [cs]: the chunk size
    of every buffer. *)

Definition owned (b : vrefbuffer) : list Z := m_array b :: ib_head b.

(** An entry points to bytes written in a chunk, or to the caller's memory. *)
Definition entry_ok (h0 : heap) (b : vrefbuffer) (e : iovec) : Prop :=
  (iov_base e).1 ∈ ib_head b /\ sizeof_chunk <= (iov_base e).2 /\
    ((iov_base e).1 = (ib_ptr b).1 -> (iov_base e).2 + iov_len e <= (ib_ptr b).2) \/
  is_Some (h0 !! (iov_base e).1).

Record holds (h0 : heap) (cs : Z) (h : heap) (b : vrefbuffer) (d : bytes) : Prop := {
  holds_heap : heap_ok h;
  holds_user : h0 ⊆ h;
  holds_nodup : NoDup (owned b);
  holds_apart : forall a, a ∈ owned b -> h0 !! a = None;
  holds_array : exists blk, h !! m_array b = Some blk /\ len blk = sizeof_iovec * m_end b /\
    len (entries b) <= m_end b /\ 0 < m_end b;
  holds_size : m_chunk_size b = cs;
  holds_chunks : forall c, c ∈ ib_head b -> exists blk, h !! c = Some blk /\ sizeof_chunk + cs <= len blk;
  holds_inner : (ib_ptr b).1 ∈ ib_head b /\ sizeof_chunk <= (ib_ptr b).2 /\ 0 <= ib_free b /\
    exists blk, h !! (ib_ptr b).1 = Some blk /\ (ib_ptr b).2 + ib_free b <= len blk;
  holds_entries : forall e, e ∈ entries b -> entry_ok h0 b e;
  holds_contents : contents h (entries b) = Some d;
}.

Lemma holds_owned h0 cs h b d a : holds h0 cs h b d -> a ∈ owned b -> is_Some (h !! a).
Proof.
  intros B [->|Ha]%elem_of_cons.
  - destruct (holds_array _ _ _ _ _ B) as (blk & -> & _). done.
  - destruct (holds_chunks _ _ _ _ _ B a Ha) as (blk & -> & _). done.
Qed.

Lemma holds_entry h0 cs h b d e :
  holds h0 cs h b d -> e ∈ entries b -> (iov_base e).1 ∈ ib_head b \/ is_Some (h0 !! (iov_base e).1).
Proof. intros B He. destruct (holds_entries _ _ _ _ _ B e He) as [(H & _)|H]; [by left|by right]. Qed.

Lemma user_kept (h0 h h' : heap) a : h0 ⊆ h -> h0 ⊆ h' -> is_Some (h0 !! a) -> h' !! a = h !! a.
Proof. intros H H' [x Hx]. by rewrite (lookup_weaken _ _ _ _ Hx H), (lookup_weaken _ _ _ _ Hx H'). Qed.

Lemma holds_frame h0 cs h b d h' :
  holds h0 cs h b d -> heap_ok h' -> h0 ⊆ h' -> (forall a, a ∈ owned b -> h' !! a = h !! a) ->
  holds h0 cs h' b d.
Proof.
  intros B Hh Hu Ha. pose proof B as [_ Hu0 Hn Hap Har Hs Hc Hi He Hd].
  assert (Hch : forall c, c ∈ ib_head b -> h' !! c = h !! c).
  { intros c H. apply Ha. by apply list_elem_of_further. }
  split; [done..| | | | |done|].
  - rewrite Ha by apply list_elem_of_here. done.
  - done.
  - intros c H. rewrite Hch by done. by apply Hc.
  - destruct Hi as (Hin & ?). rewrite Hch by done. done.
  - revert Hd. apply contents_mono. intros e x H. rewrite (load_agree _ _ h h'); [done|].
    destruct (holds_entry _ _ _ _ _ e B H); [by apply Hch|by apply (user_kept h0)].
Qed.

(** Blocks of others are changed. *)
Lemma holds_traded h0 cs h b d h' l l' :
  holds h0 cs h b d -> heap_ok h' -> h0 ⊆ h' -> (forall a, a ∈ owned b -> a ∉ l) -> traded h l h' l' ->
  holds h0 cs h' b d /\ traded h (owned b ++ l) h' (owned b ++ l').
Proof.
  intros B Hh Hu Hl T.
  assert (F : forall a, a ∈ owned b -> is_Some (h !! a) /\ a ∉ l).
  { intros a Ha. split; [by eapply holds_owned|by apply Hl]. }
  split; [|by apply traded_with].
  apply (holds_frame _ _ _ _ _ _ B Hh Hu). intros a Ha. by apply (traded_frame _ _ _ _ _ F T).
Qed.

Section Proofs.
Context {MA : Malloc} {LA : MallocLaws MA} (h0 : heap) (cs : Z).
Context (cs_range : 0 <= cs < 2 ^ 63).

Abbreviation ok := (holds h0 cs).

(** A member that appends [x], or throws and leaves the buffer as it was. *)
Definition appends (h : heap) (b : vrefbuffer) (d x : bytes) (r : outcome (vrefbuffer * heap)) : Prop :=
  match r with
  | (Ok _, (b', h')) => ok h' b' (d ++ x) /\ traded h (owned b) h' (owned b')
  | (Throw e, (b', h')) => e = bad_alloc /\ ok h' b' d /\ traded h (owned b) h' (owned b')
  end.

Lemma traded_keep h l : traded h l h l.
Proof. split; [intros a H; by rewrite decide_False|by left|done]. Qed.

Lemma set_entries_ok h b d l d' :
  ok h b d -> (forall e, e ∈ l -> entry_ok h0 b e) -> len l <= m_end b -> contents h l = Some d' ->
  ok h (set_entries l b) d'.
Proof.
  intros B He Hl Hc. pose proof B as [? ? ? ? Har ? ? ? _ _]. split; try done.
  destruct Har as (blk & ? & ? & _ & ?). by exists blk.
Qed.

Definition chunks_kept (b : vrefbuffer) (h h' : heap) : Prop :=
  forall c, c ∈ ib_head b -> h' !! c = h !! c.

(** The array moves to a bigger block. *)
Lemma set_vector_ok h b d n a :
  ok h b d -> os_malloc (delete (m_array b) h) (sizeof_iovec * n) = Some a -> m_end b <= n ->
  forall blk, len blk = sizeof_iovec * n ->
  ok (<[a := blk]> (delete (m_array b) h)) (set_vector a (entries b) n b) d /\
  traded h (owned b) (<[a := blk]> (delete (m_array b) h)) (a :: ib_head b) /\
  chunks_kept b h (<[a := blk]> (delete (m_array b) h)).
Proof.
  intros B E Hn blk Hblk. pose proof B as [Hh Hu Hnd Hap Har Hs Hc Hi He Hd].
  pose proof (malloc_fresh _ _ _ E) as Hf. destruct Har as (ab & Hab & Hlab & Hle & Hpos).
  assert (Hh' : heap_ok (<[a := blk]> (delete (m_array b) h))).
  { eapply heap_ok_malloc; [by apply heap_ok_delete| |exact E|done]. unfold sizeof_iovec. lia. }
  assert (Hu1 : h0 ⊆ delete (m_array b) h).
  { apply map_subseteq_spec. intros c x Hx. rewrite lookup_delete_ne; [by eapply lookup_weaken|].
    intros <-. rewrite (Hap (m_array b)) in Hx by apply list_elem_of_here. done. }
  assert (Hu' : h0 ⊆ <[a := blk]> (delete (m_array b) h)).
  { etrans; [exact Hu1|]. by apply insert_subseteq. }
  assert (T1 : traded h [m_array b] (<[a := blk]> (delete (m_array b) h)) [a]).
  { eapply traded_trans; [apply traded_free|by apply traded_malloc]. }
  apply NoDup_cons in Hnd as [Hna Hnc].
  assert (F : forall c, c ∈ ib_head b -> is_Some (h !! c) /\ c ∉ [m_array b]).
  { intros c H. split; [destruct (Hc c H) as (x & -> & _); done|]. intros ->%list_elem_of_singleton. done. }
  assert (T : traded h (owned b) (<[a := blk]> (delete (m_array b) h)) (a :: ib_head b)).
  { pose proof (traded_with _ _ _ _ _ F T1) as T. by rewrite <- !Permutation_cons_append in T. }
  assert (Hch : chunks_kept b h (<[a := blk]> (delete (m_array b) h))).
  { intros c H. by apply (traded_frame _ _ _ _ _ F T1). }
  split; [|done].
  split; simpl; try done.
  - apply (traded_nodup _ _ _ _ T). by apply NoDup_cons.
  - intros c [->|H]%elem_of_cons; [|apply Hap; by apply list_elem_of_further].
    destruct (h0 !! a) as [x|] eqn:Ex; [|done]. by rewrite (lookup_weaken _ _ _ _ Ex Hu1) in Hf.
  - exists blk. rewrite lookup_insert_eq. repeat split; lia || done.
  - intros c H. rewrite Hch by done. by apply Hc.
  - destruct Hi as (Hin & ?). rewrite Hch by done. done.
  - revert Hd. apply contents_mono. intros e x H. rewrite (load_agree _ _ h (<[a := blk]> _)); [done|].
    destruct (holds_entry _ _ _ _ _ e B H); [by apply Hch|by apply (user_kept h0)].
Qed.

Lemma holds_bounds h b d : ok h b d ->
  0 < sizeof_iovec * m_end b < 2 ^ 63 /\ len (entries b) <= m_end b.
Proof.
  intros B. destruct (holds_array _ _ _ _ _ B) as (blk & Hb & Hl & ? & ?).
  pose proof (heap_bounds _ (holds_heap _ _ _ _ _ B) _ _ Hb). unfold sizeof_iovec in *. lia.
Qed.

(** [realloc] of the vector to [n] entries. *)
Lemma realloc_vector_ok h b d n :
  ok h b d -> m_end b <= n -> sizeof_iovec * n < 2 ^ 64 ->
  match realloc (Some (m_array b)) (wrap 64 (sizeof_iovec * n)) h with
  | Some (Some a, h') => ok h' (set_vector a (entries b) n b) d /\
      traded h (owned b) h' (a :: ib_head b) /\ chunks_kept b h h'
  | Some (None, h') => h' = h
  | None => False
  end.
Proof.
  intros B Hn Hw. pose proof (holds_bounds _ _ _ B).
  destruct (holds_array _ _ _ _ _ B) as (blk & Hb & Hl & _).
  rewrite wrap_small by (unfold sizeof_iovec in *; lia). unfold realloc. rewrite Hb.
  destruct (os_malloc _ _) as [a|] eqn:E; [|done]. eapply set_vector_ok; [done..|].
  apply len_take_blank. unfold sizeof_iovec in *. lia.
Qed.

Lemma grow_vector_ok h b d :
  ok h b d -> len (entries b) = m_end b ->
  match grow_vector (b, h) with
  | (Ok _, (b', h')) => ok h' b' d /\ traded h (owned b) h' (owned b') /\ chunks_kept b h h' /\
      b' = set_vector (m_array b') (entries b) (m_end b') b /\ len (entries b) < m_end b'
  | (Throw e, (b', h')) => e = bad_alloc /\ b' = b /\ h' = h
  end.
Proof.
  intros B Hf. pose proof (holds_bounds _ _ _ B) as Hb. unfold grow_vector. unfold sizeof_iovec in Hb.
  rewrite (wrap_small 64 (len (entries b) * 2)) by lia.
  pose proof (realloc_vector_ok h b d (len (entries b) * 2) B ltac:(lia) ltac:(unfold sizeof_iovec; lia)) as R.
  destruct (realloc _ _ h) as [[[a|] h']|]; [|by subst|done].
  destruct R as (? & ? & ?). split_and!; [done..|simpl; lia].
Qed.

Lemma append_ref_ok h b d p n x :
  ok h b d -> entry_ok h0 b {| iov_base := p; iov_len := n |} -> load p n h = Some x ->
  appends h b d x (append_ref p n (b, h)).
Proof.
  intros B He Hx. unfold append_ref. cbn [fst snd].
  pose proof (holds_bounds _ _ _ B) as Hb.
  assert (G : forall h' b', ok h' b' d -> traded h (owned b) h' (owned b') -> chunks_kept b h h' ->
    b' = set_vector (m_array b') (entries b) (m_end b') b -> len (entries b) < m_end b' ->
    appends h b d x (Ok tt, (set_entries (entries b' ++ [{| iov_base := p; iov_len := n |}]) b', h'))).
  { intros h' b' B' T Hk E Hl. split; [|by rewrite E in T |- *].
    assert (Ee : entries b' = entries b) by (by rewrite E).
    apply (set_entries_ok h' b' d); [done| | |].
    - intros e [H| ->%list_elem_of_singleton]%elem_of_app; [by apply (holds_entries _ _ _ _ _ B')|by rewrite E].
    - rewrite len_app, Ee, len_cons, len_nil. lia.
    - apply contents_app; [apply B'|]. apply contents_one. cbn [iov_base iov_len].
      rewrite (load_agree p n h); [done|]. destruct He as [(Hc & _)|Hc]; [by apply Hk|].
      apply (user_kept h0); [apply B|apply B'|done]. }
  destruct (Z.eqb_spec (len (entries b)) (m_end b)) as [Hfull|Hroom].
  - pose proof (grow_vector_ok h b d B Hfull) as R.
    destruct (grow_vector (b, h)) as [[[]|e] [b' h']].
    + destruct R as (B' & T & Hk & E & Hl). by apply G.
    + destruct R as (-> & -> & ->). split; [done|]. split; [done|]. apply traded_keep.
  - apply G; [done|apply traded_keep|done|by destruct b|lia].
Qed.

(** ** Copying *)

Lemma set_inner_ok h b d f p l blk :
  ok h b d -> NoDup (m_array b :: l) -> (forall c, c ∈ ib_head b -> c ∈ l) ->
  (forall c, c ∈ l -> h0 !! c = None /\ exists x, h !! c = Some x /\ sizeof_chunk + cs <= len x) ->
  p.1 ∈ l -> sizeof_chunk <= p.2 -> 0 <= f -> h !! p.1 = Some blk -> p.2 + f <= len blk ->
  (forall e, e ∈ entries b -> (iov_base e).1 ∈ ib_head b -> (iov_base e).1 = p.1 ->
    (iov_base e).2 + iov_len e <= p.2) ->
  ok h (set_inner f p l b) d.
Proof.
  intros B Hn Hl Hc Hp Hp2 Hf Hb Hroom He. pose proof B as [? ? ? Hap ? ? ? _ Hen ?].
  split; try done.
  - intros a [->|Ha]%elem_of_cons; [apply Hap, list_elem_of_here|by apply Hc].
  - intros c H. by apply Hc.
  - simpl. split_and!; [done..|]. by exists blk.
  - intros e H. destruct (Hen e H) as [(H1 & H2 & _)|H1]; [left|by right].
    split_and!; [by apply Hl|done|]. simpl. by apply He.
Qed.

Lemma new_chunk_ok h b d n :
  ok h b d -> 0 <= n < 2 ^ 63 ->
  match new_chunk n (b, h) with
  | (Ok _, (b', h')) => ok h' b' d /\ traded h (owned b) h' (owned b') /\ n <= ib_free b'
  | (Throw e, (b', h')) => e = bad_alloc /\ b' = b /\ h' = h
  end.
Proof.
  intros B Hn. unfold new_chunk. rewrite (holds_size _ _ _ _ _ B).
  set (sz := if cs <? n then n else cs).
  assert (Hsz : 0 <= sz < 2 ^ 63 /\ n <= sz /\ cs <= sz) by (subst sz; destruct (Z.ltb_spec cs n); lia).
  rewrite wrap_small by (unfold sizeof_chunk; lia). unfold malloc.
  destruct (os_malloc h (sizeof_chunk + sz)) as [c|] eqn:E; [|done].
  pose proof (malloc_fresh _ _ _ E) as Hf.
  assert (Hlb : len (blank (sizeof_chunk + sz)) = sizeof_chunk + sz) by (apply len_blank; unfold sizeof_chunk; lia).
  set (h' := <[c := blank (sizeof_chunk + sz)]> h).
  assert (Hh' : heap_ok h').
  { eapply heap_ok_malloc; [apply B| |exact E|done]. unfold sizeof_chunk. lia. }
  assert (Hu' : h0 ⊆ h') by (etrans; [apply B|by apply insert_subseteq]).
  destruct (holds_traded _ _ _ _ _ h' [] [c] B Hh' Hu') as [B' T]; [set_solver|by apply traded_malloc|].
  assert (Hp : owned b ++ [c] ≡ₚ m_array b :: c :: ib_head b).
  { rewrite Permutation_app_comm. apply perm_swap. }
  rewrite app_nil_r, Hp in T. split_and!; [|done|simpl; lia].
  apply (set_inner_ok h' b d sz (c, sizeof_chunk) (c :: ib_head b) (blank (sizeof_chunk + sz)));
    [done|apply (traded_nodup _ _ _ _ T), (holds_nodup _ _ _ _ _ B)|intros; by apply list_elem_of_further| | | |lia| | |]; cbn [fst snd].
  - intros a [->|Ha]%elem_of_cons.
    + split; [|exists (blank (sizeof_chunk + sz)); unfold h'; rewrite lookup_insert_eq, Hlb; split; [done|lia]].
      destruct (h0 !! c) eqn:Ex; [|done]. by rewrite (lookup_weaken _ _ _ _ Ex (holds_user _ _ _ _ _ B)) in Hf.
    + split; [apply (holds_apart _ _ _ _ _ B); by apply list_elem_of_further|by apply (holds_chunks _ _ _ _ _ B')].
  - apply list_elem_of_here.
  - done.
  - apply lookup_insert_eq.
  - lia.
  - intros e _ He <-. destruct (holds_chunks _ _ _ _ _ B _ He) as (x & Hx & _). congruence.
Qed.

(** The bytes go where the chunk is free. *)
Lemma put_ok h b d p n x :
  ok h b d -> load p n h = Some x -> n <= ib_free b -> is_Some (h0 !! p.1) ->
  exists h', memcpy (ib_ptr b) p n h = Some h' /\
    ok h' (set_inner (wrap 64 (ib_free b - n)) ((ib_ptr b).1, (ib_ptr b).2 + n) (ib_head b) b) d /\
    traded h (owned b) h' (owned b) /\ load (ib_ptr b) n h' = Some x.
Proof.
  intros B Hx Hn Hu. pose proof B as [Hh Hu0 Hnd Hap _ _ Hc (Hin & Hoff & Hfr & blk & Hblk & Hroom) He Hd].
  assert (Hxl : len x = n) by (apply load_split in Hx as (? & ? & _ & _ & ?); done).
  pose proof (len_nonneg x). unfold sizeof_chunk in Hoff.
  pose proof (heap_bounds _ Hh _ _ Hblk) as Hbl.
  destruct (store_load (ib_ptr b).1 blk (ib_ptr b).2 x h Hblk) as (blk' & Es & Hl' & Hld & Hbefore); [lia..|].
  exists (<[(ib_ptr b).1 := blk']> h). split.
  { unfold memcpy. rewrite Hx. simpl. unfold overlap. destruct (Z.eqb_spec (ib_ptr b).1 p.1) as [E|E]; [|done].
    rewrite <- E, (Hap (ib_ptr b).1) in Hu by (by apply list_elem_of_further). by destruct Hu. }
  set (h' := <[(ib_ptr b).1 := blk']> h) in *.
  assert (Hh' : heap_ok h') by (by eapply heap_ok_update).
  assert (Hne : forall a, h0 !! a <> None -> h' !! a = h !! a).
  { intros a Ha. apply lookup_insert_ne. intros <-. apply Ha, Hap. by apply list_elem_of_further. }
  assert (Hu' : h0 ⊆ h').
  { apply map_subseteq_spec. intros a y Hy. rewrite Hne by congruence. by eapply lookup_weaken. }
  assert (B' : ok h' b d).
  { destruct B as [_ _ _ _ Har Hs _ _ _ _]. apply NoDup_cons in Hnd as Hnd'. destruct Hnd' as [Hna _]. split; try done.
    - unfold h'. rewrite lookup_insert_ne; [done|]. intros E. by rewrite <- E in Hna.
    - intros c H1. destruct (Hc c H1) as (y & Hy & Hyl). unfold h'. destruct (decide ((ib_ptr b).1 = c)) as [<-|].
      + rewrite lookup_insert_eq. exists blk'. split; [done|]. rewrite Hblk in Hy. injection Hy as <-. lia.
      + rewrite lookup_insert_ne by done. by exists y.
    - split_and!; [done..|]. exists blk'. unfold h'. rewrite lookup_insert_eq. split; [done|lia].
    - revert Hd. apply contents_mono. intros e y H1 Hy. destruct (He e H1) as [(H2 & H3 & H4)|H2].
      + destruct (decide ((iov_base e).1 = (ib_ptr b).1)) as [E|E].
        * destruct (iov_base e) as [a o] eqn:Eb. cbn [fst snd] in *. subst a. apply Hbefore; [done|]. by apply H4.
        * rewrite (load_agree _ _ h h'); [done|]. unfold h'. by rewrite lookup_insert_ne.
      + rewrite (load_agree _ _ h h'); [done|]. apply Hne. destruct H2 as [? ->]. done. }
  split_and!.
  - apply (set_inner_ok h' b d _ _ _ blk'); cbn [fst snd]; try done.
    + intros c H1. split; [apply Hap; by apply list_elem_of_further|by apply (holds_chunks _ _ _ _ _ B')].
    + unfold sizeof_chunk. lia.
    + apply wrap_range. lia.
    + apply lookup_insert_eq.
    + rewrite wrap_small by lia. lia.
    + intros e H1 H2 E. destruct (He e H1) as [(_ & _ & H4)|[y Hy]]; [specialize (H4 E); lia|].
      rewrite (Hap (iov_base e).1) in Hy by (by apply list_elem_of_further). done.
  - apply traded_store. by apply list_elem_of_further.
  - rewrite <- Hxl. by destruct (ib_ptr b).
Qed.

(** What the last entry becomes is what it was and the bytes after it: blocks do not
    touch, since a chunk starts with its link. *)
Lemma extended_load h a o k c m n y x :
  heap_ok h -> load (a, o) k h = Some y -> load (c, m) n h = Some x -> sizeof_chunk <= m ->
  a + o + k = c + m ->
  load (a, o) (k + n) h = Some (y ++ x) /\ (a = c /\ o + k = m \/ n = 0).
Proof.
  intros Hh Hy Hx Hm E. destruct (Z.eq_dec a c) as [->|Hne].
  { replace m with (o + k) in * by lia. split; [by apply load_app|left; lia]. }
  pose proof Hy as (l & r & Hb & Hl & Hk)%load_split. pose proof Hx as (l' & r' & Hb' & Hl' & Hn)%load_split.
  cbn [fst snd] in *. pose proof (heap_apart _ Hh _ _ _ _ Hb Hb' Hne) as Hap.
  assert (Hlen : forall (u v : list (option byte)) w, len (u ++ map (@Some byte) w ++ v) = len u + len w + len v).
  { intros u v w. rewrite !len_app. unfold len. rewrite length_map. lia. }
  unfold apart in Hap. rewrite !Hlen in Hap. pose proof (len_nonneg l). pose proof (len_nonneg r).
  pose proof (len_nonneg r'). pose proof (len_nonneg x). pose proof (len_nonneg y). unfold sizeof_chunk in Hm.
  assert (x = []) as -> by (destruct x; [done|rewrite len_cons in *; pose proof (len_nonneg x); lia]).
  rewrite len_nil in Hn. subst n. rewrite Z.add_0_r, app_nil_r. split; [done|by right].
Qed.

Lemma load_bounds h p n x : heap_ok h -> load p n h = Some x -> 0 <= n < 2 ^ 63.
Proof.
  intros Hh (l & r & Hb & Hl & Hx)%load_split. pose proof (heap_bounds _ Hh _ _ Hb) as Hbd.
  rewrite !len_app in Hbd. pose proof (len_nonneg l). pose proof (len_nonneg x). pose proof (len_nonneg r).
  unfold len in *. rewrite length_map in Hbd. lia.
Qed.

Lemma extend_last_ok h b d n x f m :
  ok h (set_inner f (m.1, m.2 + n) (ib_head b) b) d -> m.1 ∈ ib_head b -> sizeof_chunk <= m.2 ->
  load m n h = Some x -> follows m (entries b) = true ->
  ok h (set_entries (extend_last n (entries b)) (set_inner f (m.1, m.2 + n) (ib_head b) b)) (d ++ x).
Proof.
  intros B Hm Hm2 Hx Hf. set (b1 := set_inner _ _ _ _) in *. unfold follows in Hf. unfold extend_last.
  destruct (last (entries b)) as [e|] eqn:El; [|done]. apply Z.eqb_eq in Hf. apply last_Some in El as [l El].
  pose proof (holds_contents _ _ _ _ _ B) as Hd. pose proof (holds_heap _ _ _ _ _ B) as Hh.
  pose proof (proj2 (holds_bounds _ _ _ B)) as Hle. change (entries b1) with (entries b) in *.
  assert (He : entry_ok h0 b1 e) by (apply (holds_entries _ _ _ _ _ B); simpl; rewrite El; set_solver).
  rewrite El, removelast_last in *. apply contents_snoc in Hd as (w & y & Hw & Hy & ->).
  destruct (iov_base e) as [a o] eqn:Eb, m as [c k].
  destruct (extended_load h a o (iov_len e) c k n y x Hh Hy Hx Hm2) as [Hld Hwhere];
    [unfold address in Hf; cbn [fst snd] in Hf; lia|].
  pose proof (load_bounds _ _ _ _ Hh Hy). pose proof (load_bounds _ _ _ _ Hh Hx).
  rewrite wrap_small by lia. apply (set_entries_ok h b1 (w ++ y)); [done| | |].
  - intros e' [H1| ->%list_elem_of_singleton]%elem_of_app.
    + apply (holds_entries _ _ _ _ _ B). simpl. rewrite El. set_solver.
    + unfold entry_ok in *. rewrite Eb in He. cbn [iov_base iov_len fst snd] in *.
      destruct He as [(H1 & H2 & H3)|H1]; [left|by right]. split_and!; [done..|].
      simpl in *. intros ->. specialize (H3 eq_refl). lia.
  - simpl. rewrite !len_app, !len_cons, !len_nil in *. exact Hle.
  - rewrite <- app_assoc. apply contents_app; [done|]. by apply contents_one.
Qed.

(** Steps in a row: an exception ends them. *)
Lemma appends_after h b d x h1 b1 r :
  traded h (owned b) h1 (owned b1) -> appends h1 b1 d x r -> appends h b d x r.
Proof.
  intros T. destruct r as [[[]|e] [b' h']]; simpl.
  - intros [? ?]. split; [done|by eapply traded_trans].
  - intros (? & ? & ?). split_and!; [done..|by eapply traded_trans].
Qed.

Lemma copy_into_chunk h b d p n x :
  ok h b d -> load p n h = Some x -> n <= ib_free b -> is_Some (h0 !! p.1) ->
  appends h b d x
    match memcpy (ib_ptr b) p n h with
    | None => (Throw invalid_access, (b, h))
    | Some h' =>
      let b' := set_inner (wrap 64 (ib_free b - n)) ((ib_ptr b).1, (ib_ptr b).2 + n) (ib_head b) b in
      if follows (ib_ptr b) (entries b') then (Ok tt, (set_entries (extend_last n (entries b')) b', h'))
      else append_ref (ib_ptr b) n (b', h')
    end.
Proof.
  intros B Hx Hn Hu. destruct (put_ok h b d p n x B Hx Hn Hu) as (h' & -> & B' & T & Hx').
  destruct (holds_inner _ _ _ _ _ B) as (Hin & Hoff & _). cbv zeta.
  set (b' := set_inner _ _ _ _) in *. change (entries b') with (entries b).
  destruct (follows (ib_ptr b) (entries b)) eqn:Hf.
  - split; [|done]. by apply extend_last_ok.
  - apply (appends_after _ _ _ _ h' b' _ T). apply append_ref_ok; [done| |done].
    left. split_and!; [done|done|]. intros _. simpl. lia.
Qed.

Lemma append_copy_ok h b d p n x :
  ok h b d -> load p n h0 = Some x -> appends h b d x (append_copy p n (b, h)).
Proof.
  intros B Hx. assert (Hu : is_Some (h0 !! p.1)).
  { apply load_split in Hx as (l & r & -> & _). done. }
  assert (Hld : forall h' b', ok h' b' d -> load p n h' = Some x).
  { intros h' b' B'. rewrite (load_agree p n h0 h'); [done|].
    by apply (user_kept h0); [|apply B'|]. }
  unfold append_copy. cbn [fst snd]. destruct (Z.ltb_spec (ib_free b) n) as [Hl|Hl].
  - pose proof (load_bounds _ _ _ _ (holds_heap _ _ _ _ _ B) (Hld _ _ B)) as Hn.
    pose proof (new_chunk_ok h b d n B Hn) as R. destruct (new_chunk n (b, h)) as [[[]|e] [b1 h1]].
    + destruct R as (B1 & T & Hfree). apply (appends_after _ _ _ _ h1 b1 _ T).
      by apply copy_into_chunk; [|apply (Hld _ _ B1)|..].
    + destruct R as (-> & -> & ->). split_and!; [done..|apply traded_keep].
  - by apply copy_into_chunk; [|apply (Hld _ _ B)|..].
Qed.

Lemma append_user_ok h b d p n x :
  ok h b d -> load p n h0 = Some x -> appends h b d x (append_ref p n (b, h)).
Proof.
  intros B Hx. assert (Hu : is_Some (h0 !! p.1)).
  { apply load_split in Hx as (l & r & -> & _). done. }
  apply append_ref_ok; [done|by right|]. rewrite (load_agree p n h0 h); [done|].
  by apply (user_kept h0); [|apply B|].
Qed.

Lemma vref_write_ok h b d p n x :
  ok h b d -> load p n h0 = Some x -> appends h b d x (write p n (b, h)).
Proof.
  intros B Hx. unfold write. destruct (n <? _); [by apply append_copy_ok|by apply append_user_ok].
Qed.

(** ** Creating, clearing, destroying *)

Lemma free_chunks_ok h l :
  NoDup l -> (forall c, c ∈ l -> is_Some (h !! c)) ->
  exists h', free_chunks l h = Some h' /\ traded h l h' [].
Proof.
  revert h. induction l as [|c l IH]; intros h Hn Hl; cbn [free_chunks].
  { exists h. split; [done|apply traded_refl]. }
  apply NoDup_cons in Hn as [Hc Hn]. destruct (Hl c (list_elem_of_here _ _)) as [b Hb].
  unfold free at 1. rewrite Hb. cbn [mbind option_bind].
  destruct (IH (delete c h) Hn) as (h' & E & T).
  { intros a Ha. rewrite lookup_delete_ne by (by intros ->). apply Hl. by apply list_elem_of_further. }
  exists h'. split; [exact E|]. eapply traded_trans; [|exact T].
  assert (F : forall a, a ∈ l -> is_Some (h !! a) /\ a ∉ [c]).
  { intros a Ha. split; [apply Hl; by apply list_elem_of_further|]. by intros ->%list_elem_of_singleton. }
  pose proof (traded_with _ _ _ _ _ F (traded_free h c)) as T1.
  by rewrite app_nil_r, <- Permutation_cons_append in T1.
Qed.

Lemma traded_heap h l h' : heap_ok h -> traded h l h' [] -> heap_ok h'.
Proof.
  intros [B A] [O _ _]. assert (H : forall a x, h' !! a = Some x -> h !! a = Some x).
  { intros a x Hx. rewrite O in Hx by apply not_elem_of_nil. by case_decide. }
  split; intros; [by apply B, H|]. apply A; by auto.
Qed.

Lemma vref_destroy_ok h b d :
  ok h b d -> exists h', destroy b h = Some h' /\ traded h (owned b) h' [] /\ heap_ok h' /\ h0 ⊆ h'.
Proof.
  intros B. pose proof B as [Hh Hu Hn Hap _ _ _ _ _ _]. pose proof Hn as [Ha Hc]%NoDup_cons.
  destruct (free_chunks_ok h (ib_head b) Hc) as (h1 & E & T).
  { intros c H. eapply holds_owned; [done|]. by apply list_elem_of_further. }
  destruct (holds_owned _ _ _ _ _ (m_array b) B (list_elem_of_here _ _)) as [x Hx].
  assert (Hx1 : h1 !! m_array b = Some x).
  { rewrite (traded_out _ _ _ _ T) by apply not_elem_of_nil. by rewrite decide_False. }
  unfold destroy. rewrite E. cbn [mbind option_bind]. unfold free. rewrite Hx1. eexists. split; [done|].
  assert (T' : traded h (owned b) (delete (m_array b) h1) []).
  { eapply traded_trans; [|apply traded_free]. 
    apply (traded_with h (ib_head b) h1 [] [m_array b]); [|done].
    intros a ->%list_elem_of_singleton. by split. }
  split_and!; [done|by eapply traded_heap|by eapply traded_user].
Qed.

(** A buffer with nothing in it and one chunk. *)
Lemma fresh_ok h b c ab x :
  heap_ok h -> h0 ⊆ h -> m_array b <> c -> h0 !! m_array b = None -> h0 !! c = None ->
  h !! m_array b = Some ab -> len ab = sizeof_iovec * m_end b -> 0 < m_end b ->
  h !! c = Some x -> sizeof_chunk + cs <= len x ->
  entries b = [] -> ib_head b = [c] -> ib_ptr b = (c, sizeof_chunk) -> ib_free b = cs ->
  m_chunk_size b = cs -> ok h b [].
Proof.
  intros Hh Hu Hne Ha Hc Hab Hlab Hpos Hx Hlx Ee Eh Ep Ef Es.
  split; rewrite ?Ee, ?Eh, ?Ep, ?Ef; try done; cbn [fst snd].
  - unfold owned. rewrite Eh. apply NoDup_cons. split; [|apply NoDup_singleton].
    intros H%list_elem_of_singleton. by apply Hne.
  - unfold owned. rewrite Eh. intros a [H|H%list_elem_of_singleton]%elem_of_cons; by rewrite H.
  - exists ab. split_and!; [done|done|rewrite len_nil; lia|done].
  - intros a H%list_elem_of_singleton. subst. by exists x.
  - split_and!; [apply list_elem_of_here|done|lia|]. by exists x.
  - intros e H. by apply elem_of_nil in H.
Qed.

Lemma user_fresh h n a : h0 ⊆ h -> os_malloc h n = Some a -> h0 !! a = None.
Proof.
  intros Hu E. pose proof (malloc_fresh _ _ _ E) as Hf. destruct (h0 !! a) eqn:Ex; [|done].
  by rewrite (lookup_weaken _ _ _ _ Ex Hu) in Hf.
Qed.

Lemma vref_new_ok h rs :
  heap_ok h -> h0 ⊆ h ->
  match new_vrefbuffer rs cs h with
  | (Ok b, h') => ok h' b [] /\ traded h [] h' (owned b)
  | (Throw e, h') => e = bad_alloc /\ h' = h
  end.
Proof.
  intros Hh Hu. unfold new_vrefbuffer. change (if _ : bool then _ else 8) with 4.
  unfold malloc. destruct (os_malloc h (sizeof_iovec * 4)) as [a|] eqn:Ea; [|done].
  set (h1 := <[a := _]> h). pose proof (malloc_fresh _ _ _ Ea) as Hfa.
  rewrite wrap_small by (unfold sizeof_chunk; lia).
  destruct (os_malloc h1 (sizeof_chunk + cs)) as [c|] eqn:Ec.
  - pose proof (malloc_fresh _ _ _ Ec) as Hfc. set (h2 := <[c := _]> h1).
    assert (Hne : a <> c) by (intros ->; unfold h1 in Hfc; by rewrite lookup_insert_eq in Hfc).
    assert (Hlc : len (blank (sizeof_chunk + cs)) = sizeof_chunk + cs) by (apply len_blank; unfold sizeof_chunk; lia).
    assert (Hh1 : heap_ok h1) by (apply (heap_ok_malloc h (sizeof_iovec * 4) a Hh); done).
    assert (Hu1 : h0 ⊆ h1) by (etrans; [exact Hu|by apply insert_subseteq]).
    split.
    + eapply (fresh_ok h2 _ c (blank 64)); simpl; try done.
      * eapply (heap_ok_malloc h1); [done| |exact Ec|done]. unfold sizeof_chunk. lia.
      * etrans; [exact Hu1|by apply insert_subseteq].
      * by apply (user_fresh h (sizeof_iovec * 4)).
      * by apply (user_fresh h1 (sizeof_chunk + cs)).
      * unfold h2. rewrite lookup_insert_ne by done. apply lookup_insert_eq.
      * apply lookup_insert_eq.
      * rewrite Hlc. done.
    + eapply traded_trans; [by apply (traded_malloc h a (blank 64))|]. unfold owned. simpl.
      apply (traded_with h1 [] h2 [c] [a]); [|by apply traded_malloc].
      intros z ->%list_elem_of_singleton. unfold h1. rewrite lookup_insert_eq.
      split; [done|apply not_elem_of_nil].
  - unfold free, h1. rewrite lookup_insert_eq. split; [done|]. by apply delete_insert_id.
Qed.

Lemma vref_clear_ok h b d :
  ok h b d -> exists b' h', clear (b, h) = (Ok tt, (b', h')) /\ ok h' b' [] /\
    traded h (owned b) h' (owned b').
Proof.
  intros B. pose proof B as [Hh Hu Hn Hap (ab & Hab & Hlab & _ & Hpos) Hs Hc (Hin & _) _ _].
  unfold clear. unfold owned in *. destruct (ib_head b) as [|c n] eqn:Eh; [by apply elem_of_nil in Hin|].
  change (m_array b :: c :: n) with ([m_array b; c] ++ n) in *. apply NoDup_app in Hn as (Hn1 & Hd & Hn2).
  assert (F : forall a, a ∈ [m_array b; c] -> is_Some (h !! a) /\ a ∉ n).
  { intros a Ha. split; [|by apply Hd]. apply (holds_owned _ _ _ _ _ _ B). unfold owned. rewrite Eh. set_solver. }
  destruct (free_chunks_ok h n Hn2) as (h' & -> & T).
  { intros a Ha. destruct (Hc a) as (x & -> & _); [by apply list_elem_of_further|done]. }
  pose proof (traded_frame _ _ _ _ _ F T) as K.
  do 2 eexists. split; [done|]. split; [|by apply (traded_with _ _ _ _ _ F T)].
  destruct (Hc c (list_elem_of_here _ _)) as (x & Hx & Hlx).
  apply (fresh_ok h' _ c ab x); simpl; try done.
  - by eapply traded_heap.
  - eapply traded_user; [exact Hu| |exact T]. intros a Ha. apply Hap. set_solver.
  - intros E. rewrite E in Hn1. apply NoDup_cons in Hn1 as [Hn1 _]. apply Hn1, list_elem_of_here.
  - apply Hap. set_solver.
  - apply Hap. set_solver.
  - rewrite (proj1 (K (m_array b) ltac:(set_solver))). done.
  - rewrite (proj1 (K c ltac:(set_solver))). done.
Qed.

(** ** Migrating *)

(** The only place where the room the code makes is not enough: the vector of [to] is too
    short, and does not end before that of [b]. *)
Definition overruns (b to : vrefbuffer) : Prop :=
  m_end to < len (entries to) + len (entries b) /\
  m_array b + sizeof_iovec * m_end b <=
    m_array to + sizeof_iovec * (len (entries to) + len (entries b)).

Lemma vectors_apart h b d to d' :
  ok h b d -> ok h to d' -> m_array b <> m_array to ->
  sizeof_iovec * m_end b + sizeof_iovec * m_end to < 2 ^ 63.
Proof.
  intros B B' Hne. destruct (holds_array _ _ _ _ _ B) as (x & Hx & Hl & _).
  destruct (holds_array _ _ _ _ _ B') as (y & Hy & Hl' & _).
  pose proof (holds_heap _ _ _ _ _ B) as Hh. pose proof (heap_bounds _ Hh _ _ Hx).
  pose proof (heap_bounds _ Hh _ _ Hy). pose proof (heap_apart _ Hh _ _ _ _ Hx Hy Hne) as Hap.
  unfold apart in Hap. lia.
Qed.

Lemma migrate_room_ok h b d to d' :
  ok h b d -> ok h to d' -> m_array b <> m_array to ->
  match migrate_room b to h with
  | (Ok _, (to', h')) => ok h' to' d' /\ traded h (owned to) h' (owned to') /\
      to' = set_vector (m_array to') (entries to) (m_end to') to /\
      (overruns b to \/ len (entries to) + len (entries b) <= m_end to')
  | (Throw e, (to', h')) => e = bad_alloc /\ to' = to /\ h' = h
  end.
Proof.
  intros B B' Hne. pose proof (vectors_apart _ _ _ _ _ B B' Hne) as Hsum.
  pose proof (holds_bounds _ _ _ B) as Hb. pose proof (holds_bounds _ _ _ B') as Hb'.
  pose proof (len_nonneg (entries b)). pose proof (len_nonneg (entries to)).
  unfold sizeof_iovec in Hsum, Hb, Hb'. unfold migrate_room. cbv zeta.
  destruct (Z.ltb_spec (m_array to + sizeof_iovec * (len (entries to) + len (entries b)))
    (m_array b + sizeof_iovec * m_end b)) as [Hlt|Hge].
  - rewrite (wrap_small 64 (len (entries b) + len (entries to))), (wrap_small 64 (m_end to * 2)) by lia.
    destruct (grow_ok (m_end to * 2) (len (entries b) + len (entries to)) ltac:(lia) ltac:(lia)) as (r & E & Hr & _).
    rewrite E. apply grow_ge in E as Hr2. apply grow_le in E as Hr3; [|lia..].
    pose proof (realloc_vector_ok h to d' r B' ltac:(lia) ltac:(unfold sizeof_iovec; lia)) as R.
    destruct (realloc _ _ h) as [[[a|] h']|]; [|by subst|done].
    destruct R as (? & ? & _). split_and!; [done..|right; simpl; lia].
  - split_and!; [done|apply traded_keep|by destruct to|].
    destruct (Z.le_gt_cases (len (entries to) + len (entries b)) (m_end to)); [by right|left].
    split; lia.
Qed.

(** What [to] becomes owns what both owned. *)
Lemma adopt_ok h b d to d' :
  ok h b d -> ok h to d' -> (forall a, a ∈ owned b -> a ∉ owned to) ->
  len (entries to) + len (entries b) <= m_end to -> ok h (adopt b to) (d' ++ d).
Proof.
  intros B B' Hd Hroom. pose proof B as [_ _ [Hna Hnb]%NoDup_cons Hap _ Hs Hc Hi He Hct].
  pose proof B' as [Hh Hu [Hna' Hnb']%NoDup_cons Hap' Har' Hs' Hc' Hi' He' Hct'].
  assert (Hin : forall a, a ∈ ib_head b -> a ∈ owned b) by (intros; by apply list_elem_of_further).
  assert (Hin' : forall a, a ∈ ib_head to -> a ∈ owned to) by (intros; by apply list_elem_of_further).
  assert (Hmix : forall a, a ∈ ib_head b -> a ∈ ib_head to -> False) by (intros a ? ?; by apply (Hd a); auto).
  set (pick := if ib_free to <? ib_free b then (ib_free b, ib_ptr b) else (ib_free to, ib_ptr to)).
  assert (Ea : adopt b to = set_entries (entries to ++ entries b)
    (set_inner pick.1 pick.2 (ib_head b ++ ib_head to) to)).
  { unfold adopt. fold pick. by destruct pick. }
  assert (Hp : pick = (ib_free b, ib_ptr b) \/ pick = (ib_free to, ib_ptr to)).
  { unfold pick. destruct (_ <? _); [by left|by right]. }
  clearbody pick. rewrite Ea. split; simpl; try done.
  - unfold owned. simpl. apply NoDup_cons. split.
    + intros [H|H]%elem_of_app; [|done]. apply (Hd (m_array to)); [by apply Hin|apply list_elem_of_here].
    + apply NoDup_app. split_and!; [done| |done]. intros a H ?. by apply (Hmix a).
  - intros a [->|[H|H]%elem_of_app]%elem_of_cons; [apply Hap', list_elem_of_here|apply Hap; auto|apply Hap'; auto].
  - destruct Har' as (x & ? & ? & _ & ?). exists x. rewrite len_app. done.
  - intros c [H|H]%elem_of_app; [|by apply Hc'].
    destruct (Hc c H) as (x & Hx & Hl). exists x. split; [done|lia].
  - destruct Hp as [->| ->]; cbn [fst snd]; (split; [apply elem_of_app|]); [by left; apply Hi|apply Hi|by right; apply Hi'|apply Hi'].
  - intros e [H|H]%elem_of_app; [destruct (He' e H) as [(H1 & H2 & H3)|?]|destruct (He e H) as [(H1 & H2 & H3)|?]];
      try (by right); left; (split; [apply elem_of_app; first [by left|by right]|split; [done|]]); simpl; intros E;
      destruct Hp as [->| ->]; cbn [snd] in *; first [by apply H3|exfalso; rewrite E in H1; by eapply Hmix; [apply Hi|apply Hi']
        |exfalso; rewrite E in H1; eapply Hmix; [|exact H1]; apply Hi|exfalso; rewrite E in H1; eapply Hmix; [exact H1|]; apply Hi'].
  - by apply contents_app.
Qed.

Definition migrated (h : heap) (b : vrefbuffer) (d : bytes) (to : vrefbuffer) (d' : bytes)
    (r : outcome (vrefbuffer * vrefbuffer * heap)) : Prop :=
  match r with
  | (Ok _, (b', to', h')) =>
    ok h' b' [] /\ ok h' to' (d' ++ d) /\ traded h (owned b ++ owned to) h' (owned b' ++ owned to')
  | (Throw bad_alloc, (b', to', h')) => b' = b /\ to' = to /\ h' = h
  | (Throw invalid_access, _) => overruns b to
  | (Throw out_of_fuel, _) => False
  end.

Lemma migrate_ok h b d to d' :
  ok h b d -> ok h to d' -> (forall a, a ∈ owned b -> a ∉ owned to) -> migrated h b d to d' (migrate b to h).
Proof.
  intros B B' Hd. pose proof (holds_size _ _ _ _ _ B) as Hs. unfold migrate. cbv zeta. rewrite Hs.
  rewrite wrap_small by (unfold sizeof_chunk; lia). unfold malloc.
  destruct (os_malloc h (sizeof_chunk + cs)) as [e|] eqn:E; [|done].
  pose proof (malloc_fresh _ _ _ E) as Hf. set (blk := blank _). set (h1 := <[e := blk]> h).
  assert (Hblk : len blk = sizeof_chunk + cs) by (apply len_blank; unfold sizeof_chunk; lia).
  assert (Hh1 : heap_ok h1).
  { eapply (heap_ok_malloc h); [apply B| |exact E|done]. unfold sizeof_chunk. lia. }
  assert (Hu1 : h0 ⊆ h1) by (etrans; [apply B|by apply insert_subseteq]).
  assert (T1 : traded h [] h1 [e]) by (by apply traded_malloc).
  destruct (holds_traded _ _ _ _ _ h1 [] [e] B Hh1 Hu1 ltac:(set_solver) T1) as [B1 _].
  destruct (holds_traded _ _ _ _ _ h1 [] [e] B' Hh1 Hu1 ltac:(set_solver) T1) as [B1' _].
  assert (Hne : m_array b <> m_array to).
  { intros Ex. apply (Hd (m_array b)); [apply list_elem_of_here|rewrite Ex; apply list_elem_of_here]. }
  assert (Hi : forall a, a ∈ owned b ++ [e] -> is_Some (h1 !! a) /\ a ∉ owned to).
  { intros a [H| ->%list_elem_of_singleton]%elem_of_app.
    - split; [by apply (holds_owned _ _ _ _ _ _ B1)|by apply Hd].
    - unfold h1. rewrite lookup_insert_eq. split; [done|]. intros H.
      destruct (holds_owned _ _ _ _ _ _ B' H). congruence. }
  pose proof (migrate_room_ok h1 b d to d' B1 B1' Hne) as R.
  destruct (migrate_room b to h1) as [[[]|f] [to' h2]].
  2: { destruct R as (-> & -> & ->). unfold free, h1. rewrite lookup_insert_eq.
       split_and!; [done..|by apply delete_insert_id]. }
  destruct R as (B2' & T2 & Eto & Hroom). pose proof (traded_with _ _ _ _ _ Hi T2) as T2'.
  assert (Ee : entries to' = entries to) by (by rewrite Eto).
  assert (Eh : ib_head to' = ib_head to) by (by rewrite Eto).
  destruct (Z.ltb_spec (m_end to') (len (entries to') + len (entries b))) as [Hl|Hl].
  { simpl. destruct Hroom as [|Hroom]; [done|]. rewrite Ee in Hl. lia. }
  pose proof (traded_frame _ _ _ _ _ Hi T2) as K.
  destruct (holds_traded _ _ _ _ _ h2 _ _ B1 (holds_heap _ _ _ _ _ B2') (holds_user _ _ _ _ _ B2') Hd T2) as [B2 _].
  assert (Hdj : forall a, a ∈ owned b -> a ∉ owned to').
  { intros a Ha. apply K, elem_of_app. by left. }
  assert (Hp : owned b ++ [e] ++ owned to' ≡ₚ
    m_array b :: e :: m_array to' :: ib_head b ++ ib_head to').
  { unfold owned. simpl. constructor. by rewrite <- !Permutation_middle. }
  split_and!.
  - destruct (holds_array _ _ _ _ _ B2) as (ab & Hab & Hlab & _ & Hpos).
    apply (fresh_ok h2 _ e ab blk); simpl; try done.
    + apply B2.
    + apply B2.
    + intros Ex. destruct (holds_owned _ _ _ _ _ (m_array b) B (list_elem_of_here _ _)). congruence.
    + apply (holds_apart _ _ _ _ _ B), list_elem_of_here.
    + by apply (user_fresh h (sizeof_chunk + cs)); [apply B|].
    + rewrite (proj1 (K e ltac:(set_solver))). apply lookup_insert_eq.
    + rewrite Hblk. done.
  - by apply adopt_ok.
  - assert (T : traded h (owned b ++ owned to) h2 (owned b ++ [e] ++ owned to')).
    { rewrite app_assoc. eapply traded_trans; [|exact T2'].
      rewrite <- app_assoc, (Permutation_app_comm [e]), app_assoc.
      pose proof (traded_with h [] h1 [e] (owned b ++ owned to)) as T. rewrite app_nil_r in T. apply T; [|done].
      intros a Ha. split; [|apply not_elem_of_nil].
      apply elem_of_app in Ha as [Ha|Ha]; [by apply (holds_owned _ _ _ _ _ _ B)|by apply (holds_owned _ _ _ _ _ _ B')]. }
    rewrite Hp in T. unfold adopt. by destruct (_ <? _).
Qed.
End Proofs.

(** ** Programs *)

Definition own (m : gmap Z vrefbuffer) (i : Z) : list Z :=
  match m !! i with Some b => owned b | None => [] end.

Definition owns (m : gmap Z vrefbuffer) (ks : list Z) : list Z := concat (map (own m) ks).

Definition stands_for (h0 : heap) (cs : Z) (h : heap) (b : option vrefbuffer) (d : option bytes) : Prop :=
  match b, d with
  | Some b, Some d => holds h0 cs h b d
  | None, None => True
  | _, _ => False
  end.

(** Every block has one owner: a variable, or the caller. *)
Record good (h0 : heap) (cs : Z) (s : state) (v : gmap Z bytes) : Prop := {
  good_heap : heap_ok (hp s);
  good_user : h0 ⊆ hp s;
  good_vars : forall i, stands_for h0 cs (hp s) (vars s !! i) (v !! i);
  good_apart : forall i k a, i <> k -> a ∈ own (vars s) i -> a ∉ own (vars s) k;
  good_all : forall a, is_Some (hp s !! a) -> is_Some (h0 !! a) \/ exists i, a ∈ own (vars s) i;
}.

Definition spec_step (h0 : heap) (o : op) (v : gmap Z bytes) : gmap Z bytes :=
  match o with
  | New i _ _ | Clear i => <[i := []]> v
  | Write i p n | AppendRef i p n | AppendCopy i p n =>
    <[i := default [] (v !! i) ++ default [] (load p n h0)]> v
  | Migrate i j => <[j := default [] (v !! j) ++ default [] (v !! i)]> (<[i := []]> v)
  | Destroy i => delete i v
  end.

(** An operation that throws does nothing. *)
Fixpoint spec_run (h0 : heap) (ops : list op) (rs : list (res fault unit)) (v : gmap Z bytes)
    : gmap Z bytes :=
  match ops, rs with
  | o :: ops, Ok _ :: rs => spec_run h0 ops rs (spec_step h0 o v)
  | _ :: ops, Throw _ :: rs => spec_run h0 ops rs v
  | _, _ => v
  end.

(** The chunk size is the same for all, and what is written is the caller's. *)
Definition op_fits (h0 : heap) (cs : Z) (o : op) : Prop :=
  match o with
  | New _ _ n => n = cs
  | Write _ p n | AppendRef _ p n | AppendCopy _ p n => is_Some (load p n h0)
  | _ => True
  end.

Section Programs.
Context {MA : Malloc} {LA : MallocLaws MA} (h0 : heap) (cs : Z).
Context (cs_range : 0 <= cs < 2 ^ 63).

Lemma own_exists s v i a : good h0 cs s v -> a ∈ own (vars s) i -> is_Some (hp s !! a) /\ h0 !! a = None.
Proof.
  intros G Ha. pose proof (good_vars _ _ _ _ G i) as Gi. unfold own in Ha.
  destruct (vars s !! i) as [b|]; [|by apply elem_of_nil in Ha]. destruct (v !! i) as [d|]; [|done].
  split; [by apply (holds_owned _ _ _ _ _ _ Gi)|by apply (holds_apart _ _ _ _ _ Gi)].
Qed.

Lemma owns_elem m ks a : a ∈ owns m ks <-> exists k, k ∈ ks /\ a ∈ own m k.
Proof.
  unfold owns. induction ks as [|k ks IH]; simpl.
  - split; [by intros ?%elem_of_nil|by intros (? & ?%elem_of_nil & _)].
  - rewrite elem_of_app, IH. set_solver.
Qed.

(** The variables [ks] are changed, and trade their blocks. *)
Lemma regood s v ks vars' v' h' :
  good h0 cs s v ->
  (forall k, k ∉ ks -> vars' !! k = vars s !! k /\ v' !! k = v !! k) ->
  traded (hp s) (owns (vars s) ks) h' (owns vars' ks) -> heap_ok h' -> h0 ⊆ h' ->
  (forall k, k ∈ ks -> stands_for h0 cs h' (vars' !! k) (v' !! k)) ->
  (forall i k a, i ∈ ks -> k ∈ ks -> i <> k -> a ∈ own vars' i -> a ∉ own vars' k) ->
  good h0 cs {| vars := vars'; hp := h' |} v'.
Proof.
  intros G Hk T Hh Hu Hks Hap.
  assert (Hsame : forall k, k ∉ ks -> own vars' k = own (vars s) k).
  { intros k H. unfold own. by rewrite (proj1 (Hk k H)). }
  assert (K : forall k, k ∉ ks -> forall a, a ∈ own (vars s) k ->
            h' !! a = hp s !! a /\ a ∉ owns vars' ks).
  { intros k Hn. apply traded_frame with (2 := T). intros a Ha. split; [by eapply own_exists|].
    intros (i & Hi & Hai)%owns_elem. apply (good_apart _ _ _ _ G i k a); [by intros ->|done|done]. }
  split; simpl; [done|done|..].
  - intros i. destruct (decide (i ∈ ks)) as [Hi|Hi]; [by apply Hks|].
    destruct (Hk i Hi) as [-> ->]. pose proof (good_vars _ _ _ _ G i) as Gi. unfold stands_for in *.
    destruct (vars s !! i) as [b|] eqn:E, (v !! i) as [d|]; try done.
    apply (holds_frame _ _ _ _ _ _ Gi Hh Hu). intros a Ha. apply (K i Hi). unfold own. by rewrite E.
  - intros i k a Hne Ha Hb. destruct (decide (i ∈ ks)) as [Hi|Hi], (decide (k ∈ ks)) as [Hj|Hj].
    + by apply (Hap i k a).
    + rewrite Hsame in Hb by done. apply (K k Hj a Hb). apply owns_elem. by exists i.
    + rewrite Hsame in Ha by done. apply (K i Hi a Ha). apply owns_elem. by exists k.
    + rewrite !Hsame in * by done. by apply (good_apart _ _ _ _ G i k a).
  - intros a Ha. destruct (decide (a ∈ owns vars' ks)) as [(i & _ & Hi)%owns_elem|Hn]; [right; by exists i|].
    rewrite (traded_out _ _ _ _ T) in Ha by done. case_decide as Hm; [by destruct Ha|].
    destruct (good_all _ _ _ _ G a Ha) as [H|[i Hi]]; [by left|right]. exists i.
    rewrite Hsame; [done|]. intros H. apply Hm, owns_elem. by exists i.
Qed.

(** One variable. *)
Lemma vref_put_good s v i b d h' :
  good h0 cs s v -> traded (hp s) (own (vars s) i) h' (owned b) -> holds h0 cs h' b d ->
  good h0 cs {| vars := <[i := b]> (vars s); hp := h' |} (<[i := d]> v).
Proof.
  intros G T B. apply (regood s v [i]); [done|..].
  - intros k Hk. rewrite !lookup_insert_ne by set_solver. done.
  - unfold owns, own at 2. simpl. by rewrite lookup_insert_eq, !app_nil_r.
  - apply B.
  - apply B.
  - intros k ->%list_elem_of_singleton. by rewrite !lookup_insert_eq.
  - set_solver.
Qed.

Definition stepped (o : op) (s : state) (v : gmap Z bytes) (r : outcome state) : Prop :=
  match r with
  | (Ok _, s') => good h0 cs s' (spec_step h0 o v)
  | (Throw bad_alloc, s') => good h0 cs s' v
  | (Throw invalid_access, _) =>
    exists i j b to, o = Migrate i j /\ vars s !! i = Some b /\ vars s !! j = Some to /\ overruns b to
  | (Throw out_of_fuel, _) => False
  end.

Lemma append_good o s v i x f r :
  good h0 cs s v -> (forall h b d, holds h0 cs h b d -> appends h0 cs h b d x (f (b, h))) ->
  spec_step h0 o v = <[i := default [] (v !! i) ++ x]> v -> on i f s = Some r -> stepped o s v r.
Proof.
  intros G Hf Ho (b & Eb & Hr)%bind_Some. pose proof (good_vars _ _ _ _ G i) as Gi.
  rewrite Eb in Gi. destruct (v !! i) as [d|] eqn:Ed; [|done].
  specialize (Hf _ _ _ Gi). destruct (f (b, hp s)) as [q [b' h']]. injection Hr as <-.
  assert (Eo : own (vars s) i = owned b) by (unfold own; by rewrite Eb).
  destruct q as [[]|e]; simpl in *.
  - destruct Hf as [B T]. rewrite Ho. apply vref_put_good; [done|by rewrite Eo|done].
  - destruct Hf as (-> & B & T). rewrite <- (insert_id v i d Ed). apply vref_put_good; [done|by rewrite Eo|done].
Qed.

Lemma migrate_good s v i j b to :
  good h0 cs s v -> i <> j -> vars s !! i = Some b -> vars s !! j = Some to ->
  stepped (Migrate i j) s v
    (let '(r, (b, to, h)) := migrate b to (hp s) in
     (r, {| vars := <[j := to]> (<[i := b]> (vars s)); hp := h |})).
Proof.
  intros G Hne Ei Ej. pose proof (good_vars _ _ _ _ G i) as Gi. pose proof (good_vars _ _ _ _ G j) as Gj.
  rewrite Ei in Gi. rewrite Ej in Gj. destruct (v !! i) as [d|] eqn:Edi; [|done].
  destruct (v !! j) as [d'|] eqn:Edj; [|done].
  assert (Hd : forall a, a ∈ owned b -> a ∉ owned to).
  { intros a Ha Hb. apply (good_apart _ _ _ _ G i j a Hne); unfold own; by rewrite ?Ei, ?Ej. }
  pose proof (migrate_ok h0 cs cs_range _ _ _ _ _ Gi Gj Hd) as M.
  destruct (migrate b to (hp s)) as [r [[b' to'] h']]. destruct r as [[]|[]]; cbn [migrated] in M.
  - destruct M as (B & B' & T). apply (regood s v [i; j]); [done|..].
    + intros k Hk. rewrite !lookup_insert_ne by set_solver. simpl. rewrite !lookup_insert_ne by set_solver. done.
    + unfold owns, own. simpl. rewrite Ei, Ej, lookup_insert_eq, lookup_insert_ne, lookup_insert_eq, !app_nil_r by done.
      done.
    + apply B.
    + apply B.
    + simpl. rewrite Edi, Edj. intros k [->| ->%list_elem_of_singleton]%elem_of_cons.
      * by rewrite !(lookup_insert_ne _ j), !lookup_insert_eq by done.
      * by rewrite !lookup_insert_eq.
    + apply traded_nodup in T.
      2: { apply NoDup_app. split_and!; [apply Gi|done|apply Gj]. }
      apply NoDup_app in T as (_ & T & _). unfold own.
      intros x y a [->| ->%list_elem_of_singleton]%elem_of_cons [->| ->%list_elem_of_singleton]%elem_of_cons;
        [done| |intros _|done]; rewrite lookup_insert_eq, lookup_insert_ne, lookup_insert_eq by done; [by auto|].
      intros Ha Hb. by apply (T a).
  - destruct M as (-> & -> & ->). simpl. rewrite !insert_id; [by destruct s|done|].
    by rewrite lookup_insert_ne.
  - by exists i, j, b, to.
  - done.
Qed.

Lemma vref_step_good o s v r : good h0 cs s v -> op_fits h0 cs o -> step o s = Some r -> stepped o s v r.
Proof.
  intros G Hf Hs. destruct o as [i rs c|i p n|i p n|i p n|i|i j|i]; cbn [step op_fits] in *.
  - subst c. destruct (vars s !! i) eqn:Ei; [done|]. injection Hs as <-.
    pose proof (vref_new_ok h0 cs cs_range (hp s) rs (good_heap _ _ _ _ G) (good_user _ _ _ _ G)) as N.
    destruct (new_vrefbuffer rs cs (hp s)) as [[b|e] h'].
    + destruct N as [B T]. apply vref_put_good; [done|unfold own; by rewrite Ei|done].
    + destruct N as (-> & ->). by destruct s.
  - destruct Hf as [x Hx]. eapply (append_good _ s v i x); [done| |simpl; by rewrite Hx|exact Hs].
    intros. by apply vref_write_ok.
  - destruct Hf as [x Hx]. eapply (append_good _ s v i x); [done| |simpl; by rewrite Hx|exact Hs].
    intros. by apply append_user_ok.
  - destruct Hf as [x Hx]. eapply (append_good _ s v i x); [done| |simpl; by rewrite Hx|exact Hs].
    intros. by apply append_copy_ok.
  - apply bind_Some in Hs as (b & Ei & Hr). pose proof (good_vars _ _ _ _ G i) as Gi. rewrite Ei in Gi.
    destruct (v !! i) as [d|]; [|done]. destruct (vref_clear_ok h0 cs cs_range _ _ _ Gi) as (b' & h' & E & B & T).
    rewrite E in Hr. injection Hr as <-. apply vref_put_good; [done|unfold own; by rewrite Ei|done].
  - destruct (Z.eqb_spec i j) as [|Hne]; [done|]. apply bind_Some in Hs as (b & Ei & Hs).
    apply bind_Some in Hs as (to & Ej & Hs). pose proof (migrate_good s v i j b to G Hne Ei Ej) as M.
    destruct (migrate b to (hp s)) as [q [[b' to'] h']]. by injection Hs as <-.
  - apply bind_Some in Hs as (b & Ei & [= <-]). pose proof (good_vars _ _ _ _ G i) as Gi. rewrite Ei in Gi.
    destruct (v !! i) as [d|]; [|done]. destruct (vref_destroy_ok h0 cs _ _ _ Gi) as (h' & -> & T & Hh & Hu).
    apply (regood s v [i]); [done|..].
    + intros k Hk. cbn [spec_step]. rewrite !lookup_delete_ne by set_solver. done.
    + unfold owns, own. simpl. by rewrite Ei, lookup_delete_eq, !app_nil_r.
    + done.
    + done.
    + intros k ->%list_elem_of_singleton. cbn [spec_step]. by rewrite !lookup_delete_eq.
    + set_solver.
Qed.

Definition start : state := {| vars := ∅; hp := h0 |}.

Lemma vref_start_good : heap_ok h0 -> good h0 cs start ∅.
Proof.
  intros Hh. split; simpl; [done|done|..].
  - intros i. by rewrite !lookup_empty.
  - intros i k a _ Ha. unfold own in Ha. rewrite lookup_empty in Ha. by apply elem_of_nil in Ha.
  - by left.
Qed.

(** The buffers stand for byte strings, and own what the caller does not. *)
Definition sound (s : state) (v : gmap Z bytes) : Prop :=
  (forall i, match vars s !! i, v !! i with
             | Some b, Some d => contents (hp s) (entries b) = Some d
             | None, None => True
             | _, _ => False
             end) /\
  h0 ⊆ hp s /\ (vars s = ∅ -> hp s = h0).

Lemma good_sound s v : good h0 cs s v -> sound s v.
Proof.
  intros G. split_and!.
  - intros i. pose proof (good_vars _ _ _ _ G i) as Gi. destruct (vars s !! i), (v !! i); try done. apply Gi.
  - apply G.
  - intros Hv. apply map_eq. intros a. destruct (h0 !! a) as [x|] eqn:E.
    + by apply (lookup_weaken h0); [|apply G].
    + destruct (hp s !! a) as [x|] eqn:Ex; [|done].
      destruct (good_all _ _ _ _ G a) as [[? ?]|[i Hi]]; [by rewrite Ex|congruence|].
      unfold own in Hi. rewrite Hv, lookup_empty in Hi. by apply elem_of_nil in Hi.
Qed.

Definition returned (r : res fault unit) : Prop := r = Ok tt \/ r = Throw bad_alloc.

Lemma vref_run_good ops s v rs s' :
  good h0 cs s v -> Forall (op_fits h0 cs) ops -> run ops s = Some (rs, s') ->
  (Forall returned rs /\ length rs = length ops /\ good h0 cs s' (spec_run h0 ops rs v)) \/
  (exists ops1 i j ops2 rs1 s1 b to, ops = ops1 ++ Migrate i j :: ops2 /\
     run ops1 s = Some (rs1, s1) /\ vars s1 !! i = Some b /\ vars s1 !! j = Some to /\ overruns b to).
Proof.
  revert s v rs. induction ops as [|o ops IH]; intros s v rs G Hf Hr.
  { injection Hr as <- <-. by left. }
  apply Forall_cons in Hf as [Ho Hf]. cbn [run] in Hr. apply bind_Some in Hr as ([r s1] & Es & Hr).
  pose proof (vref_step_good o s v _ G Ho Es) as Hs. unfold stepped in Hs.
  assert (Next : forall v1, returned r -> good h0 cs s1 v1 ->
    ('(rs, s) ← run ops s1; Some (r :: rs, s)) = Some (rs, s') ->
    (forall l, spec_run h0 (o :: ops) (r :: l) v = spec_run h0 ops l v1) ->
    Forall returned rs /\ length rs = S (length ops) /\ good h0 cs s' (spec_run h0 (o :: ops) rs v) \/
    (exists ops1 i j ops2 rs1 s2 b to, o :: ops = ops1 ++ Migrate i j :: ops2 /\
       run ops1 s = Some (rs1, s2) /\ vars s2 !! i = Some b /\ vars s2 !! j = Some to /\ overruns b to)).
  { intros v1 Hret G1 ([rs1 s2] & Er & [= <- <-])%bind_Some E.
    destruct (IH s1 v1 rs1 G1 Hf Er) as [(H1 & H2 & H3)|(l & i & j & l' & q & s3 & b & to & -> & Hq & H)].
    - left. rewrite E. split_and!; [by constructor|simpl; by rewrite H2|done].
    - right. exists (o :: l), i, j, l', (r :: q), s3, b, to. split; [done|]. split; [|done].
      cbn [run]. rewrite Es. cbn [mbind option_bind]. destruct Hret as [->| ->]; by rewrite Hq. }
  destruct r as [[]|[]].
  - by apply (Next (spec_step h0 o v)); [left| |..].
  - by apply (Next v); [right| |..].
  - destruct Hs as (i & j & b & to & -> & Hb & Hto & Hov). right. by exists [], i, j, ops, [], s, b, to.
  - done.
Qed.
End Programs.


(** ** Runs

    The caller has one block of forty bytes. *)

Definition user_bytes : bytes := replicate 40 (chr 97).
Definition user_heap : heap := {[ 16 := map Some user_bytes ]}.

Lemma user_heap_ok : heap_ok user_heap.
Proof.
  unfold user_heap. split.
  - intros a b [<- <-]%lookup_singleton_Some. by vm_compute.
  - intros a b a' b' [<- _]%lookup_singleton_Some [<- _]%lookup_singleton_Some. done.
Qed.

(** Short writes are copied, and join; a long one is referred to; the second buffer
    is emptied into the first, and used again. *)
Definition sample_program : list op :=
  [New 1 32 16; New 2 32 16; Write 1 (16, 0) 3; Write 1 (16, 4) 2; Write 1 (16, 0) 40;
   Write 2 (16, 0) 20; AppendRef 2 (16, 1) 5; Migrate 2 1; Write 2 (16, 0) 1; Clear 1; Destroy 1].


(** [migrate] to a buffer made later, whose vector has no room: it writes past its end. The
    other way round the vector grows. *)
Definition both_filled : list op :=
  [New 1 32 16; New 2 32 16] ++
  flat_map (fun i => replicate 3 (AppendRef i (16, 0) 4)) [1; 2].

Example migrate_overflows :
  fst <$> run (MA := bump 1000) (both_filled ++ [Migrate 1 2]) (start user_heap) =
    Some (replicate 8 (Ok tt) ++ [Throw invalid_access]) /\
  fst <$> run (MA := bump 1000) (both_filled ++ [Migrate 2 1]) (start user_heap) =
    Some (replicate 9 (Ok tt)).
Proof. split; vm_compute; reflexivity. Qed.

(** With two chunk sizes: after [migrate] the first chunk of the buffer may be a smaller
    one of the other's, and [clear] takes it to have its own size. *)
Example clear_overflows :
  fst <$> run (MA := bump 1000)
    [New 1 32 16; New 2 32 64; Migrate 1 2; Clear 2; AppendCopy 2 (16, 0) 30] (start user_heap) =
  Some (replicate 4 (Ok tt) ++ [Throw invalid_access]).
Proof. vm_compute. reflexivity. Qed.
