(* ===== verification/Zbuffer.v ===== *)
(** * The deflate buffer

    Models [zbuffer] (v1/zbuffer.hpp): an output buffer that compresses what is
    written to it with zlib. zlib is not part of the repository: the class
    [Zlib] has the functions the buffer calls, [ZlibLaws] what their
    documentation says of them. *)

From S2P Require Import Prelude Alloc.

Definition MSGPACK_ZBUFFER_RESERVE_SIZE : Z := 512.
Definition MSGPACK_ZBUFFER_INIT_SIZE : Z := 8192.

(** ** zlib *)

Inductive flush_mode := Z_NO_FLUSH | Z_FINISH.
Inductive z_ret := Z_OK | Z_STREAM_END | Z_ERROR.        (* any other value *)

(** What a call of [deflate] did: bytes of input consumed, bytes written to [next_out]. *)
Record deflated {S : Type} := { consumed : Z; produced : bytes; ret : z_ret; after : S }.
Arguments deflated : clear implicits.

(** [deflate] is given the bytes at [next_in], whether [next_out] is a pointer at all, and
    [avail_out]. *)
Class Zlib := {
  z_state : Type;
  deflateInit : Z -> option z_state;
  deflate : flush_mode -> bytes -> bool -> Z -> z_state -> deflated z_state;
  deflateReset : z_state -> option z_state;
}.

(** [compressing s f t e]: since the last reset [t] was taken and [e] written; [f], when
    Z_FINISH was asked for. *)
Class ZlibLaws {ZL : Zlib} := {
  compressing : z_state -> bool -> bytes -> bytes -> Prop;
  inflate : bytes -> option bytes;
  deflateBound : Z -> Z;
  deflateInit_ok level s : deflateInit level = Some s -> compressing s false [] [];
  deflateReset_ok s s' f t e : compressing s f t e -> deflateReset s = Some s' -> compressing s' false [] [];
  deflate_ok fl i room s f t e : compressing s f t e -> 0 < room < 2 ^ 32 ->
    match fl with Z_NO_FLUSH => f = false /\ i <> [] | Z_FINISH => f = true -> i = [] end ->
    let r := deflate fl i true room s in
    0 <= consumed r <= len i /\ len (produced r) <= room /\
    match ret r with
    | Z_OK => compressing (after r) (match fl with Z_FINISH => true | _ => false end)
                (t ++ take (Z.to_nat (consumed r)) i) (e ++ produced r) /\
              match fl with
              | Z_FINISH => len (produced r) = room
              | Z_NO_FLUSH => 0 < consumed r \/ produced r <> []
              end
    | Z_STREAM_END => fl = Z_FINISH /\ consumed r = len i /\ inflate (e ++ produced r) = Some (t ++ i)
    | Z_ERROR => False
    end;
  deflate_no_room fl i o room s f t e : compressing s f t e -> o = false \/ room = 0 ->
    let r := deflate fl i o room s in
    consumed r = 0 /\ produced r = [] /\ ret r = Z_ERROR /\ after r = s;
  deflateBound_ok s f t e : compressing s f t e -> len e <= deflateBound (len t);
  deflateBound_mono n m : 0 <= n <= m -> deflateBound n <= deflateBound m;
}.
Arguments ZlibLaws : clear implicits.

(** ** The buffer

    [next_in] is the bytes there, [avail_in] of them; the constructor leaves it undefined, and
    until the first write there is no output either, so that nothing depends on it. The
    memory zlib allocates for itself is not followed. *)

Inductive fault :=
| bad_alloc
| invalid_access | out_of_fuel.       (* undefined behaviour; no fuel *)

Section Zbuffer.
Context {MA : Malloc} {ZL : Zlib}.

Record zbuffer := { stream : z_state; next_in : bytes; next_out : option Z; avail_out : Z;
                    m_data : option Z; m_init_size : Z }.

(** A member function that changes the buffer, also when it throws. *)
Definition M (A : Type) : Type := zbuffer * heap -> res fault A * (zbuffer * heap).

Definition mret {A} (a : A) : M A := fun s => (Ok a, s).
Definition raise {A} (e : fault) : M A := fun s => (Throw e, s).
Definition mbind {A B} (m : M A) (k : A -> M B) : M B := fun s =>
  match m s with (Ok a, s) => k a s | (Throw e, s) => (Throw e, s) end.

#[local] Notation "'let*' x := m 'in' k" := (mbind m (fun x => k))
  (at level 10, x pattern, m at level 100, k at level 200).
#[local] Notation "m ;; k" := (mbind m (fun _ => k)) (at level 100, k at level 200, right associativity).

Definition address (p : option Z) : Z := default 0 p.

Definition new_zbuffer (level init_size : Z) : res fault zbuffer :=
  match deflateInit level with
  | Some s => Ok {| stream := s; next_in := []; next_out := None; avail_out := 0;
                    m_data := None; m_init_size := init_size |}
  | None => Throw bad_alloc
  end.

Definition destroy (s : zbuffer * heap) : res fault heap :=
  match free (m_data s.1) s.2 with Some h => Ok h | None => Throw invalid_access end.

Definition size (b : zbuffer) : Z := wrap 64 (address (next_out b) - address (m_data b)).

Definition expand : M bool := fun '(b, h) =>
  let used := size b in
  let csize := wrap 64 (used + avail_out b) in
  let nsize := if csize =? 0 then m_init_size b else wrap 64 (csize * 2) in
  match realloc (m_data b) nsize h with
  | None => (Throw invalid_access, (b, h))
  | Some (None, h) => (Ok false, (b, h))
  | Some (Some tmp, h) =>
    (Ok true, ({| stream := stream b; next_in := next_in b; next_out := Some (tmp + used);
                  avail_out := wrap 32 (nsize - used); m_data := Some tmp;
                  m_init_size := m_init_size b |}, h))
  end.

(** [deflate(&m_stream, fl)]: it writes at [next_out], in the block [m_data] points to. *)
Definition call_deflate (fl : flush_mode) : M z_ret := fun '(b, h) =>
  let r := deflate fl (next_in b) (bool_decide (is_Some (next_out b))) (avail_out b) (stream b) in
  match store (m_data b) (size b) (produced r) h with
  | None => (Throw invalid_access, (b, h))
  | Some h =>
    (Ok (ret r), ({| stream := after r; next_in := drop (Z.to_nat (consumed r)) (next_in b);
                     next_out := option_map (fun p => p + len (produced r)) (next_out b);
                     avail_out := avail_out b - len (produced r); m_data := m_data b;
                     m_init_size := m_init_size b |}, h))
  end.

Definition expand_or_throw : M unit :=
  let* ok := expand in
  if ok : bool then mret tt else raise bad_alloc.

(** [avail_in] is 32 bits. *)
Definition set_input (buf : bytes) : M unit := fun '(b, h) =>
  (Ok tt, ({| stream := stream b; next_in := take (Z.to_nat (wrap 32 (len buf))) buf;
              next_out := next_out b; avail_out := avail_out b; m_data := m_data b;
              m_init_size := m_init_size b |}, h)).

Fixpoint write_loop (fuel : nat) : M unit := fun s =>
  match next_in s.1 with
  | [] => mret tt s
  | _ =>
    match fuel with
    | O => raise out_of_fuel s
    | S f =>
      ((if avail_out s.1 <? MSGPACK_ZBUFFER_RESERVE_SIZE then expand_or_throw else mret tt) ;;
       let* r := call_deflate Z_NO_FLUSH in
       match r with Z_OK => write_loop f | _ => raise bad_alloc end) s
    end
  end.

Definition write (fuel : nat) (buf : bytes) : M unit := set_input buf ;; write_loop fuel.

Fixpoint flush (fuel : nat) : M (option Z) :=
  match fuel with
  | O => raise out_of_fuel
  | S f =>
    let* r := call_deflate Z_FINISH in
    match r with
    | Z_STREAM_END => fun s => (Ok (m_data s.1), s)
    | Z_OK => expand_or_throw ;; flush f
    | Z_ERROR => raise bad_alloc
    end
  end.

Definition reset_buffer : M unit := fun '(b, h) =>
  (Ok tt, ({| stream := stream b; next_in := next_in b; next_out := m_data b;
              avail_out := wrap 32 (avail_out b + (address (next_out b) - address (m_data b)));
              m_data := m_data b; m_init_size := m_init_size b |}, h)).

Definition reset : M unit := fun '(b, h) =>
  match deflateReset (stream b) with
  | None => (Throw bad_alloc, (b, h))
  | Some s =>
    reset_buffer ({| stream := s; next_in := next_in b; next_out := next_out b;
                     avail_out := avail_out b; m_data := m_data b;
                     m_init_size := m_init_size b |}, h)
  end.

Definition release_buffer : M (option Z) := fun '(b, h) =>
  (Ok (m_data b), ({| stream := stream b; next_in := next_in b; next_out := None; avail_out := 0;
                      m_data := None; m_init_size := m_init_size b |}, h)).

Fixpoint write_all (fuel : nat) (ds : list bytes) : M unit :=
  match ds with [] => mret tt | d :: ds => write fuel d ;; write_all fuel ds end.
End Zbuffer.
