(* ===== verification/ZbufferSpec.v ===== *)
(** * What the deflate buffer promises

    What is written and flushed inflates to what was written. *)

From S2P Require Import Prelude Alloc Zbuffer.

Section Proofs.
Context {MA : Malloc} {LA : MallocLaws MA} {ZL : Zlib} {LZ : ZlibLaws ZL}.

Abbreviation state := (zbuffer * heap)%type.

(** ** The memory of the buffer

    [d] was written to the block since it was empty; there is room for [avail_out] bytes
    more. [h0] is the rest of the heap. *)

Definition holds (h0 : heap) (s : state) (d : bytes) : Prop :=
  0 <= m_init_size s.1 < 2 ^ 64 /\
  match m_data s.1 with
  | None => s.2 = h0 /\ next_out s.1 = None /\ avail_out s.1 = 0 /\ d = []
  | Some a => exists rest,
      s.2 = <[a := map Some d ++ rest]> h0 /\ h0 !! a = None /\ next_out s.1 = Some (a + len d) /\
      0 <= avail_out s.1 <= len rest /\ avail_out s.1 < 2 ^ 32 /\ 0 < a /\ a + len d + len rest < 2 ^ 63
  end.

Lemma holds_size h0 s d : holds h0 s d -> size s.1 = len d.
Proof.
  intros (_ & H). unfold size. pose proof (len_nonneg d). destruct (m_data s.1) as [a|].
  - destruct H as (rest & _ & _ & -> & ? & ? & ? & ?). simpl. pose proof (len_nonneg rest).
    rewrite wrap_small by lia. lia.
  - by destruct H as (_ & -> & _ & ->).
Qed.

Lemma holds_room h0 s d : holds h0 s d -> 0 <= avail_out s.1 < 2 ^ 32 /\ 0 <= len d + avail_out s.1 < 2 ^ 63.
Proof.
  intros (_ & H). pose proof (len_nonneg d). destruct (m_data s.1) as [a|].
  - destruct H as (rest & _ & _ & _ & ? & ? & ? & ?). lia.
  - destruct H as (_ & _ & -> & ->). unfold len in *. simpl in *. lia.
Qed.

(** The size [expand] asks for. *)
Definition next_size (b : zbuffer) (d : bytes) : Z :=
  if len d + avail_out b =? 0 then m_init_size b else (len d + avail_out b) * 2.

Definition same (s s' : state) : Prop :=
  stream s'.1 = stream s.1 /\ next_in s'.1 = next_in s.1 /\ m_init_size s'.1 = m_init_size s.1.

Lemma realloc_block (d : bytes) (rest : block) n : len d <= n ->
  take (Z.to_nat n) (map Some d ++ rest) ++ blank (n - len (map Some d ++ rest)) =
  map Some d ++ (take (Z.to_nat (n - len d)) rest ++ blank (n - len d - len rest)) /\
  len (take (Z.to_nat (n - len d)) rest ++ blank (n - len d - len rest)) = n - len d.
Proof.
  intros Hn. assert (Hm : len (map (@Some byte) d) = len d) by (unfold len; by rewrite length_map).
  split.
  - rewrite len_app, Hm, Z.sub_add_distr, app_assoc. f_equal. rewrite take_app_ge.
    + do 2 f_equal. unfold len in *. rewrite length_map. lia.
    + rewrite length_map. unfold len in *. lia.
  - rewrite len_app. unfold len, blank in *. rewrite length_take, length_replicate. lia.
Qed.

Lemma zexpand_holds h0 s d : holds h0 s d ->
  exists r s', expand s = (Ok r, s') /\ holds h0 s' d /\ same s s' /\
    if r : bool then avail_out s'.1 = wrap 32 (next_size s.1 d - len d)
    else exists h, os_malloc h (next_size s.1 d) = None.
Proof.
  intros H. pose proof (holds_size _ _ _ H) as Hsize. pose proof (holds_room _ _ _ H) as [Hr Hc].
  pose proof (len_nonneg d). destruct s as [b h]. cbn [fst snd] in *. unfold expand. rewrite Hsize.
  rewrite (wrap_small 64 (len d + avail_out b)) by lia.
  assert (En : (if len d + avail_out b =? 0 then m_init_size b else wrap 64 ((len d + avail_out b) * 2))
               = next_size b d).
  { unfold next_size. destruct (_ =? 0); [done|]. apply wrap_small. lia. }
  rewrite En. set (n := next_size b d) in *.
  assert (Hn : len d <= n).
  { unfold n, next_size. destruct (Z.eqb_spec (len d + avail_out b) 0); [|lia]. destruct H as [Hi _]. simpl in Hi. lia. }
  pose proof H as [Hi Hm]. cbn [fst snd] in *. destruct (m_data b) as [a|] eqn:Ea.
  - destruct Hm as (rest & -> & Ha & Hno & Hav & Hav' & Hpos & Htop). cbn [realloc].
    rewrite lookup_insert_eq, delete_insert_id by done.
    destruct (os_malloc h0 n) as [a'|] eqn:E.
    + destruct (realloc_block d rest n Hn) as [-> Hl]. do 2 eexists. split; [done|]. split; [|done].
      split; [done|]. cbn [fst snd m_data next_out avail_out m_init_size].
      pose proof (malloc_aligned _ _ _ E). pose proof (malloc_bounded _ _ _ E).
      eexists. split; [done|]. split; [by eapply malloc_fresh|]. split; [done|].
      pose proof (wrap_range 32 (n - len d) ltac:(lia)). rewrite Hl.
      assert (wrap 32 (n - len d) <= n - len d) by (apply Z.mod_le; lia). lia.
    + do 2 eexists. split; [done|]. split; [exact H|]. split; [done|eauto].
  - destruct Hm as (-> & Hno & Hav & ->). cbn [realloc]. unfold malloc.
    destruct (os_malloc h0 n) as [a'|] eqn:E.
    + do 2 eexists. split; [done|]. split; [|done]. split; [done|].
      cbn [fst snd m_data next_out avail_out m_init_size].
      pose proof (malloc_aligned _ _ _ E). pose proof (malloc_bounded _ _ _ E).
      exists (blank n). split; [done|]. split; [by eapply malloc_fresh|]. split; [done|].
      assert (L0 : len (@nil byte) = 0) by done. rewrite !L0, !Z.sub_0_r in *. rewrite (len_blank n) by lia.
      pose proof (wrap_range 32 n ltac:(lia)). assert (wrap 32 n <= n) by (apply Z.mod_le; lia). lia.
    + do 2 eexists. split; [done|]. split; [exact H|]. split; [done|eauto].
Qed.

(** ** One call of deflate *)

Definition legal (fl : flush_mode) (f : bool) (i : bytes) : Prop :=
  match fl with Z_NO_FLUSH => f = false /\ i <> [] | Z_FINISH => f = true -> i = [] end.

Definition finishing (fl : flush_mode) : bool := match fl with Z_FINISH => true | _ => false end.

(** [t] taken and [e] written before; [i] at hand. *)
Lemma store_holds h0 b h d x b' : holds h0 (b, h) d -> len x <= avail_out b ->
  m_data b' = m_data b -> m_init_size b' = m_init_size b -> avail_out b' = avail_out b - len x ->
  next_out b' = option_map (fun p => p + len x) (next_out b) ->
  exists h', store (m_data b) (len d) x h = Some h' /\ holds h0 (b', h') (d ++ x).
Proof.
  intros [Hi H] Hx E1 E2 E3 E4. unfold holds. cbn [fst snd] in *. rewrite E1, E2, E3, E4.
  pose proof (len_nonneg d). pose proof (len_nonneg x). destruct (m_data b) as [a|].
  - destruct H as (rest & -> & Ha & -> & Hav & Hav' & Hpos & Htop).
    assert (Hmd : forall y : bytes, len (map (@Some byte) y) = len y) by (intros; unfold len; by rewrite length_map).
    rewrite (store_ok a _ (len d) x _ (lookup_insert_eq _ _ _)) by (rewrite ?len_app, ?Hmd; lia).
    rewrite insert_insert_eq. eexists. split; [done|]. split; [done|].
    exists (drop (Z.to_nat (len x)) rest). split_and!; [|done|simpl; rewrite len_app; f_equal; lia|..].
    + f_equal. rewrite map_app, <- app_assoc. rewrite <- (Hmd d) at 1. unfold len at 1.
      rewrite Nat2Z.id, take_app_length. do 2 f_equal.
      rewrite drop_app_ge by (rewrite length_map; unfold len; lia). f_equal. rewrite length_map. unfold len. lia.
    + lia.
    + unfold len in *. rewrite length_drop. lia.
    + lia.
    + lia.
    + rewrite len_app. unfold len in *. rewrite length_drop. lia.
  - destruct H as (-> & -> & Hav & ->). assert (x = []) as ->.
    { destruct x as [|c x]; [done|]. rewrite len_cons in Hx. pose proof (len_nonneg x). lia. }
    exists h0. rewrite len_nil. split_and!; simpl; try done; lia.
Qed.

Lemma call_deflate_holds h0 s d fl f t e :
  holds h0 s d -> compressing (stream s.1) f t e -> legal fl f (next_in s.1) ->
  exists r s' x, call_deflate fl s = (Ok r, s') /\ holds h0 s' (d ++ x) /\ m_init_size s'.1 = m_init_size s.1 /\
    avail_out s'.1 = avail_out s.1 - len x /\
    if avail_out s.1 =? 0 then r = Z_ERROR
    else match r with
         | Z_OK => exists n, 0 <= n <= len (next_in s.1) /\
             next_in s'.1 = drop (Z.to_nat n) (next_in s.1) /\
             compressing (stream s'.1) (finishing fl) (t ++ take (Z.to_nat n) (next_in s.1)) (e ++ x) /\
             match fl with Z_FINISH => avail_out s'.1 = 0 | Z_NO_FLUSH => 0 < n \/ 0 < len x end
         | Z_STREAM_END => fl = Z_FINISH /\ next_in s'.1 = [] /\ inflate (e ++ x) = Some (t ++ next_in s.1)
         | Z_ERROR => False
         end.
Proof.
  intros H Hc Hl. pose proof (holds_size _ _ _ H) as Hsize. pose proof (holds_room _ _ _ H) as [Hr _].
  destruct s as [b h]. cbn [fst snd] in *. unfold call_deflate. rewrite Hsize.
  set (o := bool_decide (is_Some (next_out b))). destruct (Z.eqb_spec (avail_out b) 0) as [Ez|Hne].
  - destruct (deflate_no_room fl (next_in b) o (avail_out b) _ f t e Hc (or_intror Ez)) as (E1 & E2 & E3 & E4).
    rewrite E1, E2, E3, E4. simpl. eexists Z_ERROR, _, []. split; [done|]. rewrite app_nil_r.
    change (len []) with 0. split; [|cbn; split_and!; try done; lia]. destruct H as [Hi H]. split; [done|]. cbn [fst snd m_data next_out avail_out] in *.
    destruct (m_data b); [|destruct H as (? & Hno & ? & ?); rewrite Hno; split_and!; try done; simpl; lia].
    destruct H as (rest & Hh & ? & Hno & ?). rewrite Hno. exists rest. simpl. split_and!; try done; try lia. f_equal. lia.
  - assert (o = true) as ->.
    { unfold o. apply bool_decide_eq_true. destruct H as [_ H]. simpl in H. destruct (m_data b).
      - destruct H as (? & _ & _ & -> & _). by eexists.
      - by destruct H as (_ & _ & ? & _). }
    pose proof (deflate_ok fl (next_in b) (avail_out b) _ f t e Hc ltac:(lia) Hl) as R.
    set (r := deflate fl (next_in b) true (avail_out b) (stream b)) in *. cbv zeta in R. destruct R as (Hn & Hx & R).
    edestruct (store_holds h0 b h d (produced r)
      {| stream := after r; next_in := drop (Z.to_nat (consumed r)) (next_in b);
         next_out := option_map (fun p => p + len (produced r)) (next_out b);
         avail_out := avail_out b - len (produced r); m_data := m_data b; m_init_size := m_init_size b |} H Hx)
      as (h' & Es & Hh); [done..|].
    rewrite Es. do 3 eexists. split; [done|]. split; [exact Hh|]. split; [done|]. split; [done|].
    cbn [fst avail_out next_in stream]. destruct (ret r).
    + destruct R as [R1 R2]. exists (consumed r). split; [done|]. split; [done|]. split; [by destruct fl|].
      destruct fl; [|lia]. destruct R2 as [|R2]; [by left|right]. destruct (produced r) as [|c l]; [done|].
      rewrite len_cons. pose proof (len_nonneg l). lia.
    + destruct R as (R1 & R2 & R3). split; [done|]. split; [|done]. rewrite R2. unfold len.
      by rewrite Nat2Z.id, drop_all.
    + done.
Qed.

(** ** Enough memory

    Requests up to some size are granted, and the initial size and twice what the output can
    come to are within it. *)

Definition ample (init most : Z) : Prop :=
  exists cap, 0 < init <= cap /\ 2 * (most + MSGPACK_ZBUFFER_RESERVE_SIZE) <= cap < 2 ^ 32 /\
    forall h n, 0 < n <= cap -> is_Some (os_malloc h n).

Lemma expand_or_throw_holds h0 s d most :
  holds h0 s d -> len d <= most -> avail_out s.1 < MSGPACK_ZBUFFER_RESERVE_SIZE ->
  exists r s', expand_or_throw s = (r, s') /\ holds h0 s' d /\ same s s' /\
    match r with
    | Ok _ => ample (m_init_size s.1) most -> 0 < avail_out s'.1
    | Throw err => err = bad_alloc /\ ~ ample (m_init_size s.1) most
    end.
Proof.
  intros H Hd Ha. pose proof (holds_room _ _ _ H) as [Hr _]. pose proof (len_nonneg d).
  destruct (zexpand_holds h0 s d H) as (r & s' & E & H' & Hs & Hc).
  assert (Hn : forall cap, 0 < m_init_size s.1 <= cap -> 2 * (most + MSGPACK_ZBUFFER_RESERVE_SIZE) <= cap ->
    0 < next_size s.1 d <= cap /\ 0 < next_size s.1 d - len d).
  { intros cap Hi Hcap. unfold next_size. destruct (Z.eqb_spec (len d + avail_out s.1) 0); lia. }
  unfold expand_or_throw, mbind. rewrite E. destruct r; do 2 eexists; (split; [done|]); split_and!; try done.
  - intros (cap & Hi & Hcap & _). destruct (Hn cap) as [H1 H2]; [done|lia|]. rewrite Hc, wrap_small; lia.
  - intros (cap & Hi & Hcap & G). destruct (Hn cap) as [H1 H2]; [done|lia|]. destruct Hc as [h Hc].
    destruct (G h _ H1) as [a Hg]. congruence.
Qed.

Lemma bounded_by t e u f z : compressing z f t e -> len e <= deflateBound (len (t ++ u)).
Proof.
  intros H. apply deflateBound_ok in H. etransitivity; [exact H|]. apply deflateBound_mono.
  rewrite len_app. pose proof (len_nonneg t). pose proof (len_nonneg u). lia.
Qed.

(** ** The loops

    The fuel that is left exceeds the input and the output to come. *)

Lemma write_loop_holds h0 fuel : forall s d t e T,
  holds h0 s d -> compressing (stream s.1) false t e -> len d <= len e -> T = t ++ next_in s.1 ->
  len (next_in s.1) + deflateBound (len T) - len e < Z.of_nat fuel ->
  exists r s' x, write_loop fuel s = (r, s') /\ holds h0 s' (d ++ x) /\ m_init_size s'.1 = m_init_size s.1 /\
    match r with
    | Ok _ => next_in s'.1 = [] /\ compressing (stream s'.1) false T (e ++ x)
    | Throw err => err = bad_alloc /\ ~ ample (m_init_size s.1) (deflateBound (len T))
    end.
Proof.
  induction fuel as [|fuel IH]; intros s d t e T H Hc Hd HT Hf;
    pose proof (bounded_by t e (next_in s.1) false _ Hc) as Hb; rewrite <- HT in Hb;
    pose proof (len_nonneg (next_in s.1)).
  - lia.
  - cbn [write_loop]. destruct (next_in s.1) as [|c l] eqn:Ei.
    { exists (Ok tt), s, []. rewrite !app_nil_r in *. subst T. by split_and!. }
    rewrite <- Ei in *.
    assert (Hex : exists r s1, (if avail_out s.1 <? MSGPACK_ZBUFFER_RESERVE_SIZE then expand_or_throw else mret tt) s
              = (r, s1) /\ holds h0 s1 d /\ same s s1 /\
      match r with
      | Ok _ => ample (m_init_size s.1) (deflateBound (len T)) -> 0 < avail_out s1.1
      | Throw err => err = bad_alloc /\ ~ ample (m_init_size s.1) (deflateBound (len T))
      end).
    { destruct (Z.ltb_spec (avail_out s.1) MSGPACK_ZBUFFER_RESERVE_SIZE).
      - apply expand_or_throw_holds; [done|lia|done].
      - exists (Ok tt), s. split_and!; try done. intros _. unfold MSGPACK_ZBUFFER_RESERVE_SIZE in *. lia. }
    destruct Hex as (r & s1 & E & H1 & (S1 & S2 & S3) & Hr). unfold mbind at 1. rewrite E.
    destruct r as [[]|err]; [|destruct Hr; exists (Throw err), s1, []; rewrite app_nil_r; by split_and!].
    destruct (call_deflate_holds h0 s1 d Z_NO_FLUSH false t e H1) as (r & s2 & x & E2 & H2 & S4 & Hav & Hr2);
      [by rewrite S1|rewrite S2, Ei; done|].
    unfold mbind. rewrite E2. destruct (Z.eqb_spec (avail_out s1.1) 0) as [E0|_].
    + subst r. exists (Throw bad_alloc), s2, x. split_and!; [done|done|congruence|done|].
      intros Ham. specialize (Hr Ham). lia.
    + destruct r; [|by destruct Hr2|done]. destruct Hr2 as (n & Hn & Hin & Hc2 & Hp). rewrite S2 in *.
      assert (HT2 : T = (t ++ take (Z.to_nat n) (next_in s.1)) ++ next_in s2.1).
      { by rewrite Hin, <- app_assoc, take_drop. }
      destruct (IH s2 (d ++ x) _ _ T H2 Hc2) as (r & s3 & y & E3 & H3 & S5 & Hr3).
      * rewrite !len_app. lia.
      * done.
      * rewrite Hin, len_app. unfold len in *. rewrite length_drop. pose proof (Zle_0_nat (length x)). lia.
      * rewrite E3. exists r, s3, (x ++ y). rewrite !app_assoc. split_and!; [done|done|congruence|].
        destruct r as [[]|]; [done|]. by rewrite S4, S3 in Hr3.
Qed.

Lemma flush_holds h0 fuel : forall s d f t e,
  holds h0 s d -> compressing (stream s.1) f t e -> len d <= len e -> next_in s.1 = [] ->
  deflateBound (len t) - len e < Z.of_nat fuel ->
  exists r s' x, flush fuel s = (r, s') /\ holds h0 s' (d ++ x) /\
    match r with
    | Ok p => p = m_data s'.1 /\ inflate (e ++ x) = Some t
    | Throw err => err = bad_alloc /\
        (avail_out s.1 = 0 \/ ~ ample (m_init_size s.1) (deflateBound (len t)))
    end.
Proof.
  induction fuel as [|fuel IH]; intros s d f t e H Hc Hd Hi Hf; pose proof (deflateBound_ok _ _ _ _ Hc) as Hb; [lia|].
  cbn [flush]. pose proof (holds_room _ _ _ H) as [Hr0 _].
  destruct (call_deflate_holds h0 s d Z_FINISH f t e H Hc) as (r & s1 & x & E & H1 & S1 & Hav & Hr); [by intros _|].
  unfold mbind. rewrite E. destruct (Z.eqb_spec (avail_out s.1) 0) as [E0|Hne].
  { subst r. exists (Throw bad_alloc), s1, x. split_and!; try done. by left. }
  rewrite Hi in Hr. destruct r; [..|done].
  - destruct Hr as (n & Hn & Hin & Hc1 & Hz). rewrite take_nil, app_nil_r in Hc1. rewrite drop_nil in Hin.
    pose proof (deflateBound_ok _ _ _ _ Hc1) as Hb1. rewrite len_app in Hb1.
    destruct (expand_or_throw_holds h0 s1 (d ++ x) (deflateBound (len t)) H1) as (r & s2 & E2 & H2 & (S2 & S3 & S4) & Hr).
    { rewrite len_app. lia. }
    { rewrite Hz. done. }
    rewrite E2. rewrite S1 in Hr. destruct r as [[]|err].
    2:{ exists (Throw err), s2, x. split_and!; [done|done|apply Hr|right; apply Hr]. }
    destruct (IH s2 (d ++ x) true t (e ++ x) H2) as (r & s3 & y & E3 & H3 & Hr3).
    + by rewrite S2.
    + rewrite !len_app. lia.
    + by rewrite S3.
    + rewrite len_app. lia.
    + rewrite E3. exists r, s3, (x ++ y). rewrite !app_assoc. split_and!; [done|done|].
      destruct r as [p|err]; [done|]. destruct Hr3 as [-> Hr3]. split; [done|]. right. intros Ham.
      rewrite S4, S1 in Hr3. specialize (Hr Ham). destruct Hr3 as [|Hr3]; [lia|done].
  - destruct Hr as (_ & _ & Hr). rewrite app_nil_r in Hr. by exists (Ok (m_data s1.1)), s1, x.
Qed.

(** ** The other operations *)

Lemma set_input_holds h0 s d buf : holds h0 s d -> len buf < 2 ^ 32 ->
  exists s', set_input buf s = (Ok tt, s') /\ holds h0 s' d /\ next_in s'.1 = buf /\
    stream s'.1 = stream s.1 /\ m_init_size s'.1 = m_init_size s.1.
Proof.
  intros H Hb. destruct s as [b h]. eexists. split; [done|]. split; [exact H|]. split; [|done].
  simpl. pose proof (len_nonneg buf). rewrite wrap_small by lia. unfold len. by rewrite Nat2Z.id, firstn_all.
Qed.

(** [avail_in] is what fits in 32 bits: of 4 GiB, nothing is written, and nothing is said. *)
Lemma write_4GiB fuel buf s : len buf mod 2 ^ 32 = 0 ->
  exists b, write fuel buf s = (Ok tt, (b, s.2)) /\ stream b = stream s.1.
Proof.
  intros Hb. destruct s as [b h]. unfold write, set_input, mbind, wrap. rewrite Hb.
  change (take (Z.to_nat 0) buf) with (@nil byte). destruct fuel; simpl; by eexists.
Qed.

(** A flush that finds no room fails, whatever memory there is: always when nothing was
    written. *)
Lemma flush_without_room fuel h0 s d f t e :
  holds h0 s d -> compressing (stream s.1) f t e -> avail_out s.1 = 0 -> fuel <> O ->
  fst (flush fuel s) = Throw bad_alloc.
Proof.
  intros H Hc Ha Hf. destruct fuel; [done|]. destruct s as [b h]. cbn [fst snd] in *. cbn [flush].
  unfold mbind, call_deflate.
  destruct (deflate_no_room Z_FINISH (next_in b) (bool_decide (is_Some (next_out b))) (avail_out b) _ f t e Hc (or_intror Ha))
    as (E1 & E2 & E3 & E4). rewrite E2, E3. done.
Qed.

Lemma reset_holds h0 s d f t e : holds h0 s d -> compressing (stream s.1) f t e ->
  match reset s with
  | (Ok _, s') => holds h0 s' [] /\ compressing (stream s'.1) false [] [] /\ next_in s'.1 = next_in s.1
  | (Throw err, s') => err = bad_alloc /\ s' = s
  end.
Proof.
  intros H Hc. pose proof (len_nonneg d). destruct s as [b h]. unfold reset. cbn [fst snd] in *.
  destruct (deflateReset (stream b)) as [z|] eqn:E; [|done]. apply (deflateReset_ok _ _ _ _ _ Hc) in E.
  simpl. split; [|done]. destruct H as [Hi H]. split; [done|]. cbn [fst snd m_data next_out avail_out] in *.
  destruct (m_data b) as [a|].
  - destruct H as (rest & -> & Ha & -> & Hav & Hav' & Hpos & Htop). exists (map Some d ++ rest).
    assert (Hm : len (map (@Some byte) d) = len d) by (unfold len; by rewrite length_map).
    rewrite len_app, Hm. change (len []) with 0. simpl (address _). rewrite Z.add_0_r.
    replace (a + len d - a) with (len d) by lia.
    pose proof (wrap_range 32 (avail_out b + len d) ltac:(lia)).
    assert (wrap 32 (avail_out b + len d) <= avail_out b + len d) by (apply Z.mod_le; lia).
    split_and!; try done; lia.
  - destruct H as (-> & -> & -> & ->). done.
Qed.

Lemma zdestroy_holds h0 s d : holds h0 s d -> destroy s = Ok h0.
Proof.
  intros [_ H]. unfold destroy. destruct (m_data s.1) as [a|]; cbn [free].
  - destruct H as (rest & -> & Ha & _). by rewrite lookup_insert_eq, delete_insert_id.
  - by destruct H as (-> & _).
Qed.

(** The pointer released: the block is the caller's, and the buffer starts afresh. *)
Lemma release_holds h0 s d : holds h0 s d ->
  exists b, release_buffer s = (Ok (m_data s.1), (b, s.2)) /\ holds s.2 (b, s.2) [] /\ stream b = stream s.1.
Proof. intros [Hi _]. destruct s as [b h]. by eexists. Qed.

Lemma write_all_holds h0 most fuel : forall ds s d t e,
  holds h0 s d -> compressing (stream s.1) false t e -> len d <= len e -> next_in s.1 = [] ->
  Forall (fun d => len d < 2 ^ 32) ds -> most = deflateBound (len (t ++ concat ds)) ->
  len (concat ds) + most < Z.of_nat fuel ->
  exists r s' x, write_all fuel ds s = (r, s') /\ holds h0 s' (d ++ x) /\ m_init_size s'.1 = m_init_size s.1 /\
    match r with
    | Ok _ => next_in s'.1 = [] /\ compressing (stream s'.1) false (t ++ concat ds) (e ++ x)
    | Throw err => err = bad_alloc /\ ~ ample (m_init_size s.1) most
    end.
Proof.
  induction ds as [|y ds IH]; intros s d t e H Hc Hd Hi Hds Hm Hf; cbn [write_all concat] in *.
  { exists (Ok tt), s, []. rewrite !app_nil_r. by split_and!. }
  apply Forall_cons in Hds as [Hy Hds]. pose proof (len_nonneg e).
  destruct (set_input_holds h0 s d y H Hy) as (s1 & E1 & H1 & Hin & Hst & Hini).
  assert (Hle : deflateBound (len (t ++ y)) <= most).
  { rewrite Hm. apply deflateBound_mono. rewrite !len_app. pose proof (len_nonneg t). pose proof (len_nonneg y).
    pose proof (len_nonneg (concat ds)). lia. }
  rewrite len_app in Hf. pose proof (len_nonneg (concat ds)). pose proof (len_nonneg y).
  destruct (write_loop_holds h0 fuel s1 d t e (t ++ y) H1) as (r & s2 & x & E2 & Hs2 & S2 & Hr);
    [by rewrite Hst|done|by rewrite Hin|rewrite Hin; lia|].
  unfold write, mbind. rewrite E1, E2. destruct r as [[]|err].
  - destruct Hr as [Hi2 Hc2]. destruct (IH s2 (d ++ x) (t ++ y) (e ++ x) Hs2 Hc2) as (r & s3 & z & E3 & Hs3 & S3 & Hr3).
    + rewrite !len_app. lia.
    + done.
    + done.
    + by rewrite <- app_assoc.
    + lia.
    + rewrite E3. exists r, s3, (x ++ z). rewrite !app_assoc. split_and!; [done|done|congruence|].
      destruct r; [done|]. by rewrite S2, Hini in Hr3.
  - exists (Throw err), s2, x. split_and!; [done|done|congruence|apply Hr|].
    intros (cap & Ha & Hcap & G). apply (proj2 Hr). rewrite Hini. exists cap. split_and!; try done; lia.
Qed.

Lemma znew_holds level init h0 b : new_zbuffer level init = Ok b -> 0 <= init < 2 ^ 64 ->
  holds h0 (b, h0) [] /\ compressing (stream b) false [] [] /\ next_in b = [] /\ m_init_size b = init.
Proof.
  unfold new_zbuffer. intros E Hi. destruct (deflateInit level) as [z|] eqn:Ez; [|done]. injection E as <-.
  by apply deflateInit_ok in Ez.
Qed.

(** C30. Whatever is written to a deflate buffer in pieces of less than 4 GiB and then flushed:
    the memory [flush] returns holds [size] bytes that inflate to what was written, or an
    allocation failed and [std::bad_alloc] was thrown. When there is memory enough the only
    other failure is a flush that begins with no room for output. The loops end, no byte is
    written outside the memory of the buffer, and its destructor leaves the heap as it was. *)
Theorem zbuffer_compresses level init ds b0 :
  new_zbuffer level init = Ok b0 -> 0 <= init < 2 ^ 64 -> Forall (fun d => len d < 2 ^ 32) ds ->
  exists N, forall fuel h0, (N <= fuel)%nat ->
    let '(r, s) := write_all fuel ds (b0, h0) in
    match r with
    | Throw e => e = bad_alloc /\ ~ ample init (deflateBound (len (concat ds))) /\ destroy s = Ok h0
    | Ok _ =>
      let '(r, s') := flush fuel s in
      exists z, holds h0 s' z /\ size s'.1 = len z /\ destroy s' = Ok h0 /\
        match r with
        | Ok p => p = m_data s'.1 /\ inflate z = Some (concat ds)
        | Throw e => e = bad_alloc /\
            (avail_out s.1 = 0 \/ ~ ample init (deflateBound (len (concat ds))))
        end
    end.
Proof.
  intros Hb Hi Hds. set (most := deflateBound (len (concat ds))).
  exists (Z.to_nat (len (concat ds) + most + 1)). intros fuel h0 Hf.
  assert (Hf' : len (concat ds) + most < Z.of_nat fuel) by lia. clear Hf.
  destruct (znew_holds level init h0 b0 Hb Hi) as (H0 & Hc0 & Hi0 & Hinit).
  destruct (write_all_holds h0 most fuel ds (b0, h0) [] [] [] H0 Hc0 ltac:(done) Hi0 Hds eq_refl Hf')
    as (r & s & x & E & Hs & Hin & Hr). rewrite E. cbn [fst] in *. rewrite Hinit in *.
  pose proof (len_nonneg (concat ds)). destruct r as [[]|e].
  - destruct Hr as [Hi1 Hc1]. simpl in Hc1, Hs. pose proof (len_nonneg x).
    destruct (flush_holds h0 fuel s x false (concat ds) x Hs Hc1 ltac:(done) Hi1) as (r & s' & y & E2 & Hs2 & Hr2);
      [fold most; lia|].
    rewrite E2. exists (x ++ y). split; [done|]. split; [by eapply holds_size|].
    split; [by eapply zdestroy_holds|]. by rewrite Hin in Hr2.
  - split_and!; [apply Hr..|by eapply zdestroy_holds].
Qed.
End Proofs.

(** ** A codec that keeps the laws

    Each byte is written as two, and a zero ends the stream. *)

Module Stored.
Record state := { held : bytes; ending : bool }.

Definition encode (d : bytes) : bytes := concat (map (fun b => [Byte.x01; b]) d).

Fixpoint decode (l : bytes) : option bytes :=
  match l with
  | [Byte.x00] => Some []
  | Byte.x01 :: b :: l => d ← decode l; Some (b :: d)
  | _ => None
  end.

Definition finish (fl : flush_mode) (s : state) : bytes :=
  match fl with Z_FINISH => if ending s then [] else [Byte.x00] | Z_NO_FLUSH => [] end.

#[export] Instance zlib : Zlib := {
  z_state := state;
  deflateInit level := if (-1 <=? level) && (level <=? 9) then Some {| held := []; ending := false |} else None;
  deflate fl i o room s :=
    if negb o || (room <=? 0) then {| consumed := 0; produced := []; ret := Z_ERROR; after := s |}
    else let all := held s ++ encode i ++ finish fl s in
         let rest := drop (Z.to_nat room) all in
         {| consumed := len i; produced := take (Z.to_nat room) all;
            ret := match fl, rest with Z_FINISH, [] => Z_STREAM_END | _, _ => Z_OK end;
            after := {| held := rest; ending := ending s || finishing fl |} |};
  deflateReset s := Some {| held := []; ending := false |};
}.

Lemma stored_decode_encode d : decode (encode d ++ [Byte.x00]) = Some d.
Proof. induction d as [|b d IH]; [done|]. unfold encode in *. simpl. by rewrite IH. Qed.

Lemma encode_app d d' : encode (d ++ d') = encode d ++ encode d'.
Proof. unfold encode. by rewrite map_app, concat_app. Qed.

Lemma len_encode d : len (encode d) = 2 * len d.
Proof.
  induction d as [|b d IH]; [done|]. change (encode (b :: d)) with ([Byte.x01; b] ++ encode d).
  rewrite len_app, IH, (len_cons b d). change (len [Byte.x01; b]) with 2. lia.
Qed.

Definition compressing (s : state) (f : bool) (t e : bytes) : Prop :=
  ending s = f /\ e ++ held s = encode t ++ (if f then [Byte.x00] else []).

Lemma compressing_bound s f t e : compressing s f t e -> len e <= 2 * len t + 1.
Proof.
  intros [_ H]. apply (f_equal len) in H. rewrite !len_app, len_encode in H. pose proof (len_nonneg (held s)).
  destruct f; [change (len [Byte.x00]) with 1 in H|change (len []) with 0 in H]; lia.
Qed.

(** All that is to be written after the call. *)
Lemma deflate_all fl i s f t e :
  compressing s f t e -> legal fl f i ->
  e ++ held s ++ encode i ++ finish fl s = encode (t ++ i) ++ (if finishing fl then [Byte.x00] else []).
Proof.
  intros [He H] Hl. rewrite app_assoc, H, encode_app. unfold finish, legal in *. rewrite He.
  destruct fl, f; simpl in *.
  - by destruct Hl.
  - by rewrite !app_nil_r.
  - rewrite Hl by done. simpl. by rewrite !app_nil_r.
  - by rewrite !app_nil_r, app_assoc.
Qed.

#[export] Program Instance laws : ZlibLaws zlib := {
  compressing := compressing; inflate := decode; deflateBound n := 2 * n + 1;
}.
Next Obligation. intros level s H. simpl in H. destruct (_ && _); [|done]. by injection H as <-. Qed.
Next Obligation. intros s s' f t e _ [= <-]. done. Qed.
Next Obligation.
  intros fl i room s f t e Hc Hr Hl. pose proof (deflate_all fl i s f t e Hc Hl) as A. simpl.
  destruct (Z.leb_spec room 0); [lia|]. simpl. set (all := held s ++ encode i ++ finish fl s) in *.
  pose proof (take_drop (Z.to_nat room) all) as Htd. pose proof (len_nonneg i).
  assert (Hlen : len (take (Z.to_nat room) all) <= room) by (unfold len; rewrite length_take; lia).
  assert (Ht : take (Z.to_nat (len i)) i = i) by (unfold len; by rewrite Nat2Z.id, firstn_all).
  split; [lia|]. split; [done|]. rewrite Ht.
  assert (Hgo : compressing {| held := drop (Z.to_nat room) all; ending := ending s || finishing fl |}
                  (finishing fl) (t ++ i) (e ++ take (Z.to_nat room) all)).
  { split; simpl.
    - destruct Hc as [-> _], fl; simpl; [by destruct Hl as [-> _]|by destruct f].
    - by rewrite <- app_assoc, Htd. }
  destruct fl.
  - split; [done|]. left. destruct Hl as [_ Hl], i as [|b i]; [done|]. cbn [consumed]. rewrite len_cons. pose proof (len_nonneg i). lia.
  - destruct (drop (Z.to_nat room) all) as [|b rest] eqn:Ed.
    + rewrite app_nil_r in Htd. rewrite Htd, A. split_and!; [done|done|]. apply stored_decode_encode.
    + split; [done|]. apply (f_equal length) in Ed. rewrite length_drop in Ed. simpl in Ed.
      unfold len. rewrite length_take. lia.
Qed.
Next Obligation.
  intros fl i o room s f t e _ H. simpl. destruct H as [->| ->]; [done|]. by rewrite orb_true_r.
Qed.
Next Obligation. intros s f t e. apply compressing_bound. Qed.
Next Obligation. intros. simpl. lia. Qed.
End Stored.

#[local] Existing Instance Stored.zlib.
#[local] Existing Instance Stored.laws.

Definition pieces : list bytes := [[chr 1; chr 2]; []; [chr 3]].

Definition fresh (init : Z) : zbuffer :=
  {| stream := {| Stored.held := []; Stored.ending := false |}; next_in := []; next_out := None;
     avail_out := 0; m_data := None; m_init_size := init |}.

Lemma zbuffer_compresses_witness :
  exists s s' p N,
    write_all (MA := bump 4096) 64 pieces (fresh 4, ∅) = (Ok tt, s) /\
    flush (MA := bump 4096) 64 s = (Ok p, s') /\ size s'.1 = 7 /\
    destroy s' = Ok ∅ /\
    (forall fuel h0, (N <= fuel)%nat ->
      let '(r, s) := write_all (MA := bump 4096) fuel pieces (fresh 4, h0) in
      match r with
      | Throw e => e = bad_alloc /\ ~ ample (MA := bump 4096) 4 (deflateBound (len (concat pieces))) /\ destroy s = Ok h0
      | Ok _ =>
        let '(r, s') := flush (MA := bump 4096) fuel s in
        exists z, holds h0 s' z /\ size s'.1 = len z /\ destroy s' = Ok h0 /\
          match r with
          | Ok p => p = m_data s'.1 /\ inflate z = Some (concat pieces)
          | Throw e => e = bad_alloc /\
              (avail_out s.1 = 0 \/ ~ ample (MA := bump 4096) 4 (deflateBound (len (concat pieces))))
          end
      end).
Proof.
  destruct (zbuffer_compresses (MA := bump 4096) (LA := bump_laws 4096) 6 4 pieces (fresh 4)) as [N H];
    [reflexivity|lia|by repeat constructor|].
  do 3 eexists. exists N. split; [vm_compute; reflexivity|]. split; [vm_compute; reflexivity|].
  split; [vm_compute; reflexivity|]. split; [vm_compute; reflexivity|]. exact H.
Defined.

(** Three bytes fill the first six bytes of memory exactly, and the flush fails. *)
Example flush_finds_no_room :
  let '(r, s) := write_all (MA := bump 4096) 64 [[chr 1; chr 2; chr 3]] (fresh 6, ∅) in
  r = Ok tt /\ fst (flush (MA := bump 4096) 64 s) = Throw bad_alloc.
Proof. vm_compute. done. Qed.

(** Nothing written: nothing can be flushed. *)
Example flush_of_nothing : fst (flush (MA := bump 4096) 64 (fresh 8192, ∅)) = Throw bad_alloc.
Proof. vm_compute. done. Qed.
