(* ===== verification/Zone.v ===== *)
(** * The zone

    Models [zone] (v1/detail/cpp11_zone.hpp), the arena every decoded object and
    every packed result lives in: a list of chunks on the C heap of [Alloc], a
    pointer that moves through the first one, and an array of finalizers. Sizes and
    addresses are [size_t]. *)

From S2P Require Import Prelude Alloc.

(** [sizeof(chunk)] and [sizeof(finalizer)]: one pointer, two pointers. *)
Definition sizeof_chunk : Z := 8.
Definition sizeof_finalizer : Z := 16.

Inductive fault :=
| bad_alloc
| ctor_exception                       (* what the constructor of an object threw *)
| terminated                           (* an exception left a noexcept function *)
| invalid_access | out_of_fuel.        (* undefined behaviour; no fuel *)

(** [m_tail - m_array] finalizers are in use, oldest first, of [m_end - m_array]. *)
Record finalizer_array := { entries : list Z; m_end : Z; m_array : option Z }.

Record zone := {
  m_chunk_size : Z;
  m_free : Z;
  m_ptr : Z;
  m_chunks : list Z;                   (* from m_head along m_next *)
  m_finalizer_array : finalizer_array;
}.

Definition set_ptr (free ptr : Z) (z : zone) : zone :=
  {| m_chunk_size := m_chunk_size z; m_free := free; m_ptr := ptr; m_chunks := m_chunks z;
     m_finalizer_array := m_finalizer_array z |}.
Definition set_chunks (l : list Z) (free ptr : Z) (z : zone) : zone :=
  {| m_chunk_size := m_chunk_size z; m_free := free; m_ptr := ptr; m_chunks := l;
     m_finalizer_array := m_finalizer_array z |}.
Definition set_finalizers (f : finalizer_array) (z : zone) : zone :=
  {| m_chunk_size := m_chunk_size z; m_free := m_free z; m_ptr := m_ptr z; m_chunks := m_chunks z;
     m_finalizer_array := f |}.

(** A state and error monad over the zone and the heap; the state survives an exception. *)
Definition Z_ (A : Type) : Type := zone * heap -> res fault A * (zone * heap).

Definition zret {A} (a : A) : Z_ A := fun s => (Ok a, s).
Definition zthrow {A} (e : fault) : Z_ A := fun s => (Throw e, s).
Definition zbind {A B} (m : Z_ A) (k : A -> Z_ B) : Z_ B := fun s =>
  match m s with (Ok a, s) => k a s | (Throw e, s) => (Throw e, s) end.
Definition zget : Z_ zone := fun s => (Ok s.1, s).
Definition zmodify (f : zone -> zone) : Z_ unit := fun s => (Ok tt, (f s.1, s.2)).

(** [try { m } catch (...) { handler; throw; }] *)
Definition zcatch {A} (m : Z_ A) (handler : Z_ unit) : Z_ A := fun s =>
  match m s with
  | (Ok a, s) => (Ok a, s)
  | (Throw e, s) => match handler s with (Ok _, s) => (Throw e, s) | (Throw e', s) => (Throw e', s) end
  end.

Declare Scope zone_scope.
Delimit Scope zone_scope with zone.
Notation "'let!' x := m 'in' k" := (zbind m (fun x => k))
  (at level 10, x pattern, m at level 100, k at level 200) : zone_scope.
#[local] Open Scope zone_scope.

Section Zone.
Context {MA : Malloc}.

Definition zmalloc (n : Z) : Z_ Z := fun s =>
  match malloc n s.2 with
  | (Some a, h) => (Ok a, (s.1, h))
  | (None, h) => (Throw bad_alloc, (s.1, h))
  end.

Definition zfree (p : option Z) : Z_ unit := fun s =>
  match free p s.2 with Some h => (Ok tt, (s.1, h)) | None => (Throw invalid_access, s) end.

(** ** The chunks *)

(** [zone(chunk_size)] is noexcept. *)
Definition new_zone (chunk_size : Z) (h : heap) : res fault zone * heap :=
  match malloc (wrap 64 (sizeof_chunk + chunk_size)) h with
  | (Some c, h) =>
    (Ok {| m_chunk_size := chunk_size; m_free := chunk_size; m_ptr := c + sizeof_chunk;
           m_chunks := [c];
           m_finalizer_array := {| entries := []; m_end := 0; m_array := None |} |}, h)
  | (None, h) => (Throw terminated, h)
  end.

Definition get_aligned (ptr align : Z) : Z := wrap 64 (ptr + (align - 1)) / align * align.

Definition allocate_expand (size : Z) : Z_ Z :=
  let! z := zget in
  match grow 64 (m_chunk_size z) size with
  | None => zthrow out_of_fuel
  | Some sz =>
    let! c := zmalloc (wrap 64 (sizeof_chunk + sz)) in
    let ptr := c + sizeof_chunk in
    let! _ := zmodify (set_chunks (c :: m_chunks z) sz ptr) in
    zret ptr
  end.

(** The last lines of both: [n] bytes further. *)
Definition advance (n : Z) : Z_ unit :=
  zmodify (fun z => set_ptr (wrap 64 (m_free z - n)) (wrap 64 (m_ptr z + n)) z).

Definition allocate_align (size align : Z) : Z_ Z :=
  let! z := zget in
  let aligned := get_aligned (m_ptr z) align in
  let adjusted_size := wrap 64 (size + (aligned - m_ptr z)) in
  if m_free z <? adjusted_size then
    let enough_size := wrap 64 (size + align - 1) in
    let! ptr := allocate_expand enough_size in
    let aligned := get_aligned ptr align in
    let! z := zget in
    let! _ := advance (wrap 64 (size + (aligned - m_ptr z))) in
    zret aligned
  else
    let! _ := advance adjusted_size in
    zret aligned.

Definition allocate_no_align (size : Z) : Z_ Z :=
  let! z := zget in
  let! ptr := (if m_free z <? size then allocate_expand size else zret (m_ptr z)) in
  let! _ := advance size in
  zret ptr.

Definition undo_allocate (size : Z) : Z_ unit :=
  zmodify (fun z => set_ptr (wrap 64 (m_free z + size)) (wrap 64 (m_ptr z - size)) z).

(** ** The finalizers *)

Definition push_expand (data : Z) : Z_ unit := fun s =>
  let f := m_finalizer_array s.1 in
  let nused := m_end f in
  let nnext := if nused =? 0 then (if sizeof_finalizer <? 72 / 2 then 72 / sizeof_finalizer else 8)
               else wrap 64 (nused * 2) in
  match realloc (m_array f) (wrap 64 (sizeof_finalizer * nnext)) s.2 with
  | None => (Throw invalid_access, s)
  | Some (None, h) => (Throw bad_alloc, (s.1, h))
  | Some (Some a, h) =>
    (Ok tt, (set_finalizers {| entries := entries f ++ [data]; m_end := nnext; m_array := Some a |} s.1, h))
  end.

Definition push_finalizer (data : Z) : Z_ unit :=
  let! z := zget in
  let f := m_finalizer_array z in
  if len (entries f) =? m_end f then push_expand data
  else zmodify (set_finalizers {| entries := entries f ++ [data]; m_end := m_end f; m_array := m_array f |}).

(** [--m_finalizer_array.m_tail] *)
Definition pop_finalizer : Z_ unit :=
  zmodify (fun z =>
    let f := m_finalizer_array z in
    set_finalizers {| entries := removelast (entries f); m_end := m_end f; m_array := m_array f |} z).

(** What [call] runs, in its order: the last one pushed first. *)
Definition call (f : finalizer_array) : list Z := rev (entries f).

(** [allocate<T>]: the address of the new object; [ctor_ok]: its constructor does not throw. *)
Definition allocate (size align : Z) (ctor_ok : bool) : Z_ Z :=
  let! x := allocate_align size align in
  let! _ := zcatch (push_finalizer x) (undo_allocate size) in
  zcatch (if ctor_ok then zret x else zthrow ctor_exception)
         (let! _ := pop_finalizer in undo_allocate size).

(** ** [clear] and the destructor *)

Fixpoint free_all (l : list Z) : Z_ unit :=
  match l with
  | [] => zret tt
  | c :: l => let! _ := zfree (Some c) in free_all l
  end.

(** All chunks but the last of the list, the first allocated, are freed. *)
Definition clear_chunks : Z_ unit :=
  let! z := zget in
  match last (m_chunks z) with
  | None => zthrow invalid_access
  | Some c =>
    let! _ := free_all (removelast (m_chunks z)) in
    zmodify (set_chunks [c] (m_chunk_size z) (c + sizeof_chunk))
  end.

(** [clear]: the finalizers it called. *)
Definition clear : Z_ (list Z) :=
  let! z := zget in
  let f := m_finalizer_array z in
  let! _ := zmodify (set_finalizers {| entries := []; m_end := m_end f; m_array := m_array f |}) in
  let! _ := clear_chunks in
  zret (call f).

(** The members go in the reverse order: the finalizers, then the chunks. *)
Definition destroy_zone : Z_ (list Z) :=
  let! z := zget in
  let! _ := zfree (m_array (m_finalizer_array z)) in
  let! _ := free_all (m_chunks z) in
  zret (call (m_finalizer_array z)).

(** ** Moves *)

(** What the move constructors of the members leave in the zone moved from: no chunk, no array, but
    [m_ptr] and [m_free] as they were. *)
Definition moved_from (z : zone) : zone :=
  {| m_chunk_size := m_chunk_size z; m_free := m_free z; m_ptr := m_ptr z; m_chunks := [];
     m_finalizer_array := {| entries := []; m_end := 0; m_array := None |} |}.

(** [zone(zone&&)]: the new zone, and the old. *)
Definition move_constructor (other : zone) : zone * zone := (other, moved_from other).

(** [operator=(zone&&)], of another zone: member by member, the chunks first. The finalizers called,
    the heap they find, and [other]. *)
Definition move_assign (other : zone) : Z_ (list Z * heap * zone) :=
  let! z := zget in
  let! _ := free_all (m_chunks z) in
  fun s =>
    (let! _ := zfree (m_array (m_finalizer_array z)) in
     let! _ := zmodify (fun _ => other) in
     zret (call (m_finalizer_array z), s.2, moved_from other)) s.
End Zone.
