(* ===== verification/ZoneSpec.v ===== *)
(** * What the zone promises

    Everything a zone hands out is aligned, inside one of its chunks, and shares no
    byte with anything else it handed out since it was last cleared; when the zone is
    destroyed the heap is what it was before, and the finalizers were called last
    pushed first. *)

From S2P Require Import Prelude Alloc Zone.

#[local] Open Scope zone_scope.

(** ** Ranges of addresses *)

Definition inside (x : Z) (r : Z * Z) : Prop := r.1 <= x < r.1 + r.2.
Definition disjoint_ranges (r r' : Z * Z) : Prop := forall x, inside x r -> inside x r' -> False.

Fixpoint all_disjoint (l : list (Z * Z)) : Prop :=
  match l with
  | [] => True
  | r :: l => Forall (disjoint_ranges r) l /\ all_disjoint l
  end.

(** ** The invariant

    [h0]: the heap without the zone; [given]: what was handed out since the last
    [clear]. *)

Definition owned (z : zone) : list Z := m_chunks z ++ option_list (m_array (m_finalizer_array z)).

Definition in_chunk (h : heap) (chunks : list Z) (r : Z * Z) : Prop :=
  exists c b, c ∈ chunks /\ h !! c = Some b /\ c + sizeof_chunk <= r.1 /\ 0 <= r.2 /\ r.1 + r.2 <= c + len b.

Record zone_ok (h0 : heap) (z : zone) (h : heap) (given : list (Z * Z)) : Prop := {
  z_heap : heap_ok h;
  z_nodup : NoDup (owned z);
  z_others : forall a, a ∉ owned z -> h !! a = h0 !! a;
  z_mine : forall a, a ∈ owned z -> h0 !! a = None /\ is_Some (h !! a);
  z_head : exists c l b, m_chunks z = c :: l /\ h !! c = Some b /\ c + sizeof_chunk <= m_ptr z /\
             0 <= m_free z /\ m_ptr z + m_free z = c + len b;
  z_last : exists l c b, m_chunks z = l ++ [c] /\ h !! c = Some b /\
             len b = sizeof_chunk + m_chunk_size z /\ 0 <= m_chunk_size z;
  z_given : Forall (in_chunk h (m_chunks z)) given;
  z_disjoint : all_disjoint given;
  z_unused : Forall (disjoint_ranges (m_ptr z, m_free z)) given;
  z_fin : let f := m_finalizer_array z in
    match m_array f with
    | None => m_end f = 0 /\ entries f = []
    | Some a => exists b, h !! a = Some b /\ len b = sizeof_finalizer * m_end f /\
                  len (entries f) <= m_end f
    end;
}.

(** The bounds of the ranges in the hypotheses, as inequalities. *)
Ltac ranges :=
  unfold inside, sizeof_chunk in *; cbn [fst snd m_ptr m_free m_chunks set_chunks set_ptr] in *.

Section Proofs.
Context {MA : Malloc} {LA : MallocLaws MA}.

Lemma in_chunk_mono h h' l l' r :
  (forall c b, c ∈ l -> h !! c = Some b -> c ∈ l' /\ h' !! c = Some b) ->
  in_chunk h l r -> in_chunk h' l' r.
Proof.
  intros Hm (c & b & Hc & Hb & H). destruct (Hm c b Hc Hb). by exists c, b.
Qed.

(** ** Chunks *)

Lemma new_zone_ok n h :
  heap_ok h -> 0 <= n < 2 ^ 62 ->
  match new_zone n h with
  | (Ok z, h') => zone_ok h z h' []
  | (Throw e, h') => e = terminated /\ h' = h
  end.
Proof.
  intros Hh Hn. unfold new_zone, malloc. rewrite wrap_small by (unfold sizeof_chunk; lia).
  destruct (os_malloc h (sizeof_chunk + n)) as [c|] eqn:E; [|done].
  assert (Hl : len (blank (sizeof_chunk + n)) = sizeof_chunk + n) by (apply len_blank; unfold sizeof_chunk; lia).
  split; simpl.
  - eapply heap_ok_malloc; [done| |done|done]. unfold sizeof_chunk. lia.
  - apply NoDup_singleton.
  - intros a Ha. rewrite lookup_insert_ne; [done|]. intros ->. apply Ha, list_elem_of_here.
  - intros a Ha%list_elem_of_singleton. subst. rewrite lookup_insert_eq. split; [by eapply malloc_fresh|done].
  - exists c, [], (blank (sizeof_chunk + n)). rewrite lookup_insert_eq, Hl. repeat split; lia.
  - exists [], c, (blank (sizeof_chunk + n)). rewrite lookup_insert_eq, Hl. repeat split; lia.
  - constructor.
  - done.
  - constructor.
  - done.
Qed.

Lemma allocate_expand_ok h0 z h given size :
  zone_ok h0 z h given -> 0 <= size < 2 ^ 62 ->
  match allocate_expand size (z, h) with
  | (Ok p, (z', h')) => zone_ok h0 z' h' given /\ p = m_ptr z' /\ size <= m_free z' /\
      m_finalizer_array z' = m_finalizer_array z
  | (Throw e, s') => e = bad_alloc /\ s' = (z, h)
  end.
Proof.
  intros G Hs. unfold allocate_expand, zbind, zget, zmodify, zmalloc, malloc. cbn [fst snd].
  destruct (z_last _ _ _ _ G) as (l & c & b & Hl & Hc & Hlen & Hcs).
  pose proof (heap_bounds _ (z_heap _ _ _ _ G) _ _ Hc) as Hb.
  unfold sizeof_chunk in *.
  destruct (grow_ok (m_chunk_size z) size) as (sz & Hg & Hsz & Hsz2); [lia|lia|].
  pose proof (grow_le _ _ _ _ Hg ltac:(lia) ltac:(lia)) as Hle. rewrite Hg.
  rewrite wrap_small by lia.
  cbn [fst snd]. destruct (os_malloc h (8 + sz)) as [a|] eqn:E; [|done]. cbn [zret fst snd].
  assert (Hbl : len (blank (8 + sz)) = 8 + sz) by (apply len_blank; lia).
  pose proof (malloc_fresh _ _ _ E) as Hf.
  assert (Ha : a ∉ owned z).
  { intros Ha. apply (z_mine _ _ _ _ G) in Ha as [_ [x Hx]]. congruence. }
  split; [|split; [done|split; [simpl; lia|done]]]. split; simpl.
  - eapply heap_ok_malloc; [apply G| |done|done]. lia.
  - apply NoDup_cons. split; [done|apply G].
  - intros x [Hx Hx']%not_elem_of_cons. rewrite lookup_insert_ne by done. by apply (z_others _ _ _ _ G).
  - intros x [->|Hx]%elem_of_cons.
    + rewrite lookup_insert_eq. split; [|done]. by rewrite <- (z_others _ _ _ _ G a Ha).
    + destruct (z_mine _ _ _ _ G x Hx) as [H1 H2]. split; [done|].
      rewrite lookup_insert_ne; [done|]. intros ->. done.
  - exists a, (m_chunks z), (blank (8 + sz)). rewrite lookup_insert_eq, Hbl. unfold sizeof_chunk. repeat split; lia.
  - exists (a :: l), c, b. rewrite Hl. rewrite lookup_insert_ne by congruence. done.
  - eapply Forall_impl; [apply G|]. intros r. apply in_chunk_mono. intros c' b' Hc' Hb'.
    split; [by right|]. rewrite lookup_insert_ne; [done|congruence].
  - apply G.
  - eapply Forall_impl; [apply G|]. intros r (c' & b' & _ & Hb' & H1 & H2 & H3) x Hx Hr.
    ranges.
    destruct (malloc_apart _ _ _ _ _ E Hb'); lia.
  - pose proof (z_fin _ _ _ _ G) as F. simpl in F. destruct (m_array _) as [x|]; [|done].
    destruct F as (y & Hy & F). exists y. rewrite lookup_insert_ne; [done|congruence].
Qed.

(** ** Allocation *)

(** [n] bytes further, of which the caller gets [size] at [p]. *)
Lemma advance_ok h0 z h given n p size :
  zone_ok h0 z h given -> m_ptr z <= p -> 0 <= size -> p + size = m_ptr z + n -> n <= m_free z ->
  exists z', advance n (z, h) = (Ok tt, (z', h)) /\ zone_ok h0 z' h ((p, size) :: given) /\
    m_ptr z' = p + size /\ m_finalizer_array z' = m_finalizer_array z.
Proof.
  intros G Hp Hs Hn Hf. unfold advance, zmodify. cbn [fst snd].
  destruct (z_head _ _ _ _ G) as (c & l & b & Hl & Hc & H1 & H2 & H3).
  pose proof (heap_bounds _ (z_heap _ _ _ _ G) _ _ Hc) as Hb. unfold sizeof_chunk in *.
  rewrite !wrap_small by lia. eexists. split; [done|]. split; [|split; [simpl; lia|done]].
  destruct G. split; try done.
  - exists c, l, b. ranges. repeat split; try done; lia.
  - constructor; [|done]. exists c, b. ranges. rewrite Hl. repeat split; try done; try lia.
    apply list_elem_of_here.
  - split; [|done]. eapply Forall_impl; [exact z_unused0|]. intros r Hr x Hx Hx'. apply (Hr x); [|done].
    ranges. lia.
  - constructor.
    + intros x Hx Hx'. ranges. lia.
    + eapply Forall_impl; [exact z_unused0|]. intros r Hr x Hx Hx'. apply (Hr x); [|done]. ranges. lia.
Qed.

Lemma get_aligned_ok ptr align :
  0 <= ptr < 2 ^ 63 -> 0 < align < 2 ^ 62 ->
  ptr <= get_aligned ptr align <= ptr + (align - 1) /\ get_aligned ptr align mod align = 0.
Proof.
  intros Hp Ha. unfold get_aligned. rewrite wrap_small by lia.
  pose proof (Z.div_mod (ptr + (align - 1)) align ltac:(lia)).
  pose proof (Z.mod_pos_bound (ptr + (align - 1)) align ltac:(lia)).
  split; [lia|]. apply Z.mod_mul. lia.
Qed.

Lemma zone_bounds h0 z h given : zone_ok h0 z h given ->
  0 < m_ptr z < 2 ^ 63 /\ 0 <= m_free z < 2 ^ 63.
Proof.
  intros G. destruct (z_head _ _ _ _ G) as (c & l & b & Hl & Hc & H1 & H2 & H3).
  pose proof (heap_bounds _ (z_heap _ _ _ _ G) _ _ Hc) as Hb. unfold sizeof_chunk in *. lia.
Qed.

(** What an allocation that succeeds gives: a new range, aligned, at the end of the used part. *)
Definition allocated (h0 : heap) (z : zone) (given : list (Z * Z)) (size align : Z)
    (r : res fault Z * (zone * heap)) (s : zone * heap) : Prop :=
  match r with
  | (Ok p, (z', h')) => zone_ok h0 z' h' ((p, size) :: given) /\ p mod align = 0 /\
      m_ptr z' = p + size /\ m_finalizer_array z' = m_finalizer_array z
  | (Throw e, s') => e = bad_alloc /\ s' = s
  end.

Lemma allocate_align_ok h0 z h given size align :
  zone_ok h0 z h given -> 0 <= size < 2 ^ 61 -> 0 < align < 2 ^ 61 ->
  allocated h0 z given size align (allocate_align size align (z, h)) (z, h).
Proof.
  intros G Hs Ha. pose proof (zone_bounds _ _ _ _ G) as [Hp Hf].
  destruct (get_aligned_ok (m_ptr z) align ltac:(lia) ltac:(lia)) as [A1 A2].
  unfold allocate_align, zbind, zget. cbn [fst snd].
  rewrite (wrap_small 64 (size + (get_aligned (m_ptr z) align - m_ptr z))) by lia.
  destruct (Z.ltb_spec (m_free z) (size + (get_aligned (m_ptr z) align - m_ptr z))).
  - rewrite (wrap_small 64 (size + align - 1)) by lia.
    pose proof (allocate_expand_ok h0 z h given (size + align - 1) G ltac:(lia)) as He.
    destruct (allocate_expand (size + align - 1) (z, h)) as [[p|e] [z1 h1]]; [|exact He].
    destruct He as (G1 & -> & Hfr & Hfa). pose proof (zone_bounds _ _ _ _ G1) as [Hp1 Hf1].
    destruct (get_aligned_ok (m_ptr z1) align ltac:(lia) ltac:(lia)) as [B1 B2].
    cbn [fst snd]. rewrite wrap_small by lia.
    destruct (advance_ok h0 z1 h1 given (size + (get_aligned (m_ptr z1) align - m_ptr z1))
                (get_aligned (m_ptr z1) align) size G1) as (z2 & -> & G2 & E1 & E2); try lia.
    cbn [zret]. split; [done|]. split; [done|]. split; [done|congruence].
  - destruct (advance_ok h0 z h given (size + (get_aligned (m_ptr z) align - m_ptr z))
                (get_aligned (m_ptr z) align) size G) as (z2 & -> & G2 & E1 & E2); try lia.
    cbn [zret]. done.
Qed.

Lemma allocate_no_align_ok h0 z h given size :
  zone_ok h0 z h given -> 0 <= size < 2 ^ 61 ->
  allocated h0 z given size 1 (allocate_no_align size (z, h)) (z, h).
Proof.
  intros G Hs. unfold allocate_no_align, zbind, zget. cbn [fst snd].
  destruct (Z.ltb_spec (m_free z) size).
  - pose proof (allocate_expand_ok h0 z h given size G ltac:(lia)) as He.
    destruct (allocate_expand size (z, h)) as [[p|e] [z1 h1]]; [|exact He].
    destruct He as (G1 & -> & Hfr & Hfa).
    destruct (advance_ok h0 z1 h1 given size (m_ptr z1) size G1) as (z2 & -> & G2 & E1 & E2); try lia.
    cbn [zret]. split; [done|]. split; [apply Z.mod_1_r|]. split; [done|congruence].
  - cbn [zret]. destruct (advance_ok h0 z h given size (m_ptr z) size G) as (z2 & -> & G2 & E1 & E2); try lia.
    split; [done|]. split; [apply Z.mod_1_r|done].
Qed.

(** ** Objects with a destructor *)

(** The last allocation is taken back. *)
Lemma undo_ok h0 z h given p size :
  zone_ok h0 z h ((p, size) :: given) -> m_ptr z = p + size ->
  exists z', undo_allocate size (z, h) = (Ok tt, (z', h)) /\ zone_ok h0 z' h given /\
    m_finalizer_array z' = m_finalizer_array z.
Proof.
  intros G Hp. pose proof (zone_bounds _ _ _ _ G) as [Hb1 Hb2].
  destruct (z_head _ _ _ _ G) as (c & l & b & Hl & Hc & H1 & H2 & H3).
  pose proof (z_given _ _ _ _ G) as Hg. apply Forall_cons in Hg as [(c' & b' & Hc' & Hb' & R1 & R2 & R3) Hg].
  pose proof (heap_bounds _ (z_heap _ _ _ _ G) _ _ Hc) as B.
  pose proof (heap_bounds _ (z_heap _ _ _ _ G) _ _ Hb') as B'.
  assert (Hin : size = 0 \/ c + sizeof_chunk <= p).
  { destruct (Z.eq_dec c c') as [<-|Hne]; [right; exact R1|].
    pose proof (heap_apart _ (z_heap _ _ _ _ G) _ _ _ _ Hc Hb' Hne) as Ha. unfold apart in Ha. ranges.
    pose proof (len_nonneg b). lia. }
  pose proof (z_disjoint _ _ _ _ G) as [D1 D2]. pose proof (z_unused _ _ _ _ G) as U.
  apply Forall_cons in U as [_ U].
  unfold undo_allocate, zmodify. cbn [fst snd]. ranges.
  rewrite !wrap_small by lia. eexists. split; [done|]. split; [|done].
  destruct G. split; try done.
  - exists c, l, b. ranges. repeat split; try done; lia.
  - apply Forall_forall. intros r Hr x Hx Hx'. rewrite Forall_forall in D1, U.
    destruct (decide (p <= x < p + size)).
    + apply (D1 r Hr x); [by ranges|done].
    + apply (U r Hr x); [|done]. ranges. lia.
Qed.

Lemma set_finalizers_ok h0 z h given f :
  zone_ok h0 z h given -> m_array f = m_array (m_finalizer_array z) ->
  m_end f = m_end (m_finalizer_array z) -> len (entries f) <= m_end f ->
  zone_ok h0 (set_finalizers f z) h given.
Proof.
  intros G Ha He Hl. destruct G.
  assert (Ho : owned (set_finalizers f z) = owned z) by (unfold owned; simpl; congruence).
  split; rewrite ?Ho; try done.
  simpl. simpl in z_fin0. rewrite Ha, He in *. destruct (m_array (m_finalizer_array z)) as [a|].
  - destruct z_fin0 as (b & Hb & Hlb & _). by exists b.
  - destruct z_fin0 as [H0 _]. split; [done|]. rewrite H0 in Hl. destruct (entries f); [done|len_lia].
Qed.

(** The new block for the finalizers' array is apart from what the zone owns, and the chunks
    stay where they are. *)
Lemma array_block h0 z h given a :
  zone_ok h0 z h given ->
  let h1 := match m_array (m_finalizer_array z) with Some x => delete x h | None => h end in
  h1 !! a = None ->
  (a ∉ m_chunks z) /\ h0 !! a = None /\
  (forall blk c x, c ∈ m_chunks z -> h !! c = Some x -> (<[a := blk]> h1) !! c = Some x) /\
  (forall blk x, x ∉ m_chunks z ++ [a] -> (<[a := blk]> h1) !! x = h0 !! x).
Proof.
  intros G h1 Hf. set (f := m_finalizer_array z) in *.
  assert (Ho : forall x, x ∈ owned z <-> x ∈ m_chunks z \/ m_array f = Some x).
  { intros x. unfold owned. rewrite elem_of_app. subst f.
    destruct (m_array _); simpl; rewrite ?list_elem_of_singleton, ?elem_of_nil; naive_solver congruence. }
  assert (Hch : forall c, c ∈ m_chunks z -> h1 !! c = h !! c).
  { intros c Hc. subst h1. destruct (m_array f) as [y|] eqn:Ey; [|done].
    rewrite lookup_delete_ne; [done|]. intros ->. pose proof (z_nodup _ _ _ _ G) as Hnd.
    unfold owned in Hnd. subst f. rewrite Ey in Hnd. apply NoDup_app in Hnd as (_ & Hd & _).
    apply (Hd c Hc). apply list_elem_of_here. }
  assert (Hca : a ∉ m_chunks z).
  { intros Hc. destruct (z_mine _ _ _ _ G a) as [_ [x Hx]]; [apply Ho; by left|].
    rewrite (Hch a Hc) in Hf. congruence. }
  assert (Hun : forall x, x ∉ m_chunks z -> h1 !! x = h0 !! x).
  { intros x Hx. subst h1. destruct (m_array f) as [y|] eqn:Ey.
    - destruct (decide (y = x)) as [->|]; [rewrite lookup_delete_eq|rewrite lookup_delete_ne by done].
      + symmetry. apply (z_mine _ _ _ _ G), Ho. by right.
      + apply (z_others _ _ _ _ G). rewrite Ho. intros [|]; congruence.
    - apply (z_others _ _ _ _ G). rewrite Ho. intros [|]; congruence. }
  split; [done|]. split; [by rewrite <- Hun|]. split.
  - intros blk c x Hc Hx. rewrite lookup_insert_ne by congruence. by rewrite Hch.
  - intros blk x [Hx Hxa]%not_elem_of_app.
    rewrite lookup_insert_ne by (intros ->; apply Hxa, list_elem_of_here). by apply Hun.
Qed.

(** The heap after the finalizers' array moved from [p] to [a]. *)
Lemma array_moved h0 z h given a blk data e :
  zone_ok h0 z h given -> let f := m_finalizer_array z in
  let h1 := match m_array f with Some x => delete x h | None => h end in
  os_malloc h1 (sizeof_finalizer * e) = Some a -> len blk = sizeof_finalizer * e -> 0 <= e ->
  len (entries f ++ [data]) <= e ->
  zone_ok h0 (set_finalizers {| entries := entries f ++ [data]; m_end := e; m_array := Some a |} z)
          (<[a := blk]> h1) given.
Proof.
  intros G f h1 E Hbl He Hen. pose proof (malloc_fresh _ _ _ E) as Hf.
  assert (Hh1 : heap_ok h1) by (subst h1; destruct (m_array f); [apply heap_ok_delete|]; apply G).
  destruct (array_block h0 z h given a G Hf) as (Hca & Ha0 & Hch & Hown).
  assert (Hch' : forall c x, c ∈ m_chunks z -> h !! c = Some x -> (<[a := blk]> h1) !! c = Some x).
  { intros c x Hc Hx. by apply Hch. }
  pose proof (heap_ok_malloc h1 (sizeof_finalizer * e) a Hh1 ltac:(unfold sizeof_finalizer; lia) E blk Hbl) as Hh2.
  destruct G. unfold owned in *. split; simpl; try done.
  - apply NoDup_app in z_nodup0 as (Hn & _ & _). apply NoDup_app. split; [done|]. split; [|apply NoDup_singleton].
    intros x Hx Hxa%list_elem_of_singleton. by subst.
  - exact (Hown blk).
  - intros x [Hx| ->%list_elem_of_singleton]%elem_of_app; [|by rewrite lookup_insert_eq].
    destruct (z_mine0 x) as [H1 [y Hy]]; [apply elem_of_app; by left|]. split; [done|].
    rewrite (Hch' x y) by done. done.
  - destruct z_head0 as (c & l & b & Hl & Hc & H). exists c, l, b. split; [done|]. split; [|done].
    apply Hch'; [|done]. rewrite Hl. apply list_elem_of_here.
  - destruct z_last0 as (l & c & b & Hl & Hc & H). exists l, c, b. split; [done|]. split; [|done].
    apply Hch'; [|done]. rewrite Hl. apply elem_of_app. right. apply list_elem_of_here.
  - eapply Forall_impl; [exact z_given0|]. intros r. apply in_chunk_mono. auto.
  - exists blk. rewrite lookup_insert_eq. done.
Qed.

Lemma push_finalizer_ok h0 z h given x :
  zone_ok h0 z h given ->
  match push_finalizer x (z, h) with
  | (Ok _, (z', h')) => zone_ok h0 z' h' given /\ m_ptr z' = m_ptr z /\
      entries (m_finalizer_array z') = entries (m_finalizer_array z) ++ [x]
  | (Throw e, s') => e = bad_alloc /\ s' = (z, h)
  end.
Proof.
  intros G. pose proof (z_fin _ _ _ _ G) as F. cbv zeta in F. unfold push_finalizer, zbind, zget. cbn [fst snd].
  set (f := m_finalizer_array z) in *. pose proof (len_nonneg (entries f)).
  destruct (Z.eqb_spec (len (entries f)) (m_end f)) as [Heq|Hne].
  - unfold push_expand. cbn [fst snd]. fold f. set (e := if m_end f =? 0 then _ else _).
    assert (He : 0 < e < 2 ^ 60 /\ len (entries f ++ [x]) <= e).
    { rewrite len_app. change (len [x]) with 1. subst e. destruct (Z.eqb_spec (m_end f) 0).
      - change (if sizeof_finalizer <? 72 / 2 then 72 / sizeof_finalizer else 8) with 4. lia.
      - destruct (m_array f) as [a|]; [|lia]. destruct F as (b & Hb & Hl & _).
        pose proof (heap_bounds _ (z_heap _ _ _ _ G) _ _ Hb). unfold sizeof_finalizer in *.
        rewrite wrap_small by lia. lia. }
    clearbody e. unfold sizeof_finalizer. rewrite (wrap_small 64 (16 * e)) by lia.
    pose proof (array_moved h0 z h given) as Hm. cbv zeta in Hm. fold f in Hm.
    unfold realloc, malloc. destruct (m_array f) as [a|] eqn:Ea.
    + destruct F as (b & Hb & Hl & _). rewrite Hb. unfold sizeof_finalizer in *.
      destruct (os_malloc (delete a h) (16 * e)) as [a'|] eqn:E; [|done].
      assert (m_end f <= e) by (rewrite len_app in He; change (len [x]) with 1 in He; lia).
      split; [|done]. apply Hm; [done|done|apply (len_take_blank (16 * e)); lia|lia|lia].
    + destruct (os_malloc h (16 * e)) as [a'|] eqn:E; [|done].
      split; [|done]. apply Hm; [done|done|apply (len_blank (16 * e)); lia|lia|lia].
  - unfold zmodify. cbn [fst snd]. split; [|done]. apply set_finalizers_ok; try done.
    cbn [entries m_end]. rewrite len_app. change (len [x]) with 1. fold f.
    destruct (m_array f) as [a|]; [|destruct F as [F0 F1]; rewrite F1 in *; done].
    destruct F as (b & _ & _ & Hle). lia.
Qed.

(** [allocate<T>] gives an object whose destructor is the last finalizer; whatever throws, it
    leaves the zone with what it had. *)
Lemma allocate_ok h0 z h given size align ctor_ok :
  zone_ok h0 z h given -> 0 <= size < 2 ^ 61 -> 0 < align < 2 ^ 61 ->
  match allocate size align ctor_ok (z, h) with
  | (Ok p, (z', h')) => zone_ok h0 z' h' ((p, size) :: given) /\ p mod align = 0 /\ ctor_ok = true /\
      entries (m_finalizer_array z') = entries (m_finalizer_array z) ++ [p]
  | (Throw e, (z', h')) => zone_ok h0 z' h' given /\ (e = bad_alloc \/ e = ctor_exception /\ ctor_ok = false) /\
      entries (m_finalizer_array z') = entries (m_finalizer_array z)
  end.
Proof.
  intros G Hs Ha. pose proof (allocate_align_ok h0 z h given size align G Hs Ha) as A.
  unfold allocate, zbind, zcatch, allocated in *.
  destruct (allocate_align size align (z, h)) as [[p|e] [z1 h1]];
    [|destruct A as [-> [= -> ->]]; auto].
  destruct A as (G1 & Hal & Hp1 & Hf1).
  pose proof (push_finalizer_ok h0 z1 h1 _ p G1) as P.
  destruct (push_finalizer p (z1, h1)) as [[[]|e] [z2 h2]].
  - destruct P as (G2 & Hp2 & Hf2). destruct ctor_ok; cbn [zret zthrow].
    + rewrite Hf2, Hf1. auto.
    + set (f := m_finalizer_array z2) in *.
      assert (Hrl : removelast (entries f) = entries (m_finalizer_array z)).
      { rewrite Hf2, Hf1. apply removelast_last. }
      pose proof (z_fin _ _ _ _ G2) as F. cbv zeta in F. fold f in F.
      pose proof (set_finalizers_ok h0 z2 h2 _
        {| entries := removelast (entries f); m_end := m_end f; m_array := m_array f |} G2 eq_refl eq_refl) as G3.
      destruct (undo_ok h0 (set_finalizers {| entries := removelast (entries f); m_end := m_end f; m_array := m_array f |} z2)
                  h2 given p size) as (z3 & E & G4 & Hf4).
      { apply G3. cbn [entries m_end]. rewrite Hrl, <- Hf1. rewrite Hf2, len_app in F.
        change (len [p]) with 1 in F. destruct (m_array f); [destruct F as (b & _ & _ & Hle); lia|].
        destruct F as [_ F]. by destruct (entries (m_finalizer_array z1)). }
      { simpl. congruence. }
      unfold pop_finalizer, zmodify. cbn [fst snd]. fold f. rewrite E. rewrite Hf4. auto.
  - destruct P as [-> [= -> ->]].
    destruct (undo_ok h0 z1 h1 given p size G1 Hp1) as (z3 & E & G4 & Hf4). rewrite E, Hf4, Hf1. auto.
Qed.

(** ** The end of a zone *)

Lemma free_all_ok l z h :
  NoDup l -> Forall (fun a => is_Some (h !! a)) l ->
  exists h', free_all l (z, h) = (Ok tt, (z, h')) /\
    forall a, h' !! a = if decide (a ∈ l) then None else h !! a.
Proof.
  revert h. induction l as [|c l IH]; intros h Hn Hl; cbn [free_all].
  { exists h. split; [done|]. intros a. by rewrite decide_False by apply not_elem_of_nil. }
  apply NoDup_cons in Hn as [Hc Hn]. apply Forall_cons in Hl as [[b Hb] Hl].
  unfold zbind, zfree, free. cbn [fst snd]. rewrite Hb.
  destruct (IH (delete c h) Hn) as (h' & E & Hh').
  { apply Forall_forall. intros a Ha. rewrite Forall_forall in Hl.
    rewrite lookup_delete_ne by (intros ->; done). by apply Hl. }
  exists h'. split; [exact E|]. intros a. rewrite Hh'. destruct (decide (a = c)) as [->|Hne].
  - rewrite lookup_delete_eq. rewrite (decide_True (P := c ∈ c :: l)) by apply list_elem_of_here. by case_decide.
  - rewrite lookup_delete_ne by done. destruct (decide (a ∈ l)) as [Ha|Ha].
    + rewrite decide_True; [done|]. by apply list_elem_of_further.
    + rewrite decide_False; [done|]. by apply not_elem_of_cons.
Qed.

Lemma owned_split h0 z h given : zone_ok h0 z h given ->
  NoDup (m_chunks z) /\ Forall (fun a => is_Some (h !! a)) (m_chunks z) /\
  forall a, m_array (m_finalizer_array z) = Some a -> (a ∉ m_chunks z) /\ is_Some (h !! a).
Proof.
  intros G. pose proof (z_nodup _ _ _ _ G) as N. pose proof (z_mine _ _ _ _ G) as M. unfold owned in *.
  apply NoDup_app in N as (N1 & N2 & _). split; [done|]. split.
  - apply Forall_forall. intros a Ha. apply M, elem_of_app. by left.
  - intros a Ea. rewrite Ea in *. split.
    + intros Ha. apply (N2 a Ha), list_elem_of_here.
    + apply M, elem_of_app. right. apply list_elem_of_here.
Qed.

(** Freeing what a zone owns leaves the heap as it was without the zone. *)
Lemma owned_freed h0 z h given h' : zone_ok h0 z h given ->
  (forall a, h' !! a = if decide (a ∈ owned z) then None else h !! a) -> h' = h0.
Proof.
  intros G Hh. apply map_eq. intros a. rewrite Hh. destruct (decide (a ∈ owned z)) as [Ha|Ha].
  - symmetry. by apply (z_mine _ _ _ _ G).
  - by apply (z_others _ _ _ _ G).
Qed.

Lemma destroy_ok h0 z h given :
  zone_ok h0 z h given ->
  exists z', destroy_zone (z, h) = (Ok (rev (entries (m_finalizer_array z))), (z', h0)).
Proof.
  intros G. destruct (owned_split _ _ _ _ G) as (N & C & A). pose proof (owned_freed h0 z h given) as O.
  unfold owned in O. unfold destroy_zone, zbind, zget, zfree, free. cbn [fst snd].
  destruct (m_array (m_finalizer_array z)) as [a|] eqn:Ea; simpl in O.
  - destruct (A a eq_refl) as [Hna [b Hb]]. rewrite Hb.
    destruct (free_all_ok (m_chunks z) z (delete a h) N) as (h' & -> & Hh').
    { apply Forall_forall. intros x Hx. rewrite Forall_forall in C.
      rewrite lookup_delete_ne by (intros ->; done). by apply C. }
    exists z. cbn [zret]. unfold call. do 2 f_equal. apply O; [done|]. intros x. rewrite Hh'.
    destruct (decide (a = x)) as [->|Hax]; [rewrite lookup_delete_eq|rewrite lookup_delete_ne by done];
      repeat case_decide; try done; set_solver.
  - destruct (free_all_ok (m_chunks z) z h N C) as (h' & -> & Hh').
    exists z. cbn [zret]. unfold call. do 2 f_equal. apply O; [done|]. intros x. by rewrite app_nil_r, Hh'.
Qed.

(** A zone can be moved, and the one moved from destroyed. *)
Lemma move_constructor_ok h0 z h given : zone_ok h0 z h given ->
  zone_ok h0 (move_constructor z).1 h given /\
  destroy_zone ((move_constructor z).2, h) = (Ok [], ((move_constructor z).2, h)).
Proof. done. Qed.

(** But it still allocates, from the chunk that was given away: what it hands out the new zone hands
    out again. *)
Lemma moved_from_allocates h0 z h given size : zone_ok h0 z h given -> 0 <= size <= m_free z ->
  exists p s s', allocate_no_align size ((move_constructor z).1, h) = (Ok p, s) /\
    allocate_no_align size ((move_constructor z).2, h) = (Ok p, s').
Proof.
  intros G Hs. unfold allocate_no_align, zbind, zget. cbn [fst snd move_constructor moved_from m_free m_ptr].
  destruct (Z.ltb_spec (m_free z) size); [lia|]. by eexists _, _, _.
Qed.

(** Assignment frees all that the zone had and takes the other's; but the finalizers of its objects
    are called when the chunks the objects are in have been freed. *)
Lemma move_assign_ok h0 z h given other : zone_ok h0 z h given ->
  exists h', move_assign other (z, h) =
      (Ok (rev (entries (m_finalizer_array z)), h', moved_from other), (other, h0)) /\
    Forall (fun c => h' !! c = None) (m_chunks z).
Proof.
  intros G. destruct (owned_split _ _ _ _ G) as (N & C & A). pose proof (owned_freed h0 z h given) as O.
  unfold owned in O. unfold move_assign, zbind, zget. cbn [fst snd].
  destruct (free_all_ok (m_chunks z) z h N C) as (h' & -> & Hh'). exists h'. cbn [snd].
  assert (Hc : Forall (fun c => h' !! c = None) (m_chunks z)).
  { apply Forall_forall. intros c Hc. by rewrite Hh', decide_True. }
  split; [|done]. unfold zfree, free, zmodify, zret, call. cbn [fst snd].
  destruct (m_array (m_finalizer_array z)) as [a|] eqn:Ea; simpl in O.
  - destruct (A a eq_refl) as [Hna [b Hb]]. rewrite Hh', decide_False, Hb by done. do 2 f_equal.
    apply O; [done|]. intros x. cbn [snd].
    destruct (decide (a = x)) as [->|Hax]; [rewrite lookup_delete_eq|rewrite lookup_delete_ne, Hh' by done];
      repeat case_decide; try done; set_solver.
  - do 2 f_equal. apply O; [done|]. intros x. cbn [snd]. by rewrite app_nil_r, Hh'.
Qed.

Lemma clear_ok h0 z h given :
  zone_ok h0 z h given ->
  exists z' h', clear (z, h) = (Ok (rev (entries (m_finalizer_array z))), (z', h')) /\
    zone_ok h0 z' h' [] /\ entries (m_finalizer_array z') = [].
Proof.
  intros G. destruct (owned_split _ _ _ _ G) as (N & C & A).
  destruct (z_last _ _ _ _ G) as (l & c & b & Hl & Hc & Hb & Hcs).
  rewrite Hl in N, C. apply NoDup_app in N as (Nl & Nc & _).
  assert (Hcl : c ∉ l) by (intros Hx; apply (Nc c Hx), list_elem_of_here).
  unfold clear, clear_chunks, zbind, zget, zmodify. cbn [fst snd m_chunks set_finalizers].
  rewrite Hl, last_snoc, removelast_last.
  match goal with |- context [free_all l (?z1, h)] =>
    destruct (free_all_ok l z1 h Nl) as (h' & -> & Hh') end.
  { by apply Forall_app in C as [C _]. }
  cbn [fst snd zret]. eexists _, _. split; [done|]. split; [|done].
  assert (Hkeep : forall a x, a ∉ l -> h !! a = Some x -> h' !! a = Some x).
  { intros a x Ha Hx. by rewrite Hh', decide_False. }
  assert (Ho : forall x, x ∈ owned z <-> x ∈ l \/ x = c \/ m_array (m_finalizer_array z) = Some x).
  { intros x. unfold owned. rewrite Hl, !elem_of_app, list_elem_of_singleton.
    destruct (m_array _); simpl; rewrite ?list_elem_of_singleton, ?elem_of_nil; naive_solver congruence. }
  assert (Hal : forall a, m_array (m_finalizer_array z) = Some a -> (a ∉ l) /\ a <> c).
  { intros a Ea. destruct (A a Ea) as [Hna _]. rewrite Hl, not_elem_of_app in Hna. destruct Hna as [? Hac].
    split; [done|]. intros ->. apply Hac, list_elem_of_here. }
  pose proof (z_heap _ _ _ _ G) as [B P]. pose proof (z_fin _ _ _ _ G) as F. cbv zeta in F.
  assert (Ho' : forall x, x ∈ c :: option_list (m_array (m_finalizer_array z)) <->
                x = c \/ m_array (m_finalizer_array z) = Some x).
  { intros x. rewrite elem_of_cons. destruct (m_array _); simpl;
      rewrite ?list_elem_of_singleton, ?elem_of_nil; naive_solver congruence. }
  assert (Hh : forall a x, h' !! a = Some x -> h !! a = Some x).
  { intros a x. rewrite Hh'. by case_decide. }
  split; unfold owned; cbn [m_chunks m_finalizer_array set_chunks set_finalizers m_array m_end entries
    m_ptr m_free m_chunk_size app].
  - split; [|intros a x a' x' Ha Ha'; apply P; by apply Hh]. intros a x Ha. by apply B, Hh.
  - apply NoDup_cons. destruct (m_array _) as [a|]; simpl.
    + split; [|apply NoDup_singleton]. rewrite list_elem_of_singleton. intros ->. by destruct (Hal a eq_refl).
    + split; [apply not_elem_of_nil|constructor].
  - intros x Hx. rewrite Ho' in Hx. rewrite Hh'. case_decide as Hxl.
    + symmetry. apply (z_mine _ _ _ _ G), Ho. by left.
    + apply (z_others _ _ _ _ G). rewrite Ho. naive_solver.
  - intros x Hx. apply Ho' in Hx. destruct (z_mine _ _ _ _ G x) as [H0 [y Hy]]; [apply Ho; naive_solver|].
    split; [done|]. exists y. apply Hkeep; [|done]. destruct Hx as [->|Hx]; [done|by apply Hal].
  - exists c, [], b. rewrite (Hkeep c b Hcl Hc). repeat split; lia.
  - exists [], c, b. by rewrite (Hkeep c b Hcl Hc).
  - constructor.
  - done.
  - constructor.
  - destruct (m_array _) as [a|] eqn:Ea; [|by destruct F].
    destruct F as (x & Hx & Hlx & Hle). exists x. rewrite (Hkeep a x (proj1 (Hal a eq_refl)) Hx).
    split; [done|]. split; [done|]. pose proof (len_nonneg (entries (m_finalizer_array z))).
    rewrite len_nil. lia.
Qed.
End Proofs.

(** ** Programs *)

Inductive zone_op :=
| Align (size align : Z)
| NoAlign (size : Z)
| PushFinalizer (data : Z)
| Object (size align : Z) (ctor_ok : bool)
| Clear.

(** The zone, what it handed out since the last clear with the alignment asked for, and the
    finalizers called so far. *)
Record zone_state := { zs : zone * heap; given : list (Z * Z); called : list Z }.

Section Programs.
Context {MA : Malloc}.

(** An exception leaves what the operation left, and the program goes on; undefined
    behaviour does not. *)
Definition went_on (e : fault) : bool :=
  match e with bad_alloc | ctor_exception => true | _ => false end.

Definition allocating (m : Z_ Z) (size : Z) (s : zone_state) : option zone_state :=
  match m (zs s) with
  | (Ok p, s') => Some {| zs := s'; given := (p, size) :: given s; called := called s |}
  | (Throw e, s') => if went_on e then Some {| zs := s'; given := given s; called := called s |} else None
  end.

Definition zone_step (o : zone_op) (s : zone_state) : option zone_state :=
  match o with
  | Align size align => allocating (allocate_align size align) size s
  | NoAlign size => allocating (allocate_no_align size) size s
  | Object size align ctor_ok => allocating (allocate size align ctor_ok) size s
  | PushFinalizer x =>
    match push_finalizer x (zs s) with
    | (Ok _, s') => Some {| zs := s'; given := given s; called := called s |}
    | (Throw e, s') => if went_on e then Some {| zs := s'; given := given s; called := called s |} else None
    end
  | Clear =>
    match clear (zs s) with
    | (Ok l, s') => Some {| zs := s'; given := []; called := called s ++ l |}
    | (Throw e, _) => None
    end
  end.

Fixpoint zone_run (ops : list zone_op) (s : zone_state) : option zone_state :=
  match ops with
  | [] => Some s
  | o :: ops => match zone_step o s with Some s => zone_run ops s | None => None end
  end.

(** What an object may ask for: far below [SIZE_MAX]. *)
Definition zone_op_fits (o : zone_op) : Prop :=
  match o with
  | Align size align | Object size align _ => 0 <= size < 2 ^ 61 /\ 0 < align < 2 ^ 61
  | NoAlign size => 0 <= size < 2 ^ 61
  | _ => True
  end.

Context {LA : MallocLaws MA}.

Lemma zone_step_ok h0 o s :
  zone_ok h0 (zs s).1 (zs s).2 (given s) -> zone_op_fits o ->
  exists s', zone_step o s = Some s' /\ zone_ok h0 (zs s').1 (zs s').2 (given s').
Proof.
  destruct s as [[z h] g l]. cbn [zs given fst snd]. intros G Hf.
  destruct o as [size align|size|x|size align c|]; cbn [zone_step zone_op_fits] in *;
    unfold allocating; cbn [zs given called].
  - pose proof (allocate_align_ok h0 z h g size align G (proj1 Hf) (proj2 Hf)) as A. unfold allocated in A.
    destruct (allocate_align size align (z, h)) as [[p|e] [z' h']];
      [|destruct A as [-> [= -> ->]]]; (eexists; split; [done|]); [apply A|done].
  - pose proof (allocate_no_align_ok h0 z h g size G Hf) as A. unfold allocated in A.
    destruct (allocate_no_align size (z, h)) as [[p|e] [z' h']];
      [|destruct A as [-> [= -> ->]]]; (eexists; split; [done|]); [apply A|done].
  - pose proof (push_finalizer_ok h0 z h g x G) as A.
    destruct (push_finalizer x (z, h)) as [[[]|e] [z' h']];
      [|destruct A as [-> [= -> ->]]]; (eexists; split; [done|]); [apply A|done].
  - pose proof (allocate_ok h0 z h g size align c G (proj1 Hf) (proj2 Hf)) as A.
    destruct (allocate size align c (z, h)) as [[p|e] [z' h']].
    + eexists. split; [done|]. apply A.
    + destruct A as (A & He & _). destruct He as [->|[-> _]]; (eexists; split; [done|exact A]).
  - destruct (clear_ok h0 z h g G) as (z' & h' & -> & A & _). eexists. split; [done|exact A].
Qed.

(** C27. The arena is safe: whatever is allocated from a zone, aligned or not, with or without a
    destructor, with requests refused and constructors that throw anywhere, and the zone cleared
    in between, what it has handed out since the last clear lies inside live memory and no
    two pieces share a byte; and destroying the zone gives back exactly the memory it took. *)
Theorem zone_is_safe n h0 z h ops :
  heap_ok h0 -> 0 <= n < 2 ^ 62 -> new_zone n h0 = (Ok z, h) -> Forall zone_op_fits ops ->
  exists s z', zone_run ops {| zs := (z, h); given := []; called := [] |} = Some s /\
    all_disjoint (given s) /\ Forall (in_chunk (zs s).2 (m_chunks (zs s).1)) (given s) /\
    destroy_zone (zs s) = (Ok (rev (entries (m_finalizer_array (zs s).1))), (z', h0)).
Proof.
  intros Hh Hn Hnew Hf. pose proof (new_zone_ok n h0 Hh Hn) as G. rewrite Hnew in G.
  assert (R : forall s, zone_ok h0 (zs s).1 (zs s).2 (given s) ->
            exists s', zone_run ops s = Some s' /\ zone_ok h0 (zs s').1 (zs s').2 (given s')).
  { clear Hnew G. induction Hf as [|o ops Ho _ IH]; intros s Gs; cbn [zone_run]; [eauto|].
    destruct (zone_step_ok h0 o s Gs Ho) as (s1 & -> & G1). by apply IH. }
  destruct (R {| zs := (z, h); given := []; called := [] |} G) as (s & E & Gs).
  destruct (destroy_ok _ _ _ _ Gs) as (z' & D). rewrite <- surjective_pairing in D.
  exists s, z'. split; [done|]. split; [apply Gs|]. split; [apply Gs|done].
Qed.

(** Alignment and order of destruction, operation by operation: an aligned allocation has the
    alignment asked for, an object is aligned and its destructor becomes the last finalizer, and
    clearing calls every finalizer once, the last one pushed first. *)
Lemma zone_operations h0 z h g size align c :
  zone_ok h0 z h g -> 0 <= size < 2 ^ 61 -> 0 < align < 2 ^ 61 ->
  (forall p s', allocate_align size align (z, h) = (Ok p, s') -> p mod align = 0) /\
  (forall p s', allocate size align c (z, h) = (Ok p, s') -> p mod align = 0 /\ c = true /\
     entries (m_finalizer_array s'.1) = entries (m_finalizer_array z) ++ [p]) /\
  (forall e s', allocate size align c (z, h) = (Throw e, s') -> zone_ok h0 s'.1 s'.2 g /\
     entries (m_finalizer_array s'.1) = entries (m_finalizer_array z)) /\
  exists s', clear (z, h) = (Ok (rev (entries (m_finalizer_array z))), s') /\
     entries (m_finalizer_array s'.1) = [].
Proof.
  intros G Hs Ha. pose proof (allocate_align_ok h0 z h g size align G Hs Ha) as A.
  pose proof (allocate_ok h0 z h g size align c G Hs Ha) as B.
  destruct (clear_ok h0 z h g G) as (z1 & h1 & C & _ & C'). split; [|split; [|split]].
  - intros p [z' h'] E. unfold allocated in A. rewrite E in A. apply A.
  - intros p [z' h'] E. rewrite E in B. apply B.
  - intros e [z' h'] E. rewrite E in B. split; apply B.
  - by exists (z1, h1).
Qed.
End Programs.

(** A zone of 16 bytes: three chunks, an object whose constructor throws, and a clear. *)
Definition sample_zone_ops : list zone_op :=
  [NoAlign 1; Align 8 8; Object 24 8 true; Object 24 8 false; PushFinalizer 7; NoAlign 100; Align 0 16].

Definition sample_new : res fault zone * heap := new_zone (MA := bump 1000) 16 ∅.
Definition sample_z : zone :=
  match sample_new with
  | (Ok z, _) => z
  | _ => {| m_chunk_size := 0; m_free := 0; m_ptr := 0; m_chunks := [];
            m_finalizer_array := {| entries := []; m_end := 0; m_array := None |} |}
  end.

Lemma zone_is_safe_witness :
  exists s z', zone_run (MA := bump 1000) sample_zone_ops {| zs := (sample_z, sample_new.2); given := []; called := [] |} = Some s /\
    all_disjoint (given s) /\ Forall (in_chunk (zs s).2 (m_chunks (zs s).1)) (given s) /\
    destroy_zone (zs s) = (Ok (rev (entries (m_finalizer_array (zs s).1))), (z', ∅)).
Proof.
  apply (zone_is_safe (LA := bump_laws 1000) 16 ∅).
  - apply heap_ok_empty.
  - lia.
  - vm_compute. reflexivity.
  - repeat constructor; cbn; lia.
Defined.
