(* ===== verification/FloatBits.v ===== *)
(** * IEEE 754 bit patterns

    The [float]/[double] values of the msgpack code as their bit patterns, with
    the conversions the language performs between the two formats (the casts of
    v1/object.hpp and v2/create_object_visitor.hpp): widening is exact, and
    narrowing rounds to nearest, ties to even. A signalling NaN is made quiet
    by either conversion. *)

From S2P Require Import Prelude.

(** Sign, exponent and fraction fields of a pattern. *)
Definition f32_sign (b : Z) : Z := b / 2 ^ 31.
Definition f32_exp (b : Z) : Z := b / 2 ^ 23 mod 2 ^ 8.
Definition f32_frac (b : Z) : Z := b mod 2 ^ 23.
Definition f64_sign (b : Z) : Z := b / 2 ^ 63.
Definition f64_exp (b : Z) : Z := b / 2 ^ 52 mod 2 ^ 11.
Definition f64_frac (b : Z) : Z := b mod 2 ^ 52.

Definition mk32 (s e m : Z) : Z := s * 2 ^ 31 + e * 2 ^ 23 + m.
Definition mk64 (s e m : Z) : Z := s * 2 ^ 63 + e * 2 ^ 52 + m.

Definition f32_is_snan (b : Z) : bool :=
  (f32_exp b =? 255) && negb (f32_frac b =? 0) && (f32_frac b <? 2 ^ 22).
Definition f64_is_nan (b : Z) : bool :=
  (f64_exp b =? 2047) && negb (f64_frac b =? 0).
Definition f64_is_zero (b : Z) : bool := (f64_exp b =? 0) && (f64_frac b =? 0).

(** The C++ [==] on doubles: NaN differs from everything, the zeros are equal. *)
Definition f64_eqb (a b : Z) : bool :=
  negb (f64_is_nan a) && negb (f64_is_nan b) &&
  ((a =? b) || (f64_is_zero a && f64_is_zero b)).

(** [static_cast<double>(float)]. *)
Definition widen (b : Z) : Z :=
  let s := f32_sign b in let e := f32_exp b in let m := f32_frac b in
  if e =? 255 then
    mk64 s 2047 (if m =? 0 then 0 else (if m <? 2 ^ 22 then m + 2 ^ 22 else m) * 2 ^ 29)
  else if e =? 0 then
    if m =? 0 then mk64 s 0 0
    else let k := Z.log2 m in mk64 s (k + 874) ((m - 2 ^ k) * 2 ^ (52 - k))
  else mk64 s (e + 896) (m * 2 ^ 29).

(** Round [x / 2^s] to the nearest integer, ties to even. *)
Definition rne (x s : Z) : Z :=
  let q := x / 2 ^ s in let r := x mod 2 ^ s in let half := 2 ^ (s - 1) in
  if (half <? r) || ((r =? half) && Z.odd q) then q + 1 else q.

(** [static_cast<float>(double)]. *)
Definition narrow (b : Z) : Z :=
  let s := f64_sign b in let e := f64_exp b in let m := f64_frac b in
  if e =? 2047 then
    mk32 s 255 (if m =? 0 then 0 else
                let q := m / 2 ^ 29 in if q <? 2 ^ 22 then q + 2 ^ 22 else q)
  else if e =? 0 then mk32 s 0 0
  else
    let mag := if 897 <=? e then (e - 897) * 2 ^ 23 + rne (2 ^ 52 + m) 29
               else rne (2 ^ 52 + m) (926 - e) in
    s * 2 ^ 31 + Z.min mag (255 * 2 ^ 23).

(** ** Reading back the fields of a pattern *)

Lemma f32_fields b :
  0 <= b < 2 ^ 32 ->
  0 <= f32_sign b < 2 /\ 0 <= f32_exp b < 256 /\ 0 <= f32_frac b < 2 ^ 23 /\
  b = mk32 (f32_sign b) (f32_exp b) (f32_frac b).
Proof.
  intros Hb. unfold f32_sign, f32_exp, f32_frac, mk32.
  change (2 ^ 8) with 256 in *. change (2 ^ 23) with 8388608 in *.
  change (2 ^ 31) with 2147483648 in *. change (2 ^ 32) with 4294967296 in *.
  Z.div_mod_to_equations. lia.
Qed.

Lemma f64_mk64 s e m :
  0 <= s < 2 -> 0 <= e < 2048 -> 0 <= m < 2 ^ 52 ->
  f64_sign (mk64 s e m) = s /\ f64_exp (mk64 s e m) = e /\ f64_frac (mk64 s e m) = m.
Proof.
  intros Hs He Hm. unfold f64_sign, f64_exp, f64_frac, mk64.
  change (2 ^ 63) with 9223372036854775808 in *. change (2 ^ 52) with 4503599627370496 in *.
  change (2 ^ 11) with 2048 in *.
  Z.div_mod_to_equations. lia.
Qed.

Lemma mk64_range s e m :
  0 <= s < 2 -> 0 <= e < 2048 -> 0 <= m < 2 ^ 52 -> 0 <= mk64 s e m < 2 ^ 64.
Proof. unfold mk64. lia. Qed.

(** Rounding an exact multiple of the unit changes nothing. *)
Lemma rne_exact q s : 0 < s -> rne (q * 2 ^ s) s = q.
Proof.
  intros Hs. unfold rne.
  assert (0 < 2 ^ (s - 1)) by (apply Z.pow_pos_nonneg; lia).
  rewrite Z.div_mul, Z.mod_mul by (apply Z.pow_nonzero; lia).
  destruct (Z.ltb_spec (2 ^ (s - 1)) 0); [lia|].
  destruct (Z.eqb_spec 0 (2 ^ (s - 1))); [lia|]. reflexivity.
Qed.

Lemma widen_range b : 0 <= b < 2 ^ 32 -> 0 <= widen b < 2 ^ 64.
Proof.
  intros Hb. destruct (f32_fields b Hb) as (Hs & He & Hm & _). unfold widen.
  destruct (Z.eqb_spec (f32_exp b) 255); [|destruct (Z.eqb_spec (f32_exp b) 0)].
  - apply mk64_range; [lia..|]. split_cmp; lia.
  - destruct (Z.eqb_spec (f32_frac b) 0); [apply mk64_range; lia|].
    destruct (Z.log2_spec (f32_frac b)) as [L1 L2]; [lia|].
    assert (Z.log2 (f32_frac b) < 23) by (apply Z.log2_lt_pow2; lia).
    pose proof (Z.log2_nonneg (f32_frac b)).
    apply mk64_range; [lia..|]. rewrite Z.pow_succ_r in L2 by lia.
    replace (2 ^ 52) with (2 ^ Z.log2 (f32_frac b) * 2 ^ (52 - Z.log2 (f32_frac b)))
      by (rewrite <- Z.pow_add_r by lia; f_equal; lia).
    assert (0 < 2 ^ (52 - Z.log2 (f32_frac b))) by (apply Z.pow_pos_nonneg; lia). nia.
  - apply mk64_range; lia.
Qed.

(** A subnormal float becomes a normal double; narrowing shifts it back. *)
Lemma narrow_subnormal s m k :
  0 <= s < 2 -> 0 < m < 2 ^ 23 -> k = Z.log2 m ->
  narrow (mk64 s (k + 874) ((m - 2 ^ k) * 2 ^ (52 - k))) = mk32 s 0 m.
Proof.
  intros Hs Hm ->. set (k := Z.log2 m).
  destruct (Z.log2_spec m) as [L1 L2]; [lia|]. fold k in L1, L2.
  assert (Hk : 0 <= k < 23).
  { split; [apply Z.log2_nonneg|]. apply Z.log2_lt_pow2; lia. }
  rewrite Z.pow_succ_r in L2 by lia.
  assert (P : 2 ^ 52 = 2 ^ k * 2 ^ (52 - k)) by (rewrite <- Z.pow_add_r by lia; f_equal; lia).
  assert (0 < 2 ^ (52 - k)) by (apply Z.pow_pos_nonneg; lia).
  destruct (f64_mk64 s (k + 874) ((m - 2 ^ k) * 2 ^ (52 - k))) as (F1 & F2 & F3); [lia..|nia|].
  unfold narrow. rewrite F1, F2, F3.
  destruct (Z.eqb_spec (k + 874) 2047); [lia|]. destruct (Z.eqb_spec (k + 874) 0); [lia|].
  destruct (Z.leb_spec 897 (k + 874)); [lia|].
  replace (2 ^ 52 + (m - 2 ^ k) * 2 ^ (52 - k)) with (m * 2 ^ (926 - (k + 874))).
  - rewrite rne_exact by lia. unfold mk32. lia.
  - replace (926 - (k + 874)) with (52 - k) by lia. rewrite P. ring.
Qed.

Lemma narrow_normal s e m :
  0 <= s < 2 -> 0 < e < 255 -> 0 <= m < 2 ^ 23 ->
  narrow (mk64 s (e + 896) (m * 2 ^ 29)) = mk32 s e m.
Proof.
  intros Hs He Hm. destruct (f64_mk64 s (e + 896) (m * 2 ^ 29)) as (F1 & F2 & F3); [lia..|].
  unfold narrow. rewrite F1, F2, F3.
  destruct (Z.eqb_spec (e + 896) 2047); [lia|]. destruct (Z.eqb_spec (e + 896) 0); [lia|].
  destruct (Z.leb_spec 897 (e + 896)); [|lia].
  replace (2 ^ 52 + m * 2 ^ 29) with ((2 ^ 23 + m) * 2 ^ 29) by lia.
  rewrite rne_exact by lia. unfold mk32. lia.
Qed.

(** Narrowing undoes widening for every float that is not a signalling NaN,
    whatever its sign: zeros, subnormals, normals, infinities and quiet NaNs
    with their payload. *)
Lemma narrow_widen b :
  0 <= b < 2 ^ 32 -> f32_is_snan b = false -> narrow (widen b) = b.
Proof.
  intros Hb Hn. destruct (f32_fields b Hb) as (Hs & He & Hm & Eb).
  rewrite Eb at 2. unfold f32_is_snan in Hn.
  unfold widen. destruct (Z.eqb_spec (f32_exp b) 255) as [E|E].
  - rewrite E. destruct (Z.eqb_spec (f32_frac b) 0) as [M|M].
    + rewrite M. destruct (f64_mk64 (f32_sign b) 2047 0) as (F1 & F2 & F3); [lia..|].
      unfold narrow. now rewrite F1, F2, F3.
    + simpl in Hn. rewrite Hn.
      destruct (f64_mk64 (f32_sign b) 2047 (f32_frac b * 2 ^ 29)) as (F1 & F2 & F3); [lia..|].
      unfold narrow. rewrite F1, F2, F3. rewrite Z.div_mul by lia.
      cbn [Z.eqb]. destruct (Z.eqb_spec (f32_frac b * 2 ^ 29) 0); [lia|]. now rewrite Hn.
  - destruct (Z.eqb_spec (f32_exp b) 0) as [E0|E0]; [|apply narrow_normal; lia].
    rewrite E0. destruct (Z.eqb_spec (f32_frac b) 0) as [M|M].
    + rewrite M. destruct (f64_mk64 (f32_sign b) 0 0) as (F1 & F2 & F3); [lia..|].
      unfold narrow. now rewrite F1, F2, F3.
    + apply narrow_subnormal; lia.
Qed.
