(* ===== verification/MsgObject.v ===== *)
(** * MessagePack objects

    Models [clmdep_msgpack::object] (v1/object_fwd.hpp) and the operations of
    v1/object.hpp that read one: equality and the size of a clone. An object is the tree its [via] pointers span; the
    array and map sizes are the lengths of the lists, a str or bin is its
    bytes, and an ext is the type byte with the data that follows it. *)

From S2P Require Import Prelude FloatBits.

(** ** The data *)

Inductive object :=
| NIL
| BOOLEAN (boolean : bool)
| POSITIVE_INTEGER (u64 : Z)
| NEGATIVE_INTEGER (i64 : Z)
| FLOAT32 (f64 : Z)                 (* the float, widened to a double *)
| FLOAT64 (f64 : Z)
| STR (str : bytes)
| BIN (bin : bytes)
| ARRAY (array : list object)
| MAP (map : list (object * object))
| EXT (ext_type : byte) (ext_data : bytes).

(** Induction that reaches the elements of arrays and maps. *)
Section ObjectInd.
Variable P : object -> Prop.
Hypothesis HNIL : P NIL.
Hypothesis HBOOL : forall b, P (BOOLEAN b).
Hypothesis HPOS : forall z, P (POSITIVE_INTEGER z).
Hypothesis HNEG : forall z, P (NEGATIVE_INTEGER z).
Hypothesis HF32 : forall z, P (FLOAT32 z).
Hypothesis HF64 : forall z, P (FLOAT64 z).
Hypothesis HSTR : forall s, P (STR s).
Hypothesis HBIN : forall s, P (BIN s).
Hypothesis HARRAY : forall l, Forall P l -> P (ARRAY l).
Hypothesis HMAP : forall l, Forall (fun kv => P kv.1 /\ P kv.2) l -> P (MAP l).
Hypothesis HEXT : forall t d, P (EXT t d).

Fixpoint object_ind' (o : object) : P o :=
  match o with
  | NIL => HNIL
  | BOOLEAN b => HBOOL b
  | POSITIVE_INTEGER z => HPOS z
  | NEGATIVE_INTEGER z => HNEG z
  | FLOAT32 z => HF32 z
  | FLOAT64 z => HF64 z
  | STR s => HSTR s
  | BIN s => HBIN s
  | ARRAY l => HARRAY l
      ((fix go l : Forall P l :=
          match l with
          | [] => Forall_nil_2 P
          | x :: l => Forall_cons_2 P x l (object_ind' x) (go l)
          end) l)
  | MAP l => HMAP l
      ((fix go l : Forall (fun kv => P kv.1 /\ P kv.2) l :=
          match l with
          | [] => Forall_nil_2 _
          | kv :: l => Forall_cons_2 _ kv l
              (conj (object_ind' kv.1) (object_ind' kv.2)) (go l)
          end) l)
  | EXT t d => HEXT t d
  end.
End ObjectInd.

Definition is_nil (o : object) : bool := match o with NIL => true | _ => false end.

(** How deep the object nests: 1 for a leaf. *)
Fixpoint depth (o : object) : nat :=
  match o with
  | ARRAY l =>
    S ((fix go l := match l with [] => O | x :: l => Nat.max (depth x) (go l) end) l)
  | MAP l =>
    S ((fix go l := match l with
                    | [] => O
                    | x :: l => Nat.max (Nat.max (depth x.1) (depth x.2)) (go l)
                    end) l)
  | _ => 1
  end.

(** ** [operator==]

    The ext case compares [via.ext.size] bytes from [via.ext.ptr], and [ptr]
    starts at the type byte while [size] does not count it. *)

Definition byte_eqb (a b : byte) : bool := bool_decide (a = b).

Fixpoint memcmp_eq (n : nat) (a b : bytes) : bool :=
  match n, a, b with
  | O, _, _ => true
  | S n, x :: a, y :: b => byte_eqb x y && memcmp_eq n a b
  | S _, _, _ => false
  end.

Fixpoint object_eqb (x y : object) : bool :=
  match x, y with
  | NIL, NIL => true
  | BOOLEAN a, BOOLEAN b => Bool.eqb a b
  | POSITIVE_INTEGER a, POSITIVE_INTEGER b => a =? b
  | NEGATIVE_INTEGER a, NEGATIVE_INTEGER b => a =? b
  | FLOAT32 a, FLOAT32 b | FLOAT64 a, FLOAT64 b => f64_eqb a b
  | STR a, STR b | BIN a, BIN b => (len a =? len b) && memcmp_eq (length a) a b
  | EXT s a, EXT t b => (len a =? len b) && memcmp_eq (length a) (s :: a) (t :: b)
  | ARRAY a, ARRAY b =>
    (len a =? len b) &&
    (fix go a b := match a, b with
                   | x :: a, y :: b => object_eqb x y && go a b
                   | _, _ => true
                   end) a b
  | MAP a, MAP b =>
    (len a =? len b) &&
    (fix go a b := match a, b with
                   | x :: a, y :: b =>
                     object_eqb x.1 y.1 && object_eqb x.2 y.2 && go a b
                   | _, _ => true
                   end) a b
  | _, _ => false
  end.

(** ** [aligned_zone_size]: what a clone is expected to allocate *)

Definition sizeof_object : Z := 24.
Definition sizeof_object_kv : Z := 48.

Definition aligned_size (size align : Z) : Z :=
  wrap 64 (wrap 64 (size + align - 1) / align * align).

(** [detail::add_ext_type_size] on a 64-bit [size_t]. *)
Definition add_ext_type_size (size : Z) : Z := wrap 64 (size + 1).

Fixpoint aligned_zone_size (o : object) : Z :=
  match o with
  | ARRAY l => wrap 64 (aligned_size (wrap 64 (sizeof_object * len l)) 8 +
      (fix go l := match l with [] => 0 | x :: l => aligned_zone_size x + go l end) l)
  | MAP l => wrap 64 (aligned_size (wrap 64 (sizeof_object_kv * len l)) 8 +
      (fix go l := match l with
                   | [] => 0
                   | x :: l => aligned_zone_size x.1 + aligned_zone_size x.2 + go l
                   end) l)
  | EXT _ d => aligned_size (add_ext_type_size (len d)) 1
  | STR s | BIN s => aligned_size (len s) 1
  | _ => 0
  end.

(** ** Properties *)

Lemma byte_eqb_eq a b : byte_eqb a b = true <-> a = b.
Proof. unfold byte_eqb. apply bool_decide_eq_true. Qed.

Lemma memcmp_eq_take n a b :
  (n <= length a)%nat -> (n <= length b)%nat ->
  memcmp_eq n a b = true <-> take n a = take n b.
Proof.
  revert a b. induction n as [|n IH]; intros [|x a] [|y b] Ha Hb; cbn in *; try lia;
    try (rewrite ?take_0; tauto).
  rewrite andb_true_iff, byte_eqb_eq, IH by lia. split; [intros [-> ->]; done|].
  intros [= -> E]. auto.
Qed.

Lemma len_eqb_length {A B} (a : list A) (b : list B) :
  (len a =? len b) = true <-> length a = length b.
Proof. unfold len. rewrite Z.eqb_eq. lia. Qed.

Lemma bytes_eqb_eq a b : (len a =? len b) && memcmp_eq (length a) a b = true <-> a = b.
Proof.
  rewrite andb_true_iff, len_eqb_length. split.
  - intros [Hl Hm]. apply memcmp_eq_take in Hm; [|lia..].
    now rewrite firstn_all, Hl, firstn_all in Hm.
  - intros ->. split; [done|]. now apply memcmp_eq_take.
Qed.

(** No double NaN anywhere in the object. *)
Fixpoint nan_free (o : object) : bool :=
  match o with
  | FLOAT32 z | FLOAT64 z => negb (f64_is_nan z)
  | ARRAY l => forallb nan_free l
  | MAP l => forallb (fun kv => nan_free kv.1 && nan_free kv.2) l
  | _ => true
  end.

(** No double and no ext anywhere in the object. *)
Fixpoint plain (o : object) : bool :=
  match o with
  | FLOAT32 _ | FLOAT64 _ | EXT _ _ => false
  | ARRAY l => forallb plain l
  | MAP l => forallb (fun kv => plain kv.1 && plain kv.2) l
  | _ => true
  end.

(** On objects without doubles and ext values, [operator==] decides
    equality of the trees, arrays and maps included. *)
Theorem object_eqb_plain x y :
  plain x = true -> object_eqb x y = true <-> x = y.
Proof.
  revert y. induction x as [| | | | | | | |l IH|l IH|] using object_ind'; intros y Hp;
    destruct y as [| | | | | | | |k|k|]; cbn in *;
    try (split; congruence); try discriminate.
  - rewrite Bool.eqb_true_iff. split; congruence.
  - rewrite Z.eqb_eq. split; congruence.
  - rewrite Z.eqb_eq. split; congruence.
  - rewrite bytes_eqb_eq. split; congruence.
  - rewrite bytes_eqb_eq. split; congruence.
  - rewrite andb_true_iff, len_eqb_length. transitivity (l = k); [|split; congruence].
    revert k. induction IH as [|x l Hx _ IHl]; intros [|y k]; cbn in *; try easy.
    apply andb_true_iff in Hp as [Hp1 Hp2]. rewrite andb_true_iff, Hx by done.
    specialize (IHl Hp2 k). split; [intros [[= E] [-> H]]; f_equal; tauto|].
    intros [= -> ->]. split; [done|]. split; [done|]. now apply IHl.
  - rewrite andb_true_iff, len_eqb_length. transitivity (l = k); [|split; congruence].
    revert k. induction IH as [|[x1 x2] l [H1 H2] _ IHl]; intros [|[y1 y2] k]; cbn in *; try easy.
    apply andb_true_iff in Hp as [[Hp1 Hp1']%andb_true_iff Hp2].
    rewrite !andb_true_iff, H1, H2 by done.
    specialize (IHl Hp2 k). split; [intros [[= E] [[-> ->] H]]; f_equal; tauto|].
    intros [= -> -> ->]. do 2 (split; [done|]). now apply IHl.
Qed.

Lemma object_eqb_plain_witness :
  object_eqb (ARRAY [STR [chr 65]; NIL]) (ARRAY [STR [chr 65]; NIL]) = true.
Proof. apply object_eqb_plain; reflexivity. Defined.

Lemma f64_eqb_refl z : f64_is_nan z = false -> f64_eqb z z = true.
Proof. intros H. unfold f64_eqb. now rewrite H, Z.eqb_refl. Qed.

(** Every object without a NaN equals itself. *)
Theorem object_eqb_refl x : nan_free x = true -> object_eqb x x = true.
Proof.
  induction x as [| | | | | | | |l IH|l IH|] using object_ind'; cbn; intros Hn; try done.
  - apply Bool.eqb_reflx.
  - apply Z.eqb_refl.
  - apply Z.eqb_refl.
  - apply f64_eqb_refl. now apply negb_true_iff.
  - apply f64_eqb_refl. now apply negb_true_iff.
  - now apply bytes_eqb_eq.
  - now apply bytes_eqb_eq.
  - rewrite Z.eqb_refl. cbn. induction IH as [|x l Hx _ IHl]; cbn in *; [done|].
    apply andb_true_iff in Hn as [H1 H2]. now rewrite Hx, IHl.
  - rewrite Z.eqb_refl. cbn. induction IH as [|x l [Hx1 Hx2] _ IHl]; cbn in *; [done|].
    apply andb_true_iff in Hn as [[H1 H1']%andb_true_iff H2]. now rewrite Hx1, Hx2, IHl.
  - rewrite Z.eqb_refl. apply memcmp_eq_take; cbn; done || lia.
Qed.

(** Two ext values are equal for [operator==] exactly when their lengths
    agree and so do the type byte and all data bytes but the last: the last
    byte is never compared, and on empty data not even the type. *)
Theorem ext_equality_ignores_last_byte s a t b :
  object_eqb (EXT s a) (EXT t b) = true <->
  length a = length b /\ take (length a) (s :: a) = take (length a) (t :: b).
Proof.
  cbn [object_eqb]. rewrite andb_true_iff, len_eqb_length. split; intros [Hl Hm].
  - split; [done|]. apply memcmp_eq_take in Hm; cbn; done || lia.
  - split; [done|]. apply memcmp_eq_take; cbn; done || lia.
Qed.
