(* ===== verification/NetFrame.v ===== *)
(** * Message framing and socket helpers of the promise demo

    Models src/src/promise_demo/net.h: the frame codec
    [4-byte id][4-byte length][payload], big-endian, and the blocking send and
    receive helpers over an abstract socket. Unsigned 32-bit arithmetic keeps
    its wrap-around, which [try_decode_frame] depends on. *)

From S2P Require Import Prelude.

(** ** The frame codec *)

Definition put_u32 (out : bytes) (v : Z) : bytes :=
  out ++ [chr (Z.land (Z.shiftr v 24) 255); chr (Z.land (Z.shiftr v 16) 255);
          chr (Z.land (Z.shiftr v 8) 255); chr (Z.land v 255)].

(** [in[pos]] of a std::string; every caller has checked the bound. *)
Definition byte_at (s : bytes) (pos : Z) : byte :=
  default Byte.x00 (s !! Z.to_nat pos).

Definition get_u32 (s : bytes) (pos : Z) : Z :=
  Z.lor (Z.lor (Z.lor (Z.shiftl (u8 (byte_at s pos)) 24)
                      (Z.shiftl (u8 (byte_at s (pos + 1))) 16))
               (Z.shiftl (u8 (byte_at s (pos + 2))) 8))
        (u8 (byte_at s (pos + 3))).

Definition encode_frame (id : Z) (payload : bytes) : bytes :=
  put_u32 (put_u32 [] id) (wrap 32 (len payload)) ++ payload.

(** [try_decode_frame buffer] is [None] when the code returns false (the buffer
    is left unchanged), and [Some (id, payload, buffer')] when it returns true.
    [8 + length] is computed in uint32_t; [substr] and [erase] clamp their
    count at the end of the string. *)
Definition try_decode_frame (buffer : bytes) : option (Z * bytes * bytes) :=
  if len buffer <? 8 then None else
  let length := get_u32 buffer 4 in
  if len buffer <? wrap 32 (8 + length) then None else
  let id := get_u32 buffer 0 in
  let payload := slice buffer 8 length in
  Some (id, payload, drop (Z.to_nat (wrap 32 (8 + length))) buffer).

(** [connection::frame_ready] of the client repeats the same test. *)
Definition frame_ready (read_buffer : bytes) : bool :=
  (8 <=? len read_buffer) &&
  (wrap 32 (8 + get_u32 read_buffer 4) <=? len read_buffer).

(** The decoding loop of the servers, [while (try_decode_frame(...)) ...]: the
    frames in order and the bytes left over. [None] is fuel exhausted. *)
Fixpoint decode_frames (fuel : nat) (buffer : bytes)
    : option (list (Z * bytes) * bytes) :=
  match fuel with
  | O => None
  | S f =>
    match try_decode_frame buffer with
    | None => Some ([], buffer)
    | Some (id, payload, rest) =>
      match decode_frames f rest with
      | None => None
      | Some (fs, tail) => Some ((id, payload) :: fs, tail)
      end
    end
  end.

(** ** Sending and receiving

    The socket is the operating system's: [os_send s data n] is [::send] with
    [n] the int length argument, and [os_recv s n] is [::recv]; both return
    the int result and the socket's next state, [os_recv] also the bytes. *)

Section Socket.
Context {sock : Type}.
Context (os_send : sock -> bytes -> Z -> Z * sock).
Context (os_recv : sock -> Z -> Z * bytes * sock).

(** The loop of [send_all], [sent] bytes done; [None] is fuel exhausted. *)
Fixpoint send_loop (fuel : nat) (s : sock) (data : bytes) (sent : Z)
    : option (bool * sock) :=
  if sent <? len data then
    match fuel with
    | O => None
    | S f =>
      let '(n, s') := os_send s (drop (Z.to_nat sent) data)
                                (sext 32 (len data - sent)) in
      if n <=? 0 then Some (false, s') else send_loop f s' data (sent + n)
    end
  else Some (true, s).

Definition send_all (s : sock) (data : bytes) : option (bool * sock) :=
  send_loop (length data) s data 0.

(** Result of [::recv], the buffer with what arrived appended. *)
Definition recv_some (s : sock) (buffer : bytes) : Z * bytes * sock :=
  let '(n, chunk, s') := os_recv s 4096 in
  if 0 <? n then (n, buffer ++ take (Z.to_nat n) chunk, s') else (n, buffer, s').
End Socket.

(** ** Lemmas on the header words *)

Lemma put_u32_be out v : put_u32 out v = out ++ be 4 v.
Proof. unfold put_u32, be. f_equal. now rewrite !land_255, !chr_mod. Qed.

Lemma byte_at_drop s pos k b :
  0 <= pos -> drop (Z.to_nat pos) s !! k = Some b -> byte_at s (pos + Z.of_nat k) = b.
Proof.
  intros Hpos Hb. unfold byte_at. rewrite lookup_drop in Hb.
  replace (Z.to_nat (pos + Z.of_nat k)) with (Z.to_nat pos + k)%nat by lia.
  now rewrite Hb.
Qed.

Lemma get_u32_be_val s pos b0 b1 b2 b3 l :
  0 <= pos -> drop (Z.to_nat pos) s = b0 :: b1 :: b2 :: b3 :: l ->
  get_u32 s pos = be_val [b0; b1; b2; b3].
Proof.
  intros Hpos H. unfold get_u32.
  pose proof (byte_at_drop s pos 0 b0 Hpos) as E0.
  pose proof (byte_at_drop s pos 1 b1 Hpos) as E1.
  pose proof (byte_at_drop s pos 2 b2 Hpos) as E2.
  pose proof (byte_at_drop s pos 3 b3 Hpos) as E3.
  rewrite H in *. change (Z.of_nat 0) with 0 in E0. change (Z.of_nat 1) with 1 in E1.
  change (Z.of_nat 2) with 2 in E2. change (Z.of_nat 3) with 3 in E3.
  rewrite Z.add_0_r in E0.
  rewrite E0, E1, E2, E3 by reflexivity.
  pose proof (u8_range b0); pose proof (u8_range b1).
  pose proof (u8_range b2); pose proof (u8_range b3).
  rewrite !Z.shiftl_mul_pow2 by lia.
  rewrite (lor_add_disjoint (u8 b0) (u8 b1 * 2 ^ 16) 24) by lia.
  replace (u8 b0 * 2 ^ 24 + u8 b1 * 2 ^ 16)
    with ((u8 b0 * 2 ^ 8 + u8 b1) * 2 ^ 16) by lia.
  rewrite (lor_add_disjoint _ (u8 b2 * 2 ^ 8) 16) by lia.
  replace ((u8 b0 * 2 ^ 8 + u8 b1) * 2 ^ 16 + u8 b2 * 2 ^ 8)
    with ((u8 b0 * 2 ^ 16 + u8 b1 * 2 ^ 8 + u8 b2) * 2 ^ 8) by lia.
  rewrite (lor_add_disjoint _ (u8 b3) 8) by lia.
  unfold be_val, len. cbn [length]. lia.
Qed.

Lemma get_u32_app k x l :
  0 <= x < 2 ^ 32 -> get_u32 (k ++ be 4 x ++ l) (len k) = x.
Proof.
  intros Hx.
  destruct (be 4 x) as [|b0 [|b1 [|b2 [|b3 [|]]]]] eqn:E;
    try (apply (f_equal length) in E; rewrite length_be in E; discriminate).
  erewrite get_u32_be_val; [| apply len_nonneg | rewrite drop_len_app; reflexivity].
  rewrite <- E. now apply be_val_be_small.
Qed.

(** ** The codec's properties *)

(** The bytes of a frame, as the two header words and the payload. *)
Lemma encode_frame_eq id p :
  encode_frame id p = be 4 id ++ be 4 (wrap 32 (len p)) ++ p.
Proof. unfold encode_frame. rewrite !put_u32_be. now rewrite <- app_assoc. Qed.

Lemma len_encode_frame id p : len (encode_frame id p) = 8 + len p.
Proof. rewrite encode_frame_eq. len_lia. Qed.

Lemma frame_ready_spec buffer :
  frame_ready buffer = match try_decode_frame buffer with Some _ => true | None => false end.
Proof.
  unfold frame_ready, try_decode_frame. split_cmp; simpl; split_cmp; reflexivity.
Qed.

(** A payload the 32-bit size test handles: the total fits in uint32_t. *)
Definition framable (f : Z * bytes) : Prop :=
  0 <= f.1 < 2 ^ 32 /\ 8 + len f.2 < 2 ^ 32.

Lemma decode_frame_encode id p rest :
  framable (id, p) -> try_decode_frame (encode_frame id p ++ rest) = Some (id, p, rest).
Proof.
  intros [Hid Hp]. cbn in Hid, Hp. pose proof (len_nonneg p) as Hp0.
  assert (Hw : wrap 32 (len p) = len p) by (apply wrap_small; lia).
  set (b := encode_frame id p ++ rest).
  assert (Eb : b = be 4 id ++ be 4 (len p) ++ p ++ rest).
  { unfold b. rewrite encode_frame_eq, Hw. now rewrite <- !app_assoc. }
  assert (Hl : len b = 8 + len p + len rest).
  { unfold b. rewrite len_app, len_encode_frame. lia. }
  pose proof (len_nonneg rest).
  assert (G4 : get_u32 b 4 = len p).
  { rewrite Eb. apply (get_u32_app (be 4 id)). lia. }
  assert (G0 : get_u32 b 0 = id).
  { rewrite Eb. apply (get_u32_app []). lia. }
  unfold try_decode_frame. rewrite G4, G0, wrap_small by lia.
  split_cmp. f_equal. f_equal; [f_equal|].
  - rewrite Eb, app_assoc. apply (slice_app (be 4 id ++ be 4 (len p))). reflexivity.
  - rewrite Eb, !app_assoc, <- (app_assoc _ p).
    replace (8 + len p) with (len ((be 4 id ++ be 4 (len p)) ++ p)) by len_lia.
    rewrite app_assoc. apply drop_len_app.
Qed.

(** What arrives before the last byte of a frame is not decoded. *)
Lemma decode_prefix id p buffer more :
  framable (id, p) -> buffer ++ more = encode_frame id p -> more <> [] ->
  try_decode_frame buffer = None.
Proof.
  intros [Hid Hp] E Hm. cbn in Hid, Hp. pose proof (len_nonneg p).
  assert (Hw : wrap 32 (len p) = len p) by (apply wrap_small; lia).
  assert (Hl : len buffer + len more = 8 + len p).
  { rewrite <- len_app, E. apply len_encode_frame. }
  assert (0 < len more) by (destruct more; [done | len_lia]).
  unfold try_decode_frame. destruct (Z.ltb_spec (len buffer) 8); [reflexivity|].
  assert (G4 : get_u32 buffer 4 = len p).
  { assert (exists l, buffer = be 4 id ++ be 4 (len p) ++ l) as [l ->].
    { rewrite encode_frame_eq, Hw, app_assoc in E.
      exists (drop 8 buffer). rewrite app_assoc. rewrite <- (take_drop 8 buffer) at 1. f_equal.
      apply (f_equal (take 8)) in E. rewrite take_app_le in E by (unfold len in *; lia).
      rewrite E. rewrite take_app_length'; [done | now rewrite length_app, !length_be]. }
    apply (get_u32_app (be 4 id)). lia. }
  rewrite G4, wrap_small by lia. split_cmp. reflexivity.
Qed.

(** A byte stream of frames, as a peer that follows the protocol sends it. *)
Definition frame_stream (fs : list (Z * bytes)) : bytes :=
  concat (map (fun f => encode_frame f.1 f.2) fs).

Lemma frame_stream_cons f fs :
  frame_stream (f :: fs) = encode_frame f.1 f.2 ++ frame_stream fs.
Proof. reflexivity. Qed.

Lemma frame_stream_app fs gs : frame_stream (fs ++ gs) = frame_stream fs ++ frame_stream gs.
Proof. unfold frame_stream. now rewrite map_app, concat_app. Qed.

(** Cutting a string equal to [a ++ b] leaves the cut inside [a], or past it. *)
Lemma app_cut {A} (pre post a b : list A) :
  pre ++ post = a ++ b ->
  (exists m, m <> [] /\ pre ++ m = a /\ post = m ++ b) \/
  (exists m, pre = a ++ m /\ m ++ post = b).
Proof.
  revert a. induction pre as [|x pre IH]; intros a E; simpl in E.
  - destruct a as [|y a]; [right; now exists []|].
    left. exists (y :: a). split; [discriminate|]. now split.
  - destruct a as [|y a]; simpl in E.
    + right. exists (x :: pre). now split.
    + injection E as -> E. destruct (IH a E) as [(m & Hm & Ha & Hp)|(m & Ha & Hp)].
      * left. exists m. simpl. now rewrite Ha.
      * right. exists m. simpl. now rewrite Ha.
Qed.

(** Decoding any prefix of a stream yields its first frames; the bytes kept in
    the buffer are the start of what follows, and hold no complete frame. *)
Lemma decode_frames_stream fs pre post fuel :
  Forall framable fs -> pre ++ post = frame_stream fs -> (length fs < fuel)%nat ->
  exists fs1 fs2 tail,
    fs = fs1 ++ fs2 /\ decode_frames fuel pre = Some (fs1, tail) /\
    tail ++ post = frame_stream fs2 /\ (post = [] -> fs2 = [] /\ tail = []).
Proof.
  revert pre fuel. induction fs as [|f fs IH]; intros pre fuel HF E Hfuel.
  - apply app_eq_nil in E as [-> ->]. destruct fuel; [lia|].
    now exists [], [], [].
  - inversion HF as [|? ? Hf HF']; subst. destruct f as [id p].
    destruct fuel as [|fuel]; [simpl in Hfuel; lia|]. simpl in Hfuel.
    destruct (app_cut _ _ _ _ E) as [(m & Hm & Ha & Hp)|(m & -> & Hp)].
    + exists [], ((id, p) :: fs), pre. split; [done|].
      cbn [decode_frames]. rewrite (decode_prefix id p pre m) by done.
      split; [done|]. split; [exact E|]. intros ->.
      destruct m; [done|discriminate].
    + destruct (IH m fuel HF' Hp) as (fs1 & fs2 & tail & -> & Hd & Ht & Hn); [lia|].
      exists ((id, p) :: fs1), fs2, tail. split; [done|].
      cbn [decode_frames fst snd]. rewrite decode_frame_encode by done. rewrite Hd. auto.
Qed.

(** More fuel never changes a finished decoding. *)
Lemma decode_frames_fuel f g b r :
  decode_frames f b = Some r -> (f <= g)%nat -> decode_frames g b = Some r.
Proof.
  revert g b r. induction f as [|f IH]; [discriminate|]. intros g b r H Hg.
  destruct g as [|g]; [lia|]. cbn [decode_frames] in *.
  destruct (try_decode_frame b) as [[[id p] rest]|]; [|done].
  destruct (decode_frames f rest) as [[fs tl]|] eqn:E; [|discriminate].
  rewrite (IH g rest (fs, tl)) by (done || lia). exact H.
Qed.

(** A header whose length word is 2^32 - 8 makes [8 + length] wrap to 0: the
    test succeeds, and nothing is removed from the buffer. *)
Lemma decode_wrapped_header b :
  8 <= len b -> get_u32 b 4 = 2 ^ 32 - 8 ->
  try_decode_frame b = Some (get_u32 b 0, slice b 8 (2 ^ 32 - 8), b).
Proof.
  intros Hl Hg. unfold try_decode_frame. rewrite Hg.
  change (wrap 32 (8 + (2 ^ 32 - 8))) with 0. split_cmp. reflexivity.
Qed.

Section SendAll.
Context {sock : Type} (os_send : sock -> bytes -> Z -> Z * sock).
Context (delivered : sock -> bytes).
(** [::send] accepts a prefix of the data, at most the length it was given,
    and returns how much; on an error nothing is accepted. *)
Hypothesis os_send_spec : forall s d n r s', os_send s d n = (r, s') -> 0 <= n <= len d ->
  (0 < r -> r <= n /\ delivered s' = delivered s ++ take (Z.to_nat r) d) /\
  (r <= 0 -> delivered s' = delivered s).

Lemma send_loop_spec fuel s data sent :
  len data < 2 ^ 31 -> 0 <= sent <= len data ->
  len data - sent <= Z.of_nat fuel ->
  exists ok s' k, send_loop os_send fuel s data sent = Some (ok, s') /\
    delivered s' = delivered s ++ take k (drop (Z.to_nat sent) data) /\
    (ok = true -> (length data <= Z.to_nat sent + k)%nat).
Proof.
  revert s sent. induction fuel as [|fuel IH]; intros s sent Hd Hs Hf; cbn [send_loop].
  - destruct (Z.ltb_spec sent (len data)); [lia|].
    exists true, s, 0%nat. split; [done|]. split; [now rewrite take_0, app_nil_r|].
    unfold len in *. lia.
  - destruct (Z.ltb_spec sent (len data)) as [Hlt|].
    2:{ exists true, s, 0%nat. split; [done|]. split; [now rewrite take_0, app_nil_r|].
        unfold len in *. lia. }
    rewrite sext_wrap by lia.
    destruct (os_send s (drop (Z.to_nat sent) data) (len data - sent)) as [r s1] eqn:E.
    destruct (os_send_spec _ _ _ _ _ E) as [Hpos Hneg].
    { unfold len in *. rewrite length_drop. lia. }
    destruct (Z.leb_spec r 0) as [Hr|Hr].
    + exists false, s1, 0%nat. split; [done|]. rewrite (Hneg Hr), take_0, app_nil_r. now split.
    + destruct (Hpos Hr) as [Hrn Hdel].
      destruct (IH s1 (sent + r)) as (ok & s2 & k & Hl & Hd2 & Hok); [lia..|].
      exists ok, s2, (Z.to_nat r + k)%nat. split; [exact Hl|]. split.
      * rewrite Hd2, Hdel, <- app_assoc. f_equal.
        rewrite <- (take_take_drop _ (Z.to_nat r) k). f_equal. f_equal.
        rewrite drop_drop. f_equal. lia.
      * intros ->. specialize (Hok eq_refl). lia.
Qed.
End SendAll.
