(* ===== verification/PromiseClient.v ===== *)
(** * The promise client's connection

    Models src/src/promise_demo/promise_client.cpp: the [connection] class,
    shared between user threads that call [send_request] and the one I/O
    thread that runs [process_connections]. Every method that takes the mutex
    is atomic; the I/O thread's loop body is cut at those points ([io_pc]), so
    that a [send_request] of any user thread may come between any two of them.
    A [std::promise] is an index into the list [futures] of shared states. *)

From S2P Require Import Prelude NetFrame.

(** ** Data *)

Definition reply_t := list bytes.

(** The exceptions of this file, with their messages. *)
Inductive exn :=
| runtime_error (what : string)
| out_of_range
| future_error (what : string)
| dangling_reference.        (* not an exception: use of an erased element *)

(** The shared state of a promise and its future. *)
Inductive future :=
| Waiting
| Value (r : reply_t)
| Exception (e : exn).

Record pending_request := { promise : nat; frames : reply_t }.

Record connection := {
  read_buffer_ : bytes;
  pending_ : gmap Z pending_request;
  outgoing_ : list (Z * bytes);
  next_id_ : Z;
  closed_ : bool;
  futures : list future;      (* every promise made so far *)
  wire : bytes;               (* what [send] has written to the socket *)
}.

Definition initial : connection :=
  {| read_buffer_ := []; pending_ := ∅; outgoing_ := []; next_id_ := 1;
     closed_ := false; futures := []; wire := [] |}.

Definition set_read_buffer b c := {| read_buffer_ := b; pending_ := pending_ c;
  outgoing_ := outgoing_ c; next_id_ := next_id_ c; closed_ := closed_ c;
  futures := futures c; wire := wire c |}.
Definition set_pending p fs c := {| read_buffer_ := read_buffer_ c; pending_ := p;
  outgoing_ := outgoing_ c; next_id_ := next_id_ c; closed_ := closed_ c;
  futures := fs; wire := wire c |}.
Definition set_outgoing o n c := {| read_buffer_ := read_buffer_ c; pending_ := pending_ c;
  outgoing_ := o; next_id_ := n; closed_ := closed_ c; futures := futures c;
  wire := wire c |}.
Definition set_wire w c := {| read_buffer_ := read_buffer_ c; pending_ := pending_ c;
  outgoing_ := outgoing_ c; next_id_ := next_id_ c; closed_ := closed_ c;
  futures := futures c; wire := w |}.

(** [promise.set_value] / [promise.set_exception]: a second one throws. *)
Definition satisfy (h : nat) (v : future) (fs : list future) : res exn (list future) :=
  match fs !! h with
  | Some Waiting => Ok (<[h := v]> fs)
  | _ => Throw (future_error "promise_already_satisfied")
  end.

Definition END : bytes := [chr 69; chr 78; chr 68].

(** ** Operations of the user threads *)

(** The state is returned with the exception: the request is queued before
    [pending_[id]] is looked up. [pending_[id]] inserts a fresh promise when
    the id is free; when it is taken, [get_future] is called a second time. *)
Definition send_request (payload : bytes) (c : connection) : connection * res exn nat :=
  if closed_ c then (c, Throw (runtime_error "connection is closed")) else
  let id := next_id_ c in
  let c1 := set_outgoing (outgoing_ c ++ [(id, payload)]) (wrap 32 (id + 1)) c in
  match pending_ c1 !! id with
  | Some _ => (c1, Throw (future_error "future_already_retrieved"))
  | None =>
    let h := length (futures c1) in
    (set_pending (<[id := {| promise := h; frames := [] |}]> (pending_ c1))
                 (futures c1 ++ [Waiting]) c1, Ok h)
  end.

(** ** Operations of the I/O thread *)

(** Every pending promise gets the exception, in the map's iteration order. *)
Fixpoint fail_all (e : exn) (l : list (Z * pending_request)) (fs : list future)
    : res exn (list future) :=
  match l with
  | [] => Ok fs
  | (_, r) :: l =>
    (let? fs' := satisfy (promise r) (Exception e) fs in fail_all e l fs')%res
  end.

Definition close_with_error (what : string) (c : connection) : res exn connection :=
  (let? fs := fail_all (runtime_error what) (map_to_list (pending_ c)) (futures c) in
   Ok {| read_buffer_ := read_buffer_ c; pending_ := ∅; outgoing_ := [];
         next_id_ := next_id_ c; closed_ := true; futures := fs; wire := wire c |})%res.

(** What the operating system answers in one pass: whether the socket is
    readable, what [::recv] returns, whether [send_all] succeeds. *)
Record env := { readable : bool; received : Z * bytes; send_ok : bool }.

Definition has_incoming_data (e : env) (c : connection) : res exn (bool * connection) :=
  if frame_ready (read_buffer_ c) then Ok (true, c) else
  if closed_ c || negb (readable e) then Ok (false, c) else
  let '(n, b, _) := recv_some (fun (_ : unit) _ => (received e, tt)) tt (read_buffer_ c) in
  let c1 := set_read_buffer b c in
  if n <=? 0 then
    (let? c2 := close_with_error "connection lost" c1 in Ok (false, c2))%res
  else Ok (frame_ready b, c1).

(** [data_packet packet{}] is zero-initialised; the result of
    [try_decode_frame] is not looked at. *)
Definition incoming (c : connection) : (Z * bytes) * connection :=
  match try_decode_frame (read_buffer_ c) with
  | Some (id, payload, rest) => ((id, payload), set_read_buffer rest c)
  | None => ((0, []), c)
  end.

Definition get_request (id : Z) (c : connection) : res exn pending_request :=
  match pending_ c !! id with Some r => Ok r | None => Throw out_of_range end.

Definition remove_request (id : Z) (c : connection) : connection :=
  set_pending (delete id (pending_ c)) (futures c) c.

Definition has_outgoing_data (c : connection) : bool :=
  negb (closed_ c) && match outgoing_ c with [] => false | _ => true end.

(** [front] of an empty deque is undefined; the loop checks first. *)
Definition pop_outgoing (c : connection) : option ((Z * bytes) * connection) :=
  match outgoing_ c with
  | [] => None
  | p :: o => Some (p, set_outgoing o (next_id_ c) c)
  end.

Definition send (e : env) (id : Z) (payload : bytes) (c : connection) : res exn connection :=
  if send_ok e then Ok (set_wire (wire c ++ encode_frame id payload) c)
  else close_with_error "send failed" c.

(** [request.frames.push_back(payload)] through the reference [get_request]
    returned, then [set_value] when the payload is the end mark. *)
Definition deliver (id : Z) (payload : bytes) (c : connection)
    : res exn (bool * connection) :=
  match pending_ c !! id with
  | None => Throw dangling_reference
  | Some r =>
  let r' := {| promise := promise r; frames := frames r ++ [payload] |} in
  if decide (payload = END) then
    (let? fs := satisfy (promise r) (Value (frames r')) (futures c) in
     Ok (true, set_pending (<[id := {| promise := promise r; frames := [] |}]> (pending_ c))
                           fs c))%res
  else Ok (false, set_pending (<[id := r']> (pending_ c)) (futures c) c)
  end.

(** ** The loop of [process_connections] on one connection *)

Inductive io_pc :=
| AtTop                               (* has_incoming_data *)
| AtIncoming
| AtGet (d : Z * bytes)
| AtDeliver (d : Z * bytes)            (* the reference is held *)
| AtRemove (id : Z)
| AtOutgoing                          (* has_outgoing_data *)
| AtPop
| AtSend (p : Z * bytes)
| Terminated (e : exn).               (* the exception leaves the thread *)

Definition guard {A} (c : connection) (m : res exn A) (k : A -> io_pc * connection)
    : io_pc * connection :=
  match m with Ok a => k a | Throw e => (Terminated e, c) end.

Definition io_step (e : env) (s : io_pc * connection) : io_pc * connection :=
  let '(pc, c) := s in
  match pc with
  | AtTop => guard c (has_incoming_data e c) (fun '(b, c') =>
               (if b : bool then AtIncoming else AtOutgoing, c'))
  | AtIncoming => let '(d, c') := incoming c in (AtGet d, c')
  | AtGet d => guard c (get_request d.1 c) (fun _ => (AtDeliver d, c))
  | AtDeliver d => guard c (deliver d.1 d.2 c) (fun '(fin, c') =>
               (if fin : bool then AtRemove d.1 else AtOutgoing, c'))
  | AtRemove id => (AtOutgoing, remove_request id c)
  | AtOutgoing => (if has_outgoing_data c then AtPop else AtTop, c)
  | AtPop => match pop_outgoing c with
             | Some (p, c') => (AtSend p, c')
             | None => (AtTop, c)
             end
  | AtSend p => guard c (send e p.1 p.2 c) (fun c' => (AtTop, c'))
  | Terminated _ => s
  end.

(** One step of the whole: a user thread's request, or the I/O thread. *)
Inductive step : io_pc * connection -> io_pc * connection -> Prop :=
| StepUser pc c payload c' r :
    send_request payload c = (c', r) -> step (pc, c) (pc, c')
| StepIo s e : step s (io_step e s).

Definition reachable (s : io_pc * connection) : Prop := rtc step (AtTop, initial) s.

(** The I/O thread alone, one system answer per micro-step. *)
Definition run_io (es : list env) (s : io_pc * connection) : io_pc * connection :=
  fold_left (fun s e => io_step e s) es s.

(** The body of the [for] loop without interleaving: whether it did work. *)
Definition loop_body (e : env) (c : connection) : res exn (bool * connection) :=
  (let? (inc, c1) := has_incoming_data e c in
   let? (w, c2) :=
     (if inc : bool then
        let '(d, c') := incoming c1 in
        let? _ := get_request d.1 c' in
        let? (fin, c'') := deliver d.1 d.2 c' in
        Ok (true, if fin : bool then remove_request d.1 c'' else c'')
      else Ok (false, c1)) in
   if has_outgoing_data c2 then
     match pop_outgoing c2 with
     | Some (p, c3) => let? c4 := send e p.1 p.2 c3 in Ok (true, c4)
     | None => Ok (w, c2)
     end
   else Ok (w, c2))%res.

(** [done]: stop requested, or every connection closed. *)
Definition done (stop_requested : bool) (cs : list connection) : bool :=
  stop_requested || forallb closed_ cs.

Fixpoint for_each (es : list env) (cs : list connection) : res exn (list connection) :=
  match es, cs with
  | e :: es, c :: cs =>
    (let? (_, c') := loop_body e c in let? cs' := for_each es cs in Ok (c' :: cs'))%res
  | _, _ => Ok cs
  end.

(** [process_connections], one entry of [turns] per turn of the [while]: the
    value of [stop_requested] and the system's answers to each connection. The
    flag of the result says whether the loop has ended. *)
Fixpoint process_connections (turns : list (bool * list env)) (cs : list connection)
    : res exn (bool * list connection) :=
  match turns with
  | [] => Ok (false, cs)
  | (stop, es) :: turns =>
    if done stop cs then Ok (true, cs) else
    (let? cs' := for_each es cs in process_connections turns cs')%res
  end.

(** ** The invariant of reachable states *)

Definition has_handle (c : connection) (id : Z) (h : nat) : Prop :=
  exists r, pending_ c !! id = Some r /\ promise r = h.

Definition removing (pc : io_pc) (id : Z) : Prop := pc = AtRemove id.

Record inv (s : io_pc * connection) : Prop := {
  inv_inj : forall i j h, has_handle s.2 i h -> has_handle s.2 j h -> i = j;
  inv_bound : forall i h, has_handle s.2 i h -> (h < length (futures s.2))%nat;
  inv_waiting : forall h, futures s.2 !! h = Some Waiting <->
                  exists id, has_handle s.2 id h /\ s.1 <> AtRemove id;
  inv_closed : closed_ s.2 = true -> pending_ s.2 = ∅;
  inv_deliver : forall d, s.1 = AtDeliver d -> is_Some (pending_ s.2 !! d.1);
  inv_remove : forall id, s.1 = AtRemove id -> is_Some (pending_ s.2 !! id);
  inv_safe : forall e, s.1 = Terminated e -> e = out_of_range;
}.

Lemma satisfy_waiting h v fs :
  fs !! h = Some Waiting -> satisfy h v fs = Ok (<[h := v]> fs).
Proof. unfold satisfy. now intros ->. Qed.

(** Failing distinct waiting promises succeeds and touches only those. *)
Lemma fail_all_spec e l fs :
  NoDup (map (fun x => promise x.2) l) ->
  (forall x, x ∈ l -> fs !! promise x.2 = Some Waiting) ->
  exists fs', fail_all e l fs = Ok fs' /\ length fs' = length fs /\
    forall h, fs' !! h = if decide (h ∈ map (fun x => promise x.2) l)
                        then Some (Exception e) else fs !! h.
Proof.
  revert fs. induction l as [|[id r] l IH]; intros fs Hnd Hw.
  - exists fs. split; [reflexivity|]. split; [reflexivity|]. intros h.
    rewrite decide_False; [reflexivity|]. apply not_elem_of_nil.
  - cbn [map snd] in *. apply NoDup_cons in Hnd as [Hnin Hnd].
    pose proof (Hw (id, r) (list_elem_of_here _ _)) as Hr. cbn in Hr. cbn [fail_all].
    rewrite (satisfy_waiting _ _ _ Hr). cbn [res_bind].
    destruct (IH (<[promise r := Exception e]> fs)) as (fs' & E & Hl & Hh); [done| |].
    { intros x Hx. rewrite list_lookup_insert_ne; [apply Hw; now apply list_elem_of_further|].
      intros E. apply Hnin. apply list_elem_of_fmap. now exists x. }
    exists fs'. split; [done|]. rewrite length_insert in Hl. split; [done|].
    intros h. rewrite Hh. destruct (decide (h = promise r)) as [->|Hne].
    + rewrite decide_False by done. rewrite decide_True by apply list_elem_of_here.
      rewrite list_lookup_insert_eq; [done|]. now apply lookup_lt_Some in Hr.
    + rewrite list_lookup_insert_ne by congruence.
      repeat case_decide; set_solver.
Qed.

(** Closing a connection whose pending promises all wait succeeds, resolves
    each of them with the error, and leaves none waiting. *)
Lemma close_spec what pc c :
  inv (pc, c) -> (forall id, pc <> AtRemove id) ->
  exists c', close_with_error what c = Ok c' /\ pending_ c' = ∅ /\ closed_ c' = true /\
    (forall h, futures c' !! h <> Some Waiting) /\
    (forall id h, has_handle c id h ->
       futures c' !! h = Some (Exception (runtime_error what))) /\
    (forall h, futures c !! h <> Some Waiting -> futures c' !! h = futures c !! h).
Proof.
  intros I Hpc. unfold close_with_error.
  assert (Hin : forall x, x ∈ map_to_list (pending_ c) -> has_handle c x.1 (promise x.2)).
  { intros [id r] Hx. apply elem_of_map_to_list in Hx. now exists r. }
  destruct (fail_all_spec (runtime_error what) (map_to_list (pending_ c)) (futures c))
    as (fs & E & _ & Hfs).
  - apply (NoDup_fmap_2_strong (fun x => promise x.2)); [|apply NoDup_map_to_list].
    intros [i r] [j q] Hi Hj Heq. pose proof (inv_inj _ I i j (promise r)) as Hinj.
    assert (i = j) as ->.
    { apply Hinj; [exact (Hin _ Hi)|]. cbn in Heq. rewrite Heq. exact (Hin _ Hj). }
    apply elem_of_map_to_list in Hi, Hj. congruence.
  - intros x Hx. apply (inv_waiting _ I). exists x.1. split; [now apply Hin|]. apply Hpc.
  - rewrite E. cbn. eexists. split; [reflexivity|]. cbn. split; [done|]. split; [done|].
    assert (Hmem : forall h, h ∈ map (fun x => promise x.2) (map_to_list (pending_ c)) <->
              exists id, has_handle c id h).
    { intros h. rewrite list_elem_of_fmap. split.
      - intros (x & -> & Hx). exists x.1. now apply Hin.
      - intros (id & r & Hr & <-). exists (id, r). split; [done|]. now apply elem_of_map_to_list. }
    split; [|split].
    + intros h Hh. rewrite Hfs in Hh. case_decide as Hd; [discriminate|].
      apply (inv_waiting _ I) in Hh as (id & Hh & _). apply Hd, Hmem. now exists id.
    + intros id h Hh. rewrite Hfs, decide_True; [done|]. apply Hmem. now exists id.
    + intros h Hh. rewrite Hfs. case_decide as Hd; [|done]. exfalso.
      apply Hmem in Hd as [id Hd]. apply Hh. apply (inv_waiting _ I).
      exists id. split; [done|]. apply Hpc.
Qed.

(** The closed state satisfies the invariant at the points that follow it. *)
Lemma inv_after_close pc c :
  pending_ c = ∅ -> (forall h, futures c !! h <> Some Waiting) ->
  (forall d, pc <> AtDeliver d) -> (forall id, pc <> AtRemove id) ->
  (forall e, pc = Terminated e -> e = out_of_range) -> inv (pc, c).
Proof.
  intros Hp Hw Hd Hrm He.
  assert (Hn : forall i h, ~ has_handle c i h).
  { intros i h (r & Hr & _). rewrite Hp, lookup_empty in Hr. discriminate. }
  constructor; cbn; try naive_solver.
Qed.

(** The invariant only reads the pending map, the futures, the closed flag. *)
Lemma inv_ext pc pc' c c' :
  inv (pc, c) -> pending_ c' = pending_ c -> futures c' = futures c ->
  closed_ c' = closed_ c ->
  (forall d, pc' = AtDeliver d -> is_Some (pending_ c !! d.1)) ->
  (forall id, pc = AtRemove id <-> pc' = AtRemove id) ->
  (forall e, pc' = Terminated e -> e = out_of_range) ->
  inv (pc', c').
Proof.
  intros [I1 I2 I3 I4 I5 I6 I7] Hp Hf Hc Hd Hr He. cbn in *.
  assert (Hh : forall i h, has_handle c' i h <-> has_handle c i h).
  { intros i h. unfold has_handle. now rewrite Hp. }
  constructor; cbn; rewrite ?Hp, ?Hf, ?Hc; auto.
  - intros i j h. rewrite !Hh. apply I1.
  - intros i h. rewrite Hh. apply I2.
  - intros h. rewrite I3. split; intros (id & H1 & H2); exists id.
    + split; [now apply Hh|]. intros E. apply H2. now apply Hr.
    + split; [now apply Hh|]. intros E. apply H2. now apply Hr.
  - intros id E. apply I6. now apply Hr.
Qed.

Lemma inv_initial : inv (AtTop, initial).
Proof.
  constructor; cbn; unfold has_handle; cbn; try naive_solver.
Qed.

(** A fresh id's entry is added next to the ones already there. *)
Lemma has_handle_insert c id h0 fs i h :
  pending_ c !! id = None ->
  has_handle (set_pending (<[id := {| promise := h0; frames := [] |}]> (pending_ c)) fs c) i h <->
  (i = id /\ h = h0) \/ has_handle c i h.
Proof.
  intros Hn. unfold has_handle; cbn. destruct (decide (i = id)) as [->|Hne].
  - rewrite lookup_insert_eq, Hn. naive_solver.
  - rewrite lookup_insert_ne by done. naive_solver.
Qed.

Lemma send_request_inv pc c payload c' r :
  inv (pc, c) -> send_request payload c = (c', r) -> inv (pc, c').
Proof.
  intros I E. unfold send_request in E.
  destruct (closed_ c) eqn:Hc; [now injection E as <- <-|]. cbn in E.
  destruct (pending_ c !! next_id_ c) as [q|] eqn:Hn; injection E as <- <-.
  { eapply inv_ext; eauto; cbn; try done; [apply (inv_deliver _ I)|apply (inv_safe _ I)]. }
  pose proof I as [I1 I2 I3 I4 I5 I6 I7]. cbn in *.
  pose proof (has_handle_insert (set_outgoing (outgoing_ c ++ [(next_id_ c, payload)])
    (wrap 32 (next_id_ c + 1)) c) (next_id_ c) (length (futures c))
    (futures c ++ [Waiting])) as Hh.
  constructor; cbn [fst snd]; cbn [closed_ set_pending set_outgoing pending_ futures].
  - intros i j h [[-> ->]|Hi]%Hh [[-> Ej]|Hj]%Hh; try done; [| |now apply (I1 i j h)].
    + apply I2 in Hj. lia.
    + apply I2 in Hi. lia.
  - intros i h. rewrite length_app. intros [[-> ->]|Hi]%Hh; cbn; [lia| |done].
    apply I2 in Hi. lia.
  - intros h. split.
    + intros [Hw|[Hl Hw]]%lookup_app_Some.
      * apply I3 in Hw as (id & H1 & H2). exists id. split; [|done]. apply Hh; [done|now right].
      * exists (next_id_ c). split.
        { apply Hh; [done|left]. split; [done|].
          apply list_lookup_singleton_Some in Hw as [Hw _]. lia. }
        intros ->. destruct (I6 _ eq_refl) as [q Hq]. congruence.
    + intros (id & [[-> ->]|Hi]%Hh & Hpc); [| |done].
      * now rewrite lookup_app_r, Nat.sub_diag by lia.
      * rewrite lookup_app_l by (apply (I2 _ _ Hi)). apply I3. now exists id.
  - congruence.
  - intros d ->. destruct (I5 d eq_refl) as [q Hq]. exists q.
    rewrite lookup_insert_ne; [done|congruence].
  - intros id ->. destruct (I6 id eq_refl) as [q Hq]. exists q.
    rewrite lookup_insert_ne; [done|congruence].
  - apply I7.
Qed.

(** Replacing an entry by one with the same promise keeps every handle. *)
Lemma has_handle_update c id r q fs i h :
  pending_ c !! id = Some r -> promise q = promise r ->
  has_handle (set_pending (<[id := q]> (pending_ c)) fs c) i h <-> has_handle c i h.
Proof.
  intros Hr Hq. unfold has_handle; cbn. destruct (decide (i = id)) as [->|Hne].
  - rewrite lookup_insert_eq, Hr. naive_solver congruence.
  - now rewrite lookup_insert_ne by done.
Qed.

Lemma deliver_inv d c :
  inv (AtDeliver d, c) ->
  exists fin c', deliver d.1 d.2 c = Ok (fin, c') /\
    (fin = true <-> d.2 = END) /\
    inv (if fin then AtRemove d.1 else AtOutgoing, c').
Proof.
  intros I. destruct (inv_deliver _ I d eq_refl) as [r Hr]. cbn in Hr.
  assert (Hw : futures c !! promise r = Some Waiting).
  { apply (inv_waiting _ I). exists d.1. split; [now exists r|discriminate]. }
  pose proof I as [I1 I2 I3 I4 I5 I6 I7]. cbn in *.
  unfold deliver. rewrite Hr. destruct (decide (d.2 = END)) as [He|He].
  - rewrite (satisfy_waiting _ _ _ Hw). cbn. eexists true, _. do 2 (split; [done|]).
    match goal with |- inv (_, set_pending (<[_ := ?q]> _) ?fs _) =>
      pose proof (has_handle_update c d.1 r q fs) as Hh end.
    constructor; cbn [fst snd]; cbn [closed_ set_pending pending_ futures]; try done.
    + intros i j h Hi%Hh Hj%Hh; try done. now apply (I1 i j h).
    + intros i h Hi%Hh; try done. rewrite length_insert. now apply (I2 i h).
    + intros h. destruct (decide (h = promise r)) as [->|Hne].
      * rewrite list_lookup_insert_eq by (eapply lookup_lt_Some; eauto).
        split; [discriminate|]. intros (id & Hi%Hh & Hpc); [|done..].
        exfalso. apply Hpc. f_equal. apply (I1 _ _ (promise r)); [now exists r|done].
      * rewrite list_lookup_insert_ne by congruence. rewrite I3.
        split; intros (id & Hi & Hpc); exists id.
        -- split; [now apply Hh|]. intros [= <-]. destruct Hi as (q & Hq & <-). congruence.
        -- split; [|done]. apply Hh in Hi; done.
    + intros Hc. rewrite (I4 Hc), lookup_empty in Hr. discriminate.
    + intros id [= <-]. rewrite lookup_insert_eq. eauto.
  - eexists false, _. do 2 (split; [done|]).
    match goal with |- inv (_, set_pending (<[_ := ?q]> _) ?fs _) =>
      pose proof (has_handle_update c d.1 r q fs) as Hh end.
    constructor; cbn [fst snd]; cbn [closed_ set_pending pending_ futures]; try done.
    + intros i j h Hi%Hh Hj%Hh; try done. now apply (I1 i j h).
    + intros i h Hi%Hh; try done. now apply (I2 i h).
    + intros h. rewrite I3. split; intros (id & Hi & _); exists id.
      * split; [now apply Hh|discriminate].
      * split; [|discriminate]. apply Hh in Hi; done.
    + intros Hc. rewrite (I4 Hc), lookup_empty in Hr. discriminate.
Qed.

Lemma remove_inv id c : inv (AtRemove id, c) -> inv (AtOutgoing, remove_request id c).
Proof.
  intros [I1 I2 I3 I4 I5 I6 I7]. cbn in *.
  assert (Hh : forall i h, has_handle (remove_request id c) i h <-> i <> id /\ has_handle c i h).
  { intros i h. unfold has_handle; cbn. destruct (decide (i = id)) as [->|Hne].
    - rewrite lookup_delete_eq. naive_solver.
    - rewrite lookup_delete_ne by done. naive_solver. }
  constructor; cbn [fst snd]; cbn [closed_ remove_request set_pending pending_ futures]; try done.
  - intros i j h [_ Hi]%Hh [_ Hj]%Hh. now apply (I1 i j h).
  - intros i h [_ Hi]%Hh. now apply (I2 i h).
  - intros h. rewrite I3. split; intros (i & Hi & Hpc); exists i.
    + split; [|discriminate]. apply Hh. split; [congruence|done].
    + apply Hh in Hi as [Hne Hi]. split; [done|congruence].
  - intros Hc. rewrite (I4 Hc). apply delete_empty.
Qed.

Lemma io_step_inv e s : inv s -> inv (io_step e s).
Proof.
  destruct s as [pc c]. intros I.
  assert (Ext : forall pc' c', pending_ c' = pending_ c -> futures c' = futures c ->
    closed_ c' = closed_ c -> (forall d, pc' <> AtDeliver d) -> (forall id, pc' <> AtRemove id) ->
    (forall id, pc <> AtRemove id) -> (forall x, pc' = Terminated x -> x = out_of_range) ->
    inv (pc', c')).
  { intros pc' c' Hp Hf Hc Hd Hr Hr' He. eapply inv_ext; eauto; naive_solver. }
  destruct pc; cbn [io_step].
  - unfold has_incoming_data. destruct (frame_ready _); [now apply Ext|].
    destruct (closed_ c || negb (readable e)); [now apply Ext|].
    destruct (recv_some _ _ _) as [[n b] u]. destruct (n <=? 0).
    + destruct (close_spec "connection lost" AtTop (set_read_buffer b c))
        as (c' & -> & Hp & Hc & Hw & _); [now apply Ext|discriminate|].
      cbn. now apply inv_after_close.
    + cbn. destruct (frame_ready b); now apply Ext.
  - unfold incoming. destruct (try_decode_frame _) as [[[id p] rest]|]; now apply Ext.
  - unfold get_request. destruct (pending_ c !! d.1) as [r|] eqn:Hr; cbn.
    + eapply inv_ext; eauto; try done. intros d' [= <-]. eauto.
    + apply Ext; congruence.
  - destruct (deliver_inv d c I) as (fin & c' & -> & _ & I'). cbn. exact I'.
  - now apply remove_inv.
  - destruct (has_outgoing_data c); now apply Ext.
  - unfold pop_outgoing. destruct (outgoing_ c) as [|p o]; now apply Ext.
  - unfold send. destruct (send_ok e); cbn; [now apply Ext|].
    destruct (close_spec "send failed" (AtSend p) c I) as (c' & -> & Hp & Hc & Hw & _);
      [discriminate|]. cbn. now apply inv_after_close.
  - exact I.
Qed.

Lemma step_inv s s' : step s s' -> inv s -> inv s'.
Proof.
  intros H I. destruct H; [now apply (send_request_inv pc c payload c' r)|].
  now apply io_step_inv.
Qed.

Lemma reachable_inv s : reachable s -> inv s.
Proof.
  intros H. unfold reachable in H.
  assert (G : forall a b, rtc step a b -> inv a -> inv b).
  { induction 1 as [|a b b' Hab _ IH]; [done|]. intros Ia. apply IH. now apply (step_inv a b). }
  apply (G _ _ H). apply inv_initial.
Qed.

(** ** Properties of every interleaving *)

(** C38. When the connection is closed, no future is left waiting: whatever the
    interleaving of requests and I/O, each one was resolved with its reply or
    with the error that closed the connection. *)
Theorem closed_leaves_none_waiting pc c h :
  reachable (pc, c) -> closed_ c = true -> futures c !! h <> Some Waiting.
Proof.
  intros H%reachable_inv Hc Hw. apply (inv_waiting _ H) in Hw as (id & (r & Hr & _) & _).
  pose proof (inv_closed _ H Hc) as Hp. cbn in *.
  rewrite Hp, lookup_empty in Hr. discriminate.
Qed.

(** C39. The only exception that leaves the I/O thread is the [out_of_range] of
    [pending_.at(id)], for a frame whose id is not pending: no promise is ever
    satisfied twice and no erased element is used. *)
Theorem io_thread_exceptions e c : reachable (Terminated e, c) -> e = out_of_range.
Proof. intros H%reachable_inv. exact (inv_safe _ H e eq_refl). Qed.

Lemma satisfy_resolved h v fs fs' k w :
  satisfy h v fs = Ok fs' -> fs !! k = Some w -> w <> Waiting -> fs' !! k = Some w.
Proof.
  unfold satisfy. intros E Hk Hw.
  destruct (fs !! h) as [[]|] eqn:Hh; try discriminate. injection E as <-.
  rewrite list_lookup_insert_ne; [done|congruence].
Qed.

Lemma fail_all_resolved e l fs fs' k w :
  fail_all e l fs = Ok fs' -> fs !! k = Some w -> w <> Waiting -> fs' !! k = Some w.
Proof.
  revert fs. induction l as [|[id r] l IH]; intros fs; cbn [fail_all]; [congruence|].
  intros (fs1 & E1 & E2)%res_bind_ok Hk Hw. apply (IH fs1); [done| |done].
  eapply satisfy_resolved; eauto.
Qed.

Lemma close_resolved what c c' k w :
  close_with_error what c = Ok c' -> futures c !! k = Some w -> w <> Waiting ->
  futures c' !! k = Some w.
Proof. intros (fs & E & [= <-])%res_bind_ok. apply (fail_all_resolved _ _ _ _ _ _ E). Qed.

Lemma io_step_resolved e s h v :
  futures s.2 !! h = Some v -> v <> Waiting -> futures (io_step e s).2 !! h = Some v.
Proof.
  destruct s as [pc c]; cbn [snd]; intros Hh Hv. destruct pc; cbn [io_step].
  - unfold has_incoming_data. repeat case_match; simplify_eq/=; try done.
    destruct (close_with_error _ _) as [c'|] eqn:E; cbn; [|done].
    eapply close_resolved; eauto.
  - unfold incoming. destruct (try_decode_frame _) as [[[id p] rest]|]; done.
  - unfold get_request. destruct (pending_ c !! d.1); done.
  - unfold deliver. destruct (pending_ c !! d.1) as [r|]; [|done]. case_decide; [|done].
    destruct (satisfy _ _ _) as [fs|] eqn:E; cbn; [|done]. eapply satisfy_resolved; eauto.
  - done.
  - done.
  - unfold pop_outgoing. destruct (outgoing_ c); done.
  - unfold send. destruct (send_ok e); [done|].
    destruct (close_with_error _ _) as [c'|] eqn:E; cbn; [|done].
    eapply close_resolved; eauto.
  - done.
Qed.

Lemma run_io_resolved es s h v :
  futures s.2 !! h = Some v -> v <> Waiting -> futures (run_io es s).2 !! h = Some v.
Proof.
  revert s. induction es as [|e es IH]; intros s Hh Hv; [done|].
  cbn. apply IH; [|done]. now apply io_step_resolved.
Qed.

(** A resolved future never changes again, on any step of any thread. *)
Theorem resolved_future_stable s s' h v :
  step s s' -> futures s.2 !! h = Some v -> v <> Waiting -> futures s'.2 !! h = Some v.
Proof.
  intros [pc c payload c' r E|t e]; intros Hh Hv; [|now apply io_step_resolved].
  cbn in *. unfold send_request in E. destruct (closed_ c); [now injection E as <- <-|].
  cbn in E. destruct (pending_ c !! next_id_ c); injection E as <- <-; cbn; [done|].
  rewrite lookup_app_l; [done|]. now apply lookup_lt_Some in Hh.
Qed.

(** ** The loop body and its micro-steps *)

Lemma run_io_cons e es s : run_io (e :: es) s = run_io es (io_step e s).
Proof. reflexivity. Qed.

(** From [AtOutgoing], the rest of the body. *)
Lemma run_outgoing e w c :
  exists n, run_io (replicate n e) (AtOutgoing, c) =
    match (if has_outgoing_data c then
             match pop_outgoing c with
             | Some (p, c3) => res_bind (send e p.1 p.2 c3) (fun c4 => Ok (true, c4))
             | None => Ok (w, c)
             end
           else Ok (w, c)) : res exn (bool * connection) with
    | Ok (_, c') => (AtTop, c')
    | Throw x => (Terminated x, match pop_outgoing c with Some (_, c3) => c3 | None => c end)
    end.
Proof.
  destruct (has_outgoing_data c) eqn:Ho.
  - destruct (pop_outgoing c) as [[p c3]|] eqn:Ep.
    2:{ exists 2%nat. cbn [replicate]. rewrite !run_io_cons. cbn [io_step].
        rewrite Ho. cbn [io_step]. now rewrite Ep. }
    exists 3%nat. cbn [replicate]. rewrite !run_io_cons. cbn [io_step].
    rewrite Ho. cbn [io_step]. rewrite Ep. cbn [io_step run_io fold_left].
    destruct (send e p.1 p.2 c3); reflexivity.
  - exists 1%nat. cbn. now rewrite Ho.
Qed.

(** The body of the loop in [process_connections] is what the micro-steps
    of the I/O thread compute when no user thread interferes: the same state
    when it returns, and the same exception when it throws. *)
Lemma loop_body_refined e c :
  exists n, match loop_body e c with
  | Ok (_, c') => run_io (replicate n e) (AtTop, c) = (AtTop, c')
  | Throw x => (run_io (replicate n e) (AtTop, c)).1 = Terminated x
  end.
Proof.
  assert (Out : forall k c1 w, run_io (replicate k e) (AtTop, c) = (AtOutgoing, c1) ->
    exists n, match (if has_outgoing_data c1 then
             match pop_outgoing c1 with
             | Some (p, c3) => res_bind (send e p.1 p.2 c3) (fun c4 => Ok (true, c4))
             | None => Ok (w, c1)
             end
           else Ok (w, c1)) : res exn (bool * connection) with
    | Ok (_, c') => run_io (replicate n e) (AtTop, c) = (AtTop, c')
    | Throw x => (run_io (replicate n e) (AtTop, c)).1 = Terminated x
    end).
  { intros k c1 w Hk. destruct (run_outgoing e w c1) as [m Hm]. exists (k + m)%nat.
    unfold run_io in *. rewrite replicate_add, fold_left_app, Hk, Hm.
    destruct (if has_outgoing_data c1 then _ else _) as [[b c']|x]; reflexivity. }
  unfold loop_body. destruct (has_incoming_data e c) as [[inc c1]|x] eqn:Ei.
  2:{ exists 1%nat. cbn. now rewrite Ei. }
  assert (H1 : io_step e (AtTop, c) = (if inc then AtIncoming else AtOutgoing, c1)).
  { cbn. now rewrite Ei. }
  cbn [res_bind]. destruct inc.
  2:{ apply (Out 1%nat). cbn [replicate]. rewrite run_io_cons, H1. reflexivity. }
  destruct (incoming c1) as [d c2] eqn:Ed.
  assert (H2 : io_step e (AtIncoming, c1) = (AtGet d, c2)) by (cbn; now rewrite Ed).
  destruct (get_request d.1 c2) as [r|x] eqn:Er.
  2:{ exists 3%nat. cbn [replicate res_bind]. rewrite !run_io_cons, H1, H2. cbn. now rewrite Er. }
  assert (H3 : io_step e (AtGet d, c2) = (AtDeliver d, c2)) by (cbn; now rewrite Er).
  cbn [res_bind]. destruct (deliver d.1 d.2 c2) as [[fin c3]|x] eqn:Ef.
  2:{ exists 4%nat. cbn [replicate res_bind]. rewrite !run_io_cons, H1, H2, H3. cbn.
      now rewrite Ef. }
  assert (H4 : io_step e (AtDeliver d, c2) = (if fin then AtRemove d.1 else AtOutgoing, c3))
    by (cbn; now rewrite Ef).
  cbn [res_bind]. destruct fin.
  - apply (Out 5%nat). cbn [replicate]. rewrite !run_io_cons, H1, H2, H3, H4. reflexivity.
  - apply (Out 4%nat). cbn [replicate]. rewrite !run_io_cons, H1, H2, H3, H4. reflexivity.
Qed.

(** ** Replies of several frames *)

(** One body with a complete frame for a pending id at the head of the buffer
    and a working socket: the frame joins the reply, or resolves the future. *)
Lemma loop_body_frame e c id p rest r :
  send_ok e = true -> framable (id, p) -> read_buffer_ c = encode_frame id p ++ rest ->
  pending_ c !! id = Some r -> futures c !! promise r = Some Waiting ->
  exists c', loop_body e c = Ok (true, c') /\ read_buffer_ c' = rest /\
    if decide (p = END)
    then pending_ c' = delete id (pending_ c) /\
         futures c' = <[promise r := Value (frames r ++ [END])]> (futures c)
    else pending_ c' = <[id := {| promise := promise r; frames := frames r ++ [p] |}]>
                         (pending_ c) /\
         futures c' = futures c.
Proof.
  intros He Hf Hb Hr Hw. unfold loop_body.
  assert (Hdec := decode_frame_encode id p rest Hf). rewrite <- Hb in Hdec.
  unfold has_incoming_data. rewrite frame_ready_spec, Hdec. cbn [res_bind].
  unfold incoming. rewrite Hdec. cbn [res_bind fst snd]. unfold get_request.
  cbn [pending_ set_read_buffer]. rewrite Hr. cbn [res_bind].
  unfold deliver. cbn [pending_ set_read_buffer futures]. rewrite Hr.
  assert (Tail : forall c2 : connection, exists c', (if has_outgoing_data c2 then
      match pop_outgoing c2 with
      | Some (p, c3) => res_bind (send e p.1 p.2 c3) (fun c4 => Ok (true, c4))
      | None => Ok (true, c2) end else Ok (true, c2)) = Ok (true, c') /\
      read_buffer_ c' = read_buffer_ c2 /\ pending_ c' = pending_ c2 /\ futures c' = futures c2).
  { intros c2. unfold pop_outgoing, send. rewrite He. destruct (has_outgoing_data c2); [|eauto].
    destruct (outgoing_ c2); cbn; eexists; repeat split. }
  destruct (decide (p = END)) as [->|Hp].
  - rewrite (satisfy_waiting _ _ _ Hw). cbn [res_bind].
    match goal with |- context [has_outgoing_data ?c2] =>
      destruct (Tail c2) as (c' & -> & Hb' & Hp' & Hf') end.
    exists c'. rewrite Hb', Hp', Hf'. cbn. rewrite delete_insert_eq. auto.
  - cbn [res_bind].
    match goal with |- context [has_outgoing_data ?c2] =>
      destruct (Tail c2) as (c' & -> & Hb' & Hp' & Hf') end.
    exists c'. rewrite Hb', Hp', Hf'. auto.
Qed.

Fixpoint run_bodies (es : list env) (c : connection) : res exn connection :=
  match es with
  | [] => Ok c
  | e :: es => (let? (_, c') := loop_body e c in run_bodies es c')%res
  end.

Lemma run_bodies_app es es' c c' :
  run_bodies es c = Ok c' -> run_bodies (es ++ es') c = run_bodies es' c'.
Proof.
  revert c. induction es as [|e es IH]; intros c; cbn; [congruence|].
  intros ([w c1] & E & E')%res_bind_ok. rewrite E. cbn. now apply IH.
Qed.

Lemma run_bodies_micro es c :
  exists n, match run_bodies es c with
  | Ok c' => run_io n (AtTop, c) = (AtTop, c')
  | Throw x => (run_io n (AtTop, c)).1 = Terminated x
  end.
Proof.
  revert c. induction es as [|e es IH]; intros c; [now exists []|]. cbn [run_bodies].
  destruct (loop_body_refined e c) as [n Hn].
  destruct (loop_body e c) as [[w c1]|x]; cbn [res_bind]; [|now exists (replicate n e)].
  destruct (IH c1) as [m Hm]. exists (replicate n e ++ m). unfold run_io in *.
  rewrite fold_left_app, Hn. exact Hm.
Qed.

(** The turns of [process_connections] on a connection are refined by the
    micro-steps that other threads can interleave with: every sequence of
    loop bodies, whether it returns or ends in an exception, is an execution
    of the step relation. *)
Theorem run_bodies_refined es c :
  exists s, rtc step (AtTop, c) s /\
    match run_bodies es c with
    | Ok c' => s = (AtTop, c')
    | Throw x => s.1 = Terminated x
    end.
Proof.
  destruct (run_bodies_micro es c) as [n Hn]. exists (run_io n (AtTop, c)). split; [|exact Hn].
  clear Hn. generalize (AtTop, c). induction n as [|e n IH]; intros s; [done|].
  eapply rtc_l; [apply (StepIo s e)|apply IH].
Qed.

(** A pending request whose reply frames arrive, whatever else is queued
    for sending meanwhile, has its future resolved with exactly these frames
    in order, the end mark last, and leaves the table of pending requests. *)
Lemma reply_resolves_future id r ps rest es c :
  read_buffer_ c = frame_stream (map (fun p => (id, p)) ps ++ [(id, END)]) ++ rest ->
  Forall (fun p => framable (id, p) /\ p <> END) ps -> 0 <= id < 2 ^ 32 ->
  pending_ c !! id = Some r -> futures c !! promise r = Some Waiting ->
  length es = S (length ps) -> Forall (fun e => send_ok e = true) es ->
  exists c', run_bodies es c = Ok c' /\ read_buffer_ c' = rest /\
    pending_ c' = delete id (pending_ c) /\
    futures c' = <[promise r := Value (frames r ++ ps ++ [END])]> (futures c).
Proof.
  revert r es c. induction ps as [|p ps IH]; intros r es c Hb Hps Hid Hr Hw Hl Hes;
    (destruct es as [|e es]; [discriminate|]); inversion Hes as [|? ? He Hes']; subst;
    injection Hl as Hl.
  - destruct es; [|discriminate]. cbn [map app] in Hb.
    rewrite frame_stream_cons, app_nil_r in Hb.
    destruct (loop_body_frame e c id END rest r) as (c' & E & H1 & H2); try done.
    rewrite decide_True in H2 by done. destruct H2 as [H2 H3].
    exists c'. cbn [run_bodies]. rewrite E. auto.
  - inversion Hps as [|? ? [Hf Hne] Hps']; subst. cbn [map app] in Hb.
    rewrite frame_stream_cons, <- app_assoc in Hb.
    destruct (loop_body_frame e c id p _ r He Hf Hb Hr Hw) as (c1 & E & H1 & H2).
    rewrite decide_False in H2 by done. destruct H2 as [H2 H3].
    destruct (IH {| promise := promise r; frames := frames r ++ [p] |} es c1 H1 Hps' Hid)
      as (c' & E' & Hb' & Hp' & Hf'); try done.
    { rewrite H2. apply lookup_insert_eq. }
    { cbn. now rewrite H3. }
    exists c'. cbn [run_bodies]. rewrite E. cbn [res_bind]. rewrite E'.
    rewrite Hp', H2, Hf', H3. cbn. rewrite <- app_assoc, delete_insert_eq. auto.
Qed.

(** ** [send_request] *)

(** On an open connection whose next id is free, a request gets a new
    waiting future, is queued under that id at the end of the queue, and the
    id counter moves on modulo 2^32. *)
Theorem send_request_fresh payload c :
  closed_ c = false -> pending_ c !! next_id_ c = None ->
  exists c', send_request payload c = (c', Ok (length (futures c))) /\
    futures c' !! length (futures c) = Some Waiting /\
    has_handle c' (next_id_ c) (length (futures c)) /\
    outgoing_ c' = outgoing_ c ++ [(next_id_ c, payload)] /\
    next_id_ c' = (next_id_ c + 1) mod 2 ^ 32 /\ wire c' = wire c.
Proof.
  intros Hc Hn. unfold send_request. rewrite Hc. cbn. rewrite Hn.
  eexists. split; [reflexivity|]. cbn. repeat split.
  - now rewrite lookup_app_r, Nat.sub_diag by lia.
  - eexists. cbn. rewrite lookup_insert_eq. now split.
Qed.

(** When the id counter has wrapped onto a request still pending,
    [get_future] throws, yet the packet has already been queued: it will be
    sent although nobody holds a future for it. *)
Theorem send_request_reused_id payload c r :
  closed_ c = false -> pending_ c !! next_id_ c = Some r ->
  exists c', send_request payload c = (c', Throw (future_error "future_already_retrieved")) /\
    outgoing_ c' = outgoing_ c ++ [(next_id_ c, payload)] /\ futures c' = futures c.
Proof. intros Hc Hn. unfold send_request. rewrite Hc. cbn. rewrite Hn. eauto. Qed.

(** A frame whose id is not pending (a reply that goes on after its end
    mark, or one that arrives for a request already failed) ends the I/O
    thread with [out_of_range]. *)
Theorem unknown_id_terminates e c id p rest :
  framable (id, p) -> read_buffer_ c = encode_frame id p ++ rest ->
  pending_ c !! id = None -> loop_body e c = Throw out_of_range.
Proof.
  intros Hf Hb Hn. assert (Hdec := decode_frame_encode id p rest Hf). rewrite <- Hb in Hdec.
  unfold loop_body, has_incoming_data. rewrite frame_ready_spec, Hdec. cbn [res_bind].
  unfold incoming. rewrite Hdec. cbn [res_bind fst snd]. unfold get_request.
  cbn [pending_ set_read_buffer]. now rewrite Hn.
Qed.
