(* ===== verification/PromiseServer.v ===== *)
(** * The two echo servers of the promise demo

    [Module Select] models the loop of src/src/promise_demo/promise_server.cpp
    and [Module Asio] the [session] class of promise_server_asio.cpp. Both
    answer every request frame by the request text and an END frame. *)

From S2P Require Import Prelude NetFrame PromiseClient.

(** The bytes both servers write for one request. *)
Definition reply (f : Z * bytes) : bytes := encode_frame f.1 f.2 ++ encode_frame f.1 END.

Module Select.

Record client_connection := {
  sock : Z;
  read_buffer : bytes;
  number : Z;                 (* the "(client n)" of the description *)
  sent : list bytes;          (* the strings given to [send_all], in order *)
}.

Record state := { connections : list client_connection; client_count : Z }.

(** What [::select], [::accept] and [::recv] answer in one turn. *)
Record env := {
  listener_ready : bool;
  accepted : option Z;                       (* [None] is invalid_socket *)
  ready : Z -> bool;                         (* FD_ISSET(sock, &readable) *)
  received : Z -> Z * bytes;
}.

Definition accept_client (e : env) (st : state) : state :=
  if listener_ready e then
    match accepted e with
    | Some s =>
      {| connections := connections st ++
           [{| sock := s; read_buffer := []; number := client_count st + 1; sent := [] |}];
         client_count := client_count st + 1 |}
    | None => st
    end
  else st.

(** The body of the loop over the connections: [Some None] when the client
    is dropped, [None] when the decoding loop is out of fuel. *)
Definition serve (fuel : nat) (e : env) (c : client_connection)
    : option (option client_connection) :=
  let '(n, b, _) :=
    if ready e (sock c)
    then recv_some (fun (_ : unit) _ => (received e (sock c), tt)) tt (read_buffer c)
    else (1, read_buffer c, tt) in
  if n <=? 0 then Some None else
  match decode_frames fuel b with
  | None => None
  | Some (fs, tail) =>
    Some (Some {| sock := sock c; read_buffer := tail; number := number c;
      sent := sent c ++ concat (map (fun f => [encode_frame f.1 f.2; encode_frame f.1 END]) fs) |})
  end.

Fixpoint serve_all (fuel : nat) (e : env) (cs : list client_connection)
    : option (list client_connection) :=
  match cs with
  | [] => Some []
  | c :: cs =>
    match serve fuel e c, serve_all fuel e cs with
    | Some (Some c'), Some cs' => Some (c' :: cs')
    | Some None, Some cs' => Some cs'
    | _, _ => None
    end
  end.

(** One turn of [while (true)]. *)
Definition turn (fuel : nat) (e : env) (st : state) : option state :=
  let st1 := accept_client e st in
  match serve_all fuel e (connections st1) with
  | Some cs => Some {| connections := cs; client_count := client_count st1 |}
  | None => None
  end.

(** One readable connection fed chunk after chunk. *)
Definition chunk_env (d : bytes) : env :=
  {| listener_ready := false; accepted := None; ready := fun _ => true;
     received := fun _ => (len d, d) |}.

Fixpoint feed (fuel : nat) (chunks : list bytes) (c : client_connection)
    : option client_connection :=
  match chunks with
  | [] => Some c
  | d :: chunks =>
    match serve fuel (chunk_env d) c with
    | Some (Some c') => feed fuel chunks c'
    | _ => None
    end
  end.
End Select.

Module Asio.

Record session := {
  read_buffer_ : bytes;
  write_queue_ : list bytes;
  socket_open : bool;
  reading : bool;             (* an async_read_some is pending *)
  writing : nat;              (* how many async_writes are in flight *)
  sent : list bytes;          (* the writes that completed, in order *)
}.

Definition initial : session :=
  {| read_buffer_ := []; write_queue_ := []; socket_open := true; reading := false;
     writing := 0; sent := [] |}.

Definition do_read (s : session) : session :=
  {| read_buffer_ := read_buffer_ s; write_queue_ := write_queue_ s;
     socket_open := socket_open s; reading := true; writing := writing s; sent := sent s |}.

Definition start (s : session) : session := do_read s.

(** Starts the async_write of the front of the queue. *)
Definition do_write (s : session) : session :=
  {| read_buffer_ := read_buffer_ s; write_queue_ := write_queue_ s;
     socket_open := socket_open s; reading := reading s; writing := S (writing s);
     sent := sent s |}.

Definition queue_write (data : bytes) (s : session) : session :=
  let idle := match write_queue_ s with [] => true | _ => false end in
  let s1 := {| read_buffer_ := read_buffer_ s; write_queue_ := write_queue_ s ++ [data];
               socket_open := socket_open s; reading := reading s; writing := writing s;
               sent := sent s |} in
  if idle then do_write s1 else s1.

(** The handler of async_read_some: [None] for the chunk is an error code.
    [None] as a result is the decoding loop out of fuel. *)
Definition on_read (fuel : nat) (chunk : option bytes) (s : session) : option session :=
  let s0 := {| read_buffer_ := read_buffer_ s; write_queue_ := write_queue_ s;
               socket_open := socket_open s; reading := false; writing := writing s;
               sent := sent s |} in
  match chunk with
  | None => Some s0
  | Some d =>
    match decode_frames fuel (read_buffer_ s ++ d) with
    | None => None
    | Some (fs, tail) =>
      let s1 := {| read_buffer_ := tail; write_queue_ := write_queue_ s;
                   socket_open := socket_open s; reading := false; writing := writing s;
                   sent := sent s |} in
      Some (do_read (fold_left (fun s f => queue_write (reply f) s) fs s1))
    end
  end.

(** The handler of async_write, [ok] when there is no error code. *)
Definition on_write (ok : bool) (s : session) : session :=
  if ok then
    let s1 := {| read_buffer_ := read_buffer_ s; write_queue_ := tail (write_queue_ s);
                 socket_open := socket_open s; reading := reading s;
                 writing := pred (writing s);
                 sent := sent s ++ take 1 (write_queue_ s) |} in
    match write_queue_ s1 with [] => s1 | _ => do_write s1 end
  else
    {| read_buffer_ := read_buffer_ s; write_queue_ := write_queue_ s; socket_open := false;
       reading := reading s; writing := pred (writing s); sent := sent s |}.

(** The strand runs one handler at a time, of an operation that is pending;
    a read can only bring data while the socket is open. *)
Inductive step : session -> session -> Prop :=
| StepRead fuel d s s' :
    reading s = true -> (d <> None -> socket_open s = true) ->
    on_read fuel d s = Some s' -> step s s'
| StepWrite ok s :
    (0 < writing s)%nat -> (ok = true -> socket_open s = true) -> step s (on_write ok s).

Definition reachable (s : session) : Prop := rtc step (start initial) s.

(** The session object is destroyed when no operation holds it. *)
Definition alive (s : session) : bool := reading s || (0 <? Z.of_nat (writing s)).

Fixpoint feed (fuel : nat) (chunks : list bytes) (s : session) : option session :=
  match chunks with
  | [] => Some s
  | d :: chunks =>
    match on_read fuel (Some d) s with Some s' => feed fuel chunks s' | None => None end
  end.
End Asio.

(** ** Properties of the select server *)

Lemma recv_chunk (d b : bytes) :
  d <> [] -> recv_some (fun (_ : unit) _ => ((len d, d), tt)) tt b = (len d, b ++ d, tt).
Proof.
  intros Hd. unfold recv_some. assert (0 < len d) by (destruct d; [done|len_lia]).
  destruct (Z.ltb_spec 0 (len d)); [|lia]. unfold len. now rewrite Nat2Z.id, firstn_all.
Qed.

Definition echoes (fs : list (Z * bytes)) : list bytes :=
  concat (map (fun f => [encode_frame f.1 f.2; encode_frame f.1 END]) fs).

Lemma echoes_app fs gs : echoes (fs ++ gs) = echoes fs ++ echoes gs.
Proof. unfold echoes. now rewrite map_app, concat_app. Qed.

(** The invariant of a connection fed with part of a stream: what is left in
    its buffer, followed by what is still to come, is the rest of the stream. *)
Lemma select_feed_gen fuel chunks fs c :
  Forall framable fs -> Forall (fun d => d <> []) chunks -> (length fs < fuel)%nat ->
  Select.read_buffer c ++ concat chunks = frame_stream fs ->
  (chunks = [] -> fs = []) ->
  exists c', Select.feed fuel chunks c = Some c' /\ Select.read_buffer c' = [] /\
    Select.sent c' = Select.sent c ++ echoes fs.
Proof.
  revert fs c. induction chunks as [|d chunks IH]; intros fs c Hf Hne Hfuel E Hnil.
  - rewrite (Hnil eq_refl) in *. cbn in E. rewrite app_nil_r in E.
    exists c. cbn. rewrite app_nil_r. auto.
  - inversion Hne as [|? ? Hd Hne']; subst. cbn [concat] in E. rewrite app_assoc in E.
    destruct (decode_frames_stream fs _ _ fuel Hf E Hfuel)
      as (fs1 & fs2 & tl & -> & Hdec & Htl & Hend).
    cbn [Select.feed]. unfold Select.serve, Select.chunk_env. cbn [Select.ready Select.received].
    rewrite recv_chunk by done.
    assert (0 < len d) by (destruct d; [done|len_lia]).
    destruct (Z.leb_spec (len d) 0); [lia|]. rewrite Hdec.
    apply Forall_app in Hf as [Hf1 Hf2]. rewrite length_app in Hfuel.
    match goal with |- context [Select.feed fuel chunks ?c1] =>
      destruct (IH fs2 c1) as (c' & E1 & E2 & E3); cbn; try done; [lia|..] end.
    { intros ->. destruct (Hend eq_refl). done. }
    exists c'. split; [done|]. split; [done|].
    rewrite E3. cbn. now rewrite <- app_assoc, echoes_app.
Qed.

Lemma no_chunks_no_frames (chunks : list bytes) fs :
  concat chunks = frame_stream fs -> chunks = [] -> fs = [].
Proof.
  intros E ->. destruct fs as [|f fs]; [done|]. exfalso.
  assert (H0 : len (frame_stream (f :: fs)) = 0) by (rewrite <- E; reflexivity).
  rewrite frame_stream_cons, len_app, len_encode_frame in H0.
  pose proof (len_nonneg f.2); pose proof (len_nonneg (frame_stream fs)). lia.
Qed.

(** However the network cuts a well-formed request stream into chunks, the
    select server answers every request once, in order, by its text and END,
    and ends with an empty buffer. *)
Theorem select_server_echoes fuel chunks fs c :
  Forall framable fs -> Forall (fun d => d <> []) chunks -> (length fs < fuel)%nat ->
  Select.read_buffer c = [] -> concat chunks = frame_stream fs ->
  exists c', Select.feed fuel chunks c = Some c' /\ Select.read_buffer c' = [] /\
    Select.sent c' = Select.sent c ++ echoes fs.
Proof.
  intros Hf Hne Hfuel Hb E. apply select_feed_gen; try done.
  - now rewrite Hb, E.
  - now apply no_chunks_no_frames.
Qed.

(** One request header whose length field is 2^32 - 8 makes the decoding
    loop of either server run forever: [8 + length] wraps to zero, so the
    "frame" is complete and nothing is removed from the buffer. *)
Theorem wrapped_length_never_ends fuel b :
  8 <= len b -> get_u32 b 4 = 2 ^ 32 - 8 -> decode_frames fuel b = None.
Proof.
  intros Hl Hg. induction fuel as [|fuel IH]; [done|]. cbn [decode_frames].
  now rewrite (decode_wrapped_header b Hl Hg), IH.
Qed.

(** ** Properties of the Asio session *)

(** While the socket is open, exactly one write is in flight when there is
    something to send, and none otherwise. *)
Definition session_ok (s : Asio.session) : Prop :=
  (Asio.writing s <= 1)%nat /\
  (Asio.socket_open s = true ->
   Asio.writing s = match Asio.write_queue_ s with [] => 0%nat | _ => 1%nat end) /\
  (Asio.write_queue_ s = [] -> Asio.writing s = 0%nat).

Lemma queue_write_ok d s :
  session_ok s -> session_ok (Asio.queue_write d s) /\
  Asio.write_queue_ (Asio.queue_write d s) = Asio.write_queue_ s ++ [d] /\
  Asio.sent (Asio.queue_write d s) = Asio.sent s /\
  Asio.read_buffer_ (Asio.queue_write d s) = Asio.read_buffer_ s.
Proof.
  intros (H1 & H2 & H3). unfold Asio.queue_write.
  destruct (Asio.write_queue_ s) as [|x q] eqn:Eq.
  - specialize (H3 eq_refl). unfold session_ok. cbn. rewrite H3, ?Eq.
    repeat split; lia || done.
  - unfold session_ok. cbn. rewrite ?Eq. repeat split; try done.
Qed.

Lemma queue_replies_ok fs s :
  session_ok s -> let s' := fold_left (fun s f => Asio.queue_write (reply f) s) fs s in
  session_ok s' /\ Asio.write_queue_ s' = Asio.write_queue_ s ++ map reply fs /\
  Asio.sent s' = Asio.sent s /\ Asio.read_buffer_ s' = Asio.read_buffer_ s.
Proof.
  revert s. induction fs as [|f fs IH]; intros s Hs; cbn.
  - now rewrite app_nil_r.
  - destruct (queue_write_ok (reply f) s Hs) as (Ok1 & Q & S1 & B).
    destruct (IH _ Ok1) as (Ok2 & Q2 & S2 & B2). cbn in *.
    rewrite Q2, Q, S2, S1, B2, B, <- app_assoc. auto.
Qed.

Lemma session_ok_do_read s : session_ok s -> session_ok (Asio.do_read s).
Proof. done. Qed.

(** In every state the strand's handlers can reach, at most one
    async_write is in flight, and while the socket is open one is in flight
    exactly when the queue is not empty: replies never interleave, and none
    is forgotten. *)
Theorem asio_one_write_in_flight s : Asio.reachable s -> session_ok s.
Proof.
  intros H. unfold Asio.reachable in H.
  assert (G : forall a b, Asio.step a b -> session_ok a -> session_ok b).
  { intros a b [fuel d s0 s1 Hr Ho E|ok s0 Hw Ho] Hs.
    - unfold Asio.on_read in E. destruct d as [d|]; [|now injection E as <-].
      destruct (decode_frames _ _) as [[fs tl]|]; [|discriminate]. injection E as <-.
      apply session_ok_do_read, queue_replies_ok. exact Hs.
    - destruct Hs as (H1 & H2 & H3). unfold Asio.on_write. destruct ok.
      + specialize (H2 (Ho eq_refl)). cbn [Asio.write_queue_].
        destruct (Asio.write_queue_ s0) as [|x [|y q]]; cbn in *; [lia| |];
          rewrite H2; repeat split; cbn; lia || done.
      + unfold session_ok; cbn. repeat split; intros; lia || done. }
  revert H. apply (rtc_ind_r session_ok); [unfold session_ok; cbn; repeat split; lia || done|]. intros a b _ Hab. now apply G.
Qed.

Lemma asio_feed_gen fuel chunks fs s :
  Forall framable fs -> (length fs < fuel)%nat -> session_ok s ->
  Asio.read_buffer_ s ++ concat chunks = frame_stream fs -> (chunks = [] -> fs = []) ->
  exists s', Asio.feed fuel chunks s = Some s' /\ Asio.read_buffer_ s' = [] /\
    Asio.sent s' = Asio.sent s /\ Asio.write_queue_ s' = Asio.write_queue_ s ++ map reply fs.
Proof.
  revert fs s. induction chunks as [|d chunks IH]; intros fs s Hf Hfuel Hs E Hnil.
  - rewrite (Hnil eq_refl) in *. cbn in E. rewrite app_nil_r in E.
    exists s. cbn. rewrite app_nil_r. auto.
  - cbn [concat] in E. rewrite app_assoc in E.
    destruct (decode_frames_stream fs _ _ fuel Hf E Hfuel)
      as (fs1 & fs2 & tl & -> & Hdec & Htl & Hend).
    cbn [Asio.feed]. unfold Asio.on_read. rewrite Hdec.
    apply Forall_app in Hf as [Hf1 Hf2]. rewrite length_app in Hfuel.
    match goal with |- context [fold_left ?g fs1 ?s1] =>
      destruct (queue_replies_ok fs1 s1 Hs) as (Ok1 & Q & S1 & B) end.
    cbn in Q, S1, B.
    match goal with |- context [Asio.feed fuel chunks ?s2] =>
      destruct (IH fs2 s2) as (s' & E1 & E2 & E3 & E4) end; try done; [lia| | |].
    { cbn. now rewrite B. }
    { intros ->. now destruct (Hend eq_refl). }
    exists s'. split; [done|]. split; [done|]. cbn in E3, E4.
    rewrite E3, E4, S1, Q, map_app, app_assoc. auto.
Qed.

Lemma concat_echoes fs : concat (echoes fs) = concat (map reply fs).
Proof.
  induction fs as [|f fs IH]; [done|].
  change (echoes (f :: fs)) with ([encode_frame f.1 f.2; encode_frame f.1 END] ++ echoes fs).
  rewrite concat_app, IH. cbn [map concat]. unfold reply. now rewrite app_nil_r.
Qed.

(** C37. The two servers are equivalent on the wire: fed the same well-formed
    request stream, cut into chunks in any two ways, the bytes the Asio session
    has queued or sent are the bytes the select server has sent. *)
Theorem servers_equivalent fuel chunks chunks' fs c :
  Forall framable fs -> (length fs < fuel)%nat ->
  Forall (fun d => d <> []) chunks ->
  concat chunks = frame_stream fs -> concat chunks' = frame_stream fs ->
  Select.read_buffer c = [] -> Select.sent c = [] ->
  exists c' s', Select.feed fuel chunks c = Some c' /\
    Asio.feed fuel chunks' (Asio.start Asio.initial) = Some s' /\
    concat (Select.sent c') = concat (Asio.sent s' ++ Asio.write_queue_ s').
Proof.
  intros Hf Hfuel Hne E E' Hb Hs.
  destruct (select_feed_gen fuel chunks fs c) as (c' & E1 & _ & E3); try done.
  { now rewrite Hb. }
  { now apply no_chunks_no_frames. }
  destruct (asio_feed_gen fuel chunks' fs (Asio.start Asio.initial)) as (s' & F1 & _ & F3 & F4);
    try done.
  { unfold session_ok; cbn; repeat split; lia || done. }
  { now apply no_chunks_no_frames. }
  exists c', s'. split; [done|]. split; [done|].
  rewrite E3, F3, F4, Hs. apply concat_echoes.
Qed.

(** ** The two ends together *)

Lemma run_io_inv es s : inv s -> inv (run_io es s).
Proof. revert s. induction es as [|e es IH]; intros s Hs; [done|]. apply IH, io_step_inv, Hs. Qed.

Lemma run_bodies_inv es c c' : inv (AtTop, c) -> run_bodies es c = Ok c' -> inv (AtTop, c').
Proof.
  intros Hi E. destruct (run_bodies_micro es c) as [n Hn]. rewrite E in Hn.
  rewrite <- Hn. now apply run_io_inv.
Qed.

Lemma run_bodies_resolved es c c' h v :
  run_bodies es c = Ok c' -> futures c !! h = Some v -> v <> Waiting ->
  futures c' !! h = Some v.
Proof.
  intros E Hh Hv. destruct (run_bodies_micro es c) as [n Hn]. rewrite E in Hn.
  change (futures (AtTop, c').2 !! h = Some v). rewrite <- Hn. now apply run_io_resolved.
Qed.

(** The reply frames of a list of requests, as one stream. *)
Definition reply_stream (reqs : list (Z * bytes)) : bytes := concat (map reply reqs).

(** The table holds each request of [reqs] with no frame received yet. *)
Definition awaits (c : connection) (reqs : list (Z * bytes)) : Prop :=
  forall id p, (id, p) ∈ reqs ->
    exists r, pending_ c !! id = Some r /\ frames r = [].

(** C36. End to end: when the server's replies to the pending requests arrive
    (none of whose texts is END), the I/O thread resolves the future of every
    request with its own text followed by END, in any table of pending
    requests the client can reach. *)
Theorem echo_end_to_end reqs rest es c :
  inv (AtTop, c) -> read_buffer_ c = reply_stream reqs ++ rest ->
  Forall (fun f => framable f /\ f.2 <> END) reqs -> NoDup (map fst reqs) ->
  awaits c reqs -> length es = (2 * length reqs)%nat ->
  Forall (fun e => send_ok e = true) es ->
  exists c', run_bodies es c = Ok c' /\ read_buffer_ c' = rest /\
    forall id p r, (id, p) ∈ reqs -> pending_ c !! id = Some r ->
      futures c' !! promise r = Some (Value [p; END]).
Proof.
  revert es c. induction reqs as [|[id p] reqs IH]; intros es c Hi Hb Hf Hnd Ha Hl Hes.
  { destruct es; [|discriminate]. exists c. split; [done|]. split; [done|].
    intros ??? []%not_elem_of_nil. }
  destruct es as [|e1 [|e2 es]]; try (cbn in Hl; lia).
  inversion Hf as [|? ? [Hfr Hne] Hf']; subst. inversion Hnd as [|? ? Hnin Hnd']; subst.
  inversion Hes as [|? ? He1 Hes1]; subst. inversion Hes1 as [|? ? He2 Hes2]; subst.
  destruct (Ha id p (list_elem_of_here _ _)) as (r & Hr & Hr0).
  assert (Hw : futures c !! promise r = Some Waiting).
  { apply (inv_waiting _ Hi). exists id. split; [now exists r|discriminate]. }
  destruct (reply_resolves_future id r [p] (reply_stream reqs ++ rest) [e1; e2] c)
    as (c1 & E1 & B1 & P1 & F1); try done.
  { rewrite Hb. unfold reply_stream, reply, frame_stream. cbn [map concat app fst snd].
    now rewrite app_nil_r, <- !app_assoc. }
  { apply Forall_singleton. now split. }
  { apply Hfr. }
  { apply Forall_cons. split; [done|]. now apply Forall_singleton. }
  assert (Hother : forall id' p', (id', p') ∈ reqs -> pending_ c1 !! id' = pending_ c !! id').
  { intros id' p' Hin. rewrite P1. apply lookup_delete_ne. intros <-. apply Hnin.
    apply list_elem_of_fmap. now exists (id, p'). }
  assert (Hi1 : inv (AtTop, c1)) by (now apply (run_bodies_inv [e1; e2] c)).
  destruct (IH es c1) as (c' & E' & B' & F'); try done.
  { intros id' p' Hin. rewrite (Hother id' p' Hin). apply (Ha id' p'). now apply list_elem_of_further. }
  { cbn in Hl. lia. }
  exists c'. split; [change (e1 :: e2 :: es) with ([e1; e2] ++ es);
    now rewrite (run_bodies_app _ es c c1)|].
  split; [done|]. intros id' p' r' [[= -> ->]|Hin]%elem_of_cons Hr'.
  - rewrite Hr in Hr'. injection Hr' as <-.
    rewrite Hr0 in F1. apply (run_bodies_resolved es c1); [done| |done].
    rewrite F1. apply list_lookup_insert_eq. now apply lookup_lt_Some in Hw.
  - apply (F' id' p' r' Hin). now rewrite (Hother id' p' Hin).
Qed.

(** A request whose text is END breaks the client: the echo already ends
    its reply, and the END frame that follows carries an id that is no longer
    pending, so the I/O thread ends with [out_of_range]. *)
Theorem end_request_terminates_client :
  let c := (send_request END initial).1 in
  let e := {| readable := true; received := (len (reply (1, END)), reply (1, END));
              send_ok := true |} in
  run_bodies [e; e] c = Throw out_of_range.
Proof. reflexivity. Qed.
