(* ===== verification/PromiseRuns.v ===== *)
(** * Runs of the promise demo

    Concrete executions of the client of [PromiseClient] and the servers of
    [PromiseServer], where the hypotheses of their theorems hold. *)

From S2P Require Import Prelude NetFrame PromiseClient PromiseServer.

Definition hello : bytes := [chr 104; chr 105].

(** The client after one request. *)
Definition asked : connection := (send_request hello initial).1.

(** What the system answers: nothing to read, the peer's data, or its end. *)
Definition idle_env : env := {| readable := false; received := (0, []); send_ok := true |}.
Definition data_env (b : bytes) : env :=
  {| readable := true; received := (len b, b); send_ok := true |}.
Definition lost_env : env := {| readable := true; received := (0, []); send_ok := true |}.

Lemma asked_reachable : reachable (AtTop, asked).
Proof. apply rtc_once, (StepUser _ _ hello _ (Ok 0%nat)). reflexivity. Qed.

Lemma run_io_reachable es s : reachable s -> reachable (run_io es s).
Proof.
  revert s. induction es as [|e es IH]; intros s Hs; [done|]. apply (IH (io_step e s)).
  apply (rtc_r _ _ _ Hs), StepIo.
Qed.

(** The peer closes the connection before it answers. *)
Lemma closed_leaves_none_waiting_witness :
  closed_ (run_io [lost_env] (AtTop, asked)).2 = true /\
  length (futures (run_io [lost_env] (AtTop, asked)).2) = 1%nat /\
  futures (run_io [lost_env] (AtTop, asked)).2 !! 0%nat <> Some Waiting.
Proof.
  split; [reflexivity|]. split; [reflexivity|].
  apply (closed_leaves_none_waiting (run_io [lost_env] (AtTop, asked)).1).
  - rewrite <- surjective_pairing. apply run_io_reachable, asked_reachable.
  - reflexivity.
Defined.

(** A reply to a request never made ends the thread. *)
Definition stray : io_pc * connection :=
  run_io [data_env (encode_frame 9 hello); idle_env; idle_env] (AtTop, asked).

Lemma io_thread_exceptions_witness :
  exists e, stray.1 = Terminated e /\ e = out_of_range.
Proof.
  exists out_of_range. split; [vm_compute; reflexivity|].
  apply (io_thread_exceptions _ stray.2).
  replace (Terminated out_of_range) with stray.1 by (vm_compute; reflexivity).
  rewrite <- surjective_pairing. apply run_io_reachable, asked_reachable.
Defined.

(** The failed future keeps its error when another thread asks again. *)
Lemma resolved_future_stable_witness :
  futures (run_io [idle_env] (run_io [lost_env] (AtTop, asked))).2 !! 0%nat =
  Some (Exception (runtime_error "connection lost")).
Proof.
  apply (resolved_future_stable (run_io [lost_env] (AtTop, asked))); [apply StepIo| |discriminate].
  vm_compute. reflexivity.
Defined.

(** ** The servers *)

Definition requests : list (Z * bytes) := [(1, hello); (2, [])].

Lemma requests_framable : Forall framable requests.
Proof. repeat constructor; vm_compute; try reflexivity; congruence. Qed.

(** The stream of the two requests, cut inside the first header. *)
Definition cut : list bytes :=
  [take 3 (frame_stream requests); drop 3 (frame_stream requests)].

Definition fresh_client : Select.client_connection :=
  {| Select.sock := 4; Select.read_buffer := []; Select.number := 1; Select.sent := [] |}.

Lemma cut_chunks : Forall (fun d => d <> []) cut.
Proof. repeat constructor; discriminate. Qed.

Lemma select_server_echoes_witness :
  exists c', Select.feed 3 cut fresh_client = Some c' /\ Select.read_buffer c' = [] /\
    Select.sent c' = [encode_frame 1 hello; encode_frame 1 END; encode_frame 2 []; encode_frame 2 END].
Proof.
  apply (select_server_echoes 3 cut requests fresh_client).
  - apply requests_framable.
  - apply cut_chunks.
  - cbn. lia.
  - reflexivity.
  - reflexivity.
Defined.

Lemma servers_equivalent_witness :
  exists c' s', Select.feed 3 cut fresh_client = Some c' /\
    Asio.feed 3 [frame_stream requests] (Asio.start Asio.initial) = Some s' /\
    concat (Select.sent c') = concat (Asio.sent s' ++ Asio.write_queue_ s').
Proof.
  apply (servers_equivalent 3 cut [frame_stream requests] requests fresh_client).
  - apply requests_framable.
  - cbn. lia.
  - apply cut_chunks.
  - reflexivity.
  - reflexivity.
  - reflexivity.
  - reflexivity.
Defined.

(** A header whose length field is [2^32 - 8], at the end of its bytes. *)
Lemma wrapped_length_never_ends_witness :
  decode_frames 100 (be 4 1 ++ be 4 (2 ^ 32 - 8)) = None.
Proof. apply wrapped_length_never_ends; vm_compute; [congruence|reflexivity]. Defined.

(** The session that has read the two requests and written one reply. *)
Definition replying : Asio.session :=
  match Asio.on_read 3 (Some (frame_stream requests)) (Asio.start Asio.initial) with
  | Some s => Asio.on_write true s
  | None => Asio.initial
  end.

Lemma asio_one_write_in_flight_witness :
  session_ok replying /\ Asio.writing replying = 1%nat /\ Asio.sent replying = [reply (1, hello)].
Proof.
  split; [|split; vm_compute; reflexivity].
  apply asio_one_write_in_flight.
  eapply rtc_l; [eapply (Asio.StepRead 3 (Some (frame_stream requests)))|].
  - reflexivity.
  - reflexivity.
  - vm_compute. reflexivity.
  - eapply rtc_l; [apply (Asio.StepWrite true)|].
    + cbn. lia.
    + reflexivity.
    + replace replying with (Asio.on_write true
        (default Asio.initial (Asio.on_read 3 (Some (frame_stream requests)) (Asio.start Asio.initial))))
        by (vm_compute; reflexivity).
      vm_compute. constructor.
Defined.

(** ** Both ends *)

Definition asked_twice : connection := (send_request [] asked).1.

(** The replies to both requests arrive in one read. *)
Definition answered : connection := set_read_buffer (reply_stream requests) asked_twice.

Lemma answered_inv : inv (AtTop, answered).
Proof.
  assert (H : inv (AtTop, asked_twice)).
  { apply reachable_inv. apply (rtc_r _ _ _ asked_reachable).
    apply (StepUser _ _ [] _ (Ok 1%nat)). reflexivity. }
  destruct H. constructor; assumption.
Qed.

Lemma echo_end_to_end_witness :
  exists c', run_bodies [idle_env; idle_env; idle_env; idle_env] answered = Ok c' /\
    read_buffer_ c' = [] /\
    forall id p r, (id, p) ∈ requests -> pending_ answered !! id = Some r ->
      futures c' !! promise r = Some (Value [p; END]).
Proof.
  apply (echo_end_to_end requests []).
  - apply answered_inv.
  - vm_compute. reflexivity.
  - repeat constructor; vm_compute; try reflexivity; congruence.
  - vm_compute. repeat constructor; set_solver.
  - intros id p Hin. unfold requests in Hin.
    apply elem_of_cons in Hin as [[= -> ->]|Hin];
      [|apply list_elem_of_singleton in Hin as [= -> ->]]; eexists; split; reflexivity.
  - reflexivity.
  - repeat constructor.
Defined.
