(* ===== verification/Pack.v ===== *)
(** * The packer

    Models [class packer] of v1/pack.hpp, byte for byte, and the packing of an
    object ([adaptor::pack<object>] of v1/object.hpp). A stream is the bytes
    written so far; [append_buffer] is its [write]. Integers come as values of
    their C++ type; [chr] and [be] do the narrowing casts and the big-endian
    stores ([take8_N], [_msgpack_storeN]). *)

From S2P Require Import Prelude FloatBits MsgObject.

Definition append_buffer (o buf : bytes) : bytes := o ++ buf.

(** The lowest byte of a value: [take8_8] ... [take8_64], on either endianness. *)
Definition take8 (d : Z) : byte := chr d.

(** ** Integers, the templates [pack_imp_*] *)

Definition pack_imp_uint8 (d : Z) (o : bytes) : bytes :=
  if d <? 2 ^ 7 then append_buffer o [take8 d]
  else append_buffer o [chr 0xcc; take8 d].

Definition pack_imp_uint16 (d : Z) (o : bytes) : bytes :=
  if d <? 2 ^ 7 then append_buffer o [take8 d]
  else if d <? 2 ^ 8 then append_buffer o [chr 0xcc; take8 d]
  else append_buffer o (chr 0xcd :: be 2 d).

Definition pack_imp_uint32 (d : Z) (o : bytes) : bytes :=
  if d <? 2 ^ 8 then
    if d <? 2 ^ 7 then append_buffer o [take8 d]
    else append_buffer o [chr 0xcc; take8 d]
  else
    if d <? 2 ^ 16 then append_buffer o (chr 0xcd :: be 2 d)
    else append_buffer o (chr 0xce :: be 4 d).

Definition pack_imp_uint64 (d : Z) (o : bytes) : bytes :=
  if d <? 2 ^ 8 then
    if d <? 2 ^ 7 then append_buffer o [take8 d]
    else append_buffer o [chr 0xcc; take8 d]
  else
    if d <? 2 ^ 16 then append_buffer o (chr 0xcd :: be 2 d)
    else if d <? 2 ^ 32 then append_buffer o (chr 0xce :: be 4 d)
    else append_buffer o (chr 0xcf :: be 8 d).

Definition pack_imp_int8 (d : Z) (o : bytes) : bytes :=
  if d <? - 2 ^ 5 then append_buffer o [chr 0xd0; take8 d]
  else append_buffer o [take8 d].

Definition pack_imp_int16 (d : Z) (o : bytes) : bytes :=
  if d <? - 2 ^ 5 then
    if d <? - 2 ^ 7 then append_buffer o (chr 0xd1 :: be 2 d)
    else append_buffer o [chr 0xd0; take8 d]
  else if d <? 2 ^ 7 then append_buffer o [take8 d]
  else
    if d <? 2 ^ 8 then append_buffer o [chr 0xcc; take8 d]
    else append_buffer o (chr 0xcd :: be 2 d).

Definition pack_imp_int32 (d : Z) (o : bytes) : bytes :=
  if d <? - 2 ^ 5 then
    if d <? - 2 ^ 15 then append_buffer o (chr 0xd2 :: be 4 d)
    else if d <? - 2 ^ 7 then append_buffer o (chr 0xd1 :: be 2 d)
    else append_buffer o [chr 0xd0; take8 d]
  else if d <? 2 ^ 7 then append_buffer o [take8 d]
  else
    if d <? 2 ^ 8 then append_buffer o [chr 0xcc; take8 d]
    else if d <? 2 ^ 16 then append_buffer o (chr 0xcd :: be 2 d)
    else append_buffer o (chr 0xce :: be 4 d).

Definition pack_imp_int64 (d : Z) (o : bytes) : bytes :=
  if d <? - 2 ^ 5 then
    if d <? - 2 ^ 15 then
      if d <? - 2 ^ 31 then append_buffer o (chr 0xd3 :: be 8 d)
      else append_buffer o (chr 0xd2 :: be 4 d)
    else
      if d <? - 2 ^ 7 then append_buffer o (chr 0xd1 :: be 2 d)
      else append_buffer o [chr 0xd0; take8 d]
  else if d <? 2 ^ 7 then append_buffer o [take8 d]
  else
    if d <? 2 ^ 16 then
      if d <? 2 ^ 8 then append_buffer o [chr 0xcc; take8 d]
      else append_buffer o (chr 0xcd :: be 2 d)
    else
      if d <? 2 ^ 32 then append_buffer o (chr 0xce :: be 4 d)
      else append_buffer o (chr 0xcf :: be 8 d).

(** The public functions of fixed width. *)
Definition pack_uint8 := pack_imp_uint8.
Definition pack_uint16 := pack_imp_uint16.
Definition pack_uint32 := pack_imp_uint32.
Definition pack_uint64 := pack_imp_uint64.
Definition pack_int8 := pack_imp_int8.
Definition pack_int16 := pack_imp_int16.
Definition pack_int32 := pack_imp_int32.
Definition pack_int64 := pack_imp_int64.

Definition pack_fix_uint8 (d : Z) (o : bytes) := append_buffer o [chr 0xcc; take8 d].
Definition pack_fix_uint16 (d : Z) (o : bytes) := append_buffer o (chr 0xcd :: be 2 d).
Definition pack_fix_uint32 (d : Z) (o : bytes) := append_buffer o (chr 0xce :: be 4 d).
Definition pack_fix_uint64 (d : Z) (o : bytes) := append_buffer o (chr 0xcf :: be 8 d).
Definition pack_fix_int8 (d : Z) (o : bytes) := append_buffer o [chr 0xd0; take8 d].
Definition pack_fix_int16 (d : Z) (o : bytes) := append_buffer o (chr 0xd1 :: be 2 d).
Definition pack_fix_int32 (d : Z) (o : bytes) := append_buffer o (chr 0xd2 :: be 4 d).
Definition pack_fix_int64 (d : Z) (o : bytes) := append_buffer o (chr 0xd3 :: be 8 d).

(** ** The built-in integer types

    Their width is looked up in the build's macros: a [SIZEOF_x] macro when it
    is defined, otherwise the type's [x_MAX], otherwise [sizeof]. *)

Record int_type := {
  SIZEOF : option Z;          (* the SIZEOF_... macro, if defined *)
  MAX : option Z;             (* the ..._MAX macro, if defined *)
  sizeof : Z;
}.

Definition dispatch (t : int_type) (max16 max32 : Z)
    (p16 p32 p64 : bytes -> bytes) : bytes -> bytes :=
  match SIZEOF t with
  | Some n => if n =? 2 then p16 else if n =? 4 then p32 else p64
  | None =>
    match MAX t with
    | Some m => if m =? max16 then p16 else if m =? max32 then p32 else p64
    | None => if sizeof t =? 2 then p16 else if sizeof t =? 4 then p32 else p64
    end
  end.

Definition pack_signed (t : int_type) (d : Z) : bytes -> bytes :=
  dispatch t 0x7fff 0x7fffffff (pack_imp_int16 d) (pack_imp_int32 d) (pack_imp_int64 d).
Definition pack_unsigned (t : int_type) (d : Z) : bytes -> bytes :=
  dispatch t 0xffff 0xffffffff (pack_imp_uint16 d) (pack_imp_uint32 d) (pack_imp_uint64 d).

(** The data model of a platform. *)
Record abi := {
  CHAR_MIN : Z;
  t_short : int_type; t_int : int_type; t_long : int_type; t_long_long : int_type;
  t_ushort : int_type; t_uint : int_type; t_ulong : int_type; t_ulong_long : int_type;
}.

Definition pack_char (m : abi) (d : Z) : bytes -> bytes :=
  if CHAR_MIN m <? 0 then pack_imp_int8 d else pack_imp_uint8 d.
Definition pack_signed_char (d : Z) := pack_imp_int8 d.
Definition pack_short (m : abi) (d : Z) := pack_signed (t_short m) d.
Definition pack_int (m : abi) (d : Z) := pack_signed (t_int m) d.
Definition pack_long (m : abi) (d : Z) := pack_signed (t_long m) d.
Definition pack_long_long (m : abi) (d : Z) := pack_signed (t_long_long m) d.
Definition pack_unsigned_char (d : Z) := pack_imp_uint8 d.
Definition pack_unsigned_short (m : abi) (d : Z) := pack_unsigned (t_ushort m) d.
Definition pack_unsigned_int (m : abi) (d : Z) := pack_unsigned (t_uint m) d.
Definition pack_unsigned_long (m : abi) (d : Z) := pack_unsigned (t_ulong m) d.
Definition pack_unsigned_long_long (m : abi) (d : Z) := pack_unsigned (t_ulong_long m) d.

(** x86-64 Linux: <limits.h> defines the MAX macros, no SIZEOF macro is. *)
Definition bits (max sz : Z) : int_type := {| SIZEOF := None; MAX := Some max; sizeof := sz |}.
Definition lp64 : abi :=
  {| CHAR_MIN := -128;
     t_short := bits (2 ^ 15 - 1) 2; t_int := bits (2 ^ 31 - 1) 4;
     t_long := bits (2 ^ 63 - 1) 8; t_long_long := bits (2 ^ 63 - 1) 8;
     t_ushort := bits (2 ^ 16 - 1) 2; t_uint := bits (2 ^ 32 - 1) 4;
     t_ulong := bits (2 ^ 64 - 1) 8; t_ulong_long := bits (2 ^ 64 - 1) 8 |}.

(** ** Floats, nil, booleans *)

Definition pack_float (d : Z) (o : bytes) := append_buffer o (chr 0xca :: be 4 d).
Definition pack_double (d : Z) (o : bytes) := append_buffer o (chr 0xcb :: be 8 d).
Definition pack_nil (o : bytes) := append_buffer o [chr 0xc0].
Definition pack_true (o : bytes) := append_buffer o [chr 0xc3].
Definition pack_false (o : bytes) := append_buffer o [chr 0xc2].

(** ** Headers and bodies *)

Definition pack_array (n : Z) (o : bytes) : bytes :=
  if n <? 16 then append_buffer o [chr (Z.lor 0x90 n)]
  else if n <? 65536 then append_buffer o (chr 0xdc :: be 2 n)
  else append_buffer o (chr 0xdd :: be 4 n).

Definition pack_map (n : Z) (o : bytes) : bytes :=
  if n <? 16 then append_buffer o [chr (Z.lor 0x80 n)]
  else if n <? 65536 then append_buffer o (chr 0xde :: be 2 n)
  else append_buffer o (chr 0xdf :: be 4 n).

Definition pack_str (l : Z) (o : bytes) : bytes :=
  if l <? 32 then append_buffer o [chr (Z.lor 0xa0 l)]
  else if l <? 256 then append_buffer o [chr 0xd9; chr l]
  else if l <? 65536 then append_buffer o (chr 0xda :: be 2 l)
  else append_buffer o (chr 0xdb :: be 4 l).

Definition pack_str_body (b : bytes) (l : Z) (o : bytes) : bytes :=
  append_buffer o (take (Z.to_nat l) b).

Definition pack_v4raw (l : Z) (o : bytes) : bytes :=
  if l <? 32 then append_buffer o [chr (Z.lor 0xa0 l)]
  else if l <? 65536 then append_buffer o (chr 0xda :: be 2 l)
  else append_buffer o (chr 0xdb :: be 4 l).

Definition pack_v4raw_body (b : bytes) (l : Z) (o : bytes) : bytes :=
  append_buffer o (take (Z.to_nat l) b).

Definition pack_bin (l : Z) (o : bytes) : bytes :=
  if l <? 256 then append_buffer o [chr 0xc4; chr l]
  else if l <? 65536 then append_buffer o (chr 0xc5 :: be 2 l)
  else append_buffer o (chr 0xc6 :: be 4 l).

Definition pack_bin_body (b : bytes) (l : Z) (o : bytes) : bytes :=
  append_buffer o (take (Z.to_nat l) b).

Definition pack_ext (l : Z) (type : byte) (o : bytes) : bytes :=
  if l =? 1 then append_buffer o [chr 0xd4; type]
  else if l =? 2 then append_buffer o [chr 0xd5; type]
  else if l =? 4 then append_buffer o [chr 0xd6; type]
  else if l =? 8 then append_buffer o [chr 0xd7; type]
  else if l =? 16 then append_buffer o [chr 0xd8; type]
  else if l <? 256 then append_buffer o [chr 0xc7; chr l; type]
  else if l <? 65536 then append_buffer o (chr 0xc8 :: be 2 l ++ [type])
  else append_buffer o (chr 0xc9 :: be 4 l ++ [type]).

Definition pack_ext_body (b : bytes) (l : Z) (o : bytes) : bytes :=
  append_buffer o (take (Z.to_nat l) b).

(** ** Packing an object

    The uint32_t size fields are the lengths of the lists. *)

Definition size32 {A} (l : list A) : Z := wrap 32 (len l).

Fixpoint pack_object (v : object) (o : bytes) : bytes :=
  match v with
  | NIL => pack_nil o
  | BOOLEAN b => if b then pack_true o else pack_false o
  | POSITIVE_INTEGER u64 => pack_uint64 u64 o
  | NEGATIVE_INTEGER i64 => pack_int64 i64 o
  | FLOAT32 f64 => pack_float (narrow f64) o
  | FLOAT64 f64 => pack_double f64 o
  | STR s => pack_str_body s (size32 s) (pack_str (size32 s) o)
  | BIN s => pack_bin_body s (size32 s) (pack_bin (size32 s) o)
  | EXT t d => pack_ext_body d (size32 d) (pack_ext (size32 d) t o)
  | ARRAY l =>
    (fix go l o := match l with [] => o | x :: l => go l (pack_object x o) end)
      l (pack_array (size32 l) o)
  | MAP l =>
    (fix go l o := match l with
                   | [] => o
                   | x :: l => go l (pack_object x.2 (pack_object x.1 o))
                   end) l (pack_map (size32 l) o)
  end.

(** ** Every pack function only appends *)

Definition appends (f : bytes -> bytes) : Prop := forall o, f o = o ++ f [].

Create HintDb pack.

Ltac solve_appends :=
  intros o; cbv beta delta [append_buffer];
  repeat match goal with |- context [if ?b then _ else _] => destruct b end;
  reflexivity.

Lemma appends_imp_uint64 d : appends (pack_uint64 d).
Proof. unfold pack_uint64, pack_imp_uint64. solve_appends. Qed.
Lemma appends_imp_int64 d : appends (pack_int64 d).
Proof. unfold pack_int64, pack_imp_int64. solve_appends. Qed.
Lemma appends_float d : appends (pack_float d).
Proof. unfold pack_float. solve_appends. Qed.
Lemma appends_double d : appends (pack_double d).
Proof. unfold pack_double. solve_appends. Qed.
Lemma appends_nil : appends pack_nil.
Proof. unfold pack_nil. solve_appends. Qed.
Lemma appends_true : appends pack_true.
Proof. unfold pack_true. solve_appends. Qed.
Lemma appends_false : appends pack_false.
Proof. unfold pack_false. solve_appends. Qed.
Lemma appends_array n : appends (pack_array n).
Proof. unfold pack_array. solve_appends. Qed.
Lemma appends_map n : appends (pack_map n).
Proof. unfold pack_map. solve_appends. Qed.
Lemma appends_str n : appends (pack_str n).
Proof. unfold pack_str. solve_appends. Qed.
Lemma appends_bin n : appends (pack_bin n).
Proof. unfold pack_bin. solve_appends. Qed.
Lemma appends_ext n t : appends (pack_ext n t).
Proof. unfold pack_ext. solve_appends. Qed.
Lemma appends_body b n : appends (pack_str_body b n).
Proof. unfold pack_str_body. solve_appends. Qed.

Lemma appends_comp f g : appends f -> appends g -> appends (fun o => g (f o)).
Proof. intros Hf Hg o. rewrite Hg, (Hg (f [])), Hf. now rewrite <- app_assoc. Qed.

#[export] Hint Resolve appends_imp_uint64 appends_imp_int64 appends_float appends_double
  appends_nil appends_true appends_false appends_array appends_map appends_str appends_bin
  appends_ext appends_body : pack.

(** Packing the elements of an array, or the pairs of a map, in order. *)
Definition pack_list (l : list object) (o : bytes) : bytes :=
  fold_left (fun o x => pack_object x o) l o.
Definition pack_pairs (l : list (object * object)) (o : bytes) : bytes :=
  fold_left (fun o x => pack_object x.2 (pack_object x.1 o)) l o.

Lemma pack_object_ARRAY l o :
  pack_object (ARRAY l) o = pack_list l (pack_array (size32 l) o).
Proof.
  cbn [pack_object]. generalize (pack_array (size32 l) o). unfold pack_list.
  induction l as [|x l IH]; intros b; [done|]. apply IH.
Qed.

Lemma pack_object_MAP l o :
  pack_object (MAP l) o = pack_pairs l (pack_map (size32 l) o).
Proof.
  cbn [pack_object]. generalize (pack_map (size32 l) o). unfold pack_pairs.
  induction l as [|x l IH]; intros b; [done|]. apply IH.
Qed.

Lemma appends_list l : Forall (fun x => appends (pack_object x)) l -> appends (pack_list l).
Proof.
  induction 1 as [|x l Hx _ IH]; intros o; cbn; [now rewrite app_nil_r|].
  change (pack_list l (pack_object x o) = o ++ pack_list l (pack_object x [])).
  rewrite IH, (IH (pack_object x [])), Hx. now rewrite <- app_assoc.
Qed.

Lemma appends_pairs l :
  Forall (fun x => appends (pack_object x.1) /\ appends (pack_object x.2)) l ->
  appends (pack_pairs l).
Proof.
  induction 1 as [|x l [H1 H2] _ IH]; intros o; cbn; [now rewrite app_nil_r|].
  change (pack_pairs l (pack_object x.2 (pack_object x.1 o)) =
          o ++ pack_pairs l (pack_object x.2 (pack_object x.1 []))).
  rewrite IH, (IH (pack_object x.2 _)), H2, (H2 (pack_object x.1 [])), H1.
  now rewrite <- !app_assoc.
Qed.

Lemma appends_object v : appends (pack_object v).
Proof.
  induction v as [|b| | | | | | |l IH|l IH|] using object_ind'; try solve [cbn; auto with pack].
  - destruct b; auto with pack.
  - apply (appends_comp (pack_str _) (pack_str_body s _)); auto with pack.
  - apply (appends_comp (pack_bin _) (pack_str_body s _)); auto with pack.
  - intros o. rewrite !pack_object_ARRAY.
    apply (appends_comp (pack_array _) (pack_list l)); [auto with pack|now apply appends_list].
  - intros o. rewrite !pack_object_MAP.
    apply (appends_comp (pack_map _) (pack_pairs l)); [auto with pack|now apply appends_pairs].
  - apply (appends_comp (pack_ext _ _) (pack_str_body d _)); auto with pack.
Qed.

(** The encoding of an object, as a string of its own. *)
Definition encode (v : object) : bytes := pack_object v [].
