(* ===== verification/Fbuffer.v ===== *)
(** * The FILE buffer

    Models [fbuffer] (v1/fbuffer.hpp): output to a C stream, and what becomes of a packed
    string. A stream is the bytes written to it so far; how many more the device takes
    is a parameter. *)

From S2P Require Import Prelude Pack.

Section Fbuffer.
Context (room : bytes -> Z).

Abbreviation FILE := bytes.

Inductive exn := fwrite_failed.              (* [std::runtime_error("fwrite() failed")] *)

(** [fwrite]: the number of whole items written; none, when their size is zero. *)
Definition fwrite (buf : bytes) (size nmemb : Z) (file : FILE) : Z * FILE :=
  if (size =? 0) || (nmemb =? 0) then (0, file)
  else let n := Z.max 0 (Z.min (size * nmemb) (room file)) in
       (n / size, file ++ take (Z.to_nat n) buf).

(** [len] is an unsigned int. *)
Definition write (buf : bytes) (file : FILE) : res exn unit * FILE :=
  let '(n, file) := fwrite buf (wrap 32 (len buf)) 1 file in
  (if negb (1 =? n) then Throw fwrite_failed else Ok tt, file).

Fixpoint write_all (bufs : list bytes) (file : FILE) : res exn unit * FILE :=
  match bufs with
  | [] => (Ok tt, file)
  | b :: bufs => match write b file with
                 | (Ok _, file) => write_all bufs file
                 | (Throw e, file) => (Throw e, file)
                 end
  end.

(** What packing a string passes to [write]: the two calls of [append_buffer]. *)
Definition string_writes (s : bytes) : list bytes :=
  [pack_str (len s) []; pack_str_body s (len s) []].

Lemma fbuffer_write_ok b file : 0 < len b < 2 ^ 32 -> len b <= room file -> write b file = (Ok tt, file ++ b).
Proof.
  intros Hb Hr. unfold write, fwrite. rewrite wrap_small by lia.
  destruct (Z.eqb_spec (len b) 0); [lia|]. simpl (_ || _). cbv iota.
  replace (Z.max 0 (Z.min (len b * 1) (room file))) with (len b) by lia.
  rewrite Z.div_same by lia. simpl. unfold len. by rewrite Nat2Z.id, firstn_all.
Qed.

(** The device is full: an exception, and part of the data may have been written. *)
Lemma write_full b file : 0 < len b < 2 ^ 32 -> room file < len b ->
  exists d, write b file = (Throw fwrite_failed, file ++ d) /\ d `prefix_of` b.
Proof.
  intros Hb Hr. unfold write, fwrite. rewrite wrap_small by lia.
  destruct (Z.eqb_spec (len b) 0); [lia|]. simpl (_ || _). cbv iota.
  set (k := Z.max 0 _). assert (0 <= k < len b) by lia. rewrite Z.div_small by lia.
  eexists. split; [done|]. exists (drop (Z.to_nat k) b). by rewrite take_drop.
Qed.

Lemma write_nothing file : write [] file = (Throw fwrite_failed, file).
Proof. done. Qed.

(** A string that is not empty is written whole. The empty one throws: after its header,
    [fwrite] is asked for an item of no bytes, and returns 0. *)
Theorem string_to_file s file :
  len s < 2 ^ 32 -> (forall f, len file <= len f -> len file + len s + 5 - len f <= room f) ->
  write_all (string_writes s) file =
  if bool_decide (s = []) then (Throw fwrite_failed, file ++ [chr 0xa0])
  else (Ok tt, file ++ pack_str_body s (len s) (pack_str (len s) [])).
Proof.
  intros Hs Hr. pose proof (len_nonneg s).
  assert (Hh : 0 < len (pack_str (len s) []) <= 5).
  { unfold pack_str, append_buffer. repeat case_match; vm_compute; split; congruence. }
  assert (Eb : pack_str_body s (len s) [] = s).
  { unfold pack_str_body, append_buffer, len. by rewrite Nat2Z.id, firstn_all. }
  unfold string_writes. rewrite Eb. cbn [write_all].
  rewrite fbuffer_write_ok; [|lia|specialize (Hr file); lia]. case_bool_decide as E.
  - subst s. rewrite write_nothing. done.
  - rewrite fbuffer_write_ok.
    + rewrite (appends_body s (len s) (pack_str (len s) [])), Eb, app_assoc. done.
    + destruct s; [done|]. rewrite len_cons in *. pose proof (len_nonneg s). lia.
    + specialize (Hr (file ++ pack_str (len s) [])). rewrite len_app in Hr. lia.
Qed.
End Fbuffer.
