(* ===== verification/Parse.v ===== *)
(** * The streaming parser

    Models [detail::context] of v2/parse.hpp, which is generic in the visitor it
    drives ([Class Visitor]), with [parse_helper], [parse_imp] and [parse]. The
    input is the bytes [data[0..len)]; pointers into it are offsets. One turn of
    the [do ... while] of [execute] is [exec_iter]; [execute] runs it with
    fuel, which [execute_total] (ParseLoop) shows to be always enough. *)

From S2P Require Import Prelude.

(** ** Enumerations *)

Inductive parse_return :=
| PARSE_SUCCESS | PARSE_EXTRA_BYTES | PARSE_CONTINUE | PARSE_PARSE_ERROR | PARSE_STOP_VISITOR.

(** [msgpack_unpack_state]; the values 1, 2 and 3 have no name. *)
Inductive unpack_state :=
| CS_HEADER | CS_UNNAMED (n : Z)
| CS_BIN_8 | CS_BIN_16 | CS_BIN_32 | CS_EXT_8 | CS_EXT_16 | CS_EXT_32
| CS_FLOAT | CS_DOUBLE
| CS_UINT_8 | CS_UINT_16 | CS_UINT_32 | CS_UINT_64
| CS_INT_8 | CS_INT_16 | CS_INT_32 | CS_INT_64
| CS_FIXEXT_1 | CS_FIXEXT_2 | CS_FIXEXT_4 | CS_FIXEXT_8 | CS_FIXEXT_16
| CS_STR_8 | CS_STR_16 | CS_STR_32
| CS_ARRAY_16 | CS_ARRAY_32 | CS_MAP_16 | CS_MAP_32
| ACS_STR_VALUE | ACS_BIN_VALUE | ACS_EXT_VALUE.

Definition is_header (c : unpack_state) : bool :=
  match c with CS_HEADER => true | _ => false end.

Definition unpack_state_of (n : Z) : unpack_state :=
  match n with
  | 0x00 => CS_HEADER
  | 0x04 => CS_BIN_8 | 0x05 => CS_BIN_16 | 0x06 => CS_BIN_32
  | 0x07 => CS_EXT_8 | 0x08 => CS_EXT_16 | 0x09 => CS_EXT_32
  | 0x0a => CS_FLOAT | 0x0b => CS_DOUBLE
  | 0x0c => CS_UINT_8 | 0x0d => CS_UINT_16 | 0x0e => CS_UINT_32 | 0x0f => CS_UINT_64
  | 0x10 => CS_INT_8 | 0x11 => CS_INT_16 | 0x12 => CS_INT_32 | 0x13 => CS_INT_64
  | 0x14 => CS_FIXEXT_1 | 0x15 => CS_FIXEXT_2 | 0x16 => CS_FIXEXT_4 | 0x17 => CS_FIXEXT_8
  | 0x18 => CS_FIXEXT_16
  | 0x19 => CS_STR_8 | 0x1a => CS_STR_16 | 0x1b => CS_STR_32
  | 0x1c => CS_ARRAY_16 | 0x1d => CS_ARRAY_32 | 0x1e => CS_MAP_16 | 0x1f => CS_MAP_32
  | _ => CS_UNNAMED n
  end.

Inductive container_type := CT_ARRAY_ITEM | CT_MAP_KEY | CT_MAP_VALUE.

Record stack_elem := { m_type : container_type; m_rest : Z }.

(** ** The visitor interface

    Each call returns the visitor's bool and its next state, or throws. A
    [const char*] argument is the bytes it points at, the size is passed
    separately as in the source. *)

Class Visitor (V E : Type) := {
  visit_nil : V -> res E (bool * V);
  visit_boolean : bool -> V -> res E (bool * V);
  visit_positive_integer : Z -> V -> res E (bool * V);
  visit_negative_integer : Z -> V -> res E (bool * V);
  visit_float32 : Z -> V -> res E (bool * V);
  visit_float64 : Z -> V -> res E (bool * V);
  visit_str : bytes -> Z -> V -> res E (bool * V);
  visit_bin : bytes -> Z -> V -> res E (bool * V);
  visit_ext : bytes -> Z -> V -> res E (bool * V);
  start_array : Z -> V -> res E (bool * V);
  start_array_item : V -> res E (bool * V);
  end_array_item : V -> res E (bool * V);
  end_array : V -> res E (bool * V);
  start_map : Z -> V -> res E (bool * V);
  start_map_key : V -> res E (bool * V);
  end_map_key : V -> res E (bool * V);
  start_map_value : V -> res E (bool * V);
  end_map_value : V -> res E (bool * V);
  end_map : V -> res E (bool * V);
  parse_error : Z -> Z -> V -> res E V;
  insufficient_bytes : Z -> Z -> V -> res E V;
  visitor_init : V -> V;
}.

Section Context.
Context {V E : Type} `{VI : !Visitor V E}.

(** [detail::context]; [holder] is the visitor. *)
Record context := {
  m_trail : Z;
  m_cs : unpack_state;
  m_stack : list stack_elem;     (* back first *)
  holder : V;
}.

Definition new_context (v : V) : context :=
  {| m_trail := 0; m_cs := CS_HEADER; m_stack := []; holder := v |}.

Definition init (c : context) : context :=
  {| m_trail := 0; m_cs := CS_HEADER; m_stack := []; holder := visitor_init (holder c) |}.

(** ** [unpack_stack]

    The result of a sequence of visitor calls: what is returned or thrown, the
    stack and the visitor at that point. *)

Definition stack_result : Type := res E parse_return * list stack_elem * V.

Definition call (m : res E (bool * V)) (st : list stack_elem) (v : V)
    (k : V -> stack_result) : stack_result :=
  match m with
  | Throw e => (Throw e, st, v)
  | Ok (true, v') => k v'
  | Ok (false, v') => (Ok PARSE_STOP_VISITOR, st, v')
  end.

Definition push (st : list stack_elem) (type : container_type) (rest : Z) (v : V)
    : stack_result :=
  let st := {| m_type := type; m_rest := rest |} :: st in
  match type with
  | CT_ARRAY_ITEM => call (start_array_item v) st v (fun v => (Ok PARSE_CONTINUE, st, v))
  | CT_MAP_KEY => call (start_map_key v) st v (fun v => (Ok PARSE_CONTINUE, st, v))
  | CT_MAP_VALUE => (Ok PARSE_STOP_VISITOR, st, v)
  end.

Fixpoint consume (st : list stack_elem) (v : V) : stack_result :=
  match st with
  | [] => (Ok PARSE_SUCCESS, [], v)
  | e :: below =>
    match m_type e with
    | CT_ARRAY_ITEM =>
      call (end_array_item v) st v (fun v =>
      let rest := wrap 32 (m_rest e - 1) in
      let st := {| m_type := CT_ARRAY_ITEM; m_rest := rest |} :: below in
      if rest =? 0 then call (end_array v) below v (fun v => consume below v)
      else call (start_array_item v) st v (fun v => (Ok PARSE_CONTINUE, st, v)))
    | CT_MAP_KEY =>
      call (end_map_key v) st v (fun v =>
      call (start_map_value v) st v (fun v =>
      (Ok PARSE_CONTINUE, {| m_type := CT_MAP_VALUE; m_rest := m_rest e |} :: below, v)))
    | CT_MAP_VALUE =>
      call (end_map_value v) st v (fun v =>
      let rest := wrap 32 (m_rest e - 1) in
      let st := {| m_type := CT_MAP_KEY; m_rest := rest |} :: below in
      if rest =? 0 then
        call (end_map v) below v (fun v => consume below v)
      else call (start_map_key v) st v (fun v => (Ok PARSE_CONTINUE, st, v)))
    end
  end.

(** ** The loop of [execute] *)

Record loop := {
  ctx : context;
  m_current : Z;
  fixed_trail_again : bool;
}.

(** What a piece of the loop body does: go on, return from [execute] with the
    offset it stores, or let an exception out. *)
Inductive flow :=
| Go (l : loop)
| Ret (r : parse_return) (off : Z) (c : context)
| Exc (e : E) (c : context).

Definition set_ctx (c : context) (l : loop) : loop :=
  {| ctx := c; m_current := m_current l; fixed_trail_again := fixed_trail_again l |}.
Definition set_current (p : Z) (l : loop) : loop :=
  {| ctx := ctx l; m_current := p; fixed_trail_again := fixed_trail_again l |}.
Definition set_again (b : bool) (l : loop) : loop :=
  {| ctx := ctx l; m_current := m_current l; fixed_trail_again := b |}.
Definition set_cs (s : unpack_state) (c : context) : context :=
  {| m_trail := m_trail c; m_cs := s; m_stack := m_stack c; holder := holder c |}.
Definition set_trail (t : Z) (c : context) : context :=
  {| m_trail := t; m_cs := m_cs c; m_stack := m_stack c; holder := holder c |}.
Definition set_stack (st : list stack_elem) (v : V) (c : context) : context :=
  {| m_trail := m_trail c; m_cs := m_cs c; m_stack := st; holder := v |}.

(** [after_visit_proc], with the [if (upr != PARSE_CONTINUE) return upr] that
    follows each call of it. The position has been advanced. *)
Definition after_visit_proc (m : res E (bool * V)) (l : loop) : flow :=
  let c := ctx l in
  match m with
  | Throw e => Exc e c
  | Ok (visit_result, v) =>
    let cur := m_current l + 1 in
    if visit_result : bool then
      match consume (m_stack c) v with
      | (Throw e, st, v) => Exc e (set_stack st v c)
      | (Ok PARSE_CONTINUE, st, v) =>
        Go (set_current cur (set_ctx (set_cs CS_HEADER (set_stack st v c)) l))
      | (Ok r, st, v) => Ret r cur (set_cs CS_HEADER (set_stack st v c))
      end
    else Ret PARSE_STOP_VISITOR cur (set_stack (m_stack c) v c)
  end.

(** The tail of [start_aggregate], once the stack operation is done. *)
Definition aggregate_end (cur : Z) (m : stack_result) (l : loop) : flow :=
  match m with
  | (Throw e, st, v) => Exc e (set_stack st v (ctx l))
  | (Ok PARSE_CONTINUE, st, v) =>
    Go (set_current cur (set_ctx (set_cs CS_HEADER (set_stack st v (ctx l))) l))
  | (Ok r, st, v) => Ret r cur (set_stack st v (ctx l))
  end.

Definition start_aggregate (type : container_type) (size : Z)
    (sv : Z -> V -> res E (bool * V)) (ev : V -> res E (bool * V)) (l : loop) : flow :=
  let c := ctx l in
  let cur := m_current l + 1 in
  let st := m_stack c in
  if size =? 0 then
    aggregate_end cur (call (sv size (holder c)) st (holder c) (fun v =>
                       call (ev v) st v (fun v => consume st v))) l
  else
    aggregate_end cur (call (sv size (holder c)) st (holder c) (fun v =>
                       push st type (wrap 32 size) v)) l.

(** [load<T>]: an unsigned big-endian integer of [k] bytes at [n]; the signed
    ones are its two's complement reading. *)
Definition load (data : bytes) (k : Z) (n : Z) : Z := be_val (slice data n k).
Definition load_signed (data : bytes) (k : Z) (n : Z) : Z := sext (8 * k) (load data k n).

Definition trail_table : list Z :=
  [1; 2; 4; 1; 2; 4; 4; 8; 1; 2; 4; 8; 1; 2; 4; 8; 2; 3; 5; 9; 17; 1; 2; 4; 2; 4; 2; 4].

Definition next_cs (p : byte) : unpack_state := unpack_state_of (Z.land (u8 p) 0x1f).

(** The [if (m_cs == MSGPACK_CS_HEADER)] half of the body. *)
Definition exec_header (data : bytes) (l0 : loop) : flow :=
  let l := set_again false l0 in
  let c := ctx l in
  let v := holder c in
  let p := default Byte.x00 (data !! Z.to_nat (m_current l)) in
  let selector := u8 p in
  if (0x00 <=? selector) && (selector <=? 0x7f) then
    after_visit_proc (visit_positive_integer selector v) l
  else if (0xe0 <=? selector) && (selector <=? 0xff) then
    after_visit_proc (visit_negative_integer (i8 p) v) l
  else if (0xc4 <=? selector) && (selector <=? 0xdf) then
    Go (set_again true
          (set_ctx (set_cs (next_cs p)
             (set_trail (default 0 (trail_table !! Z.to_nat (selector - 0xc4))) c)) l))
  else if (0xa0 <=? selector) && (selector <=? 0xbf) then
    let trail := Z.land selector 0x1f in
    if trail =? 0 then
      after_visit_proc (visit_str [] (wrap 32 trail) v) (set_ctx (set_trail trail c) l)
    else Go (set_again true (set_ctx (set_cs ACS_STR_VALUE (set_trail trail c)) l))
  else if (0x90 <=? selector) && (selector <=? 0x9f) then
    start_aggregate CT_ARRAY_ITEM (Z.land selector 0x0f) start_array end_array l
  else if (0x80 <=? selector) && (selector <=? 0x8f) then
    start_aggregate CT_MAP_KEY (Z.land selector 0x0f) start_map end_map l
  else if selector =? 0xc2 then after_visit_proc (visit_boolean false v) l
  else if selector =? 0xc3 then after_visit_proc (visit_boolean true v) l
  else if selector =? 0xc0 then after_visit_proc (visit_nil v) l
  else
    let off := m_current l in
    match parse_error (wrap 64 (off - 1)) off v with
    | Throw e => Exc e c
    | Ok v => Ret PARSE_PARSE_ERROR off (set_stack (m_stack c) v c)
    end.

(** A length field of [k] bytes has been read: visit an empty value at once,
    otherwise wait for [trail] more bytes in state [next]. *)
Definition length_field (visit : bytes -> Z -> V -> res E (bool * V))
    (next : unpack_state) (trail : Z) (l : loop) : flow :=
  let c := set_trail trail (ctx l) in
  if trail =? 0 then after_visit_proc (visit [] (wrap 32 trail) (holder c)) (set_ctx c l)
  else Go (set_again true (set_ctx (set_cs next c) l)).

(** The [switch (m_cs)]: [n] is where the trailing bytes start, and the
    position of [l] is their last one. *)
Definition exec_switch (data : bytes) (n : Z) (l : loop) : flow :=
  let c := ctx l in
  let v := holder c in
  let trail := m_trail c in
  match m_cs c with
  | CS_FLOAT => after_visit_proc (visit_float32 (load data 4 n) v) l
  | CS_DOUBLE => after_visit_proc (visit_float64 (load data 8 n) v) l
  | CS_UINT_8 => after_visit_proc (visit_positive_integer (load data 1 n) v) l
  | CS_UINT_16 => after_visit_proc (visit_positive_integer (load data 2 n) v) l
  | CS_UINT_32 => after_visit_proc (visit_positive_integer (load data 4 n) v) l
  | CS_UINT_64 => after_visit_proc (visit_positive_integer (load data 8 n) v) l
  | CS_INT_8 => after_visit_proc (visit_negative_integer (load_signed data 1 n) v) l
  | CS_INT_16 => after_visit_proc (visit_negative_integer (load_signed data 2 n) v) l
  | CS_INT_32 => after_visit_proc (visit_negative_integer (load_signed data 4 n) v) l
  | CS_INT_64 => after_visit_proc (visit_negative_integer (load_signed data 8 n) v) l
  | CS_FIXEXT_1 => after_visit_proc (visit_ext (slice data n 2) 2 v) l
  | CS_FIXEXT_2 => after_visit_proc (visit_ext (slice data n 3) 3 v) l
  | CS_FIXEXT_4 => after_visit_proc (visit_ext (slice data n 5) 5 v) l
  | CS_FIXEXT_8 => after_visit_proc (visit_ext (slice data n 9) 9 v) l
  | CS_FIXEXT_16 => after_visit_proc (visit_ext (slice data n 17) 17 v) l
  | CS_STR_8 => length_field visit_str ACS_STR_VALUE (load data 1 n) l
  | CS_BIN_8 => length_field visit_bin ACS_BIN_VALUE (load data 1 n) l
  | CS_EXT_8 => length_field visit_ext ACS_EXT_VALUE (load data 1 n + 1) l
  | CS_STR_16 => length_field visit_str ACS_STR_VALUE (load data 2 n) l
  | CS_BIN_16 => length_field visit_bin ACS_BIN_VALUE (load data 2 n) l
  | CS_EXT_16 => length_field visit_ext ACS_EXT_VALUE (load data 2 n + 1) l
  | CS_STR_32 => length_field visit_str ACS_STR_VALUE (load data 4 n) l
  | CS_BIN_32 => length_field visit_bin ACS_BIN_VALUE (load data 4 n) l
  | CS_EXT_32 => length_field visit_ext ACS_EXT_VALUE (wrap 64 (load data 4 n + 1)) l
  | ACS_STR_VALUE => after_visit_proc (visit_str (slice data n trail) (wrap 32 trail) v) l
  | ACS_BIN_VALUE => after_visit_proc (visit_bin (slice data n trail) (wrap 32 trail) v) l
  | ACS_EXT_VALUE => after_visit_proc (visit_ext (slice data n trail) (wrap 32 trail) v) l
  | CS_ARRAY_16 => start_aggregate CT_ARRAY_ITEM (load data 2 n) start_array end_array l
  | CS_ARRAY_32 => start_aggregate CT_ARRAY_ITEM (load data 4 n) start_array end_array l
  | CS_MAP_16 => start_aggregate CT_MAP_KEY (load data 2 n) start_map end_map l
  | CS_MAP_32 => start_aggregate CT_MAP_KEY (load data 4 n) start_map end_map l
  | CS_HEADER | CS_UNNAMED _ =>
    match parse_error (wrap 64 (n - 1)) n v with
    | Throw e => Exc e c
    | Ok v => Ret PARSE_PARSE_ERROR (m_current l) (set_stack (m_stack c) v c)
    end
  end.

(** The [if (m_cs != MSGPACK_CS_HEADER || fixed_trail_again)] half. *)
Definition exec_trail (data : bytes) (l : loop) : flow :=
  let l := if fixed_trail_again l then set_again false (set_current (m_current l + 1) l)
           else l in
  let n := m_current l in
  if len data - n <? m_trail (ctx l) then Ret PARSE_CONTINUE n (ctx l)
  else exec_switch data n (set_current (n + m_trail (ctx l) - 1) l).

Definition exec_body (data : bytes) (l : loop) : flow :=
  let r := if is_header (m_cs (ctx l)) then exec_header data l else Go l in
  match r with
  | Go l => if negb (is_header (m_cs (ctx l))) || fixed_trail_again l
            then exec_trail data l else Go l
  | r => r
  end.

(** One turn, the test [while (m_current != pe)] included. *)
Definition exec_iter (data : bytes) (l : loop) : flow :=
  match exec_body data l with
  | Go l => if m_current l =? len data then Ret PARSE_CONTINUE (m_current l) (ctx l) else Go l
  | r => r
  end.

Fixpoint exec_loop (fuel : nat) (data : bytes) (l : loop) : option flow :=
  match exec_iter data l with
  | Go l => match fuel with O => None | S f => exec_loop f data l end
  | r => Some r
  end.

Definition execute (data : bytes) (off : Z) (c : context) : option flow :=
  if off =? len data then Some (Ret PARSE_CONTINUE off c)
  else exec_loop (2 * length data) data
         {| ctx := c; m_current := off; fixed_trail_again := false |}.

(** ** [parse_imp] and [parse]

    The offset the caller's [off] ends with, or the exception. *)
Definition parse_imp (data : bytes) (off : Z) (v : V) : option (res E (parse_return * Z * V)) :=
  if len data <=? off then
    Some (let? v := insufficient_bytes off off v in Ok (PARSE_CONTINUE, off, v))%res
  else
    match execute data off (new_context v) with
    | None | Some (Go _) => None
    | Some (Exc e _) => Some (Throw e)
    | Some (Ret r noff c) =>
      match r with
      | PARSE_CONTINUE =>
        Some (let? v := insufficient_bytes (wrap 64 (noff - 1)) noff (holder c) in
              Ok (PARSE_CONTINUE, noff, v))%res
      | PARSE_SUCCESS =>
        Some (Ok (if noff <? len data then PARSE_EXTRA_BYTES else PARSE_SUCCESS, noff, holder c))
      | r => Some (Ok (r, off, holder c))
      end
    end.

Definition parse (data : bytes) (off : Z) (v : V) : option (res E (bool * Z * V)) :=
  match parse_imp data off v with
  | None => None
  | Some m => Some (let? (r, off, v) := m in
      Ok (match r with PARSE_SUCCESS | PARSE_EXTRA_BYTES => true | _ => false end, off, v))%res
  end.

End Context.

Arguments context : clear implicits.
Arguments loop : clear implicits.
Arguments flow : clear implicits.
