(* ===== verification/ParseLoop.v ===== *)
(** * The loop of [execute]

    For every visitor: the loop terminates within its fuel, the offsets it
    returns stay inside the input, and stopping at the end of the input and
    resuming with more is the same as having had all of it. *)

From S2P Require Import Prelude Parse.

Section Loop.
Context {V E : Type} `{VI : !Visitor V E}.
Implicit Types (c : context V) (l : loop V) (f : flow V E).

(** ** What a turn does to the position *)

(** The bytes a state's case of the [switch] reads; [ACS_*] read [m_trail]. *)
Definition payload (s : unpack_state) : Z :=
  match s with
  | CS_BIN_8 | CS_EXT_8 | CS_STR_8 | CS_UINT_8 | CS_INT_8 => 1
  | CS_BIN_16 | CS_EXT_16 | CS_STR_16 | CS_UINT_16 | CS_INT_16 | CS_ARRAY_16 | CS_MAP_16
  | CS_FIXEXT_1 => 2
  | CS_FIXEXT_2 => 3
  | CS_BIN_32 | CS_EXT_32 | CS_STR_32 | CS_UINT_32 | CS_INT_32 | CS_ARRAY_32 | CS_MAP_32
  | CS_FLOAT => 4
  | CS_FIXEXT_4 => 5
  | CS_DOUBLE | CS_UINT_64 | CS_INT_64 => 8
  | CS_FIXEXT_8 => 9
  | CS_FIXEXT_16 => 17
  | CS_HEADER | CS_UNNAMED _ | ACS_STR_VALUE | ACS_BIN_VALUE | ACS_EXT_VALUE => 0
  end.

(** Outside a header the state awaits at least one byte, and at least what its
    case reads. *)
Definition ctx_ok c : Prop :=
  is_header (m_cs c) = false -> 1 <= m_trail c /\ payload (m_cs c) <= m_trail c.

(** A turn may leave the position where it is only to wait for a payload
    whose header it has just read. *)
Definition flow_ok (lo hi : Z) (strict : bool) f : Prop :=
  match f with
  | Go l =>
    (lo < m_current l \/
     strict = false /\ lo = m_current l /\ fixed_trail_again l = true) /\ m_current l <= hi /\
    ctx_ok (ctx l) /\
    (fixed_trail_again l = true -> is_header (m_cs (ctx l)) = false /\ m_current l < hi)
  | Ret r off c => lo <= off <= hi /\ (r = PARSE_CONTINUE -> ctx_ok c)
  | Exc _ _ => True
  end.

(** The position of [l] is inside [lo, hi), and no payload is awaited. *)
Definition at_byte (lo hi : Z) l : Prop :=
  lo <= m_current l < hi /\ fixed_trail_again l = false.

Lemma after_visit_ok lo hi m l : at_byte lo hi l -> flow_ok lo hi true (after_visit_proc m l).
Proof.
  intros [Hp Ha]. unfold after_visit_proc.
  destruct m as [[[] v]|e]; simpl; [| split; [lia|done] | done].
  destruct (consume (m_stack (ctx l)) v) as [[[r|e] st] v']; [|done].
  destruct r; simpl; rewrite ?Ha; repeat split; try lia; try done; intros; discriminate.
Qed.

Lemma aggregate_end_ok lo hi m l :
  at_byte lo hi l -> flow_ok lo hi true (aggregate_end (m_current l + 1) m l).
Proof.
  intros [Hp Ha]. unfold aggregate_end. destruct m as [[[r|e] st] v]; [|done].
  destruct r; simpl; rewrite ?Ha; repeat split; try lia; try done; intros; discriminate.
Qed.

Lemma start_aggregate_flow lo hi t n sv ev l :
  at_byte lo hi l -> flow_ok lo hi true (start_aggregate t n sv ev l).
Proof. intros. unfold start_aggregate. destruct (n =? 0); apply aggregate_end_ok. all: assumption. Qed.

Lemma flow_ok_weaken lo hi f : flow_ok lo hi true f -> flow_ok lo hi false f.
Proof. destruct f; simpl; intuition lia. Qed.

Lemma flow_ok_next lo hi f : flow_ok (lo + 1) hi false f -> flow_ok lo hi true f.
Proof. destruct f; simpl; intuition lia. Qed.

Lemma length_field_ok lo hi (visit : bytes -> Z -> V -> res E (bool * V)) next t l :
  at_byte lo hi l -> 0 <= t -> is_header next = false -> payload next = 0 ->
  flow_ok lo hi false (length_field visit next t l).
Proof.
  intros [Hp Ha] Ht Hn Hq. unfold length_field. destruct (Z.eqb_spec t 0) as [->|Ht0].
  - apply flow_ok_weaken, after_visit_ok. split; [exact Hp|exact Ha].
  - simpl. split_and!; [|lia|intros _; simpl; lia|intros _; split; [done|lia]].
    destruct (decide (lo = m_current l)); [right; done | left; lia].
Qed.

Lemma load_nonneg data k n : 0 <= load data k n.
Proof. unfold load. pose proof (be_val_range (slice data n k)). lia. Qed.

Lemma exec_switch_ok lo hi data n l :
  at_byte lo hi l -> flow_ok lo hi false (exec_switch data n l).
Proof.
  intros H. unfold exec_switch.
  pose proof (load_nonneg data 1 n). pose proof (load_nonneg data 2 n).
  pose proof (load_nonneg data 4 n).
  destruct (m_cs (ctx l));
    try (apply flow_ok_weaken, after_visit_ok, H);
    try (apply flow_ok_weaken, start_aggregate_flow, H);
    try (apply length_field_ok; [done| |done|done]; first [lia | apply wrap_range; lia]);
    destruct H; case_match; simpl; try done; (split; [lia|discriminate]).
Qed.

(** A byte is still to be read, or a payload awaited. *)
Definition loop_ok (data : bytes) l : Prop :=
  0 <= m_current l < len data /\ ctx_ok (ctx l) /\
  (fixed_trail_again l = true -> is_header (m_cs (ctx l)) = false).

Lemma exec_trail_ok data l :
  loop_ok data l -> is_header (m_cs (ctx l)) = false ->
  flow_ok (m_current l) (len data) (fixed_trail_again l) (exec_trail data l).
Proof.
  intros (Hp & Hc & Ha) Hh. unfold exec_trail. specialize (Hc Hh).
  destruct (fixed_trail_again l) eqn:Eg; simpl.
  - destruct (Z.ltb_spec (len data - (m_current l + 1)) (m_trail (ctx l))).
    + simpl. split; [lia|]. intros _ _. exact Hc.
    + apply flow_ok_next, exec_switch_ok. split; simpl; [lia|done].
  - destruct (Z.ltb_spec (len data - m_current l) (m_trail (ctx l))).
    + simpl. split; [lia|]. intros _ _. exact Hc.
    + apply exec_switch_ok. split; simpl; [lia|done].
Qed.

(** After a header: either a value has been consumed, or a payload awaits and
    the position is still the header's. *)
Definition header_ok (data : bytes) (pos : Z) f : Prop :=
  match f with
  | Go l => if fixed_trail_again l
            then m_current l = pos /\ is_header (m_cs (ctx l)) = false /\ ctx_ok (ctx l)
            else is_header (m_cs (ctx l)) = true /\ flow_ok pos (len data) true f
  | Ret _ _ _ | Exc _ _ => flow_ok pos (len data) true f
  end.

Lemma after_visit_header_ok data m l :
  at_byte (m_current l) (len data) l ->
  header_ok data (m_current l) (after_visit_proc m l).
Proof.
  intros H. pose proof (after_visit_ok _ _ m _ H) as F. destruct H as [_ Ha].
  unfold after_visit_proc in *. repeat case_match; try exact F;
    simpl in F |- *; rewrite Ha in *; simpl; auto.
Qed.

Lemma start_aggregate_header_ok data t n sv ev l :
  at_byte (m_current l) (len data) l ->
  header_ok data (m_current l) (start_aggregate t n sv ev l).
Proof.
  intros H. pose proof (start_aggregate_flow _ _ t n sv ev l H) as F. destruct H as [_ Ha].
  unfold start_aggregate, aggregate_end in *. repeat case_match; try exact F;
    simpl in F |- *; rewrite Ha in *; simpl; auto.
Qed.

Definition table_ok (s : Z) : bool :=
  let cs := unpack_state_of (Z.land s 0x1f) in
  let t := default 0 (trail_table !! Z.to_nat (s - 0xc4)) in
  negb (is_header cs) && (1 <=? t) && (payload cs =? t).

Lemma table_ok_all s : 0xc4 <= s <= 0xdf -> table_ok s = true.
Proof.
  intros Hs. assert (H : forallb (fun i => table_ok (0xc4 + Z.of_nat i)) (seq 0 28) = true)
    by reflexivity.
  rewrite forallb_forall in H. specialize (H (Z.to_nat (s - 0xc4))).
  rewrite Z2Nat.id in H by lia. replace (0xc4 + (s - 0xc4)) with s in H by lia.
  apply H, in_seq. lia.
Qed.

Lemma exec_header_ok data l :
  0 <= m_current l < len data -> header_ok data (m_current l) (exec_header data l).
Proof.
  intros Hp. unfold exec_header.
  assert (H : at_byte (m_current l) (len data) (set_again false l)) by (split; simpl; [lia|done]).
  set (p := default Byte.x00 _). pose proof (u8_range p) as Hr.
  assert (A : forall m, header_ok data (m_current l) (after_visit_proc m (set_again false l)))
    by (intros m; exact (after_visit_header_ok data m (set_again false l) H)).
  assert (B : forall t n sv ev,
    header_ok data (m_current l) (start_aggregate t n sv ev (set_again false l)))
    by (intros t n sv ev; exact (start_aggregate_header_ok data t n sv ev (set_again false l) H)).
  destruct ((0x00 <=? u8 p) && (u8 p <=? 0x7f)); [apply A|].
  destruct ((0xe0 <=? u8 p) && (u8 p <=? 0xff)); [apply A|].
  destruct ((0xc4 <=? u8 p) && (u8 p <=? 0xdf)) eqn:E1; [|clear E1].
  { apply andb_prop in E1 as [E1%Z.leb_le E2%Z.leb_le]. simpl.
    pose proof (table_ok_all (u8 p) ltac:(lia)) as T. unfold table_ok in T.
    apply andb_prop in T as [[T1 T2%Z.leb_le]%andb_prop T3%Z.eqb_eq].
    apply negb_true_iff in T1. split_and!; [done|done|]. intros _. simpl. unfold next_cs. lia. }
  destruct ((0xa0 <=? u8 p) && (u8 p <=? 0xbf)) eqn:E1; [|clear E1].
  { destruct (Z.eqb_spec (Z.land (u8 p) 0x1f) 0).
    - exact (after_visit_header_ok data _
        (set_ctx (set_trail (Z.land (u8 p) 0x1f) (ctx l)) (set_again false l)) H).
    - simpl. split_and!; [done|done|]. intros _. simpl.
      pose proof (Z.land_nonneg (u8 p) 0x1f). lia. }
  destruct ((0x90 <=? u8 p) && (u8 p <=? 0x9f)); [apply B|].
  destruct ((0x80 <=? u8 p) && (u8 p <=? 0x8f)); [apply B|].
  destruct (u8 p =? 0xc2); [apply A|]. destruct (u8 p =? 0xc3); [apply A|].
  destruct (u8 p =? 0xc0); [apply A|].
  simpl. case_match; simpl; [|done]. split; [lia|discriminate].
Qed.

(** ** Termination *)

(** One turn from [l]: it makes progress, or waits for a payload it did not
    wait for before. *)
Lemma exec_body_ok data l :
  loop_ok data l ->
  match exec_body data l with
  | Go l' => (m_current l < m_current l' \/
              m_current l = m_current l' /\ fixed_trail_again l = false /\
              fixed_trail_again l' = true) /\
             m_current l' <= len data /\ ctx_ok (ctx l') /\
             (fixed_trail_again l' = true ->
              is_header (m_cs (ctx l')) = false /\ m_current l' < len data)
  | Ret r off c => m_current l <= off <= len data /\ (r = PARSE_CONTINUE -> ctx_ok c)
  | Exc _ _ => True
  end.
Proof.
  intros Hl. unfold exec_body. pose proof Hl as (Hp & Hc & Ha).
  assert (T : forall l', m_current l' = m_current l -> ctx_ok (ctx l') ->
    is_header (m_cs (ctx l')) = false -> 
    flow_ok (m_current l) (len data) (fixed_trail_again l') (exec_trail data l')).
  { intros l' El Hc' Hh. rewrite <- El. apply exec_trail_ok; [|done]. split_and!; (lia || done). }
  destruct (is_header (m_cs (ctx l))) eqn:Eh.
  - pose proof (exec_header_ok data l Hp) as H.
    destruct (exec_header data l) as [l'|r off c|e c]; simpl in H |- *; try done.
    destruct (fixed_trail_again l') eqn:Eg.
    + destruct H as (El & Hh & Hc'). rewrite Hh. simpl.
      specialize (T l' El Hc' Hh). rewrite Eg in T.
      destruct (exec_trail data l'); simpl in T; intuition lia.
    + destruct H as (Hh & F). simpl in F. rewrite Hh. simpl. rewrite Eg. intuition (lia || done).
  - rewrite Eh. simpl. specialize (T l eq_refl Hc Eh).
    destruct (exec_trail data l); simpl in T; destruct (fixed_trail_again l); intuition lia.
Qed.

(** Twice the bytes left, less one when a payload is already awaited. *)
Definition measure (data : bytes) l : Z :=
  2 * (len data - m_current l) + (if fixed_trail_again l then 0 else 1).

Definition returned (data : bytes) (off : Z) (f : option (flow V E)) : Prop :=
  match f with
  | Some (Ret r noff c) => off <= noff <= len data /\ (r = PARSE_CONTINUE -> ctx_ok c)
  | Some (Exc _ _) => True
  | Some (Go _) | None => False
  end.

Lemma exec_loop_returns data : forall fuel l,
  loop_ok data l -> measure data l <= Z.of_nat fuel + 1 ->
  returned data (m_current l) (exec_loop fuel data l).
Proof.
  induction fuel as [|fuel IH]; intros l Hl Hm.
  - exfalso. unfold measure in Hm. destruct Hl as [Hp _]. destruct (fixed_trail_again l); lia.
  - cbn [exec_loop]. unfold exec_iter. pose proof (exec_body_ok data l Hl) as H.
    destruct (exec_body data l) as [l'|r off c|e c]; [|exact H|done].
    destruct H as (Hmv & Hle & Hc & Ha). destruct Hl as [Hp _].
    destruct (Z.eqb_spec (m_current l') (len data)) as [Ee|Ee]; [simpl; split; [lia|intros _; exact Hc]|].
    assert (Hl' : loop_ok data l') by (split_and!; [lia|lia|exact Hc|naive_solver]).
    assert (Hm' : measure data l' <= Z.of_nat fuel + 1).
    { unfold measure in *. destruct (fixed_trail_again l), (fixed_trail_again l');
        intuition (lia || congruence). }
    specialize (IH l' Hl' Hm'). unfold returned in *.
    destruct (exec_loop fuel data l') as [[| |]|]; try done. split; [lia|apply IH].
Qed.

Lemma execute_returns data off c :
  0 <= off <= len data -> ctx_ok c -> returned data off (execute data off c).
Proof.
  intros Ho Hc. unfold execute. destruct (Z.eqb_spec off (len data)); [split; [lia|intros _; exact Hc]|].
  apply exec_loop_returns; [split_and!; simpl; [lia|lia|exact Hc|done]|].
  unfold measure, len in *. simpl in *. lia.
Qed.

(** ** Resuming with more input *)

Lemma exec_header_prefix d1 d2 l :
  0 <= m_current l < len d1 -> exec_header (d1 ++ d2) l = exec_header d1 l.
Proof.
  intros Hp. unfold exec_header. rewrite lookup_app_l; [done|]. simpl. unfold len in Hp. lia.
Qed.

Lemma exec_switch_prefix d1 d2 n l :
  0 <= n -> n + m_trail (ctx l) <= len d1 -> payload (m_cs (ctx l)) <= m_trail (ctx l) ->
  exec_switch (d1 ++ d2) n l = exec_switch d1 n l.
Proof.
  intros Hn Ht Hp. unfold exec_switch, load_signed, load.
  destruct (m_cs (ctx l)); simpl in Hp; rewrite ?slice_prefix by lia; reflexivity.
Qed.

(** The state in which a call that stopped at [off] leaves the parser. *)
Definition resumed (off : Z) c : loop V :=
  {| ctx := c; m_current := off; fixed_trail_again := false |}.

(** With more input a turn does the same, unless it stopped for lack of it. *)
Definition extends (d : bytes) (f1 f2 : flow V E) : Prop :=
  match f1 with
  | Ret PARSE_CONTINUE n c => is_header (m_cs c) = false /\ f2 = exec_trail d (resumed n c)
  | _ => f2 = f1
  end.

Lemma after_visit_not_continue (m : res E (bool * V)) l n c :
  after_visit_proc m l <> Ret PARSE_CONTINUE n c.
Proof. unfold after_visit_proc. repeat case_match; congruence. Qed.

Lemma start_aggregate_not_continue t k sv ev l n c :
  start_aggregate (E:=E) t k sv ev l <> Ret PARSE_CONTINUE n c.
Proof. unfold start_aggregate, aggregate_end. repeat case_match; congruence. Qed.

Lemma extends_refl d f : (forall n c, f <> Ret PARSE_CONTINUE n c) -> extends d f f.
Proof. intros H. unfold extends. repeat case_match; try done. exfalso. naive_solver. Qed.

Lemma exec_switch_not_continue d n l p c : exec_switch d n l <> Ret PARSE_CONTINUE p c.
Proof.
  unfold exec_switch, length_field. destruct (m_cs (ctx l));
    repeat case_match;
    first [apply after_visit_not_continue | apply start_aggregate_not_continue | congruence].
Qed.

Lemma exec_header_not_continue d l p c : exec_header d l <> Ret PARSE_CONTINUE p c.
Proof.
  unfold exec_header. repeat case_match;
    first [apply after_visit_not_continue | apply start_aggregate_not_continue | congruence].
Qed.

Lemma exec_trail_extends d1 d2 l :
  0 <= m_current l < len d1 -> ctx_ok (ctx l) -> is_header (m_cs (ctx l)) = false ->
  extends (d1 ++ d2) (exec_trail d1 l) (exec_trail (d1 ++ d2) l).
Proof.
  intros Hp Hc Hh. specialize (Hc Hh). unfold exec_trail at 1.
  set (l' := if fixed_trail_again l then _ else l).
  assert (E1 : exec_trail (d1 ++ d2) l = exec_trail (d1 ++ d2) (resumed (m_current l') (ctx l))).
  { unfold exec_trail, l'. destruct l as [c p []]; reflexivity. }
  assert (E2 : ctx l' = ctx l) by (unfold l'; destruct (fixed_trail_again l); done).
  assert (E3 : m_current l <= m_current l')
    by (unfold l'; destruct (fixed_trail_again l); simpl; lia).
  assert (E4 : fixed_trail_again l' = false)
    by (unfold l'; destruct (fixed_trail_again l) eqn:?; done).
  rewrite E1, E2. clearbody l'. destruct (Z.ltb_spec (len d1 - m_current l') (m_trail (ctx l))); [done|].
  unfold exec_trail. simpl. rewrite len_app. pose proof (len_nonneg d2).
  destruct (Z.ltb_spec (len d1 + len d2 - m_current l') (m_trail (ctx l))); [lia|].
  rewrite exec_switch_prefix by (simpl; rewrite ?E2; lia).
  replace (set_current (m_current l' + m_trail (ctx l) - 1) (resumed (m_current l') (ctx l)))
    with (set_current (m_current l' + m_trail (ctx l) - 1) l')
    by (unfold set_current, resumed; simpl; rewrite E2, E4; done).
  apply extends_refl. intros. apply exec_switch_not_continue.
Qed.

Lemma exec_body_extends d1 d2 l :
  loop_ok d1 l -> extends (d1 ++ d2) (exec_body d1 l) (exec_body (d1 ++ d2) l).
Proof.
  intros (Hp & Hc & Ha). unfold exec_body.
  destruct (is_header (m_cs (ctx l))) eqn:Eh.
  - rewrite exec_header_prefix by done. pose proof (exec_header_ok d1 l Hp) as H.
    pose proof (exec_header_not_continue d1 l) as N.
    destruct (exec_header d1 l) as [l'|r n c|e c]; [|by apply extends_refl|done].
    simpl in H. destruct (fixed_trail_again l') eqn:Eg.
    + destruct H as (El & Hh & Hc'). rewrite Hh. simpl.
      apply exec_trail_extends; [lia|done|done].
    + destruct H as (Hh & _). rewrite Hh. done.
  - rewrite Eh. simpl. by apply exec_trail_extends; [|apply Hc|].
Qed.

Lemma exec_loop_mono data r : forall a b l,
  (a <= b)%nat -> exec_loop a data l = Some r -> exec_loop b data l = Some r.
Proof.
  induction a as [|a IH]; intros [|b] l Hab; cbn [exec_loop];
    destruct (exec_iter data l); try done; try lia.
  apply IH. lia.
Qed.

(** [l] runs to the outcome [f]. *)
Definition runs (data : bytes) l f : Prop := exists fuel, exec_loop fuel data l = Some f.

Lemma runs_now data l f : exec_iter data l = f -> (forall l', f <> Go l') -> runs data l f.
Proof. intros <- H. exists O. simpl. destruct (exec_iter data l); naive_solver. Qed.

Lemma runs_step data l l' f : exec_iter data l = Go l' -> runs data l' f -> runs data l f.
Proof. intros Hi [n H]. exists (S n). simpl. by rewrite Hi. Qed.

Lemma runs_inv data l f :
  runs data l f -> (exec_iter data l = f /\ forall l', f <> Go l') \/
                   exists l', exec_iter data l = Go l' /\ runs data l' f.
Proof.
  intros [[|n] H]; simpl in H; destruct (exec_iter data l) eqn:Hi; simplify_eq; eauto.
  right. eexists. split; [done|]. by exists n.
Qed.

Lemma execute_runs data off c f :
  off <> len data -> 0 <= off <= len data -> ctx_ok c ->
  execute data off c = Some f <-> runs data (resumed off c) f.
Proof.
  intros Hne Ho Hc. pose proof (execute_returns data off c Ho Hc) as H. unfold execute in *.
  destruct (Z.eqb_spec off (len data)) as [|_]; [done|].
  split; [by eexists|]. intros [n Hn].
  fold (resumed off c) in *.
  destruct (exec_loop (2 * length data) data (resumed off c)) as [g|] eqn:Hi; [|done].
  rewrite <- Hn.
  destruct (Nat.le_ge_cases n (2 * length data)) as [Hl|Hl];
    [pose proof (exec_loop_mono _ _ _ _ _ Hl Hn) | pose proof (exec_loop_mono _ _ _ _ _ Hl Hi)];
    congruence.
Qed.

(** What a run over [d1] says of a run over [d1 ++ d2]. *)
Definition continues (d : bytes) l f : Prop :=
  match f with
  | Ret PARSE_CONTINUE n c =>
    if n =? len d then runs d l f else forall g, runs d (resumed n c) g -> runs d l g
  | _ => runs d l f
  end.

Lemma iter_go data l l' :
  exec_body data l = Go l' -> m_current l' <> len data -> exec_iter data l = Go l'.
Proof. unfold exec_iter. intros -> H. destruct (Z.eqb_spec (m_current l') (len data)); done. Qed.

Lemma iter_end data l l' :
  exec_body data l = Go l' -> m_current l' = len data ->
  exec_iter data l = Ret PARSE_CONTINUE (m_current l') (ctx l').
Proof. unfold exec_iter. intros -> ->. by rewrite Z.eqb_refl. Qed.

Lemma continues_stop d1 d2 l :
  loop_ok d1 l -> (forall l', exec_iter d1 l <> Go l') ->
  continues (d1 ++ d2) l (exec_iter d1 l).
Proof.
  intros Hl Hn. pose proof (exec_body_ok d1 l Hl) as Hok.
  pose proof (exec_body_extends d1 d2 l Hl) as He. unfold exec_iter in *.
  destruct (exec_body d1 l) as [l'|r n c|e c] eqn:Eb; simpl in He.
  - destruct (Z.eqb_spec (m_current l') (len d1)) as [Ee|Ee]; [|by edestruct Hn].
    destruct Hok as (_ & _ & Hc & Ha). assert (Eg : fixed_trail_again l' = false)
      by (destruct (fixed_trail_again l'); [destruct Ha; [done|lia]|done]).
    assert (El : l' = resumed (m_current l') (ctx l'))
      by (destruct l' as [? ? b]; simpl in Eg; by subst b).
    simpl. destruct (Z.eqb_spec (m_current l') (len (d1 ++ d2))).
    + apply runs_now; [by apply iter_end|done].
    + intros g Hg. rewrite <- El in Hg. eapply runs_step; [by apply iter_go|done].
  - assert (Hr : r <> PARSE_CONTINUE -> exec_iter (d1 ++ d2) l = Ret r n c).
    { intros. unfold exec_iter. destruct r; simpl in He; try done; by rewrite He. }
    destruct r; simpl; try (by apply runs_now; [apply Hr|]).
    destruct He as [Hh He]. destruct Hok as [Hoff Hc]. specialize (Hc eq_refl Hh).
    assert (Hb : exec_body (d1 ++ d2) (resumed n c) = exec_body (d1 ++ d2) l).
    { rewrite He. unfold exec_body. simpl. rewrite Hh. simpl. by rewrite Hh. }
    destruct (Z.eqb_spec n (len (d1 ++ d2))) as [->|Ene].
    + apply runs_now; [|done]. unfold exec_iter. rewrite He. unfold exec_trail. simpl.
      destruct (Z.ltb_spec (len (d1 ++ d2) - len (d1 ++ d2)) (m_trail c)); [done|lia].
    + intros g Hg. apply runs_inv in Hg as [[Hg Hng]|(l' & Hg & Hr')];
        unfold exec_iter in Hg; rewrite Hb in Hg.
      * by apply runs_now.
      * by eapply runs_step.
  - apply runs_now; [|done]. unfold exec_iter. by rewrite He.
Qed.

Lemma continues_loop d1 d2 f : forall fuel l,
  loop_ok d1 l -> exec_loop fuel d1 l = Some f -> continues (d1 ++ d2) l f.
Proof.
  induction fuel as [|fuel IH]; intros l Hl Hr; cbn [exec_loop] in Hr;
    destruct (exec_iter d1 l) as [l'| |] eqn:Hi; simplify_eq;
    try (rewrite <- Hi; apply continues_stop; [done|]; congruence).
  pose proof (exec_body_ok d1 l Hl) as Hok. pose proof (exec_body_extends d1 d2 l Hl) as He.
  unfold exec_iter in Hi. destruct (exec_body d1 l) as [l0| |] eqn:Hb; try done.
  destruct (Z.eqb_spec (m_current l0) (len d1)) as [|Ene]; [done|]. injection Hi as ->.
  destruct Hok as (Hmv & Hle & Hc & Ha). pose proof (len_nonneg d2). destruct Hl as [Hp _].
  assert (Hgo : exec_iter (d1 ++ d2) l = Go l').
  { apply iter_go; [exact He|]. rewrite len_app. lia. }
  assert (Hl' : loop_ok d1 l') by (split_and!; [lia|lia|exact Hc|naive_solver]).
  specialize (IH l' Hl' Hr). unfold continues in *.
  destruct f as [|[] n c|]; try (by eapply runs_step).
  destruct (n =? len (d1 ++ d2)); [by eapply runs_step|].
  intros g Hg. eapply runs_step; [done|]. by apply IH.
Qed.

Lemma execute_extend d1 d2 off c f :
  0 <= off <= len d1 -> ctx_ok c -> execute d1 off c = Some f ->
  match f with
  | Ret PARSE_CONTINUE n c' => execute (d1 ++ d2) n c' = execute (d1 ++ d2) off c
  | _ => execute (d1 ++ d2) off c = Some f
  end.
Proof.
  intros Ho Hc Hx. pose proof (execute_returns d1 off c Ho Hc) as Hret. rewrite Hx in Hret.
  destruct (decide (off = len d1)) as [->|Hne].
  { unfold execute in Hx. rewrite Z.eqb_refl in Hx. by injection Hx as <-. }
  assert (Hlen : len (d1 ++ d2) = len d1 + len d2) by apply len_app.
  pose proof (len_nonneg d2). apply execute_runs in Hx as [fuel Hx]; [|done|done|done].
  assert (Hl : loop_ok d1 (resumed off c)) by (split_and!; simpl; [lia|lia|exact Hc|done]).
  pose proof (continues_loop d1 d2 f fuel _ Hl Hx) as Hk.
  assert (Hr : forall g, runs (d1 ++ d2) (resumed off c) g -> execute (d1 ++ d2) off c = Some g)
    by (intros g; apply execute_runs; [lia|lia|exact Hc]).
  destruct f as [l|r n c'|e c']; [done| |by apply Hr].
  destruct r; try (by apply Hr). destruct Hret as [Hn Hc']. specialize (Hc' eq_refl).
  simpl in Hk. destruct (Z.eqb_spec n (len (d1 ++ d2))) as [->|Hne'].
  - unfold execute at 1. rewrite Z.eqb_refl. symmetry. by apply Hr.
  - pose proof (execute_returns (d1 ++ d2) n c' ltac:(lia) Hc') as Hret'.
    destruct (execute (d1 ++ d2) n c') as [g|] eqn:Hg; [|done].
    apply execute_runs in Hg; [|lia|lia|done]. symmetry. auto.
Qed.

(** C19. [execute] always ends: from a context that a previous call left, at
    any offset of any input, it returns or throws within its fuel; the offset
    it stores is between the one it started from and the end of the input, and
    a context that asks for more input can be resumed. *)
Theorem execute_total data off c :
  0 <= off <= len data -> ctx_ok c ->
  (exists r noff c', execute data off c = Some (Ret r noff c') /\ off <= noff <= len data /\
                     (r = PARSE_CONTINUE -> ctx_ok c')) \/
  (exists e c', execute data off c = Some (Exc e c')).
Proof.
  intros Ho Hc. pose proof (execute_returns data off c Ho Hc) as H.
  destruct (execute data off c) as [[l|r n c'|e c']|]; try done; simpl in H; eauto 10.
Qed.

(** C20. Streaming does not change the result: when [execute] stops for lack of
    input at [n], calling it again at [n] once more bytes have arrived gives
    what one call on all the bytes gives, visitor state included. *)
Theorem execute_resume d1 d2 off c n c' :
  0 <= off <= len d1 -> ctx_ok c -> execute d1 off c = Some (Ret PARSE_CONTINUE n c') ->
  execute (d1 ++ d2) n c' = execute (d1 ++ d2) off c.
Proof. intros Ho Hc Hx. exact (execute_extend d1 d2 off c _ Ho Hc Hx). Qed.

End Loop.

Arguments ctx_ok {V} c.
