(* ===== verification/Visitor.v ===== *)
(** * The visitor that builds objects

    Models [create_object_visitor] of v2/create_object_visitor.hpp at the level
    of its pointers: the objects live in blocks ([m_obj], and one array per
    [allocate_align] of the zone), a pointer is a block and an index, and
    [m_stack] holds the places the next object goes to. A block's cells are
    uninitialised until they are written. Writing through a null or
    out-of-range pointer is the outcome [invalid_access]; running out of
    memory is not modelled. Also [null_visitor] and the [unpack] functions of
    v2/unpack.hpp. *)

From S2P Require Import Prelude FloatBits MsgObject Parse.

(** ** Exceptions and limits *)

Inductive unpack_exn :=
| parse_error_exn | insufficient_bytes_exn
| array_size_overflow | map_size_overflow | str_size_overflow | bin_size_overflow
| ext_size_overflow | depth_size_overflow
| invalid_access.             (* not an exception: undefined behaviour *)

Record unpack_limit := {
  array_ : Z; map_ : Z; str_ : Z; bin_ : Z; ext_ : Z; depth_ : Z;
}.

Definition default_limit : unpack_limit :=
  {| array_ := 0xffffffff; map_ := 0xffffffff; str_ := 0xffffffff;
     bin_ := 0xffffffff; ext_ := 0xffffffff; depth_ := 0xffffffff |}.

(** The types [m_func] is asked about. *)
Inductive raw_type := T_STR | T_BIN | T_EXT.

(** ** Memory *)

Definition ptr : Type := Z * Z.             (* block, index *)

(** What an object in memory says; arrays and maps point to a block. *)
Inductive cell :=
| CNil
| CBoolean (b : bool)
| CPositive (u64 : Z)
| CNegative (i64 : Z)
| CFloat32 (f64 : Z)
| CFloat64 (f64 : Z)
| CStr (p : bytes) (size : Z)
| CBin (p : bytes) (size : Z)
| CExt (p : bytes) (size : Z)
| CArray (size : Z) (p : option Z)
| CMap (size : Z) (p : option Z).

Record visitor := {
  m_func : option (raw_type -> Z -> bool);
  m_limit : unpack_limit;
  cells : gmap ptr cell;
  blocks : list Z;                          (* how many objects each block holds *)
  v_stack : list (option ptr);              (* m_stack, back first *)
  m_referenced : bool;
}.

Definition set_cells h v := {| m_func := m_func v; m_limit := m_limit v; cells := h;
  blocks := blocks v; v_stack := v_stack v; m_referenced := m_referenced v |}.
Definition set_blocks bl v := {| m_func := m_func v; m_limit := m_limit v; cells := cells v;
  blocks := bl; v_stack := v_stack v; m_referenced := m_referenced v |}.
Definition set_vstack st v := {| m_func := m_func v; m_limit := m_limit v; cells := cells v;
  blocks := blocks v; v_stack := st; m_referenced := m_referenced v |}.
Definition set_referenced b v := {| m_func := m_func v; m_limit := m_limit v;
  cells := cells v; blocks := blocks v; v_stack := v_stack v; m_referenced := b |}.

(** Block 0 is [m_obj], a nil object. *)
Definition new_visitor (f : option (raw_type -> Z -> bool)) (limit : unpack_limit) : visitor :=
  {| m_func := f; m_limit := limit; cells := {[ (0, 0) := CNil ]}; blocks := [1];
     v_stack := [Some (0, 0)]; m_referenced := false |}.

(** [init]: the stack is cut back to [&m_obj], which becomes nil again. The
    blocks already allocated stay in the zone. *)
Definition v_init (v : visitor) : visitor :=
  set_vstack [Some (0, 0)] (set_cells (<[(0, 0) := CNil]> (cells v)) v).

Definition in_block (v : visitor) (p : ptr) : bool :=
  match blocks v !! Z.to_nat p.1 with
  | Some n => (0 <=? p.1) && (0 <=? p.2) && (p.2 <? n)
  | None => false
  end.

(** [*m_stack.back() = c] *)
Definition write_back (c : cell) (v : visitor) : res unpack_exn (bool * visitor) :=
  match v_stack v with
  | Some p :: _ =>
    if in_block v p then Ok (true, set_cells (<[p := c]> (cells v)) v)
    else Throw invalid_access
  | _ => Throw invalid_access
  end.

(** The zone gives a new block of [n] objects. *)
Definition allocate (n : Z) (v : visitor) : Z * visitor :=
  (len (blocks v), set_blocks (blocks v ++ [n]) v).

(** ** The visit functions *)

Definition v_nil := write_back CNil.
Definition v_boolean (b : bool) := write_back (CBoolean b).
Definition v_positive_integer (z : Z) := write_back (CPositive z).
Definition v_negative_integer (z : Z) :=
  write_back (if 0 <=? z then CPositive z else CNegative z).
Definition v_float32 (z : Z) := write_back (CFloat32 (widen z)).
Definition v_float64 (z : Z) := write_back (CFloat64 z).

(** When [m_func] accepts, the object keeps the pointer into the buffer;
    otherwise [size] bytes are copied to the zone. *)
Definition keep_or_copy (t : raw_type) (p : bytes) (size : Z) (v : visitor) : bytes * visitor :=
  match m_func v with
  | Some f => if f t size then (p, set_referenced true v) else (take (Z.to_nat size) p, v)
  | None => (take (Z.to_nat size) p, v)
  end.

Definition v_str (p : bytes) (size : Z) (v : visitor) : res unpack_exn (bool * visitor) :=
  if str_ (m_limit v) <? size then Throw str_size_overflow else
  let '(q, v1) := keep_or_copy T_STR p size v in write_back (CStr q size) v1.

Definition v_bin (p : bytes) (size : Z) (v : visitor) : res unpack_exn (bool * visitor) :=
  if bin_ (m_limit v) <? size then Throw bin_size_overflow else
  let '(q, v1) := keep_or_copy T_BIN p size v in write_back (CBin q size) v1.

Definition v_ext (p : bytes) (size : Z) (v : visitor) : res unpack_exn (bool * visitor) :=
  if ext_ (m_limit v) <? size then Throw ext_size_overflow else
  let '(q, v1) := keep_or_copy T_EXT p size v in write_back (CExt q (wrap 32 (size - 1))) v1.

(** The common part of [start_array] and [start_map]: [k] objects per element. *)
Definition start_container (k n sizeof : Z) (mk : Z -> option Z -> cell)
    (overflow : unpack_exn) (v : visitor) : res unpack_exn (bool * visitor) :=
  if n =? 0 then
    (let? (_, v1) := write_back (mk n None) v in
     Ok (true, set_vstack (None :: v_stack v1) v1))%res
  else if negb (wrap 64 (n * sizeof) / sizeof =? n) then Throw overflow
  else
    let '(b, v1) := allocate (k * n) v in
    (let? (_, v2) := write_back (mk n (Some b)) v1 in
     Ok (true, set_vstack (Some (b, 0) :: v_stack v2) v2))%res.

Definition v_start_array (n : Z) (v : visitor) : res unpack_exn (bool * visitor) :=
  if array_ (m_limit v) <? n then Throw array_size_overflow else
  if depth_ (m_limit v) <? len (v_stack v) then Throw depth_size_overflow else
  start_container 1 n 24 CArray array_size_overflow v.

Definition v_start_map (n : Z) (v : visitor) : res unpack_exn (bool * visitor) :=
  if map_ (m_limit v) <? n then Throw map_size_overflow else
  if depth_ (m_limit v) <? len (v_stack v) then Throw depth_size_overflow else
  start_container 2 n 48 CMap map_size_overflow v.

(** [++m_stack.back()] *)
Definition v_advance (v : visitor) : res unpack_exn (bool * visitor) :=
  match v_stack v with
  | [] => Throw invalid_access
  | p :: st => Ok (true, set_vstack (((fun q : ptr => (q.1, q.2 + 1)) <$> p) :: st) v)
  end.

(** [m_stack.pop_back()] *)
Definition v_pop (v : visitor) : res unpack_exn (bool * visitor) :=
  match v_stack v with
  | [] => Throw invalid_access
  | _ :: st => Ok (true, set_vstack st v)
  end.

Definition v_true (v : visitor) : res unpack_exn (bool * visitor) := Ok (true, v).

#[export] Instance create_object_visitor : Visitor visitor unpack_exn := {
  visit_nil := v_nil;
  visit_boolean := v_boolean;
  visit_positive_integer := v_positive_integer;
  visit_negative_integer := v_negative_integer;
  visit_float32 := v_float32;
  visit_float64 := v_float64;
  visit_str := v_str;
  visit_bin := v_bin;
  visit_ext := v_ext;
  start_array := v_start_array;
  start_array_item := v_true;
  end_array_item := v_advance;
  end_array := v_pop;
  start_map := v_start_map;
  start_map_key := v_true;
  end_map_key := v_advance;
  start_map_value := v_true;
  end_map_value := v_advance;
  end_map := v_pop;
  parse_error := fun _ _ _ => Throw parse_error_exn;
  insufficient_bytes := fun _ _ _ => Throw insufficient_bytes_exn;
  visitor_init := v_init;
}.

(** ** [null_visitor]: accepts everything and keeps nothing *)

Definition n_true (v : unit) : res unpack_exn (bool * unit) := Ok (true, v).

Definition null_visitor : Visitor unit unpack_exn := {|
  visit_nil := n_true; visit_boolean _ := n_true;
  visit_positive_integer _ := n_true; visit_negative_integer _ := n_true;
  visit_float32 _ := n_true; visit_float64 _ := n_true;
  visit_str _ _ := n_true; visit_bin _ _ := n_true; visit_ext _ _ := n_true;
  start_array _ := n_true; start_array_item := n_true; end_array_item := n_true;
  end_array := n_true; start_map _ := n_true; start_map_key := n_true;
  end_map_key := n_true; start_map_value := n_true; end_map_value := n_true;
  end_map := n_true; parse_error _ _ v := Ok v; insufficient_bytes _ _ v := Ok v;
  visitor_init v := v;
|}.

(** ** Reading an object back from memory

    [None] for a cell never written, a pointer out of range, or fuel spent. *)

Definition read_raw (p : bytes) (size : Z) : option bytes :=
  if len p <? size then None else Some (take (Z.to_nat size) p).

Fixpoint read_object (fuel : nat) (h : gmap ptr cell) (c : cell) : option object :=
  match fuel with
  | O => None
  | S f =>
    let at_ b i := h !! (b, i) ≫= read_object f h in
    match c with
    | CNil => Some NIL
    | CBoolean b => Some (BOOLEAN b)
    | CPositive z => Some (POSITIVE_INTEGER z)
    | CNegative z => Some (NEGATIVE_INTEGER z)
    | CFloat32 z => Some (FLOAT32 z)
    | CFloat64 z => Some (FLOAT64 z)
    | CStr p n => STR <$> read_raw p n
    | CBin p n => BIN <$> read_raw p n
    | CExt [] n => None
    | CExt (t :: p) n => EXT t <$> read_raw p n
    | CArray n None => if n =? 0 then Some (ARRAY []) else None
    | CArray n (Some b) =>
      ARRAY <$> mapM (fun i => at_ b (Z.of_nat i)) (seq 0 (Z.to_nat n))
    | CMap n None => if n =? 0 then Some (MAP []) else None
    | CMap n (Some b) =>
      MAP <$> mapM (fun i => k ← at_ b (2 * Z.of_nat i); x ← at_ b (2 * Z.of_nat i + 1);
                             Some (k, x)) (seq 0 (Z.to_nat n))
    end
  end.

(** [data()]: the object in [m_obj]. *)
Definition data (fuel : nat) (v : visitor) : option object :=
  cells v !! (0, 0) ≫= read_object fuel (cells v).

(** [detail::unpack_imp], reading the result with the given fuel. *)
Definition unpack_imp (fuel : nat) (d : bytes) (off : Z)
    (f : option (raw_type -> Z -> bool)) (limit : unpack_limit)
    : option (res unpack_exn (parse_return * Z * option object * bool)) :=
  match parse_imp d off (new_visitor f limit) with
  | None => None
  | Some m => Some (let? (r, noff, v) := m in Ok (r, noff, data fuel v, m_referenced v))%res
  end.

(** [unpack], which returns a handle; [unpack_into], which sets one; and [unpack_in], which
    builds in the caller's zone. The first returns nil, the second leaves the handle and the
    third returns what there is, when the parser stops without an exception. *)
Definition complete (r : parse_return) : bool :=
  match r with PARSE_SUCCESS | PARSE_EXTRA_BYTES => true | _ => false end.

Definition unpack (fuel : nat) (d : bytes) (off : Z) (f : option (raw_type -> Z -> bool))
    (limit : unpack_limit) : option (res unpack_exn (option object * Z * bool)) :=
  m ← unpack_imp fuel d off f limit;
  Some (let? (ret, noff, obj, referenced) := m in
        Ok (if complete ret then (obj, noff, referenced) else (Some NIL, off, referenced)))%res.

Definition unpack_into (fuel : nat) (result : option object) (d : bytes) (off : Z)
    (f : option (raw_type -> Z -> bool)) (limit : unpack_limit)
    : option (res unpack_exn (option object * Z * bool)) :=
  m ← unpack_imp fuel d off f limit;
  Some (let? (ret, noff, obj, referenced) := m in
        Ok (if complete ret then (obj, noff, referenced) else (result, off, referenced)))%res.

Definition unpack_in (fuel : nat) (d : bytes) (off : Z) (f : option (raw_type -> Z -> bool))
    (limit : unpack_limit) : option (res unpack_exn (option object * Z * bool)) :=
  m ← unpack_imp fuel d off f limit;
  Some (let? (ret, noff, obj, referenced) := m in
        Ok (obj, if complete ret then noff else off, referenced))%res.
