(* ===== verification/Format.v ===== *)
(** * The MessagePack format

    A specification of what a byte string means, written as a recursive
    descent over the format table, for the streaming parser to be compared
    with: [tok] reads one header with its payload, [dec] one object. The
    limits of [unpack_limit] and the depth are part of it, since they decide
    which exception a hostile input ends with. *)

From S2P Require Import Prelude FloatBits MsgObject Parse Visitor.

(** What reading [a] from the front of some bytes gives: the value with what
    follows it, too few bytes, or an exception. [NoFuel] is about the
    recursion of [dec] alone; [dec_fuel] excludes it. *)
Inductive outcome (A : Type) :=
| Done (a : A) (rest : bytes)
| Short
| Fail (e : unpack_exn)
| NoFuel.
Arguments Done {A} a rest.
Arguments Short {A}.
Arguments Fail {A} e.
Arguments NoFuel {A}.

Definition obind {A B} (m : outcome A) (k : A -> bytes -> outcome B) : outcome B :=
  match m with
  | Done a r => k a r
  | Short => Short
  | Fail e => Fail e
  | NoFuel => NoFuel
  end.

Definition out_map {A B} (f : A -> B) (m : outcome A) : outcome B :=
  obind m (fun a r => Done (f a) r).

(** ** One token *)

Inductive kind := K_ARRAY | K_MAP.

(** A leaf object, or the start of a container of [n] elements (pairs for a map). *)
Inductive token :=
| Leaf (o : object)
| Open (k : kind) (n : Z).

Definition get (n : Z) (d : bytes) : outcome bytes :=
  if len d <? n then Short else Done (take (Z.to_nat n) d) (drop (Z.to_nat n) d).

Definition uint (k : Z) (d : bytes) : outcome Z := out_map be_val (get k d).

Definition neg_or_pos (z : Z) : object :=
  if 0 <=? z then POSITIVE_INTEGER z else NEGATIVE_INTEGER z.

Definition ext_of (d : bytes) : object :=
  match d with [] => EXT Byte.x00 [] | t :: d => EXT t d end.

Definition below {A} (limit n : Z) (e : unpack_exn) (m : outcome A) : outcome A :=
  if limit <? n then Fail e else m.

Section Limits.
Variable lim : unpack_limit.

Definition raw_limit (t : raw_type) : Z :=
  match t with T_STR => str_ lim | T_BIN => bin_ lim | T_EXT => ext_ lim end.
Definition raw_overflow (t : raw_type) : unpack_exn :=
  match t with
  | T_STR => str_size_overflow | T_BIN => bin_size_overflow | T_EXT => ext_size_overflow
  end.
Definition raw_object (t : raw_type) (s : bytes) : object :=
  match t with T_STR => STR s | T_BIN => BIN s | T_EXT => ext_of s end.

(** A payload of [n] bytes; for an ext that includes the type byte. *)
Definition tok_raw (t : raw_type) (n : Z) (d : bytes) : outcome token :=
  obind (get n d) (fun s r =>
    below (raw_limit t) n (raw_overflow t) (Done (Leaf (raw_object t s)) r)).

Definition tok_str := tok_raw T_STR.
Definition tok_bin := tok_raw T_BIN.
Definition tok_ext (n : Z) := tok_raw T_EXT (n + 1).

Definition open_limit (k : kind) : Z :=
  match k with K_ARRAY => array_ lim | K_MAP => map_ lim end.
Definition open_overflow (k : kind) : unpack_exn :=
  match k with K_ARRAY => array_size_overflow | K_MAP => map_size_overflow end.

Definition tok_open (depth : Z) (k : kind) (n : Z) (r : bytes) : outcome token :=
  below (open_limit k) n (open_overflow k)
    (below (depth_ lim) depth depth_size_overflow (Done (Open k n) r)).

(** The format table: [s] is the header byte, [r] what follows it, and [depth]
    the number of containers open, plus one. *)
Definition tok_byte (depth : Z) (s : Z) (r : bytes) : outcome token :=
  let leaf {A} (f : A -> object) (m : outcome A) := out_map (fun a => Leaf (f a)) m in
  if s <=? 0x7f then Done (Leaf (POSITIVE_INTEGER s)) r
  else if s <=? 0x8f then tok_open depth K_MAP (s - 0x80) r
  else if s <=? 0x9f then tok_open depth K_ARRAY (s - 0x90) r
  else if s <=? 0xbf then tok_str (s - 0xa0) r
  else if 0xe0 <=? s then Done (Leaf (NEGATIVE_INTEGER (s - 256))) r
  else
  match s with
  | 0xc0 => Done (Leaf NIL) r
  | 0xc2 => Done (Leaf (BOOLEAN false)) r
  | 0xc3 => Done (Leaf (BOOLEAN true)) r
  | 0xc4 => obind (uint 1 r) tok_bin
  | 0xc5 => obind (uint 2 r) tok_bin
  | 0xc6 => obind (uint 4 r) tok_bin
  | 0xc7 => obind (uint 1 r) tok_ext
  | 0xc8 => obind (uint 2 r) tok_ext
  | 0xc9 => obind (uint 4 r) tok_ext
  | 0xca => leaf (fun b => FLOAT32 (widen b)) (uint 4 r)
  | 0xcb => leaf FLOAT64 (uint 8 r)
  | 0xcc => leaf POSITIVE_INTEGER (uint 1 r)
  | 0xcd => leaf POSITIVE_INTEGER (uint 2 r)
  | 0xce => leaf POSITIVE_INTEGER (uint 4 r)
  | 0xcf => leaf POSITIVE_INTEGER (uint 8 r)
  | 0xd0 => leaf (fun z => neg_or_pos (sext 8 z)) (uint 1 r)
  | 0xd1 => leaf (fun z => neg_or_pos (sext 16 z)) (uint 2 r)
  | 0xd2 => leaf (fun z => neg_or_pos (sext 32 z)) (uint 4 r)
  | 0xd3 => leaf (fun z => neg_or_pos (sext 64 z)) (uint 8 r)
  | 0xd4 => tok_ext 1 r
  | 0xd5 => tok_ext 2 r
  | 0xd6 => tok_ext 4 r
  | 0xd7 => tok_ext 8 r
  | 0xd8 => tok_ext 16 r
  | 0xd9 => obind (uint 1 r) tok_str
  | 0xda => obind (uint 2 r) tok_str
  | 0xdb => obind (uint 4 r) tok_str
  | 0xdc => obind (uint 2 r) (tok_open depth K_ARRAY)
  | 0xdd => obind (uint 4 r) (tok_open depth K_ARRAY)
  | 0xde => obind (uint 2 r) (tok_open depth K_MAP)
  | 0xdf => obind (uint 4 r) (tok_open depth K_MAP)
  | _ => Fail parse_error_exn                       (* 0xc1 *)
  end.

Definition tok (depth : Z) (d : bytes) : outcome token :=
  match d with [] => Short | p :: r => tok_byte depth (u8 p) r end.

(** ** Objects *)

(** The objects a container of [n] elements holds. *)
Definition children (k : kind) (n : Z) : Z := match k with K_ARRAY => n | K_MAP => 2 * n end.

Fixpoint pairs {A} (l : list A) : list (A * A) :=
  match l with
  | x :: y :: l => (x, y) :: pairs l
  | _ => []
  end.

Definition flat {A} (l : list (A * A)) : list A := concat (map (fun kv => [kv.1; kv.2]) l).

Definition container (k : kind) (l : list object) : object :=
  match k with K_ARRAY => ARRAY l | K_MAP => MAP (pairs l) end.

(** [n] objects, each read by [one]. *)
Fixpoint items (one : bytes -> outcome object) (fuel : nat) (n : Z) (d : bytes)
    : outcome (list object) :=
  if n =? 0 then Done [] d
  else match fuel with
  | O => NoFuel
  | S f => obind (one d) (fun o d => out_map (cons o) (items one f (n - 1) d))
  end.

Fixpoint dec (fuel : nat) (depth : Z) (d : bytes) : outcome object :=
  match fuel with
  | O => NoFuel
  | S f =>
    obind (tok depth d) (fun t d =>
      match t with
      | Leaf o => Done o d
      | Open k n => out_map (container k) (items (dec f (depth + 1)) f (children k n) d)
      end)
  end.

(** The meaning of a byte string: one object at its front. *)
Definition decode (d : bytes) : outcome object := dec (S (length d)) 1 d.

End Limits.

(** ** Lemmas *)

Lemma obind_done {A B} (m : outcome A) (k : A -> bytes -> outcome B) b r :
  obind m k = Done b r <-> exists a r', m = Done a r' /\ k a r' = Done b r.
Proof.
  destruct m; simpl; split; try discriminate; try (now intros (? & ? & [=] & ?)); eauto.
  intros (? & ? & [= <- <-] & ?). done.
Qed.

Lemma obind_ext {A B} (m : outcome A) (k k' : A -> bytes -> outcome B) :
  (forall a r, k a r = k' a r) -> obind m k = obind m k'.
Proof. intros H. destruct m; simpl; auto. Qed.

Lemma get_done n d a r :
  0 <= n -> get n d = Done a r <-> d = a ++ r /\ len a = n.
Proof.
  intros Hn. unfold get. destruct (Z.ltb_spec (len d) n) as [H|H].
  - split; [discriminate|]. intros [-> E]. pose proof (len_nonneg r).
    rewrite len_app in H. lia.
  - split.
    + intros [= <- <-]. rewrite take_drop. split; [done|].
      unfold len in *. rewrite length_take. lia.
    + intros [-> <-]. f_equal; [|apply drop_len_app].
      unfold len. rewrite Nat2Z.id. apply take_app_length.
Qed.

Lemma get_app n a r : len a = n -> get n (a ++ r) = Done a r.
Proof. intros H. apply get_done; [subst; apply len_nonneg | done]. Qed.

Lemma get_not_nofuel n d : get n d <> NoFuel.
Proof. unfold get. destruct (len d <? n); discriminate. Qed.

Lemma flat_pairs {A} (l : list A) m : len l = 2 * m -> flat (pairs l) = l /\ len (pairs l) = m.
Proof.
  revert l. assert (H : forall n l, (length l < n)%nat -> forall m, len l = 2 * m ->
    flat (pairs (A:=A) l) = l /\ len (pairs l) = m).
  { induction n as [|n IH]; [lia|]. intros [|x [|y l]] Hl k Hk;
      [ | unfold len in Hk; cbn in Hk; lia | ].
    - split; [done|]. unfold len in *. cbn in *. lia.
    - rewrite !len_cons in Hk. cbn in Hl. destruct (IH l ltac:(lia) (k - 1) ltac:(lia)) as [E1 E2].
      cbn [pairs]. split; [unfold flat in *; simpl; now rewrite E1 | rewrite len_cons; lia]. }
  intros l. apply (H (S (length l))). lia.
Qed.

Lemma pairs_flat {A} (l : list (A * A)) : pairs (flat l) = l.
Proof. induction l as [|[x y] l IH]; [done|]. unfold flat in *. cbn. now rewrite IH. Qed.

Lemma len_flat {A} (l : list (A * A)) : len (flat l) = 2 * len l.
Proof. induction l as [|[x y] l IH]; [done|]. unfold flat in *. cbn. rewrite !len_cons, IH. lia. Qed.

(** *** Progress and fuel *)

(** [m] reads from [d]: what is left is no longer than [d], and it is not
    about fuel. *)
Definition reads {A} (d : bytes) (m : outcome A) : Prop :=
  match m with Done _ r => len r <= len d | NoFuel => False | _ => True end.

Create HintDb fmt.

Lemma reads_done {A} d (a : A) : reads d (Done a d).
Proof. simpl. lia. Qed.

Lemma reads_short {A} d : reads (A:=A) d Short.
Proof. exact I. Qed.

Lemma reads_fail {A} d e : reads (A:=A) d (Fail e).
Proof. exact I. Qed.

Lemma reads_bind {A B} d (m : outcome A) (k : A -> bytes -> outcome B) :
  reads d m -> (forall a r, reads r (k a r)) -> reads d (obind m k).
Proof.
  destruct m as [a r| | |]; simpl; intros Hm Hk; try done.
  specialize (Hk a r). destruct (k a r); simpl in *; try done. lia.
Qed.

Lemma reads_map {A B} d (f : A -> B) m : reads d m -> reads d (out_map f m).
Proof. intros. apply reads_bind; [done|]. intros; apply reads_done. Qed.

Lemma reads_below {A} d l n e (m : outcome A) : reads d m -> reads d (below l n e m).
Proof. unfold below. destruct (l <? n); done. Qed.

Lemma reads_get n d : reads d (get n d).
Proof.
  unfold get. destruct (len d <? n); [done|]. simpl. unfold len. rewrite length_drop. lia.
Qed.

#[export] Hint Resolve reads_done reads_short reads_fail reads_bind reads_map reads_below
  reads_get : fmt.

Lemma reads_uint k d : reads d (uint k d).
Proof. unfold uint. auto with fmt. Qed.

Lemma reads_raw lim t n d : reads d (tok_raw lim t n d).
Proof. unfold tok_raw. auto with fmt. Qed.

Lemma reads_str lim n d : reads d (tok_str lim n d).
Proof. apply reads_raw. Qed.

Lemma reads_bin lim n d : reads d (tok_bin lim n d).
Proof. apply reads_raw. Qed.

Lemma reads_ext lim n d : reads d (tok_ext lim n d).
Proof. apply reads_raw. Qed.

Lemma reads_open lim depth k n d : reads d (tok_open lim depth k n d).
Proof. unfold tok_open. auto with fmt. Qed.

#[export] Hint Resolve reads_uint reads_str reads_bin reads_ext reads_open : fmt.

(** At least one byte is read. *)
Definition advances {A} (d : bytes) (m : outcome A) : Prop :=
  match m with Done _ r => len r < len d | NoFuel => False | _ => True end.

Lemma advances_cons {A} p d (m : outcome A) : reads d m -> advances (p :: d) m.
Proof. unfold reads, advances. destruct m; try done. rewrite len_cons. lia. Qed.

Lemma advances_bind {A B} d (m : outcome A) (k : A -> bytes -> outcome B) :
  advances d m -> (forall a r, len r < len d -> reads r (k a r)) -> advances d (obind m k).
Proof.
  destruct m as [a r| | |]; simpl; intros Hm Hk; try done.
  specialize (Hk a r Hm). destruct (k a r); simpl in *; try done. lia.
Qed.

Lemma tok_advances lim depth d : advances d (tok lim depth d).
Proof.
  destruct d as [|p d]; [done|]. apply advances_cons. unfold tok, tok_byte.
  repeat case_match; auto with fmt.
Qed.

Lemma items_reads one : forall g n d,
  (length d < g)%nat -> (forall d', len d' <= len d -> advances d' (one d')) ->
  reads d (items one g n d).
Proof.
  induction g as [|g IH]; intros n d Hg H1; [lia|].
  cbn [items]. destruct (n =? 0); [apply reads_done|].
  pose proof (H1 d ltac:(lia)) as H. destruct (one d) as [o r| | |]; simpl in *; try done.
  assert (H2 : reads r (out_map (cons o) (items one g (n - 1) r))).
  { apply reads_map, IH; [unfold len in *; lia|]. intros. apply H1. lia. }
  destruct (out_map (cons o) (items one g (n - 1) r)); simpl in *; try done. lia.
Qed.

(** Enough fuel: reading an object needs at most its length. *)
Lemma dec_advances lim : forall f depth d,
  (length d < f)%nat -> advances d (dec lim f depth d).
Proof.
  induction f as [|f IH]; intros depth d Hf; [lia|]. cbn [dec].
  apply advances_bind; [apply tok_advances|]. intros [o|k n] r Hr; [apply reads_done|].
  apply reads_map, items_reads; [unfold len in *; lia|].
  intros d' Hd. apply IH. unfold len in *. lia.
Qed.

Lemma decode_advances lim d : advances d (decode lim d).
Proof. apply dec_advances. lia. Qed.

(** *** More bytes do not change what was read *)

(** If [m] reads a value, [m'] reads it too and leaves [x] more; if it fails,
    so does [m']. *)
Definition extends_by {A} (x : bytes) (m m' : outcome A) : Prop :=
  match m with
  | Done a r => m' = Done a (r ++ x)
  | Fail e => m' = Fail e
  | _ => True
  end.

Lemma ext_done {A} x (a : A) r : extends_by x (Done a r) (Done a (r ++ x)).
Proof. done. Qed.

Lemma ext_fail {A} x e : extends_by (A:=A) x (Fail e) (Fail e).
Proof. done. Qed.

Lemma ext_bind {A B} x (m m' : outcome A) (k k' : A -> bytes -> outcome B) :
  extends_by x m m' -> (forall a r, extends_by x (k a r) (k' a (r ++ x))) ->
  extends_by x (obind m k) (obind m' k').
Proof. intros Hm Hk. destruct m; simpl in *; try done; subst m'; [apply Hk|done]. Qed.

Lemma ext_map {A B} x (f : A -> B) m m' :
  extends_by x m m' -> extends_by x (out_map f m) (out_map f m').
Proof. intros. apply ext_bind; [done|]. intros. apply ext_done. Qed.

Lemma ext_below {A} x l n e (m m' : outcome A) :
  extends_by x m m' -> extends_by x (below l n e m) (below l n e m').
Proof. unfold below. destruct (l <? n); [intros; apply ext_fail|done]. Qed.

Lemma ext_get x n d : extends_by x (get n d) (get n (d ++ x)).
Proof.
  unfold get. rewrite len_app. pose proof (len_nonneg x).
  destruct (Z.ltb_spec (len d) n); [done|]. simpl.
  destruct (Z.ltb_spec (len d + len x) n); [lia|]. unfold len in *.
  by rewrite take_app_le, drop_app_le by lia.
Qed.

#[export] Hint Resolve ext_done ext_fail ext_bind ext_map ext_below ext_get : fmt.

Lemma ext_uint x k d : extends_by x (uint k d) (uint k (d ++ x)).
Proof. unfold uint. auto with fmt. Qed.

Lemma ext_raw lim x t n d : extends_by x (tok_raw lim t n d) (tok_raw lim t n (d ++ x)).
Proof. unfold tok_raw. auto with fmt. Qed.

Lemma ext_str lim x n d : extends_by x (tok_str lim n d) (tok_str lim n (d ++ x)).
Proof. apply ext_raw. Qed.
Lemma ext_bin lim x n d : extends_by x (tok_bin lim n d) (tok_bin lim n (d ++ x)).
Proof. apply ext_raw. Qed.
Lemma ext_ext lim x n d : extends_by x (tok_ext lim n d) (tok_ext lim n (d ++ x)).
Proof. apply ext_raw. Qed.

Lemma ext_open lim x depth k n d :
  extends_by x (tok_open lim depth k n d) (tok_open lim depth k n (d ++ x)).
Proof. unfold tok_open. auto with fmt. Qed.

#[export] Hint Resolve ext_uint ext_str ext_bin ext_ext ext_open : fmt.

Lemma ext_tok lim depth x d : extends_by x (tok lim depth d) (tok lim depth (d ++ x)).
Proof.
  destruct d as [|p d]; [done|]. rewrite <- app_comm_cons. unfold tok, tok_byte.
  repeat case_match; auto with fmt.
Qed.

Lemma ext_items x one one' :
  (forall d, extends_by x (one d) (one' (d ++ x))) -> forall g g' n d, (g <= g')%nat ->
  extends_by x (items one g n d) (items one' g' n (d ++ x)).
Proof.
  intros H1. induction g as [|g IH]; intros [|g'] n d Hg; cbn [items];
    try lia; destruct (n =? 0); auto with fmt; try done.
  apply ext_bind; [done|]. intros. apply ext_map, IH. lia.
Qed.

Lemma ext_dec lim x : forall f f' depth d, (f <= f')%nat ->
  extends_by x (dec lim f depth d) (dec lim f' depth (d ++ x)).
Proof.
  induction f as [|f IH]; intros [|f'] depth d Hf; cbn [dec]; try lia; try done.
  apply ext_bind; [apply ext_tok|]. intros [o|k n] r; [apply ext_done|].
  apply ext_map, ext_items; [|lia]. intros. apply IH. lia.
Qed.

(** Bytes that follow do not change an object or an error. *)
Lemma decode_app lim d x : extends_by x (decode lim d) (decode lim (d ++ x)).
Proof. apply ext_dec. rewrite length_app. lia. Qed.

Lemma decode_done_app lim d x o r :
  decode lim d = Done o r -> decode lim (d ++ x) = Done o (r ++ x).
Proof. intros H. pose proof (decode_app lim d x) as E. by rewrite H in E. Qed.

(** ** A stream of objects *)

(** [d] holds the objects [os], then [rest], which wants more bytes. *)
Inductive stream (lim : unpack_limit) : bytes -> list object -> bytes -> Prop :=
| stream_end d : decode lim d = Short -> stream lim d [] d
| stream_more d o r os rest : decode lim d = Done o r -> stream lim r os rest ->
    stream lim d (o :: os) rest.

Lemma stream_app lim x os' rest' : forall d os rest,
  stream lim d os rest -> stream lim (rest ++ x) os' rest' ->
  stream lim (d ++ x) (os ++ os') rest'.
Proof.
  induction 1 as [d Hd|d o r os rest Hd Hs IH]; intros Hx; [done|].
  apply stream_more with (r ++ x); [by apply decode_done_app|by apply IH].
Qed.

(** A stream is read in one way only. *)
Lemma stream_det lim d os rest os' rest' :
  stream lim d os rest -> stream lim d os' rest' -> os = os' /\ rest = rest'.
Proof.
  intros H. revert os' rest'. induction H as [d Hd|d o r os rest Hd _ IH]; intros os' rest' H';
    inversion H' as [? Hd'|? ? ? ? ? Hd' Hs']; subst; rewrite Hd in Hd'; simplify_eq; [done|].
  by destruct (IH _ _ Hs') as [-> ->].
Qed.

Lemma stream_length lim d os rest : stream lim d os rest -> (length os <= length d)%nat.
Proof.
  induction 1 as [|d o r os rest Hd _ IH]; simpl; [lia|].
  pose proof (decode_advances lim d) as Ha. rewrite Hd in Ha. simpl in Ha. unfold len in Ha. lia.
Qed.

(** The objects of a prefix come first. *)
Lemma stream_split lim x : forall n d os rest,
  (length d < n)%nat -> stream lim (d ++ x) os rest ->
  exists os1 r1 os2, stream lim d os1 r1 /\ stream lim (r1 ++ x) os2 rest /\ os = os1 ++ os2.
Proof.
  induction n as [|n IH]; intros d os rest Hn Hs; [lia|].
  pose proof (decode_app lim d x) as He. pose proof (decode_advances lim d) as Ha.
  destruct (decode lim d) as [o r| |e|] eqn:Hd; simpl in He, Ha.
  - inversion Hs as [? Hd'|? ? ? os' ? Hd' Hs']; subst; rewrite He in Hd'; simplify_eq.
    destruct (IH r os' rest) as (os1 & r1 & os2 & H1 & H2 & ->); [unfold len in *; lia|done|].
    eexists (_ :: os1), r1, os2. split_and!; [by eapply stream_more|done|done].
  - exists [], d, os. split_and!; [by constructor|done|done].
  - inversion Hs as [? Hd'|? ? ? os' ? Hd' Hs']; subst; by rewrite He in Hd'.
  - done.
Qed.
