(* ===== verification/Tokens.v ===== *)
(** * The parser reads the format, one token at a time

    From a header state, [context::execute] with [create_object_visitor]
    follows [Format.tok]: the same token or the same exception, or it stops to
    wait for more input exactly when the bytes do not hold a whole token. *)

From S2P Require Import Prelude FloatBits MsgObject Parse Visitor Format.

Abbreviation vloop := (loop visitor).
Abbreviation vflow := (flow visitor unpack_exn).

(** The top of [m_stack] is a place an object can be written to. *)
Definition ready (v : visitor) (p : ptr) (vs : list (option ptr)) : Prop :=
  v_stack v = Some p :: vs /\ in_block v p = true.

(** The cell of a leaf object. *)
Inductive leaf_cell : cell -> object -> Prop :=
| lc_nil : leaf_cell CNil NIL
| lc_boolean b : leaf_cell (CBoolean b) (BOOLEAN b)
| lc_positive z : leaf_cell (CPositive z) (POSITIVE_INTEGER z)
| lc_negative z : leaf_cell (CNegative z) (NEGATIVE_INTEGER z)
| lc_float32 z : leaf_cell (CFloat32 z) (FLOAT32 z)
| lc_float64 z : leaf_cell (CFloat64 z) (FLOAT64 z)
| lc_str s : leaf_cell (CStr s (len s)) (STR s)
| lc_bin s : leaf_cell (CBin s (len s)) (BIN s)
| lc_ext t s : leaf_cell (CExt (t :: s) (len s)) (EXT t s).
#[export] Hint Constructors leaf_cell : fmt.

(** The visitor after a cell was written; [m_referenced] may have been set. *)
Definition wrote (c : cell) (b : bool) (p : ptr) (v : visitor) : visitor :=
  set_cells (<[p := c]> (cells v)) (set_referenced b v).

Definition put (o : object) (p : ptr) (v v' : visitor) : Prop :=
  exists c b, leaf_cell c o /\ v' = wrote c b p v.

Lemma write_back_ready c v p vs :
  ready v p vs -> write_back c v = Ok (true, wrote c (m_referenced v) p v).
Proof. intros [Hs Hb]. unfold write_back. rewrite Hs, Hb. by destruct v. Qed.

Lemma put_leaf o c p v : leaf_cell c o -> put o p v (wrote c (m_referenced v) p v).
Proof. intros H. by exists c, (m_referenced v). Qed.

Lemma take_len {A} (s : list A) : take (Z.to_nat (len s)) s = s.
Proof. apply take_ge. unfold len. lia. Qed.

Lemma keep_or_copy_all t s v :
  exists b, keep_or_copy t s (len s) v = (s, set_referenced b v).
Proof.
  unfold keep_or_copy. rewrite take_len. destruct (m_func v) as [f|]; [destruct (f t (len s))|];
    eauto; exists (m_referenced v); by destruct v.
Qed.

Definition rvisit (t : raw_type) : bytes -> Z -> visitor -> res unpack_exn (bool * visitor) :=
  match t with T_STR => visit_str | T_BIN => visit_bin | T_EXT => visit_ext end.
Definition rstate (t : raw_type) : unpack_state :=
  match t with T_STR => ACS_STR_VALUE | T_BIN => ACS_BIN_VALUE | T_EXT => ACS_EXT_VALUE end.

(** The raw visits, on a whole payload. *)
Lemma rvisit_ready t s v p vs :
  ready v p vs -> (t = T_EXT -> 0 < len s < 2 ^ 32) ->
  if raw_limit (m_limit v) t <? len s then rvisit t s (len s) v = Throw (raw_overflow t)
  else exists v', rvisit t s (len s) v = Ok (true, v') /\ put (raw_object t s) p v v'.
Proof.
  intros [Hs Hb] Hl. destruct t; simpl; unfold v_str, v_bin, v_ext; destruct (_ <? _); try done.
  - destruct (keep_or_copy_all T_STR s v) as [b ->].
    rewrite (write_back_ready _ _ p vs) by done. eexists. split; [done|].
    eexists _, b. split; [constructor|]. by destruct v.
  - destruct (keep_or_copy_all T_BIN s v) as [b ->].
    rewrite (write_back_ready _ _ p vs) by done. eexists. split; [done|].
    eexists _, b. split; [constructor|]. by destruct v.
  - destruct (keep_or_copy_all T_EXT s v) as [b ->].
    rewrite (write_back_ready _ _ p vs) by done. eexists. split; [done|].
    specialize (Hl eq_refl). destruct s as [|t s]; [change (len []) with 0 in Hl; lia|].
    rewrite len_cons in *. eexists _, b. split; [|by destruct v].
    rewrite wrap_small by lia. replace (1 + len s - 1) with (len s) by lia. constructor.
Qed.

(** ** Running the loop *)

Definition step (data : bytes) (l l' : vloop) : Prop := exec_iter data l = Go l'.

Section Data.
Variable data : bytes.
Hypothesis data_size : len data < 2 ^ 32.

(** At a header, with no payload awaited. *)
Definition header_at (t : Z) (st : list stack_elem) (v : visitor) (pos : Z) : vloop :=
  {| ctx := {| m_trail := t; m_cs := CS_HEADER; m_stack := st; holder := v |};
     m_current := pos; fixed_trail_again := false |}.

(** Awaiting [t] bytes at [pos] for the state [cs]. *)
Definition awaiting (t : Z) (cs : unpack_state) (st : list stack_elem) (v : visitor) (pos : Z)
    : vloop :=
  {| ctx := {| m_trail := t; m_cs := cs; m_stack := st; holder := v |};
     m_current := pos - 1; fixed_trail_again := true |}.

(** At the last byte of a payload. *)
Definition arrived (t : Z) (cs : unpack_state) (st : list stack_elem) (v : visitor) (pos : Z)
    : vloop :=
  {| ctx := {| m_trail := t; m_cs := cs; m_stack := st; holder := v |};
     m_current := pos - 1; fixed_trail_again := false |}.

Definition kstart (k : kind) : Z -> visitor -> res unpack_exn (bool * visitor) :=
  match k with K_ARRAY => start_array | K_MAP => start_map end.
Definition kend (k : kind) : visitor -> res unpack_exn (bool * visitor) :=
  match k with K_ARRAY => end_array | K_MAP => end_map end.
Definition ktype (k : kind) : container_type :=
  match k with K_ARRAY => CT_ARRAY_ITEM | K_MAP => CT_MAP_KEY end.

(** [f] is what the body does once the token [T] has been read, up to the
    position [len q]. *)
Definition tok_flow (st : list stack_elem) (v : visitor) (p : ptr) (T : outcome token)
    (f : vflow) : Prop :=
  match T with
  | Done (Leaf o) r => exists q l v', data = q ++ r /\ f = after_visit_proc (Ok (true, v')) l /\
      m_current l + 1 = len q /\ fixed_trail_again l = false /\ m_stack (ctx l) = st /\
      put o p v v'
  | Done (Open k n) r => exists q l, data = q ++ r /\ 0 <= n < 2 ^ 32 /\
      n <= open_limit (m_limit v) k /\ len (v_stack v) <= depth_ (m_limit v) /\
      f = start_aggregate (ktype k) n (kstart k) (kend k) l /\
      m_current l + 1 = len q /\ fixed_trail_again l = false /\ m_stack (ctx l) = st /\
      holder (ctx l) = v
  | Short => exists n c, f = Ret PARSE_CONTINUE n c
  | Fail e => exists c, f = Exc e c
  | NoFuel => False
  end.

(** At once, or after one more turn. *)
Definition tok_sim st v p (T : outcome token) (f : vflow) : Prop :=
  tok_flow st v p T f \/
  exists l, f = Go l /\ m_current l <> len data /\ tok_flow st v p T (exec_body data l).

(** *** Payloads *)

Section Payload.
Variables (st : list stack_elem) (v : visitor) (p : ptr) (vs : list (option ptr)).
Hypothesis Hready : ready v p vs.

Lemma exec_trail_awaiting t cs q r :
  data = q ++ r ->
  exec_trail data (awaiting t cs st v (len q)) =
  (if len r <? t then Ret PARSE_CONTINUE (len q) (ctx (awaiting t cs st v (len q)))
   else exec_switch data (len q) (arrived t cs st v (len q + t))).
Proof.
  intros Hd. unfold exec_trail. simpl. replace (len q - 1 + 1) with (len q) by lia.
  rewrite Hd, len_app. replace (len q + len r - len q) with (len r) by lia. done.
Qed.

Lemma exec_body_awaiting t cs pos :
  is_header cs = false ->
  exec_body data (awaiting t cs st v pos) = exec_trail data (awaiting t cs st v pos).
Proof. intros Hh. unfold exec_body. simpl. rewrite Hh. simpl. by rewrite Hh. Qed.

(** A payload of [t] bytes for the state [cs]. *)
Lemma await t cs q r (k : bytes -> bytes -> outcome token) :
  data = q ++ r -> 0 <= t ->
  (forall a r', data = q ++ a ++ r' -> len a = t ->
     tok_sim st v p (k a r') (exec_switch data (len q) (arrived t cs st v (len (q ++ a))))) ->
  tok_sim st v p (obind (get t r) k) (exec_trail data (awaiting t cs st v (len q))).
Proof.
  intros Hd Ht Hk. rewrite (exec_trail_awaiting _ _ q r Hd). unfold get.
  destruct (Z.ltb_spec (len r) t) as [|Hl]; [left; do 2 eexists; done|]. simpl.
  set (a := take (Z.to_nat t) r). set (r' := drop (Z.to_nat t) r).
  assert (Ea : len a = t) by (unfold a, len in *; rewrite length_take; lia).
  replace (len q + t) with (len (q ++ a)) by (rewrite len_app; lia).
  apply Hk; [|done]. unfold a, r'. by rewrite take_drop.
Qed.

Lemma slice_mid q a r n : data = q ++ a ++ r -> len a = n -> slice data (len q) n = a.
Proof. intros -> <-. by apply slice_app. Qed.

(** The raw payload itself. *)
Lemma raw_flow t q r n (l : vloop) (pos : Z) (c : context visitor) :
  data = q ++ r -> (0 < n \/ t <> T_EXT) -> 0 <= n ->
  m_current l + 1 = len q + n -> fixed_trail_again l = false -> m_stack (ctx l) = st ->
  tok_flow st v p (tok_raw (m_limit v) t n r)
    (if len r <? n then Ret PARSE_CONTINUE pos c
     else after_visit_proc (rvisit t (slice data (len q) n) (wrap 32 n) v) l).
Proof.
  intros Hd Hn Hn0 Hp Ha Hst. unfold tok_raw, get.
  destruct (Z.ltb_spec (len r) n) as [|Hl]; simpl; [do 2 eexists; done|].
  set (a := take (Z.to_nat n) r). set (r' := drop (Z.to_nat n) r).
  assert (Ea : len a = n) by (unfold a, len in *; rewrite length_take; lia).
  assert (Hd' : data = q ++ a ++ r') by (unfold a, r'; by rewrite take_drop).
  rewrite (slice_mid q a r' n Hd' Ea). clearbody a r'.
  assert (n < 2 ^ 32) by (rewrite Hd, len_app in data_size; pose proof (len_nonneg q); lia).
  rewrite wrap_small by lia. rewrite <- Ea in *.
  assert (H0 : t = T_EXT -> 0 < len a < 2 ^ 32) by (intros ->; destruct Hn; [lia|done]).
  pose proof (rvisit_ready t a v p vs Hready H0) as Hv.
  unfold below. destruct (raw_limit (m_limit v) t <? len a).
  - rewrite Hv. by eexists.
  - destruct Hv as (v' & -> & Hput). exists (q ++ a), l, v'.
    split_and!; try done; [by rewrite <- app_assoc|]. rewrite len_app. lia.
Qed.

Lemma uint_bind {B} k d (f : Z -> bytes -> outcome B) :
  obind (uint k d) f = obind (get k d) (fun a r => f (be_val a) r).
Proof. unfold uint. by destruct (get k d). Qed.

Lemma load_mid q a r k : data = q ++ a ++ r -> len a = k -> load data k (len q) = be_val a.
Proof. intros Hd Ha. unfold load. by rewrite (slice_mid q a r k Hd Ha). Qed.

(** A number. *)
Lemma leaf_payload k cs q r (visit : Z -> visitor -> res unpack_exn (bool * visitor))
    (f : Z -> object) (mk : Z -> cell) :
  data = q ++ r -> 0 <= k ->
  (forall n l, m_cs (ctx l) = cs ->
     exec_switch data n l = after_visit_proc (visit (load data k n) (holder (ctx l))) l) ->
  (forall z, visit z v = write_back (mk z) v) -> (forall z, leaf_cell (mk z) (f z)) ->
  tok_sim st v p (out_map (fun z => Leaf (f z)) (uint k r))
    (exec_trail data (awaiting k cs st v (len q))).
Proof.
  intros Hd Hk Hs Hv Hc. unfold out_map. rewrite uint_bind. apply (await _ _ q); [done|done|].
  intros a r' Hd' Ha. left. rewrite Hs by done. rewrite (load_mid q a r' k Hd' Ha). simpl.
  rewrite Hv, (write_back_ready _ _ _ _ Hready).
  eexists (q ++ a), _, _. split_and!; try done; [by rewrite <- app_assoc|simpl; lia|].
  by apply put_leaf.
Qed.

(** A length field and the payload it announces. *)
Lemma length_payload t k e cs q r :
  data = q ++ r -> 0 < k -> 0 <= e -> (t = T_EXT -> 0 < e) ->
  (forall n l, m_cs (ctx l) = cs ->
     exec_switch data n l = length_field (rvisit t) (rstate t) (load data k n + e) l) ->
  tok_sim st v p (obind (uint k r) (fun z => tok_raw (m_limit v) t (z + e)))
    (exec_trail data (awaiting k cs st v (len q))).
Proof.
  intros Hd Hk He Ht Hs. rewrite uint_bind. apply (await _ _ q); [done|lia|].
  intros a r' Hd' Ha. rewrite Hs by done. rewrite (load_mid q a r' k Hd' Ha).
  pose proof (be_val_range a). unfold length_field. simpl.
  assert (Hd2 : data = (q ++ a) ++ r') by (by rewrite <- app_assoc).
  destruct (Z.eqb_spec (be_val a + e) 0) as [E0|E0].
  - left. rewrite E0. pose proof (len_nonneg r').
    pose proof (raw_flow t (q ++ a) r' 0
      (set_ctx (set_trail 0 (ctx (arrived k cs st v (len (q ++ a)))))
        (arrived k cs st v (len (q ++ a)))) 0 (ctx (arrived k cs st v 0)) Hd2) as F.
    destruct (Z.ltb_spec (len r') 0); [lia|]. apply F; try done; [|simpl; lia].
    right. intros ->. specialize (Ht eq_refl). lia.
  - right. eexists. split; [reflexivity|]. split.
    { simpl. rewrite Hd2, (len_app (q ++ a)). pose proof (len_nonneg r'). lia. }
    match goal with |- tok_flow _ _ _ _ (exec_body data ?l) =>
      change l with (awaiting (be_val a + e) (rstate t) st v (len (q ++ a))) end.
    rewrite exec_body_awaiting by (by destruct t).
    rewrite (exec_trail_awaiting _ _ (q ++ a) r' Hd2).
    pose proof (raw_flow t (q ++ a) r' (be_val a + e)
      (arrived (be_val a + e) (rstate t) st v (len (q ++ a) + (be_val a + e)))) as F.
    destruct t; (apply F; [done|first [left; lia | right; done]|lia|simpl; lia|done|done]).
Qed.

(** A fixed-size ext. *)
Lemma fixext_payload n cs q r :
  data = q ++ r -> 0 <= n ->
  (forall m l, m_cs (ctx l) = cs ->
     exec_switch data m l =
     after_visit_proc (visit_ext (slice data m (n + 1)) (n + 1) (holder (ctx l))) l) ->
  n < 2 ^ 31 ->
  tok_sim st v p (tok_ext (m_limit v) n r) (exec_trail data (awaiting (n + 1) cs st v (len q))).
Proof.
  intros Hd Hn Hs Hb. left. rewrite (exec_trail_awaiting _ _ q r Hd), Hs by done.
  pose proof (raw_flow T_EXT q r (n + 1) (arrived (n + 1) cs st v (len q + (n + 1)))) as F.
  rewrite wrap_small in F by lia. apply F; [done|lia|lia|simpl; lia|done|done].
Qed.

(** A container header. *)
Lemma kstart_limits K n :
  if open_limit (m_limit v) K <? n then kstart K n v = Throw (open_overflow K)
  else if depth_ (m_limit v) <? len (v_stack v) then kstart K n v = Throw depth_size_overflow
  else True.
Proof. destruct K; simpl; unfold v_start_array, v_start_map; by repeat destruct (_ <? _). Qed.

Lemma open_flow K n q r (l : vloop) :
  data = q ++ r -> 0 <= n < 2 ^ 32 -> m_current l + 1 = len q -> fixed_trail_again l = false ->
  m_stack (ctx l) = st -> holder (ctx l) = v ->
  tok_flow st v p (tok_open (m_limit v) (len (v_stack v)) K n r)
    (start_aggregate (ktype K) n (kstart K) (kend K) l).
Proof.
  intros Hd Hn Hp Ha Hst Hv. unfold tok_open, below. pose proof (kstart_limits K n) as H.
  assert (X : forall e, kstart K n v = Throw e ->
    exists c, start_aggregate (ktype K) n (kstart K) (kend K) l = Exc e c).
  { intros e He. unfold start_aggregate. rewrite Hv, He.
    destruct (n =? 0); simpl; by eexists. }
  destruct (Z.ltb_spec (open_limit (m_limit v) K) n); [by apply X|].
  destruct (Z.ltb_spec (depth_ (m_limit v)) (len (v_stack v))); [by apply X|].
  exists q, l. split_and!; done || lia.
Qed.

Lemma open_payload K k cs q r :
  data = q ++ r -> 0 < k <= 4 ->
  (forall n l, m_cs (ctx l) = cs ->
     exec_switch data n l = start_aggregate (ktype K) (load data k n) (kstart K) (kend K) l) ->
  tok_sim st v p (obind (uint k r) (tok_open (m_limit v) (len (v_stack v)) K))
    (exec_trail data (awaiting k cs st v (len q))).
Proof.
  intros Hd Hk Hs. rewrite uint_bind. apply (await _ _ q); [done|lia|].
  intros a r' Hd' Ha. rewrite Hs by done. rewrite (load_mid q a r' k Hd' Ha). left.
  apply (open_flow K _ (q ++ a)); try done; [by rewrite <- app_assoc| |simpl; lia].
  pose proof (be_val_range a). assert (2 ^ (8 * len a) <= 2 ^ 32)
    by (apply Z.pow_le_mono_r; lia). lia.
Qed.

(** *** Headers *)

(** The second half of the body, after a header. *)
Definition then_trail (f : vflow) : vflow :=
  match f with
  | Go l' => if negb (is_header (m_cs (ctx l'))) || fixed_trail_again l'
             then exec_trail data l' else Go l'
  | f => f
  end.

Lemma body_header (l : vloop) :
  is_header (m_cs (ctx l)) = true -> exec_body data l = then_trail (exec_header data l).
Proof. intros Hh. unfold exec_body. by rewrite Hh. Qed.

Lemma after_visit_idle m (l : vloop) :
  fixed_trail_again l = false -> then_trail (after_visit_proc m l) = after_visit_proc m l.
Proof.
  intros Ha. unfold then_trail, after_visit_proc.
  repeat case_match; simplify_eq/=; by rewrite ?Ha in *.
Qed.

Lemma start_aggregate_idle k n sv ev (l : vloop) :
  fixed_trail_again l = false ->
  then_trail (start_aggregate k n sv ev l) = start_aggregate k n sv ev l.
Proof.
  intros Ha. unfold then_trail, start_aggregate, aggregate_end.
  repeat case_match; simplify_eq/=; by rewrite ?Ha in *.
Qed.

Section Header.
Variables (q r : bytes) (b : byte) (t : Z).
Hypothesis Hdata : data = q ++ b :: r.

Lemma header_byte : default Byte.x00 (data !! Z.to_nat (len q)) = b.
Proof.
  rewrite Hdata. unfold len. rewrite Nat2Z.id. by rewrite list_lookup_middle.
Qed.

Lemma data_cut : data = (q ++ [b]) ++ r.
Proof. by rewrite <- app_assoc. Qed.

Lemma header_len : len (q ++ [b]) - 1 = len q.
Proof. rewrite len_app. change (len [b]) with 1. lia. Qed.

(** 0xc4 .. 0xdf: the payload is awaited. *)
Lemma payload_body :
  0xc4 <= u8 b <= 0xdf ->
  exec_body data (header_at t st v (len q)) =
  exec_trail data (awaiting (default 0 (trail_table !! Z.to_nat (u8 b - 0xc4)))
                    (next_cs b) st v (len (q ++ [b]))).
Proof.
  intros Hb. rewrite body_header by done.
  unfold exec_header. cbn [m_current set_again header_at].
  rewrite header_byte.
  replace ((0x00 <=? u8 b) && (u8 b <=? 0x7f)) with false by (symmetry; lia).
  replace ((0xe0 <=? u8 b) && (u8 b <=? 0xff)) with false by (symmetry; lia).
  replace ((0xc4 <=? u8 b) && (u8 b <=? 0xdf)) with true by (symmetry; lia).
  unfold awaiting. rewrite header_len. simpl. by rewrite orb_true_r.
Qed.

(** 0xa0 .. 0xbf *)
Lemma fixstr_sim :
  0xa0 <= u8 b <= 0xbf ->
  tok_sim st v p (tok_str (m_limit v) (u8 b - 0xa0) r) (exec_body data (header_at t st v (len q))).
Proof.
  intros Hb. assert (El : Z.land (u8 b) 0x1f = u8 b - 0xa0).
  { change 0x1f with (Z.ones 5). rewrite Z.land_ones by lia. change (2 ^ 5) with 32.
    symmetry. apply Z.mod_unique with 5; lia. }
  rewrite body_header by done. unfold exec_header. cbn [m_current set_again header_at].
  rewrite header_byte, El.
  replace ((0x00 <=? u8 b) && (u8 b <=? 0x7f)) with false by (symmetry; lia).
  replace ((0xe0 <=? u8 b) && (u8 b <=? 0xff)) with false by (symmetry; lia).
  replace ((0xc4 <=? u8 b) && (u8 b <=? 0xdf)) with false by (symmetry; lia).
  replace ((0xa0 <=? u8 b) && (u8 b <=? 0xbf)) with true by (symmetry; lia).
  pose proof (raw_flow T_STR (q ++ [b]) r (u8 b - 0xa0)) as F. left. unfold tok_str.
  destruct (Z.eqb_spec (u8 b - 0xa0) 0) as [E0|E0].
  - rewrite after_visit_idle by done.
    specialize (F (set_ctx (set_trail (u8 b - 0xa0) (ctx (header_at t st v (len q))))
      (header_at t st v (len q))) 0 (ctx (header_at t st v 0)) data_cut
      ltac:(right; done) ltac:(lia)).
    rewrite E0 in *. pose proof (len_nonneg r). destruct (Z.ltb_spec (len r) 0); [lia|].
    apply F; [|done|done]. simpl. pose proof header_len. lia.
  - simpl. rewrite <- header_len.
    change (exec_trail data _) with
      (exec_trail data (awaiting (u8 b - 0xa0) ACS_STR_VALUE st v (len (q ++ [b])))).
    rewrite (exec_trail_awaiting _ _ (q ++ [b]) r data_cut).
    apply F; [apply data_cut|by right|lia|simpl; lia|done|done].
Qed.

Lemma fixed_leaf c o :
  leaf_cell c o ->
  exec_header data (header_at t st v (len q)) =
    after_visit_proc (write_back c v) (header_at t st v (len q)) ->
  tok_sim st v p (Done (Leaf o) r) (exec_body data (header_at t st v (len q))).
Proof.
  intros Hc He. left. rewrite body_header, He, after_visit_idle by done.
  rewrite (write_back_ready _ _ _ _ Hready). eexists (q ++ [b]), _, _.
  split_and!; try done; [apply data_cut| |by apply put_leaf].
  simpl. pose proof header_len. lia.
Qed.

(** Evaluate the comparisons of [exec_header] once the header's range is known. *)
Ltac header_case :=
  unfold exec_header; cbn [m_current set_again header_at]; rewrite header_byte;
  repeat match goal with
  | |- context [if ?c then _ else _] =>
    first [replace c with true by (symmetry; lia) | replace c with false by (symmetry; lia)]
  end.

Lemma fixcontainer_sim K base :
  base = match K with K_ARRAY => 0x90 | K_MAP => 0x80 end -> base <= u8 b <= base + 15 ->
  tok_sim st v p (tok_open (m_limit v) (len (v_stack v)) K (u8 b - base) r)
    (exec_body data (header_at t st v (len q))).
Proof.
  intros Hbase Hb. assert (El : Z.land (u8 b) 0x0f = u8 b - base).
  { change 0x0f with (Z.ones 4). rewrite Z.land_ones by lia. change (2 ^ 4) with 16.
    symmetry. apply Z.mod_unique with (base / 16); destruct K; subst base;
      change (0x90 / 16) with 9; change (0x80 / 16) with 8; lia. }
  left. rewrite body_header by done.
  assert (He : exec_header data (header_at t st v (len q)) =
    start_aggregate (ktype K) (u8 b - base) (kstart K) (kend K) (header_at t st v (len q))).
  { destruct K; subst base; header_case; by rewrite El. }
  rewrite He, start_aggregate_idle by done.
  apply (open_flow K _ (q ++ [b])); try done; [apply data_cut|lia|].
  simpl. pose proof header_len. lia.
Qed.

(** A payload case: evaluate the tables at the header byte [Hs] gives. *)
Ltac payload_case Hs :=
  rewrite payload_body by lia; unfold next_cs; rewrite Hs;
  cbv [tok_byte Z.leb Z.compare Pos.compare Pos.compare_cont];
  lazymatch goal with |- context [awaiting ?a ?c st v _] =>
    let a' := eval vm_compute in a in let c' := eval vm_compute in c in
    change a with a'; change c with c' end.

Ltac by_length k t e :=
  rewrite (obind_ext _ _ (fun z => tok_raw (m_limit v) t (z + e)))
    by (intros; unfold tok_str, tok_bin, tok_ext; f_equal; lia);
  apply (length_payload t k e); [apply data_cut|lia|lia|intros; try discriminate; lia|];
  intros ? l Hl; unfold exec_switch; rewrite Hl; rewrite ?Z.add_0_r; try reflexivity.

Ltac by_leaf k visit f mk :=
  apply (leaf_payload k _ _ _ visit f mk); [apply data_cut|lia| | |];
  [intros ? l Hl; unfold exec_switch; rewrite Hl; reflexivity | reflexivity | auto with fmt].

Ltac by_open K k :=
  apply (open_payload K k); [apply data_cut|lia|];
  intros ? l Hl; unfold exec_switch; rewrite Hl; reflexivity.

Ltac by_fixext n :=
  apply (fixext_payload n); [apply data_cut|lia| |lia];
  intros ? l Hl; unfold exec_switch; rewrite Hl; reflexivity.

Lemma wrap64_load (k m : Z) : 0 <= k <= 4 -> wrap 64 (load data k m + 1) = load data k m + 1.
Proof.
  intros Hk. unfold load. pose proof (be_val_range (slice data m k)).
  assert (len (slice data m k) <= k) by (unfold slice, len; rewrite length_take; lia).
  assert (2 ^ (8 * len (slice data m k)) <= 2 ^ 32) by (apply Z.pow_le_mono_r; lia).
  apply wrap_small. lia.
Qed.

Abbreviation payload_goal :=
  (tok_sim st v p (tok_byte (m_limit v) (len (v_stack v)) (u8 b) r)
     (exec_body data (header_at t st v (len q)))).

Lemma length_cases :
  0xc4 <= u8 b <= 0xc9 \/ 0xd9 <= u8 b <= 0xdb -> payload_goal.
Proof.
  intros Hb.
  destruct (Z.eq_dec (u8 b) 0xc4) as [Hs|]; [payload_case Hs; by_length 1 T_BIN 0|].
  destruct (Z.eq_dec (u8 b) 0xc5) as [Hs|]; [payload_case Hs; by_length 2 T_BIN 0|].
  destruct (Z.eq_dec (u8 b) 0xc6) as [Hs|]; [payload_case Hs; by_length 4 T_BIN 0|].
  destruct (Z.eq_dec (u8 b) 0xc7) as [Hs|]; [payload_case Hs; by_length 1 T_EXT 1|].
  destruct (Z.eq_dec (u8 b) 0xc8) as [Hs|]; [payload_case Hs; by_length 2 T_EXT 1|].
  destruct (Z.eq_dec (u8 b) 0xc9) as [Hs|].
  { payload_case Hs; by_length 4 T_EXT 1. by rewrite wrap64_load by lia. }
  destruct (Z.eq_dec (u8 b) 0xd9) as [Hs|]; [payload_case Hs; by_length 1 T_STR 0|].
  destruct (Z.eq_dec (u8 b) 0xda) as [Hs|]; [payload_case Hs; by_length 2 T_STR 0|].
  destruct (Z.eq_dec (u8 b) 0xdb) as [Hs|]; [payload_case Hs; by_length 4 T_STR 0|].
  lia.
Qed.

Definition neg_cell (z : Z) : cell := if 0 <=? z then CPositive z else CNegative z.

Lemma neg_leaf z : leaf_cell (neg_cell z) (neg_or_pos z).
Proof. unfold neg_cell, neg_or_pos. destruct (0 <=? z); constructor. Qed.

Ltac by_signed k :=
  apply (leaf_payload k _ _ _ (fun z => v_negative_integer (sext (8 * k) z))
           (fun z => neg_or_pos (sext (8 * k) z)) (fun z => neg_cell (sext (8 * k) z)));
  [apply data_cut|lia| | |];
  [intros ? l Hl; unfold exec_switch; rewrite Hl; reflexivity | reflexivity
  | intros; apply neg_leaf].

Lemma number_cases : 0xca <= u8 b <= 0xd3 -> payload_goal.
Proof.
  intros Hb.
  destruct (Z.eq_dec (u8 b) 0xca) as [Hs|];
    [payload_case Hs; by_leaf 4 v_float32 (fun z => FLOAT32 (widen z)) (fun z => CFloat32 (widen z))|].
  destruct (Z.eq_dec (u8 b) 0xcb) as [Hs|]; [payload_case Hs; by_leaf 8 v_float64 FLOAT64 CFloat64|].
  destruct (Z.eq_dec (u8 b) 0xcc) as [Hs|];
    [payload_case Hs; by_leaf 1 v_positive_integer POSITIVE_INTEGER CPositive|].
  destruct (Z.eq_dec (u8 b) 0xcd) as [Hs|];
    [payload_case Hs; by_leaf 2 v_positive_integer POSITIVE_INTEGER CPositive|].
  destruct (Z.eq_dec (u8 b) 0xce) as [Hs|];
    [payload_case Hs; by_leaf 4 v_positive_integer POSITIVE_INTEGER CPositive|].
  destruct (Z.eq_dec (u8 b) 0xcf) as [Hs|];
    [payload_case Hs; by_leaf 8 v_positive_integer POSITIVE_INTEGER CPositive|].
  destruct (Z.eq_dec (u8 b) 0xd0) as [Hs|]; [payload_case Hs; by_signed 1|].
  destruct (Z.eq_dec (u8 b) 0xd1) as [Hs|]; [payload_case Hs; by_signed 2|].
  destruct (Z.eq_dec (u8 b) 0xd2) as [Hs|]; [payload_case Hs; by_signed 4|].
  destruct (Z.eq_dec (u8 b) 0xd3) as [Hs|]; [payload_case Hs; by_signed 8|].
  lia.
Qed.

Lemma fixext_open_cases :
  0xd4 <= u8 b <= 0xd8 \/ 0xdc <= u8 b <= 0xdf -> payload_goal.
Proof.
  intros Hb.
  destruct (Z.eq_dec (u8 b) 0xd4) as [Hs|]; [payload_case Hs; by_fixext 1|].
  destruct (Z.eq_dec (u8 b) 0xd5) as [Hs|]; [payload_case Hs; by_fixext 2|].
  destruct (Z.eq_dec (u8 b) 0xd6) as [Hs|]; [payload_case Hs; by_fixext 4|].
  destruct (Z.eq_dec (u8 b) 0xd7) as [Hs|]; [payload_case Hs; by_fixext 8|].
  destruct (Z.eq_dec (u8 b) 0xd8) as [Hs|]; [payload_case Hs; by_fixext 16|].
  destruct (Z.eq_dec (u8 b) 0xdc) as [Hs|]; [payload_case Hs; by_open K_ARRAY 2|].
  destruct (Z.eq_dec (u8 b) 0xdd) as [Hs|]; [payload_case Hs; by_open K_ARRAY 4|].
  destruct (Z.eq_dec (u8 b) 0xde) as [Hs|]; [payload_case Hs; by_open K_MAP 2|].
  destruct (Z.eq_dec (u8 b) 0xdf) as [Hs|]; [payload_case Hs; by_open K_MAP 4|].
  lia.
Qed.

Lemma fixed_cases :
  u8 b <= 0x7f \/ 0xe0 <= u8 b \/ 0xc0 <= u8 b <= 0xc3 -> payload_goal.
Proof.
  intros Hb. pose proof (u8_range b) as Hr.
  destruct (Z.leb_spec (u8 b) 0x7f).
  { replace (tok_byte _ _ _ _) with (Done (Leaf (POSITIVE_INTEGER (u8 b))) r)
      by (unfold tok_byte; by replace (u8 b <=? 0x7f) with true by (symmetry; lia)).
    apply (fixed_leaf (CPositive (u8 b))); [constructor|]. by header_case. }
  destruct (Z.leb_spec 0xe0 (u8 b)).
  { replace (tok_byte _ _ _ _) with (Done (Leaf (NEGATIVE_INTEGER (u8 b - 256))) r)
      by (unfold tok_byte; repeat match goal with |- context [if ?c then _ else _] =>
            first [replace c with true by (symmetry; lia) | replace c with false by (symmetry; lia)]
          end; done).
    apply (fixed_leaf (CNegative (u8 b - 256))); [constructor|]. header_case.
    unfold visit_negative_integer, create_object_visitor, v_negative_integer.
    assert (i8 b = u8 b - 256) as ->.
    { unfold i8, sext. rewrite wrap_small by (change (2 ^ 8) with 256; lia).
      change (2 ^ (8 - 1)) with 128. destruct (Z.ltb_spec (u8 b) 128); lia. }
    by destruct (Z.leb_spec 0 (u8 b - 256)); [lia|]. }
  destruct (Z.eq_dec (u8 b) 0xc0) as [Hs|].
  { replace (tok_byte _ _ _ _) with (Done (Leaf NIL) r) by by rewrite Hs.
    apply (fixed_leaf CNil); [constructor|]. by header_case. }
  destruct (Z.eq_dec (u8 b) 0xc2) as [Hs|].
  { replace (tok_byte _ _ _ _) with (Done (Leaf (BOOLEAN false)) r) by by rewrite Hs.
    apply (fixed_leaf (CBoolean false)); [constructor|]. by header_case. }
  destruct (Z.eq_dec (u8 b) 0xc3) as [Hs|].
  { replace (tok_byte _ _ _ _) with (Done (Leaf (BOOLEAN true)) r) by by rewrite Hs.
    apply (fixed_leaf (CBoolean true)); [constructor|]. by header_case. }
  assert (Hs : u8 b = 0xc1) by lia.
  replace (tok_byte _ _ _ _) with (Fail (A:=token) parse_error_exn) by by rewrite Hs.
  left. rewrite body_header by done. header_case. by eexists.
Qed.

Lemma tok_ok_cons : payload_goal.
Proof.
  pose proof (u8_range b) as Hr.
  assert (H : u8 b <= 0x7f \/ 0x80 <= u8 b <= 0x8f \/ 0x90 <= u8 b <= 0x9f \/ 0xa0 <= u8 b <= 0xbf \/
    0xc0 <= u8 b <= 0xc3 \/ 0xc4 <= u8 b <= 0xc9 \/ 0xca <= u8 b <= 0xd3 \/ 0xd4 <= u8 b <= 0xd8 \/
    0xd9 <= u8 b <= 0xdb \/ 0xdc <= u8 b <= 0xdf \/ 0xe0 <= u8 b) by lia.
  assert (T : 0x80 <= u8 b <= 0xbf -> tok_byte (m_limit v) (len (v_stack v)) (u8 b) r =
    if u8 b <=? 0x8f then tok_open (m_limit v) (len (v_stack v)) K_MAP (u8 b - 0x80) r
    else if u8 b <=? 0x9f then tok_open (m_limit v) (len (v_stack v)) K_ARRAY (u8 b - 0x90) r
    else tok_str (m_limit v) (u8 b - 0xa0) r).
  { intros. unfold tok_byte.
    repeat match goal with |- context [u8 b <=? ?k] => destruct (Z.leb_spec (u8 b) k); try lia end;
    done. }
  destruct H as [H|[H|[H|[H|[H|[H|[H|[H|[H|[H|H]]]]]]]]]];
    try (apply fixed_cases; lia); try (apply length_cases; lia);
    try (apply number_cases; lia); try (apply fixext_open_cases; lia);
    rewrite T by lia;
    repeat match goal with |- context [u8 b <=? ?k] => destruct (Z.leb_spec (u8 b) k); try lia end.
  - apply fixcontainer_sim; [done|lia].
  - apply fixcontainer_sim; [done|lia].
  - apply fixstr_sim; lia.
Qed.

End Header.

(** The parser reads one token as the format says. *)
Lemma tok_ok q d t :
  data = q ++ d -> d <> [] ->
  tok_sim st v p (tok (m_limit v) (len (v_stack v)) d) (exec_body data (header_at t st v (len q))).
Proof. destruct d as [|b r]; [done|]. intros Hd _. by apply tok_ok_cons. Qed.

End Payload.
End Data.
