(* ===== verification/Decode.v ===== *)
(** * The parser decodes the format

    [context::execute] with [create_object_visitor] refines [Format.decode]:
    the object it leaves in memory, the offset, and the exception are those of
    the specification, for every input. Memory safety, the error cases and the
    totality of unpacking follow. *)

From S2P Require Import Prelude FloatBits MsgObject Parse ParseLoop Visitor Format Tokens.

(** ** Objects in memory *)

Definition kcell (k : kind) (n : Z) (b : option Z) : cell :=
  match k with K_ARRAY => CArray n b | K_MAP => CMap n b end.

(** The cell [c] spans the object [o]; every block it points to is in
    [lo, hi). *)
Inductive repr (h : gmap ptr cell) (lo hi : Z) : cell -> object -> Prop :=
| repr_leaf c o : leaf_cell c o -> repr h lo hi c o
| repr_empty k : repr h lo hi (kcell k 0 None) (container k [])
| repr_open k n b l : lo <= b < hi -> 0 < n -> len l = children k n ->
    repr_items h lo hi b 0 l -> repr h lo hi (kcell k n (Some b)) (container k l)
with repr_items (h : gmap ptr cell) (lo hi : Z) : Z -> Z -> list object -> Prop :=
| repr_nil b i : repr_items h lo hi b i []
| repr_cons b i c o l : h !! (b, i) = Some c -> repr h lo hi c o ->
    repr_items h lo hi b (i + 1) l -> repr_items h lo hi b i (o :: l).

Scheme repr_mut := Induction for repr Sort Prop
with repr_items_mut := Induction for repr_items Sort Prop.
Combined Scheme repr_both from repr_mut, repr_items_mut.

(** Only the blocks in the interval matter, and it may be widened. *)
Lemma repr_frame_both h h' lo hi lo' hi' :
  lo' <= lo -> hi <= hi' -> (forall x, lo <= x.1 < hi -> h' !! x = h !! x) ->
  (forall c o, repr h lo hi c o -> repr h' lo' hi' c o) /\
  (forall b i l, repr_items h lo hi b i l -> 
     (forall j, i <= j < i + len l -> h' !! (b, j) = h !! (b, j)) -> repr_items h' lo' hi' b i l).
Proof.
  intros Hlo Hhi Hx.
  enough (H : (forall c o (r : repr h lo hi c o), repr h' lo' hi' c o) /\
    (forall b i l (r : repr_items h lo hi b i l),
      (forall j, i <= j < i + len l -> h' !! (b, j) = h !! (b, j)) -> repr_items h' lo' hi' b i l))
    by (split; apply H).
  apply (repr_both h lo hi (fun c o _ => repr h' lo' hi' c o)
    (fun b i l _ => (forall j, i <= j < i + len l -> h' !! (b, j) = h !! (b, j)) ->
       repr_items h' lo' hi' b i l)).
  - intros. by apply repr_leaf.
  - intros. apply repr_empty.
  - intros k n b l Hb Hn Hl Hi IH. apply repr_open; [lia|done|done|].
    apply IH. intros. apply Hx. simpl. lia.
  - intros. apply repr_nil.
  - intros b i c o l Hc Hr IHr Hi IHi Hj. pose proof (len_nonneg l). rewrite len_cons in Hj.
    apply repr_cons with c; [by rewrite Hj by lia|done|]. apply IHi. intros. apply Hj. lia.
Qed.

Lemma repr_frame h h' lo hi lo' hi' c o :
  lo' <= lo -> hi <= hi' -> (forall x, lo <= x.1 < hi -> h' !! x = h !! x) ->
  repr h lo hi c o -> repr h' lo' hi' c o.
Proof. intros H1 H2 H3. by apply (repr_frame_both h h' lo hi lo' hi'). Qed.

Lemma repr_items_frame h h' lo hi lo' hi' b i l :
  lo' <= lo -> hi <= hi' -> (forall x, lo <= x.1 < hi -> h' !! x = h !! x) ->
  (forall j, i <= j < i + len l -> h' !! (b, j) = h !! (b, j)) ->
  repr_items h lo hi b i l -> repr_items h' lo' hi' b i l.
Proof. intros H1 H2 H3 H4 H5. by apply (repr_frame_both h h' lo hi lo' hi'). Qed.

(** ** What building an object changes *)

Record grown (v v' : visitor) (touched : ptr -> Prop) : Prop := {
  grown_limit : m_limit v' = m_limit v;
  grown_func : m_func v' = m_func v;
  grown_blocks : exists ext, blocks v' = blocks v ++ ext;
  grown_cells : forall x, x.1 < len (blocks v) -> ~ touched x -> cells v' !! x = cells v !! x;
}.

Lemma grown_refl v t : grown v v t.
Proof. split; try done. exists []. by rewrite app_nil_r. Qed.

Lemma grown_len v v' t : grown v v' t -> len (blocks v) <= len (blocks v').
Proof. intros [_ _ [ext ->] _]. rewrite len_app. pose proof (len_nonneg ext). lia. Qed.

Lemma grown_trans v1 v2 v3 (t1 t2 t : ptr -> Prop) :
  grown v1 v2 t1 -> grown v2 v3 t2 ->
  (forall x, x.1 < len (blocks v1) -> t1 x \/ t2 x -> t x) -> grown v1 v3 t.
Proof.
  intros H1 H2 Ht. pose proof (grown_len _ _ _ H1). destruct H1 as [L1 F1 [e1 B1] C1], H2 as [L2 F2 [e2 B2] C2].
  split; [congruence|congruence| |].
  - exists (e1 ++ e2). by rewrite B2, B1, app_assoc.
  - intros x Hx Hn. rewrite C2; [|lia|naive_solver]. apply C1; [done|]. naive_solver.
Qed.

Lemma grown_weaken v v' (t t' : ptr -> Prop) :
  grown v v' t -> (forall x, t x -> t' x) -> grown v v' t'.
Proof. intros [L F B C] Ht. split; naive_solver. Qed.

(** [o] was built at [p]. *)
Definition built (p : ptr) (o : object) (v v' : visitor) : Prop :=
  v_stack v' = v_stack v /\ grown v v' (fun x => x = p) /\
  exists c, cells v' !! p = Some c /\ repr (cells v') (len (blocks v)) (len (blocks v')) c o.

(** [os] were built in the rest of the container on top, which was closed. *)
Definition built_items (b i : Z) (os : list object) (v v' : visitor) : Prop :=
  v_stack v' = tl (v_stack v) /\
  grown v v' (fun x => x.1 = b /\ i <= x.2 < i + len os) /\
  repr_items (cells v') (len (blocks v)) (len (blocks v')) b i os.

Lemma put_built o p v v' : put o p v v' -> built p o v v'.
Proof.
  intros (c & b & Hc & ->). split_and!; [done| |].
  - split; try done; [exists []; by rewrite app_nil_r|]. intros x _ Hx. simpl.
    by rewrite lookup_insert_ne by congruence.
  - exists c. simpl. rewrite lookup_insert_eq. split; [done|by apply repr_leaf].
Qed.

Lemma in_block_lt v p : in_block v p = true -> 0 <= p.1 < len (blocks v).
Proof.
  unfold in_block. destruct (blocks v !! Z.to_nat p.1) eqn:E; [|done].
  apply lookup_lt_Some in E. unfold len. lia.
Qed.

Lemma in_block_grown v v' t p : grown v v' t -> in_block v p = true -> in_block v' p = true.
Proof.
  intros [_ _ [ext Hb] _] Hp. unfold in_block in *. rewrite Hb.
  destruct (blocks v !! Z.to_nat p.1) eqn:E; [|done]. by rewrite (lookup_app_l_Some _ _ _ _ E).
Qed.

(** ** The containers open *)

(** The stack element of a container with [n] objects to come. *)
Definition elem (k : kind) (n : Z) : stack_elem :=
  match k with
  | K_ARRAY => {| m_type := CT_ARRAY_ITEM; m_rest := n |}
  | K_MAP => if Z.even n then {| m_type := CT_MAP_KEY; m_rest := n / 2 |}
             else {| m_type := CT_MAP_VALUE; m_rest := (n + 1) / 2 |}
  end.

(** The objects a 32-bit count can stand for. *)
Definition fits (k : kind) (n : Z) : Prop := 0 < n <= children k (2 ^ 32 - 1).

Lemma consume_elem k n st v b i vs :
  fits k n -> v_stack v = Some (b, i) :: vs ->
  consume (elem k n :: st) v =
  (if n =? 1 then consume st (set_vstack vs v)
   else (Ok PARSE_CONTINUE, elem k (n - 1) :: st, set_vstack (Some (b, i + 1) :: vs) v)).
Proof.
  intros Hn Hv. unfold fits in Hn. destruct k; simpl in Hn.
  - cbn [elem consume m_type m_rest]. cbn [end_array_item create_object_visitor].
    unfold v_advance. rewrite Hv. cbn [call]. rewrite wrap_small by lia.
    destruct (Z.eqb_spec n 1) as [->|]; [by destruct v|].
    destruct (Z.eqb_spec (n - 1) 0); [lia|]. by destruct v.
  - unfold elem. destruct (Z.even n) eqn:En.
    + apply Z.even_spec in En as [m ->]. replace (2 * m / 2) with m by (apply Z.div_unique with 0; lia).
      replace (2 * m - 1) with (1 + 2 * (m - 1)) by lia.
      rewrite Z.even_add_mul_2. replace (1 + 2 * (m - 1) + 1) with (m * 2) by lia.
      change (Z.even 1) with false. cbv iota.
      rewrite Z.div_mul by lia. cbn [consume m_type m_rest].
      cbn [end_map_key create_object_visitor]. unfold v_advance. rewrite Hv. cbn.
      destruct (Z.eqb_spec (2 * m) 1); [lia|]. by destruct v.
    + rewrite <- Z.negb_odd in En. apply negb_false_iff, Z.odd_spec in En as [m ->].
      replace (2 * m + 1 + 1) with ((m + 1) * 2) by lia. rewrite Z.div_mul by lia.
      replace (2 * m + 1 - 1) with (m * 2) by lia. rewrite Z.div_mul by lia.
      replace (Z.even (m * 2)) with true by (symmetry; apply Z.even_spec; exists m; lia).
      cbn [consume m_type m_rest]. cbn [end_map_value create_object_visitor].
      unfold v_advance. rewrite Hv. cbn [call]. rewrite wrap_small by lia.
      replace (m + 1 - 1) with m by lia.
      destruct (Z.eqb_spec m 0) as [->|]; [by destruct v|].
      destruct (Z.eqb_spec (2 * m + 1) 1); [lia|]. by destruct v.
Qed.

(** ** The simulation *)

Section Data.
Variable data : bytes.
Hypothesis data_size : len data < 2 ^ 32.

(** [f] is what the body does when a value ends at [pos], given the result
    of [consume]. *)
Definition finishes (pos : Z) (m : res unpack_exn parse_return * list stack_elem * visitor)
    (f : vflow) : Prop :=
  match m with
  | (Throw e, _, _) => exists c, f = Exc e c
  | (Ok PARSE_CONTINUE, st, v) => exists t, f = Go (header_at t st v pos)
  | (Ok r, st, v) => exists c, f = Ret r pos c /\ m_stack c = st /\ holder c = v
  end.

Definition completes (l : vloop) (pos : Z) (st : list stack_elem) (v : visitor) : Prop :=
  exists l', rtc (step data) l l' /\ finishes pos (consume st v) (exec_body data l').

Definition starves (l : vloop) : Prop :=
  exists l' n c, rtc (step data) l l' /\ exec_iter data l' = Ret PARSE_CONTINUE n c.

Definition fails (l : vloop) (e : unpack_exn) : Prop :=
  exists l' c, rtc (step data) l l' /\ exec_iter data l' = Exc e c.

(** From [l], what [R] says happens, with [ok] about the value built. *)
Definition sim {A} (ok : A -> visitor -> Prop) (st : list stack_elem) (R : outcome A)
    (l : vloop) : Prop :=
  match R with
  | Done a r => exists q v', data = q ++ r /\ completes l (len q) st v' /\ ok a v'
  | Short => starves l
  | Fail e => fails l e
  | NoFuel => True
  end.

Lemma starves_rtc l l' : rtc (step data) l l' -> starves l' -> starves l.
Proof. intros H (l2 & n & c & H2 & He). exists l2, n, c. split; [by etrans|done]. Qed.

Lemma fails_rtc l l' e : rtc (step data) l l' -> fails l' e -> fails l e.
Proof. intros H (l2 & c & H2 & He). exists l2, c. split; [by etrans|done]. Qed.

Lemma completes_rtc l l' pos st v :
  rtc (step data) l l' -> completes l' pos st v -> completes l pos st v.
Proof. intros H (l2 & H2 & He). exists l2. split; [by etrans|done]. Qed.

Lemma sim_rtc {A} (ok : A -> visitor -> Prop) st R l l' :
  rtc (step data) l l' -> sim ok st R l' -> sim ok st R l.
Proof.
  intros H. destruct R; simpl; [|by apply starves_rtc|by apply fails_rtc|done].
  intros (q & v' & Hd & Hc & Hok). exists q, v'. eauto using completes_rtc.
Qed.

Lemma after_visit_finishes v' (l : vloop) :
  fixed_trail_again l = false ->
  finishes (m_current l + 1) (consume (m_stack (ctx l)) v') (after_visit_proc (Ok (true, v')) l).
Proof.
  intros Ha. unfold after_visit_proc.
  destruct (consume (m_stack (ctx l)) v') as [[[r|e] st] v2]; simpl; [|by eexists].
  destruct r; try (by eexists). exists (m_trail (ctx l)).
  unfold header_at. destruct l as [[? ? ? ?] ? ?]; simpl in *. by subst.
Qed.

Lemma aggregate_end_finishes m (l : vloop) :
  fixed_trail_again l = false ->
  finishes (m_current l + 1) m (aggregate_end (m_current l + 1) m l).
Proof.
  intros Ha. unfold aggregate_end. destruct m as [[[r|e] st] v2]; simpl; [|by eexists].
  destruct r; try (by eexists). exists (m_trail (ctx l)).
  unfold header_at. destruct l as [[? ? ? ?] ? ?]; simpl in *. by subst.
Qed.

Variable lim : unpack_limit.

(** The claim for one object read with fuel [f]. *)
Definition one_ok (f : nat) : Prop := forall d q t st v p vs,
  data = q ++ d -> d <> [] -> ready v p vs -> m_limit v = lim ->
  sim (fun o => built p o v) st (dec lim f (len (v_stack v)) d) (header_at t st v (len q)).

(** A value ended, another is to come: the loop is at the next header, or has
    stopped at the end of the input. *)
Lemma next_header q d t st v (l : vloop) :
  data = q ++ d -> exec_body data l = Go (header_at t st v (len q)) ->
  (d = [] /\ starves l) \/ (d <> [] /\ step data l (header_at t st v (len q))).
Proof.
  intros Hd Hb. destruct d as [|x d].
  - left. split; [done|]. exists l. do 2 eexists. split; [apply rtc_refl|].
    apply iter_end; [done|]. simpl. by rewrite Hd, app_nil_r.
  - right. split; [done|]. apply iter_go; [done|]. simpl. rewrite Hd, len_app, len_cons.
    pose proof (len_nonneg d). lia.
Qed.

Lemma built_one b i o v v' vs :
  v_stack v = Some (b, i) :: vs -> 0 <= b < len (blocks v) -> built (b, i) o v v' ->
  built_items b i [o] v (set_vstack vs v').
Proof.
  intros Hv Hb (Hs & Hg & c & Hc & Hr). split_and!; [by rewrite Hv| |].
  - destruct Hg as [L F B C]. split; try done. intros x Hx Hn. apply C; [done|]. intros ->.
    apply Hn. simpl. unfold len. simpl. lia.
  - by apply repr_cons with c; [..|apply repr_nil].
Qed.

Lemma built_cons b i o os v v1 v2 vs :
  v_stack v = Some (b, i) :: vs -> 0 <= b < len (blocks v) -> built (b, i) o v v1 ->
  built_items b (i + 1) os (set_vstack (Some (b, i + 1) :: vs) v1) v2 ->
  built_items b i (o :: os) v v2.
Proof.
  intros Hv Hb (Hs & Hg & c & Hc & Hr) (Hs2 & Hg2 & Hi). simpl in Hs2.
  pose proof (grown_len _ _ _ Hg) as Hl1. pose proof (grown_len _ _ _ Hg2) as Hl2. simpl in Hl2.
  pose proof (len_nonneg os) as Hos.
  assert (Hg1 : grown v (set_vstack (Some (b, i + 1) :: vs) v1) (fun x => x = (b, i)))
    by (destruct Hg; by split).
  split_and!; [by rewrite Hv| |].
  - eapply grown_trans; [exact Hg1|exact Hg2|].
    intros x _ [->|[H1 H2]]; rewrite len_cons; simpl; lia.
  - pose proof (grown_cells _ _ _ Hg2) as C2. simpl in C2.
    apply repr_cons with c.
    + rewrite C2; [done|simpl; lia|simpl; lia].
    + eapply repr_frame; [| | |exact Hr]; [lia|simpl in *; lia|].
      intros x Hx. apply C2; [lia|]. intros [H1 _]. lia.
    + eapply repr_items_frame; [| | | |exact Hi]; simpl in *; try done; lia.
Qed.

Lemma items_sim f : one_ok f -> forall g n d q t st v b i vs k,
  data = q ++ d -> d <> [] -> fits k n -> v_stack v = Some (b, i) :: vs -> m_limit v = lim ->
  (forall j, i <= j < i + n -> in_block v (b, j) = true) ->
  sim (fun os v' => built_items b i os v v' /\ len os = n) st
    (items (dec lim f (len (v_stack v))) g n d) (header_at t (elem k n :: st) v (len q)).
Proof.
  intros H1. induction g as [|g IH]; intros n d q t st v b i vs k Hd Hne Hn Hv Hlim Hin;
    assert (Hn0 : 0 < n) by (by destruct Hn); cbn [items];
    (destruct (Z.eqb_spec n 0) as [|_]; [lia|]); [done|].
  assert (Hready : ready v (b, i) vs) by (split; [done|apply Hin; lia]).
  pose proof (in_block_lt _ _ (proj2 Hready)) as Hb. simpl in Hb.
  pose proof (H1 d q t (elem k n :: st) v (b, i) vs Hd Hne Hready Hlim) as Hone.
  destruct (dec lim f (len (v_stack v)) d) as [o r| | |]; [|exact Hone|exact Hone|done].
  destruct Hone as (q1 & v1 & Hd1 & (l1 & Hr1 & Hf1) & Hbuilt).
  pose proof Hbuilt as (Hs1 & Hg1 & _). rewrite Hv in Hs1.
  rewrite (consume_elem _ _ _ _ _ _ _ Hn Hs1) in Hf1. cbn [obind].
  destruct (Z.eqb_spec n 1) as [->|Hn1].
  - destruct g; cbn; (exists q1, (set_vstack vs v1); split_and!;
      [done|by exists l1|by apply built_one|done]).
  - destruct Hf1 as [t1 Hf1]. set (v2 := set_vstack (Some (b, i + 1) :: vs) v1) in *.
    assert (El : len (v_stack v) = len (v_stack v2)) by (unfold v2; rewrite Hv; done).
    destruct (next_header q1 r _ _ _ l1 Hd1 Hf1) as [[-> Hst]|[Hner Hstep]].
    + destruct g; cbn [items]; (destruct (Z.eqb_spec (n - 1) 0); [lia|]); [done|].
      destruct f; [done|]. simpl. by eapply starves_rtc.
    + assert (Hrtc : rtc (step data) (header_at t (elem k n :: st) v (len q))
        (header_at t1 (elem k (n - 1) :: st) v2 (len q1))) by (etrans; [done|by apply rtc_once]).
      rewrite El. specialize (IH (n - 1) r q1 t1 st v2 b (i + 1) vs k Hd1 Hner).
      assert (IH' := IH ltac:(unfold fits in *; lia) eq_refl
        ltac:(unfold v2; simpl; by rewrite (grown_limit _ _ _ Hg1))
        ltac:(intros j Hj; apply (in_block_grown _ _ _ _ Hg1), Hin; lia)).
      apply (sim_rtc _ _ _ _ _ Hrtc) in IH'. clear IH.
      destruct (items _ g (n - 1) r) as [os r'| | |]; simpl in *; try done.
      destruct IH' as (q2 & v3 & Hd2 & Hc2 & Hb2 & Hl2). exists q2, v3. split_and!; try done.
      * by eapply built_cons.
      * rewrite len_cons. lia.
Qed.

(** *** Opening a container *)

Definition opened (K : kind) (n : Z) (p : ptr) (v : visitor) : visitor :=
  if n =? 0 then set_vstack (None :: v_stack v) (wrote (kcell K 0 None) (m_referenced v) p v)
  else set_vstack (Some (len (blocks v), 0) :: v_stack v)
         (wrote (kcell K n (Some (len (blocks v)))) (m_referenced v) p
            (set_blocks (blocks v ++ [children K n]) v)).

Lemma kstart_ok K n v p vs :
  ready v p vs -> 0 <= n < 2 ^ 32 -> n <= open_limit (m_limit v) K ->
  len (v_stack v) <= depth_ (m_limit v) -> kstart K n v = Ok (true, opened K n p v).
Proof.
  intros Hr Hn Hl Hdep.
  assert (Hc : forall sizeof mk e, 0 < sizeof < 2 ^ 32 -> (forall b, mk n b = kcell K n b) ->
    start_container (match K with K_ARRAY => 1 | K_MAP => 2 end) n sizeof mk e v =
    Ok (true, opened K n p v)).
  { intros sizeof mk e Hs Hmk. unfold start_container, opened.
    destruct (Z.eqb_spec n 0) as [->|].
    - rewrite (write_back_ready _ _ p vs Hr). simpl. by rewrite Hmk.
    - rewrite wrap_small, Z.div_mul, Z.eqb_refl by (change (2 ^ 64) with (2 ^ 32 * 2 ^ 32); nia).
      simpl. rewrite (write_back_ready _ _ p vs).
      + simpl. rewrite Hmk. by destruct K; rewrite ?Z.mul_1_l.
      + destruct Hr as [Hs1 Hb]. split; [done|].
        apply (in_block_grown v _ (fun _ => False)); [|done].
        split; try done. by exists [match K with K_ARRAY => 1 * n | K_MAP => 2 * n end]; destruct K. }
  destruct K; simpl in *; unfold v_start_array, v_start_map;
    cbv beta.
  - destruct (Z.ltb_spec (array_ (m_limit v)) n); [lia|].
    destruct (Z.ltb_spec (depth_ (m_limit v)) (len (v_stack v))); [lia|]. by apply Hc.
  - destruct (Z.ltb_spec (map_ (m_limit v)) n); [lia|].
    destruct (Z.ltb_spec (depth_ (m_limit v)) (len (v_stack v))); [lia|]. by apply Hc.
Qed.

Lemma built_empty K p v vs :
  ready v p vs -> built p (container K []) v (set_vstack (v_stack v) (opened K 0 p v)).
Proof.
  intros Hr. unfold opened. simpl. split_and!; [done| |].
  - split; try done; [exists []; by rewrite app_nil_r|]. intros x _ Hx. simpl.
    by rewrite lookup_insert_ne by congruence.
  - exists (kcell K 0 None). simpl. rewrite lookup_insert_eq. split; [done|apply repr_empty].
Qed.

Lemma built_container K n p v v' vs os :
  ready v p vs -> 0 < n -> len os = children K n ->
  built_items (len (blocks v)) 0 os (opened K n p v) v' ->
  built p (container K os) v v'.
Proof.
  intros Hr Hn Hos (Hs & Hg & Hi). unfold opened in *. destruct (Z.eqb_spec n 0); [lia|].
  destruct Hr as [Hst Hb]. pose proof (in_block_lt _ _ Hb) as Hp.
  pose proof (grown_len _ _ _ Hg) as Hl. pose proof (grown_cells _ _ _ Hg) as C.
  simpl in Hs, Hl, C, Hi. rewrite len_app in Hl, C, Hi. change (len [children K n]) with 1 in *.
  split_and!; [done| |].
  - eapply (grown_trans v _ v' (fun x => x = p)); [|exact Hg|].
    + split; try done; [by exists [children K n]|]. intros x _ Hx. simpl.
      by rewrite lookup_insert_ne by congruence.
    + intros x Hx [->|[H1 _]]; [done|lia].
  - exists (kcell K n (Some (len (blocks v)))). rewrite C by (simpl; intuition lia).
    rewrite lookup_insert_eq. split; [done|]. apply repr_open; [lia|done|done|].
    eapply repr_items_frame; [| | | |exact Hi]; try done; lia.
Qed.

Lemma opened_in_block K n p v j :
  0 < n -> 0 <= j < children K n -> in_block (opened K n p v) (len (blocks v), j) = true.
Proof.
  intros Hn Hj. unfold opened. destruct (Z.eqb_spec n 0); [lia|]. unfold in_block.
  cbn [fst snd blocks set_vstack wrote set_cells set_referenced set_blocks].
  unfold len. rewrite Nat2Z.id, list_lookup_middle by done.
  rewrite !andb_true_iff, !Z.leb_le, Z.ltb_lt. lia.
Qed.

Lemma elem_children K n : elem K (children K n) = {| m_type := ktype K; m_rest := n |}.
Proof.
  destruct K; [done|]. unfold elem. cbn [children].
  replace (Z.even (2 * n)) with true by (symmetry; apply Z.even_spec; by exists n).
  rewrite Z.mul_comm, Z.div_mul by lia. done.
Qed.

(** The body at a container's header. *)
Lemma start_aggregate_ok K n (l : vloop) v p vs :
  ready v p vs -> 0 <= n < 2 ^ 32 -> n <= open_limit (m_limit v) K ->
  len (v_stack v) <= depth_ (m_limit v) -> fixed_trail_again l = false -> holder (ctx l) = v ->
  let m := start_aggregate (ktype K) n (kstart K) (kend K) l in
  if n =? 0
  then finishes (m_current l + 1)
         (consume (m_stack (ctx l)) (set_vstack (v_stack v) (opened K 0 p v))) m
  else exists t, m = Go (header_at t (elem K (children K n) :: m_stack (ctx l)) (opened K n p v)
                          (m_current l + 1)).
Proof.
  intros Hr Hn Hl Hd Ha Hv. cbv zeta. unfold start_aggregate. rewrite Hv.
  rewrite (kstart_ok _ _ _ _ _ Hr Hn Hl Hd). destruct (Z.eqb_spec n 0) as [->|].
  - match goal with |- finishes _ ?m (aggregate_end _ ?m' _) => replace m' with m end.
    + by apply aggregate_end_finishes.
    + by destruct K.
  - rewrite wrap_small by lia.
    match goal with |- context [aggregate_end _ ?m' _] => replace m' with
      (Ok (E:=unpack_exn) PARSE_CONTINUE, elem K (children K n) :: m_stack (ctx l), opened K n p v) end.
    + exists (m_trail (ctx l)). destruct l as [[? ? ? ?] ? ?]; simpl in *. by subst.
    + rewrite elem_children. by destruct K.
Qed.

Lemma tok_sim_reach st v p T (l : vloop) :
  tok_sim data st v p T (exec_body data l) ->
  exists l', rtc (step data) l l' /\ tok_flow data st v p T (exec_body data l').
Proof.
  intros [H|(l' & He & Hne & H)]; [by exists l|]. exists l'. split; [|done].
  apply rtc_once. by apply iter_go.
Qed.

Lemma iter_ret (l : vloop) r n c : exec_body data l = Ret r n c -> exec_iter data l = Ret r n c.
Proof. unfold exec_iter. by intros ->. Qed.

Lemma iter_exc (l : vloop) e c : exec_body data l = Exc e c -> exec_iter data l = Exc e c.
Proof. unfold exec_iter. by intros ->. Qed.

Lemma sim_out_map {A B} (ok : A -> visitor -> Prop) (ok' : B -> visitor -> Prop) (h : A -> B) st R l :
  (forall a v', ok a v' -> ok' (h a) v') -> sim ok st R l -> sim ok' st (out_map h R) l.
Proof. intros Ho. destruct R; simpl; try done. naive_solver. Qed.

(** A container after its header, read in [l0]. *)
Lemma container_sim f K n r q st v p vs (l l0 : vloop) :
  one_ok f -> data = q ++ r -> ready v p vs -> m_limit v = lim -> 0 <= n < 2 ^ 32 ->
  n <= open_limit (m_limit v) K -> len (v_stack v) <= depth_ (m_limit v) ->
  exec_body data l = start_aggregate (ktype K) n (kstart K) (kend K) l0 ->
  m_current l0 + 1 = len q -> fixed_trail_again l0 = false -> m_stack (ctx l0) = st ->
  holder (ctx l0) = v ->
  sim (fun o => built p o v) st
    (out_map (container K) (items (dec lim f (len (v_stack v) + 1)) f (children K n) r)) l.
Proof.
  intros IH Hd Hr Hlim Hn Hl Hdep Hb Hp Ha Hst Hv.
  pose proof (start_aggregate_ok K n l0 v p vs Hr Hn Hl Hdep Ha Hv) as H. cbv zeta in H.
  rewrite <- Hb, Hst, Hp in H. destruct (Z.eqb_spec n 0) as [->|Hn0].
  - replace (children K 0) with 0 by by destruct K.
    replace (items _ f 0 r) with (Done (A:=list object) [] r) by by destruct f.
    exists q, (set_vstack (v_stack v) (opened K 0 p v)).
    split_and!; [done|by exists l|by eapply built_empty].
  - destruct H as [t H]. assert (Hpos : 0 < children K n) by (destruct K; simpl; lia).
    set (v1 := opened K n p v) in *.
    assert (Hs1 : v_stack v1 = Some (len (blocks v), 0) :: v_stack v)
      by (unfold v1, opened; by destruct (Z.eqb_spec n 0)).
    assert (Hl1 : m_limit v1 = lim) by (unfold v1, opened; by destruct (Z.eqb_spec n 0)).
    replace (len (v_stack v) + 1) with (len (v_stack v1)) by (rewrite Hs1, len_cons; lia).
    destruct (next_header q r _ _ _ l Hd H) as [[-> Hsv]|[Hne Hstep]].
    + destruct f as [|f]; cbn [items]; (destruct (Z.eqb_spec (children K n) 0); [lia|]); done.
    + eapply sim_rtc; [by apply rtc_once|]. eapply sim_out_map; [|eapply (items_sim f IH f);
        [exact Hd|exact Hne|split; [done|destruct K; cbn [children]; lia]|exact Hs1|exact Hl1|]].
      * intros os v' [Hbi Hlen]. by apply (built_container K n p v v' vs); [|lia| |].
      * intros j Hj. apply opened_in_block; lia.
Qed.

Lemma dec_sim f : one_ok f.
Proof.
  induction f as [|f IH]; intros d q t st v p vs Hd Hne Hr Hlim; [done|]. cbn [dec].
  pose proof (tok_sim_reach _ _ _ _ _ (tok_ok data data_size st v p vs Hr q d t Hd Hne))
    as (l & Hrtc & Hf).
  eapply sim_rtc; [exact Hrtc|]. rewrite <- Hlim.
  destruct (tok (m_limit v) (len (v_stack v)) d) as [[o|K n] r| |e|]; cbn [obind].
  - destruct Hf as (q' & l0 & v' & Hd' & Hb & Hp & Ha & Hst & Hput).
    exists q', v'. split_and!; [done| |by apply put_built].
    exists l. split; [done|]. rewrite Hb, <- Hp, <- Hst. by apply after_visit_finishes.
  - destruct Hf as (q' & l0 & Hd' & Hn & Hl & Hdep & Hb & Hp & Ha & Hst & Hv).
    rewrite Hlim. by eapply container_sim.
  - destruct Hf as (n & c & Hf). exists l, n, c. split; [done|by apply iter_ret].
  - destruct Hf as (c & Hf). exists l, c. split; [done|by apply iter_exc].
  - done.
Qed.

End Data.

(** ** Reading the result *)

Lemma mapM_seq {A B} (f : nat -> option B) (l : list A) (g : A -> B) :
  (forall j x, l !! j = Some x -> f j = Some (g x)) ->
  mapM f (seq 0 (length l)) = Some (g <$> l).
Proof.
  enough (G : forall k, (forall j x, l !! j = Some x -> f (k + j)%nat = Some (g x)) ->
    mapM f (seq k (length l)) = Some (g <$> l)) by apply (G 0%nat).
  induction l as [|a l IH]; intros k H; [done|]. cbn [length seq mapM fmap list_fmap].
  pose proof (H 0%nat a eq_refl) as E0. rewrite Nat.add_0_r in E0. rewrite E0. simpl.
  rewrite IH; [done|]. intros j x Hj.
  replace (S k + j)%nat with (k + S j)%nat by lia. by apply H.
Qed.

Lemma pairs_lookup {A} (l : list A) : forall j x y,
  pairs l !! j = Some (x, y) -> l !! (2 * j)%nat = Some x /\ l !! (2 * j + 1)%nat = Some y.
Proof.
  assert (H : forall n (l : list A), (length l < n)%nat -> forall j x y,
    pairs l !! j = Some (x, y) -> l !! (2 * j)%nat = Some x /\ l !! (2 * j + 1)%nat = Some y).
  { induction n as [|n IH]; [lia|]. intros [|a [|b k]] Hl j x y; [done|done|].
    destruct j as [|j]; simpl in *; [by intros [= -> ->]|]. intros Hj.
    destruct (IH k ltac:(lia) j x y Hj) as [E1 E2].
    replace (j + S (j + 0))%nat with (S (2 * j)) by lia.
    replace (j + S (j + 0) + 1)%nat with (S (2 * j + 1)) by lia. done. }
  apply (H (S (length l))). lia.
Qed.

Lemma read_container fuel h k n b l :
  0 < n -> len l = children k n ->
  (forall j o, l !! j = Some o -> h !! (b, 0 + Z.of_nat j) ≫= read_object fuel h = Some o) ->
  read_object (S fuel) h (kcell k n (Some b)) = Some (container k l).
Proof.
  intros Hn Hl H. destruct k; cbn [kcell container children] in *.
  - cbn [read_object]. replace (Z.to_nat n) with (length l) by (unfold len in Hl; lia).
    rewrite (mapM_seq _ l id) by (intros j o Hj; by apply H). simpl. by rewrite list_fmap_id.
  - cbn [read_object]. destruct (flat_pairs l n Hl) as [_ Hp].
    replace (Z.to_nat n) with (length (pairs l)) by (unfold len in Hp; lia).
    rewrite (mapM_seq _ (pairs l) id); [simpl; by rewrite list_fmap_id|].
    intros j [x y] Hj. apply pairs_lookup in Hj as [Hx Hy].
    specialize (H _ _ Hx) as Hx'. specialize (H _ _ Hy) as Hy'.
    replace (0 + Z.of_nat (2 * j)) with (2 * Z.of_nat j) in Hx' by lia.
    replace (0 + Z.of_nat (2 * j + 1)) with (2 * Z.of_nat j + 1) in Hy' by lia.
    by rewrite Hx', Hy'.
Qed.

Lemma read_leaf c o : leaf_cell c o -> forall h fuel, read_object (S fuel) h c = Some o.
Proof.
  intros [] h fuel; try done; cbn [read_object]; unfold read_raw;
    rewrite Z.ltb_irrefl, take_len; done.
Qed.

Lemma depth_ARRAY l fuel : (depth (ARRAY l) <= S fuel)%nat <-> Forall (fun o => (depth o <= fuel)%nat) l.
Proof.
  cbn [depth]. induction l as [|x l IH]; [split; [by constructor|lia]|].
  rewrite Forall_cons, <- IH. lia.
Qed.

Lemma depth_MAP l fuel : (depth (MAP l) <= S fuel)%nat <-> Forall (fun o => (depth o <= fuel)%nat) (flat l).
Proof.
  cbn [depth]. induction l as [|[x y] l IH]; [split; [by constructor|lia]|].
  change (flat ((x, y) :: l)) with (x :: y :: flat l). rewrite !Forall_cons, <- IH. simpl. lia.
Qed.

Lemma depth_children k n l fuel :
  len l = children k n -> (depth (container k l) <= S fuel)%nat ->
  Forall (fun o => (depth o <= fuel)%nat) l.
Proof.
  intros Hl. destruct k; cbn [container]; [by rewrite depth_ARRAY|].
  rewrite depth_MAP. by destruct (flat_pairs l n Hl) as [-> _].
Qed.

Lemma depth_pos o : (1 <= depth o)%nat.
Proof. destruct o; simpl; lia. Qed.

Lemma repr_read_both h lo hi :
  (forall c o, repr h lo hi c o ->
     forall fuel, (depth o <= fuel)%nat -> read_object fuel h c = Some o) /\
  (forall b i l, repr_items h lo hi b i l ->
     forall fuel, Forall (fun o => (depth o <= fuel)%nat) l -> forall j o,
       l !! j = Some o -> h !! (b, i + Z.of_nat j) ≫= read_object fuel h = Some o).
Proof.
  enough (H : (forall c o (r : repr h lo hi c o),
      forall fuel, (depth o <= fuel)%nat -> read_object fuel h c = Some o) /\
    (forall b i l (r : repr_items h lo hi b i l),
      forall fuel, Forall (fun o => (depth o <= fuel)%nat) l -> forall j o,
        l !! j = Some o -> h !! (b, i + Z.of_nat j) ≫= read_object fuel h = Some o))
    by (split; apply H).
  apply (repr_both h lo hi (fun c o _ => forall fuel, (depth o <= fuel)%nat ->
      read_object fuel h c = Some o)
    (fun b i l _ => forall fuel, Forall (fun o => (depth o <= fuel)%nat) l -> forall j o,
      l !! j = Some o -> h !! (b, i + Z.of_nat j) ≫= read_object fuel h = Some o)).
  - intros c o Hl [|fuel] Hf; [pose proof (depth_pos o); lia|]. by apply read_leaf.
  - intros k [|fuel] Hf; [pose proof (depth_pos (container k [])); lia|]. by destruct k.
  - intros k n b l Hb Hn Hlen _ IH [|fuel] Hf; [pose proof (depth_pos (container k l)); lia|].
    apply read_container; [done|done|]. apply IH. by eapply depth_children.
  - done.
  - intros b i c o l Hc _ IH1 _ IH2 fuel [Hf1 Hf2]%Forall_cons [|j] o' Hj; simpl in Hj.
    + injection Hj as <-. rewrite Z.add_0_r, Hc. simpl. by apply IH1.
    + replace (i + Z.of_nat (S j)) with (i + 1 + Z.of_nat j) by lia. by apply IH2.
Qed.

Lemma built_data o v v' :
  built (0, 0) o v v' -> forall fuel, (depth o <= fuel)%nat -> data fuel v' = Some o.
Proof.
  intros (_ & _ & c & Hc & Hr) fuel Hf.
  exact (eq_trans (f_equal (mbind (read_object fuel (cells v'))) Hc)
    (proj1 (repr_read_both _ _ _) _ _ Hr fuel Hf)).
Qed.

(** ** One call of [execute] *)

Lemma rtc_runs d (l l' : vloop) f : rtc (step d) l l' -> runs d l' f -> runs d l f.
Proof. induction 1; [done|]. intros. eapply runs_step; eauto. Qed.

Lemma ready_new v : v_stack v = [Some (0, 0)] -> (exists ext, blocks v = 1 :: ext) -> ready v (0, 0) [].
Proof. intros Hs [ext Hb]. split; [done|]. unfold in_block. by rewrite Hb. Qed.

(** A context between two objects. *)
Definition idle (c : context visitor) : Prop :=
  m_cs c = CS_HEADER /\ m_stack c = [] /\ v_stack (holder c) = [Some (0, 0)] /\
  exists ext, blocks (holder c) = 1 :: ext.

(** [execute] from an idle context, against the specification. *)
Definition executes_as (d q r : bytes) (c : context visitor) (R : outcome object)
    (x : option vflow) : Prop :=
  match R with
  | Done o rest => exists q' c', d = q' ++ rest /\ x = Some (Ret PARSE_SUCCESS (len q') c') /\
      m_stack c' = [] /\ built (0, 0) o (holder c) (holder c')
  | Short => exists n c', x = Some (Ret PARSE_CONTINUE n c')
  | Fail e => exists c', x = Some (Exc e c')
  | NoFuel => False
  end.

Lemma execute_decode d q r c :
  len d < 2 ^ 32 -> d = q ++ r -> idle c ->
  executes_as d q r c (decode (m_limit (holder c)) r) (execute d (len q) c).
Proof.
  intros Hsz Hd (Hcs & Hst & Hvs & Hbl). pose proof (ready_new _ Hvs Hbl) as Hr.
  pose proof (decode_advances (m_limit (holder c)) r) as Hadv. unfold decode in *.
  assert (Hc : ctx_ok c) by (intros Hh; by rewrite Hcs in Hh).
  destruct (decide (r = [])) as [->|Hne].
  { simpl. unfold execute. rewrite Hd, app_nil_r, Z.eqb_refl. by do 2 eexists. }
  pose proof (len_nonneg q). assert (Hlen : len d = len q + len r) by (by rewrite Hd, len_app).
  assert (0 < len r) by (destruct r; [done|]; rewrite len_cons; pose proof (len_nonneg r); lia).
  pose proof (dec_sim d Hsz (m_limit (holder c)) (S (length r)) r q (m_trail c) [] (holder c)
    (0, 0) [] Hd Hne Hr eq_refl) as Hs.
  rewrite Hvs in Hs. change (len [Some (0, 0)]) with 1 in Hs.
  assert (El : resumed (len q) c = header_at (m_trail c) [] (holder c) (len q))
    by (destruct c; simpl in *; by subst).
  assert (Hx : forall f, runs d (resumed (len q) c) f -> execute d (len q) c = Some f)
    by (intros f; apply execute_runs; [lia|lia|done]).
  rewrite El in Hx.
  destruct (dec _ _ 1 r) as [o rest| |e|]; simpl in Hs, Hadv |- *; [| | |done].
  - destruct Hs as (q' & v' & Hd' & (l & Hl & c' & Hb & Hst' & Hv') & Hok). subst v'.
    exists q', c'. split_and!; [done| |done|done].
    apply Hx. eapply rtc_runs; [exact Hl|]. apply runs_now; [by apply iter_ret|done].
  - destruct Hs as (l & n & c' & Hl & Hb). exists n, c'. apply Hx.
    eapply rtc_runs; [exact Hl|]. by apply runs_now.
  - destruct Hs as (l & c' & Hl & Hb). exists c'. apply Hx.
    eapply rtc_runs; [exact Hl|]. by apply runs_now.
Qed.

Lemma idle_new f lim : idle (new_context (new_visitor f lim)).
Proof. split_and!; try done. by exists []. Qed.

(** [unpack_imp] at an offset, against the specification [R]. *)
Definition unpacks_as (d : bytes) (off : Z) (f : option (raw_type -> Z -> bool))
    (lim : unpack_limit) (R : outcome object) : Prop :=
  match R with
  | Done o rest => exists b N, forall fuel, (N <= fuel)%nat ->
      unpack_imp fuel d off f lim =
      Some (Ok (match rest with [] => PARSE_SUCCESS | _ => PARSE_EXTRA_BYTES end,
                len d - len rest, Some o, b))
  | Short => forall fuel, unpack_imp fuel d off f lim = Some (Throw insufficient_bytes_exn)
  | Fail e => forall fuel, unpack_imp fuel d off f lim = Some (Throw e)
  | NoFuel => False
  end.

Lemma unpack_decode d q r f lim :
  len d < 2 ^ 32 -> d = q ++ r -> unpacks_as d (len q) f lim (decode lim r).
Proof.
  intros Hsz Hd. pose proof (execute_decode d q r _ Hsz Hd (idle_new f lim)) as H.
  change (m_limit (holder (new_context (new_visitor f lim)))) with lim in H.
  assert (Hlen : len d = len q + len r) by (by rewrite Hd, len_app).
  pose proof (len_nonneg r). unfold unpacks_as, unpack_imp, parse_imp.
  destruct (Z.leb_spec (len d) (len q)).
  { destruct r; [done|rewrite len_cons in *; pose proof (len_nonneg r); lia]. }
  destruct (decode lim r) as [o rest| |e|]; cbn [executes_as] in H; [| | |done].
  - destruct H as (q' & c' & Hd' & -> & Hst & Hbuilt).
    exists (m_referenced (holder c')). pose proof (built_data _ _ _ Hbuilt) as HN.
    exists (depth o). intros fuel Hf. simpl. rewrite (HN fuel Hf).
    assert (Hl : len d = len q' + len rest) by (by rewrite Hd', len_app).
    destruct rest as [|x rest]; [change (len []) with 0 in *|rewrite len_cons in *; pose proof (len_nonneg rest)];
      destruct (Z.ltb_spec (len q') (len d)); try lia;
      match goal with |- context [len d - ?x] => replace (len d - x) with (len q') by lia end;
      done.
  - intros fuel. by destruct H as (n & c' & ->).
  - intros fuel. by destruct H as (c' & ->).
Qed.

(** C10. [unpack_imp] implements the format: at any offset of any input of less
    than 4 GiB, it leaves in memory the object the format table reads there,
    returns its end (and whether bytes follow), throws [insufficient_bytes] when the
    input ends early, and throws the table's exception otherwise. *)
Theorem unpack_refines d q r f lim :
  len d < 2 ^ 32 -> d = q ++ r -> unpacks_as d (len q) f lim (decode lim r).
Proof. apply unpack_decode. Qed.

Lemma unpack_refines_witness :
  unpacks_as [chr 0x92; chr 1; chr 0xc0; chr 7] 0 None default_limit
             (Done (ARRAY [POSITIVE_INTEGER 1; NIL]) [chr 7]).
Proof.
  apply (unpack_refines _ [] [chr 0x92; chr 1; chr 0xc0; chr 7] None default_limit);
    [vm_compute|]; reflexivity.
Defined.

(** An array of two elements whose second has not arrived yet. *)
Lemma execute_total_witness :
  let data := [chr 0x92; chr 1] in let c := new_context (new_visitor None default_limit) in
  (exists r noff c', execute data 0 c = Some (Ret r noff c') /\ 0 <= noff <= len data /\
                     (r = PARSE_CONTINUE -> ctx_ok c')) \/
  (exists e c', execute data 0 c = Some (Exc e c')).
Proof. cbv zeta. apply execute_total; [len_lia|]. intros H. discriminate H. Defined.

Lemma execute_resume_witness :
  let d1 := [chr 0x92; chr 1] in let d2 := [chr 0xc0] in
  let c := new_context (new_visitor None default_limit) in
  match execute d1 0 c with
  | Some (Ret PARSE_CONTINUE n c') => n = 2 /\ execute (d1 ++ d2) n c' = execute (d1 ++ d2) 0 c
  | _ => False
  end.
Proof.
  cbv zeta. destruct (execute [chr 0x92; chr 1] 0 (new_context (new_visitor None default_limit)))
    as [[l|[] n c'|e c']|] eqn:E; vm_compute in E; try discriminate E.
  split; [congruence|]. apply (execute_resume [chr 0x92; chr 1]); [len_lia| |].
  - intros H. discriminate H.
  - vm_compute. exact E.
Defined.

(** *** The exceptions of the format

    [depth] containers are open at most. *)
Definition documented (lim : unpack_limit) (depth : Z) (e : unpack_exn) : Prop :=
  match e with
  | invalid_access | insufficient_bytes_exn => False
  | depth_size_overflow => depth_ lim < depth
  | _ => True
  end.

Lemma documented_mono lim n m e : n <= m -> documented lim n e -> documented lim m e.
Proof. destruct e; simpl; lia || done. Qed.

(** If [m] throws, then [P] holds of the exception. *)
Definition throws_only {A} (P : unpack_exn -> Prop) (m : outcome A) : Prop :=
  match m with Fail e => P e | _ => True end.

Lemma throws_bind {A B} P (m : outcome A) (k : A -> bytes -> outcome B) :
  throws_only P m -> (forall a r, throws_only P (k a r)) -> throws_only P (obind m k).
Proof. destruct m; simpl; auto. Qed.

Lemma throws_below {A} (P : unpack_exn -> Prop) l n e (m : outcome A) :
  (l < n -> P e) -> throws_only P m -> throws_only P (below l n e m).
Proof. intros He Hm. unfold below. destruct (Z.ltb_spec l n); [by apply He|done]. Qed.

Lemma throws_get P n d : throws_only P (get n d).
Proof. unfold get. by destruct (len d <? n). Qed.

Lemma tok_throws lim depth d : throws_only (documented lim depth) (tok lim depth d).
Proof.
  assert (R : forall t n d, throws_only (documented lim depth) (tok_raw lim t n d)).
  { intros. apply throws_bind; [apply throws_get|]. intros. apply throws_below; [by destruct t|done]. }
  assert (O : forall k n d, throws_only (documented lim depth) (tok_open lim depth k n d)).
  { intros. unfold tok_open. apply throws_below; [by destruct k|].
    by apply throws_below; [intros; simpl; lia|]. }
  destruct d as [|b r]; [done|]. unfold tok, tok_byte, uint, out_map, tok_str, tok_bin, tok_ext.
  repeat case_match; repeat first [done | apply R | apply O | apply throws_get | apply throws_bind; intros].
Qed.

Lemma items_throws P one : forall g n d,
  (length d < g)%nat ->
  (forall d', len d' <= len d -> advances d' (one d') /\ throws_only P (one d')) ->
  throws_only P (items one g n d).
Proof.
  induction g as [|g IH]; intros n d Hg H1; [lia|]. cbn [items]. destruct (n =? 0); [done|].
  destruct (H1 d ltac:(lia)) as [Ha Ht]. destruct (one d) as [o r| | |]; simpl in *; try done.
  assert (throws_only P (items one g (n - 1) r)).
  { apply IH; [unfold len in *; lia|]. intros. apply H1. lia. }
  by destruct (items one g (n - 1) r).
Qed.

Lemma dec_throws lim : forall f depth d, (length d < f)%nat ->
  throws_only (documented lim (depth + len d)) (dec lim f depth d).
Proof.
  induction f as [|f IH]; intros depth d Hf; [lia|]. cbn [dec].
  pose proof (tok_throws lim depth d) as Ht. pose proof (tok_advances lim depth d) as Ha.
  destruct (tok lim depth d) as [[o|K n] r| |e|]; simpl in *; try done.
  - apply throws_bind; [|done]. apply items_throws; [unfold len in *; lia|].
    intros d' Hd'. assert (length d' < f)%nat by (unfold len in *; lia).
    split; [by apply dec_advances|]. pose proof (IH (depth + 1) d' ltac:(done)) as Hd.
    destruct (dec lim f (depth + 1) d'); try done.
    eapply documented_mono; [|exact Hd]. lia.
  - eapply documented_mono; [|exact Ht]. pose proof (len_nonneg d). lia.
Qed.

Lemma decode_throws lim d : throws_only (documented lim (1 + len d)) (decode lim d).
Proof. apply dec_throws. lia. Qed.

(** Unpacking never writes outside the memory it allocated, and always
    ends: for every input of less than 4 GiB, offset, limits and reference function,
    it returns or throws one of the documented exceptions. *)
Theorem unpack_safe d off f lim fuel :
  len d < 2 ^ 32 -> 0 <= off ->
  exists m, unpack_imp fuel d off f lim = Some m /\ m <> Throw invalid_access.
Proof.
  intros Hsz Hoff. destruct (Z.leb_spec (len d) off) as [Hle|Hlt].
  { unfold unpack_imp, parse_imp. destruct (Z.leb_spec (len d) off); [|lia]. by eexists. }
  set (q := take (Z.to_nat off) d). set (r := drop (Z.to_nat off) d).
  assert (Hd : d = q ++ r) by (unfold q, r; by rewrite take_drop).
  assert (Hq : off = len q) by (unfold q, len in *; rewrite length_take; lia).
  pose proof (execute_decode d q r _ Hsz Hd (idle_new f lim)) as H.
  pose proof (decode_throws lim r) as Hub.
  change (m_limit (holder (new_context (new_visitor f lim)))) with lim in H.
  unfold unpack_imp, parse_imp. destruct (Z.leb_spec (len d) off); [lia|]. rewrite Hq.
  destruct (decode lim r) as [o rest| |e|]; cbn [executes_as] in H; [| | |done].
  - destruct H as (q' & c' & Hd' & -> & _). by eexists.
  - destruct H as (n & c' & ->). by eexists.
  - destruct H as (c' & ->). eexists. split; [done|]. intros [= ->]. exact Hub.
Qed.
