(* ===== verification/UnpackV1.v ===== *)
(** * The older parser

    Models v1/unpack.hpp: [detail::context], which builds the objects itself
    instead of driving a visitor, and [unpack]. Objects are the cells of
    Visitor; an array or a map under construction is held in the element of
    [m_stack] it belongs to, and its contents are in a block of the zone. Writing
    outside a block is the outcome [invalid_access]; the zone does not run out of
    memory. *)

From S2P Require Import Prelude FloatBits MsgObject Parse Visitor.

(** ** [unpack_user]: the zone, the reference function and the limits *)

Record unpack_user := {
  m_func : option (raw_type -> Z -> bool);
  m_limit : unpack_limit;
  cells : gmap ptr cell;
  blocks : list Z;
  m_referenced : bool;
}.

Definition set_cells h u := {| m_func := m_func u; m_limit := m_limit u; cells := h;
  blocks := blocks u; m_referenced := m_referenced u |}.
Definition set_blocks bl u := {| m_func := m_func u; m_limit := m_limit u; cells := cells u;
  blocks := bl; m_referenced := m_referenced u |}.
Definition set_referenced b u := {| m_func := m_func u; m_limit := m_limit u;
  cells := cells u; blocks := blocks u; m_referenced := b |}.

Definition new_user (f : option (raw_type -> Z -> bool)) (limit : unpack_limit) : unpack_user :=
  {| m_func := f; m_limit := limit; cells := ∅; blocks := []; m_referenced := false |}.

Definition in_block (u : unpack_user) (p : ptr) : bool :=
  match blocks u !! Z.to_nat p.1 with
  | Some n => (0 <=? p.1) && (0 <=? p.2) && (p.2 <? n)
  | None => false
  end.

(** An object is copied to a place of the zone. *)
Definition write (p : ptr) (c : cell) (u : unpack_user) : res unpack_exn unpack_user :=
  if in_block u p then Ok (set_cells (<[p := c]> (cells u)) u) else Throw invalid_access.

Definition allocate (n : Z) (u : unpack_user) : Z * unpack_user :=
  (len (blocks u), set_blocks (blocks u ++ [n]) u).

(** ** The functions that fill an object *)

Definition unpack_uint8 (d : Z) : cell := CPositive d.
Definition unpack_uint16 (d : Z) : cell := CPositive d.
Definition unpack_uint32 (d : Z) : cell := CPositive d.
Definition unpack_uint64 (d : Z) : cell := CPositive d.
Definition unpack_int8 (d : Z) : cell := if 0 <=? d then CPositive d else CNegative d.
Definition unpack_int16 (d : Z) : cell := if 0 <=? d then CPositive d else CNegative d.
Definition unpack_int32 (d : Z) : cell := if 0 <=? d then CPositive d else CNegative d.
Definition unpack_int64 (d : Z) : cell := if 0 <=? d then CPositive d else CNegative d.
Definition unpack_float (d : Z) : cell := CFloat32 (widen d).
Definition unpack_double (d : Z) : cell := CFloat64 d.
Definition unpack_nil : cell := CNil.
Definition unpack_true : cell := CBoolean true.
Definition unpack_false : cell := CBoolean false.

(** The functors [unpack_array] and [unpack_map]: an empty container with room
    for [n] elements. *)
Definition unpack_array (u : unpack_user) (n : Z) : res unpack_exn (cell * unpack_user) :=
  if array_ (m_limit u) <? n then Throw array_size_overflow
  else if negb (wrap 64 (n * 24) / 24 =? n) then Throw array_size_overflow
  else let '(b, u) := allocate n u in Ok (CArray 0 (Some b), u).

Definition unpack_map (u : unpack_user) (n : Z) : res unpack_exn (cell * unpack_user) :=
  if map_ (m_limit u) <? n then Throw map_size_overflow
  else if negb (wrap 64 (n * 48) / 48 =? n) then Throw map_size_overflow
  else let '(b, u) := allocate (2 * n) u in Ok (CMap 0 (Some b), u).

Definition unpack_array_item (c o : cell) (u : unpack_user) : res unpack_exn (cell * unpack_user) :=
  match c with
  | CArray size (Some b) =>
    (let? u := write (b, size) o u in Ok (CArray (wrap 32 (size + 1)) (Some b), u))%res
  | _ => Throw invalid_access
  end.

Definition unpack_map_item (c k v : cell) (u : unpack_user) : res unpack_exn (cell * unpack_user) :=
  match c with
  | CMap size (Some b) =>
    (let? u := write (b, 2 * size) k u in
     let? u := write (b, 2 * size + 1) v u in
     Ok (CMap (wrap 32 (size + 1)) (Some b), u))%res
  | _ => Throw invalid_access
  end.

(** The bytes of a string: where they are when the reference function accepts,
    or else a copy, whose size is limited. *)
Definition keep_or_copy (t : raw_type) (limit : Z) (overflow : unpack_exn) (p : bytes) (l : Z)
    (u : unpack_user) : res unpack_exn (bytes * unpack_user) :=
  if match m_func u with Some f => f t l | None => false end
  then Ok (p, set_referenced true u)
  else if limit <? l then Throw overflow
  else Ok (take (Z.to_nat l) p, u).

Definition unpack_str (u : unpack_user) (p : bytes) (l : Z) : res unpack_exn (cell * unpack_user) :=
  (let? (q, u) := keep_or_copy T_STR (str_ (m_limit u)) str_size_overflow p l u in
   Ok (CStr q l, u))%res.
Definition unpack_bin (u : unpack_user) (p : bytes) (l : Z) : res unpack_exn (cell * unpack_user) :=
  (let? (q, u) := keep_or_copy T_BIN (bin_ (m_limit u)) bin_size_overflow p l u in
   Ok (CBin q l, u))%res.
Definition unpack_ext (u : unpack_user) (p : bytes) (l : Z) : res unpack_exn (cell * unpack_user) :=
  (let? (q, u) := keep_or_copy T_EXT (ext_ (m_limit u)) ext_size_overflow p l u in
   Ok (CExt q (wrap 32 (l - 1)), u))%res.

(** ** [unpack_stack] *)

Record unpack_stack := {
  m_obj : cell;
  m_count : Z;
  m_container_type : Z;
  m_map_key : cell;
}.

Definition new_stack : unpack_stack :=
  {| m_obj := CNil; m_count := 0; m_container_type := 0; m_map_key := CNil |}.

Definition set_obj o s := {| m_obj := o; m_count := m_count s;
  m_container_type := m_container_type s; m_map_key := m_map_key s |}.
Definition set_count n s := {| m_obj := m_obj s; m_count := n;
  m_container_type := m_container_type s; m_map_key := m_map_key s |}.
Definition decr_count s := set_count (wrap 64 (m_count s - 1)) s.
Definition set_container_type t s := {| m_obj := m_obj s; m_count := m_count s;
  m_container_type := t; m_map_key := m_map_key s |}.
Definition set_map_key k s := {| m_obj := m_obj s; m_count := m_count s;
  m_container_type := m_container_type s; m_map_key := k |}.

(** The values of [msgpack_container_type]. *)
Definition ct_value (t : container_type) : Z :=
  match t with CT_ARRAY_ITEM => 0 | CT_MAP_KEY => 1 | CT_MAP_VALUE => 2 end.
Definition ct_of (z : Z) : option container_type :=
  match z with 0 => Some CT_ARRAY_ITEM | 1 => Some CT_MAP_KEY | 2 => Some CT_MAP_VALUE
  | _ => None end.

(** ** [context] *)

Record context := {
  m_trail : Z;
  m_user : unpack_user;
  m_cs : unpack_state;
  m_stack : list unpack_stack;      (* back first *)
}.

Definition new_context (u : unpack_user) : context :=
  {| m_trail := 0; m_user := u; m_cs := CS_HEADER; m_stack := [new_stack] |}.

(** [m_stack[0]] is the last of the list. *)
Definition set_bottom (o : cell) (st : list unpack_stack) : list unpack_stack :=
  match last st with
  | Some s => take (length st - 1) st ++ [set_obj o s]
  | None => []
  end.

Definition init (c : context) : context :=
  {| m_trail := 0; m_user := m_user c; m_cs := CS_HEADER;
     m_stack := match last (m_stack c) with Some s => [set_obj CNil s] | None => [] end |}.

Definition data (c : context) : option cell := m_obj <$> last (m_stack c).

Record loop := {
  ctx : context;
  m_current : Z;
  fixed_trail_again : bool;
}.

(** Going on, returning from [execute] with the offset it stores, or throwing. *)
Inductive flow :=
| Go (l : loop)
| Ret (r : Z) (off : Z) (c : context)
| Exc (e : unpack_exn).

Definition set_ctx c l := {| ctx := c; m_current := m_current l;
  fixed_trail_again := fixed_trail_again l |}.
Definition set_current p l := {| ctx := ctx l; m_current := p;
  fixed_trail_again := fixed_trail_again l |}.
Definition set_again b l := {| ctx := ctx l; m_current := m_current l; fixed_trail_again := b |}.
Definition set_cs s c := {| m_trail := m_trail c; m_user := m_user c; m_cs := s;
  m_stack := m_stack c |}.
Definition set_trail t c := {| m_trail := t; m_user := m_user c; m_cs := m_cs c;
  m_stack := m_stack c |}.
Definition set_stack st u c := {| m_trail := m_trail c; m_user := u; m_cs := m_cs c;
  m_stack := st |}.

(** [push_item]: [back] and [below] are the stack, [sp] the element under the
    back. It gives the code returned, the stack, the user and [obj]. *)
Fixpoint push_item (back : unpack_stack) (below : list unpack_stack) (u : unpack_user) (o : cell)
    : res unpack_exn (Z * list unpack_stack * unpack_user * cell) :=
  match below with
  | [] => Ok (1, [back], u, o)
  | sp :: lower =>
    match ct_of (m_container_type sp) with
    | Some CT_ARRAY_ITEM =>
      (let? (c, u) := unpack_array_item (m_obj sp) o u in
       let sp := decr_count (set_obj c sp) in
       if m_count sp =? 0 then push_item sp lower u (m_obj sp)
       else Ok (0, back :: sp :: lower, u, o))%res
    | Some CT_MAP_KEY =>
      Ok (0, back :: set_container_type (ct_value CT_MAP_VALUE) (set_map_key o sp) :: lower, u, o)
    | Some CT_MAP_VALUE =>
      (let? (c, u) := unpack_map_item (m_obj sp) (m_map_key sp) o u in
       let sp := decr_count (set_obj c sp) in
       if m_count sp =? 0 then push_item sp lower u (m_obj sp)
       else Ok (0, back :: set_container_type (ct_value CT_MAP_KEY) sp :: lower, u, o))%res
    | None => Ok (-1, back :: below, u, o)
    end
  end.

(** [push_proc], with the [if (ret != 0) return ret] that follows each call. *)
Definition push_proc (o : cell) (l : loop) : flow :=
  let c := ctx l in
  match m_stack c with
  | [] => Exc invalid_access
  | back :: below =>
    match push_item back below (m_user c) o with
    | Throw e => Exc e
    | Ok (ret, st, u, o) =>
      if 0 <? ret then
        let cur := m_current l + 1 in Ret ret cur (set_stack (set_bottom o st) u c)
      else if ret <? 0 then Ret ret (m_current l) (set_stack st u c)
      else Go (set_current (m_current l + 1) (set_ctx (set_cs CS_HEADER (set_stack st u c)) l))
    end
  end.

(** A string, whose object is then pushed. *)
Definition push_raw (m : res unpack_exn (cell * unpack_user)) (l : loop) : flow :=
  match m with
  | Throw e => Exc e
  | Ok (o, u) => push_proc o (set_ctx (set_stack (m_stack (ctx l)) u (ctx l)) l)
  end.

(** [push_aggregate], once the size [tmp] has been loaded. *)
Definition push_aggregate (f : unpack_user -> Z -> res unpack_exn (cell * unpack_user))
    (type : container_type) (tmp : Z) (l : loop) : flow :=
  let c := ctx l in
  match m_stack c, f (m_user c) tmp with
  | [], _ => Exc invalid_access
  | _, Throw e => Exc e
  | back :: below, Ok (o, u) =>
    let back := set_obj o back in
    if tmp =? 0 then push_proc (m_obj back) (set_ctx (set_stack (back :: below) u c) l)
    else
      let back := set_count tmp (set_container_type (ct_value type) back) in
      if len (back :: below) <=? depth_ (m_limit u) then
        Go (set_current (m_current l + 1)
             (set_ctx (set_cs CS_HEADER (set_stack (new_stack :: back :: below) u c)) l))
      else Exc depth_size_overflow
  end.

(** ** [execute] *)

Definition load_fix (data : bytes) (n : Z) : Z := Z.land (be_val (slice data n 1)) 0x0f.
Definition load (data : bytes) (k : Z) (n : Z) : Z := be_val (slice data n k).
Definition load_signed (data : bytes) (k : Z) (n : Z) : Z := sext (8 * k) (load data k n).

Definition next_cs (p : byte) : unpack_state := unpack_state_of (Z.land (u8 p) 0x1f).

Definition trail : list Z :=
  [1; 2; 4; 1; 2; 4; 4; 8; 1; 2; 4; 8; 1; 2; 4; 8; 2; 3; 5; 9; 17; 1; 2; 4; 2; 4; 2; 4].

(** The [if (m_cs == MSGPACK_CS_HEADER)] half of the body. *)
Definition exec_header (data : bytes) (l0 : loop) : flow :=
  let l := set_again false l0 in
  let c := ctx l in
  let p := default Byte.x00 (data !! Z.to_nat (m_current l)) in
  let selector := u8 p in
  if (0x00 <=? selector) && (selector <=? 0x7f) then push_proc (unpack_uint8 selector) l
  else if (0xe0 <=? selector) && (selector <=? 0xff) then push_proc (unpack_int8 (i8 p)) l
  else if (0xc4 <=? selector) && (selector <=? 0xdf) then
    Go (set_again true
          (set_ctx (set_cs (next_cs p)
             (set_trail (default 0 (trail !! Z.to_nat (selector - 0xc4))) c)) l))
  else if (0xa0 <=? selector) && (selector <=? 0xbf) then
    let t := Z.land selector 0x1f in
    if t =? 0 then
      push_raw (unpack_str (m_user c) [] (wrap 32 t)) (set_ctx (set_trail t c) l)
    else Go (set_again true (set_ctx (set_cs ACS_STR_VALUE (set_trail t c)) l))
  else if (0x90 <=? selector) && (selector <=? 0x9f) then
    push_aggregate unpack_array CT_ARRAY_ITEM (load_fix data (m_current l)) l
  else if (0x80 <=? selector) && (selector <=? 0x8f) then
    push_aggregate unpack_map CT_MAP_KEY (load_fix data (m_current l)) l
  else if selector =? 0xc2 then push_proc unpack_false l
  else if selector =? 0xc3 then push_proc unpack_true l
  else if selector =? 0xc0 then push_proc unpack_nil l
  else Ret (-1) (m_current l) c.

(** A length field has been read: an empty string at once, otherwise [t] more
    bytes are awaited. *)
Definition length_field (visit : unpack_user -> bytes -> Z -> res unpack_exn (cell * unpack_user))
    (next : unpack_state) (t : Z) (size : Z) (l : loop) : flow :=
  let c := set_trail t (ctx l) in
  if t =? 0 then push_raw (visit (m_user c) [] size) (set_ctx c l)
  else Go (set_again true (set_ctx (set_cs next c) l)).

(** The [switch (m_cs)]. The size of an ext is the [size_t] [m_trail]. *)
Definition exec_switch (data : bytes) (n : Z) (l : loop) : flow :=
  let c := ctx l in
  let u := m_user c in
  let t := m_trail c in
  let str t := length_field unpack_str ACS_STR_VALUE t (wrap 32 t) in
  let bin t := length_field unpack_bin ACS_BIN_VALUE t (wrap 32 t) in
  let ext t := length_field unpack_ext ACS_EXT_VALUE t t in
  match m_cs c with
  | CS_FLOAT => push_proc (unpack_float (load data 4 n)) l
  | CS_DOUBLE => push_proc (unpack_double (load data 8 n)) l
  | CS_UINT_8 => push_proc (unpack_uint8 (load data 1 n)) l
  | CS_UINT_16 => push_proc (unpack_uint16 (load data 2 n)) l
  | CS_UINT_32 => push_proc (unpack_uint32 (load data 4 n)) l
  | CS_UINT_64 => push_proc (unpack_uint64 (load data 8 n)) l
  | CS_INT_8 => push_proc (unpack_int8 (load_signed data 1 n)) l
  | CS_INT_16 => push_proc (unpack_int16 (load_signed data 2 n)) l
  | CS_INT_32 => push_proc (unpack_int32 (load_signed data 4 n)) l
  | CS_INT_64 => push_proc (unpack_int64 (load_signed data 8 n)) l
  | CS_FIXEXT_1 => push_raw (unpack_ext u (slice data n 2) 2) l
  | CS_FIXEXT_2 => push_raw (unpack_ext u (slice data n 3) 3) l
  | CS_FIXEXT_4 => push_raw (unpack_ext u (slice data n 5) 5) l
  | CS_FIXEXT_8 => push_raw (unpack_ext u (slice data n 9) 9) l
  | CS_FIXEXT_16 => push_raw (unpack_ext u (slice data n 17) 17) l
  | CS_STR_8 => str (load data 1 n) l
  | CS_BIN_8 => bin (load data 1 n) l
  | CS_EXT_8 => ext (load data 1 n + 1) l
  | CS_STR_16 => str (load data 2 n) l
  | CS_BIN_16 => bin (load data 2 n) l
  | CS_EXT_16 => ext (load data 2 n + 1) l
  | CS_STR_32 => str (load data 4 n) l
  | CS_BIN_32 => bin (load data 4 n) l
  | CS_EXT_32 => ext (wrap 64 (load data 4 n + 1)) l
  | ACS_STR_VALUE => push_raw (unpack_str u (slice data n t) (wrap 32 t)) l
  | ACS_BIN_VALUE => push_raw (unpack_bin u (slice data n t) (wrap 32 t)) l
  | ACS_EXT_VALUE => push_raw (unpack_ext u (slice data n t) t) l
  | CS_ARRAY_16 => push_aggregate unpack_array CT_ARRAY_ITEM (load data 2 n) l
  | CS_ARRAY_32 => push_aggregate unpack_array CT_ARRAY_ITEM (load data 4 n) l
  | CS_MAP_16 => push_aggregate unpack_map CT_MAP_KEY (load data 2 n) l
  | CS_MAP_32 => push_aggregate unpack_map CT_MAP_KEY (load data 4 n) l
  | CS_HEADER | CS_UNNAMED _ => Ret (-1) (m_current l) c
  end.

(** The [if (m_cs != MSGPACK_CS_HEADER || fixed_trail_again)] half. *)
Definition exec_trail (data : bytes) (l : loop) : flow :=
  let l := if fixed_trail_again l then set_again false (set_current (m_current l + 1) l)
           else l in
  let n := m_current l in
  if len data - n <? m_trail (ctx l) then Ret 0 n (ctx l)
  else exec_switch data n (set_current (n + m_trail (ctx l) - 1) l).

Definition exec_body (data : bytes) (l : loop) : flow :=
  let r := if is_header (m_cs (ctx l)) then exec_header data l else Go l in
  match r with
  | Go l => if negb (is_header (m_cs (ctx l))) || fixed_trail_again l
            then exec_trail data l else Go l
  | r => r
  end.

Definition exec_iter (data : bytes) (l : loop) : flow :=
  match exec_body data l with
  | Go l => if m_current l =? len data then Ret 0 (m_current l) (ctx l) else Go l
  | r => r
  end.

Fixpoint exec_loop (fuel : nat) (data : bytes) (l : loop) : option flow :=
  match exec_iter data l with
  | Go l => match fuel with O => None | S f => exec_loop f data l end
  | r => Some r
  end.

Definition execute (data : bytes) (off : Z) (c : context) : option flow :=
  if off =? len data then Some (Ret 0 off c)
  else exec_loop (2 * length data) data
         {| ctx := c; m_current := off; fixed_trail_again := false |}.

(** ** [unpack_imp] and [unpack]

    What is returned, with [off], [result] (read with the given fuel; the nil
    object of the callers when it is not set) and [referenced]. *)
Definition unpack_imp (fuel : nat) (d : bytes) (off : Z)
    (f : option (raw_type -> Z -> bool)) (limit : unpack_limit)
    : option (res unpack_exn (parse_return * Z * option object * bool)) :=
  if len d <=? off then Some (Ok (PARSE_CONTINUE, off, Some NIL, false))
  else
    match execute d off (init (new_context (new_user f limit))) with
    | None | Some (Go _) => None
    | Some (Exc e) => Some (Throw e)
    | Some (Ret e noff c) =>
      let referenced := m_referenced (m_user c) in
      if e <? 0 then Some (Ok (PARSE_PARSE_ERROR, off, Some NIL, false))
      else if e =? 0 then Some (Ok (PARSE_CONTINUE, noff, Some NIL, referenced))
      else
        let result := data c ≫= read_object fuel (cells (m_user c)) in
        Some (Ok (if noff <? len d then PARSE_EXTRA_BYTES else PARSE_SUCCESS,
                  noff, result, referenced))
    end.

(** The three overloads that do the work give the caller the same: the object, in a new
    handle, in the handle given or by itself; the offset; and whether the buffer is
    referenced. *)
Definition unpack (fuel : nat) (d : bytes) (off : Z) (f : option (raw_type -> Z -> bool))
    (limit : unpack_limit) : option (res unpack_exn (option object * Z * bool)) :=
  m ← unpack_imp fuel d off f limit;
  Some (let? (ret, noff, obj, referenced) := m in
        match ret with
        | PARSE_SUCCESS | PARSE_EXTRA_BYTES => Ok (obj, noff, referenced)
        | PARSE_CONTINUE => Throw insufficient_bytes_exn
        | _ => Throw parse_error_exn
        end)%res.

Example unpack_sample :
  unpack 9 [chr 0x92; chr 1; chr 0x81; chr 0xa1; chr 97; chr 0x90; chr 7] 0 None default_limit =
  Some (Ok (Some (ARRAY [POSITIVE_INTEGER 1; MAP [(STR [chr 97], ARRAY [])]]), 6, false)).
Proof. reflexivity. Qed.
