(* ===== verification/UnpackV1Spec.v ===== *)
(** * The older parser agrees with the streaming parser

    UnpackV1 builds objects bottom up, each container held in the stack until its last
    element has come; the parser of Parse with [create_object_visitor] writes a
    container's header first and its elements in place. The two are run in lock step:
    [ctx_rel] relates their contexts through the containers that are open ([frame]). *)

From S2P Require Import Prelude FloatBits MsgObject Parse ParseLoop Visitor Format Tokens Decode.
From S2P Require UnpackV1.

(** ** Objects in a heap that grows *)

(** In the heap [h] the cell [c] is the object [o]. An empty container may or may not
    have a block. *)
Inductive shows (h : gmap ptr cell) : cell -> object -> Prop :=
| shows_leaf c o : leaf_cell c o -> shows h c o
| shows_null k : shows h (kcell k 0 None) (container k [])
| shows_block k n b l : len l = children k n -> shows_items h b 0 l ->
    shows h (kcell k n (Some b)) (container k l)
with shows_items (h : gmap ptr cell) : Z -> Z -> list object -> Prop :=
| shows_nil b i : shows_items h b i []
| shows_cons b i c o l : h !! (b, i) = Some c -> shows h c o ->
    shows_items h b (i + 1) l -> shows_items h b i (o :: l).

Scheme shows_mut := Induction for shows Sort Prop
with shows_items_mut := Induction for shows_items Sort Prop.
Combined Scheme shows_both from shows_mut, shows_items_mut.

Lemma shows_mono_both h h' : h ⊆ h' ->
  (forall c o, shows h c o -> shows h' c o) /\
  (forall b i l, shows_items h b i l -> shows_items h' b i l).
Proof.
  intros Hs.
  enough (H : (forall c o (_ : shows h c o), shows h' c o) /\
    (forall b i l (_ : shows_items h b i l), shows_items h' b i l)) by (split; apply H).
  apply (shows_both h (fun c o _ => shows h' c o) (fun b i l _ => shows_items h' b i l)).
  - intros. by apply shows_leaf.
  - intros. apply shows_null.
  - intros. by apply shows_block.
  - intros. apply shows_nil.
  - intros. eapply shows_cons; [|done|done]. by eapply lookup_weaken.
Qed.

Lemma shows_mono h h' c o : h ⊆ h' -> shows h c o -> shows h' c o.
Proof. intros. by apply (shows_mono_both h h'). Qed.

Lemma shows_items_mono h h' b i l : h ⊆ h' -> shows_items h b i l -> shows_items h' b i l.
Proof. intros. by apply (shows_mono_both h h'). Qed.

Lemma shows_items_snoc h b c o l : forall i,
  shows_items h b i l -> h !! (b, i + len l) = Some c -> shows h c o ->
  shows_items h b i (l ++ [o]).
Proof.
  induction l as [|x l IH]; intros i Hi Hc Ho; simpl.
  - rewrite len_nil, Z.add_0_r in Hc. eapply shows_cons; [done..|]. apply shows_nil.
  - inversion Hi; subst. eapply shows_cons; [done..|]. apply IH; [done| |done].
    rewrite len_cons in Hc. by replace (i + 1 + len l) with (i + (1 + len l)) by lia.
Qed.

(** Enough fuel reads the object back. *)
Lemma shows_read_both h :
  (forall c o, shows h c o ->
     forall fuel, (depth o <= fuel)%nat -> read_object fuel h c = Some o) /\
  (forall b i l, shows_items h b i l ->
     forall fuel, Forall (fun o => (depth o <= fuel)%nat) l -> forall j o,
       l !! j = Some o -> h !! (b, i + Z.of_nat j) ≫= read_object fuel h = Some o).
Proof.
  enough (H : (forall c o (_ : shows h c o),
      forall fuel, (depth o <= fuel)%nat -> read_object fuel h c = Some o) /\
    (forall b i l (_ : shows_items h b i l),
      forall fuel, Forall (fun o => (depth o <= fuel)%nat) l -> forall j o,
        l !! j = Some o -> h !! (b, i + Z.of_nat j) ≫= read_object fuel h = Some o))
    by (split; apply H).
  apply (shows_both h (fun c o _ => forall fuel, (depth o <= fuel)%nat ->
      read_object fuel h c = Some o)
    (fun b i l _ => forall fuel, Forall (fun o => (depth o <= fuel)%nat) l -> forall j o,
      l !! j = Some o -> h !! (b, i + Z.of_nat j) ≫= read_object fuel h = Some o)).
  - intros c o Hl [|fuel] Hf; [pose proof (depth_pos o); lia|]. by apply read_leaf.
  - intros k [|fuel] Hf; [pose proof (depth_pos (container k [])); lia|]. by destruct k.
  - intros k n b l Hlen _ IH [|fuel] Hf; [pose proof (depth_pos (container k l)); lia|].
    destruct (Z.ltb_spec 0 n) as [Hn|Hn].
    + apply read_container; [done|done|]. apply IH. by eapply depth_children.
    + pose proof (len_nonneg l). assert (n = 0 /\ l = []) as [-> ->].
      { destruct l; [|rewrite len_cons in *; pose proof (len_nonneg l)]; destruct k;
          cbn [children] in Hlen; try rewrite len_nil in Hlen; (split; [lia|]); (done || lia). }
      by destruct k.
  - done.
  - intros b i c o l Hc _ IH1 _ IH2 fuel [Hf1 Hf2]%Forall_cons [|j] o' Hj; simpl in Hj.
    + injection Hj as <-. rewrite Z.add_0_r, Hc. simpl. by apply IH1.
    + replace (i + Z.of_nat (S j)) with (i + 1 + Z.of_nat j) by lia. by apply IH2.
Qed.

Lemma shows_read h c o fuel : shows h c o -> (depth o <= fuel)%nat -> read_object fuel h c = Some o.
Proof. intros. by apply (shows_read_both h). Qed.

(** ** The blocks of the open containers

    [(b, w, n)]: the block [b] has [n] places of which those from [w] on are not written
    yet; and no block is written before it is allocated. *)
Definition zone_ok (h : gmap ptr cell) (bl : list Z) (ws : list (Z * Z * Z)) : Prop :=
  NoDup ws.*1.*1 /\
  Forall (fun x => 0 <= x.1.1 /\ bl !! Z.to_nat x.1.1 = Some x.2 /\
                   forall i, x.1.2 <= i -> h !! (x.1.1, i) = None) ws /\
  (forall b i, len bl <= b -> h !! (b, i) = None).

Lemma zone_push h bl ws n : zone_ok h bl ws -> zone_ok h (bl ++ [n]) ((len bl, 0, n) :: ws).
Proof.
  intros (Hn & Hf & Hh). split_and!.
  - simpl. constructor; [|done]. rewrite list_elem_of_fmap. intros ([b w] & Hb & Hx). simpl in Hb.
    apply list_elem_of_fmap in Hx as (x & Ex & Hx). rewrite Forall_forall in Hf.
    destruct (Hf x Hx) as (H0 & Hl & _). rewrite <- Ex in *. apply lookup_lt_Some in Hl. simpl in *. subst.
    unfold len in *. lia.
  - constructor.
    + simpl. split_and!; [apply len_nonneg| |intros; by apply Hh].
      unfold len. by rewrite Nat2Z.id, list_lookup_middle.
    + eapply Forall_impl; [exact Hf|]. intros x (H0 & Hl & Hx). split_and!; [done| |done].
      by apply lookup_app_l_Some.
  - intros b i Hb. apply Hh. rewrite len_app in Hb. pose proof (len_nonneg [n]). lia.
Qed.

Lemma zone_pop h bl x ws : zone_ok h bl (x :: ws) -> zone_ok h bl ws.
Proof. intros (Hn & Hf & Hh). inversion Hn; inversion Hf; subst. done. Qed.

Lemma zone_write h bl ws1 b w n ws2 c :
  zone_ok h bl (ws1 ++ (b, w, n) :: ws2) ->
  zone_ok (<[(b, w) := c]> h) bl (ws1 ++ (b, w + 1, n) :: ws2) /\
  h !! (b, w) = None /\ h ⊆ <[(b, w) := c]> h.
Proof.
  intros (Hn & Hf & Hh). assert (Hf' := Hf). rewrite Forall_app, Forall_cons in Hf'.
  destruct Hf' as (Hf1 & (H0 & Hl & Hx) & Hf2). simpl in *.
  assert (Hw : h !! (b, w) = None) by (apply Hx; lia).
  assert (Hb : b < len bl) by (apply lookup_lt_Some in Hl; unfold len; lia).
  split_and!; [|done|by apply insert_subseteq].
  assert (E : forall x, x ∈ ws1 ++ ws2 -> x.1.1 <> b).
  { intros x Hx' <-. rewrite !fmap_app in Hn. simpl in Hn.
    apply NoDup_app in Hn as (_ & Hd & Hn). apply NoDup_cons in Hn as [Hn _].
    apply elem_of_app in Hx' as [Hx'|Hx'].
    - apply (Hd x.1.1); [|by left]. by apply list_elem_of_fmap_2, list_elem_of_fmap_2.
    - apply Hn. by apply list_elem_of_fmap_2, list_elem_of_fmap_2. }
  assert (G : forall ws, (forall x, x ∈ ws -> x.1.1 <> b) ->
    Forall (fun x => 0 <= x.1.1 /\ bl !! Z.to_nat x.1.1 = Some x.2 /\
                   forall i, x.1.2 <= i -> h !! (x.1.1, i) = None) ws ->
    Forall (fun x => 0 <= x.1.1 /\ bl !! Z.to_nat x.1.1 = Some x.2 /\
                   forall i, x.1.2 <= i -> <[(b, w) := c]> h !! (x.1.1, i) = None) ws).
  { intros ws Hne. rewrite !Forall_forall. intros H x Hx'. destruct (H x Hx') as (A & B & C).
    split_and!; [done|done|]. intros i Hi. rewrite lookup_insert_ne; [by apply C|].
    intros [= Eb _]. by apply (Hne x Hx'). }
  split_and!.
  - by rewrite !fmap_app in *.
  - rewrite Forall_app, Forall_cons. split_and!.
    + apply G; [|done]. intros x Hx'. apply E. set_solver.
    + simpl. done.
    + simpl. done.
    + simpl. intros i Hi. rewrite lookup_insert_ne by (intros [=]; lia). apply Hx. lia.
    + apply G; [|done]. intros x Hx'. apply E. set_solver.
  - intros b' i Hb'. rewrite lookup_insert_ne by (intros [=]; lia). by apply Hh.
Qed.

(** ** The containers open *)

Record frame := {
  fk : kind;
  fn : Z;                        (* its elements *)
  fm : Z;                        (* those read *)
  fitems : list object;          (* their objects *)
  fkey : option object;          (* the key of the pair under way *)
  fb1 : Z;                       (* its block, in the older parser *)
  fb2 : Z;                       (* its block, in the other *)
}.

Definition frame_ok (f : frame) : Prop :=
  0 <= fm f < fn f /\ fn f < 2 ^ 32 /\ len (fitems f) = children (fk f) (fm f) /\
  (fk f = K_ARRAY -> fkey f = None).

Definition ftype (f : frame) : container_type :=
  match fk f, fkey f with
  | K_ARRAY, _ => CT_ARRAY_ITEM | K_MAP, None => CT_MAP_KEY | K_MAP, Some _ => CT_MAP_VALUE
  end.

Definition fdone (f : frame) : list object := fitems f ++ option_list (fkey f).

(** One more object. *)
Definition add (o : object) (f : frame) : frame :=
  match fk f, fkey f with
  | K_ARRAY, _ => {| fk := fk f; fn := fn f; fm := fm f + 1; fitems := fitems f ++ [o];
                     fkey := fkey f; fb1 := fb1 f; fb2 := fb2 f |}
  | K_MAP, None => {| fk := fk f; fn := fn f; fm := fm f; fitems := fitems f;
                      fkey := Some o; fb1 := fb1 f; fb2 := fb2 f |}
  | K_MAP, Some k => {| fk := fk f; fn := fn f; fm := fm f + 1; fitems := fitems f ++ [k; o];
                        fkey := None; fb1 := fb1 f; fb2 := fb2 f |}
  end.

Definition open (k : kind) (n b1 b2 : Z) : frame :=
  {| fk := k; fn := n; fm := 0; fitems := []; fkey := None; fb1 := b1; fb2 := b2 |}.

Lemma open_ok k n b1 b2 : 0 < n < 2 ^ 32 -> frame_ok (open k n b1 b2).
Proof. intros. split_and!; simpl; try lia; [by destruct k|done]. Qed.

(** Adding an object keeps the container, and counts it unless it is a key. *)
Lemma add_same o f : fk (add o f) = fk f /\ fn (add o f) = fn f /\ fb1 (add o f) = fb1 f /\
  fb2 (add o f) = fb2 f.
Proof. unfold add. by destruct (fk f) eqn:Ek; [|destruct (fkey f)]. Qed.

Lemma ftype_array f : ftype f = CT_ARRAY_ITEM -> fk f = K_ARRAY.
Proof. unfold ftype. by destruct (fk f); [|destruct (fkey f)]. Qed.

Lemma add_array o f : ftype f = CT_ARRAY_ITEM ->
  fm (add o f) = fm f + 1 /\ ftype (add o f) = CT_ARRAY_ITEM.
Proof. intros Ek%ftype_array. unfold ftype, add. by rewrite Ek. Qed.

Lemma add_array_key o f : frame_ok f -> ftype f = CT_ARRAY_ITEM -> fkey (add o f) = None.
Proof. intros (_ & _ & _ & Hk) Ek%ftype_array. unfold add. rewrite Ek. simpl. by apply Hk. Qed.

Lemma add_key o f : ftype f = CT_MAP_KEY ->
  fm (add o f) = fm f /\ ftype (add o f) = CT_MAP_VALUE.
Proof. unfold ftype, add. by destruct (fk f); [|destruct (fkey f)]. Qed.

Lemma add_pair o f : ftype f = CT_MAP_VALUE ->
  fm (add o f) = fm f + 1 /\ fkey (add o f) = None /\ ftype (add o f) = CT_MAP_KEY.
Proof. unfold ftype, add. by destruct (fk f); [|destruct (fkey f)]. Qed.

Lemma add_done o f : frame_ok f -> fdone (add o f) = fdone f ++ [o].
Proof.
  intros (_ & _ & _ & Hk). unfold add, fdone. destruct (fk f) eqn:E; [|destruct (fkey f) eqn:Ek].
  - simpl. by rewrite (Hk eq_refl), !app_nil_r.
  - simpl. by rewrite app_nil_r, <- app_assoc.
  - simpl. by rewrite app_nil_r.
Qed.

Lemma add_ok o f : frame_ok f -> fm (add o f) <> fn f -> frame_ok (add o f).
Proof.
  intros (Hm & Hn & Hl & Hk). unfold add, frame_ok.
  destruct (fk f) eqn:E; [|destruct (fkey f) eqn:Ek]; simpl; intros Hne; split_and!;
    first [lia | done | rewrite len_app, Hl; simpl; len_lia | by auto].
Qed.

(** A container that is complete. *)
Lemma add_full o f : frame_ok f -> fm (add o f) = fn f ->
  fdone (add o f) = fitems (add o f) /\ len (fitems (add o f)) = children (fk f) (fn f) /\
  fkey (add o f) = None.
Proof.
  intros (Hm & Hn & Hl & Hk). unfold add, fdone.
  destruct (fk f) eqn:E; [|destruct (fkey f) eqn:Ek]; simpl; intros Hf.
  - rewrite (Hk eq_refl), app_nil_r. split_and!; [done|rewrite len_app, Hl; simpl; len_lia|done].
  - rewrite app_nil_r. split_and!; [done|rewrite len_app, Hl; simpl; len_lia|done].
  - lia.
Qed.

(** ** The older parser: [push_item] *)

Definition open1 (f : frame) : Z * Z * Z := (fb1 f, len (fitems f), children (fk f) (fn f)).

(** The element of the stack that holds the container. *)
Definition elem1 (h : gmap ptr cell) (s : UnpackV1.unpack_stack) (f : frame) : Prop :=
  UnpackV1.m_obj s = kcell (fk f) (fm f) (Some (fb1 f)) /\
  UnpackV1.m_count s = fn f - fm f /\
  UnpackV1.m_container_type s = UnpackV1.ct_value (ftype f) /\
  (forall k, fkey f = Some k -> shows h (UnpackV1.m_map_key s) k) /\
  shows_items h (fb1 f) 0 (fitems f).

Record rel1 (u : UnpackV1.unpack_user) (below : list UnpackV1.unpack_stack) (fs : list frame)
    : Prop := {
  r1_elems : Forall2 (elem1 (UnpackV1.cells u)) below fs;
  r1_zone : zone_ok (UnpackV1.cells u) (UnpackV1.blocks u) (map open1 fs);
}.

Definition same_user (u u' : UnpackV1.unpack_user) : Prop :=
  UnpackV1.m_func u' = UnpackV1.m_func u /\ UnpackV1.m_limit u' = UnpackV1.m_limit u /\
  UnpackV1.m_referenced u' = UnpackV1.m_referenced u.

Lemma ct_of_value t : UnpackV1.ct_of (UnpackV1.ct_value t) = Some t.
Proof. by destruct t. Qed.

Lemma elem1_mono h h' s f : h ⊆ h' -> elem1 h s f -> elem1 h' s f.
Proof.
  intros Hs (A & B & C & D & E). split_and!; [done..| |by eapply shows_items_mono].
  intros k Hk. eapply shows_mono; eauto.
Qed.

Lemma elems1_mono h h' l fs : h ⊆ h' -> Forall2 (elem1 h) l fs -> Forall2 (elem1 h') l fs.
Proof. intros Hs H. eapply Forall2_impl; [exact H|]. intros. by eapply elem1_mono. Qed.

Lemma write1 u b w n ws c :
  zone_ok (UnpackV1.cells u) (UnpackV1.blocks u) ((b, w, n) :: ws) -> 0 <= w < n ->
  exists u', UnpackV1.write (b, w) c u = Ok u' /\ same_user u u' /\
    UnpackV1.cells u' !! (b, w) = Some c /\ UnpackV1.cells u ⊆ UnpackV1.cells u' /\
    zone_ok (UnpackV1.cells u') (UnpackV1.blocks u') ((b, w + 1, n) :: ws).
Proof.
  intros Hz Hw. destruct (zone_write _ _ [] b w n ws c Hz) as (Hz' & _ & Hs).
  destruct Hz as (_ & [(H0 & Hl & _) _]%Forall_cons & _). simpl in *.
  exists (UnpackV1.set_cells (<[(b, w) := c]> (UnpackV1.cells u)) u). split_and!; try done.
  - unfold UnpackV1.write, UnpackV1.in_block. simpl. rewrite Hl.
    replace ((0 <=? b) && (0 <=? w) && (w <? n)) with true by (symmetry; lia). done.
  - simpl. apply lookup_insert_eq.
Qed.

Lemma rel1_more u u' s below f fs ws :
  rel1 u (s :: below) (f :: fs) -> UnpackV1.cells u ⊆ UnpackV1.cells u' ->
  zone_ok (UnpackV1.cells u') (UnpackV1.blocks u') (ws :: map open1 fs) ->
  rel1 u' below fs.
Proof.
  intros [He Hz] Hs Hz'. inversion He; subst. split; [by eapply elems1_mono|by eapply zone_pop].
Qed.

(** An element of an array, or the value of a pair, was stored: the new top of the
    container [f]. *)
Definition stored (o : object) (f : frame) (u u' : UnpackV1.unpack_user) (c' : cell) : Prop :=
  same_user u u' /\ UnpackV1.cells u ⊆ UnpackV1.cells u' /\
  c' = kcell (fk f) (fm f + 1) (Some (fb1 f)) /\
  shows_items (UnpackV1.cells u') (fb1 f) 0 (fitems (add o f)).

Lemma array_item_ok s below u c o f fs :
  frame_ok f -> rel1 u (s :: below) (f :: fs) -> shows (UnpackV1.cells u) c o ->
  ftype f = CT_ARRAY_ITEM ->
  exists c' u', UnpackV1.unpack_array_item (UnpackV1.m_obj s) c u = Ok (c', u') /\
    stored o f u u' c' /\
    zone_ok (UnpackV1.cells u') (UnpackV1.blocks u') (map open1 (add o f :: fs)).
Proof.
  intros (Hm & Hn & Hl & Hk) [He Hz] Hc Ht. inversion He as [|? ? ? ? (Ho & _ & _ & _ & Hi)]; subst.
  assert (Ek : fk f = K_ARRAY) by (unfold ftype in Ht; by destruct (fk f); [|destruct (fkey f)]).
  rewrite Ho, Ek. cbn [kcell UnpackV1.unpack_array_item]. rewrite Ek in Hl. cbn [children] in Hl.
  cbn [map] in Hz. unfold open1 in Hz at 1. rewrite Hl, Ek in Hz.
  destruct (write1 u _ _ _ _ c Hz ltac:(cbn [children]; lia)) as (u' & -> & Hs & Hw & Hsub & Hz').
  cbn [res_bind]. rewrite wrap_small by lia. eexists _, u'.
  split; [done|]. split; [split; [exact Hs|split; [exact Hsub|split]]|].
  - by rewrite Ek.
  - unfold add. rewrite Ek. cbn [fitems]. apply shows_items_snoc with c.
    + by eapply shows_items_mono.
    + by rewrite Hl, Z.add_0_l.
    + by eapply shows_mono.
  - cbn [map]. unfold open1 at 1, add. rewrite Ek. cbn [fb1 fitems fk fn].
    rewrite len_app, Hl. exact Hz'.
Qed.

Lemma map_item_ok s below u c o f fs :
  frame_ok f -> rel1 u (s :: below) (f :: fs) -> shows (UnpackV1.cells u) c o ->
  ftype f = CT_MAP_VALUE ->
  exists c' u', UnpackV1.unpack_map_item (UnpackV1.m_obj s) (UnpackV1.m_map_key s) c u = Ok (c', u') /\
    stored o f u u' c' /\
    zone_ok (UnpackV1.cells u') (UnpackV1.blocks u') (map open1 (add o f :: fs)).
Proof.
  intros (Hm & Hn & Hl & Hk) [He Hz] Hc Ht.
  inversion He as [|? ? ? ? (Ho & _ & _ & Hkey & Hi)]; subst.
  unfold ftype in Ht. destruct (fk f) eqn:Ek; [done|]. destruct (fkey f) as [k|] eqn:Ekey; [|done].
  specialize (Hkey k eq_refl). rewrite Ho. cbn [kcell UnpackV1.unpack_map_item]. cbn [children] in Hl.
  cbn [map] in Hz. unfold open1 in Hz at 1. rewrite Hl, Ek in Hz.
  destruct (write1 u _ _ _ _ (UnpackV1.m_map_key s) Hz ltac:(cbn [children]; lia))
    as (u1 & -> & Hs1 & Hw1 & Hsub1 & Hz1).
  destruct (write1 u1 _ _ _ _ c Hz1 ltac:(cbn [children]; lia)) as (u' & Hw & Hs2 & Hw2 & Hsub2 & Hz2).
  cbn [res_bind]. rewrite Hw. cbn [res_bind]. rewrite wrap_small by lia.
  assert (Hsub : UnpackV1.cells u ⊆ UnpackV1.cells u') by (by transitivity (UnpackV1.cells u1)).
  assert (Hs : same_user u u')
    by (destruct Hs1 as (? & ? & ?), Hs2 as (? & ? & ?); split_and!; congruence).
  eexists _, u'. split; [done|]. split; [split; [exact Hs|split; [exact Hsub|split]]|].
  - by rewrite Ek.
  - unfold add. rewrite Ek, Ekey. cbn [fitems].
    replace (fitems f ++ [k; o]) with ((fitems f ++ [k]) ++ [o]) by (by rewrite <- app_assoc).
    apply shows_items_snoc with c; [apply shows_items_snoc with (UnpackV1.m_map_key s)| |].
    + by eapply shows_items_mono.
    + rewrite Hl, Z.add_0_l. by eapply lookup_weaken.
    + by eapply shows_mono.
    + rewrite len_app, Hl. exact Hw2.
    + by eapply shows_mono.
  - cbn [map]. unfold open1 at 1, add. rewrite Ek, Ekey. cbn [fb1 fitems fk fn].
    replace (len (fitems f ++ [k; o])) with (2 * fm f + 1 + 1) by (rewrite len_app, Hl; len_lia).
    exact Hz2.
Qed.

(** What [push_item] does next: the container is full, or takes a new element. *)
Lemma stored_turn s below u u' c' o f fs t :
  frame_ok f -> rel1 u (s :: below) (f :: fs) -> stored o f u u' c' ->
  fm (add o f) = fm f + 1 -> fkey (add o f) = None -> t = UnpackV1.ct_value (ftype (add o f)) ->
  zone_ok (UnpackV1.cells u') (UnpackV1.blocks u') (map open1 (add o f :: fs)) ->
  let s' := UnpackV1.decr_count (UnpackV1.set_obj c' s) in
  (UnpackV1.m_count s' =? 0) = (fm (add o f) =? fn f) /\ rel1 u' below fs /\
  (fm (add o f) = fn f -> shows (UnpackV1.cells u') c' (container (fk f) (fitems (add o f)))) /\
  rel1 u' (UnpackV1.set_container_type t s' :: below) (add o f :: fs).
Proof.
  intros Hok Hr (Hsame & Hsub & -> & Hi') Em Ekey -> Hz. cbv zeta.
  pose proof (r1_elems _ _ _ Hr) as He. inversion He as [|? ? ? ? (_ & Hcnt & _) He']; subst.
  pose proof (add_full o f Hok) as Hfull. destruct (add_same o f) as (E1 & E2 & E3 & _).
  destruct Hok as (Hm & Hn & _).
  assert (Ecnt : UnpackV1.m_count (UnpackV1.decr_count (UnpackV1.set_obj
      (kcell (fk f) (fm f + 1) (Some (fb1 f))) s)) = fn f - (fm f + 1)).
  { cbn. rewrite Hcnt. rewrite wrap_small; [lia|]. split; [lia|].
    assert (2 ^ 32 < 2 ^ 64) by reflexivity. lia. }
  rewrite Ecnt, Em. split_and!.
  - destruct (Z.eqb_spec (fn f - (fm f + 1)) 0), (Z.eqb_spec (fm f + 1) (fn f)); (done || lia).
  - by eapply rel1_more.
  - intros Hf. rewrite Hf. apply shows_block; [apply Hfull; lia|done].
  - split; [|done]. constructor; [|by eapply elems1_mono].
    split_and!; [by rewrite E1, Em, E3|cbn in *; by rewrite E2, Em|done|by rewrite Ekey|by rewrite E3].
Qed.

(** One turn of [push_item], for an object of the container [f]. *)
Lemma push_item_turn back s below u c o f fs :
  frame_ok f -> rel1 u (s :: below) (f :: fs) -> shows (UnpackV1.cells u) c o ->
  exists s' u', same_user u u' /\
  if fm (add o f) =? fn f then
    UnpackV1.push_item back (s :: below) u c =
      UnpackV1.push_item s' below u' (UnpackV1.m_obj s') /\
    rel1 u' below fs /\
    shows (UnpackV1.cells u') (UnpackV1.m_obj s') (container (fk f) (fitems (add o f)))
  else UnpackV1.push_item back (s :: below) u c = Ok (0, back :: s' :: below, u', c) /\
    rel1 u' (s' :: below) (add o f :: fs).
Proof.
  intros Hok Hr Hc. pose proof (r1_elems _ _ _ Hr) as He.
  inversion He as [|? ? ? ? (Ho & Hcnt & Hct & Hkey & Hi) He']; subst.
  cbn [UnpackV1.push_item]. rewrite Hct, ct_of_value. destruct (ftype f) eqn:Et.
  - destruct (array_item_ok s below u c o f fs Hok Hr Hc Et) as (c' & u' & -> & Hst & Hz).
    destruct (add_array o f Et) as (Em & Ety).
    destruct (stored_turn s below u u' c' o f fs (UnpackV1.m_container_type s) Hok Hr Hst Em)
      as (E0 & Hr' & Hsh & Hw); [by apply add_array_key|by rewrite Hct, Ety|done|].
    cbn [res_bind]. cbv zeta. exists (UnpackV1.decr_count (UnpackV1.set_obj c' s)), u'.
    split; [apply Hst|]. rewrite E0. destruct (Z.eqb_spec (fm (add o f)) (fn f)) as [Ef|Ef].
    + split_and!; [done|done|]. cbn. by apply Hsh.
    + split; [done|]. exact Hw.
  - unfold ftype in Et. destruct (fk f) eqn:Ek; [done|]. destruct (fkey f) eqn:Ekey; [done|].
    exists (UnpackV1.set_container_type (UnpackV1.ct_value CT_MAP_VALUE) (UnpackV1.set_map_key c s)), u.
    split; [done|]. unfold add. rewrite Ek, Ekey. cbn [fm]. destruct Hok as (Hm & _).
    destruct (Z.eqb_spec (fm f) (fn f)); [lia|]. split; [done|]. split.
    + constructor; [|done]. split_and!; try done. cbn. by intros ? [= <-].
    + pose proof (r1_zone _ _ _ Hr) as Hz. cbn [map] in Hz. unfold open1 in Hz at 1.
      rewrite Ek in Hz. exact Hz.
  - destruct (map_item_ok s below u c o f fs Hok Hr Hc Et) as (c' & u' & -> & Hst & Hz).
    destruct (add_pair o f Et) as (Em & Ekey & Ety).
    destruct (stored_turn s below u u' c' o f fs (UnpackV1.ct_value CT_MAP_KEY) Hok Hr Hst Em Ekey)
      as (E0 & Hr' & Hsh & Hw); [by rewrite Ety|done|].
    cbn [res_bind]. cbv zeta. rewrite E0. destruct (Z.eqb_spec (fm (add o f)) (fn f)) as [Ef|Ef].
    + exists (UnpackV1.decr_count (UnpackV1.set_obj c' s)), u'. split; [apply Hst|].
      split_and!; [done|done|]. cbn. by apply Hsh.
    + eexists _, u'. split; [apply Hst|]. split; [done|exact Hw].
Qed.

(** ** The streaming parser: [consume] *)

Definition place (f : frame) : ptr := (fb2 f, len (fdone f)).
Definition places (fs : list frame) : list ptr := map place fs ++ [(0, 0)].
Definition top_place (fs : list frame) : ptr :=
  match fs with [] => (0, 0) | f :: _ => place f end.

(** The objects in blocks; [m_obj] is apart. *)
Definition heap (v : visitor) : gmap ptr cell := delete (0, 0) (cells v).

Definition open2 (d : Z) (f : frame) : Z * Z * Z :=
  (fb2 f, len (fdone f) + d, children (fk f) (fn f)).
Definition opens2 (d : Z) (fs : list frame) : list (Z * Z * Z) :=
  match fs with [] => [] | f :: fs => open2 d f :: map (open2 1) fs end.

Definition elem2 (f : frame) : stack_elem := {| m_type := ftype f; m_rest := fn f - fm f |}.

(** The visitor in the open containers [fs]; with [d = 1] an object has been written at
    the place on top. *)
Record rel2 (d : Z) (v : visitor) (fs : list frame) : Prop := {
  r2_stack : v_stack v = map Some (places fs);
  r2_root : blocks v !! 0%nat = Some 1;
  r2_zone : zone_ok (heap v) (blocks v) (opens2 d fs);
  r2_items : Forall (fun f => 0 < fb2 f /\ shows_items (heap v) (fb2 f) 0 (fdone f)) fs;
  r2_holes : Forall2 (fun f p => cells v !! p = Some (kcell (fk f) (fn f) (Some (fb2 f))))
               fs (tl (places fs));
}.

(** The object [o] is at the place on top. *)
Definition holds (v : visitor) (fs : list frame) (o : object) : Prop :=
  rel2 1 v fs /\ exists c, cells v !! top_place fs = Some c /\ shows (heap v) c o.

Definition same_visitor (v v' : visitor) : Prop :=
  m_func v' = m_func v /\ m_limit v' = m_limit v /\ m_referenced v' = m_referenced v.

Lemma places_cons fs : exists ps, places fs = top_place fs :: ps /\ tl (places fs) = ps.
Proof. destruct fs; simpl; eauto. Qed.

Lemma fdone_room f : frame_ok f -> len (fdone f) < children (fk f) (fn f).
Proof.
  intros (Hm & Hn & Hl & Hk). unfold fdone. rewrite len_app, Hl.
  destruct (fk f) eqn:Ek; cbn [children].
  - rewrite (Hk eq_refl). change (len (option_list None)) with 0. lia.
  - destruct (fkey f) as [k|]; [change (len (option_list (Some k))) with 1|
      change (len (option_list None)) with 0]; lia.
Qed.

Lemma top_ready v fs : rel2 0 v fs -> Forall frame_ok fs ->
  ready v (top_place fs) (map Some (tl (places fs))).
Proof.
  intros [Hs Hr Hz _ _] Hf. destruct (places_cons fs) as (ps & E & <-).
  split; [by rewrite Hs, E|]. unfold in_block. destruct fs as [|f fs]; simpl.
  - change (Z.to_nat 0) with 0%nat. by rewrite Hr.
  - destruct Hz as (_ & [(H0 & Hl & _) _]%Forall_cons & _). simpl in *. rewrite Hl.
    inversion Hf as [|? ? Hok]; subst. pose proof (fdone_room f Hok). pose proof (len_nonneg (fdone f)).
    destruct (Z.leb_spec 0 (fb2 f)), (Z.leb_spec 0 (len (fdone f))),
      (Z.ltb_spec (len (fdone f)) (children (fk f) (fn f))); (done || lia).
Qed.

Lemma heap_lookup v p : p <> (0, 0) -> heap v !! p = cells v !! p.
Proof. intros. unfold heap. by rewrite lookup_delete_ne. Qed.

(** An object is written at the place on top. *)
Lemma write2 v fs c b : rel2 0 v fs -> 
  let v' := wrote c b (top_place fs) v in
  rel2 1 v' fs /\ cells v' !! top_place fs = Some c /\ heap v ⊆ heap v'.
Proof.
  intros [Hs Hr Hz Hi Hh] v'. destruct fs as [|f fs].
  - assert (Eh : heap v' = heap v).
    { unfold heap, v'. simpl. by rewrite delete_insert_eq. }
    split_and!; [|simpl; apply lookup_insert_eq|by rewrite Eh].
    split; try done. by rewrite Eh.
  - inversion Hi as [|? ? [Hb _] _]; subst.
    assert (Hne : place f <> (0, 0)) by (unfold place; intros [=]; lia).
    assert (Eh : heap v' = <[place f := c]> (heap v)).
    { unfold heap, v'. simpl. by rewrite delete_insert_ne by congruence. }
    cbn [opens2] in Hz. unfold open2 in Hz at 1. rewrite Z.add_0_r in Hz.
    destruct (zone_write (heap v) _ [] _ _ _ _ c Hz) as (Hz' & Hfresh & Hsub).
    change (heap v !! place f = None) in Hfresh. change (heap v ⊆ <[place f := c]> (heap v)) in Hsub.
    assert (Hsub' : heap v ⊆ heap v') by (by rewrite Eh).
    split_and!; [|simpl; apply lookup_insert_eq|done]. split; [done|done| | |].
    + rewrite Eh. exact Hz'.
    + eapply Forall_impl; [exact Hi|]. intros g [? ?]. split; [done|by eapply shows_items_mono].
    + eapply Forall2_impl; [exact Hh|]. intros g p Hp. simpl in Hp |- *.
      rewrite lookup_insert_ne; [done|]. intros <-.
      rewrite heap_lookup in Hfresh by done. discriminate (eq_trans (eq_sym Hp) Hfresh).
Qed.

Lemma leaf_holds v fs c b o : rel2 0 v fs -> leaf_cell c o -> holds (wrote c b (top_place fs) v) fs o.
Proof.
  intros Hr Hc. destruct (write2 v fs c b Hr) as (Hr' & Hw & _). split; [done|].
  exists c. split; [done|by apply shows_leaf].
Qed.

(** The place on top advances: the object belongs to the container [f]. *)
Lemma place_advances v f fs o :
  frame_ok f -> holds v (f :: fs) o ->
  exists v', v_advance v = Ok (true, v') /\ same_visitor v v' /\ heap v' = heap v /\
    cells v' = cells v /\ blocks v' = blocks v /\
    v_stack v' = Some (place (add o f)) :: map Some (places fs) /\
    shows_items (heap v) (fb2 f) 0 (fdone (add o f)).
Proof.
  intros Hok [[Hs Hr Hz Hi Hh] (c & Hc & Ho)]. inversion Hi as [|? ? [Hb Hf] _]; subst.
  destruct (add_same o f) as (_ & _ & _ & E1).
  exists (set_vstack (Some (place (add o f)) :: map Some (places fs)) v).
  split; [|split_and!; try done].
  - unfold v_advance. rewrite Hs. simpl. unfold place. rewrite E1, add_done by done.
    by rewrite len_app, (len_cons o []).
  - rewrite add_done by done. apply shows_items_snoc with c; [done| |done].
    rewrite Z.add_0_l. rewrite heap_lookup; [done|]. unfold place. intros [=]; lia.
Qed.

Lemma advanced_rel2 v v' f fs o :
  frame_ok f -> holds v (f :: fs) o ->
  heap v' = heap v -> cells v' = cells v -> blocks v' = blocks v ->
  v_stack v' = Some (place (add o f)) :: map Some (places fs) ->
  shows_items (heap v) (fb2 f) 0 (fdone (add o f)) ->
  rel2 0 v' (add o f :: fs).
Proof.
  intros Hok [[Hs Hr Hz Hi Hh] _] E1 E2 E3 E4 Hd. destruct (add_same o f) as (F2 & F3 & _ & F1).
  inversion Hi as [|? ? [Hb _] Hi']; subst. split.
  - by rewrite E4.
  - by rewrite E3.
  - rewrite E1, E3. cbn [opens2] in *. unfold open2 at 1. unfold open2 in Hz at 1.
    rewrite F1, F2, F3, add_done, len_app, (len_cons o []) by done. simpl.
    replace (len (fdone f) + (1 + len []) + 0) with (len (fdone f) + 1) by len_lia. exact Hz.
  - rewrite E1. constructor; [by rewrite F1|done].
  - rewrite E2. cbn [places map tl app] in *. inversion Hh; subst.
    constructor; [by rewrite F1, F2, F3|done].
Qed.

(** The container is closed: it is the object at the place below. *)
Lemma closed_holds v v' f fs o :
  frame_ok f -> holds v (f :: fs) o -> fm (add o f) = fn f ->
  heap v' = heap v -> cells v' = cells v -> blocks v' = blocks v ->
  v_stack v' = map Some (places fs) ->
  shows_items (heap v) (fb2 f) 0 (fdone (add o f)) ->
  holds v' fs (container (fk f) (fitems (add o f))).
Proof.
  intros Hok [[Hs Hr Hz Hi Hh] _] Hf E1 E2 E3 E4 Hd.
  destruct (add_full o f Hok Hf) as (F1 & F2 & _).
  inversion Hi as [|? ? [Hb _] Hi']; subst.
  change (tl (places (f :: fs))) with (places fs) in Hh.
  destruct (places_cons fs) as (ps & Ep & Et). rewrite Ep in Hh.
  apply Forall2_cons in Hh as [Hc Hh']. split; [split|].
  - done.
  - by rewrite E3.
  - rewrite E1, E3. apply zone_pop in Hz. by destruct fs.
  - by rewrite E1.
  - rewrite E2, Et. exact Hh'.
  - rewrite E1, E2. eexists. split; [exact Hc|]. apply shows_block; [done|]. by rewrite <- F1.
Qed.

(** What [consume] does next with the count [r]. *)
Lemma count_turn f fs st v v1 o t r :
  frame_ok f -> same_visitor v v1 -> rel2 0 v1 (add o f :: fs) ->
  (fm (add o f) = fn f ->
   holds (set_vstack (map Some (places fs)) v1) fs (container (fk f) (fitems (add o f)))) ->
  fm (add o f) = fm f + 1 -> ftype (add o f) = t -> r = wrap 32 (fn f - fm f - 1) ->
  exists v', same_visitor v v' /\
  let m := if r =? 0 then consume st (set_vstack (map Some (places fs)) v1)
           else (Ok PARSE_CONTINUE, {| m_type := t; m_rest := r |} :: st, v1) in
  if fm (add o f) =? fn f then
    m = consume st v' /\ holds v' fs (container (fk f) (fitems (add o f)))
  else m = (Ok PARSE_CONTINUE, elem2 (add o f) :: st, v') /\ rel2 0 v' (add o f :: fs).
Proof.
  intros (Hm & Hn & _) Hs Hgo Hpop Em <- ->. destruct (add_same o f) as (_ & En & _).
  assert (Ew : wrap 32 (fn f - fm f - 1) = fn f - fm (add o f)) by (rewrite Em, wrap_small; lia).
  rewrite Ew. destruct (Z.eqb_spec (fm (add o f)) (fn f)) as [Ef|Ef].
  - exists (set_vstack (map Some (places fs)) v1). split; [exact Hs|].
    destruct (Z.eqb_spec (fn f - fm (add o f)) 0); [|lia]. split; [done|by apply Hpop].
  - exists v1. split; [done|]. destruct (Z.eqb_spec (fn f - fm (add o f)) 0); [lia|].
    split; [|done]. unfold elem2. by rewrite En.
Qed.

(** One turn of [consume], for an object of the container [f]. *)
Lemma consume_turn f fs st v o :
  frame_ok f -> holds v (f :: fs) o ->
  exists v', same_visitor v v' /\
  if fm (add o f) =? fn f then
    consume (elem2 f :: st) v = consume st v' /\
    holds v' fs (container (fk f) (fitems (add o f)))
  else consume (elem2 f :: st) v = (Ok PARSE_CONTINUE, elem2 (add o f) :: st, v') /\
    rel2 0 v' (add o f :: fs).
Proof.
  intros Hok Hv. destruct (place_advances v f fs o Hok Hv) as (v1 & Ha & Hs & E1 & E2 & E3 & E4 & Hd).
  assert (Hpop : fm (add o f) = fn f ->
    holds (set_vstack (map Some (places fs)) v1) fs (container (fk f) (fitems (add o f))))
    by (intros; by eapply closed_holds).
  assert (Hgo : rel2 0 v1 (add o f :: fs)) by (by eapply advanced_rel2).
  assert (Epop : v_pop v1 = Ok (true, set_vstack (map Some (places fs)) v1))
    by (unfold v_pop; by rewrite E4).
  change (elem2 f) with {| m_type := ftype f; m_rest := fn f - fm f |}.
  cbn [consume m_type m_rest].
  cbn [end_array_item end_map_key end_map_value start_array_item start_map_key
       start_map_value end_array end_map create_object_visitor].
  rewrite Ha. cbn [call]. rewrite Epop. cbn [call v_true]. destruct (ftype f) eqn:Et.
  - destruct (add_array o f Et). by apply count_turn.
  - exists v1. split; [done|]. destruct (add_key o f Et) as (Em & Ety). destruct Hok as (Hm & _).
    destruct (add_same o f) as (_ & En & _). rewrite Em.
    destruct (Z.eqb_spec (fm f) (fn f)); [lia|]. split; [|done].
    unfold elem2. by rewrite Em, En, Ety.
  - destruct (add_pair o f Et) as (? & _ & ?). by apply count_turn.
Qed.

(** ** The two loops *)

(** The reference function accepts nothing, or no string is over its limit. *)
Definition limits_ok (f : option (raw_type -> Z -> bool)) (lim : unpack_limit) : Prop :=
  f = None \/ forall t, 2 ^ 32 - 1 <= raw_limit lim t.

Definition agree (u : UnpackV1.unpack_user) (v : visitor) : Prop :=
  UnpackV1.m_func u = m_func v /\ UnpackV1.m_limit u = m_limit v /\
  UnpackV1.m_referenced u = m_referenced v /\ limits_ok (m_func v) (m_limit v).

Lemma agree_same u u' v v' : same_user u u' -> same_visitor v v' -> agree u v -> agree u' v'.
Proof.
  intros (F1 & L1 & R1) (F2 & L2 & R2) (? & ? & ? & ?).
  split_and!; [congruence..|by rewrite F2, L2].
Qed.

(** The same containers are open. *)
Definition open_rel (st1 : list UnpackV1.unpack_stack) (u : UnpackV1.unpack_user)
    (st2 : list stack_elem) (v : visitor) : Prop :=
  exists fs back below, st1 = back :: below /\ st2 = map elem2 fs /\ Forall frame_ok fs /\
    rel1 u below fs /\ rel2 0 v fs /\ agree u v.

(** The object [o] is complete. *)
Definition done_rel (o1 : option cell) (u : UnpackV1.unpack_user) (v : visitor) : Prop :=
  exists o c, o1 = Some c /\ shows (UnpackV1.cells u) c o /\ holds v [] o /\ agree u v.

Lemma push_consume fs : forall back below u c v o,
  Forall frame_ok fs -> rel1 u below fs -> holds v fs o -> shows (UnpackV1.cells u) c o ->
  agree u v ->
  (exists b' u' c' v', UnpackV1.push_item back below u c = Ok (1, [b'], u', c') /\
     consume (map elem2 fs) v = (Ok PARSE_SUCCESS, [], v') /\ done_rel (Some c') u' v') \/
  (exists st1 u' c' st2 v', UnpackV1.push_item back below u c = Ok (0, st1, u', c') /\
     consume (map elem2 fs) v = (Ok PARSE_CONTINUE, st2, v') /\ open_rel st1 u' st2 v').
Proof.
  induction fs as [|f fs IH]; intros back below u c v o Hf Hr Hv Hc Ha.
  - pose proof (r1_elems _ _ _ Hr) as He. inversion He; subst. left.
    exists back, u, c, v. split_and!; [done|done|]. by exists o, c.
  - apply Forall_cons in Hf as [Hok Hf]. pose proof (r1_elems _ _ _ Hr) as He.
    destruct below as [|s below]; [inversion He|].
    destruct (push_item_turn back s below u c o f fs Hok Hr Hc) as (s' & u' & Hs & H1).
    destruct (consume_turn f fs (map elem2 fs) v o Hok Hv) as (v' & Hs' & H2).
    pose proof (agree_same _ _ _ _ Hs Hs' Ha) as Ha'. cbn [map].
    destruct (Z.eqb_spec (fm (add o f)) (fn f)) as [E|E].
    + destruct H1 as (-> & Hr1 & Hc1), H2 as (-> & Hv1). by eapply IH.
    + destruct H1 as (-> & Hr1), H2 as (-> & Hv1). right.
      eexists _, u', c, _, v'. split_and!; [done|done|].
      exists (add o f :: fs), back, (s' :: below). split_and!; try done; try apply Ha'.
      constructor; [by apply add_ok|done].
Qed.

Definition ctx_rel (c1 : UnpackV1.context) (c2 : context visitor) : Prop :=
  open_rel (UnpackV1.m_stack c1) (UnpackV1.m_user c1) (m_stack c2) (holder c2) /\
  UnpackV1.m_trail c1 = m_trail c2 /\ UnpackV1.m_cs c1 = m_cs c2.

Definition loop_rel (l1 : UnpackV1.loop) (l2 : vloop) : Prop :=
  ctx_rel (UnpackV1.ctx l1) (ctx l2) /\ UnpackV1.m_current l1 = m_current l2 /\
  UnpackV1.fixed_trail_again l1 = fixed_trail_again l2.

(** What the two do. The streaming parser counts the depth of an empty container too. *)
Inductive flow_rel : UnpackV1.flow -> vflow -> Prop :=
| fr_go l1 l2 : loop_rel l1 l2 -> flow_rel (UnpackV1.Go l1) (Go l2)
| fr_more off c1 c2 : ctx_rel c1 c2 -> flow_rel (UnpackV1.Ret 0 off c1) (Ret PARSE_CONTINUE off c2)
| fr_done off c1 c2 : done_rel (UnpackV1.data c1) (UnpackV1.m_user c1) (holder c2) ->
    flow_rel (UnpackV1.Ret 1 off c1) (Ret PARSE_SUCCESS off c2)
| fr_error off c1 c2 : flow_rel (UnpackV1.Ret (-1) off c1) (Exc parse_error_exn c2)
| fr_exn e c2 : flow_rel (UnpackV1.Exc e) (Exc e c2)
| fr_depth f c2 : flow_rel f (Exc depth_size_overflow c2).

(** What follows [consume] in the streaming parser. *)
Definition follows (l : vloop) (m : stack_result (V:=visitor) (E:=unpack_exn)) (f : vflow) : Prop :=
  match m with
  | (Ok PARSE_CONTINUE, st, v) =>
    f = Go (set_current (m_current l + 1) (set_ctx (set_cs CS_HEADER (set_stack st v (ctx l))) l))
  | (Ok PARSE_SUCCESS, st, v) => exists c, f = Ret PARSE_SUCCESS (m_current l + 1) c /\ holder c = v
  | _ => True
  end.

Lemma after_visit_follows v (l : vloop) :
  follows l (consume (m_stack (ctx l)) v) (after_visit_proc (Ok (true, v)) l).
Proof.
  unfold after_visit_proc, follows. destruct (consume (m_stack (ctx l)) v) as [[[[] |e] st] w];
    try done. by eexists.
Qed.

Lemma aggregate_end_follows m (l : vloop) : follows l m (aggregate_end (m_current l + 1) m l).
Proof. unfold aggregate_end, follows. destruct m as [[[[] |e] st] w]; try done. by eexists. Qed.

(** An object is complete, on both sides. *)
Lemma value_rel (l1 : UnpackV1.loop) (l2 : vloop) fs back below v c o f2 :
  UnpackV1.m_stack (UnpackV1.ctx l1) = back :: below ->
  Forall frame_ok fs -> rel1 (UnpackV1.m_user (UnpackV1.ctx l1)) below fs -> holds v fs o ->
  shows (UnpackV1.cells (UnpackV1.m_user (UnpackV1.ctx l1))) c o ->
  agree (UnpackV1.m_user (UnpackV1.ctx l1)) v ->
  UnpackV1.m_trail (UnpackV1.ctx l1) = m_trail (ctx l2) ->
  UnpackV1.m_current l1 = m_current l2 ->
  UnpackV1.fixed_trail_again l1 = fixed_trail_again l2 ->
  follows l2 (consume (map elem2 fs) v) f2 ->
  flow_rel (UnpackV1.push_proc c l1) f2.
Proof.
  intros Hst Hf Hr Hv Hc Ha Et Ep Eg Hfl. unfold UnpackV1.push_proc. rewrite Hst.
  destruct (push_consume fs back below _ c v o Hf Hr Hv Hc Ha)
    as [(b' & u' & c' & v' & -> & E & Hd)|(st1 & u' & c' & st2 & v' & -> & E & Ho)];
    rewrite E in Hfl; simpl in Hfl |- *.
  - destruct Hfl as (c2 & -> & Hh). rewrite Ep. apply fr_done. by rewrite Hh.
  - rewrite Hfl. apply fr_go. split; [split; [exact Ho|by split]|]. split; [simpl; by rewrite Ep|exact Eg].
Qed.

Lemma open_ready st1 u st2 v : open_rel st1 u st2 v -> exists p vs, ready v p vs.
Proof. intros (fs & b & bl & _ & _ & Hf & _ & Hr & _). do 2 eexists. by apply top_ready. Qed.

(** A leaf. *)
Lemma leaf_rel l1 l2 c o m :
  loop_rel l1 l2 -> leaf_cell c o -> m = write_back c (holder (ctx l2)) ->
  flow_rel (UnpackV1.push_proc c l1) (after_visit_proc m l2).
Proof.
  intros (((fs & back & below & Hst & Hst2 & Hf & Hr1 & Hr2 & Ha) & Et & _) & Ep & Eg) Hc ->.
  rewrite (write_back_ready _ _ _ _ (top_ready _ _ Hr2 Hf)).
  eapply value_rel; [exact Hst|exact Hf|exact Hr1|exact (leaf_holds _ _ c (m_referenced (holder (ctx l2))) o Hr2 Hc)
    |by apply shows_leaf| |done|done|done|].
  - exact Ha.
  - rewrite <- Hst2. apply after_visit_follows.
Qed.

Definition rpush (t : raw_type) : UnpackV1.unpack_user -> bytes -> Z ->
    res unpack_exn (cell * UnpackV1.unpack_user) :=
  match t with T_STR => UnpackV1.unpack_str | T_BIN => UnpackV1.unpack_bin
  | T_EXT => UnpackV1.unpack_ext end.

Definition raw_cell (t : raw_type) (s : bytes) (n : Z) : cell :=
  match t with T_STR => CStr s n | T_BIN => CBin s n | T_EXT => CExt s (wrap 32 (n - 1)) end.

Lemma rpush_spec t u s : rpush t u s (len s) =
  match UnpackV1.m_func u with
  | Some f => if f t (len s) then Ok (raw_cell t s (len s), UnpackV1.set_referenced true u)
              else if raw_limit (UnpackV1.m_limit u) t <? len s then Throw (raw_overflow t)
              else Ok (raw_cell t s (len s), u)
  | None => if raw_limit (UnpackV1.m_limit u) t <? len s then Throw (raw_overflow t)
            else Ok (raw_cell t s (len s), u)
  end.
Proof.
  destruct t; simpl; unfold UnpackV1.unpack_str, UnpackV1.unpack_bin, UnpackV1.unpack_ext,
    UnpackV1.keep_or_copy; rewrite take_len; repeat case_match; done.
Qed.

Lemma rvisit_spec t v s : rvisit t s (len s) v =
  if raw_limit (m_limit v) t <? len s then Throw (raw_overflow t) else
  write_back (raw_cell t s (len s))
    (match m_func v with
     | Some f => if f t (len s) then set_referenced true v else v | None => v end).
Proof.
  destruct t; simpl; unfold v_str, v_bin, v_ext, keep_or_copy; rewrite take_len;
    (destruct (_ <? _); [done|]); by destruct (m_func v) as [f|]; [destruct (f _ _)|].
Qed.

Lemma raw_cell_leaf t s : (t = T_EXT -> 0 < len s < 2 ^ 32) ->
  leaf_cell (raw_cell t s (len s)) (raw_object t s).
Proof.
  intros Hl. destruct t; [constructor|constructor|]. specialize (Hl eq_refl).
  destruct s as [|t s]; [change (len []) with 0 in Hl; lia|]. simpl. rewrite len_cons in *.
  rewrite wrap_small by lia. replace (1 + len s - 1) with (len s) by lia. constructor.
Qed.

(** A string. *)
Lemma raw_rel l1 l2 t s :
  loop_rel l1 l2 ->
  len s < 2 ^ 32 -> (t = T_EXT -> 0 < len s) ->
  flow_rel (UnpackV1.push_raw (rpush t (UnpackV1.m_user (UnpackV1.ctx l1)) s (len s)) l1)
           (after_visit_proc (rvisit t s (len s) (holder (ctx l2))) l2).
Proof.
  intros (((fs & back & below & Hst & Hst2 & Hf & Hr1 & Hr2 & Ha) & Et & _) & Ep & Eg) Hs Ht.
  set (v := holder (ctx l2)) in *. set (u := UnpackV1.m_user (UnpackV1.ctx l1)) in *.
  assert (Hleaf : leaf_cell (raw_cell t s (len s)) (raw_object t s))
    by (apply raw_cell_leaf; intros E; specialize (Ht E); lia).
  assert (Hgo : forall u' b, UnpackV1.cells u' = UnpackV1.cells u -> 
    UnpackV1.blocks u' = UnpackV1.blocks u -> agree u' (set_referenced b v) ->
    flow_rel (UnpackV1.push_raw (Ok (raw_cell t s (len s), u')) l1)
      (after_visit_proc (write_back (raw_cell t s (len s)) (set_referenced b v)) l2)).
  { intros u' b E1 E2 Ha'.
    assert (Hr2' : rel2 0 (set_referenced b v) fs) by (destruct Hr2; by split).
    rewrite (write_back_ready _ _ _ _ (top_ready _ _ Hr2' Hf)). simpl.
    eapply value_rel; [exact Hst|exact Hf| |exact (leaf_holds _ _ _ b (raw_object t s) Hr2' Hleaf)
      |by apply shows_leaf| |done|done|done|].
    - simpl. destruct Hr1 as [He Hz]. split; by rewrite ?E1, ?E2.
    - exact Ha'.
    - rewrite <- Hst2. apply after_visit_follows. }
  rewrite rpush_spec, rvisit_spec. destruct Ha as (A1 & A2 & A3 & Hlim). rewrite A1, A2.
  assert (Hsame : agree u (set_referenced (m_referenced v) v)) by (split_and!; done).
  assert (Hv : set_referenced (m_referenced v) v = v) by (by destruct v).
  pose proof (Hgo u (m_referenced v) eq_refl eq_refl Hsame) as Hcopy. rewrite Hv in Hcopy.
  destruct (m_func v) as [f|] eqn:Ef; [destruct (f t (len s))|].
  - destruct Hlim as [?|Hl]; [done|]. pose proof (Hl t).
    destruct (Z.ltb_spec (raw_limit (m_limit v) t) (len s)); [lia|].
    apply Hgo; [done..|]. split_and!; simpl; [congruence..|by right].
  - destruct (_ <? _); [apply fr_exn|exact Hcopy].
  - destruct (_ <? _); [apply fr_exn|exact Hcopy].
Qed.

(** A container. *)

Definition kpush (K : kind) : UnpackV1.unpack_user -> Z ->
    res unpack_exn (cell * UnpackV1.unpack_user) :=
  match K with K_ARRAY => UnpackV1.unpack_array | K_MAP => UnpackV1.unpack_map end.

Definition with_block (K : kind) (n : Z) (u : UnpackV1.unpack_user) : UnpackV1.unpack_user :=
  UnpackV1.set_blocks (UnpackV1.blocks u ++ [children K n]) u.

Lemma kpush_spec K u n : 0 <= n < 2 ^ 32 -> kpush K u n =
  if open_limit (UnpackV1.m_limit u) K <? n then Throw (open_overflow K)
  else Ok (kcell K 0 (Some (len (UnpackV1.blocks u))), with_block K n u).
Proof.
  intros Hn. assert (2 ^ 32 * 48 < 2 ^ 64) by reflexivity.
  destruct K; simpl; unfold UnpackV1.unpack_array, UnpackV1.unpack_map;
    (destruct (_ <? _); [done|]);
    rewrite wrap_small, Z.div_mul, Z.eqb_refl by lia; done.
Qed.

Lemma rel1_block K n u below fs :
  rel1 u below fs -> rel1 (with_block K n u) below fs.
Proof.
  intros [He Hz]. split; [done|]. by apply zone_pop with (len (UnpackV1.blocks u), 0, children K n), zone_push.
Qed.

(** The older parser opens a container. *)
Lemma opened_rel1 K n b2 u below fs back :
  rel1 u below fs -> 
  UnpackV1.m_obj back = kcell K 0 (Some (len (UnpackV1.blocks u))) -> UnpackV1.m_count back = n ->
  UnpackV1.m_container_type back = UnpackV1.ct_value (ktype K) ->
  rel1 (with_block K n u) (back :: below) (open K n (len (UnpackV1.blocks u)) b2 :: fs).
Proof.
  intros [He Hz] Ho Hc Ht. split; [|by apply zone_push].
  constructor; [|done]. split_and!; [done|simpl; lia|by destruct K|done|apply shows_nil].
Qed.

(** The other opens it. *)
Lemma opened_rel2 K n b1 v fs :
  0 < n -> rel2 0 v fs ->
  rel2 0 (opened K n (top_place fs) v) (open K n b1 (len (blocks v)) :: fs).
Proof.
  intros Hn Hr. unfold opened. destruct (Z.eqb_spec n 0) as [->|_]; [lia|].
  destruct (write2 v fs (kcell K n (Some (len (blocks v)))) (m_referenced v) Hr)
    as ([Hs Hroot Hz Hi Hh] & Hw & _).
  assert (Hb : 0 < len (blocks v)) by (apply lookup_lt_Some in Hroot; simpl in Hroot; unfold len; lia).
  destruct (places_cons fs) as (ps & Ep & Et). split.
  - simpl. by rewrite (r2_stack _ _ _ Hr).
  - simpl. by apply lookup_app_l_Some.
  - apply zone_push with (n := children K n) in Hz. simpl in Hz |- *. by destruct fs.
  - constructor; [split; [done|apply shows_nil]|done].
  - change (tl (places (open K n b1 (len (blocks v)) :: fs))) with (places fs).
    rewrite Ep. constructor; [done|]. rewrite <- Et. exact Hh.
Qed.

(** An empty one, already closed. *)
Lemma empty_holds K v fs :
  rel2 0 v fs ->
  holds (set_vstack (v_stack v) (opened K 0 (top_place fs) v)) fs (container K []).
Proof.
  intros Hr. destruct (write2 v fs (kcell K 0 None) (m_referenced v) Hr) as (Hr' & Hw & _).
  split; [by destruct Hr'; split|]. exists (kcell K 0 None). split; [exact Hw|apply shows_null].
Qed.

Lemma aggregate_rel l1 l2 K n :
  loop_rel l1 l2 -> 0 <= n < 2 ^ 32 ->
  flow_rel (UnpackV1.push_aggregate (kpush K) (ktype K) n l1)
           (start_aggregate (ktype K) n (kstart K) (kend K) l2).
Proof.
  intros (((fs & back & below & Hst & Hst2 & Hf & Hr1 & Hr2 & Ha) & Et & Ec) & Ep & Eg) Hn.
  unfold UnpackV1.push_aggregate. rewrite Hst, kpush_spec by done.
  pose proof (kstart_limits (holder (ctx l2)) K n) as Hlim.
  rewrite (proj1 (proj2 Ha)).
  assert (Hexc : forall e, kstart K n (holder (ctx l2)) = Throw e ->
    exists c, start_aggregate (ktype K) n (kstart K) (kend K) l2 = Exc e c).
  { intros e He. unfold start_aggregate. rewrite He. destruct (n =? 0); simpl; by eexists. }
  destruct (Z.ltb_spec (open_limit (m_limit (holder (ctx l2))) K) n).
  { destruct (Hexc _ Hlim) as (c & ->). apply fr_exn. }
  destruct (Z.ltb_spec (depth_ (m_limit (holder (ctx l2)))) (len (v_stack (holder (ctx l2))))).
  { destruct (Hexc _ Hlim) as (c & ->). apply fr_depth. }
  pose proof (kstart_ok K n _ _ _ (top_ready _ _ Hr2 Hf) Hn ltac:(done) ltac:(done)) as Hk.
  unfold start_aggregate. rewrite Hk. cbn [call].
  destruct (Z.eqb_spec n 0) as [->|Hn0].
  - set (v' := set_vstack (v_stack (holder (ctx l2))) (opened K 0 (top_place fs) (holder (ctx l2)))).
    assert (Ee : kend K (opened K 0 (top_place fs) (holder (ctx l2))) = Ok (true, v'))
      by (by destruct K).
    rewrite Ee. cbn [call].
    eapply value_rel with (l2 := l2); [done|exact Hf| |by apply empty_holds| | |done|done|done|].
    + by apply rel1_block.
    + apply (shows_block _ K 0 _ []); [by destruct K|apply shows_nil].
    + exact Ha.
    + rewrite <- Hst2. apply aggregate_end_follows.
  - replace (len (back :: below) <=? _) with true; cycle 1.
    { symmetry. apply Z.leb_le. simpl. rewrite (proj1 (proj2 Ha)).
      rewrite (r2_stack _ _ _ Hr2) in *. unfold places in *.
      pose proof (Forall2_length _ _ _ (r1_elems _ _ _ Hr1)).
      unfold len in *. rewrite !length_map, length_app, length_map in *. simpl in *. lia. }
    rewrite wrap_small by lia.
    assert (Epush : push (m_stack (ctx l2)) (ktype K) n (opened K n (top_place fs) (holder (ctx l2))) =
      (Ok PARSE_CONTINUE, {| m_type := ktype K; m_rest := n |} :: m_stack (ctx l2),
       opened K n (top_place fs) (holder (ctx l2)))) by (by destruct K).
    rewrite Epush. simpl. apply fr_go. split; [split|split; [simpl; by rewrite Ep|exact Eg]].
    + exists (open K n (len (UnpackV1.blocks (UnpackV1.m_user (UnpackV1.ctx l1))))
             (len (blocks (holder (ctx l2)))) :: fs).
      eexists _, _. split; [done|]. split.
      { simpl. rewrite Hst2. unfold elem2 at 2. simpl. rewrite Z.sub_0_r. by destruct K. }
      split; [constructor; [apply open_ok; lia|done]|]. split; [by apply opened_rel1|].
      split; [apply opened_rel2; [lia|done]|].
      unfold opened. destruct (Z.eqb_spec n 0); [done|]. exact Ha.
    + by split.
Qed.

Lemma length_field_rel l1 l2 t n m :
  loop_rel l1 l2 -> (t = T_EXT -> n <> 0) -> (n = 0 -> m = 0) ->
  flow_rel (UnpackV1.length_field (rpush t) (rstate t) n m l1)
           (length_field (rvisit t) (rstate t) n l2).
Proof.
  intros [Hc Hl] Ht Hm. unfold UnpackV1.length_field, length_field.
  assert (Hc' : ctx_rel (UnpackV1.set_trail n (UnpackV1.ctx l1)) (set_trail n (ctx l2)))
    by (destruct Hc as (Ho & _ & Ecs); by split).
  destruct (Z.eqb_spec n 0) as [->|Hn].
  - rewrite Hm by done. apply (raw_rel (UnpackV1.set_ctx (UnpackV1.set_trail 0 (UnpackV1.ctx l1)) l1)
      (set_ctx (set_trail 0 (ctx l2)) l2) t []); [by split|done|].
    intros E. by destruct (Ht E).
  - apply fr_go. split; [|by split; [apply Hl|]]. destruct Hc as (Ho & _ & Ecs). by split.
Qed.

(** ** Turns *)

Lemma slice_len {A} (d : list A) n k : 0 <= n -> 0 <= k -> n + k <= len d -> len (slice d n k) = k.
Proof. intros. unfold slice, len in *. rewrite length_take, length_drop. lia. Qed.

Lemma int_leaf z : leaf_cell (if 0 <=? z then CPositive z else CNegative z) (neg_or_pos z).
Proof. unfold neg_or_pos. destruct (0 <=? z); constructor. Qed.

Lemma load_lt data k n : 0 <= k -> load data k n < 2 ^ (8 * k).
Proof.
  intros Hk. unfold load. pose proof (be_val_range (slice data n k)) as [_ H].
  eapply Z.lt_le_trans; [exact H|]. apply Z.pow_le_mono_r; [lia|].
  unfold slice, len. rewrite length_take. lia.
Qed.

Section Data.
Variable data : bytes.
Hypothesis data_size : len data < 2 ^ 32.

(** A payload of [k] bytes at [n]. *)
Lemma raw_slice_rel l1 l2 t n k :
  loop_rel l1 l2 -> 0 <= n -> 0 <= k -> n + k <= len data -> (t = T_EXT -> 0 < k) ->
  flow_rel (UnpackV1.push_raw (rpush t (UnpackV1.m_user (UnpackV1.ctx l1)) (slice data n k) k) l1)
           (after_visit_proc (rvisit t (slice data n k) k (holder (ctx l2))) l2).
Proof.
  intros Hl Hn Hk Hd Ht. pose proof (raw_rel l1 l2 t (slice data n k) Hl) as H.
  rewrite slice_len in H by done. apply H; [lia|done].
Qed.

Lemma exec_switch_rel n l1 l2 :
  loop_rel l1 l2 -> 0 <= n -> n + m_trail (ctx l2) <= len data -> ctx_ok (ctx l2) ->
  is_header (m_cs (ctx l2)) = false ->
  flow_rel (UnpackV1.exec_switch data n l1) (exec_switch data n l2).
Proof.
  intros Hl Hn Ht Hok Hh. destruct (Hok Hh) as [H1 H2].
  assert (Ec : UnpackV1.m_cs (UnpackV1.ctx l1) = m_cs (ctx l2)) by (by destruct Hl as [(_ & _ & ?) _]).
  assert (Et : UnpackV1.m_trail (UnpackV1.ctx l1) = m_trail (ctx l2))
    by (by destruct Hl as [(_ & ? & _) _]).
  pose proof (load_nonneg data 1 n). pose proof (load_nonneg data 2 n).
  pose proof (load_nonneg data 4 n).
  pose proof (load_lt data 2 n ltac:(lia)). pose proof (load_lt data 4 n ltac:(lia)) as L4.
  change (2 ^ (8 * 4)) with (2 ^ 32) in L4.
  assert (E64 : wrap 64 (load data 4 n + 1) = load data 4 n + 1)
    by (apply wrap_small; split; [lia|]; assert (2 ^ 32 < 2 ^ 64) by reflexivity; lia).
  assert (Ew : wrap 32 (m_trail (ctx l2)) = m_trail (ctx l2)) by (apply wrap_small; lia).
  unfold UnpackV1.exec_switch, exec_switch. rewrite Ec, Et. cbv zeta.
  change UnpackV1.load with load. change UnpackV1.load_signed with load_signed.
  destruct (m_cs (ctx l2)); simpl in H2; try done;
    rewrite ?E64, ?Ew;
    first
    [ apply fr_error
    | eapply leaf_rel; [exact Hl|first [apply int_leaf | constructor]|reflexivity]
    | apply (raw_slice_rel l1 l2 T_STR); [exact Hl|lia|lia|lia|done]
    | apply (raw_slice_rel l1 l2 T_BIN); [exact Hl|lia|lia|lia|done]
    | apply (raw_slice_rel l1 l2 T_EXT); [exact Hl|lia|lia|lia|lia]
    | apply (length_field_rel l1 l2 T_STR); [exact Hl|done|by intros ->]
    | apply (length_field_rel l1 l2 T_BIN); [exact Hl|done|by intros ->]
    | apply (length_field_rel l1 l2 T_EXT); [exact Hl|intros _; lia|by intros ->]
    | apply (aggregate_rel l1 l2 K_ARRAY); [exact Hl|lia]
    | apply (aggregate_rel l1 l2 K_MAP); [exact Hl|lia] ].
Qed.

Lemma exec_trail_rel l1 l2 :
  loop_rel l1 l2 -> loop_ok data l2 -> is_header (m_cs (ctx l2)) = false ->
  flow_rel (UnpackV1.exec_trail data l1) (exec_trail data l2).
Proof.
  intros (Hc & Ep & Eg) (Hp & Hok & _) Hh. unfold UnpackV1.exec_trail, exec_trail. rewrite Eg, Ep.
  assert (Et : UnpackV1.m_trail (UnpackV1.ctx l1) = m_trail (ctx l2)) by (by destruct Hc as (_ & ? & _)).
  destruct (Hok Hh) as [H1 H2].
  destruct (fixed_trail_again l2) eqn:Eg2; simpl; rewrite Et, ?Ep.
  - destruct (Z.ltb_spec (len data - (m_current l2 + 1)) (m_trail (ctx l2))); [by apply fr_more|].
    apply exec_switch_rel; [by split|lia|simpl; lia|done|done].
  - destruct (Z.ltb_spec (len data - m_current l2) (m_trail (ctx l2))); [by apply fr_more|].
    apply exec_switch_rel; [split; [done|split; [done|simpl; congruence]]|lia|simpl; lia|done|done].
Qed.

Lemma load_fix_byte p n : data !! Z.to_nat n = Some p -> 0 <= n ->
  UnpackV1.load_fix data n = Z.land (u8 p) 0x0f.
Proof.
  intros Hp Hn. unfold UnpackV1.load_fix, slice.
  rewrite (drop_S _ _ _ Hp). change (Z.to_nat 1) with 1%nat. simpl.
  rewrite firstn_O. by rewrite Z.mul_1_r, Z.add_0_r.
Qed.

Lemma exec_header_rel l1 l2 :
  loop_rel l1 l2 -> 0 <= m_current l2 < len data ->
  flow_rel (UnpackV1.exec_header data l1) (exec_header data l2).
Proof.
  intros (Hc & Ep & Eg) Hp. unfold UnpackV1.exec_header, exec_header. cbv zeta. simpl.
  assert (Hl : loop_rel (UnpackV1.set_again false l1) (set_again false l2)) by (by split).
  rewrite Ep. destruct (lookup_lt_is_Some_2 data (Z.to_nat (m_current l2))) as [p Hlk];
    [unfold len in Hp; lia|].
  rewrite (load_fix_byte p) by (done || lia). rewrite Hlk. simpl. pose proof (u8_range p).
  assert (Hgo : forall cs t, loop_rel
      (UnpackV1.set_again true (UnpackV1.set_ctx (UnpackV1.set_cs cs
        (UnpackV1.set_trail t (UnpackV1.ctx l1))) (UnpackV1.set_again false l1)))
      (set_again true (set_ctx (set_cs cs (set_trail t (ctx l2))) (set_again false l2))))
    by (intros; destruct Hc as (Ho & _ & _); split; [by split|by split]).
  assert (H15 : 0 <= Z.land (u8 p) 15 < 2 ^ 32).
  { change 15 with (Z.ones 4). rewrite Z.land_ones by lia.
    pose proof (Z.mod_pos_bound (u8 p) (2 ^ 4) eq_refl). lia. }
  destruct (_ && _); [eapply leaf_rel; [exact Hl|constructor|done]|].
  destruct (_ && _); [eapply leaf_rel; [exact Hl|apply int_leaf|done]|].
  destruct (_ && _); [apply fr_go, Hgo|].
  destruct (_ && _).
  { destruct (Z.eqb_spec (Z.land (u8 p) 31) 0) as [->|]; [|apply fr_go, Hgo].
    apply (raw_rel (UnpackV1.set_ctx (UnpackV1.set_trail 0 (UnpackV1.ctx l1)) (UnpackV1.set_again false l1))
      (set_ctx (set_trail 0 (ctx l2)) (set_again false l2)) T_STR []); [|done|done].
    destruct Hc as (Ho & _ & ?). by split. }
  destruct (_ && _); [by apply (aggregate_rel _ _ K_ARRAY _ Hl)|].
  destruct (_ && _); [by apply (aggregate_rel _ _ K_MAP _ Hl)|].
  destruct (_ =? _); [eapply leaf_rel; [exact Hl|constructor|done]|].
  destruct (_ =? _); [eapply leaf_rel; [exact Hl|constructor|done]|].
  destruct (_ =? _); [eapply leaf_rel; [exact Hl|constructor|done]|].
  apply fr_error.
Qed.

Lemma exec_body_rel l1 l2 :
  loop_rel l1 l2 -> loop_ok data l2 ->
  flow_rel (UnpackV1.exec_body data l1) (exec_body data l2).
Proof.
  intros Hl Hok. pose proof Hok as (Hp & Hc & Hg).
  assert (Ec : UnpackV1.m_cs (UnpackV1.ctx l1) = m_cs (ctx l2)) by (by destruct Hl as [(_ & _ & ?) _]).
  unfold UnpackV1.exec_body, exec_body. rewrite Ec.
  destruct (is_header (m_cs (ctx l2))) eqn:Eh.
  - pose proof (exec_header_rel l1 l2 Hl Hp) as H. pose proof (exec_header_ok data l2 Hp) as Ho.
    destruct H as [k1 k2 Hk| | | | |f c2]; try by constructor.
    destruct Hk as ((Hopen & Et & Ecs) & Ep & Eg). rewrite Ecs, Eg. simpl in Ho.
    destruct (fixed_trail_again k2) eqn:Egk.
    + destruct Ho as (El & Hh & Hok'). rewrite Hh. simpl.
      apply exec_trail_rel; [split; [by split|split; [done|congruence]]| |done].
      split_and!; [lia|lia|exact Hok'|done].
    + destruct Ho as (Hh & _). rewrite Hh. simpl. apply fr_go.
      split; [by split|split; [done|congruence]].
  - rewrite Ec, Eh. simpl. by apply exec_trail_rel.
Qed.

Lemma exec_loop_rel : forall fuel l1 l2,
  loop_rel l1 l2 -> loop_ok data l2 ->
  match exec_loop fuel data l2 with
  | None => True
  | Some f2 => (exists c, f2 = Exc depth_size_overflow c) \/
      exists f1, UnpackV1.exec_loop fuel data l1 = Some f1 /\ flow_rel f1 f2
  end.
Proof.
  induction fuel as [|fuel IH]; intros l1 l2 Hl Hok; cbn [exec_loop UnpackV1.exec_loop];
    unfold exec_iter, UnpackV1.exec_iter; pose proof (exec_body_rel l1 l2 Hl Hok) as H;
    pose proof (exec_body_ok data l2 Hok) as Ho; destruct Hok as (Hp & _);
    (destruct H as [k1 k2 Hk| | | | |f c2];
      [|right; eexists; split; [done|by constructor]..|left; by eexists]).
  - pose proof Hk as (Hc & Ep & Eg). rewrite Ep. destruct (_ =? _); [|done].
    right. eexists. split; [done|by apply fr_more].
  - pose proof Hk as (Hc & Ep & Eg). rewrite Ep. destruct Ho as (Hmv & Hle & Hc' & Hag).
    destruct (Z.eqb_spec (m_current k2) (len data)) as [->|Hne].
    + right. eexists. split; [done|by apply fr_more].
    + apply IH; [done|]. split_and!; [lia|lia|exact Hc'|naive_solver].
Qed.

End Data.

(** A call of [execute] on related contexts, at any point of a stream. *)
Lemma execute_rel data off c1 c2 :
  len data < 2 ^ 32 -> 0 <= off <= len data -> ctx_rel c1 c2 -> ctx_ok c2 ->
  exists f2, execute data off c2 = Some f2 /\
    ((exists c, f2 = Exc depth_size_overflow c) \/
     exists f1, UnpackV1.execute data off c1 = Some f1 /\ flow_rel f1 f2).
Proof.
  intros Hsz Ho Hc Hok. pose proof (execute_returns data off c2 Ho Hok) as H.
  unfold execute, UnpackV1.execute in *. destruct (Z.eqb_spec off (len data)).
  - eexists. split; [done|]. right. eexists. split; [done|by apply fr_more].
  - pose proof (exec_loop_rel data Hsz (2 * length data)
      {| UnpackV1.ctx := c1; UnpackV1.m_current := off; UnpackV1.fixed_trail_again := false |}
      {| ctx := c2; m_current := off; fixed_trail_again := false |}) as Hr.
    destruct (exec_loop (2 * length data) data _) as [f2|]; [|done]. eexists. split; [done|].
    apply Hr; [by split|]. split_and!; simpl; (lia || done).
Qed.

(** ** [unpack] *)

Lemma fresh_rel f lim : limits_ok f lim ->
  ctx_rel (UnpackV1.init (UnpackV1.new_context (UnpackV1.new_user f lim)))
          (new_context (new_visitor f lim)).
Proof.
  intros Hl. split; [|done]. exists [], UnpackV1.new_stack, [].
  do 2 (split; [done|]). split; [done|]. split; [|split; [|by split_and!]].
  - split; [done|]. split_and!; [apply NoDup_nil_2|done|done].
  - split; try done. split_and!; [apply NoDup_nil_2|done|].
    intros b i _. unfold heap. simpl. by rewrite delete_singleton_eq.
Qed.

Lemma done_read c u v o1 :
  done_rel o1 u v -> o1 = Some c -> exists N, forall fuel, (N <= fuel)%nat ->
    read_object fuel (UnpackV1.cells u) c = Visitor.data fuel v /\
    UnpackV1.m_referenced u = m_referenced v.
Proof.
  intros (o & c1 & -> & Hc & [_ (c2 & Hlk & Ho)] & (_ & _ & Hr & _)) [= ->].
  exists (depth o). intros fuel Hf. split; [|done].
  assert (Hs : heap v ⊆ cells v) by apply delete_subseteq. apply (shows_mono _ _ _ _ Hs) in Ho.
  rewrite (shows_read _ _ _ _ Hc Hf). unfold Visitor.data. simpl in Hlk.
  symmetry. exact (eq_trans (f_equal (mbind (read_object fuel (cells v))) Hlk) (shows_read _ _ _ _ Ho Hf)).
Qed.

(** A depth the input is too short for. *)
Lemma execute_depth d off f lim c :
  len d < 2 ^ 32 -> 0 <= off < len d -> len d < depth_ lim ->
  execute d off (new_context (new_visitor f lim)) <> Some (Exc depth_size_overflow c).
Proof.
  intros Hsz Ho Hdep E.
  set (q := take (Z.to_nat off) d). set (r := drop (Z.to_nat off) d).
  assert (Hd : d = q ++ r) by (unfold q, r; by rewrite take_drop).
  assert (Hq : off = len q) by (unfold q, len in *; rewrite length_take; lia).
  pose proof (execute_decode d q r _ Hsz Hd (idle_new f lim)) as H.
  pose proof (decode_throws lim r) as Ht.
  change (m_limit (holder (new_context (new_visitor f lim)))) with lim in H.
  rewrite <- Hq, E in H. assert (len d = len q + len r) by (by rewrite Hd, len_app).
  pose proof (len_nonneg q).
  destruct (decode lim r) as [o rest| |e|]; cbn [executes_as] in H; [| | |done].
  - by destruct H as (? & ? & _ & ? & _).
  - by destruct H as (? & ? & ?).
  - destruct H as (c' & [= <- _]). simpl in Ht. lia.
Qed.

(** C21. The two parsers of the library agree: on any input of less than 4 GiB, at
    any offset, with any limits the depth of which exceeds the size of the input, the
    older [unpack] returns what [unpack] returns, the same object, offset and referenced flag,
    or throws the same exception. With a reference function no limit on strings may be in
    reach, since the older parser does not apply it to the strings it does not copy. *)
Theorem v1_unpack_agrees d off f lim :
  len d < 2 ^ 32 -> 0 <= off -> len d < depth_ lim -> limits_ok f lim ->
  exists N, forall fuel, (N <= fuel)%nat ->
    UnpackV1.unpack fuel d off f lim = unpack fuel d off f lim /\
    is_Some (unpack fuel d off f lim).
Proof.
  intros Hsz Ho Hdep Hlim. unfold UnpackV1.unpack, UnpackV1.unpack_imp, unpack, unpack_imp, parse_imp.
  destruct (Z.leb_spec (len d) off) as [|Hlt]; [by exists O|].
  destruct (execute_rel d off _ _ Hsz ltac:(lia) (fresh_rel f lim Hlim)) as (f2 & E2 & H); [done|].
  rewrite E2. destruct H as [(c & ->)|(f1 & -> & H)].
  { by destruct (execute_depth d off f lim c Hsz ltac:(lia) Hdep). }
  pose proof (execute_returns d off (new_context (new_visitor f lim)) ltac:(lia) ltac:(done)) as Hret.
  rewrite E2 in Hret. destruct H as [l1 l2 Hl|noff c1 c2 Hc|noff c1 c2 Hd|noff c1 c2|e c2|f1 c2].
  - done.
  - by exists O.
  - pose proof Hd as (o & c & Ed & _). destruct (done_read c _ _ _ Hd Ed) as (N & HN).
    exists N. intros fuel Hf. destruct (HN fuel Hf) as [E1 Er]. simpl.
    rewrite Ed. simpl. rewrite E1, Er. by destruct (noff <? len d).
  - by exists O.
  - by exists O.
  - by destruct (execute_depth d off f lim c2 Hsz ltac:(lia) Hdep).
Qed.

(** The map [{"a": []}] with a byte after it, with a reference function; the limits are
    the default ones. *)
Lemma v1_unpack_agrees_witness :
  exists N, forall fuel, (N <= fuel)%nat ->
    UnpackV1.unpack fuel [chr 0x81; chr 0xa1; chr 97; chr 0x90; chr 7] 0
      (Some (fun _ n => 0 <? n)) default_limit =
    unpack fuel [chr 0x81; chr 0xa1; chr 97; chr 0x90; chr 7] 0
      (Some (fun _ n => 0 <? n)) default_limit /\
    is_Some (unpack fuel [chr 0x81; chr 0xa1; chr 97; chr 0x90; chr 7] 0
      (Some (fun _ n => 0 <? n)) default_limit).
Proof.
  apply (v1_unpack_agrees [chr 0x81; chr 0xa1; chr 97; chr 0x90; chr 7]);
    [reflexivity|lia|reflexivity|right; intros []; simpl; lia].
Defined.

(** *** Where they differ *)

Definition small_depth : unpack_limit :=
  {| array_ := 9; map_ := 9; str_ := 2; bin_ := 9; ext_ := 9; depth_ := 1 |}.

(** An empty array at the limit of the depth: only the streaming parser counts it. *)
Example empty_array_depth :
  UnpackV1.unpack 9 [chr 0x91; chr 0x90] 0 None small_depth =
    Some (Ok (Some (ARRAY [ARRAY []]), 2, false)) /\
  unpack 9 [chr 0x91; chr 0x90] 0 None small_depth = Some (Throw depth_size_overflow).
Proof. by split. Qed.

(** A string longer than the limit that is not copied: only the streaming parser refuses it. *)
Example referenced_string_limit :
  UnpackV1.unpack 9 [chr 0xa3; chr 97; chr 98; chr 99] 0 (Some (fun _ _ => true)) small_depth =
    Some (Ok (Some (STR [chr 97; chr 98; chr 99]), 4, true)) /\
  unpack 9 [chr 0xa3; chr 97; chr 98; chr 99] 0 (Some (fun _ _ => true)) small_depth =
    Some (Throw str_size_overflow).
Proof. by split. Qed.

(** An ext of [2^32 - 1] bytes: with its type its size does not fit the [uint32_t] the
    streaming parser passes on; nothing is copied, and the object claims all of it. *)
Example ext_size_wraps v p vs s :
  ready v p vs -> m_func v = None -> 0 <= ext_ (m_limit v) ->
  visit_ext s (wrap 32 (2 ^ 32)) v = Ok (true, wrote (CExt [] (2 ^ 32 - 1)) (m_referenced v) p v).
Proof.
  intros Hr Hf Hl. change (wrap 32 (2 ^ 32)) with 0. simpl. unfold v_ext, keep_or_copy. rewrite Hf.
  destruct (Z.ltb_spec (ext_ (m_limit v)) 0); [lia|]. apply (write_back_ready (CExt [] (2 ^ 32 - 1)) _ _ _ Hr).
Qed.
