(* ===== verification/Roundtrip.v ===== *)
(** * Encoding and decoding

    What the packer writes is what [Format.decode] reads, hence, by
    [Decode.execute_decode], what the parser leaves in memory. *)

From S2P Require Import Prelude FloatBits MsgObject Pack Parse Visitor Format Decode.

(** ** The objects the packer is given

    Integers in range, with the signs the types stand for; a FLOAT32 is a
    widened float; sizes fit the 32-bit fields (an ext's with its type byte). *)

Fixpoint wf_object (o : object) : Prop :=
  match o with
  | NIL | BOOLEAN _ => True
  | POSITIVE_INTEGER z => 0 <= z < 2 ^ 64
  | NEGATIVE_INTEGER z => - 2 ^ 63 <= z < 0
  | FLOAT32 z => exists b, 0 <= b < 2 ^ 32 /\ f32_is_snan b = false /\ z = widen b
  | FLOAT64 z => 0 <= z < 2 ^ 64
  | STR s | BIN s => len s < 2 ^ 32
  | ARRAY l => len l < 2 ^ 32 /\
      (fix go l := match l with [] => True | x :: l => wf_object x /\ go l end) l
  | MAP l => len l < 2 ^ 32 /\
      (fix go l := match l with
                   | [] => True | x :: l => wf_object x.1 /\ wf_object x.2 /\ go l
                   end) l
  | EXT _ d => len d < 2 ^ 32 - 1
  end.

(** Within the limits, at the given depth. *)
Fixpoint within (lim : unpack_limit) (depth : Z) (o : object) : bool :=
  match o with
  | STR s => len s <=? str_ lim
  | BIN s => len s <=? bin_ lim
  | EXT _ d => len d + 1 <=? ext_ lim
  | ARRAY l => (len l <=? array_ lim) && (depth <=? depth_ lim) &&
      forallb (within lim (depth + 1)) l
  | MAP l => (len l <=? map_ lim) && (depth <=? depth_ lim) &&
      forallb (fun kv => within lim (depth + 1) kv.1 && within lim (depth + 1) kv.2) l
  | _ => true
  end.

(** The tests on a header byte that arithmetic settles. *)
Ltac decide_ifs :=
  repeat match goal with |- context [if ?c then _ else _] =>
    first [replace c with true by (symmetry; lia) | replace c with false by (symmetry; lia)] end.

(** ** Tokens *)

Section Limits.
Variables (lim : unpack_limit) (depth : Z).

Lemma tok_chr k r : 0 <= k < 256 -> tok lim depth (chr k :: r) = tok_byte lim depth k r.
Proof. intros Hk. unfold tok. by rewrite u8_chr_small. Qed.

Lemma uint_be (k : nat) z r :
  0 <= z < 2 ^ (8 * Z.of_nat k) -> uint (Z.of_nat k) (be k z ++ r) = Done z r.
Proof.
  intros Hz. unfold uint. rewrite (get_app _ (be k z)) by apply len_be. simpl.
  by rewrite be_val_be_small.
Qed.

(** The modular reading, for signed values. *)
Lemma uint_be_mod (k : nat) z r :
  uint (Z.of_nat k) (be k z ++ r) = Done (z mod 2 ^ (8 * Z.of_nat k)) r.
Proof.
  unfold uint. rewrite (get_app _ (be k z)) by apply len_be. simpl. by rewrite be_val_be.
Qed.

Lemma chr_be z : [chr z] = be 1 z.
Proof. simpl. by rewrite Z.shiftr_0_r. Qed.

Ltac tok_header :=
  rewrite tok_chr by lia; cbv [tok_byte Z.leb Z.compare Pos.compare Pos.compare_cont].

Ltac bytes_of := repeat rewrite <- app_comm_cons; rewrite ?app_nil_l.

Lemma tok_small z r : 0 <= z < 2 ^ 7 ->
  tok lim depth (chr z :: r) = Done (Leaf (POSITIVE_INTEGER z)) r.
Proof.
  intros Hz. rewrite tok_chr by lia. unfold tok_byte.
  destruct (Z.leb_spec z 0x7f); [done|lia].
Qed.

Lemma tok_u8 z r : 0 <= z < 2 ^ 8 ->
  tok lim depth (chr 0xcc :: be 1 z ++ r) = Done (Leaf (POSITIVE_INTEGER z)) r.
Proof. intros Hz. tok_header. by rewrite (uint_be 1). Qed.
Lemma tok_u16 z r : 0 <= z < 2 ^ 16 ->
  tok lim depth (chr 0xcd :: be 2 z ++ r) = Done (Leaf (POSITIVE_INTEGER z)) r.
Proof. intros Hz. tok_header. by rewrite (uint_be 2). Qed.
Lemma tok_u32 z r : 0 <= z < 2 ^ 32 ->
  tok lim depth (chr 0xce :: be 4 z ++ r) = Done (Leaf (POSITIVE_INTEGER z)) r.
Proof. intros Hz. tok_header. by rewrite (uint_be 4). Qed.
Lemma tok_u64 z r : 0 <= z < 2 ^ 64 ->
  tok lim depth (chr 0xcf :: be 8 z ++ r) = Done (Leaf (POSITIVE_INTEGER z)) r.
Proof. intros Hz. tok_header. by rewrite (uint_be 8). Qed.

Lemma tok_signed (k : nat) (h : Z) z r :
  (0 < k)%nat -> - 2 ^ (8 * Z.of_nat k - 1) <= z < 2 ^ (8 * Z.of_nat k - 1) ->
  out_map (fun b => Leaf (neg_or_pos (sext (8 * Z.of_nat k) b))) (uint (Z.of_nat k) (be k z ++ r)) =
  Done (Leaf (neg_or_pos z)) r.
Proof.
  intros Hk Hz. rewrite uint_be_mod. simpl. rewrite sext_mod by lia. by rewrite sext_wrap by lia.
Qed.

Lemma tok_i8 z r : - 2 ^ 7 <= z < 2 ^ 7 ->
  tok lim depth (chr 0xd0 :: be 1 z ++ r) = Done (Leaf (neg_or_pos z)) r.
Proof. intros Hz. tok_header. by apply (tok_signed 1 0xd0); [lia|]. Qed.
Lemma tok_i16 z r : - 2 ^ 15 <= z < 2 ^ 15 ->
  tok lim depth (chr 0xd1 :: be 2 z ++ r) = Done (Leaf (neg_or_pos z)) r.
Proof. intros Hz. tok_header. by apply (tok_signed 2 0xd0); [lia|]. Qed.
Lemma tok_i32 z r : - 2 ^ 31 <= z < 2 ^ 31 ->
  tok lim depth (chr 0xd2 :: be 4 z ++ r) = Done (Leaf (neg_or_pos z)) r.
Proof. intros Hz. tok_header. by apply (tok_signed 4 0xd0); [lia|]. Qed.
Lemma tok_i64 z r : - 2 ^ 63 <= z < 2 ^ 63 ->
  tok lim depth (chr 0xd3 :: be 8 z ++ r) = Done (Leaf (neg_or_pos z)) r.
Proof. intros Hz. tok_header. by apply (tok_signed 8 0xd0); [lia|]. Qed.

Lemma tok_negfix z r : - 2 ^ 5 <= z < 0 ->
  tok lim depth (chr z :: r) = Done (Leaf (NEGATIVE_INTEGER z)) r.
Proof.
  intros Hz. rewrite <- (chr_mod z).
  replace (z mod 256) with (z + 256) by (apply Z.mod_unique with (-1); lia).
  rewrite tok_chr by lia. unfold tok_byte.
  decide_ifs.
  by replace (z + 256 - 256) with z by lia.
Qed.

#[local] Opaque chr be tok u8.

Lemma tok_pack_uint64 z r : 0 <= z < 2 ^ 64 ->
  tok lim depth (pack_uint64 z [] ++ r) = Done (Leaf (POSITIVE_INTEGER z)) r.
Proof.
  intros Hz. unfold pack_uint64, pack_imp_uint64, append_buffer, take8. rewrite chr_be.
  split_cmp; rewrite app_nil_l, <- ?app_comm_cons;
    first [rewrite <- chr_be; apply tok_small | apply tok_u8 | apply tok_u16 | apply tok_u32
          | apply tok_u64]; lia.
Qed.

Lemma tok_pack_int64 z r : - 2 ^ 63 <= z < 2 ^ 63 ->
  tok lim depth (pack_int64 z [] ++ r) = Done (Leaf (neg_or_pos z)) r.
Proof.
  intros Hz. unfold pack_int64, pack_imp_int64, append_buffer, take8. rewrite chr_be.
  assert (P : 0 <= z -> neg_or_pos z = POSITIVE_INTEGER z)
    by (intros; unfold neg_or_pos; by destruct (Z.leb_spec 0 z); [|lia]).
  assert (N : z < 0 -> neg_or_pos z = NEGATIVE_INTEGER z)
    by (intros; unfold neg_or_pos; by destruct (Z.leb_spec 0 z); [lia|]).
  split_cmp; rewrite app_nil_l, <- ?app_comm_cons;
    try (first [apply tok_i8|apply tok_i16|apply tok_i32|apply tok_i64]; lia);
    try (rewrite P by lia; first [apply tok_u8|apply tok_u16|apply tok_u32|apply tok_u64]; lia).
  rewrite <- chr_be. destruct (Z.leb_spec 0 z);
    [rewrite P by done; apply tok_small; lia | rewrite N by done; apply tok_negfix; lia].
Qed.

Lemma tok_raw_app t s r :
  len s <= raw_limit lim t ->
  tok_raw lim t (len s) (s ++ r) = Done (Leaf (raw_object t s)) r.
Proof.
  intros Hl. unfold tok_raw. rewrite get_app by done. simpl. unfold below.
  by destruct (Z.ltb_spec (raw_limit lim t) (len s)); [lia|].
Qed.

Lemma tok_fix k n base r :
  0 <= k -> 0 <= n < 2 ^ k -> base mod 2 ^ k = 0 -> 0 <= base + n < 256 ->
  tok lim depth (chr (Z.lor base n) :: r) = tok_byte lim depth (base + n) r.
Proof.
  intros Hk Hn Hb Hs. rewrite <- tok_chr by done. do 2 f_equal. f_equal.
  rewrite (Z.div_mod base (2 ^ k)) by lia. rewrite Hb, Z.add_0_r, Z.mul_comm.
  by apply lor_add_disjoint.
Qed.

(** A header byte followed by a length field. *)
Ltac tok_field k :=
  cbn [app]; rewrite <- ?app_assoc; tok_header;
  rewrite (uint_be k) by (simpl; lia); cbn [obind].

Lemma tok_pack_str s r :
  len s < 2 ^ 32 -> len s <= str_ lim ->
  tok lim depth (pack_str (len s) [] ++ s ++ r) = Done (Leaf (STR s)) r.
Proof.
  intros H32 Hl. pose proof (len_nonneg s). unfold pack_str, append_buffer.
  rewrite (chr_be (len s)). split_cmp.
  - cbn [app]. rewrite (tok_fix 5) by (done || lia). unfold tok_byte.
    decide_ifs.
    replace (160 + len s - 160) with (len s) by lia. by apply (tok_raw_app T_STR).
  - tok_field 1%nat. by apply (tok_raw_app T_STR).
  - tok_field 2%nat. by apply (tok_raw_app T_STR).
  - tok_field 4%nat. by apply (tok_raw_app T_STR).
Qed.

Lemma tok_pack_v4raw s r :
  len s < 2 ^ 32 -> len s <= str_ lim ->
  tok lim depth (pack_v4raw (len s) [] ++ s ++ r) = Done (Leaf (STR s)) r.
Proof.
  intros H32 Hl. pose proof (len_nonneg s). unfold pack_v4raw, append_buffer. split_cmp.
  - cbn [app]. rewrite (tok_fix 5) by (done || lia). unfold tok_byte.
    decide_ifs.
    replace (160 + len s - 160) with (len s) by lia. by apply (tok_raw_app T_STR).
  - tok_field 2%nat. by apply (tok_raw_app T_STR).
  - tok_field 4%nat. by apply (tok_raw_app T_STR).
Qed.

Lemma tok_pack_bin s r :
  len s < 2 ^ 32 -> len s <= bin_ lim ->
  tok lim depth (pack_bin (len s) [] ++ s ++ r) = Done (Leaf (BIN s)) r.
Proof.
  intros H32 Hl. pose proof (len_nonneg s). unfold pack_bin, append_buffer.
  rewrite (chr_be (len s)). split_cmp.
  - tok_field 1%nat. by apply (tok_raw_app T_BIN).
  - tok_field 2%nat. by apply (tok_raw_app T_BIN).
  - tok_field 4%nat. by apply (tok_raw_app T_BIN).
Qed.

Lemma tok_ext_app t s r :
  len s + 1 <= ext_ lim -> tok_ext lim (len s) (t :: s ++ r) = Done (Leaf (EXT t s)) r.
Proof.
  intros Hl. unfold tok_ext. replace (len s + 1) with (len (t :: s)) by (rewrite len_cons; lia).
  rewrite app_comm_cons, tok_raw_app; [done|]. rewrite len_cons. simpl. lia.
Qed.

Lemma tok_pack_ext t s r :
  len s < 2 ^ 32 - 1 -> len s + 1 <= ext_ lim ->
  tok lim depth (pack_ext (len s) t [] ++ s ++ r) = Done (Leaf (EXT t s)) r.
Proof.
  intros H32 Hl. pose proof (len_nonneg s). unfold pack_ext, append_buffer.
  assert (Hf : forall n h, len s = n -> tok lim depth (chr h :: t :: s ++ r) = tok_ext lim n (t :: s ++ r) ->
    tok lim depth (([] ++ [chr h; t]) ++ s ++ r) = Done (Leaf (EXT t s)) r).
  { intros n h <- E. simpl. rewrite E. by apply tok_ext_app. }
  repeat (case_match; [apply (Hf _ _ ltac:(by apply Z.eqb_eq)); by tok_header|]).
  replace [chr 0xc7; chr (len s); t] with (chr 0xc7 :: be 1 (len s) ++ [t]) by by rewrite <- chr_be.
  split_cmp.
  - tok_field 1%nat. exact (tok_ext_app t s r Hl).
  - tok_field 2%nat. exact (tok_ext_app t s r Hl).
  - tok_field 4%nat. exact (tok_ext_app t s r Hl).
Qed.

Lemma tok_open_ok K n r :
  n <= open_limit lim K -> depth <= depth_ lim -> tok_open lim depth K n r = Done (Open K n) r.
Proof.
  intros H1 H2. unfold tok_open, below.
  destruct (Z.ltb_spec (open_limit lim K) n); [lia|].
  by destruct (Z.ltb_spec (depth_ lim) depth); [lia|].
Qed.

Lemma tok_pack_array n r :
  0 <= n < 2 ^ 32 -> n <= array_ lim -> depth <= depth_ lim ->
  tok lim depth (pack_array n [] ++ r) = Done (Open K_ARRAY n) r.
Proof.
  intros H32 Hl Hd. unfold pack_array, append_buffer. split_cmp.
  - cbn [app]. rewrite (tok_fix 4) by (done || lia). unfold tok_byte.
    decide_ifs.
    replace (144 + n - 144) with n by lia. by apply tok_open_ok.
  - tok_field 2%nat. by apply tok_open_ok.
  - tok_field 4%nat. by apply tok_open_ok.
Qed.

Lemma tok_pack_map n r :
  0 <= n < 2 ^ 32 -> n <= map_ lim -> depth <= depth_ lim ->
  tok lim depth (pack_map n [] ++ r) = Done (Open K_MAP n) r.
Proof.
  intros H32 Hl Hd. unfold pack_map, append_buffer. split_cmp.
  - cbn [app]. rewrite (tok_fix 4) by (done || lia). unfold tok_byte.
    decide_ifs.
    replace (128 + n - 128) with n by lia. by apply tok_open_ok.
  - tok_field 2%nat. by apply tok_open_ok.
  - tok_field 4%nat. by apply tok_open_ok.
Qed.

End Limits.

(** ** Objects *)

Lemma encode_ARRAY l : encode (ARRAY l) = pack_array (size32 l) [] ++ pack_list l [].
Proof.
  unfold encode. rewrite pack_object_ARRAY. apply appends_list, Forall_forall.
  intros. apply appends_object.
Qed.

Lemma encode_MAP l : encode (MAP l) = pack_map (size32 l) [] ++ pack_list (flat l) [].
Proof.
  unfold encode. rewrite pack_object_MAP.
  assert (E : forall o, pack_pairs l o = pack_list (flat l) o).
  { induction l as [|[x y] l IH]; intros o; [done|]. apply IH. }
  rewrite E. apply appends_list, Forall_forall. intros. apply appends_object.
Qed.

Lemma pack_list_cons x l : pack_list (x :: l) [] = encode x ++ pack_list l [].
Proof. apply (appends_list l), Forall_forall. intros. apply appends_object. Qed.

Lemma encode_nonempty v : encode v <> [].
Proof.
  assert (A : forall n, pack_array n [] <> []) by (intros; unfold pack_array; repeat case_match; done).
  assert (M : forall n, pack_map n [] <> []) by (intros; unfold pack_map; repeat case_match; done).
  assert (C : forall a b : bytes, a <> [] -> a ++ b <> []) by (by intros [|? ?]).
  destruct v; try done.
  - by destruct boolean.
  - unfold encode. cbn [pack_object]. unfold pack_uint64, pack_imp_uint64. by repeat case_match.
  - unfold encode. cbn [pack_object]. unfold pack_int64, pack_imp_int64. by repeat case_match.
  - unfold encode. cbn [pack_object]. apply C. unfold pack_str. by repeat case_match.
  - unfold encode. cbn [pack_object]. apply C. unfold pack_bin. by repeat case_match.
  - rewrite encode_ARRAY. by apply C.
  - rewrite encode_MAP. by apply C.
  - unfold encode. cbn [pack_object]. apply C. unfold pack_ext. by repeat case_match.
Qed.

Section Decode.
Variable lim : unpack_limit.

(** [x] is read back from its encoding, whatever follows. *)
Definition reads_back (depth : Z) (x : object) : Prop := forall f r,
  (length (encode x) < f)%nat -> dec lim f depth (encode x ++ r) = Done x r.

Lemma items_encode depth l :
  Forall (reads_back depth) l -> forall g f r, (length (pack_list l []) < g)%nat ->
  (length (pack_list l []) < f)%nat ->
  items (dec lim f depth) g (len l) (pack_list l [] ++ r) = Done l r.
Proof.
  induction 1 as [|x l Hx _ IH]; intros g f r Hg Hf; [by destruct g|].
  rewrite pack_list_cons, length_app in *. pose proof (encode_nonempty x).
  destruct g as [|g]; [lia|]. cbn [items]. rewrite len_cons. pose proof (len_nonneg l).
  destruct (Z.eqb_spec (1 + len l) 0); [lia|]. rewrite <- app_assoc, Hx by lia. cbn [obind].
  replace (1 + len l - 1) with (len l) by lia.
  destruct (encode x) as [|b e]; [done|]. simpl in *. by rewrite IH by lia.
Qed.

Lemma container_encode K depth l n hdr r f :
  tok lim depth (hdr ++ pack_list l [] ++ r) = Done (Open K n) (pack_list l [] ++ r) ->
  hdr <> [] -> Forall (reads_back (depth + 1)) l -> len l = children K n ->
  (length (hdr ++ pack_list l []) < f)%nat ->
  dec lim f depth ((hdr ++ pack_list l []) ++ r) = Done (container K l) r.
Proof.
  intros Ht Hh Hl Hn Hf. destruct f as [|f]; [lia|]. cbn [dec]. rewrite <- app_assoc, Ht.
  cbn [obind]. destruct hdr as [|b hdr]; [done|]. simpl in Hf. rewrite length_app in Hf.
  rewrite <- Hn, items_encode by (done || lia). done.
Qed.

Lemma leaf_encode depth x :
  (forall r, tok lim depth (encode x ++ r) = Done (Leaf x) r) -> reads_back depth x.
Proof. intros H [|f] r Hf; [lia|]. cbn [dec]. by rewrite H. Qed.

Lemma wf_array l : wf_object (ARRAY l) <-> len l < 2 ^ 32 /\ Forall wf_object l.
Proof.
  cbn [wf_object]. apply and_iff_compat_l.
  induction l as [|x l IH]; [by rewrite Forall_nil|]. by rewrite Forall_cons, IH.
Qed.

Lemma wf_map l :
  wf_object (MAP l) <-> len l < 2 ^ 32 /\ Forall (fun kv => wf_object kv.1 /\ wf_object kv.2) l.
Proof.
  cbn [wf_object]. apply and_iff_compat_l.
  induction l as [|x l IH]; [by rewrite Forall_nil|]. rewrite Forall_cons, IH. tauto.
Qed.

Lemma Forall_flat (P : object -> Prop) l :
  Forall (fun kv => P kv.1 /\ P kv.2) l -> Forall P (flat l).
Proof. induction 1 as [|kv l [H1 H2] _ IH]; [constructor|].
  apply Forall_cons_2; [done|]. by apply Forall_cons_2. Qed.

#[local] Opaque chr be tok.

(** The body of a string, BIN or EXT is all of [s]. *)
Ltac sized_body s :=
  unfold encode; cbn [pack_object];
  unfold pack_str_body, pack_bin_body, pack_ext_body, size32, append_buffer;
  rewrite (wrap_small 32 (len s)) by lia; rewrite <- app_assoc, take_ge by (unfold len; lia).

Definition is_leaf (x : object) : Prop := match x with ARRAY _ | MAP _ => False | _ => True end.

Lemma leaf_reads_back x depth :
  is_leaf x -> wf_object x -> within lim depth x = true -> reads_back depth x.
Proof.
  intros Hx Hw Hi. apply leaf_encode. intros r.
  destruct x as [|b|z|z|z|z|s|s|l|l|t d]; try solve [destruct Hx]; simpl in Hw, Hi.
  - change (encode NIL ++ r) with (chr 0xc0 :: r). by rewrite tok_chr.
  - replace (encode (BOOLEAN b) ++ r) with (chr (if b then 0xc3 else 0xc2) :: r) by by destruct b.
    by destruct b; rewrite tok_chr.
  - by apply tok_pack_uint64.
  - unfold encode. cbn [pack_object].
    rewrite tok_pack_int64 by lia. unfold neg_or_pos. by destruct (Z.leb_spec 0 z); [lia|].
  - destruct Hw as (b & Hb & Hn & ->).
    unfold encode. cbn [pack_object]. unfold pack_float, append_buffer. cbn [app].
    rewrite tok_chr, narrow_widen by done. cbn [tok_byte Z.leb Z.compare Pos.compare Pos.compare_cont].
    by rewrite (uint_be 4).
  - unfold encode. cbn [pack_object]. unfold pack_double, append_buffer.
    cbn [app]. rewrite tok_chr by done. cbn [tok_byte Z.leb Z.compare Pos.compare Pos.compare_cont].
    by rewrite (uint_be 8).
  - apply Z.leb_le in Hi. pose proof (len_nonneg s). sized_body s. by apply tok_pack_str.
  - apply Z.leb_le in Hi. pose proof (len_nonneg s). sized_body s. by apply tok_pack_bin.
  - apply Z.leb_le in Hi. pose proof (len_nonneg d). sized_body d. by apply tok_pack_ext.
Qed.

Lemma array_reads_back l depth :
  wf_object (ARRAY l) -> within lim depth (ARRAY l) = true ->
  (forall x, x ∈ l -> wf_object x -> within lim (depth + 1) x = true -> reads_back (depth + 1) x) ->
  reads_back depth (ARRAY l).
Proof.
  intros [Hlen Hw]%wf_array Hi IH f r Hf. cbn [within] in Hi.
  apply andb_prop in Hi as [[Ha%Z.leb_le Hd%Z.leb_le]%andb_prop Hi].
  rewrite encode_ARRAY in *. pose proof (len_nonneg l).
  unfold size32 in *. rewrite wrap_small in * by lia.
  apply (container_encode K_ARRAY) with (len l); try done; [by apply tok_pack_array| |].
  - unfold pack_array. by repeat case_match.
  - rewrite forallb_forall in Hi. rewrite Forall_forall in Hw |- *.
    intros x Hx. apply IH; [done|by apply Hw|by apply Hi, list_elem_of_In].
Qed.

Lemma map_reads_back l depth :
  wf_object (MAP l) -> within lim depth (MAP l) = true ->
  (forall x, x ∈ flat l -> wf_object x -> within lim (depth + 1) x = true -> reads_back (depth + 1) x) ->
  reads_back depth (MAP l).
Proof.
  intros [Hlen Hw]%wf_map Hi IH f r Hf. cbn [within] in Hi.
  apply andb_prop in Hi as [[Ha%Z.leb_le Hd%Z.leb_le]%andb_prop Hi].
  rewrite encode_MAP in *. pose proof (len_nonneg l).
  unfold size32 in *. rewrite wrap_small in * by lia.
  assert (E : MAP l = container K_MAP (flat l)) by (simpl; by rewrite pairs_flat).
  rewrite E. apply container_encode with (len l); try done; [by apply tok_pack_map| | |].
  - unfold pack_map. by repeat case_match.
  - assert (Hf2 : Forall (fun x => wf_object x /\ within lim (depth + 1) x = true) (flat l)).
    { apply Forall_flat. rewrite forallb_forall in Hi. rewrite Forall_forall in Hw |- *.
      intros x Hx. specialize (Hi x ltac:(by apply list_elem_of_In)).
      apply andb_prop in Hi as [Hi1 Hi2]. specialize (Hw x Hx) as [W1 W2]. auto. }
    rewrite Forall_forall in Hf2 |- *. intros x Hx. destruct (Hf2 x Hx). by apply IH.
  - by rewrite len_flat.
Qed.

Lemma encode_reads_back x : forall depth,
  wf_object x -> within lim depth x = true -> reads_back depth x.
Proof.
  induction x as [|b|z|z|z|z|s|s|l IH|l IH|t d] using object_ind'; intros depth Hw Hi;
    try (by apply leaf_reads_back).
  - apply array_reads_back; [done..|]. rewrite Forall_forall in IH. auto.
  - apply map_reads_back; [done..|].
    apply (Forall_flat (fun x => forall depth, wf_object x -> within lim depth x = true ->
      reads_back depth x)) in IH.
    rewrite Forall_forall in IH. auto.
Qed.

End Decode.

Lemma decode_encode lim v r :
  wf_object v -> within lim 1 v = true -> decode lim (encode v ++ r) = Done v r.
Proof.
  intros Hw Hi. apply encode_reads_back; [done|done|]. rewrite length_app. lia.
Qed.

(** C11. Round trip through the real parser: an object in range and within
    the limits, packed at any offset of a buffer and followed by anything, is
    unpacked from there to the same object in memory, and the offset ends right
    after its bytes. *)
Theorem unpack_pack q v rest f lim :
  wf_object v -> within lim 1 v = true -> len (q ++ encode v ++ rest) < 2 ^ 32 ->
  exists b N, forall fuel, (N <= fuel)%nat ->
    let d := q ++ encode v ++ rest in
    unpack_imp fuel d (len q) f lim =
      Some (Ok (match rest with [] => PARSE_SUCCESS | _ => PARSE_EXTRA_BYTES end,
                len (q ++ encode v), Some v, b)) /\
    unpack fuel d (len q) f lim = Some (Ok (Some v, len (q ++ encode v), b)) /\
    unpack_in fuel d (len q) f lim = Some (Ok (Some v, len (q ++ encode v), b)).
Proof.
  intros Hw Hi Hsz.
  pose proof (unpack_decode _ q (encode v ++ rest) f lim Hsz eq_refl) as H.
  rewrite decode_encode in H by done. destruct H as (b & N & H). exists b, N.
  intros fuel Hf d. unfold unpack, unpack_in. unfold d. rewrite (H fuel Hf).
  replace (len (q ++ encode v ++ rest) - len rest) with (len (q ++ encode v)); [by destruct rest|].
  rewrite app_assoc, (len_app (q ++ encode v)). lia.
Qed.

Definition sample : object :=
  ARRAY [POSITIVE_INTEGER 0; STR [chr 97; chr 100; chr 100];
         ARRAY [NEGATIVE_INTEGER (-5); FLOAT64 0x3ff0000000000000];
         MAP [(BOOLEAN true, NIL); (BIN [], EXT (chr 7) [chr 1])]].

Lemma unpack_pack_witness :
  exists b N, forall fuel, (N <= fuel)%nat ->
    let d := [chr 1] ++ encode sample ++ [chr 2] in
    unpack_imp fuel d (len [chr 1]) None default_limit =
      Some (Ok (PARSE_EXTRA_BYTES, len ([chr 1] ++ encode sample), Some sample, b)) /\
    unpack fuel d (len [chr 1]) None default_limit =
      Some (Ok (Some sample, len ([chr 1] ++ encode sample), b)) /\
    unpack_in fuel d (len [chr 1]) None default_limit =
      Some (Ok (Some sample, len ([chr 1] ++ encode sample), b)).
Proof.
  apply (unpack_pack [chr 1] sample [chr 2] None default_limit).
  - vm_compute. intuition congruence.
  - reflexivity.
  - vm_compute. reflexivity.
Defined.

(** ** The shortest form *)

(** The integers a token with [k] bytes after the header can hold. *)
Definition int_fits (k z : Z) : Prop :=
  if k =? 0 then - 2 ^ 5 <= z < 2 ^ 7 else - 2 ^ (8 * k - 1) <= z < 2 ^ (8 * k).

(** If [m] is the integer [z], read from [n] bytes, they were enough. *)
Definition sized (n z : Z) (m : outcome token) : Prop :=
  match m with
  | Done (Leaf o) r => o = neg_or_pos z -> exists k, In k [0; 1; 2; 4; 8] /\
      n = len r + k /\ int_fits k z
  | _ => True
  end.

Lemma neg_or_pos_inj z z' : neg_or_pos z = neg_or_pos z' -> z = z'.
Proof. unfold neg_or_pos. repeat case_match; congruence. Qed.

Lemma sized_raw lim n z t k d : sized n z (tok_raw lim t k d).
Proof.
  unfold tok_raw, get, below. repeat case_match; simpl; try done; repeat case_match; try done;
    intros E; exfalso; revert E; unfold neg_or_pos, raw_object, ext_of; repeat case_match; done.
Qed.

Lemma sized_open lim depth n z K k d : sized n z (tok_open lim depth K k d).
Proof. unfold tok_open, below. by repeat case_match. Qed.

Lemma sized_bind_open lim depth n z K (m : outcome Z) :
  sized n z (obind m (tok_open lim depth K)).
Proof. destruct m; simpl; try done. apply sized_open. Qed.

Lemma sized_uint n z (k : nat) d (g : Z -> object) :
  In (Z.of_nat k) [1; 2; 4; 8] -> n = len d ->
  (forall a, 0 <= a < 2 ^ (8 * Z.of_nat k) -> g a = neg_or_pos z -> int_fits (Z.of_nat k) z) ->
  sized n z (out_map (fun a => Leaf (g a)) (uint (Z.of_nat k) d)).
Proof.
  intros Hk -> Hg. unfold uint. destruct (get (Z.of_nat k) d) as [a r| | |] eqn:E; try done.
  apply get_done in E as [-> Ha]; [|lia]. simpl. intros Hz. exists (Z.of_nat k). split_and!.
  - simpl in *. tauto.
  - rewrite len_app. lia.
  - apply (Hg (be_val a)); [rewrite <- Ha; apply be_val_range|done].
Qed.

Lemma pos_fits (k : nat) z a :
  In (Z.of_nat k) [1; 2; 4; 8] -> 0 <= a < 2 ^ (8 * Z.of_nat k) ->
  POSITIVE_INTEGER a = neg_or_pos z -> int_fits (Z.of_nat k) z.
Proof.
  intros Hk Ha E. unfold neg_or_pos in E. destruct (Z.leb_spec 0 z); [|done].
  injection E as <-. unfold int_fits. destruct (Z.eqb_spec (Z.of_nat k) 0).
  - rewrite e in Hk. simpl in Hk. lia.
  - pose proof (Z.pow_nonneg 2 (8 * Z.of_nat k - 1) ltac:(lia)). lia.
Qed.

Lemma signed_fits (k : nat) z a :
  In (Z.of_nat k) [1; 2; 4; 8] -> 0 <= a < 2 ^ (8 * Z.of_nat k) ->
  neg_or_pos (sext (8 * Z.of_nat k) a) = neg_or_pos z -> int_fits (Z.of_nat k) z.
Proof.
  intros Hk Ha E%neg_or_pos_inj. subst z. unfold int_fits, sext.
  rewrite wrap_small by done. destruct (Z.eqb_spec (Z.of_nat k) 0).
  { rewrite e in Hk. simpl in Hk. lia. }
  assert (2 ^ (8 * Z.of_nat k) = 2 * 2 ^ (8 * Z.of_nat k - 1))
    by (rewrite <- Z.pow_succ_r by lia; f_equal; lia).
  destruct (Z.ltb_spec a (2 ^ (8 * Z.of_nat k - 1))); lia.
Qed.

Lemma tok_sized lim depth b d z : sized (len d) z (tok lim depth (b :: d)).
Proof.
  unfold tok. pose proof (u8_range b) as Hb. unfold tok_byte. cbv zeta.
  assert (F : forall o, (forall z, o = neg_or_pos z -> - 2 ^ 5 <= z < 2 ^ 7) ->
    sized (len d) z (Done (Leaf o) d)).
  { intros o Ho E. exists 0. simpl. split_and!; [auto|lia|]. by apply Ho. }
  assert (P : forall k : nat, In (Z.of_nat k) [1; 2; 4; 8] ->
    sized (len d) z (out_map (fun a => Leaf (POSITIVE_INTEGER a)) (uint (Z.of_nat k) d)))
    by (intros; apply sized_uint; [done|done|intros; by eapply pos_fits]).
  assert (S : forall k : nat, In (Z.of_nat k) [1; 2; 4; 8] -> sized (len d) z
    (out_map (fun a => Leaf (neg_or_pos (sext (8 * Z.of_nat k) a))) (uint (Z.of_nat k) d)))
    by (intros; apply sized_uint; [done|done|intros; by eapply signed_fits]).
  destruct (Z.leb_spec (u8 b) 0x7f).
  { apply F. intros z'. unfold neg_or_pos. case_match; [|done]. intros [= <-]. lia. }
  do 3 (case_match; [first [apply sized_open|apply sized_raw]|]).
  destruct (Z.leb_spec 0xe0 (u8 b)).
  { apply F. intros z'. unfold neg_or_pos. case_match; [done|]. intros [= <-]. lia. }
  assert (X : forall t (m : outcome Z), sized (len d) z (obind m (tok_raw lim t)))
    by (intros t []; simpl; try done; apply sized_raw).
  assert (X' : forall (m : outcome Z), sized (len d) z (obind m (tok_ext lim)))
    by (intros []; simpl; try done; apply sized_raw).
  assert (L : forall o, (forall z, o <> neg_or_pos z) -> sized (len d) z (Done (Leaf o) d))
    by (intros o Ho; apply F; intros; exfalso; by eapply Ho).
  repeat case_match; try done;
    try first [apply X|apply X'|apply sized_raw|apply sized_bind_open
      |apply (P 1%nat); simpl; tauto|apply (P 2%nat); simpl; tauto
      |apply (P 4%nat); simpl; tauto|apply (P 8%nat); simpl; tauto
      |apply (S 1%nat); simpl; tauto|apply (S 2%nat); simpl; tauto
      |apply (S 4%nat); simpl; tauto|apply (S 8%nat); simpl; tauto];
    try (apply L; intros; unfold neg_or_pos; case_match; done).
  all: apply (sized_uint _ _ 4) || apply (sized_uint _ _ 8); simpl; try tauto; try done;
    intros ? _; unfold neg_or_pos; case_match; done.
Qed.

Lemma decode_integer lim z e rest :
  decode lim (e ++ rest) = Done (neg_or_pos z) rest ->
  exists k, In k [0; 1; 2; 4; 8] /\ len e = 1 + k /\ int_fits k z.
Proof.
  intros H. pose proof (decode_advances lim (e ++ rest)) as Ha. rewrite H in Ha. simpl in Ha.
  destruct e as [|b e]; [simpl in Ha; lia|]. unfold decode in H. rewrite <- app_comm_cons in H.
  cbn [length dec] in H. pose proof (tok_sized lim 1 b (e ++ rest) z) as Hs.
  destruct (tok lim 1 (b :: e ++ rest)) as [[o|K n] r| | |]; simpl in H, Hs; try done.
  - injection H as -> ->. destruct (Hs eq_refl) as (k & Hk & Hn & Hf). exists k.
    rewrite len_app in Hn. rewrite len_cons. split_and!; [done|lia|done].
  - unfold out_map in H. apply obind_done in H as (l & r' & _ & [= H _]).
    exfalso. revert H. unfold neg_or_pos. destruct K; case_match; done.
Qed.

(** The packer picks the shortest form of an integer: no byte string that
    decodes to it is shorter than what [pack_uint64] (for a non-negative one) or
    [pack_int64] writes. *)
Theorem pack_integer_minimal lim z e rest :
  decode lim (e ++ rest) = Done (neg_or_pos z) rest ->
  len (if 0 <=? z then pack_uint64 z [] else pack_int64 z []) <= len e.
Proof.
  intros (k & Hk & -> & Hf)%decode_integer. unfold int_fits in Hf.
  unfold pack_uint64, pack_imp_uint64, pack_int64, pack_imp_int64, append_buffer.
  simpl in Hk. destruct Hk as [<-|[<-|[<-|[<-|[<-|[]]]]]]; simpl in Hf; split_cmp;
    change (len ([] ++ ?x)) with (len x) in *; rewrite ?app_nil_l, ?len_cons, ?len_be, ?len_nil; lia.
Qed.

Lemma pack_integer_minimal_witness :
  len (pack_uint64 200 []) <= len (chr 0xcd :: be 2 200).
Proof. apply (pack_integer_minimal default_limit 200 _ [chr 5]). vm_compute. reflexivity. Defined.
