(* ===== verification/Canonical.v ===== *)
(** * What the parser gives, and packing it again

    Every object that comes out of the parser, whatever the input, is one the packer is
    made for: its integers are in range and carry the sign they were given, its sizes
    fit, and it keeps to the limits it was unpacked with. Packed again it is no longer than the
    bytes it was read from, since the packer picks the shortest form of everything. *)

From S2P Require Import Prelude FloatBits MsgObject Pack Parse Visitor Format Decode Roundtrip.

(** ** The length of a header *)

Definition str_header (n : Z) : Z := if n <? 32 then 1 else if n <? 256 then 2 else if n <? 65536 then 3 else 5.
Definition bin_header (n : Z) : Z := if n <? 256 then 2 else if n <? 65536 then 3 else 5.
Definition ext_header (n : Z) : Z :=
  if (n =? 1) || (n =? 2) || (n =? 4) || (n =? 8) || (n =? 16) then 1
  else if n <? 256 then 2 else if n <? 65536 then 3 else 5.
Definition open_header (n : Z) : Z := if n <? 16 then 1 else if n <? 65536 then 3 else 5.

Ltac lengths := unfold append_buffer; rewrite ?app_nil_l; autorewrite with rpc; try lia.

Lemma len_pack_str n : len (pack_str n []) = str_header n.
Proof. unfold pack_str, str_header. split_cmp; lengths. Qed.
Lemma len_pack_bin n : len (pack_bin n []) = bin_header n.
Proof. unfold pack_bin, bin_header. split_cmp; lengths. Qed.
Lemma len_pack_ext n t : len (pack_ext n t []) = ext_header n + 1.
Proof. unfold pack_ext, ext_header. split_cmp; simpl; lengths. Qed.
Lemma len_pack_array n : len (pack_array n []) = open_header n.
Proof. unfold pack_array, open_header. split_cmp; lengths. Qed.
Lemma len_pack_map n : len (pack_map n []) = open_header n.
Proof. unfold pack_map, open_header. split_cmp; lengths. Qed.

Lemma len_pack_uint64 z k :
  In k [0; 1; 2; 4; 8] -> 0 <= z < (if k =? 0 then 2 ^ 7 else 2 ^ (8 * k)) -> len (pack_uint64 z []) <= 1 + k.
Proof.
  intros Hk Hz. unfold pack_uint64, pack_imp_uint64.
  simpl in Hk; destruct Hk as [<-|[<-|[<-|[<-|[<-|[]]]]]]; simpl in Hz; split_cmp; lengths.
Qed.

Lemma len_pack_int64 z k :
  In k [0; 1; 2; 4; 8] -> (if k =? 0 then - 2 ^ 5 else - 2 ^ (8 * k - 1)) <= z < 0 -> len (pack_int64 z []) <= 1 + k.
Proof.
  intros Hk Hz. unfold pack_int64, pack_imp_int64.
  simpl in Hk; destruct Hk as [<-|[<-|[<-|[<-|[<-|[]]]]]]; simpl in Hz; split_cmp; lengths.
Qed.

Lemma len_body (l : bytes) n : len l < 2 ^ 32 -> n = size32 l -> len (take (Z.to_nat n) l) = len l.
Proof.
  intros H ->. pose proof (len_nonneg l). unfold size32. rewrite wrap_small by lia.
  rewrite take_ge; [done|]. unfold len. lia.
Qed.

Lemma len_encode_raw t s :
  len s < 2 ^ 32 -> 0 < len s \/ t <> T_EXT ->
  len (encode (raw_object t s)) =
  len s + match t with T_STR => str_header (len s) | T_BIN => bin_header (len s)
                     | T_EXT => ext_header (len s - 1) end.
Proof.
  intros Hs Ht. pose proof (len_nonneg s). destruct t; simpl; unfold encode; cbn [pack_object].
  - unfold pack_str_body, append_buffer. rewrite len_app, len_body by done.
    unfold size32. rewrite wrap_small by lia. rewrite len_pack_str. lia.
  - unfold pack_bin_body, append_buffer. rewrite len_app, len_body by done.
    unfold size32. rewrite wrap_small by lia. rewrite len_pack_bin. lia.
  - destruct s as [|c s]; [destruct Ht; [len_lia|done]|]. rewrite len_cons in *. pose proof (len_nonneg s).
    cbn [ext_of pack_object]. unfold pack_ext_body, append_buffer. rewrite len_app, len_body by (done || lia).
    unfold size32. rewrite wrap_small by lia. rewrite len_pack_ext.
    replace (1 + len s - 1) with (len s) by lia. lia.
Qed.

Lemma f32_mk32 s e m :
  0 <= s < 2 -> 0 <= e < 256 -> 0 <= m < 2 ^ 23 ->
  f32_sign (mk32 s e m) = s /\ f32_exp (mk32 s e m) = e /\ f32_frac (mk32 s e m) = m.
Proof.
  intros Hs He Hm. unfold f32_sign, f32_exp, f32_frac, mk32.
  change (2 ^ 8) with 256 in *. change (2 ^ 23) with 8388608 in *. change (2 ^ 31) with 2147483648 in *.
  Z.div_mod_to_equations. lia.
Qed.

(** Widening makes a signalling NaN a quiet one. *)
Lemma widen_wf b : 0 <= b < 2 ^ 32 -> wf_object (FLOAT32 (widen b)).
Proof.
  intros Hb. simpl. destruct (f32_is_snan b) eqn:Hn; [|by exists b].
  destruct (f32_fields b Hb) as (Hs & _ & Hm & _). unfold f32_is_snan in Hn.
  apply andb_true_iff in Hn as [[He%Z.eqb_eq Hm0%negb_true_iff]%andb_true_iff Hm1%Z.ltb_lt].
  apply Z.eqb_neq in Hm0. set (q := mk32 (f32_sign b) 255 (f32_frac b + 2 ^ 22)).
  assert (F : f32_sign q = f32_sign b /\ f32_exp q = 255 /\ f32_frac q = f32_frac b + 2 ^ 22).
  { apply f32_mk32; lia. }
  destruct F as (F1 & F2 & F3). exists q. split; [unfold q, mk32; lia|]. split.
  - unfold f32_is_snan. rewrite F2, F3. simpl. rewrite (proj2 (Z.ltb_ge _ _)) by lia. by rewrite andb_false_r.
  - unfold widen. cbv zeta. rewrite F1, F2, F3, He. simpl.
    rewrite (proj2 (Z.eqb_neq _ _)) by lia. rewrite (proj2 (Z.eqb_neq (f32_frac b + 2 ^ 22) 0)) by lia.
    rewrite (proj2 (Z.ltb_lt _ _)) by lia. rewrite (proj2 (Z.ltb_ge _ _)) by lia. done.
Qed.

(** ** One token *)

Section Tokens.
Variables (lim : unpack_limit) (depth : Z).

(** [m] is what was read of [n] bytes. *)
Definition canonical (n : Z) (m : outcome token) : Prop :=
  match m with
  | Done (Leaf o) r =>
    is_leaf o /\ wf_object o /\ within lim depth o = true /\ len (encode o) <= n - len r
  | Done (Open K k) r =>
    0 <= k < 2 ^ 32 /\ k <= open_limit lim K /\ depth <= depth_ lim /\ open_header k <= n - len r
  | _ => True
  end.

Lemma canonical_open n K k r :
  0 <= k < 2 ^ 32 -> open_header k <= n - len r -> canonical n (tok_open lim depth K k r).
Proof.
  intros Hk Hn. unfold tok_open, below.
  destruct (Z.ltb_spec (open_limit lim K) k); [done|]. destruct (Z.ltb_spec (depth_ lim) depth); [done|].
  simpl. lia.
Qed.

Definition raw_header (t : raw_type) (k : Z) : Z :=
  match t with T_STR => str_header k | T_BIN => bin_header k | T_EXT => ext_header (k - 1) end.

Lemma canonical_raw n t k d :
  0 <= k -> n < 2 ^ 32 -> 1 <= raw_header t k <= n - len d -> 0 < k \/ t <> T_EXT ->
  canonical n (tok_raw lim t k d).
Proof.
  intros Hk Hn Hh Ht. unfold tok_raw. destruct (get k d) as [s r| | |] eqn:E; try done.
  apply get_done in E as [-> Hl]; [|done]. cbn [obind]. unfold below.
  destruct (Z.ltb_spec (raw_limit lim t) k) as [|Hlim]; [done|]. cbn [canonical].
  rewrite len_app in Hh. pose proof (len_nonneg r). pose proof (len_nonneg s).
  rewrite len_encode_raw by (rewrite ?Hl; lia || tauto). rewrite Hl.
  assert (Hsize : k < 2 ^ 32 - 1) by lia.
  split_and!; [| | |destruct t; simpl in *; lia].
  - destruct t; simpl; [done|done|]. by destruct s.
  - destruct t; simpl; [lia|lia|]. destruct s as [|c s]; simpl; [done|]. rewrite len_cons in Hl. lia.
  - destruct t; simpl in *; [apply Z.leb_le; lia..|]. destruct s as [|c s]; simpl;
      [apply Z.leb_le; destruct Ht; [len_lia|done]|]. rewrite len_cons in Hl. apply Z.leb_le. lia.
Qed.

(** A length field of [k] bytes before something else. *)
Lemma canonical_field n (k : nat) d (g : Z -> bytes -> outcome token) :
  (forall a r, len d = len r + Z.of_nat k -> 0 <= a < 2 ^ (8 * Z.of_nat k) -> canonical n (g a r)) ->
  canonical n (obind (uint (Z.of_nat k) d) g).
Proof.
  intros H. unfold uint. destruct (get (Z.of_nat k) d) as [a r| | |] eqn:E; try done.
  apply get_done in E as [-> Ha]; [|lia]. simpl. apply H; [rewrite len_app; lia|].
  rewrite <- Ha. apply be_val_range.
Qed.

Lemma canonical_number n (k : nat) d (g : Z -> object) :
  (forall a, 0 <= a < 2 ^ (8 * Z.of_nat k) ->
    is_leaf (g a) /\ wf_object (g a) /\ within lim depth (g a) = true /\ len (encode (g a)) <= n - len d + Z.of_nat k) ->
  canonical n (out_map (fun a => Leaf (g a)) (uint (Z.of_nat k) d)).
Proof.
  intros H. apply canonical_field. intros a r Hd Ha. simpl. destruct (H a Ha) as (? & ? & ? & ?).
  split_and!; [done..|lia].
Qed.

Lemma canonical_positive n (k : nat) d :
  In (Z.of_nat k) [1; 2; 4; 8] -> n = len d + 1 ->
  canonical n (out_map (fun a => Leaf (POSITIVE_INTEGER a)) (uint (Z.of_nat k) d)).
Proof.
  intros Hk ->. apply canonical_number. intros a Ha. split_and!; [done| |done|].
  - simpl. assert (2 ^ (8 * Z.of_nat k) <= 2 ^ 64); [|lia]. apply Z.pow_le_mono_r; [lia|].
    simpl in Hk. lia.
  - change (encode (POSITIVE_INTEGER a)) with (pack_uint64 a []).
    pose proof (len_pack_uint64 a (Z.of_nat k)) as H. replace (len d + 1 - len d + Z.of_nat k) with (1 + Z.of_nat k) by lia.
    apply H; [simpl in *; tauto|]. destruct (Z.eqb_spec (Z.of_nat k) 0); [simpl in Hk; lia|done].
Qed.

Lemma canonical_signed n (k : nat) d :
  In (Z.of_nat k) [1; 2; 4; 8] -> n = len d + 1 ->
  canonical n (out_map (fun a => Leaf (neg_or_pos (sext (8 * Z.of_nat k) a))) (uint (Z.of_nat k) d)).
Proof.
  intros Hk ->. apply canonical_number. intros a Ha.
  replace (len d + 1 - len d + Z.of_nat k) with (1 + Z.of_nat k) by lia.
  set (w := 8 * Z.of_nat k) in *. assert (Hw : 0 < w <= 64) by (subst w; simpl in Hk; lia).
  assert (Hp : 2 ^ w = 2 * 2 ^ (w - 1)) by (rewrite <- Z.pow_succ_r by lia; f_equal; lia).
  assert (Hmono : 2 ^ (w - 1) <= 2 ^ 63) by (apply Z.pow_le_mono_r; lia).
  assert (Hs : - 2 ^ (w - 1) <= sext w a < 2 ^ (w - 1)).
  { unfold sext. rewrite wrap_small by done. destruct (Z.ltb_spec a (2 ^ (w - 1))); lia. }
  unfold neg_or_pos. destruct (Z.leb_spec 0 (sext w a)); (split_and!; [done| |done|]).
  - simpl. lia.
  - change (encode (POSITIVE_INTEGER _)) with (pack_uint64 (sext w a) []). apply len_pack_uint64; [simpl in *; tauto|].
    destruct (Z.eqb_spec (Z.of_nat k) 0); [simpl in Hk; lia|]. fold w. lia.
  - simpl. lia.
  - change (encode (NEGATIVE_INTEGER _)) with (pack_int64 (sext w a) []). apply len_pack_int64; [simpl in *; tauto|].
    destruct (Z.eqb_spec (Z.of_nat k) 0); [simpl in Hk; lia|]. fold w. lia.
Qed.

(** The forms of each length: the header the packer would choose is no longer. *)
Lemma canonical_raw_field n t (k : nat) d :
  In (Z.of_nat k) [1; 2; 4] -> n < 2 ^ 32 -> n = len d + 1 -> t <> T_EXT ->
  canonical n (obind (uint (Z.of_nat k) d) (tok_raw lim t)).
Proof.
  intros Hk Hn -> Ht. apply canonical_field. intros a r Hd Ha. apply canonical_raw; [lia|done| |by right].
  destruct t; [| |done]; simpl; unfold str_header, bin_header;
    (simpl in Hk; destruct Hk as [E|[E|[E|[]]]]; rewrite <- E in *; simpl in Ha; split_cmp; lia).
Qed.

Lemma canonical_ext_field n (k : nat) d :
  In (Z.of_nat k) [1; 2; 4] -> n < 2 ^ 32 -> n = len d + 1 ->
  canonical n (obind (uint (Z.of_nat k) d) (tok_ext lim)).
Proof.
  intros Hk Hn ->. apply canonical_field. intros a r Hd Ha. apply canonical_raw; [lia|done| |left; lia].
  simpl. unfold ext_header. rewrite Z.add_simpl_r.
  simpl in Hk; destruct Hk as [E|[E|[E|[]]]]; rewrite <- E in *; simpl in Ha; split_cmp; cbn [orb]; lia.
Qed.

Lemma canonical_open_field n (k : nat) K d :
  In (Z.of_nat k) [2; 4] -> n = len d + 1 ->
  canonical n (obind (uint (Z.of_nat k) d) (tok_open lim depth K)).
Proof.
  intros Hk ->. apply canonical_field. intros a r Hd Ha.
  simpl in Hk; destruct Hk as [E|[E|[]]]; rewrite <- E in *; simpl in Ha; apply canonical_open; try lia;
    unfold open_header; split_cmp; lia.
Qed.

Lemma tok_canonical b d : len d + 1 < 2 ^ 32 -> canonical (len d + 1) (tok lim depth (b :: d)).
Proof.
  intros Hd. unfold tok. pose proof (u8_range b) as Hb. unfold tok_byte. cbv zeta.
  assert (Hx : forall e, In e [1; 2; 4; 8; 16] -> canonical (len d + 1) (tok_ext lim e d)).
  { intros e He. apply canonical_raw; simpl in He; [lia|done| |left; lia]. simpl.
    rewrite Z.add_simpl_r. unfold ext_header. destruct He as [<-|[<-|[<-|[<-|[<-|[]]]]]]; simpl; lia. }
  destruct (Z.leb_spec (u8 b) 0x7f).
  { simpl. split_and!; try done; try lia. change (encode _) with (pack_uint64 (u8 b) []).
    pose proof (len_pack_uint64 (u8 b) 0 ltac:(simpl; tauto) ltac:(simpl; lia)). lia. }
  destruct (Z.leb_spec (u8 b) 0x8f); [apply canonical_open; [lia|unfold open_header; split_cmp; lia]|].
  destruct (Z.leb_spec (u8 b) 0x9f); [apply canonical_open; [lia|unfold open_header; split_cmp; lia]|].
  destruct (Z.leb_spec (u8 b) 0xbf).
  { apply canonical_raw; [lia|done| |by right]. simpl. unfold str_header. split_cmp; lia. }
  destruct (Z.leb_spec 0xe0 (u8 b)).
  { simpl. split_and!; try done; try lia. change (encode _) with (pack_int64 (u8 b - 256) []).
    pose proof (len_pack_int64 (u8 b - 256) 0 ltac:(simpl; tauto) ltac:(simpl; lia)). lia. }
  assert (Hl : forall o, is_leaf o -> wf_object o -> within lim depth o = true -> len (encode o) = 1 ->
    canonical (len d + 1) (Done (Leaf o) d)).
  { intros o ? ? ? E. simpl. rewrite E. split_and!; [done..|lia]. }
  repeat case_match; try done;
    first [by apply Hl|apply Hx; simpl; tauto
      |apply (canonical_raw_field _ _ 1); done || (simpl; tauto)|apply (canonical_raw_field _ _ 2); done || (simpl; tauto)
      |apply (canonical_raw_field _ _ 4); done || (simpl; tauto)
      |apply (canonical_ext_field _ 1); done || (simpl; tauto)|apply (canonical_ext_field _ 2); done || (simpl; tauto)
      |apply (canonical_ext_field _ 4); done || (simpl; tauto)
      |apply (canonical_open_field _ 2); done || (simpl; tauto)|apply (canonical_open_field _ 4); done || (simpl; tauto)
      |apply (canonical_positive _ 1); done || (simpl; tauto)|apply (canonical_positive _ 2); done || (simpl; tauto)
      |apply (canonical_positive _ 4); done || (simpl; tauto)|apply (canonical_positive _ 8); done || (simpl; tauto)
      |apply (canonical_signed _ 1); done || (simpl; tauto)|apply (canonical_signed _ 2); done || (simpl; tauto)
      |apply (canonical_signed _ 4); done || (simpl; tauto)|apply (canonical_signed _ 8); done || (simpl; tauto)
      |idtac].
  - apply (canonical_number _ 8). intros a Ha. split_and!; [done|done|done|].
    unfold encode. cbn [pack_object]. unfold pack_double. lengths.
  - apply (canonical_number _ 4). intros a Ha. split_and!; [done|by apply widen_wf|done|].
    unfold encode. cbn [pack_object]. unfold pack_float. lengths.
Qed.
End Tokens.

(** ** Objects *)

Section Objects.
Context (lim : unpack_limit).

Definition fine (depth : Z) (o : object) : Prop := wf_object o /\ within lim depth o = true.

Lemma len_pack_list l : len (pack_list l []) = foldr (fun o n => len (encode o) + n) 0 l.
Proof. induction l as [|o l IH]; [done|]. by rewrite pack_list_cons, len_app, IH. Qed.

Lemma items_fine depth one g : forall n d l r,
  (forall d' o r', len d' <= len d -> one d' = Done o r' ->
    fine depth o /\ len (encode o) <= len d' - len r') ->
  0 <= n -> items one g n d = Done l r ->
  Forall (fine depth) l /\ len l = n /\ len (pack_list l []) <= len d - len r.
Proof.
  induction g as [|g IH]; intros n d l r H1 Hn H; cbn [items] in H;
    (destruct (Z.eqb_spec n 0) as [->|]; [injection H as <- <-; split_and!; [constructor|done|simpl; rewrite len_nil; lia]|]);
    [done|].
  apply obind_done in H as (o & d' & Ho & H). apply obind_done in H as (l' & r' & Hl & [= <- <-]).
  destruct (H1 d o d' ltac:(lia) Ho) as [Hf Hlen]. pose proof (len_nonneg (encode o)).
  destruct (IH (n - 1) d' l' r') as (Hfs & Hn' & Hlen'); [|lia|done|].
  { intros d2 o2 r2 Hd2. apply H1. lia. }
  rewrite pack_list_cons, len_app, len_cons. split_and!; [by constructor|lia|lia].
Qed.

Lemma array_fine depth l n :
  n <= array_ lim -> depth <= depth_ lim -> n < 2 ^ 32 -> len l = n ->
  Forall (fine (depth + 1)) l -> fine depth (ARRAY l).
Proof.
  intros Ha Hd Hn Hl Hf. rewrite Forall_forall in Hf. split.
  - apply wf_array. split; [lia|]. apply Forall_forall. intros x Hx. by apply Hf.
  - cbn [within]. rewrite !(proj2 (Z.leb_le _ _)) by lia. simpl. apply forallb_forall.
    intros x Hx%list_elem_of_In. by apply Hf.
Qed.

Lemma map_fine depth l n :
  n <= map_ lim -> depth <= depth_ lim -> n < 2 ^ 32 -> len l = n ->
  Forall (fine (depth + 1)) (flat l) -> fine depth (MAP l).
Proof.
  intros Ha Hd Hn Hl Hf.
  assert (Hk : Forall (fun kv => fine (depth + 1) kv.1 /\ fine (depth + 1) kv.2) l).
  { clear Hl. induction l as [|[k v] l IH]; [constructor|]. apply Forall_cons in Hf as [H1 Hf].
    apply Forall_cons in Hf as [H2 Hf]. constructor; [done|by apply IH]. }
  rewrite Forall_forall in Hk. split.
  - apply wf_map. split; [lia|]. apply Forall_forall. intros x Hx. by destruct (Hk x Hx) as [[? _] [? _]].
  - cbn [within]. rewrite !(proj2 (Z.leb_le _ _)) by lia. simpl. apply forallb_forall.
    intros x Hx%list_elem_of_In. destruct (Hk x Hx) as [[_ ?] [_ ?]]. by apply andb_true_iff.
Qed.

Lemma dec_fine fuel : forall depth d o r,
  len d < 2 ^ 32 -> dec lim fuel depth d = Done o r -> fine depth o /\ len (encode o) <= len d - len r.
Proof.
  induction fuel as [|fuel IH]; intros depth d o r Hd H; [done|]. cbn [dec] in H.
  apply obind_done in H as (t & d1 & Ht & H). destruct d as [|b d]; [done|].
  rewrite len_cons in Hd |- *.
  pose proof (tok_canonical lim depth b d ltac:(lia)) as C. rewrite Ht in C.
  pose proof (tok_advances lim depth (b :: d)) as A. rewrite Ht in A. simpl in A. rewrite len_cons in A.
  destruct t as [x|K k]; cbn [canonical] in C.
  - injection H as <- <-. destruct C as (_ & ? & ? & ?). split; [by split|lia].
  - destruct C as (Hk & Hlim & Hdep & Hhdr).
    apply obind_done in H as (l & r' & Hl & [= <- <-]).
    assert (H1 : forall d' o' r', len d' <= len d1 -> dec lim fuel (depth + 1) d' = Done o' r' ->
      fine (depth + 1) o' /\ len (encode o') <= len d' - len r').
    { intros d' o' r2 Hd'. apply IH. lia. }
    eapply items_fine in Hl as (Hf & Hn & Hlen); [|exact H1|destruct K; simpl; lia].
    destruct K; simpl in Hn.
    + split; [apply (array_fine depth l k); done || lia|]. simpl. rewrite encode_ARRAY, len_app.
      unfold size32. rewrite wrap_small, len_pack_array, Hn by lia. lia.
    + destruct (flat_pairs l k Hn) as [Hfl Hlk]. split.
      * apply (map_fine depth _ k); [done|done|lia|done|by rewrite Hfl].
      * simpl. rewrite encode_MAP, len_app, Hfl. unfold size32. rewrite wrap_small, len_pack_map, Hlk by lia. lia.
Qed.
End Objects.

(** ** Through the parser *)

(** More fuel reads the same object. *)
Lemma mapM_impl {A B} (f g : A -> option B) l k :
  (forall x y, f x = Some y -> g x = Some y) -> mapM f l = Some k -> mapM g l = Some k.
Proof. rewrite !mapM_Some. intros H Hl. eapply Forall2_impl; [exact Hl|auto]. Qed.

Lemma read_object_more h : forall fuel c o, read_object fuel h c = Some o ->
  forall n, (fuel <= n)%nat -> read_object n h c = Some o.
Proof.
  induction fuel as [|fuel IH]; intros c o H [|n] Hn; [done|done|lia|]. cbn [read_object] in *.
  assert (G : forall p x, h !! p ≫= read_object fuel h = Some x -> h !! p ≫= read_object n h = Some x).
  { intros p x (y & -> & Hy)%bind_Some. simpl. apply (IH _ _ Hy). lia. }
  destruct c as [| | | | | | | | |k [b|]|k [b|]]; try exact H.
  - apply fmap_Some in H as (l & Hl & ->). apply fmap_Some. exists l. split; [|done].
    revert Hl. apply mapM_impl. intros i. apply G.
  - apply fmap_Some in H as (l & Hl & ->). apply fmap_Some. exists l. split; [|done].
    revert Hl. apply mapM_impl. intros i x (u & Hu & (w & Hw & Hx)%bind_Some)%bind_Some.
    apply bind_Some. exists u. split; [by apply G|]. apply bind_Some. exists w. split; [by apply G|done].
Qed.

Lemma unpack_more d off f lim fuel o noff b n :
  unpack fuel d off f lim = Some (Ok (Some o, noff, b)) -> (fuel <= n)%nat ->
  unpack n d off f lim = Some (Ok (Some o, noff, b)).
Proof.
  unfold unpack, unpack_imp. destruct (parse_imp d off (new_visitor f lim)) as [[[[r q] v]|e]|]; [|done|done].
  simpl. destruct (complete r); [|done]. intros [= Ho <- <-] Hn. do 2 f_equal. do 2 f_equal.
  unfold data in *. destruct (cells v !! (0, 0)); [|done]. simpl in *. by apply (read_object_more _ fuel).
Qed.

(** C12. Whatever the bytes, an object that [unpack] returns is well-formed and within the
    limits: every integer is in the range of its tag and negative exactly when its tag says so, no
    float is a signalling NaN, every size fits its field. Packed again, it takes no more
    bytes than it was read from, and unpacking those gives it back. *)
Theorem unpacked_well_formed d off f lim fuel o noff b :
  len d < 2 ^ 32 -> 0 <= off -> unpack fuel d off f lim = Some (Ok (Some o, noff, b)) ->
  off < noff /\ wf_object o /\ within lim 1 o = true /\ len (encode o) <= noff - off /\
   exists b' N, forall n, (N <= n)%nat ->
     unpack n (encode o) 0 f lim = Some (Ok (Some o, len (encode o), b')).
Proof.
  intros Hd Hoff0 Hu. assert (Hoff : 0 <= off < len d).
  { unfold unpack, unpack_imp, parse_imp in Hu. by destruct (Z.leb_spec (len d) off). }
  set (q := take (Z.to_nat off) d). set (r := drop (Z.to_nat off) d).
  assert (Hqr : d = q ++ r) by (symmetry; apply take_drop).
  assert (Hq : len q = off) by (unfold q, len in *; rewrite length_take; lia).
  pose proof (unpack_decode d q r f lim Hd Hqr) as R. rewrite Hq in R.
  destruct (decode lim r) as [v rest| |e|] eqn:E; cbn [unpacks_as] in R.
  2, 3: by unfold unpack in Hu; rewrite R in Hu.
  2: done.
  destruct R as (b0 & N & R).
  assert (Hb : unpack (Nat.max N fuel) d off f lim = Some (Ok (Some v, len d - len rest, b0))).
  { unfold unpack. rewrite R by lia. by destruct rest. }
  apply (unpack_more _ _ _ _ _ _ _ _ (Nat.max N fuel)) in Hu; [|lia]. rewrite Hb in Hu.
  injection Hu as <- <- <-.
  assert (Hr : len r < 2 ^ 32) by (rewrite Hqr, len_app in Hd; pose proof (len_nonneg q); lia).
  destruct (dec_fine lim _ _ _ _ _ Hr E) as [[Hw Hi] Hl].
  pose proof (decode_advances lim r) as A. rewrite E in A. simpl in A.
  assert (Hdl : len d = off + len r) by (rewrite <- Hq, <- len_app, <- Hqr; done).
  pose proof (len_nonneg rest).
  split_and!; [lia|done|done|lia|].
  pose proof (unpack_decode (encode v) [] (encode v) f lim ltac:(lia) eq_refl) as R2.
  assert (E2 : decode lim (encode v) = Done v []).
  { rewrite <- (app_nil_r (encode v)) at 1. by apply decode_encode. }
  rewrite E2 in R2.
  destruct R2 as (b' & M & R2). exists b', M. intros n Hn. change (len []) with 0 in R2.
  unfold unpack. rewrite R2 by done. simpl. do 3 f_equal. f_equal. lia.
Qed.

(** An int16 holding 5, a float32 holding a signalling NaN, and an empty string
    with a length field: packed again they are shorter, and the NaN is quiet. *)
Definition loose : bytes :=
  chr 0x93 :: (chr 0xd1 :: be 2 5) ++ (chr 0xca :: be 4 0x7f800001) ++ [chr 0xd9; chr 0].

Lemma unpacked_well_formed_witness :
  exists o, unpack 9 loose 0 None default_limit = Some (Ok (Some o, 11, false)) /\
    encode o = chr 0x93 :: [chr 5] ++ (chr 0xca :: be 4 0x7fc00001) ++ [chr 0xa0] /\
    wf_object o /\ within default_limit 1 o = true /\ len (encode o) <= 11 - 0.
Proof.
  destruct (unpack 9 loose 0 None default_limit) as [[[[[o|] noff] b]|e]|] eqn:E;
    [|vm_compute in E; discriminate E..].
  assert (noff = 11 /\ b = false) as [-> ->] by (vm_compute in E; by injection E as _ <- <-).
  exists o. split; [done|]. split; [vm_compute in E; injection E as <-; vm_compute; reflexivity|].
  destruct (unpacked_well_formed loose 0 None default_limit 9 o 11 false) as (_ & Hw & Hi & Hl & _);
    [vm_compute; reflexivity|lia|exact E|]. split_and!; assumption.
Defined.
