(* ===== verification/Clone.v ===== *)
(** * Copying an object into a zone

    Models [object_with_zone<object>] and [clone] (v1/object.hpp) over the zone of
    [Zone]: objects in memory refer to their strings, elements and pairs by
    address. What is in the zone's memory is a map from addresses: an object at
    every address where one was constructed, and the bytes copied to every
    address [memcpy] wrote to. *)

From S2P Require Import Prelude FloatBits MsgObject Format Alloc Zone.

Inductive cell :=
| KNil
| KBoolean (b : bool)
| KPositive (u64 : Z)
| KNegative (i64 : Z)
| KFloat32 (f64 : Z)
| KFloat64 (f64 : Z)
| KStr (ptr size : Z)
| KBin (ptr size : Z)
| KExt (ptr size : Z)
| KArray (ptr size : Z)
| KMap (ptr size : Z).

Inductive item := Cell (c : cell) | Data (d : bytes).

Abbreviation contents := (gmap Z item).

(** The zone's monad with the contents of its memory. *)
Definition C (A : Type) : Type := zone * heap * contents -> res fault A * (zone * heap * contents).

Definition cret {A} (a : A) : C A := fun s => (Ok a, s).
Definition cbind {A B} (m : C A) (k : A -> C B) : C B := fun s =>
  match m s with (Ok a, s) => k a s | (Throw e, s) => (Throw e, s) end.
Definition in_zone {A} (m : Z_ A) : C A := fun '(s, k) => let '(r, s) := m s in (r, (s, k)).
Definition put (p : Z) (i : item) : C unit := fun '(s, k) => (Ok tt, (s, <[p := i]> k)).

Declare Scope copy_scope.
Delimit Scope copy_scope with copy.
Notation "'let!' x := m 'in' k" := (cbind m (fun x => k))
  (at level 10, x pattern, m at level 100, k at level 200) : copy_scope.
#[local] Open Scope copy_scope.

Section Clone.
Context {MA : Malloc}.

(** [allocate_align] for chars, then [memcpy]; nothing is written for no bytes. *)
Definition copy_bytes (size : Z) (d : bytes) : C Z :=
  let! p := in_zone (allocate_align size 1) in
  let! _ := (match take (Z.to_nat size) d with [] => cret tt | d => put p (Data d) end) in
  cret p.

(** The loop over the elements: [new (po) object( *pv, o.zone)]. *)
Definition copy_each (f : object -> C cell) : Z -> list object -> C unit :=
  fix go po l :=
    match l with
    | [] => cret tt
    | v :: l => let! c := f v in let! _ := put po (Cell c) in go (po + sizeof_object) l
    end.

Definition copy_pairs (f : object -> C cell) : Z -> list (object * object) -> C unit :=
  fix go po l :=
    match l with
    | [] => cret tt
    | kv :: l =>
      let! c := f kv.1 in
      let! _ := put po (Cell c) in
      let! c := f kv.2 in
      let! _ := put (po + sizeof_object) (Cell c) in
      go (po + sizeof_object_kv) l
    end.

Fixpoint object_with_zone (v : object) : C cell :=
  match v with
  | NIL => cret KNil
  | BOOLEAN b => cret (KBoolean b)
  | POSITIVE_INTEGER u64 => cret (KPositive u64)
  | NEGATIVE_INTEGER i64 => cret (KNegative i64)
  | FLOAT32 f64 => cret (KFloat32 f64)
  | FLOAT64 f64 => cret (KFloat64 f64)
  | STR s => let! p := copy_bytes (len s) s in cret (KStr p (len s))
  | BIN s => let! p := copy_bytes (len s) s in cret (KBin p (len s))
  | EXT t d => let! p := copy_bytes (wrap 32 (len d + 1)) (t :: d) in cret (KExt p (len d))
  | ARRAY l =>
    let! p := in_zone (allocate_align (wrap 64 (sizeof_object * len l)) 8) in
    let! _ := copy_each object_with_zone p l in
    cret (KArray p (len l))
  | MAP l =>
    let! p := in_zone (allocate_align (wrap 64 (sizeof_object_kv * len l)) 8) in
    let! _ := copy_pairs object_with_zone p l in
    cret (KMap p (len l))
  end.

(** ** Reading a copy *)

Definition fetch_all (f : cell -> option object) (k : contents) : Z -> nat -> option (list object) :=
  fix go p n :=
    match n with
    | O => Some []
    | S n =>
      match k !! p with
      | Some (Cell c) => x ← f c; l ← go (p + sizeof_object) n; Some (x :: l)
      | _ => None
      end
    end.

Definition fetch_bytes (k : contents) (p size : Z) : option bytes :=
  if size =? 0 then Some []
  else match k !! p with Some (Data d) => if len d =? size then Some d else None | _ => None end.

(** The tree a cell stands for; [fuel] bounds its depth. *)
Fixpoint fetch (fuel : nat) (k : contents) (c : cell) : option object :=
  match fuel with
  | O => None
  | S f =>
    match c with
    | KNil => Some NIL
    | KBoolean b => Some (BOOLEAN b)
    | KPositive z => Some (POSITIVE_INTEGER z)
    | KNegative z => Some (NEGATIVE_INTEGER z)
    | KFloat32 z => Some (FLOAT32 z)
    | KFloat64 z => Some (FLOAT64 z)
    | KStr p n => STR <$> fetch_bytes k p n
    | KBin p n => BIN <$> fetch_bytes k p n
    | KExt p n =>
      match fetch_bytes k p (n + 1) with Some (t :: d) => Some (EXT t d) | _ => None end
    | KArray p n => ARRAY <$> fetch_all (fetch f k) k p (Z.to_nat n)
    | KMap p n => (fun l => MAP (pairs l)) <$> fetch_all (fetch f k) k p (2 * Z.to_nat n)
    end
  end.

(** ** [clone] *)

Definition sizeof_zone : Z := 56.

(** The new object, and its zone with the address it was allocated at; without data there is no
    zone and the object is the old one's bits. A copy that fails deletes the zone. *)
Definition clone (obj : object) (old : cell) (h : heap)
    : res fault (cell * option (Z * zone) * contents) * heap :=
  let size := aligned_zone_size obj in
  if size =? 0 then (Ok (old, None, ∅), h)
  else match malloc sizeof_zone h with
  | (None, h) => (Throw bad_alloc, h)
  | (Some a, h) =>
    match new_zone size h with
    | (Throw e, h) => (Throw e, h)
    | (Ok z, h) =>
      match object_with_zone obj (z, h, ∅) with
      | (Ok c, (z, h, k)) => (Ok (c, Some (a, z), k), h)
      | (Throw e, (z, h, _)) =>
        match destroy_zone (z, h) with
        | (Ok _, (_, h)) =>
          match free (Some a) h with Some h => (Throw e, h) | None => (Throw invalid_access, h) end
        | (Throw e, (_, h)) => (Throw e, h)
        end
      end
    end
  end.
End Clone.
