(* ===== verification/CloneSpec.v ===== *)
(** * A copy is the object copied

    The copy [object_with_zone] makes reads back as the same tree, all of it in memory
    the zone handed out for it; and [clone] either gives that or leaves the heap as it was. *)

From S2P Require Import Prelude FloatBits MsgObject Format Tokens Decode Roundtrip Alloc Zone ZoneSpec Clone.

#[local] Open Scope copy_scope.

(** ** Footprints *)

Definition covers (l : list (Z * Z)) (a : Z) : Prop := exists r, r ∈ l /\ inside a r.
Definition agree (P : Z -> Prop) (k k' : contents) : Prop := forall a, P a -> k' !! a = k !! a.

Lemma covers_app l l' a : covers (l ++ l') a <-> covers l a \/ covers l' a.
Proof. unfold covers. setoid_rewrite elem_of_app. naive_solver. Qed.

Lemma all_disjoint_app l l' a : all_disjoint (l ++ l') -> covers l a -> covers l' a -> False.
Proof.
  induction l as [|r l IH]; intros H (x & Hx & Ha) (y & Hy & Hb); [by apply elem_of_nil in Hx|].
  destruct H as [H1 H2]. apply elem_of_cons in Hx as [->|Hx].
  - rewrite Forall_forall in H1. apply (H1 y) with a; [|done|done]. apply elem_of_app. by right.
  - apply IH; [done|by exists x|by exists y].
Qed.

Section Proofs.
Context {MA : Malloc} {LA : MallocLaws MA}.

(** What a piece of the copy does: it allocates [new], writes there and in [own], and
    establishes [Q] for as long as these stay as they are. *)
Definition copies {A} (h0 : heap) (own : Z -> Prop) (m : C A) (Q : A -> contents -> Prop)
    (z : zone) (h : heap) (k : contents) (g : list (Z * Z)) : Prop :=
  match m (z, h, k) with
  | (Ok a, (z', h', k')) => exists new, zone_ok h0 z' h' (new ++ g) /\
      (forall x, k' !! x = k !! x \/ covers new x \/ own x) /\
      forall k2, agree (fun x => covers new x \/ own x) k' k2 -> Q a k2
  | (Throw e, (z', h', _)) => e = bad_alloc /\ exists new, zone_ok h0 z' h' (new ++ g)
  end.

Definition reads_as (v : object) (c : cell) (k : contents) : Prop :=
  forall fuel, (depth v <= fuel)%nat -> fetch fuel k c = Some v.

Definition nothing (x : Z) : Prop := False.

Lemma copies_ret {A} h0 (a : A) (Q : A -> contents -> Prop) z h k g :
  zone_ok h0 z h g -> (forall k2, Q a k2) -> copies h0 nothing (cret a) Q z h k g.
Proof. intros G HQ. exists []. split; [done|]. split; [auto|]. intros k2 _. apply HQ. Qed.

Lemma copies_weaken {A} h0 (own own' : Z -> Prop) (m : C A) (Q Q' : A -> contents -> Prop) z h k g :
  copies h0 own m Q z h k g -> (forall x, own x -> own' x) -> (forall a k2, Q a k2 -> Q' a k2) ->
  copies h0 own' m Q' z h k g.
Proof.
  unfold copies. intros H Ho HQ. destruct (m (z, h, k)) as [[a|e] [[z' h'] k']]; [|done].
  destruct H as (new & G & F & P). exists new. split; [done|]. split; [intros x; naive_solver|].
  intros k2 Hk. apply HQ, P. intros x Hx. apply Hk. naive_solver.
Qed.

Lemma copies_put h0 p i z h k g : zone_ok h0 z h g ->
  copies h0 (eq p) (put p i) (fun _ k2 => k2 !! p = Some i) z h k g.
Proof.
  intros G. exists []. split; [done|]. split.
  - intros x. destruct (decide (p = x)); [auto|]. left. by rewrite lookup_insert_ne.
  - intros k2 Hk. rewrite Hk by auto. apply lookup_insert_eq.
Qed.

(** One piece after another, writing to different places: the second does not undo the first. *)
Lemma copies_bind {A B} h0 (own1 own2 : Z -> Prop) (m : C A) (f : A -> C B) Q R S z h k g :
  (forall x, own1 x -> covers g x) -> (forall x, own2 x -> covers g x) ->
  (forall x, own1 x -> own2 x -> False) ->
  copies h0 own1 m Q z h k g ->
  (forall a z' h' k' new, zone_ok h0 z' h' (new ++ g) -> copies h0 own2 (f a) (R a) z' h' k' (new ++ g)) ->
  (forall a b k2, Q a k2 -> R a b k2 -> S b k2) ->
  copies h0 (fun x => own1 x \/ own2 x) (cbind m f) S z h k g.
Proof.
  intros H1 H2 Hd Hm Hf HS. unfold copies, cbind in *.
  destruct (m (z, h, k)) as [[a|e] [[z1 h1] k1]]; [|done]. destruct Hm as (new1 & G1 & F1 & P1).
  specialize (Hf a z1 h1 k1 new1 G1). destruct (f a (z1, h1, k1)) as [[b|e] [[z2 h2] k2]].
  - destruct Hf as (new2 & G2 & F2 & P2). exists (new2 ++ new1). rewrite <- app_assoc. split; [done|].
    pose proof (z_disjoint _ _ _ _ G2) as D. split.
    + intros x. rewrite covers_app. destruct (F2 x) as [->|]; [|naive_solver]. destruct (F1 x); naive_solver.
    + intros k3 Hk. apply (HS a).
      * apply P1. intros x Hx. rewrite Hk by (rewrite covers_app; naive_solver).
        destruct (F2 x) as [|[Hc|Ho]]; [done|exfalso..].
        -- apply (all_disjoint_app _ _ x D Hc). rewrite covers_app. naive_solver.
        -- destruct Hx as [Hc|Ho1]; [|by apply (Hd x)].
           pose proof (z_disjoint _ _ _ _ G1) as D1. apply (all_disjoint_app _ _ x D1 Hc). by apply H2.
      * apply P2. intros x Hx. apply Hk. rewrite covers_app. naive_solver.
  - destruct Hf as [-> (new2 & G2)]. split; [done|]. exists (new2 ++ new1). by rewrite <- app_assoc.
Qed.

(** What follows an allocation may write to what it gave. *)
Lemma copies_alloc {A} h0 own size align (f : Z -> C A) S z h k g :
  zone_ok h0 z h g -> 0 <= size < 2 ^ 61 -> 0 < align < 2 ^ 61 ->
  (forall p z' h', zone_ok h0 z' h' ((p, size) :: g) ->
     copies h0 (fun x => inside x (p, size) \/ own x) (f p) S z' h' k ((p, size) :: g)) ->
  copies h0 own (let! p := in_zone (allocate_align size align) in f p) S z h k g.
Proof.
  intros G Hs Ha Hf. pose proof (allocate_align_ok h0 z h g size align G Hs Ha) as A1.
  unfold copies, cbind, in_zone, allocated in *.
  destruct (allocate_align size align (z, h)) as [[p|e] [z1 h1]].
  - destruct A1 as (G1 & _). specialize (Hf p z1 h1 G1). destruct (f p (z1, h1, k)) as [[b|e] [[z2 h2] k2]].
    + destruct Hf as (new & G2 & F & P). exists (new ++ [(p, size)]). rewrite <- app_assoc. split; [done|].
      assert (Hc : forall x, covers (new ++ [(p, size)]) x <-> covers new x \/ inside x (p, size)).
      { intros x. rewrite covers_app. unfold covers at 2. setoid_rewrite list_elem_of_singleton. naive_solver. }
      split; [intros x; rewrite Hc; specialize (F x); naive_solver|].
      intros k3 Hk. apply P. intros x Hx. apply Hk. rewrite Hc. naive_solver.
    + destruct Hf as [-> (new & G2)]. split; [done|]. exists (new ++ [(p, size)]). by rewrite <- app_assoc.
  - destruct A1 as [-> [= -> ->]]. split; [done|]. by exists [].
Qed.

(** ** Bytes and elements *)

Lemma copy_bytes_ok h0 n d z h k g :
  zone_ok h0 z h g -> 0 <= n < 2 ^ 61 ->
  copies h0 nothing (copy_bytes n d)
    (fun p k2 => fetch_bytes k2 p (len (take (Z.to_nat n) d)) = Some (take (Z.to_nat n) d)) z h k g.
Proof.
  intros G Hn. apply copies_alloc; [done|done|lia|]. intros p z' h' G'.
  set (t := take (Z.to_nat n) d).
  assert (Ht : len t <= n) by (unfold t, len; rewrite length_take; lia). destruct t as [|x t].
  - apply (copies_weaken _ nothing _ _ (fun q k2 => q = p)); [|by unfold nothing; auto|].
    + by apply (copies_ret _ p (fun q _ => q = p)).
    + by intros q k2 ->.
  - apply (copies_weaken _ (fun y => p = y \/ nothing y) _ _
             (fun q k2 => q = p /\ k2 !! p = Some (Data (x :: t)))).
    + eapply (copies_bind _ (eq p) nothing _ _ (fun _ k2 => k2 !! p = Some (Data (x :: t))) (fun _ q _ => q = p)).
      * intros y <-. exists (p, n). split; [apply list_elem_of_here|].
        rewrite len_cons in Ht. pose proof (len_nonneg t). unfold inside. simpl. lia.
      * done.
      * done.
      * by apply copies_put.
      * intros [] z2 h2 k2 new G2. by apply copies_ret.
      * intros _ q k2 H ->. done.
    + intros y [<-|[]]. left. rewrite len_cons in Ht. pose proof (len_nonneg t). unfold inside. simpl. lia.
    + intros q k2 [-> Hq]. unfold fetch_bytes. rewrite Hq, Z.eqb_refl.
      destruct (Z.eqb_spec (len (x :: t)) 0) as [E|]; [|done]. rewrite len_cons in E.
      pose proof (len_nonneg t). lia.
Qed.

Definition slots (p : Z) (l : list object) (x : Z) : Prop := p <= x < p + sizeof_object * len l.

Definition copied (h0 : heap) (v : object) : Prop := forall z h k g,
  zone_ok h0 z h g -> copies h0 nothing (object_with_zone v) (reads_as v) z h k g.

Definition all_read (p : Z) (l : list object) (k : contents) : Prop :=
  forall fuel, Forall (fun v => (depth v <= fuel)%nat) l -> fetch_all (fetch fuel k) k p (length l) = Some l.

Lemma copy_each_ok h0 l : Forall (copied h0) l -> forall p z h k g,
  zone_ok h0 z h g -> (forall x, slots p l x -> covers g x) ->
  copies h0 (slots p l) (copy_each object_with_zone p l) (fun _ => all_read p l) z h k g.
Proof.
  induction 1 as [|v l Hv _ IH]; intros p z h k g G Hg; cbn [copy_each].
  { apply (copies_weaken _ nothing _ _ (fun _ _ => True)); [by apply copies_ret|done|].
    intros _ k2 _ fuel _. done. }
  assert (Hlen : forall x, slots p (v :: l) x <-> p <= x < p + 24 \/ slots (p + sizeof_object) l x).
  { intros x. unfold slots, sizeof_object. rewrite len_cons. pose proof (len_nonneg l). lia. }
  apply (copies_weaken _ (fun x => nothing x \/ (p = x \/ slots (p + sizeof_object) l x)) _ _
           (fun _ => all_read p (v :: l))); [| |done].
  2: { intros x. rewrite Hlen. intros [[]|[<-|H]]; [left; lia|by right]. }
  eapply (copies_bind _ nothing _ _ _ (reads_as v)
            (fun c _ k2 => k2 !! p = Some (Cell c) /\ all_read (p + sizeof_object) l k2)).
  - done.
  - intros x H. apply Hg, Hlen. destruct H as [<-|H]; [left; lia|by right].
  - done.
  - by apply Hv.
  - intros c z1 h1 k1 new G1.
    eapply (copies_bind _ (eq p) (slots (p + sizeof_object) l) _ _ (fun _ k2 => k2 !! p = Some (Cell c))
              (fun _ _ => all_read (p + sizeof_object) l)).
    + intros x <-. rewrite covers_app. right. apply Hg, Hlen. left. lia.
    + intros x H. rewrite covers_app. right. apply Hg, Hlen. by right.
    + intros x <- H. unfold slots, sizeof_object in H. lia.
    + by apply copies_put.
    + intros [] z2 h2 k2 new2 G2. apply IH; [done|]. intros x H. rewrite !covers_app. right. right.
      apply Hg, Hlen. by right.
    + done.
  - intros c [] k2 Hc [Hp Hl] fuel Hf. apply Forall_cons in Hf as [Hv' Hf]. cbn [fetch_all length].
    rewrite Hp, (Hc fuel Hv'). simpl. by rewrite (Hl fuel Hf).
Qed.

Lemma copy_pairs_each f l : forall p, copy_pairs f p l = copy_each f p (flat l).
Proof.
  induction l as [|kv l IH]; intros p; [done|]. cbn [copy_pairs]. rewrite IH.
  unfold sizeof_object_kv. replace (p + 48) with (p + sizeof_object + sizeof_object) by (unfold sizeof_object; lia).
  done.
Qed.

(** ** Objects *)

Lemma copied_bytes h0 n d (mk : Z -> cell) v : 0 <= n < 2 ^ 61 -> (1 <= depth v)%nat ->
  (forall p k fuel, fetch_bytes k p (len (take (Z.to_nat n) d)) = Some (take (Z.to_nat n) d) ->
     fetch (S fuel) k (mk p) = Some v) ->
  forall z h k g, zone_ok h0 z h g ->
  copies h0 nothing (let! p := copy_bytes n d in cret (mk p)) (reads_as v) z h k g.
Proof.
  intros Hn Hd Hf z h k g G.
  apply (copies_weaken _ (fun x => nothing x \/ nothing x) _ _ (reads_as v)); [|by unfold nothing; tauto|done].
  eapply (copies_bind _ nothing nothing _ _ _ (fun p c _ => c = mk p)); try done.
  - by apply copy_bytes_ok.
  - intros p z' h' k' new G'. by apply copies_ret.
  - intros p c k2 Hp -> fuel Hfu. destruct fuel as [|fuel]; [lia|]. by apply Hf.
Qed.

(** An array or a map: room for [l], then its elements. *)
Lemma copied_elements h0 l (mk : Z -> cell) v : Forall (copied h0) l -> len l < 2 ^ 34 ->
  (forall p k fuel, (depth v <= S fuel)%nat -> all_read p l k -> fetch (S fuel) k (mk p) = Some v) ->
  (1 <= depth v)%nat ->
  forall z h k g, zone_ok h0 z h g ->
  copies h0 nothing
    (let! p := in_zone (allocate_align (sizeof_object * len l) 8) in
     let! _ := copy_each object_with_zone p l in cret (mk p)) (reads_as v) z h k g.
Proof.
  intros Hl Hlen Hf Hd z h k g G. pose proof (len_nonneg l).
  apply copies_alloc; [done|unfold sizeof_object; lia|lia|]. intros p z1 h1 G1.
  apply (copies_weaken _ (fun x => slots p l x \/ nothing x) _ _ (reads_as v)); [| |done].
  2: { intros x [H1|[]]. by left. }
  eapply (copies_bind _ (slots p l) nothing _ _ (fun _ => all_read p l) (fun _ c _ => c = mk p)); try done.
  - intros x Hx. exists (p, sizeof_object * len l). split; [apply list_elem_of_here|exact Hx].
  - apply copy_each_ok; [done|done|]. intros x Hx.
    exists (p, sizeof_object * len l). split; [apply list_elem_of_here|exact Hx].
  - intros [] z2 h2 k2 new G2. by apply copies_ret.
  - intros [] c k2 Hp -> fuel Hfu. destruct fuel as [|fuel]; [lia|]. by apply Hf.
Qed.

Lemma copy_ok h0 v : wf_object v -> copied h0 v.
Proof.
  induction v as [| | | | | |s|s|l IH|l IH|t d] using object_ind'; intros Hs zn h k g G; cbn [object_with_zone].
  1-6: apply (copies_weaken _ nothing _ _ (fun c _ => c = _) _ _ _ _ _ (copies_ret _ _ (fun c _ => c = _) _ _ _ _ G (fun _ => eq_refl)));
       [done|]; intros c k2 -> [|fuel] Hf; [cbn in Hf; lia|done].
  1-2: cbn in Hs; pose proof (len_nonneg s); apply copied_bytes; [lia|cbn; lia| |done]; intros p k2 fuel;
       rewrite take_len; intros Hp; cbn [fetch]; by rewrite Hp.
  - apply wf_array in Hs as [Hl Hs]. pose proof (len_nonneg l).
    rewrite (wrap_small 64) by (unfold sizeof_object; lia).
    apply copied_elements; [|lia| |apply depth_pos|done].
    + rewrite Forall_forall in *. auto.
    + intros p k2 fuel Hd Hr. cbn [fetch]. unfold len. rewrite Nat2Z.id, Hr; [done|]. by apply depth_ARRAY.
  - apply wf_map in Hs as [Hl Hs]. pose proof (len_nonneg l).
    assert (Hu : sizeof_object_kv * len l = sizeof_object * len (flat l)).
    { unfold sizeof_object, sizeof_object_kv. rewrite len_flat. lia. }
    rewrite (wrap_small 64) by (unfold sizeof_object_kv; lia). rewrite Hu.
    assert (E := copied_elements h0 (flat l) (fun p => KMap p (len l)) (MAP l)).
    unfold copies, cbind in E |- *. specialize (fun A B Cc D => E A B Cc D zn h k g G).
    destruct (in_zone _ _) as [[p|e] s]; [rewrite copy_pairs_each|]; (apply E; [| | |apply depth_pos]).
    1,4: apply Forall_flat; rewrite Forall_forall in *; naive_solver.
    1,3: rewrite len_flat; lia.
    1-2: intros q k2 fuel Hd Hr; cbn [fetch]; assert (Hn : (2 * Z.to_nat (len l))%nat = length (flat l))
      by (pose proof (len_flat l) as Hf; unfold len in *; lia);
      rewrite Hn, Hr by (by apply depth_MAP); simpl; by rewrite pairs_flat.
  - cbn in Hs. pose proof (len_nonneg d). rewrite wrap_small by lia.
    replace (len d + 1) with (len (t :: d)) by (rewrite len_cons; lia).
    apply copied_bytes; [rewrite len_cons; lia|cbn; lia| |done]. intros p k2 fuel.
    rewrite take_len. intros Hp. cbn [fetch]. replace (len d + 1) with (len (t :: d)) by (rewrite len_cons; lia).
    by rewrite Hp.
Qed.
End Proofs.

Section Cloning.
Context {MA : Malloc} {LA : MallocLaws MA}.

(** The handle's destructor: the zone, then the memory it was in. *)
Definition drop_clone (zo : option (Z * zone)) (h : heap) : option heap :=
  match zo with
  | None => Some h
  | Some (a, z) =>
    match destroy_zone (z, h) with
    | (Ok _, (_, h)) => free (Some a) h
    | (Throw _, _) => None
    end
  end.

Lemma destroy_free h0 z h g a b :
  zone_ok (<[a := b]> h0) z h g -> h0 !! a = None ->
  exists l z', destroy_zone (z, h) = (Ok l, (z', <[a := b]> h0)) /\ free (Some a) (<[a := b]> h0) = Some h0.
Proof.
  intros G Ha. destruct (destroy_ok _ _ _ _ G) as (z' & E). eexists _, z'. split; [exact E|].
  unfold free. rewrite lookup_insert_eq. f_equal. by apply delete_insert_id.
Qed.

End Cloning.

Definition sample_object : object := ARRAY [STR [chr 97]; MAP [(NIL, EXT (chr 1) [chr 2; chr 3])]].


(** The size [clone] asks a zone for leaves out the padding in front of an array or a map
    that comes after a string: such a clone does not fit in the chunk made for it. *)
Example clone_needs_a_second_chunk :
  match clone (MA := bump 1000) sample_object KNil ∅ with
  | (Ok (_, Some (_, z), _), _) => len (m_chunks z) = 2
  | _ => False
  end.
Proof. vm_compute. reflexivity. Qed.
