(* ===== verification/Stream.v ===== *)
(** * The stream a parser sees

    [execute] depends on its input only from the offset on: [run] is one call
    as a function of the bytes still to be parsed and of the context. It composes
    over the chunks the bytes arrive in, whatever buffer they sit in; the
    specification the parser's buffer ([Unpacker]) is proved against. *)

From S2P Require Import Prelude FloatBits MsgObject Parse ParseLoop Visitor Format Tokens Decode.

Section Shift.
Context {V E : Type} `{VI : !Visitor V E}.

(** The error calls do not look at the offsets they are given; true of both
    visitors of the source. *)
Hypothesis error_offsets : forall a b a' b' v, parse_error a b v = parse_error a' b' v.

Definition shift (k : Z) (l : loop V) : loop V := set_current (m_current l + k) l.

Definition shift_flow (k : Z) (f : flow V E) : flow V E :=
  match f with
  | Go l => Go (shift k l)
  | Ret r off c => Ret r (off + k) c
  | Exc e c => Exc e c
  end.

Lemma shift_0 l : shift 0 l = l.
Proof. destruct l. unfold shift, set_current. simpl. by rewrite Z.add_0_r. Qed.

Lemma slice_shift {A} (q d : list A) n k :
  0 <= n -> slice (q ++ d) (n + len q) k = slice d n k.
Proof.
  intros Hn. unfold slice, len. replace (Z.to_nat (n + Z.of_nat (length q)))
    with (length q + Z.to_nat n)%nat by lia. by rewrite drop_app_add.
Qed.

Lemma after_visit_shift k m l :
  after_visit_proc (E:=E) m (shift k l) = shift_flow k (after_visit_proc m l).
Proof.
  unfold after_visit_proc. destruct m as [[[] v]|e]; simpl; try done;
    [destruct (consume (m_stack (ctx l)) v) as [[[[]|e] st] v']|]; simpl; try done;
    unfold shift, set_current, set_ctx; simpl;
    by replace (m_current l + k + 1) with (m_current l + 1 + k) by lia.
Qed.

Lemma aggregate_end_shift k m l :
  aggregate_end (E:=E) (m_current l + k + 1) m (shift k l) =
  shift_flow k (aggregate_end (m_current l + 1) m l).
Proof.
  unfold aggregate_end. destruct m as [[[[]|e] st] v]; simpl; try done;
    unfold shift, set_current, set_ctx; simpl;
    by replace (m_current l + k + 1) with (m_current l + 1 + k) by lia.
Qed.

Lemma start_aggregate_shift k t n sv ev l :
  start_aggregate (E:=E) t n sv ev (shift k l) = shift_flow k (start_aggregate t n sv ev l).
Proof. unfold start_aggregate. destruct (n =? 0); apply aggregate_end_shift. Qed.

Lemma length_field_shift k (visit : bytes -> Z -> V -> res E (bool * V)) next t l :
  length_field visit next t (shift k l) = shift_flow k (length_field visit next t l).
Proof.
  unfold length_field. destruct (t =? 0); [|done].
  exact (after_visit_shift k _ (set_ctx (set_trail t (ctx l)) l)).
Qed.

Variables q d : bytes.

Lemma exec_switch_shift n l :
  0 <= n -> exec_switch (q ++ d) (n + len q) (shift (len q) l) =
            shift_flow (len q) (exec_switch d n l).
Proof.
  intros Hn. unfold exec_switch, load_signed, load. simpl.
  destruct (m_cs (ctx l)); rewrite ?slice_shift by done;
    try apply after_visit_shift; try apply start_aggregate_shift; try apply length_field_shift;
    rewrite (error_offsets _ _ (wrap 64 (n - 1)) n); destruct (parse_error _ _ _); done.
Qed.

Lemma exec_trail_shift l :
  0 <= m_current l -> exec_trail (q ++ d) (shift (len q) l) = shift_flow (len q) (exec_trail d l).
Proof.
  intros Hp. unfold exec_trail.
  assert (Hs : forall l, 0 <= m_current l ->
    (if len (q ++ d) - m_current (shift (len q) l) <? m_trail (ctx (shift (len q) l))
     then Ret PARSE_CONTINUE (m_current (shift (len q) l)) (ctx (shift (len q) l))
     else exec_switch (q ++ d) (m_current (shift (len q) l))
            (set_current (m_current (shift (len q) l) + m_trail (ctx (shift (len q) l)) - 1)
               (shift (len q) l))) =
    shift_flow (len q)
      (if len d - m_current l <? m_trail (ctx l) then Ret PARSE_CONTINUE (m_current l) (ctx l)
       else exec_switch d (m_current l) (set_current (m_current l + m_trail (ctx l) - 1) l))).
  { clear l Hp. intros l Hp. rewrite len_app. simpl.
    replace (len q + len d - (m_current l + len q)) with (len d - m_current l) by lia.
    destruct (len d - m_current l <? m_trail (ctx l)); [done|].
    rewrite <- exec_switch_shift by done. f_equal. unfold shift, set_current. simpl. f_equal. lia. }
  simpl. destruct (fixed_trail_again l).
  - rewrite <- Hs by (simpl; lia). unfold shift, set_current, set_again. simpl.
    by replace (m_current l + len q + 1) with (m_current l + 1 + len q) by lia.
  - by apply Hs.
Qed.

Lemma exec_header_shift l :
  0 <= m_current l -> exec_header (q ++ d) (shift (len q) l) = shift_flow (len q) (exec_header d l).
Proof.
  intros Hp. unfold exec_header. simpl.
  assert (Hb : (q ++ d) !! Z.to_nat (m_current l + len q) = d !! Z.to_nat (m_current l)).
  { unfold len. replace (Z.to_nat (m_current l + Z.of_nat (length q)))
      with (length q + Z.to_nat (m_current l))%nat by lia.
    rewrite lookup_app_r by lia. f_equal. lia. }
  rewrite Hb. set (p := default Byte.x00 (d !! Z.to_nat (m_current l))).
  pose proof (fun m => after_visit_shift (len q) m (set_again false l)) as A.
  pose proof (fun m t => after_visit_shift (len q) m
    (set_ctx (set_trail t (ctx l)) (set_again false l))) as A'.
  pose proof (fun t n sv ev => start_aggregate_shift (len q) t n sv ev (set_again false l)) as B.
  repeat (match goal with |- context [if ?c then _ else _] => destruct c end);
    try (apply A); try (apply A'); try (apply B); try done.
  rewrite (error_offsets _ _ (wrap 64 (m_current l - 1)) (m_current l)).
  by destruct (parse_error _ _ _).
Qed.

Lemma exec_body_shift l :
  0 <= m_current l < len d ->
  exec_body (q ++ d) (shift (len q) l) = shift_flow (len q) (exec_body d l).
Proof.
  intros Hp. unfold exec_body. simpl.
  assert (Hc : forall l', 0 <= m_current l' ->
    (if negb (is_header (m_cs (ctx l'))) || fixed_trail_again l'
     then exec_trail (q ++ d) (shift (len q) l') else Go (shift (len q) l')) =
    shift_flow (len q) (if negb (is_header (m_cs (ctx l'))) || fixed_trail_again l'
                        then exec_trail d l' else Go l')).
  { intros l' Hl. destruct (_ || _); [by apply exec_trail_shift|done]. }
  destruct (is_header (m_cs (ctx l))) eqn:Eh.
  - rewrite exec_header_shift by lia.
    pose proof (exec_header_ok d l Hp) as H.
    destruct (exec_header d l) as [l'| |]; try done. simpl in H.
    assert (Hl : 0 <= m_current l')
      by (destruct (fixed_trail_again l'); [lia|]; destruct H as [_ [H _]]; lia).
    exact (Hc l' Hl).
  - exact (Hc l ltac:(lia)).
Qed.

Lemma exec_iter_shift l :
  0 <= m_current l < len d ->
  exec_iter (q ++ d) (shift (len q) l) = shift_flow (len q) (exec_iter d l).
Proof.
  intros Hp. unfold exec_iter. rewrite exec_body_shift by done.
  destruct (exec_body d l) as [l'| |]; simpl; try done. rewrite len_app.
  destruct (Z.eqb_spec (m_current l' + len q) (len q + len d)),
    (Z.eqb_spec (m_current l') (len d)); try lia; done.
Qed.

(** The loop stays at non-negative positions, so it shifts as a whole. *)
Lemma exec_loop_shift : forall fuel l,
  loop_ok d l ->
  exec_loop fuel (q ++ d) (shift (len q) l) = shift_flow (len q) <$> exec_loop fuel d l.
Proof.
  induction fuel as [|fuel IH]; intros l Hl; cbn [exec_loop];
    rewrite exec_iter_shift by (destruct Hl; lia);
    destruct (exec_iter d l) as [l'| |] eqn:Hi; simpl; try done.
  apply IH. pose proof (exec_body_ok d l Hl) as H. unfold exec_iter in Hi.
  destruct (exec_body d l) as [l0| |]; try done.
  destruct (Z.eqb_spec (m_current l0) (len d)); [done|]. injection Hi as ->.
  destruct H as (Hm & Hle & Hc & Ha). destruct Hl as [Hp _].
  split_and!; [lia|lia|exact Hc|naive_solver].
Qed.

End Shift.

(** ** One call on the bytes to come *)

Section Run.
Context {V E : Type} `{VI : !Visitor V E}.
Hypothesis error_offsets : forall a b a' b' v, parse_error a b v = parse_error a' b' v.
Implicit Types (c : context V) (q d : bytes).

(** What a call ends with: the bytes it left and the context, or an exception. *)
Inductive ran :=
| Ran (r : parse_return) (rest : bytes) (c : context V)
| Raised (e : E) (c : context V).

Definition ran_of (d : bytes) (x : option (flow V E)) : option ran :=
  match x with
  | Some (Ret r n c) => Some (Ran r (drop (Z.to_nat n) d) c)
  | Some (Exc e c) => Some (Raised e c)
  | _ => None
  end.

Definition run (d : bytes) (c : context V) : option ran := ran_of d (execute d 0 c).

Definition fed (d2 : bytes) (x : ran) : ran :=
  match x with Ran r rest c => Ran r (rest ++ d2) c | Raised e c => Raised e c end.

Lemma execute_run q d c :
  ctx_ok c -> ran_of (q ++ d) (execute (q ++ d) (len q) c) = run d c.
Proof.
  intros Hc. unfold run. destruct (decide (d = [])) as [->|Hne].
  { unfold execute. rewrite app_nil_r, Z.eqb_refl. simpl. by rewrite drop_ge_nil by lia. }
  pose proof (len_nonneg q).
  assert (0 < len d) by (destruct d; [done|]; rewrite len_cons; pose proof (len_nonneg d); lia).
  pose proof (execute_returns (q ++ d) (len q) c ltac:(rewrite len_app; lia) Hc) as R1.
  pose proof (execute_returns d 0 c ltac:(lia) Hc) as R2.
  destruct (execute d 0 c) as [f|] eqn:E2; [|done].
  apply execute_runs in E2 as [fuel Hf]; [|lia|lia|done].
  assert (Hl : loop_ok d (resumed 0 c)) by (split_and!; simpl; [lia|lia|exact Hc|done]).
  pose proof (exec_loop_shift error_offsets q d fuel _ Hl) as Hs. rewrite Hf in Hs. simpl in Hs.
  assert (Ex : execute (q ++ d) (len q) c = Some (shift_flow (len q) f)).
  { apply execute_runs; [rewrite len_app; lia|rewrite len_app; lia|done|]. exists fuel.
    rewrite <- Hs. unfold resumed, shift, set_current. simpl. by rewrite Z.add_0_l. }
  rewrite Ex. destruct f as [l|r n c'|e c']; simpl; try done. do 2 f_equal.
  simpl in R2. unfold len.
  replace (Z.to_nat (n + Z.of_nat (length q))) with (length q + Z.to_nat n)%nat by lia.
  by rewrite drop_app_add.
Qed.

Lemma run_total d c : ctx_ok c -> exists x, run d c = Some x.
Proof.
  intros Hc. pose proof (execute_returns d 0 c) as H. unfold run.
  destruct (execute d 0 c) as [[]|]; simpl; eauto; exfalso; apply H; auto;
    pose proof (len_nonneg d); lia.
Qed.

Lemma run_ctx_ok d c rest c' :
  ctx_ok c -> run d c = Some (Ran PARSE_CONTINUE rest c') -> ctx_ok c'.
Proof.
  intros Hc H. pose proof (execute_returns d 0 c) as R. unfold run in H.
  pose proof (len_nonneg d). destruct (execute d 0 c) as [[]|]; try done. simpl in H, R.
  simplify_eq. apply R; [lia|done|done].
Qed.

(** More bytes after a call that wanted more: resuming is the same as having
    had them at first. *)
Lemma run_more d d2 c rest c' :
  ctx_ok c -> run d c = Some (Ran PARSE_CONTINUE rest c') ->
  run (d ++ d2) c = run (rest ++ d2) c'.
Proof.
  intros Hc H. pose proof (run_ctx_ok d c rest c' Hc H) as Hc'. unfold run in H.
  pose proof (len_nonneg d). pose proof (execute_returns d 0 c ltac:(lia) Hc) as R.
  destruct (execute d 0 c) as [[l|r n c1|e c1]|] eqn:Ex; try done. simpl in H, R. simplify_eq.
  pose proof (execute_extend d d2 0 c _ ltac:(lia) Hc Ex) as He. cbv beta iota in He.
  unfold run at 1. rewrite <- He.
  assert (Hn : len (take (Z.to_nat n) d) = n) by (unfold len in *; rewrite length_take; lia).
  rewrite <- (execute_run (take (Z.to_nat n) d)) by done.
  by rewrite app_assoc, take_drop, Hn.
Qed.

(** More bytes after a call that ended otherwise are left alone. *)
Lemma run_stop d d2 c x :
  ctx_ok c -> run d c = Some x -> (forall rest c', x <> Ran PARSE_CONTINUE rest c') ->
  run (d ++ d2) c = Some (fed d2 x).
Proof.
  intros Hc H Hx. unfold run in *.
  pose proof (len_nonneg d). pose proof (execute_returns d 0 c ltac:(lia) Hc) as R.
  destruct (execute d 0 c) as [[l|r n c1|e c1]|] eqn:Ex; try done; simpl in H, R; simplify_eq;
    pose proof (execute_extend d d2 0 c _ ltac:(lia) Hc Ex) as He; cbv beta iota in He.
  - assert (Er : execute (d ++ d2) 0 c = Some (Ret r n c1)) by (destruct r; try done; by edestruct Hx).
    rewrite Er. simpl. unfold len in *. by rewrite drop_app_le by lia.
  - by rewrite He.
Qed.

End Run.

Arguments ran : clear implicits.

Lemma create_error_offsets a b a' b' (v : visitor) :
  parse_error (E:=unpack_exn) a b v = parse_error a' b' v.
Proof. done. Qed.

(** From an idle context, one call reads one object. *)
Definition runs_as (d : bytes) (c : context visitor) (R : outcome object)
    (x : option (ran visitor unpack_exn)) : Prop :=
  match R with
  | Done o rest => exists c', x = Some (Ran PARSE_SUCCESS rest c') /\ m_stack c' = [] /\
      built (0, 0) o (holder c) (holder c')
  | Short => exists rest c', x = Some (Ran PARSE_CONTINUE rest c')
  | Fail e => exists c', x = Some (Raised e c')
  | NoFuel => False
  end.

Lemma run_decode d c :
  len d < 2 ^ 32 -> idle c -> runs_as d c (decode (m_limit (holder c)) d) (run d c).
Proof.
  intros Hsz Hi. pose proof (execute_decode d [] d c Hsz eq_refl Hi) as H. unfold run.
  change (len []) with 0 in H. destruct (decode _ d) as [o rest| |e|]; simpl in H |- *; try done.
  - destruct H as (q' & c' & Hd & -> & Hs & Hb). exists c'. split_and!; [|done|done]. simpl.
    rewrite Hd at 1. by rewrite drop_len_app.
  - destruct H as (n & c' & ->). simpl. eauto.
  - destruct H as (c' & ->). simpl. eauto.
Qed.
