(* ===== verification/Unpacker.v ===== *)
(** * The unpacker and its buffer

    Models [parser] (v2/parse.hpp) and [unpacker] (v2/unpack.hpp): the growing
    buffer the bytes are received into, with its reference count
    ([init_count], [decr_count], [incr_count], [get_count] of v1/unpack.hpp), and
    the zone whose finalizers release the buffers the objects refer to.

    A buffer is an identity with a count; [counts] holds the live ones. The
    receiving side writes into it and says how much ([buffer_consumed]).
    [malloc_ok] decides which allocations succeed. *)

From S2P Require Import Prelude Alloc FloatBits MsgObject Parse ParseLoop Visitor Format Tokens Decode Stream.

Definition COUNTER_SIZE : Z := 4.

Inductive unpacker_exn :=
| bad_alloc
| unpack_error (e : unpack_exn)
| use_after_free | buffer_overflow | out_of_fuel.   (* undefined behaviour; no fuel *)

Record unpacker := {
  mem : bytes;                   (* the bytes of m_buffer, counter included *)
  m_buffer : Z;
  m_used : Z;
  m_free : Z;
  m_off : Z;
  m_parsed : Z;
  m_initial_buffer_size : Z;
  cx : context visitor;
  m_z : list Z;                  (* the zone's finalizers: buffers, last pushed first *)
  counts : gmap Z Z;             (* the live buffers and their counts *)
  next_id : Z;
}.

Definition set_buffer (m : bytes) (b used free off : Z) (s : unpacker) : unpacker :=
  {| mem := m; m_buffer := b; m_used := used; m_free := free; m_off := off;
     m_parsed := m_parsed s; m_initial_buffer_size := m_initial_buffer_size s; cx := cx s;
     m_z := m_z s; counts := counts s; next_id := next_id s |}.
Definition set_parsed (n : Z) (s : unpacker) : unpacker :=
  {| mem := mem s; m_buffer := m_buffer s; m_used := m_used s; m_free := m_free s;
     m_off := m_off s; m_parsed := n; m_initial_buffer_size := m_initial_buffer_size s;
     cx := cx s; m_z := m_z s; counts := counts s; next_id := next_id s |}.
Definition set_cx (c : context visitor) (s : unpacker) : unpacker :=
  {| mem := mem s; m_buffer := m_buffer s; m_used := m_used s; m_free := m_free s;
     m_off := m_off s; m_parsed := m_parsed s;
     m_initial_buffer_size := m_initial_buffer_size s; cx := c; m_z := m_z s;
     counts := counts s; next_id := next_id s |}.
Definition set_zone (z : list Z) (s : unpacker) : unpacker :=
  {| mem := mem s; m_buffer := m_buffer s; m_used := m_used s; m_free := m_free s;
     m_off := m_off s; m_parsed := m_parsed s;
     m_initial_buffer_size := m_initial_buffer_size s; cx := cx s; m_z := z;
     counts := counts s; next_id := next_id s |}.
Definition set_counts (h : gmap Z Z) (s : unpacker) : unpacker :=
  {| mem := mem s; m_buffer := m_buffer s; m_used := m_used s; m_free := m_free s;
     m_off := m_off s; m_parsed := m_parsed s;
     m_initial_buffer_size := m_initial_buffer_size s; cx := cx s; m_z := m_z s;
     counts := h; next_id := next_id s |}.

(** ** Operations: a state and error monad *)

Definition M (A : Type) : Type := unpacker -> res unpacker_exn A * unpacker.

Definition ret {A} (a : A) : M A := fun s => (Ok a, s).
Definition throw {A} (e : unpacker_exn) : M A := fun s => (Throw e, s).
Definition bind {A B} (m : M A) (k : A -> M B) : M B := fun s =>
  match m s with (Ok a, s) => k a s | (Throw e, s) => (Throw e, s) end.
Definition get : M unpacker := fun s => (Ok s, s).
Definition modify (f : unpacker -> unpacker) : M unit := fun s => (Ok tt, f s).

Declare Scope unpacker_scope.
Delimit Scope unpacker_scope with unpacker.
Notation "'let!' x := m 'in' k" := (bind m (fun x => k))
  (at level 10, x pattern, m at level 100, k at level 200) : unpacker_scope.
#[local] Open Scope unpacker_scope.

(** ** The counts *)

Definition init_count (b : Z) : M unit := modify (fun s => set_counts (<[b := 1]> (counts s)) s).

Definition get_count (b : Z) : M Z := fun s =>
  match counts s !! b with Some n => (Ok n, s) | None => (Throw use_after_free, s) end.

Definition incr_count (b : Z) : M unit :=
  let! n := get_count b in modify (fun s => set_counts (<[b := n + 1]> (counts s)) s).

(** Freed when it reaches zero. *)
Definition decr_count (b : Z) : M unit :=
  let! n := get_count b in
  modify (fun s => set_counts (if n - 1 =? 0 then delete b (counts s)
                               else <[b := n - 1]> (counts s)) s).

Definition fresh : M Z := fun s =>
  (Ok (next_id s),
   {| mem := mem s; m_buffer := m_buffer s; m_used := m_used s; m_free := m_free s;
      m_off := m_off s; m_parsed := m_parsed s;
      m_initial_buffer_size := m_initial_buffer_size s; cx := cx s; m_z := m_z s;
      counts := counts s; next_id := next_id s + 1 |}).

Definition push_finalizer (b : Z) : M unit := modify (fun s => set_zone (b :: m_z s) s).

(** [~zone]: the finalizers, last pushed first. *)
Fixpoint call_finalizers (z : list Z) : M unit :=
  match z with
  | [] => ret tt
  | b :: z => let! _ := decr_count b in call_finalizers z
  end.

Definition referenced (s : unpacker) : bool := m_referenced (holder (cx s)).
Definition set_ref (b : bool) (s : unpacker) : unpacker :=
  set_cx {| m_trail := m_trail (cx s); m_cs := m_cs (cx s); m_stack := m_stack (cx s);
            holder := set_referenced b (holder (cx s)) |} s.

Section Alloc.
Variable malloc_ok : Z -> bool.

(** ** [reserve_buffer] *)

Definition counter_bytes : bytes := replicate 4 Byte.x00.

Definition rewind (s : unpacker) : unpacker :=
  set_buffer (mem s) (m_buffer s) COUNTER_SIZE (wrap 64 (m_free s + (m_used s - COUNTER_SIZE)))
    COUNTER_SIZE s.

(** The buffer has nothing parsed in front: it is enlarged in place. *)
Definition realloc_buffer (size : Z) : M unit :=
  let! s := get in
  match grow 64 (wrap 64 ((m_used s + m_free s) * 2)) (wrap 64 (size + m_used s)) with
  | None => throw out_of_fuel
  | Some next_size =>
    if malloc_ok next_size then
      modify (set_buffer (mem s) (m_buffer s) (m_used s) (wrap 64 (next_size - m_used s)) (m_off s))
    else throw bad_alloc
  end.

(** A new buffer takes what is not parsed; the old one goes to the zone when
    objects refer to it. *)
Definition replace_buffer (size : Z) : M unit :=
  let! s := get in
  let not_parsed := wrap 64 (m_used s - m_off s) in
  match grow 64 (m_initial_buffer_size s) (wrap 64 (size + not_parsed + COUNTER_SIZE)) with
  | None => throw out_of_fuel
  | Some next_size =>
    if malloc_ok next_size then
      let! tmp := fresh in
      let! _ := init_count tmp in
      let! _ := (if referenced s then
                   let! _ := push_finalizer (m_buffer s) in modify (set_ref false)
                 else decr_count (m_buffer s)) in
      let used := wrap 64 (not_parsed + COUNTER_SIZE) in
      modify (set_buffer (counter_bytes ++ slice (mem s) (m_off s) not_parsed) tmp
                used (wrap 64 (next_size - used)) COUNTER_SIZE)
    else throw bad_alloc
  end.

Definition expand_buffer (size : Z) : M unit :=
  let! s := get in
  let! n := (if m_used s =? m_off s then get_count (m_buffer s) else ret 0) in
  let rewinds := (m_used s =? m_off s) && (n =? 1) && negb (referenced s) in
  let! _ := (if rewinds then modify rewind else ret tt) in
  let! s := get in
  if rewinds && (size <=? m_free s) then ret tt
  else if m_off s =? COUNTER_SIZE then realloc_buffer size
  else replace_buffer size.

Definition reserve_buffer (size : Z) : M unit :=
  let! s := get in if size <=? m_free s then ret tt else expand_buffer size.

(** ** Receiving *)

Definition buffer_capacity (s : unpacker) : Z := m_free s.

(** What the caller does between [buffer()] and [buffer_consumed]: it writes
    [d] at [buffer()]. *)
Definition write_buffer (d : bytes) : M unit :=
  let! s := get in
  if m_free s <? len d then throw buffer_overflow
  else modify (set_buffer (take (Z.to_nat (m_used s)) (mem s) ++ d) (m_buffer s) (m_used s)
                 (m_free s) (m_off s)).

Definition buffer_consumed (size : Z) : M unit :=
  modify (fun s => set_buffer (mem s) (m_buffer s) (wrap 64 (m_used s + size))
                     (wrap 64 (m_free s - size)) (m_off s) s).

(** ** [next] *)

Definition execute_imp : M parse_return :=
  let! s := get in
  match execute (take (Z.to_nat (m_used s)) (mem s)) (m_off s) (cx s) with
  | Some (Ret r off c) =>
    let! _ := modify (fun s => set_cx c
                (set_buffer (mem s) (m_buffer s) (m_used s) (m_free s) off s)) in
    let! _ := (if m_off s <? off
               then modify (fun t => set_parsed (wrap 64 (m_parsed s + (off - m_off s))) t)
               else ret tt) in
    ret r
  | Some (Exc e c) => let! _ := modify (set_cx c) in throw (unpack_error e)
  | _ => throw out_of_fuel
  end.

Definition parser_next : M bool :=
  let! r := execute_imp in
  ret (match r with PARSE_SUCCESS => true | _ => false end).

Definition reset : M unit := modify (fun s => set_parsed 0 (set_cx (init (cx s)) s)).

(** [push_finalizer] does not fail here, so [flush_zone] returns true. *)
Definition flush_zone : M unit :=
  let! s := get in
  if referenced s then
    let! _ := push_finalizer (m_buffer s) in
    let! _ := modify (set_ref false) in
    incr_count (m_buffer s)
  else ret tt.

(** The old zone goes to the caller, a new one takes its place. *)
Definition release_zone : M (list Z) :=
  let! _ := flush_zone in
  let! s := get in
  let! _ := modify (set_zone []) in
  ret (m_z s).

(** An [object_handle]: the memory the object is read from, and its zone. *)
Record object_handle := {
  h_cells : gmap ptr cell;
  h_zone : option (list Z);
}.

Definition empty_handle : object_handle :=
  {| h_cells := {[ (0, 0) := CNil ]}; h_zone := None |}.

Definition h_get (fuel : nat) (h : object_handle) : option object :=
  h_cells h !! (0, 0) ≫= read_object fuel (h_cells h).

Definition next : M (bool * object_handle * bool) :=
  let! b := parser_next in
  if b : bool then
    let! s := get in
    let is_referenced := referenced s in
    let! z := release_zone in
    let! _ := reset in
    ret (true, {| h_cells := cells (holder (cx s)); h_zone := Some z |}, is_referenced)
  else ret (false, empty_handle, false).

(** [~object_handle] *)
Definition drop_handle (h : object_handle) : M unit :=
  match h_zone h with Some z => call_finalizers z | None => ret tt end.

(** [~unpacker]: the zone goes first, then the parser's buffer. *)
Definition destroy : M unit :=
  let! s := get in
  let! _ := call_finalizers (m_z s) in
  let! _ := modify (set_zone []) in
  decr_count (m_buffer s).

(** ** The bookkeeping of unparsed bytes *)

Definition message_size (s : unpacker) : Z := wrap 64 (m_parsed s - m_off s + m_used s).
Definition parsed_size (s : unpacker) : Z := m_parsed s.
Definition nonparsed_buffer (s : unpacker) : bytes := drop (Z.to_nat (m_off s)) (mem s).
Definition nonparsed_size (s : unpacker) : Z := wrap 64 (m_used s - m_off s).
Definition skip_nonparsed_buffer (size : Z) : M unit :=
  modify (fun s => set_buffer (mem s) (m_buffer s) (m_used s) (m_free s)
                     (wrap 64 (m_off s + size)) s).
Definition remove_nonparsed_buffer : M unit :=
  modify (fun s => set_buffer (mem s) (m_buffer s) (m_off s) (m_free s) (m_off s) s).

(** ** Construction *)

Definition new_unpacker (f : raw_type -> Z -> bool) (initial_buffer_size : Z)
    (limit : unpack_limit) : res unpacker_exn unpacker :=
  let initial := if initial_buffer_size <? COUNTER_SIZE then COUNTER_SIZE
                 else initial_buffer_size in
  if malloc_ok initial then
    Ok {| mem := counter_bytes; m_buffer := 0; m_used := COUNTER_SIZE;
          m_free := wrap 64 (initial - COUNTER_SIZE); m_off := COUNTER_SIZE; m_parsed := 0;
          m_initial_buffer_size := initial; cx := new_context (new_visitor (Some f) limit);
          m_z := []; counts := {[ 0 := 1 ]}; next_id := 1 |}
  else Throw bad_alloc.

End Alloc.

Definition default_reference_func (t : raw_type) (n : Z) : bool := true.
Definition MSGPACK_UNPACKER_INIT_BUFFER_SIZE : Z := 64 * 1024.

(** ** The read loop of the client and of the sessions

    After each read: the bytes are announced, every complete object is taken
    out, and room is made for the next read. *)

#[local] Open Scope unpacker_scope.

Fixpoint drain (fuel : nat) : M (list object_handle) :=
  match fuel with
  | O => throw out_of_fuel
  | S f =>
    let! (b, h, _) := next in
    if b : bool then let! hs := drain f in ret (h :: hs) else ret []
  end.

Definition on_chunk (malloc_ok : Z -> bool) (max_read_bytes : Z) (d : bytes)
    : M (list object_handle) :=
  let! _ := write_buffer d in
  let! _ := buffer_consumed (len d) in
  let! s := get in
  let! hs := drain (S (S (length (nonparsed_buffer s)))) in
  let! s := get in
  let! _ := (if buffer_capacity s <? max_read_bytes then reserve_buffer malloc_ok max_read_bytes
             else ret tt) in
  ret hs.

Fixpoint on_chunks (malloc_ok : Z -> bool) (max_read_bytes : Z) (ds : list bytes)
    : M (list object_handle) :=
  match ds with
  | [] => ret []
  | d :: ds =>
    let! hs := on_chunk malloc_ok max_read_bytes d in
    let! hs' := on_chunks malloc_ok max_read_bytes ds in
    ret (hs ++ hs')
  end.

(** The life of a connection's unpacker: construction is apart; room for the first
    read, the reads, the handles dropped, the end. *)
Fixpoint drop_handles (hs : list object_handle) : M unit :=
  match hs with
  | [] => ret tt
  | h :: hs => let! _ := drop_handle h in drop_handles hs
  end.

Definition lifetime (malloc_ok : Z -> bool) (max_read_bytes : Z) (ds : list bytes) : M unit :=
  let! _ := reserve_buffer malloc_ok max_read_bytes in
  let! hs := on_chunks malloc_ok max_read_bytes ds in
  let! _ := drop_handles hs in
  destroy.
