(* ===== verification/UnpackerV1.v ===== *)
(** * The older unpacker

    Models class [unpacker] of v1/unpack.hpp, what rpclib receives with when it is built with
    MSGPACK_DEFAULT_API_VERSION 1: the buffer with its reference count, around the parser of
    UnpackV1 instead of a visitor.

    A buffer is an identity with a count, as in Unpacker. The zone is its finalizers and the
    memory of the objects, which UnpackV1 keeps with the [unpack_user]. An operation that
    throws leaves a state that nothing is said of. *)

From S2P Require Import Prelude Alloc FloatBits MsgObject Parse Visitor UnpackV1.
From S2P Require Unpacker.
Import Unpacker (unpacker_exn, bad_alloc, unpack_error, use_after_free, buffer_overflow, out_of_fuel,
  COUNTER_SIZE, counter_bytes, default_reference_func).

Record unpacker := {
  mem : bytes;                   (* the bytes of m_buffer, counter included *)
  m_buffer : Z;
  m_used : Z;
  m_free : Z;
  m_off : Z;
  m_parsed : Z;
  m_z : list Z;                  (* the zone's finalizers: buffers, last pushed first *)
  m_initial_buffer_size : Z;
  m_ctx : UnpackV1.context;
  counts : gmap Z Z;             (* the live buffers and their counts *)
  next_id : Z;
}.

Definition set_buffer (m : bytes) (b used free off : Z) (s : unpacker) : unpacker :=
  {| mem := m; m_buffer := b; m_used := used; m_free := free; m_off := off; m_parsed := m_parsed s;
     m_z := m_z s; m_initial_buffer_size := m_initial_buffer_size s; m_ctx := m_ctx s;
     counts := counts s; next_id := next_id s |}.
Definition set_parsed (n : Z) (s : unpacker) : unpacker :=
  {| mem := mem s; m_buffer := m_buffer s; m_used := m_used s; m_free := m_free s; m_off := m_off s;
     m_parsed := n; m_z := m_z s; m_initial_buffer_size := m_initial_buffer_size s; m_ctx := m_ctx s;
     counts := counts s; next_id := next_id s |}.
Definition set_finalizers (z : list Z) (s : unpacker) : unpacker :=
  {| mem := mem s; m_buffer := m_buffer s; m_used := m_used s; m_free := m_free s; m_off := m_off s;
     m_parsed := m_parsed s; m_z := z; m_initial_buffer_size := m_initial_buffer_size s;
     m_ctx := m_ctx s; counts := counts s; next_id := next_id s |}.
Definition set_context (c : UnpackV1.context) (s : unpacker) : unpacker :=
  {| mem := mem s; m_buffer := m_buffer s; m_used := m_used s; m_free := m_free s; m_off := m_off s;
     m_parsed := m_parsed s; m_z := m_z s; m_initial_buffer_size := m_initial_buffer_size s; m_ctx := c;
     counts := counts s; next_id := next_id s |}.
Definition set_counts (h : gmap Z Z) (s : unpacker) : unpacker :=
  {| mem := mem s; m_buffer := m_buffer s; m_used := m_used s; m_free := m_free s; m_off := m_off s;
     m_parsed := m_parsed s; m_z := m_z s; m_initial_buffer_size := m_initial_buffer_size s;
     m_ctx := m_ctx s; counts := h; next_id := next_id s |}.
Definition set_next_id (n : Z) (s : unpacker) : unpacker :=
  {| mem := mem s; m_buffer := m_buffer s; m_used := m_used s; m_free := m_free s; m_off := m_off s;
     m_parsed := m_parsed s; m_z := m_z s; m_initial_buffer_size := m_initial_buffer_size s;
     m_ctx := m_ctx s; counts := counts s; next_id := n |}.

(** ** Operations *)

Definition M (A : Type) : Type := unpacker -> res unpacker_exn (A * unpacker).

Definition ret {A} (a : A) : M A := fun s => Ok (a, s).
Definition throw {A} (e : unpacker_exn) : M A := fun s => Throw e.
Definition bind {A B} (m : M A) (k : A -> M B) : M B := fun s =>
  match m s with Ok (a, s) => k a s | Throw e => Throw e end.
Definition get : M unpacker := fun s => Ok (s, s).
Definition modify (f : unpacker -> unpacker) : M unit := fun s => Ok (tt, f s).

Declare Scope unpacker1_scope.
Delimit Scope unpacker1_scope with unpacker1.
Notation "'let#' x := m 'in' k" := (bind m (fun x => k))
  (at level 10, x pattern, m at level 100, k at level 200) : unpacker1_scope.
#[local] Open Scope unpacker1_scope.

(** ** The counts *)

Definition init_count (b : Z) : M unit := modify (fun s => set_counts (<[b := 1]> (counts s)) s).

Definition get_count (b : Z) : M Z := fun s =>
  match counts s !! b with Some n => Ok (n, s) | None => Throw use_after_free end.

Definition incr_count (b : Z) : M unit :=
  let# n := get_count b in modify (fun s => set_counts (<[b := n + 1]> (counts s)) s).

(** Freed when it reaches zero. *)
Definition decr_count (b : Z) : M unit :=
  let# n := get_count b in
  modify (fun s => set_counts (if n - 1 =? 0 then delete b (counts s) else <[b := n - 1]> (counts s)) s).

Definition fresh : M Z := fun s => Ok (next_id s, set_next_id (next_id s + 1) s).

(** ** The zone *)

Definition push_finalizer (b : Z) : M unit := modify (fun s => set_finalizers (b :: m_z s) s).

Fixpoint call_finalizers (z : list Z) : M unit :=
  match z with
  | [] => ret tt
  | b :: z => let# _ := decr_count b in call_finalizers z
  end.

(** [m_ctx.user()] *)
Definition user (s : unpacker) : unpack_user := m_user (m_ctx s).
Definition set_user (u : unpack_user) (s : unpacker) : unpacker :=
  set_context (set_stack (m_stack (m_ctx s)) u (m_ctx s)) s.

(** [set_zone] of a zone that holds no object. *)
Definition empty_zone (u : unpack_user) : unpack_user := set_blocks [] (set_cells ∅ u).

(** [zone::clear] *)
Definition reset_zone : M unit :=
  let# s := get in
  let# _ := call_finalizers (m_z s) in
  modify (fun s => set_finalizers [] (set_user (empty_zone (user s)) s)).

Section Alloc.
Variable malloc_ok : Z -> bool.

(** ** Construction *)

Definition new_unpacker (f : raw_type -> Z -> bool) (initial_buffer_size : Z) (limit : unpack_limit)
    : res unpacker_exn unpacker :=
  let initial := if initial_buffer_size <? COUNTER_SIZE then COUNTER_SIZE else initial_buffer_size in
  if malloc_ok initial then
    Ok {| mem := counter_bytes; m_buffer := 0; m_used := COUNTER_SIZE;
          m_free := wrap 64 (initial - COUNTER_SIZE); m_off := COUNTER_SIZE; m_parsed := 0; m_z := [];
          m_initial_buffer_size := initial; m_ctx := init (new_context (new_user (Some f) limit));
          counts := {[ 0 := 1 ]}; next_id := 1 |}
  else Throw bad_alloc.

(** ** [reserve_buffer] *)

Definition rewind (s : unpacker) : unpacker :=
  set_buffer (mem s) (m_buffer s) COUNTER_SIZE (wrap 64 (m_free s + (m_used s - COUNTER_SIZE)))
    COUNTER_SIZE s.

Definition realloc_buffer (size : Z) : M unit :=
  let# s := get in
  match grow 64 (wrap 64 ((m_used s + m_free s) * 2)) (wrap 64 (size + m_used s)) with
  | None => throw out_of_fuel
  | Some next_size =>
    if malloc_ok next_size then
      modify (set_buffer (mem s) (m_buffer s) (m_used s) (wrap 64 (next_size - m_used s)) (m_off s))
    else throw bad_alloc
  end.

Definition replace_buffer (size : Z) : M unit :=
  let# s := get in
  let not_parsed := wrap 64 (m_used s - m_off s) in
  match grow 64 (m_initial_buffer_size s) (wrap 64 (size + not_parsed + COUNTER_SIZE)) with
  | None => throw out_of_fuel
  | Some next_size =>
    if malloc_ok next_size then
      let# tmp := fresh in
      let# _ := init_count tmp in
      let# _ := (if m_referenced (user s) then
                   let# _ := push_finalizer (m_buffer s) in
                   modify (fun s => set_user (set_referenced false (user s)) s)
                 else decr_count (m_buffer s)) in
      let used := wrap 64 (not_parsed + COUNTER_SIZE) in
      modify (set_buffer (counter_bytes ++ slice (mem s) (m_off s) not_parsed) tmp used
                (wrap 64 (next_size - used)) COUNTER_SIZE)
    else throw bad_alloc
  end.

Definition expand_buffer (size : Z) : M unit :=
  let# s := get in
  let# n := (if m_used s =? m_off s then get_count (m_buffer s) else ret 0) in
  let rewinds := (m_used s =? m_off s) && (n =? 1) && negb (m_referenced (user s)) in
  let# _ := (if rewinds then modify rewind else ret tt) in
  let# s := get in
  if rewinds && (size <=? m_free s) then ret tt
  else if m_off s =? COUNTER_SIZE then realloc_buffer size
  else replace_buffer size.

Definition reserve_buffer (size : Z) : M unit :=
  let# s := get in if size <=? m_free s then ret tt else expand_buffer size.

End Alloc.

(** ** Receiving *)

Definition buffer_capacity (s : unpacker) : Z := m_free s.

(** What the caller writes at [buffer()]. *)
Definition write_buffer (d : bytes) : M unit :=
  let# s := get in
  if m_free s <? len d then throw buffer_overflow
  else modify (set_buffer (take (Z.to_nat (m_used s)) (mem s) ++ d) (m_buffer s) (m_used s) (m_free s)
                 (m_off s)).

Definition buffer_consumed (size : Z) : M unit :=
  modify (fun s => set_buffer (mem s) (m_buffer s) (wrap 64 (m_used s + size))
                     (wrap 64 (m_free s - size)) (m_off s) s).

(** ** Objects *)

Definition execute_imp : M Z :=
  let# s := get in
  match UnpackV1.execute (take (Z.to_nat (m_used s)) (mem s)) (m_off s) (m_ctx s) with
  | Some (Ret r off c) =>
    let# _ := modify (fun s => set_context c (set_buffer (mem s) (m_buffer s) (m_used s) (m_free s) off s)) in
    let# _ := (if m_off s <? off
               then modify (fun t => set_parsed (wrap 64 (m_parsed s + (off - m_off s))) t)
               else ret tt) in
    ret r
  | Some (Exc e) => throw (unpack_error e)
  | _ => throw out_of_fuel
  end.

Definition execute : M bool :=
  let# r := execute_imp in
  if r <? 0 then throw (unpack_error parse_error_exn)
  else if r =? 0 then ret false
  else ret true.

Definition data (s : unpacker) : option cell := UnpackV1.data (m_ctx s).

Definition reset : M unit := modify (fun s => set_parsed 0 (set_context (init (m_ctx s)) s)).

(** [push_finalizer] does not fail here, so [flush_zone] returns true. *)
Definition flush_zone : M unit :=
  let# s := get in
  if m_referenced (user s) then
    let# _ := push_finalizer (m_buffer s) in
    let# _ := modify (fun s => set_user (set_referenced false (user s)) s) in
    incr_count (m_buffer s)
  else ret tt.

(** The old zone goes to the caller with the memory of its objects, a new one takes its place. *)
Definition release_zone : M (gmap ptr cell * list Z) :=
  let# _ := flush_zone in
  let# s := get in
  let# _ := modify (fun s => set_user (empty_zone (user s)) (set_finalizers [] s)) in
  ret (cells (user s), m_z s).

(** An [object_handle]: the object, the memory it refers to, and its zone. *)
Record object_handle := {
  h_obj : option cell;
  h_cells : gmap ptr cell;
  h_zone : option (list Z);
}.

Definition empty_handle : object_handle := {| h_obj := Some CNil; h_cells := ∅; h_zone := None |}.

Definition h_get (fuel : nat) (h : object_handle) : option object :=
  h_obj h ≫= read_object fuel (h_cells h).

Definition next : M (bool * object_handle * bool) :=
  let# r := execute_imp in
  if r <? 0 then throw (unpack_error parse_error_exn)
  else if r =? 0 then ret (false, empty_handle, false)
  else
    let# s := get in
    let is_referenced := m_referenced (user s) in
    let# (memory, z) := release_zone in
    let# s := get in
    let o := data s in
    let# _ := reset in
    ret (true, {| h_obj := o; h_cells := memory; h_zone := Some z |}, is_referenced).

(** [~object_handle] *)
Definition drop_handle (h : object_handle) : M unit :=
  match h_zone h with Some z => call_finalizers z | None => ret tt end.

(** [~unpacker]: the count of the buffer, and then the members: the zone. *)
Definition destroy : M unit :=
  let# s := get in
  let# _ := decr_count (m_buffer s) in
  let# _ := call_finalizers (m_z s) in
  modify (set_finalizers []).

(** ** The bookkeeping of unparsed bytes *)

Definition message_size (s : unpacker) : Z := wrap 64 (m_parsed s - m_off s + m_used s).
Definition parsed_size (s : unpacker) : Z := m_parsed s.
Definition nonparsed_buffer (s : unpacker) : bytes := drop (Z.to_nat (m_off s)) (mem s).
Definition nonparsed_size (s : unpacker) : Z := wrap 64 (m_used s - m_off s).
Definition skip_nonparsed_buffer (size : Z) : M unit :=
  modify (fun s => set_buffer (mem s) (m_buffer s) (m_used s) (m_free s) (wrap 64 (m_off s + size)) s).
Definition remove_nonparsed_buffer : M unit :=
  modify (fun s => set_buffer (mem s) (m_buffer s) (m_off s) (m_free s) (m_off s) s).

(** ** The read loop of the client and of the sessions *)

Fixpoint drain (fuel : nat) : M (list object_handle) :=
  match fuel with
  | O => throw out_of_fuel
  | S f =>
    let# (b, h, _) := next in
    if b : bool then let# hs := drain f in ret (h :: hs) else ret []
  end.

Definition on_chunk (malloc_ok : Z -> bool) (max_read_bytes : Z) (d : bytes) : M (list object_handle) :=
  let# _ := write_buffer d in
  let# _ := buffer_consumed (len d) in
  let# s := get in
  let# hs := drain (S (S (length (nonparsed_buffer s)))) in
  let# s := get in
  let# _ := (if buffer_capacity s <? max_read_bytes then reserve_buffer malloc_ok max_read_bytes
             else ret tt) in
  ret hs.

Fixpoint on_chunks (malloc_ok : Z -> bool) (max_read_bytes : Z) (ds : list bytes)
    : M (list object_handle) :=
  match ds with
  | [] => ret []
  | d :: ds =>
    let# hs := on_chunk malloc_ok max_read_bytes d in
    let# hs' := on_chunks malloc_ok max_read_bytes ds in
    ret (hs ++ hs')
  end.

Fixpoint drop_handles (hs : list object_handle) : M unit :=
  match hs with
  | [] => ret tt
  | h :: hs => let# _ := drop_handle h in drop_handles hs
  end.

(** The life of a connection's unpacker. *)
Definition lifetime (malloc_ok : Z -> bool) (max_read_bytes : Z) (ds : list bytes) : M unit :=
  let# _ := reserve_buffer malloc_ok max_read_bytes in
  let# hs := on_chunks malloc_ok max_read_bytes ds in
  let# _ := drop_handles hs in
  destroy.
