(* ===== verification/Morphism.v ===== *)
(** * Maps between visitors

    A map that commutes with every call of two visitors commutes with the parser.
    It is used to disregard [m_referenced], which a change of buffer resets in
    the middle of an object. *)

From S2P Require Import Prelude FloatBits MsgObject Parse ParseLoop Visitor Stream.

Definition rmap {E V W} (h : V -> W) (m : res E (bool * V)) : res E (bool * W) :=
  match m with Ok (b, v) => Ok (b, h v) | Throw e => Throw e end.

(** The call with a value argument, and without. *)
Record morphism {V W E} (A : Visitor V E) (B : Visitor W E) (h : V -> W) : Prop := {
  h_nil v : visit_nil (h v) = rmap h (visit_nil v);
  h_boolean b v : visit_boolean b (h v) = rmap h (visit_boolean b v);
  h_positive z v : visit_positive_integer z (h v) = rmap h (visit_positive_integer z v);
  h_negative z v : visit_negative_integer z (h v) = rmap h (visit_negative_integer z v);
  h_float32 z v : visit_float32 z (h v) = rmap h (visit_float32 z v);
  h_float64 z v : visit_float64 z (h v) = rmap h (visit_float64 z v);
  h_str p n v : visit_str p n (h v) = rmap h (visit_str p n v);
  h_bin p n v : visit_bin p n (h v) = rmap h (visit_bin p n v);
  h_ext p n v : visit_ext p n (h v) = rmap h (visit_ext p n v);
  h_start_array n v : start_array n (h v) = rmap h (start_array n v);
  h_start_array_item v : start_array_item (h v) = rmap h (start_array_item v);
  h_end_array_item v : end_array_item (h v) = rmap h (end_array_item v);
  h_end_array v : end_array (h v) = rmap h (end_array v);
  h_start_map n v : start_map n (h v) = rmap h (start_map n v);
  h_start_map_key v : start_map_key (h v) = rmap h (start_map_key v);
  h_end_map_key v : end_map_key (h v) = rmap h (end_map_key v);
  h_start_map_value v : start_map_value (h v) = rmap h (start_map_value v);
  h_end_map_value v : end_map_value (h v) = rmap h (end_map_value v);
  h_end_map v : end_map (h v) = rmap h (end_map v);
  h_parse_error a b v : parse_error a b (h v) =
    match parse_error a b v with Ok v => Ok (h v) | Throw e => Throw e end;
}.

Section Morphism.
Context {V W E : Type} (A : Visitor V E) (B : Visitor W E) (h : V -> W).
Hypothesis H : morphism A B h.

Definition hctx (c : context V) : context W :=
  {| m_trail := m_trail c; m_cs := m_cs c; m_stack := m_stack c; holder := h (holder c) |}.
Definition hloop (l : loop V) : loop W :=
  {| ctx := hctx (ctx l); m_current := m_current l; fixed_trail_again := fixed_trail_again l |}.
Definition hflow (f : flow V E) : flow W E :=
  match f with
  | Go l => Go (hloop l)
  | Ret r n c => Ret r n (hctx c)
  | Exc e c => Exc e (hctx c)
  end.
Definition hres (m : res E parse_return * list stack_elem * V)
    : res E parse_return * list stack_elem * W :=
  match m with (r, st, v) => (r, st, h v) end.

Lemma call_h m st v k k' :
  (forall v, k' (h v) = hres (k v)) ->
  call (rmap h m) st (h v) k' = hres (call m st v k).
Proof. intros Hk. destruct m as [[[] v']|e]; simpl; auto. Qed.

Lemma push_h st t n v : push (VI:=B) st t n (h v) = hres (push (VI:=A) st t n v).
Proof.
  unfold push. destruct t; [rewrite (h_start_array_item _ _ _ H)|rewrite (h_start_map_key _ _ _ H)|done];
    by apply call_h.
Qed.

Lemma consume_h st v : consume (VI:=B) st (h v) = hres (consume (VI:=A) st v).
Proof.
  revert v. induction st as [|e st IH]; intros v; [done|]. cbn [consume]. destruct (m_type e).
  - rewrite (h_end_array_item _ _ _ H). apply call_h. intros v1. destruct (_ =? 0).
    + rewrite (h_end_array _ _ _ H). by apply call_h.
    + rewrite (h_start_array_item _ _ _ H). by apply call_h.
  - rewrite (h_end_map_key _ _ _ H). apply call_h. intros v1.
    rewrite (h_start_map_value _ _ _ H). by apply call_h.
  - rewrite (h_end_map_value _ _ _ H). apply call_h. intros v1. destruct (_ =? 0).
    + rewrite (h_end_map _ _ _ H). by apply call_h.
    + rewrite (h_start_map_key _ _ _ H). by apply call_h.
Qed.

Lemma after_visit_h m l :
  after_visit_proc (VI:=B) (rmap h m) (hloop l) = hflow (after_visit_proc (VI:=A) m l).
Proof.
  unfold after_visit_proc. destruct m as [[[] v]|e]; simpl; try done. rewrite consume_h.
  by destruct (consume (m_stack (ctx l)) v) as [[[[]|e] st] v'].
Qed.

Lemma aggregate_end_h cur m l : aggregate_end cur (hres m) (hloop l) = hflow (aggregate_end cur m l).
Proof. unfold aggregate_end. by destruct m as [[[[]|e] st] v]. Qed.

Lemma start_aggregate_h t n sv ev sv' ev' l :
  (forall n v, sv' n (h v) = rmap h (sv n v)) -> (forall v, ev' (h v) = rmap h (ev v)) ->
  start_aggregate (VI:=B) t n sv' ev' (hloop l) = hflow (start_aggregate (VI:=A) t n sv ev l).
Proof.
  intros Hs He. unfold start_aggregate. simpl. rewrite Hs.
  destruct (n =? 0); rewrite <- aggregate_end_h; f_equal; apply call_h; intros v1.
  - rewrite He. apply call_h. intros. apply consume_h.
  - apply push_h.
Qed.

Lemma length_field_h visit visit' next t l :
  (forall p n v, visit' p n (h v) = rmap h (visit p n v)) ->
  length_field (VI:=B) visit' next t (hloop l) = hflow (length_field (VI:=A) visit next t l).
Proof.
  intros Hv. unfold length_field. destruct (t =? 0); [|done]. simpl. rewrite Hv.
  exact (after_visit_h _ (set_ctx (set_trail t (ctx l)) l)).
Qed.

Lemma exec_switch_h d n l : exec_switch (VI:=B) d n (hloop l) = hflow (exec_switch (VI:=A) d n l).
Proof.
  unfold exec_switch. simpl. destruct (m_cs (ctx l));
    try (first [rewrite (h_float32 _ _ _ H)|rewrite (h_float64 _ _ _ H)|rewrite (h_positive _ _ _ H)
      |rewrite (h_negative _ _ _ H)|rewrite (h_ext _ _ _ H)|rewrite (h_str _ _ _ H)
      |rewrite (h_bin _ _ _ H)]; apply after_visit_h);
    try (apply length_field_h; intros; apply H);
    try (apply start_aggregate_h; intros; apply H);
    rewrite (h_parse_error _ _ _ H); by destruct (parse_error _ _ _).
Qed.

Lemma exec_trail_h d l : exec_trail (VI:=B) d (hloop l) = hflow (exec_trail (VI:=A) d l).
Proof.
  unfold exec_trail. simpl. destruct (fixed_trail_again l); simpl;
    destruct (_ <? _); try done;
    match goal with |- _ = hflow (exec_switch _ ?n ?x) => exact (exec_switch_h d n x) end.
Qed.

Lemma exec_header_h d l : exec_header (VI:=B) d (hloop l) = hflow (exec_header (VI:=A) d l).
Proof.
  unfold exec_header. simpl. set (p := default Byte.x00 _).
  pose proof (fun m => after_visit_h m (set_again false l)) as V1.
  pose proof (fun m t => after_visit_h m (set_ctx (set_trail t (ctx l)) (set_again false l))) as V2.
  pose proof (fun t n sv ev sv' ev' => start_aggregate_h t n sv ev sv' ev' (set_again false l)) as V3.
  repeat (match goal with |- context [if ?c then _ else _] => destruct c end);
    rewrite ?(h_positive _ _ _ H), ?(h_negative _ _ _ H), ?(h_boolean _ _ _ H), ?(h_nil _ _ _ H),
      ?(h_str _ _ _ H);
    try (exact (V1 _)); try (exact (V2 _ _)); try done;
    try (match goal with |- start_aggregate ?t ?n ?sv' ?ev' _ = hflow (start_aggregate _ _ ?sv ?ev _) =>
           apply (V3 t n sv ev sv' ev'); intros; apply H end).
  rewrite (h_parse_error _ _ _ H). by destruct (parse_error _ _ _).
Qed.

Lemma exec_body_h d l : exec_body (VI:=B) d (hloop l) = hflow (exec_body (VI:=A) d l).
Proof.
  unfold exec_body. simpl.
  assert (T : forall l', (if negb (is_header (m_cs (ctx l'))) || fixed_trail_again l'
      then exec_trail (VI:=B) d (hloop l') else Go (hloop l')) =
    hflow (if negb (is_header (m_cs (ctx l'))) || fixed_trail_again l'
      then exec_trail (VI:=A) d l' else Go l')).
  { intros l'. destruct (_ || _); [apply exec_trail_h|done]. }
  destruct (is_header (m_cs (ctx l))) eqn:Eh; [|apply (T l)].
  rewrite exec_header_h. destruct (exec_header d l) as [l'| |]; [apply (T l')|done|done].
Qed.

Lemma exec_loop_h d : forall fuel l,
  exec_loop (VI:=B) fuel d (hloop l) = hflow <$> exec_loop (VI:=A) fuel d l.
Proof.
  assert (I : forall l, exec_iter (VI:=B) d (hloop l) = hflow (exec_iter (VI:=A) d l)).
  { intros l. unfold exec_iter. rewrite exec_body_h.
    destruct (exec_body d l) as [l'| |]; try done. simpl. by destruct (_ =? _). }
  induction fuel as [|fuel IH]; intros l; cbn [exec_loop]; rewrite I;
    destruct (exec_iter d l) as [l'| |]; try done. apply IH.
Qed.

Definition hran (x : ran V E) : ran W E :=
  match x with Ran r rest c => Ran r rest (hctx c) | Raised e c => Raised e (hctx c) end.

Lemma run_h d c : run (VI:=B) d (hctx c) = hran <$> run (VI:=A) d c.
Proof.
  unfold run, execute. destruct (0 =? len d); [done|].
  pose proof (exec_loop_h d (2 * length d) (resumed 0 c)) as E1.
  unfold hloop, resumed in E1. cbn [ctx m_current fixed_trail_again] in E1. rewrite E1. clear E1.
  destruct (exec_loop (VI:=A) _ _ _) as [[l|r n c'|e c']|]; reflexivity.
Qed.

End Morphism.

(** ** Disregarding [m_referenced] *)

Definition unref : visitor -> visitor := set_referenced false.

(** [create_object_visitor], forgetting the flag after each call. *)
Definition unref_visitor : Visitor visitor unpack_exn := {|
  visit_nil v := rmap unref (visit_nil v);
  visit_boolean b v := rmap unref (visit_boolean b v);
  visit_positive_integer z v := rmap unref (visit_positive_integer z v);
  visit_negative_integer z v := rmap unref (visit_negative_integer z v);
  visit_float32 z v := rmap unref (visit_float32 z v);
  visit_float64 z v := rmap unref (visit_float64 z v);
  visit_str p n v := rmap unref (visit_str p n v);
  visit_bin p n v := rmap unref (visit_bin p n v);
  visit_ext p n v := rmap unref (visit_ext p n v);
  start_array n v := rmap unref (start_array n v);
  start_array_item v := rmap unref (start_array_item v);
  end_array_item v := rmap unref (end_array_item v);
  end_array v := rmap unref (end_array v);
  start_map n v := rmap unref (start_map n v);
  start_map_key v := rmap unref (start_map_key v);
  end_map_key v := rmap unref (end_map_key v);
  start_map_value v := rmap unref (start_map_value v);
  end_map_value v := rmap unref (end_map_value v);
  end_map v := rmap unref (end_map v);
  parse_error a b v := match parse_error (E:=unpack_exn) a b v with
                       | Ok v => Ok (unref v) | Throw e => Throw e end;
  insufficient_bytes a b v := insufficient_bytes a b v;
  visitor_init := visitor_init;
|}.

Lemma write_back_unref c v :
  rmap unref (write_back c (unref v)) = rmap unref (write_back c v).
Proof. destruct v as [f lim h bl [|[p|] st] b]; simpl; try done. unfold write_back, in_block. simpl. by repeat case_match. Qed.

Lemma write_back_ref c b v :
  rmap unref (write_back c (set_referenced b v)) = rmap unref (write_back c v).
Proof.
  rewrite <- (write_back_unref c (set_referenced b v)), <- (write_back_unref c v). by destruct v.
Qed.

Lemma start_container_unref k n sz mk e v :
  rmap unref (start_container k n sz mk e (unref v)) = rmap unref (start_container k n sz mk e v).
Proof.
  unfold start_container, write_back, in_block, allocate.
  destruct v as [f lim h bl [|[p|] st] b]; simpl; by repeat case_match.
Qed.

Lemma keep_or_copy_unref t p n v :
  exists q b b', keep_or_copy t p n (unref v) = (q, set_referenced b v) /\
                 keep_or_copy t p n v = (q, set_referenced b' v).
Proof.
  unfold keep_or_copy. destruct v as [f lim h bl st b]. simpl.
  repeat case_match; simplify_eq; do 3 eexists; split; reflexivity.
Qed.

Lemma unref_morphism : morphism create_object_visitor unref_visitor unref.
Proof.
  assert (W : forall c v, rmap unref (write_back c (unref v)) = rmap unref (write_back c v))
    by apply write_back_unref.
  split; intros; try apply W; try (by destruct v as [f lim h bl [|[p|] st] b]); try done; simpl.
  - destruct (keep_or_copy_unref T_STR p n v) as (q & b & b' & E1 & E2). unfold v_str. simpl.
    destruct (_ <? _); [done|]. rewrite E1, E2. by rewrite !write_back_ref.
  - destruct (keep_or_copy_unref T_BIN p n v) as (q & b & b' & E1 & E2). unfold v_bin. simpl.
    destruct (_ <? _); [done|]. rewrite E1, E2. by rewrite !write_back_ref.
  - destruct (keep_or_copy_unref T_EXT p n v) as (q & b & b' & E1 & E2). unfold v_ext. simpl.
    destruct (_ <? _); [done|]. rewrite E1, E2. by rewrite !write_back_ref.
  - unfold v_start_array. simpl. destruct (_ <? _); [done|].
    destruct (_ <? _); [done|]. apply start_container_unref.
  - unfold v_start_map. simpl. destruct (_ <? _); [done|].
    destruct (_ <? _); [done|]. apply start_container_unref.
Qed.

Definition unref_ctx : context visitor -> context visitor := hctx unref.

(** Contexts that differ in the flag alone run the same. *)
Lemma run_unref d c c' :
  unref_ctx c = unref_ctx c' ->
  hran unref <$> run d c = hran unref <$> run d c'.
Proof.
  intros Hc. rewrite <- !(run_h _ _ _ unref_morphism). unfold unref_ctx in Hc. by rewrite Hc.
Qed.
