(* ===== verification/UnpackerSpec.v ===== *)
(** * What the unpacker promises

    The buffer's arithmetic never wraps and it has the room asked for; every
    buffer lives exactly as long as the parser, its zone or a handle refers to it;
    and the unparsed bytes reach the parser in order, whatever the chunks and the
    reallocations in between. *)

From S2P Require Import Prelude Alloc FloatBits MsgObject Pack Parse ParseLoop Visitor Format Tokens.
From S2P Require Import Decode Stream Morphism Unpacker Roundtrip.

#[local] Open Scope unpacker_scope.

(** ** Reference counts *)

Definition occ (b : Z) (os : list Z) : Z := Z.of_nat (count_occ Z.eq_dec os b).

(** [h] counts the owners in [os], and holds nothing that has none. *)
Definition counted (h : gmap Z Z) (os : list Z) : Prop :=
  forall b, h !! b = if occ b os =? 0 then None else Some (occ b os).

Lemma occ_cons b x os : occ b (x :: os) = occ b os + (if decide (x = b) then 1 else 0).
Proof. unfold occ. simpl. destruct (Z.eq_dec x b), (decide (x = b)); lia || done. Qed.

Lemma occ_nonneg b os : 0 <= occ b os.
Proof. unfold occ. lia. Qed.

Lemma occ_app b os os' : occ b (os ++ os') = occ b os + occ b os'.
Proof. unfold occ. rewrite count_occ_app. lia. Qed.

Lemma counted_perm h os os' : (forall b, occ b os = occ b os') -> counted h os -> counted h os'.
Proof. intros He H b. by rewrite <- He, H. Qed.

Lemma counted_get h b os : counted h (b :: os) -> h !! b = Some (occ b os + 1).
Proof.
  intros H. rewrite H, occ_cons. rewrite decide_True by done. pose proof (occ_nonneg b os).
  by destruct (Z.eqb_spec (occ b os + 1) 0); [lia|].
Qed.

Lemma counted_decr h b os :
  counted h (b :: os) ->
  let n := occ b os + 1 in
  counted (if n - 1 =? 0 then delete b h else <[b := n - 1]> h) os.
Proof.
  intros H n c. unfold n. replace (occ b os + 1 - 1) with (occ b os) by lia.
  specialize (H c). rewrite occ_cons in H.
  destruct (decide (b = c)) as [<-|Hne].
  - destruct (Z.eqb_spec (occ b os) 0) as [_|]; [by rewrite lookup_delete_eq|].
    by rewrite lookup_insert_eq.
  - rewrite Z.add_0_r in H.
    destruct (occ b os =? 0); [by rewrite lookup_delete_ne|by rewrite lookup_insert_ne].
Qed.

Lemma counted_incr h b os :
  counted h (b :: os) -> counted (<[b := occ b os + 1 + 1]> h) (b :: b :: os).
Proof.
  intros H c. specialize (H c). rewrite !occ_cons in *. pose proof (occ_nonneg b os).
  destruct (decide (b = c)) as [<-|Hne]; [|by rewrite lookup_insert_ne, !Z.add_0_r in *].
  rewrite lookup_insert_eq. by destruct (Z.eqb_spec (occ b os + 1 + 1) 0); [lia|].
Qed.

Lemma counted_init h b os : counted h os -> occ b os = 0 -> counted (<[b := 1]> h) (b :: os).
Proof.
  intros H Hb c. specialize (H c). rewrite occ_cons.
  destruct (decide (b = c)) as [<-|Hne]; [|by rewrite lookup_insert_ne, Z.add_0_r].
  by rewrite lookup_insert_eq, Hb.
Qed.

(** ** The invariant *)

Definition cap : Z := 2 ^ 47.

(** [others]: the buffers the handles given out still refer to. *)
Record ok (others : list Z) (s : unpacker) : Prop := {
  ok_off : 4 <= m_off s <= m_used s;
  ok_mem : m_used s <= len (mem s);
  ok_free : 0 <= m_free s;
  ok_cap : m_used s + m_free s <= cap;
  ok_initial : 4 <= m_initial_buffer_size s <= cap;
  ok_ctx : ctx_ok (cx s);
  ok_counts : counted (counts s) (m_buffer s :: m_z s ++ others);
  ok_fresh : forall b, next_id s <= b -> occ b (m_buffer s :: m_z s ++ others) = 0;
}.

(** The bytes received and not parsed yet. *)
Definition pending (s : unpacker) : bytes := slice (mem s) (m_off s) (m_used s - m_off s).

(** What a change of buffer keeps. *)
Definition same_stream (s s' : unpacker) : Prop :=
  pending s' = pending s /\ unref_ctx (cx s') = unref_ctx (cx s).

Section Alloc.
Variable malloc_ok : Z -> bool.
(** An allocation beyond the address space fails. *)
Hypothesis malloc_bound : forall n, malloc_ok n = true -> n <= cap.

Lemma set_ref_ok b others s : ok others s -> ok others (set_ref b s).
Proof. intros []. split; done. Qed.

Lemma set_ref_same b s : same_stream s (set_ref b s).
Proof. split; [done|]. unfold set_ref, unref_ctx, hctx, unref. simpl. by destruct (holder (cx s)). Qed.

Lemma slice_whole {A} (l : list A) p n k : 0 <= p -> 0 <= n <= k -> slice (slice l p k) 0 n = slice l p n.
Proof.
  intros Hp Hn. unfold slice. change (Z.to_nat 0) with 0%nat. rewrite drop_0, take_take.
  f_equal. lia.
Qed.

Definition makes_room (size : Z) (others : list Z) (s : unpacker)
    (x : res unpacker_exn unit * unpacker) : Prop :=
  match x with
  | (Ok _, s') => ok others s' /\ same_stream s s' /\ size <= m_free s' /\
                  m_initial_buffer_size s' = m_initial_buffer_size s
  | (Throw e, s') => e = bad_alloc
  end.

Lemma realloc_ok size others s :
  ok others s -> 0 <= size <= cap -> makes_room size others s (realloc_buffer malloc_ok size s).
Proof.
  intros Hok Hs. pose proof Hok as []. unfold realloc_buffer, bind, get.
  destruct (grow_ok (wrap 64 ((m_used s + m_free s) * 2)) (wrap 64 (size + m_used s)))
    as (r & -> & Hr & Hb); [apply wrap_range; lia..|].
  destruct (malloc_ok r) eqn:Em; [|done]. apply malloc_bound in Em. unfold cap in *.
  rewrite wrap_small in Hr by lia. unfold modify, makes_room.
  split_and!; [|done| |done].
  - split; simpl; try done; rewrite ?wrap_small by lia; unfold cap; lia.
  - simpl. rewrite wrap_small by lia. lia.
Qed.

Lemma pending_new s others :
  ok others s ->
  slice (counter_bytes ++ slice (mem s) (m_off s) (m_used s - m_off s)) 4
    (m_used s - m_off s + 4 - 4) = pending s.
Proof.
  intros []. replace (m_used s - m_off s + 4 - 4) with (m_used s - m_off s) by lia.
  rewrite (slice_shift counter_bytes _ 0) by lia. rewrite slice_whole by lia. done.
Qed.

Lemma len_slice {A} (l : list A) p n : 0 <= p -> 0 <= n -> p + n <= len l -> len (slice l p n) = n.
Proof. intros. unfold slice, len in *. rewrite length_take, length_drop. lia. Qed.

Lemma replace_ok size others s :
  ok others s -> 0 <= size <= cap -> makes_room size others s (replace_buffer malloc_ok size s).
Proof.
  intros Hok Hs. pose proof Hok as [Ho Hm Hf Hcap Hi Hc Hn Hfr]. unfold cap in *.
  unfold replace_buffer, bind, get. rewrite (wrap_small 64 (m_used s - m_off s)) by lia.
  destruct (grow_ok (m_initial_buffer_size s) (wrap 64 (size + (m_used s - m_off s) + COUNTER_SIZE)))
    as (r & -> & Hr & Hb); [lia|apply wrap_range; lia|].
  unfold COUNTER_SIZE in *. rewrite wrap_small in Hr by lia.
  destruct (malloc_ok r) eqn:Em; [|done]. apply malloc_bound in Em. unfold cap in *.
  cbn [fresh init_count modify]. set (tmp := next_id s).
  rewrite !(wrap_small 64 (m_used s - m_off s + 4)) by lia.
  rewrite (wrap_small 64 (r - (m_used s - m_off s + 4))) by lia.
  pose proof (pending_new s others Hok) as Hp.
  assert (Ht : occ tmp (m_buffer s :: m_z s ++ others) = 0) by (apply Hfr; unfold tmp; lia).
  pose proof (counted_init _ tmp _ Hn Ht) as Hn'.
  assert (Hlen : m_used s - m_off s + 4 <=
    len (counter_bytes ++ slice (mem s) (m_off s) (m_used s - m_off s)))
    by (rewrite len_app, len_slice by lia; change (len counter_bytes) with 4; lia).
  unfold referenced. cbn [cx holder m_referenced set_counts]. fold (referenced s).
  destruct (referenced s) eqn:Er.
  - unfold push_finalizer, modify. split_and!; [| |simpl; lia|done].
    + split; simpl; try done; try (unfold cap; lia).
      intros b Hb'. specialize (Hfr b ltac:(lia)). rewrite !occ_cons in *.
      destruct (decide (tmp = b)); [unfold tmp in *; lia|lia].
    + split; [exact Hp|]. unfold unref_ctx, hctx, unref. simpl. by destruct (holder (cx s)).
  - unfold decr_count, bind, get_count. cbn [counts set_counts].
    assert (Hl : (<[tmp:=1]> (counts s)) !! m_buffer s = Some (occ (m_buffer s) (m_z s ++ others) + 1)).
    { rewrite lookup_insert_ne; [by apply counted_get|]. intros E. rewrite <- E, occ_cons in Ht.
      rewrite decide_True in Ht by done. pose proof (occ_nonneg tmp (m_z s ++ others)). lia. }
    rewrite Hl. unfold modify. split_and!; [| |simpl; lia|done].
    + assert (Hn2 : counted (<[tmp:=1]> (counts s)) (m_buffer s :: tmp :: m_z s ++ others)).
      { refine (counted_perm _ _ _ _ Hn'). intros b. rewrite !occ_cons. lia. }
      pose proof (counted_get _ _ _ Hn2) as Hg. rewrite Hl in Hg. injection Hg as Hg.
      pose proof (counted_decr _ _ _ Hn2) as Hd. cbv zeta in Hd. rewrite <- Hg in Hd.
      split; simpl; try done; try (unfold cap; lia).
      intros b Hb'. specialize (Hfr b ltac:(lia)). rewrite !occ_cons in *.
      pose proof (occ_nonneg b (m_z s ++ others)).
      destruct (decide (tmp = b)); [unfold tmp in *; lia|]. destruct (decide (m_buffer s = b)); lia.
    + split; [exact Hp|done].
Qed.

Lemma rewind_ok others s :
  ok others s -> m_used s = m_off s -> ok others (rewind s) /\ same_stream s (rewind s).
Proof.
  intros [Ho Hm Hf Hcap Hi Hc Hn Hfr] He. unfold cap, rewind, COUNTER_SIZE in *. split.
  - split; simpl; try done; rewrite ?wrap_small by lia; unfold cap; lia.
  - split; [|done]. unfold pending. simpl. rewrite He. by replace (m_off s - m_off s) with 0 by lia.
Qed.

Lemma makes_room_trans size others s s1 x :
  same_stream s s1 -> m_initial_buffer_size s1 = m_initial_buffer_size s ->
  makes_room size others s1 x -> makes_room size others s x.
Proof.
  intros [E1 E2] Ei. destruct x as [[[]|e] s']; [|done].
  intros (H1 & [H2 H3] & H4 & H5). split_and!; [done| |done|congruence].
  split; congruence.
Qed.

Lemma enlarge_ok size others s :
  ok others s -> 0 <= size <= cap ->
  makes_room size others s ((if m_off s =? COUNTER_SIZE then realloc_buffer malloc_ok size
                             else replace_buffer malloc_ok size) s).
Proof.
  intros. destruct (m_off s =? COUNTER_SIZE); [by apply realloc_ok|by apply replace_ok].
Qed.

Lemma expand_ok size others s :
  ok others s -> 0 <= size <= cap -> makes_room size others s (expand_buffer malloc_ok size s).
Proof.
  intros Hok Hs. pose proof (counted_get _ _ _ (ok_counts _ _ Hok)) as Hg.
  pose proof (enlarge_ok size others s Hok Hs) as He.
  unfold expand_buffer, bind, get, get_count, ret, modify.
  destruct (Z.eqb_spec (m_used s) (m_off s)) as [Eu|]; [rewrite Hg|exact He].
  set (c := true && _ && _). destruct c; [|exact He].
  destruct (rewind_ok others s Hok Eu) as [Hr1 Hr2]. cbn [andb].
  destruct (Z.leb_spec size (m_free (rewind s))); [by split_and!|].
  eapply makes_room_trans; [exact Hr2|done|]. by apply enlarge_ok.
Qed.

Lemma reserve_ok size others s :
  ok others s -> 0 <= size <= cap -> makes_room size others s (reserve_buffer malloc_ok size s).
Proof.
  intros Hok Hs. unfold reserve_buffer, bind, get.
  destruct (Z.leb_spec size (m_free s)); [|by apply expand_ok].
  unfold ret. split_and!; done.
Qed.

(** ** Receiving *)

Lemma receive_ok d others s :
  ok others s -> len d <= m_free s ->
  exists s', (let! _ := write_buffer d in buffer_consumed (len d)) s = (Ok tt, s') /\
    ok others s' /\ pending s' = pending s ++ d /\ cx s' = cx s /\
    m_initial_buffer_size s' = m_initial_buffer_size s /\ m_free s' = m_free s - len d.
Proof.
  intros [Ho Hm Hf Hcap Hi Hc Hn Hfr] Hd. unfold cap in *. pose proof (len_nonneg d).
  unfold write_buffer, buffer_consumed, bind, get, modify.
  destruct (Z.ltb_spec (m_free s) (len d)); [lia|]. eexists. split; [reflexivity|].
  assert (Ht : len (take (Z.to_nat (m_used s)) (mem s)) = m_used s)
    by (unfold len in *; rewrite length_take; lia).
  cbn [mem m_buffer m_used m_free m_off cx set_buffer m_initial_buffer_size].
  rewrite (wrap_small 64 (m_used s + len d)), (wrap_small 64 (m_free s - len d)) by lia.
  split_and!; try done.
  - split; simpl; rewrite ?len_app, ?Ht; try done; unfold cap; lia.
  - unfold pending, slice. simpl. unfold len in *.
    rewrite drop_app_le by lia. rewrite take_app_ge by (rewrite length_drop; lia).
    rewrite length_drop, skipn_firstn_comm. f_equal; [f_equal; lia|]. apply take_ge. lia.
Qed.

End Alloc.

(** ** One call of [next] *)

Lemma bind_ok {A B} (m : M A) (k : A -> M B) s a s' : m s = (Ok a, s') -> bind m k s = k a s'.
Proof. unfold bind. by intros ->. Qed.

Lemma bind_throw {A B} (m : M A) (k : A -> M B) s e s' :
  m s = (Throw e, s') -> bind m k s = (Throw e, s').
Proof. unfold bind. by intros ->. Qed.

Lemma pending_split s others :
  ok others s -> exists q, take (Z.to_nat (m_used s)) (mem s) = q ++ pending s /\ len q = m_off s.
Proof.
  intros []. exists (take (Z.to_nat (m_off s)) (mem s)). unfold pending, slice, len in *.
  rewrite length_take. split; [|lia]. rewrite <- (take_drop (Z.to_nat (m_off s)) (take _ (mem s))).
  rewrite take_take, skipn_firstn_comm. f_equal; f_equal; lia.
Qed.

(** [execute_imp] is [run] on the pending bytes. *)
Lemma execute_imp_run others s x :
  ok others s -> run (pending s) (cx s) = Some x ->
  match x with
  | Ran r rest c => exists s', execute_imp s = (Ok r, s') /\ pending s' = rest /\ cx s' = c /\
      (forall c', ctx_ok c' -> ok others (set_cx c' s')) /\ m_z s' = m_z s /\ counts s' = counts s /\
      m_buffer s' = m_buffer s /\ m_free s' = m_free s /\
      m_initial_buffer_size s' = m_initial_buffer_size s /\ next_id s' = next_id s
  | Raised e c => exists s', execute_imp s = (Throw (unpack_error e), s') /\ cx s' = c
  end.
Proof.
  intros Hok Hr. pose proof Hok as [Ho Hm Hf Hcap Hi Hc Hn Hfr].
  destruct (pending_split s others Hok) as (q & Hd & Hq).
  unfold execute_imp, bind, get, modify. rewrite Hd, <- Hq.
  pose proof (execute_run create_error_offsets q (pending s) (cx s) Hc) as Hx. rewrite Hr in Hx.
  assert (Hlen : len (q ++ pending s) = m_used s)
    by (rewrite <- Hd; unfold len in *; rewrite length_take; lia).
  pose proof (execute_returns (q ++ pending s) (len q) (cx s) ltac:(lia) Hc) as Hret.
  destruct (execute (q ++ pending s) (len q) (cx s)) as [[l|r n c|e c]|]; try done;
    simpl in Hx, Hret; injection Hx as <-; [|by eexists].
  destruct Hret as [Hn1 _].
  assert (Hp : slice (mem s) n (m_used s - n) = drop (Z.to_nat n) (q ++ pending s)).
  { rewrite <- Hd. unfold slice. rewrite skipn_firstn_comm. f_equal. lia. }
  rewrite Hq in *.
  destruct (m_off s <? n); (eexists; split; [reflexivity|]);
    split_and!; try done; intros c' Hc'; (split; [simpl; lia|done..]).
Qed.

(** What a successful call hands out. *)
Definition zone_of (h : object_handle) : list Z := default [] (h_zone h).

Lemma next_run others s x :
  ok others s -> run (pending s) (cx s) = Some x ->
  match x with
  | Ran PARSE_SUCCESS rest c => exists h s',
      next s = (Ok (true, h, m_referenced (holder c)), s') /\
      pending s' = rest /\ unref_ctx (cx s') = unref_ctx (init c) /\ ok (zone_of h ++ others) s' /\
      h_cells h = cells (holder c) /\ m_free s' = m_free s /\
      (m_referenced (holder c) = true -> m_buffer s' ∈ zone_of h)
  | Ran _ rest c => exists s', next s = (Ok (false, empty_handle, false), s') /\
      pending s' = rest /\ cx s' = c /\ (ctx_ok c -> ok others s') /\ m_free s' = m_free s
  | Raised e c => exists s', next s = (Throw (unpack_error e), s')
  end.
Proof.
  intros Hok Hr. pose proof (execute_imp_run others s x Hok Hr) as H. unfold next, parser_next.
  destruct x as [r rest c|e c].
  2:{ destruct H as (s' & H & _). exists s'. by rewrite (bind_throw _ _ _ _ _ (bind_throw _ _ _ _ _ H)). }
  destruct H as (s' & H & Hp & Hcx & Hok' & Hz & Hcnt & Hb & Hfree & Hini & Hid).
  rewrite (bind_ok _ _ _ _ _ (bind_ok _ _ _ _ _ H)).
  destruct r; try (exists s'; split_and!; [done|done|done| |done]; intros Hc; subst c;
    specialize (Hok' (cx s') Hc); by destruct s').
  destruct (Hok' (init c)) as [Ho Hm Hf Hcap Hi _ Hn Hfr]; [done|]. simpl in Ho, Hm, Hf, Hcap, Hi, Hn, Hfr.
  unfold release_zone, flush_zone, push_finalizer, incr_count, get_count, modify, reset, ret.
  unfold bind, get. unfold referenced. rewrite Hcx. subst c.
  destruct (m_referenced (holder (cx s'))) eqn:Er.
  - cbn [counts set_zone set_ref set_cx].
    pose proof (counted_get _ _ _ Hn) as Hg. rewrite Hg.
    eexists _, _. split_and!; [reflexivity|done| |..|done|done|].
    + unfold unref_ctx, hctx, unref. simpl. by destruct (holder (cx s')).
    + pose proof (counted_incr _ _ _ Hn) as Hi'. split; simpl; try done.
      intros b Hb'. specialize (Hfr b Hb'). rewrite !occ_cons, !occ_app in *.
      pose proof (occ_nonneg b (m_z s')). pose proof (occ_nonneg b others).
      destruct (decide (m_buffer s' = b)); lia.
    + intros _. simpl. left.
  - eexists _, _. split_and!; [reflexivity|done|done|..|done|done|done].
    split; simpl; try done.
Qed.

(** ** The objects of a stream *)

(** The parser has read [d0] of an object that needs more, starting from the
    idle context [c0]; the flag apart. *)
Definition awaits (s : unpacker) (c0 : context visitor) (d0 : bytes) : Prop :=
  idle c0 /\ decode (m_limit (holder c0)) d0 = Short /\
  exists c1, run d0 c0 = Some (Ran PARSE_CONTINUE (pending s) c1) /\
             unref_ctx c1 = unref_ctx (cx s).

(** As if the parser had [d] to read from the idle context [c0]. *)
Definition about_to_read (s : unpacker) (c0 : context visitor) (d : bytes) : Prop :=
  idle c0 /\ hran unref <$> run (pending s) (cx s) = hran unref <$> run d c0.

Lemma idle_ctx_ok c : idle c -> ctx_ok c.
Proof. intros (H & _) Hh. by rewrite H in Hh. Qed.

Lemma idle_init c c' o :
  idle c -> built (0, 0) o (holder c) (holder c') ->
  idle (init c') /\ m_limit (holder (init c')) = m_limit (holder c).
Proof.
  intros (_ & _ & _ & ext & Hb) (_ & [Hl _ [ext' Hb'] _] & _). split; [|done].
  split_and!; try done. simpl. rewrite Hb', Hb. by exists (ext ++ ext').
Qed.

(** The handle holds the object, which can be read to its depth. *)
Definition reads_as (h : object_handle) (o : object) : Prop :=
  forall fuel, (depth o <= fuel)%nat -> h_get fuel h = Some o.

Lemma handle_reads h c c' o :
  built (0, 0) o (holder c) (holder c') -> h_cells h = cells (holder c') -> reads_as h o.
Proof.
  intros Hb Hh fuel Hf. unfold h_get. rewrite Hh. by apply (built_data _ _ _ Hb).
Qed.

Definition zones (hs : list object_handle) : list Z := concat (rev (map zone_of hs)).

Lemma unref_cells c c' : unref_ctx c = unref_ctx c' -> cells (holder c) = cells (holder c').
Proof. unfold unref_ctx, hctx, unref. intros [= _ _ _ _ _ H _ _]. done. Qed.

Lemma unref_init c c' : unref_ctx c = unref_ctx c' -> unref_ctx (init c) = unref_ctx (init c').
Proof.
  unfold unref_ctx, hctx, unref, init. intros [= _ _ _ H1 H2 H3 H4 H5]. simpl.
  unfold v_init, set_cells, set_vstack, set_referenced. simpl. by rewrite H1, H2, H3, H4.
Qed.

Lemma unref_ctx_ok c c' : unref_ctx c = unref_ctx c' -> ctx_ok c -> ctx_ok c'.
Proof. unfold unref_ctx, hctx, ctx_ok. intros [= H1 H2 _ _ _ _ _ _]. by rewrite H1, H2. Qed.

Lemma hran_inv x r rest c :
  hran unref <$> Some x = hran (E:=unpack_exn) unref <$> Some (Ran r rest c) ->
  exists c', x = Ran r rest c' /\ unref_ctx c' = unref_ctx c.
Proof.
  destruct x as [r' rest' c'|e c']; [|done]. intros E. exists c'.
  assert (Er : r' = r /\ rest' = rest) by (by injection E as -> ->).
  destruct Er as [-> ->]. split; [done|]. simpl in E.
  assert (E' := f_equal (fun o => match o with Some (Ran _ _ c) => c | _ => unref_ctx c end) E).
  exact E'.
Qed.

Lemma drain_ok lim : forall fuel d os rest others s c0,
  stream lim d os rest -> ok others s -> about_to_read s c0 d -> m_limit (holder c0) = lim ->
  len d < 2 ^ 32 -> (length os < fuel)%nat ->
  exists hs s' c0', drain fuel s = (Ok hs, s') /\ Forall2 reads_as hs os /\
    ok (zones hs ++ others) s' /\ awaits s' c0' rest /\ m_limit (holder c0') = lim.
Proof.
  induction fuel as [|fuel IH]; intros d os rest others s c0 Hst Hok [Hi Hrun] Hlim Hsz Hf; [lia|].
  pose proof (run_decode d c0 Hsz Hi) as Hd. rewrite Hlim in Hd.
  pose proof (ok_ctx _ _ Hok) as Hcs. pose proof (idle_ctx_ok _ Hi) as Hc0.
  destruct (run_total (pending s) (cx s) Hcs) as [x Hx].
  pose proof (next_run others s x Hok Hx) as Hn. rewrite Hx in Hrun. cbn [drain].
  destruct Hst as [d Hdec|d o r os rest Hdec Hst]; rewrite Hdec in Hd; simpl in Hd.
  - destruct Hd as (rest & c' & Hr). rewrite Hr in Hrun. apply hran_inv in Hrun as (c & -> & Hc').
    pose proof (run_ctx_ok _ _ _ _ Hcs Hx) as Hcc.
    destruct Hn as (s' & Hn & Hp & Hcx & Hok' & _). rewrite (bind_ok _ _ _ _ _ Hn).
    exists [], s', c0. split_and!; [done|constructor|exact (Hok' Hcc)| |done].
    split; [done|]. split; [by rewrite Hlim|]. exists c'. rewrite Hp, Hcx.
    split; [done|exact (eq_sym Hc')].
  - destruct Hd as (c' & Hr & Hs & Hb). rewrite Hr in Hrun. apply hran_inv in Hrun as (c & -> & Hc').
    destruct Hn as (h & s' & Hn & Hp & Hcx & Hok' & Hh & _). rewrite (bind_ok _ _ _ _ _ Hn).
    destruct (idle_init _ _ _ Hi Hb) as [Hi' Hl'].
    assert (Hrd : about_to_read s' (init c') r).
    { split; [done|]. rewrite Hp. apply run_unref. rewrite Hcx. by apply unref_init. }
    pose proof (decode_advances lim d) as Hadv. rewrite Hdec in Hadv. simpl in Hadv.
    destruct (IH r os rest _ s' (init c') Hst Hok' Hrd ltac:(congruence) ltac:(lia)
      ltac:(simpl in Hf; lia)) as (hs & s2 & c2 & Hd2 & Hf2 & Hok2 & Haw & Hl2).
    exists (h :: hs), s2, c2. rewrite (bind_ok _ _ _ _ _ Hd2). split_and!; [done| | |done|done].
    + constructor; [|done]. eapply handle_reads; [exact Hb|]. rewrite Hh. by apply unref_cells.
    + unfold zones in *. simpl. rewrite concat_app. simpl. rewrite app_nil_r, <- app_assoc. done.
Qed.

Lemma run_rest d c r rest c' :
  run (E:=unpack_exn) (V:=visitor) d c = Some (Ran r rest c') -> (length rest <= length d)%nat.
Proof.
  unfold run. destruct (execute d 0 c) as [[| |]|]; simpl; try done. intros [= _ <- _].
  rewrite length_drop. lia.
Qed.

Lemma stream_rest_len lim d os rest : stream lim d os rest -> len rest <= len d.
Proof.
  induction 1 as [|d o r os rest Hd _ IH]; [lia|].
  pose proof (decode_advances lim d) as Ha. rewrite Hd in Ha. simpl in Ha. lia.
Qed.

(** The loop has fuel for every object the bytes can hold. *)
Lemma drain_fuel lim d os rest others s c0 :
  stream lim d os rest -> ok others s -> about_to_read s c0 d -> m_limit (holder c0) = lim ->
  len d < 2 ^ 32 -> (length os < S (S (length (nonparsed_buffer s))))%nat.
Proof.
  intros Hst Hok [Hi Hrun] Hlim Hsz. destruct Hst as [|d o r os rest Hd Hst]; [simpl; lia|].
  pose proof (run_decode d c0 Hsz Hi) as Hr. rewrite Hlim, Hd in Hr. destruct Hr as (c' & Hr & _).
  rewrite Hr in Hrun. destruct (run (pending s) (cx s)) as [x|] eqn:Hx; [|done].
  apply hran_inv in Hrun as (c & -> & _). apply run_rest in Hx. apply stream_length in Hst.
  assert (length (pending s) <= length (nonparsed_buffer s))%nat
    by (unfold pending, nonparsed_buffer, slice; rewrite length_take; lia).
  simpl. lia.
Qed.

Section Feed.
Variable malloc_ok : Z -> bool.
Hypothesis malloc_bound : forall n, malloc_ok n = true -> n <= cap.
Variable max_read_bytes : Z.
Hypothesis max_pos : 0 <= max_read_bytes <= cap.

(** Between two reads: room for the next one, and nothing to deliver. *)
Definition reading (others : list Z) (s : unpacker) (c0 : context visitor) (d0 : bytes) : Prop :=
  ok others s /\ max_read_bytes <= m_free s /\ awaits s c0 d0.

Lemma awaits_more s s1 c0 d0 d :
  awaits s c0 d0 -> pending s1 = pending s ++ d -> cx s1 = cx s -> about_to_read s1 c0 (d0 ++ d).
Proof.
  intros (Hi & Hd & c1 & Hr & Hu) Hp Hcx. split; [done|].
  rewrite Hp, Hcx, (run_more create_error_offsets _ _ _ _ _ (idle_ctx_ok _ Hi) Hr).
  by apply run_unref.
Qed.

Lemma awaits_same s s' c0 d0 : same_stream s s' -> awaits s c0 d0 -> awaits s' c0 d0.
Proof.
  intros [Hp Hu] (Hi & Hd & c1 & Hr & Hc). split; [done|]. split; [done|]. exists c1.
  rewrite Hp. split; [done|congruence].
Qed.

Lemma on_chunk_ok d os rest others s c0 d0 lim :
  reading others s c0 d0 -> m_limit (holder c0) = lim -> len d <= max_read_bytes ->
  len (d0 ++ d) < 2 ^ 32 -> stream lim (d0 ++ d) os rest ->
  match on_chunk malloc_ok max_read_bytes d s with
  | (Ok hs, s') => Forall2 reads_as hs os /\
      exists c0', reading (zones hs ++ others) s' c0' rest /\ m_limit (holder c0') = lim
  | (Throw e, _) => e = bad_alloc
  end.
Proof.
  intros (Hok & Hroom & Haw) Hlim Hd Hsz Hst. unfold on_chunk.
  destruct (receive_ok d others s Hok ltac:(lia)) as (s1 & H1 & Hok1 & Hp1 & Hc1 & _).
  assert (E : forall {B} (k : unit -> M B), (let! _ := write_buffer d in
      let! _ := buffer_consumed (len d) in k tt) s = k tt s1).
  { intros B k. unfold bind in H1 |- *. destruct (write_buffer d s) as [[[]|e] s0]; [|done].
    by rewrite H1. }
  rewrite (E _ (fun _ => _)). unfold bind at 1, get at 1.
  pose proof (awaits_more s s1 c0 d0 d Haw Hp1 Hc1) as Hrd.
  assert (Hfuel : (length os < S (S (length (nonparsed_buffer s1))))%nat)
    by (eapply drain_fuel; eauto).
  destruct (drain_ok lim _ _ _ _ others s1 c0 Hst Hok1 Hrd Hlim Hsz Hfuel)
    as (hs & s2 & c2 & Hdr & Hf2 & Hok2 & Haw2 & Hl2).
  rewrite (bind_ok _ _ _ _ _ Hdr). unfold bind at 1, get at 1. unfold buffer_capacity.
  destruct (Z.ltb_spec (m_free s2) max_read_bytes) as [Hlt|Hge].
  - pose proof (reserve_ok malloc_ok malloc_bound max_read_bytes _ s2 Hok2 max_pos) as Hres.
    unfold bind. destruct (reserve_buffer malloc_ok max_read_bytes s2) as [[[]|e] s3]; [|done].
    destruct Hres as (Hok3 & Hsame & Hfree & _). simpl. split; [done|]. exists c2.
    split; [|done]. split_and!; [done|done|by eapply awaits_same].
  - simpl. split; [done|]. exists c2. by split.
Qed.

Lemma on_chunks_ok lim : forall ds os rest others s c0 d0,
  reading others s c0 d0 -> m_limit (holder c0) = lim ->
  Forall (fun d => len d <= max_read_bytes) ds -> len (d0 ++ concat ds) < 2 ^ 32 ->
  stream lim (d0 ++ concat ds) os rest ->
  match on_chunks malloc_ok max_read_bytes ds s with
  | (Ok hs, s') => Forall2 reads_as hs os /\ exists c0' others',
      reading others' s' c0' rest /\ m_limit (holder c0') = lim /\
      forall b, occ b others' = occ b (zones hs ++ others)
  | (Throw e, _) => e = bad_alloc
  end.
Proof.
  induction ds as [|d ds IH]; intros os rest others s c0 d0 Hr Hlim Hds Hsz Hst; cbn [on_chunks].
  - cbn [concat] in *. rewrite app_nil_r in *. pose proof Hr as (_ & _ & _ & Hd & _).
    rewrite Hlim in Hd. inversion Hst as [? ?|? ? ? ? ? Hd' _]; subst; [|by rewrite Hd in Hd'].
    simpl. split; [done|]. by exists c0, others.
  - apply Forall_cons in Hds as [Hd Hds]. cbn [concat] in *. rewrite app_assoc in Hst, Hsz.
    destruct (stream_split _ _ _ _ _ _ (Nat.lt_succ_diag_r _) Hst)
      as (os1 & r1 & os2 & Hs1 & Hs2 & ->).
    assert (Hsz1 : len (d0 ++ d) < 2 ^ 32)
      by (rewrite len_app in Hsz; pose proof (len_nonneg (concat ds)); lia).
    pose proof (on_chunk_ok d os1 r1 others s c0 d0 lim Hr Hlim Hd Hsz1 Hs1) as H1.
    unfold bind at 1. destruct (on_chunk malloc_ok max_read_bytes d s) as [[hs|e] s1]; [|done].
    destruct H1 as (Hf1 & c1 & Hr1 & Hl1).
    assert (Hr1s : len (r1 ++ concat ds) < 2 ^ 32).
    { rewrite len_app in Hsz |- *. pose proof (stream_rest_len _ _ _ _ Hs1). lia. }
    specialize (IH os2 rest _ s1 c1 r1 Hr1 Hl1 Hds Hr1s Hs2). unfold bind.
    destruct (on_chunks malloc_ok max_read_bytes ds s1) as [[hs'|e] s2]; [|done].
    destruct IH as (Hf2 & c2 & others' & Hr2 & Hl2 & Hocc). simpl.
    split; [by apply Forall2_app|]. exists c2, others'. split_and!; [done|done|].
    intros b. rewrite Hocc, !occ_app. unfold zones.
    rewrite map_app, rev_app_distr, concat_app, occ_app. lia.
Qed.

End Feed.

(** ** Claims *)

Lemma new_ok malloc_ok f initial lim s :
  (forall n, malloc_ok n = true -> n <= cap) -> new_unpacker malloc_ok f initial lim = Ok s ->
  ok [] s /\ awaits s (cx s) [] /\ m_limit (holder (cx s)) = lim.
Proof.
  intros Hm. unfold new_unpacker.
  set (n := if initial <? COUNTER_SIZE then COUNTER_SIZE else initial).
  assert (4 <= n) by (unfold n, COUNTER_SIZE; destruct (Z.ltb_spec initial 4); lia).
  destruct (malloc_ok n) eqn:E; [|done]. apply Hm in E. unfold cap, COUNTER_SIZE in *.
  intros [= <-]. split_and!; [|split; [apply idle_new|split; [done|]]|done].
  - split; simpl; try done; rewrite ?wrap_small by lia; unfold cap; try lia.
    + intros b. rewrite occ_cons. destruct (decide (0 = b)) as [<-|]; [done|].
      by rewrite lookup_singleton_ne.
    + intros b Hb. rewrite occ_cons. by destruct (decide (0 = b)); [lia|].
  - by exists (new_context (new_visitor (Some f) lim)).
Qed.

Lemma lifetime_reading malloc_ok max f initial lim s0 s1 :
  (forall n, malloc_ok n = true -> n <= cap) -> 0 <= max <= cap ->
  new_unpacker malloc_ok f initial lim = Ok s0 ->
  reserve_buffer malloc_ok max s0 = (Ok tt, s1) ->
  exists c0, reading max [] s1 c0 [] /\ m_limit (holder c0) = lim.
Proof.
  intros Hm Hmax Hnew Hres. destruct (new_ok _ _ _ _ _ Hm Hnew) as (Hok & Haw & Hl).
  pose proof (reserve_ok malloc_ok Hm max [] s0 Hok Hmax) as H. rewrite Hres in H.
  destruct H as (Hok1 & Hsame & Hfree & _). exists (cx s0). split; [|done].
  split_and!; [done|done|by eapply awaits_same].
Qed.


Lemma packed_stream lim vs rest :
  Forall (fun v => wf_object v /\ within lim 1 v = true) vs -> decode lim rest = Short ->
  stream lim (concat (map encode vs) ++ rest) vs rest.
Proof.
  intros H Hr. induction H as [|v vs [Hw Hi] _ IH]; cbn [map concat]; [by constructor|].
  rewrite <- app_assoc. eapply stream_more; [by apply decode_encode|done].
Qed.

Definition small_malloc (n : Z) : bool := n <=? 2 ^ 20.

Lemma small_malloc_bound n : small_malloc n = true -> n <= cap.
Proof. unfold small_malloc, cap. intros H%Z.leb_le. lia. Qed.


(** *** Every buffer is released exactly once *)

Lemma finalizers_ok : forall z os s,
  counted (counts s) (z ++ os) ->
  exists s', call_finalizers z s = (Ok tt, s') /\ counted (counts s') os /\
    m_buffer s' = m_buffer s /\ m_z s' = m_z s.
Proof.
  induction z as [|b z IH]; intros os s Hc; [by exists s|]. cbn [call_finalizers].
  rewrite <- app_comm_cons in Hc. pose proof (counted_get _ _ _ Hc) as Hg.
  pose proof (counted_decr _ _ _ Hc) as Hd. cbv zeta in Hd.
  assert (E : decr_count b s = (Ok tt, set_counts
    (if occ b (z ++ os) + 1 - 1 =? 0 then delete b (counts s)
     else <[b := occ b (z ++ os) + 1 - 1]> (counts s)) s)).
  { unfold decr_count, bind, get_count. by rewrite Hg. }
  rewrite (bind_ok _ _ _ _ _ E). set (s1 := set_counts _ s) in *.
  destruct (IH os s1 Hd) as (s' & H1 & H2 & H3 & H4). by exists s'.
Qed.

Lemma drop_handles_ok : forall hs os s,
  counted (counts s) (concat (map zone_of hs) ++ os) ->
  exists s', drop_handles hs s = (Ok tt, s') /\ counted (counts s') os /\
    m_buffer s' = m_buffer s /\ m_z s' = m_z s.
Proof.
  induction hs as [|h hs IH]; intros os s Hc; [by exists s|]. cbn [drop_handles map concat] in *.
  rewrite <- app_assoc in Hc.
  destruct (finalizers_ok _ _ _ Hc) as (s1 & H1 & H2 & H3 & H4).
  assert (E : drop_handle h s = (Ok tt, s1)).
  { unfold drop_handle, zone_of in *. destruct (h_zone h); [done|]. simpl in H1. exact H1. }
  rewrite (bind_ok _ _ _ _ _ E). destruct (IH os s1 H2) as (s2 & E1 & E2 & E3 & E4).
  exists s2. split_and!; congruence || done.
Qed.

Lemma occ_zones b hs : occ b (zones hs) = occ b (concat (map zone_of hs)).
Proof.
  unfold zones. induction hs as [|h hs IH]; [done|]. cbn [map rev concat].
  rewrite concat_app, !occ_app, IH. simpl. rewrite app_nil_r. lia.
Qed.


