(* ===== verification/UnpackerMove.v ===== *)
(** * Moving an unpacker

    The move constructors of the unpackers (v2/create_object_visitor.hpp, v2/parse.hpp,
    v1/unpack.hpp). Between two objects a move changes nothing. In the middle of one, the
    streaming unpacker forgets the container it is in: the visitor's [m_obj], where the object is
    built, is not moved. *)

From S2P Require Import Prelude FloatBits MsgObject Parse Visitor Format Decode Unpacker UnpackerSpec.
From S2P Require UnpackV1 UnpackerV1.

(** [create_object_visitor(create_object_visitor&&)]: [m_obj] is a new object, and the bottom of
    [m_stack] points to it. *)
Definition move_visitor (v : visitor) : visitor := set_cells (<[(0, 0) := CNil]> (cells v)) v.

(** [unpacker(unpacker&&)] of v2: base classes and members, one by one. *)
Definition move_unpacker (s : unpacker) : unpacker :=
  set_cx {| m_trail := m_trail (cx s); m_cs := m_cs (cx s); m_stack := m_stack (cx s);
            holder := move_visitor (holder (cx s)) |} s.

(** That of v1: [m_ctx] is copied, with the objects in its stack. *)
Definition move_unpacker1 (s : UnpackerV1.unpacker) : UnpackerV1.unpacker :=
  {| UnpackerV1.mem := UnpackerV1.mem s; UnpackerV1.m_buffer := UnpackerV1.m_buffer s;
     UnpackerV1.m_used := UnpackerV1.m_used s; UnpackerV1.m_free := UnpackerV1.m_free s;
     UnpackerV1.m_off := UnpackerV1.m_off s; UnpackerV1.m_parsed := UnpackerV1.m_parsed s;
     UnpackerV1.m_z := UnpackerV1.m_z s;
     UnpackerV1.m_initial_buffer_size := UnpackerV1.m_initial_buffer_size s;
     UnpackerV1.m_ctx := UnpackerV1.m_ctx s; UnpackerV1.counts := UnpackerV1.counts s;
     UnpackerV1.next_id := UnpackerV1.next_id s |}.

(** Where an object would begin, the move of either changes nothing. *)
Lemma move_between_objects s : cells (holder (cx s)) !! (0, 0) = Some CNil -> move_unpacker s = s.
Proof.
  intros H. unfold move_unpacker, move_visitor. rewrite (insert_id _ _ _ H).
  destruct s as [? ? ? ? ? ? ? c ? ? ?], c as [? ? ? v], v. reflexivity.
Qed.

Lemma move_unpacker1_id s : move_unpacker1 s = s.
Proof. by destruct s. Qed.

(** An object taken out leaves the unpacker there. *)
Lemma next_between_objects s h r s' : next s = (Ok (true, h, r), s') ->
  cells (holder (cx s')) !! (0, 0) = Some CNil.
Proof.
  unfold next, parser_next, release_zone, reset, bind, get, modify, ret.
  destruct (execute_imp s) as [[[]|e] s1]; try done. destruct (flush_zone s1) as [[u|e] s2]; [|done].
  intros [= _ _ <-]. apply lookup_insert_eq.
Qed.

(** [[1, 2]] in two reads, the unpacker moved in between: nil from the one, the array from the other. *)
Definition first_read : bytes := [chr 0x92; chr 1].
Definition second_read : bytes := [chr 2].

Example moved_in_the_middle :
  match new_unpacker small_malloc default_reference_func 64 default_limit with
  | Ok s0 =>
    let s1 := (on_chunk small_malloc 8 first_read s0).2 in
    match on_chunk small_malloc 8 second_read (move_unpacker s1), on_chunk small_malloc 8 second_read s1 with
    | (Ok hs, _), (Ok hs', _) => mapM (h_get 5) hs = Some [NIL] /\
        mapM (h_get 5) hs' = Some [ARRAY [POSITIVE_INTEGER 1; POSITIVE_INTEGER 2]]
    | _, _ => False
    end
  | Throw _ => False
  end /\
  match UnpackerV1.new_unpacker small_malloc default_reference_func 64 default_limit with
  | Ok s0 =>
    match UnpackerV1.on_chunk small_malloc 8 first_read s0 with
    | Ok (_, s1) =>
      match UnpackerV1.on_chunk small_malloc 8 second_read (move_unpacker1 s1) with
      | Ok (hs, _) => mapM (UnpackerV1.h_get 5) hs = Some [ARRAY [POSITIVE_INTEGER 1; POSITIVE_INTEGER 2]]
      | Throw _ => False
      end
    | Throw _ => False
    end
  | Throw _ => False
  end.
Proof. vm_compute. done. Qed.
