(* ===== verification/Adaptors.v ===== *)
(** * Conversions between C++ values and objects

    Models the adaptors of v1/adaptor/: integers ([convert_integer],
    [object_char]), bool, nil, float and double, std::string, std::vector and
    std::tuple. A C++ type is an instance of [Adaptor]; its values are given
    by their mathematical value (integers), bit pattern (floats) or contents.
    [pack<T>] writes to a packer, [object_with_zone<T>] builds an object, and
    [convert<T>] overwrites a variable, whose previous value matters for the
    tuples it leaves partly untouched. The platform is x86-64 Linux ([lp64]). *)

From S2P Require Import Prelude FloatBits MsgObject Pack.

Inductive adaptor_exn := type_error | container_size_overflow.

(** [checked_get_container_size], for an 8-byte size type. *)
Definition checked_get_container_size (size : Z) : res adaptor_exn Z :=
  if 0xffffffff <? size then Throw container_size_overflow else Ok (wrap 32 size).

Class Adaptor (T : Type) := {
  convert : object -> T -> res adaptor_exn T;
  pack : T -> bytes -> res adaptor_exn bytes;
  to_object : T -> res adaptor_exn object;
  default_value : T;
}.

(** [object::as<T>]: a fresh variable is converted into. *)
Definition as_ (T : Type) `{Adaptor T} (o : object) : res adaptor_exn T := convert o default_value.

(** ** Integers *)

Inductive int_kind :=
| C_char | C_signed_char | C_short | C_int | C_long | C_long_long
| C_unsigned_char | C_unsigned_short | C_unsigned_int | C_unsigned_long
| C_unsigned_long_long.

Definition width (k : int_kind) : Z :=
  match k with
  | C_char | C_signed_char | C_unsigned_char => 8
  | C_short | C_unsigned_short => 16
  | C_int | C_unsigned_int => 32
  | C_long | C_long_long | C_unsigned_long | C_unsigned_long_long => 64
  end.

(** [std::numeric_limits<T>::is_signed], [min] and [max]. *)
Definition is_signed (k : int_kind) : bool :=
  match k with
  | C_char => CHAR_MIN lp64 <? 0
  | C_signed_char | C_short | C_int | C_long | C_long_long => true
  | _ => false
  end.
Definition int_min (k : int_kind) : Z := if is_signed k then - 2 ^ (width k - 1) else 0.
Definition int_max (k : int_kind) : Z := if is_signed k then 2 ^ (width k - 1) - 1 else 2 ^ width k - 1.

(** The cast to [T] of a value already checked. *)
Definition cast (k : int_kind) (z : Z) : Z :=
  if is_signed k then sext (width k) z else wrap (width k) z.

Definition convert_integer_signed (k : int_kind) (o : object) : res adaptor_exn Z :=
  match o with
  | POSITIVE_INTEGER u64 => if int_max k <? u64 then Throw type_error else Ok (cast k u64)
  | NEGATIVE_INTEGER i64 => if i64 <? int_min k then Throw type_error else Ok (cast k i64)
  | _ => Throw type_error
  end.

Definition convert_integer_unsigned (k : int_kind) (o : object) : res adaptor_exn Z :=
  match o with
  | POSITIVE_INTEGER u64 => if int_max k <? u64 then Throw type_error else Ok (cast k u64)
  | _ => Throw type_error
  end.

Definition convert_integer (k : int_kind) (o : object) : res adaptor_exn Z :=
  if is_signed k then convert_integer_signed k o else convert_integer_unsigned k o.

Definition object_integer (k : int_kind) (v : Z) : object :=
  if is_signed k then
    if v <? 0 then NEGATIVE_INTEGER v else POSITIVE_INTEGER v
  else POSITIVE_INTEGER v.

Definition pack_integer (k : int_kind) (v : Z) : bytes -> bytes :=
  match k with
  | C_char => pack_char lp64 v
  | C_signed_char => pack_signed_char v
  | C_short => pack_short lp64 v
  | C_int => pack_int lp64 v
  | C_long => pack_long lp64 v
  | C_long_long => pack_long_long lp64 v
  | C_unsigned_char => pack_unsigned_char v
  | C_unsigned_short => pack_unsigned_short lp64 v
  | C_unsigned_int => pack_unsigned_int lp64 v
  | C_unsigned_long => pack_unsigned_long lp64 v
  | C_unsigned_long_long => pack_unsigned_long_long lp64 v
  end.

(** The values of kind [k]. *)
Definition cint (k : int_kind) : Type := Z.

#[export] Instance int_adaptor (k : int_kind) : Adaptor (cint k) := {
  convert o _ := convert_integer k o;
  pack v o := Ok (pack_integer k v o);
  to_object v := Ok (object_integer k v);
  default_value := 0;
}.

(** ** bool and nil *)

#[export] Instance bool_adaptor : Adaptor bool := {
  convert o _ := match o with BOOLEAN b => Ok b | _ => Throw type_error end;
  pack (v : bool) o := Ok (if v then pack_true o else pack_false o);
  to_object v := Ok (BOOLEAN v);
  default_value := false;
}.

(** [type::nil_t] has one value. *)
Inductive nil_t := Nil.

#[export] Instance nil_adaptor : Adaptor nil_t := {
  convert o _ := match o with NIL => Ok Nil | _ => Throw type_error end;
  pack _ o := Ok (pack_nil o);
  to_object _ := Ok NIL;
  default_value := Nil;
}.

(** ** Floats *)

(** An integer of at most 64 bits as a double, or as a float: the nearest one,
    ties to even. *)
Definition f64_of_Z (z : Z) : Z :=
  let s := if z <? 0 then 1 else 0 in
  let m := Z.abs z in let k := Z.log2 m in
  if m =? 0 then 0
  else s * 2 ^ 63 + (k + 1022) * 2 ^ 52 + (if k <=? 52 then m * 2 ^ (52 - k) else rne m (k - 52)).

Definition f32_of_Z (z : Z) : Z :=
  let s := if z <? 0 then 1 else 0 in
  let m := Z.abs z in let k := Z.log2 m in
  if m =? 0 then 0
  else s * 2 ^ 31 + (k + 126) * 2 ^ 23 + (if k <=? 23 then m * 2 ^ (23 - k) else rne m (k - 23)).

Inductive float := Float (b : Z).
Inductive double := Double (b : Z).

#[export] Instance float_adaptor : Adaptor float := {
  convert o _ :=
    match o with
    | FLOAT32 z | FLOAT64 z => Ok (Float (narrow z))
    | POSITIVE_INTEGER z | NEGATIVE_INTEGER z => Ok (Float (f32_of_Z z))
    | _ => Throw type_error
    end;
  pack '(Float b) o := Ok (pack_float b o);
  to_object '(Float b) := Ok (FLOAT32 (widen b));
  default_value := Float 0;
}.

#[export] Instance double_adaptor : Adaptor double := {
  convert o _ :=
    match o with
    | FLOAT32 z | FLOAT64 z => Ok (Double z)
    | POSITIVE_INTEGER z | NEGATIVE_INTEGER z => Ok (Double (f64_of_Z z))
    | _ => Throw type_error
    end;
  pack '(Double b) o := Ok (pack_double b o);
  to_object '(Double b) := Ok (FLOAT64 b);
  default_value := Double 0;
}.

(** ** std::string *)

#[export] Instance string_adaptor : Adaptor bytes := {
  convert o _ := match o with BIN s | STR s => Ok s | _ => Throw type_error end;
  pack v o := (let? size := checked_get_container_size (len v) in
               Ok (pack_str_body v size (pack_str size o)))%res;
  to_object v := (let? _ := checked_get_container_size (len v) in Ok (STR v))%res;
  default_value := [];
}.

(** ** std::vector *)

Inductive vector (T : Type) := Vector (l : list T).
Arguments Vector {T} l.

Fixpoint map_res {E A B} (f : A -> res E B) (l : list A) : res E (list B) :=
  match l with
  | [] => Ok []
  | x :: l => (let? y := f x in let? ys := map_res f l in Ok (y :: ys))%res
  end.

(** [v.resize(n)]: new elements are default values, old ones stay. *)
Definition resize {T} `{Adaptor T} (n : nat) (l : list T) : list T :=
  take n l ++ replicate (n - length l) default_value.

(** Each element is converted over the one that is there. *)
Fixpoint convert_all {T} `{Adaptor T} (os : list object) (l : list T) : res adaptor_exn (list T) :=
  match os, l with
  | o :: os, x :: l => (let? y := convert o x in let? ys := convert_all os l in Ok (y :: ys))%res
  | _, _ => Ok []
  end.

Fixpoint pack_all {T} `{Adaptor T} (l : list T) (o : bytes) : res adaptor_exn bytes :=
  match l with
  | [] => Ok o
  | x :: l => (let? o := pack x o in pack_all l o)%res
  end.

#[export] Instance vector_adaptor (T : Type) `{Adaptor T} : Adaptor (vector T) := {
  convert o '(Vector l) :=
    match o with
    | ARRAY os => (let? l := convert_all os (resize (length os) l) in Ok (Vector l))%res
    | _ => Throw type_error
    end;
  pack '(Vector l) o := (let? size := checked_get_container_size (len l) in
                         pack_all l (pack_array size o))%res;
  to_object '(Vector l) :=
    match l with
    | [] => Ok (ARRAY [])
    | _ => (let? _ := checked_get_container_size (len l) in
            let? os := map_res to_object l in Ok (ARRAY os))%res
    end;
  default_value := Vector [];
}.

(** ** std::tuple

    A tuple is a nest of pairs ended by [tt]. [StdTupleConverter] goes through
    the elements in order and skips those the array is too short for. *)

Class TupleElems (T : Type) := {
  arity : Z;
  convert_elems : list object -> T -> res adaptor_exn T;
  pack_elems : T -> bytes -> res adaptor_exn bytes;
  object_elems : T -> res adaptor_exn (list object);
  default_elems : T;
}.

#[export] Instance no_elems : TupleElems unit := {
  arity := 0;
  convert_elems _ _ := Ok tt;
  pack_elems _ o := Ok o;
  object_elems _ := Ok [];
  default_elems := tt;
}.

#[export] Instance cons_elems (T R : Type) `{Adaptor T} `{TupleElems R} : TupleElems (T * R) := {
  arity := 1 + arity (T := R);
  convert_elems os v :=
    match os with
    | [] => Ok v
    | o :: os => (let? x := convert o v.1 in let? r := convert_elems os v.2 in Ok (x, r))%res
    end;
  pack_elems v o := (let? o := pack v.1 o in pack_elems v.2 o)%res;
  object_elems v := (let? x := to_object v.1 in let? xs := object_elems v.2 in Ok (x :: xs))%res;
  default_elems := (default_value, default_elems);
}.

Inductive tuple (T : Type) := Tuple (v : T).
Arguments Tuple {T} v.

#[export] Instance tuple_adaptor (T : Type) `{TupleElems T} : Adaptor (tuple T) := {
  convert o '(Tuple v) :=
    match o with
    | ARRAY os => (let? v := convert_elems os v in Ok (Tuple v))%res
    | _ => Throw type_error
    end;
  pack '(Tuple v) o := (let? size := checked_get_container_size (arity (T := T)) in
                        pack_elems v (pack_array size o))%res;
  to_object '(Tuple v) := (let? _ := checked_get_container_size (arity (T := T)) in
                           let? os := object_elems v in Ok (ARRAY os))%res;
  default_value := Tuple default_elems;
}.

(** An object packs and converts as itself; the result of a bound function
    goes through it. *)
#[export] Instance object_adaptor : Adaptor object := {
  convert o _ := Ok o;
  pack v o := Ok (pack_object v o);
  to_object v := Ok v;
  default_value := NIL;
}.
