(* ===== verification/AdaptorLaws.v ===== *)
(** * The adaptors agree with each other

    [AdaptorLaws]: what [pack<T>] writes is the encoding of what
    [object_with_zone<T>] builds, and [convert<T>] takes the value back out of it,
    whatever variable it overwrites. Every type built from the modelled ones
    satisfies it (the instances of Containers and Ordered are in ContainerLaws and
    OrderedSpec); with the parser's round trip, a value survives the network. *)

From S2P Require Import Prelude FloatBits MsgObject Pack Parse Visitor Format Decode Roundtrip Adaptors.

Class AdaptorLaws (T : Type) `{Adaptor T} := {
  (** The values of [T] that a program can have and a message can hold. *)
  valid : T -> Prop;
  laws v : valid v -> exists o,
    to_object v = Ok o /\ (forall w, convert o w = Ok v) /\ wf_object o /\
    forall b, pack v b = Ok (pack_object o b);
}.

(** ** Integers *)

Lemma cast_small k z : int_min k <= z <= int_max k -> cast k z = z.
Proof.
  unfold cast, int_min, int_max. intros Hz. destruct (is_signed k).
  - apply sext_wrap; [by destruct k|lia].
  - apply wrap_small. lia.
Qed.

(** An object that stands for the integer [z]. *)
Definition is_integer (o : object) (z : Z) : Prop := o = POSITIVE_INTEGER z \/ o = NEGATIVE_INTEGER z.

Lemma int_range k : - 2 ^ 63 <= int_min k <= 0 /\ 0 < int_max k < 2 ^ 64.
Proof. destruct k; vm_compute; intuition congruence. Qed.

Lemma convert_integer_ok k o z :
  wf_object o ->
  convert_integer k o = Ok z <-> is_integer o z /\ int_min k <= z <= int_max k.
Proof.
  intros Hw. pose proof (int_range k) as Hr. unfold convert_integer, is_integer.
  assert (Hu : is_signed k = false -> int_min k = 0) by (unfold int_min; by intros ->).
  destruct (is_signed k) eqn:Es;
    [unfold convert_integer_signed|unfold convert_integer_unsigned; specialize (Hu eq_refl)];
    destruct o; simpl in Hw; split; try done; try (by intros [[?|?] _]); try (intros [[?|?] ?]; by simplify_eq).
  - destruct (Z.ltb_spec (int_max k) u64); [done|]. intros [= <-].
    rewrite cast_small by lia. auto with lia.
  - intros [[[= ->]|[=]] ?]. destruct (Z.ltb_spec (int_max k) z); [lia|]. by rewrite cast_small.
  - destruct (Z.ltb_spec i64 (int_min k)); [done|]. intros [= <-].
    rewrite cast_small by lia. auto with lia.
  - intros [[[=]|[= ->]] ?]. destruct (Z.ltb_spec z (int_min k)); [lia|]. by rewrite cast_small.
  - destruct (Z.ltb_spec (int_max k) u64); [done|]. intros [= <-].
    rewrite cast_small by lia. auto with lia.
  - intros [[[= ->]|[=]] ?]. destruct (Z.ltb_spec (int_max k) z); [lia|]. by rewrite cast_small.
  - intros [[[=]|[= ->]] ?]. lia.
Qed.

(** C40. Converting an object to an integer type succeeds exactly when the
    object is an integer the type can hold, with that value; anything else throws
    [type_error]. No value is ever truncated. *)
Theorem convert_integer_exact k o :
  wf_object o ->
  match convert_integer k o with
  | Ok z => is_integer o z /\ int_min k <= z <= int_max k
  | Throw e => e = type_error /\ forall z, is_integer o z -> ~ int_min k <= z <= int_max k
  end.
Proof.
  intros Hw. destruct (convert_integer k o) as [z|e] eqn:E; [by apply convert_integer_ok|].
  split; [by destruct e; [|unfold convert_integer, convert_integer_signed, convert_integer_unsigned
    in E; repeat case_match; simplify_eq]|].
  intros z Hz Hr. assert (H : convert_integer k o = Ok z) by by apply convert_integer_ok.
  by rewrite H in E.
Qed.

(** The narrower packers write what the 64-bit one does. *)
Lemma pack_unsigned_eq v b :
  (0 <= v < 2 ^ 8 -> pack_imp_uint8 v b = pack_uint64 v b) /\
  (0 <= v < 2 ^ 16 -> pack_imp_uint16 v b = pack_uint64 v b) /\
  (0 <= v < 2 ^ 32 -> pack_imp_uint32 v b = pack_uint64 v b).
Proof.
  unfold pack_imp_uint8, pack_imp_uint16, pack_imp_uint32, pack_uint64, pack_imp_uint64.
  split_and!; intros; split_cmp; done.
Qed.

Lemma pack_signed_eq v b :
  (- 2 ^ 7 <= v < 2 ^ 7 -> pack_imp_int8 v b = pack_int64 v b) /\
  (- 2 ^ 15 <= v < 2 ^ 15 -> pack_imp_int16 v b = pack_int64 v b) /\
  (- 2 ^ 31 <= v < 2 ^ 31 -> pack_imp_int32 v b = pack_int64 v b).
Proof.
  unfold pack_imp_int8, pack_imp_int16, pack_imp_int32, pack_int64, pack_imp_int64.
  split_and!; intros; split_cmp; done.
Qed.

Lemma pack_nonneg_eq v b : 0 <= v < 2 ^ 63 -> pack_int64 v b = pack_uint64 v b.
Proof. intros. unfold pack_int64, pack_imp_int64, pack_uint64, pack_imp_uint64. split_cmp; done. Qed.

Lemma pack_object_integer k v b :
  int_min k <= v <= int_max k -> pack_integer k v b = pack_object (object_integer k v) b.
Proof.
  intros Hv. destruct (pack_unsigned_eq v b) as (U1 & U2 & U3).
  destruct (pack_signed_eq v b) as (S1 & S2 & S3). pose proof (pack_nonneg_eq v b) as N.
  unfold object_integer. unfold int_min, int_max in Hv.
  destruct k; cbn [is_signed width CHAR_MIN lp64 Z.ltb Z.compare] in *;
    try (destruct (Z.ltb_spec v 0)); cbn [pack_object pack_integer];
    unfold pack_char, pack_signed_char, pack_short, pack_int, pack_long, pack_long_long,
      pack_unsigned_char, pack_unsigned_short, pack_unsigned_int, pack_unsigned_long,
      pack_unsigned_long_long, pack_signed, pack_unsigned, dispatch; simpl in *;
    rewrite ?S1, ?S2, ?S3, ?U1, ?U2, ?U3 by lia; fold (pack_int64 v b); rewrite ?N by lia; done.
Qed.

Lemma object_integer_ok k v : int_min k <= v <= int_max k ->
  wf_object (object_integer k v) /\ is_integer (object_integer k v) v.
Proof.
  intros Hv. pose proof (int_range k). unfold object_integer, is_integer.
  destruct (is_signed k) eqn:Es; [destruct (Z.ltb_spec v 0)|]; simpl; auto with lia.
  unfold int_min in Hv. rewrite Es in Hv. auto with lia.
Qed.

#[export] Program Instance int_laws (k : int_kind) : AdaptorLaws (cint k) := {
  valid v := int_min k <= v <= int_max k;
}.
Next Obligation.
  intros k v Hv. exists (object_integer k v). destruct (object_integer_ok k v Hv) as [Hw Hi].
  split_and!; [done| |done|].
  - intros w. by apply convert_integer_ok.
  - intros b. simpl. by rewrite pack_object_integer.
Qed.

(** ** Scalars and strings *)

#[export] Program Instance bool_laws : AdaptorLaws bool := { valid _ := True }.
Next Obligation. intros v _. exists (BOOLEAN v). by split_and!; [..|by destruct v]. Qed.

#[export] Program Instance nil_laws : AdaptorLaws nil_t := { valid _ := True }.
Next Obligation. intros [] _. by exists NIL. Qed.

#[export] Program Instance float_laws : AdaptorLaws float := {
  valid v := match v with Float b => 0 <= b < 2 ^ 32 /\ f32_is_snan b = false end }.
Next Obligation.
  intros [b] [Hb Hn]. exists (FLOAT32 (widen b)). simpl. rewrite narrow_widen by done.
  split_and!; [done|done| |done]. by exists b.
Qed.

#[export] Program Instance double_laws : AdaptorLaws double := {
  valid v := match v with Double b => 0 <= b < 2 ^ 64 end }.
Next Obligation. intros [b] Hb. by exists (FLOAT64 b). Qed.

#[export] Program Instance object_laws : AdaptorLaws object := { valid o := wf_object o }.
Next Obligation. intros o Ho. by exists o. Qed.

Lemma checked_ok n : 0 <= n < 2 ^ 32 -> checked_get_container_size n = Ok n.
Proof.
  intros. unfold checked_get_container_size. destruct (Z.ltb_spec 0xffffffff n); [lia|].
  by rewrite wrap_small.
Qed.

#[export] Program Instance string_laws : AdaptorLaws bytes := { valid s := len s < 2 ^ 32 }.
Next Obligation.
  intros s Hs. cbv beta in Hs. pose proof (len_nonneg s). exists (STR s). simpl. rewrite !checked_ok by lia. simpl.
  split_and!; try done. intros b. unfold size32. by rewrite wrap_small by lia.
Qed.

(** ** Vectors *)

Lemma convert_all_laws {T} `{AdaptorLaws T} (l : list T) :
  Forall valid l -> exists os,
    map_res to_object l = Ok os /\ length os = length l /\
    (forall ws, length ws = length l -> convert_all os ws = Ok l) /\ Forall wf_object os /\
    forall b, pack_all l b = Ok (pack_list os b).
Proof.
  induction 1 as [|x l Hx _ (os & E1 & El & E2 & Hw & E3)].
  { exists []. split_and!; try done. }
  destruct (laws x Hx) as (o & F1 & F2 & F3 & F4). exists (o :: os). simpl.
  rewrite F1, E1. split_and!; [done|by rewrite El| |by constructor|].
  - intros [|w ws] Hl; [done|]. simpl. rewrite F2. simpl. rewrite E2 by (simpl in Hl; lia). done.
  - intros b. rewrite F4. simpl. by rewrite E3.
Qed.

Lemma length_resize {T} `{Adaptor T} n (l : list T) : length (resize n l) = n.
Proof. unfold resize. rewrite length_app, length_take, length_replicate. lia. Qed.

#[export] Program Instance vector_laws (T : Type) `{AdaptorLaws T} : AdaptorLaws (vector T) := {
  valid v := match v with Vector l => len l < 2 ^ 32 /\ Forall valid l end }.
Next Obligation.
  intros T HA HL [l] [Hl Hv]. destruct (convert_all_laws l Hv) as (os & E1 & El & E2 & Hw & E3).
  pose proof (len_nonneg l). assert (Hlen : len os = len l) by (unfold len; by rewrite El).
  exists (ARRAY os). simpl. rewrite checked_ok by lia. simpl. split_and!.
  - destruct l; [by destruct os|]. by rewrite E1.
  - intros [ws]. rewrite E2; [done|]. by rewrite length_resize.
  - lia.
  - by apply wf_array; split; [lia|].
  - intros b. rewrite E3. f_equal. symmetry.
    replace (len l) with (size32 os) by (unfold size32; rewrite wrap_small; lia).
    apply pack_object_ARRAY.
Qed.

(** ** Tuples *)

Class ElemsLaws (T : Type) `{TupleElems T} := {
  valid_elems : T -> Prop;
  elems_laws v : valid_elems v -> exists os,
    object_elems v = Ok os /\ len os = arity (T := T) /\
    (forall w, convert_elems os w = Ok v) /\ Forall wf_object os /\
    forall b, pack_elems v b = Ok (pack_list os b);
}.

#[export] Program Instance no_elems_laws : ElemsLaws unit := { valid_elems _ := True }.
Next Obligation. intros [] _. exists []. by split_and!. Qed.

#[export] Program Instance cons_elems_laws (T R : Type) `{AdaptorLaws T} `{ElemsLaws R} :
  ElemsLaws (T * R) := { valid_elems v := valid v.1 /\ valid_elems v.2 }.
Next Obligation.
  intros T R HA HL HT HE [x r] [Hx Hr]. simpl in Hx, Hr.
  destruct (laws x Hx) as (o & F1 & F2 & F3 & F4).
  destruct (elems_laws r Hr) as (os & E1 & El & E2 & Hw & E3).
  exists (o :: os). simpl. rewrite F1, E1. simpl. split_and!; [done| | |by constructor|].
  - rewrite len_cons. lia.
  - intros w. rewrite F2. simpl. by rewrite E2.
  - intros b. rewrite F4. simpl. by rewrite E3.
Qed.

#[export] Program Instance tuple_laws (T : Type) `{ElemsLaws T} : AdaptorLaws (tuple T) := {
  valid v := match v with Tuple v => valid_elems v /\ arity (T := T) < 2 ^ 32 end }.
Next Obligation.
  intros T HT HE [v] [Hv Ha]. destruct (elems_laws v Hv) as (os & E1 & El & E2 & Hw & E3).
  pose proof (len_nonneg os). exists (ARRAY os). simpl. rewrite checked_ok by lia. simpl.
  rewrite E1. split_and!; [done| |lia|by apply wf_array; split; [lia|]|].
  - intros [w]. by rewrite E2.
  - intros b. rewrite E3. f_equal. symmetry. rewrite <- El.
    replace (len os) with (size32 os) by (unfold size32; rewrite wrap_small; lia).
    apply pack_object_ARRAY.
Qed.


Lemma convert_integer_exact_witness :
  match convert_integer C_short (POSITIVE_INTEGER 40000) with
  | Ok z => is_integer (POSITIVE_INTEGER 40000) z /\ int_min C_short <= z <= int_max C_short
  | Throw e => e = type_error /\ forall z, is_integer (POSITIVE_INTEGER 40000) z ->
      ~ int_min C_short <= z <= int_max C_short
  end.
Proof. apply (convert_integer_exact C_short). simpl. lia. Defined.
