(* ===== verification/Containers.v ===== *)
(** * The adaptors of the other value types

    Models more of v1/adaptor/: std::pair, std::deque, std::list,
    std::forward_list, std::array, std::vector<bool>, the byte containers
    (std::vector<char> and of unsigned char), std::optional and the smart
    pointers, [raw_ref], [v4raw_ref], [ext], [ext_ref] and the integers of fixed
    width. Each is an instance of [Adaptor] over the adaptors of its parts; the
    sets and maps are in Ordered, the types whose conversion can be undefined in
    Structs. The [as] specialisations are not enabled for any of them: they
    need an element type with one, and no base type has. *)

From S2P Require Import Prelude FloatBits MsgObject Pack Adaptors.

#[local] Open Scope res_scope.

(** ** Sequences: std::deque, std::list, std::forward_list *)

Definition convert_sequence {T} `{Adaptor T} (o : object) (l : list T) : res adaptor_exn (list T) :=
  match o with
  | ARRAY os => convert_all os (resize (length os) l)
  | _ => Throw type_error
  end.

Definition pack_sequence {T} `{Adaptor T} (l : list T) (o : bytes) : res adaptor_exn bytes :=
  let? size := checked_get_container_size (len l) in
  pack_all l (pack_array size o).

Definition object_sequence {T} `{Adaptor T} (l : list T) : res adaptor_exn object :=
  match l with
  | [] => Ok (ARRAY [])
  | _ => let? _ := checked_get_container_size (len l) in
         let? os := map_res to_object l in Ok (ARRAY os)
  end.

Inductive deque (T : Type) := Deque (l : list T).
Inductive std_list (T : Type) := StdList (l : list T).
Inductive forward_list (T : Type) := ForwardList (l : list T).
Arguments Deque {T} l.
Arguments StdList {T} l.
Arguments ForwardList {T} l.

#[export] Instance deque_adaptor (T : Type) `{Adaptor T} : Adaptor (deque T) := {
  convert o '(Deque l) := let? l := convert_sequence o l in Ok (Deque l);
  pack '(Deque l) o := pack_sequence l o;
  to_object '(Deque l) := object_sequence l;
  default_value := Deque [];
}.

#[export] Instance list_adaptor (T : Type) `{Adaptor T} : Adaptor (std_list T) := {
  convert o '(StdList l) := let? l := convert_sequence o l in Ok (StdList l);
  pack '(StdList l) o := pack_sequence l o;
  to_object '(StdList l) := object_sequence l;
  default_value := StdList [];
}.

#[export] Instance forward_list_adaptor (T : Type) `{Adaptor T} : Adaptor (forward_list T) := {
  convert o '(ForwardList l) := let? l := convert_sequence o l in Ok (ForwardList l);
  pack '(ForwardList l) o := pack_sequence l o;
  to_object '(ForwardList l) := object_sequence l;
  default_value := ForwardList [];
}.

(** ** std::vector<bool>

    An empty array leaves the vector as it was. *)

Inductive vector_bool := VectorBool (l : list bool).

#[export] Instance vector_bool_adaptor : Adaptor vector_bool := {
  convert o '(VectorBool l) :=
    match o with
    | ARRAY [] => Ok (VectorBool l)
    | ARRAY os => let? l := map_res (as_ bool) os in Ok (VectorBool l)
    | _ => Throw type_error
    end;
  pack '(VectorBool l) o := pack_sequence l o;
  to_object '(VectorBool l) := object_sequence l;
  default_value := VectorBool [];
}.

(** ** std::array

    The elements an array is too short for keep their value. *)

Inductive std_array (N : nat) (T : Type) := StdArray (l : list T).
Arguments StdArray {N T} l.

Fixpoint convert_prefix {T} `{Adaptor T} (os : list object) (l : list T) : res adaptor_exn (list T) :=
  match os, l with
  | o :: os, x :: l => let? y := convert o x in let? ys := convert_prefix os l in Ok (y :: ys)
  | _, _ => Ok l
  end.

#[export] Instance array_adaptor (N : nat) (T : Type) `{Adaptor T} : Adaptor (std_array N T) := {
  convert o '(StdArray l) :=
    match o with
    | ARRAY os => if Z.of_nat N <? len os then Throw type_error
                  else let? l := convert_prefix os l in Ok (StdArray l)
    | _ => Throw type_error
    end;
  pack '(StdArray l) o := pack_sequence l o;
  to_object '(StdArray l) := object_sequence l;
  default_value := StdArray (replicate N default_value);
}.

(** ** std::pair: exactly two elements *)

Inductive pair (T1 T2 : Type) := Pair (first : T1) (second : T2).
Arguments Pair {T1 T2} first second.

#[export] Instance pair_adaptor (T1 T2 : Type) `{Adaptor T1} `{Adaptor T2} : Adaptor (pair T1 T2) := {
  convert o '(Pair a b) :=
    match o with
    | ARRAY [x; y] => let? a := convert x a in let? b := convert y b in Ok (Pair a b)
    | _ => Throw type_error
    end;
  pack '(Pair a b) o := let? o := pack a (pack_array 2 o) in pack b o;
  to_object '(Pair a b) := let? x := to_object a in let? y := to_object b in Ok (ARRAY [x; y]);
  default_value := Pair default_value default_value;
}.

(** ** std::optional, std::shared_ptr, std::unique_ptr

    Nil is the empty one. A new value is made for any other object. *)

Definition convert_nullable {T} `{Adaptor T} (o : object) : res adaptor_exn (option T) :=
  if is_nil o then Ok None else let? v := as_ T o in Ok (Some v).

Definition pack_nullable {T} `{Adaptor T} (v : option T) (o : bytes) : res adaptor_exn bytes :=
  match v with Some v => pack v o | None => Ok (pack_nil o) end.

Definition object_nullable {T} `{Adaptor T} (v : option T) : res adaptor_exn object :=
  match v with Some v => to_object v | None => Ok NIL end.

Inductive optional (T : Type) := Optional (v : option T).
Inductive shared_ptr (T : Type) := SharedPtr (v : option T).
Inductive unique_ptr (T : Type) := UniquePtr (v : option T).
Arguments Optional {T} v.
Arguments SharedPtr {T} v.
Arguments UniquePtr {T} v.

#[export] Instance optional_adaptor (T : Type) `{Adaptor T} : Adaptor (optional T) := {
  convert o _ := let? v := convert_nullable o in Ok (Optional v);
  pack '(Optional v) o := pack_nullable v o;
  to_object '(Optional v) := object_nullable v;
  default_value := Optional None;
}.

#[export] Instance shared_ptr_adaptor (T : Type) `{Adaptor T} : Adaptor (shared_ptr T) := {
  convert o _ := let? v := convert_nullable o in Ok (SharedPtr v);
  pack '(SharedPtr v) o := pack_nullable v o;
  to_object '(SharedPtr v) := object_nullable v;
  default_value := SharedPtr None;
}.

#[export] Instance unique_ptr_adaptor (T : Type) `{Adaptor T} : Adaptor (unique_ptr T) := {
  convert o _ := let? v := convert_nullable o in Ok (UniquePtr v);
  pack '(UniquePtr v) o := pack_nullable v o;
  to_object '(UniquePtr v) := object_nullable v;
  default_value := UniquePtr None;
}.

(** ** Bytes: std::vector<char>, std::vector<unsigned char>, [raw_ref], [v4raw_ref] *)

Definition pack_binary (v : bytes) (o : bytes) : res adaptor_exn bytes :=
  let? size := checked_get_container_size (len v) in
  Ok (if size =? 0 then pack_bin size o else pack_bin_body v size (pack_bin size o)).

Definition convert_binary (o : object) : res adaptor_exn bytes :=
  match o with BIN s | STR s => Ok s | _ => Throw type_error end.

Inductive vector_char := VectorChar (s : bytes).
Inductive vector_unsigned_char := VectorUnsignedChar (s : bytes).

#[export] Instance vector_char_adaptor : Adaptor vector_char := {
  convert o _ := let? s := convert_binary o in Ok (VectorChar s);
  pack '(VectorChar s) o := pack_binary s o;
  to_object '(VectorChar s) := let? _ := checked_get_container_size (len s) in Ok (BIN s);
  default_value := VectorChar [];
}.

#[export] Instance vector_unsigned_char_adaptor : Adaptor vector_unsigned_char := {
  convert o _ := let? s := convert_binary o in Ok (VectorUnsignedChar s);
  pack '(VectorUnsignedChar s) o := pack_binary s o;
  to_object '(VectorUnsignedChar s) := let? _ := checked_get_container_size (len s) in Ok (BIN s);
  default_value := VectorUnsignedChar [];
}.

(** The two references are the bytes they refer to; their size is a [uint32_t]. *)
Inductive raw_ref := RawRef (s : bytes).
Inductive v4raw_ref := V4rawRef (s : bytes).

#[export] Instance raw_ref_adaptor : Adaptor raw_ref := {
  convert o _ := match o with BIN s => Ok (RawRef s) | _ => Throw type_error end;
  pack '(RawRef s) o := Ok (pack_bin_body s (len s) (pack_bin (len s) o));
  to_object '(RawRef s) := Ok (BIN s);
  default_value := RawRef [];
}.

#[export] Instance v4raw_ref_adaptor : Adaptor v4raw_ref := {
  convert o _ := match o with STR s => Ok (V4rawRef s) | _ => Throw type_error end;
  pack '(V4rawRef s) o := Ok (pack_v4raw_body s (len s) (pack_v4raw (len s) o));
  to_object '(V4rawRef s) := Ok (STR s);
  default_value := V4rawRef [];
}.

(** [std::memcmp(ptr, x.ptr, size) < 0] *)
Fixpoint memcmp_less (a b : bytes) : bool :=
  match a, b with
  | x :: a, y :: b => if u8 x <? u8 y then true else if u8 y <? u8 x then false else memcmp_less a b
  | _, _ => false
  end.

(** [raw_ref::operator<]: shorter first, then byte by byte. *)
Definition raw_ref_less (x y : raw_ref) : bool :=
  match x, y with
  | RawRef a, RawRef b => if len a =? len b then memcmp_less a b else len a <? len b
  end.

Definition raw_ref_eqb (x y : raw_ref) : bool :=
  match x, y with
  | RawRef a, RawRef b => (len a =? len b) && memcmp_eq (length a) a b
  end.

(** ** Extension types

    [m_data] is the type byte and the data; its size is that of a [uint32_t]
    plus one. *)

Inductive ext := Ext (m_data : bytes).

Definition new_ext (t : byte) (p : bytes) : ext := Ext (t :: p).
Definition ext_type (v : ext) : byte := match v with Ext (t :: _) => t | _ => chr 0 end.
Definition ext_data (v : ext) : bytes := match v with Ext d => drop 1 d end.
Definition ext_size (v : ext) : Z := match v with Ext d => wrap 32 (wrap 32 (len d) - 1) end.

#[export] Instance ext_adaptor : Adaptor ext := {
  convert o _ := match o with EXT t d => Ok (new_ext t d) | _ => Throw type_error end;
  pack v o := Ok (pack_ext_body (ext_data v) (ext_size v) (pack_ext (ext_size v) (ext_type v) o));
  to_object v := Ok (EXT (ext_type v) (take (Z.to_nat (ext_size v)) (ext_data v)));
  default_value := Ext [chr 0];
}.

(** An [ext_ref] points to a type byte and [m_size] bytes of data after it. One of no
    bytes points to its own [m_size], which is zero (a copy, to that of the original). *)
Inductive ext_ref := ExtRef (m_ptr : bytes) (m_size : Z).

Definition new_ext_ref (p : bytes) (s : Z) : ext_ref :=
  if s =? 0 then ExtRef (replicate 4 (chr 0)) 0 else ExtRef p (s - 1).

Definition ext_ref_type (v : ext_ref) : byte := match v with ExtRef p _ => default (chr 0) (head p) end.
Definition ext_ref_data (v : ext_ref) : bytes :=
  match v with ExtRef p s => take (Z.to_nat s) (drop 1 p) end.
Definition ext_ref_size (v : ext_ref) : Z := match v with ExtRef _ s => s end.

#[export] Instance ext_ref_adaptor : Adaptor ext_ref := {
  convert o _ :=
    match o with
    | EXT t d => Ok (new_ext_ref (t :: d) (wrap 32 (len d + 1)))
    | _ => Throw type_error
    end;
  pack v o := Ok (pack_ext_body (ext_ref_data v) (ext_ref_size v)
                    (pack_ext (ext_ref_size v) (ext_ref_type v) o));
  to_object v := Ok (EXT (ext_ref_type v) (ext_ref_data v));
  default_value := new_ext_ref [] 0;
}.

(** [operator==]: [m_size] bytes from the type byte on, so not the last one. *)
Definition ext_ref_eqb (x y : ext_ref) : bool :=
  match x, y with
  | ExtRef p s, ExtRef q t => (s =? t) && memcmp_eq (Z.to_nat s) p q
  end.

(** ** Integers of fixed width: always written with all their bytes *)

Inductive fix_kind := F_int8 | F_int16 | F_int32 | F_int64 | F_uint8 | F_uint16 | F_uint32 | F_uint64.

(** [intN_t] as the platform names it. *)
Definition fix_int_kind (k : fix_kind) : int_kind :=
  match k with
  | F_int8 => C_signed_char | F_int16 => C_short | F_int32 => C_int | F_int64 => C_long
  | F_uint8 => C_unsigned_char | F_uint16 => C_unsigned_short | F_uint32 => C_unsigned_int
  | F_uint64 => C_unsigned_long
  end.

Definition pack_fix (k : fix_kind) (v : Z) : bytes -> bytes :=
  match k with
  | F_int8 => pack_fix_int8 v | F_int16 => pack_fix_int16 v | F_int32 => pack_fix_int32 v
  | F_int64 => pack_fix_int64 v
  | F_uint8 => pack_fix_uint8 v | F_uint16 => pack_fix_uint16 v | F_uint32 => pack_fix_uint32 v
  | F_uint64 => pack_fix_uint64 v
  end.

Inductive fix_int (k : fix_kind) := FixInt (value : Z).
Arguments FixInt {k} value.

#[export] Instance fix_int_adaptor (k : fix_kind) : Adaptor (fix_int k) := {
  convert o _ := let? v := convert_integer (fix_int_kind k) o in Ok (FixInt v);
  pack '(FixInt v) o := Ok (pack_fix k v o);
  to_object '(FixInt v) := Ok (object_integer (fix_int_kind k) v);
  default_value := FixInt 0;
}.
