(* ===== verification/Ordered.v ===== *)
(** * Sets and maps

    Models the adaptors of std::set, std::multiset, std::map, std::multimap
    (v1/adaptor/set.hpp, map.hpp) and [assoc_vector]. A container is the list
    of its elements in iteration order; insertion is that of the C++ standard: a
    set ignores an element equivalent to one it has, a multiset puts it after those, and
    [m[k]] finds or makes the slot of [k]. The comparison is an instance of
    [Compare]; [std::sort], which may order equivalent elements as it likes, is
    one of [StdSort]. *)

From S2P Require Import Prelude FloatBits MsgObject Pack Adaptors Containers.

#[local] Open Scope res_scope.

(** ** Comparison *)

Class Compare (T : Type) := less : T -> T -> bool.

#[export] Instance int_compare (k : int_kind) : Compare (cint k) := Z.ltb.

(** [std::string::operator<]: byte by byte as unsigned, then the shorter first. *)
Fixpoint string_less (a b : bytes) : bool :=
  match a, b with
  | _, [] => false
  | [], _ => true
  | x :: a, y :: b => if u8 x <? u8 y then true else if u8 y <? u8 x then false else string_less a b
  end.

#[export] Instance string_compare : Compare bytes := string_less.

(** [std::pair::operator<] *)
#[export] Instance pair_compare (A B : Type) `{Compare A} `{Compare B} : Compare (pair A B) :=
  fun '(Pair a b) '(Pair c d) => if less a c then true else if less c a then false else less b d.

Class StdSort := std_sort : forall {A : Type}, (A -> A -> bool) -> list A -> list A.

(** ** Insertion *)

Section Insertion.
Context {T : Type} `{Compare T}.

Fixpoint set_insert (x : T) (l : list T) : list T :=
  match l with
  | [] => [x]
  | y :: r => if less x y then x :: l else if less y x then y :: set_insert x r else l
  end.

Fixpoint multiset_insert (x : T) (l : list T) : list T :=
  match l with
  | [] => [x]
  | y :: r => if less x y then x :: l else y :: multiset_insert x r
  end.

Context {V : Type} `{Adaptor V}.

(** [tmp[k]]: the value of the slot, then the map with another value there. *)
Fixpoint map_at (k : T) (l : list (T * V)) : V :=
  match l with
  | [] => default_value
  | (k', v) :: r => if less k k' then default_value else if less k' k then map_at k r else v
  end.

Fixpoint map_store (k : T) (v : V) (l : list (T * V)) : list (T * V) :=
  match l with
  | [] => [(k, v)]
  | (k', v') :: r =>
    if less k k' then (k, v) :: l else if less k' k then (k', v') :: map_store k v r else (k', v) :: r
  end.

Fixpoint multimap_insert (k : T) (v : V) (l : list (T * V)) : list (T * V) :=
  match l with
  | [] => [(k, v)]
  | (k', v') :: r => if less k k' then (k, v) :: l else (k', v') :: multimap_insert k v r
  end.
End Insertion.

(** ** Sets: the array is read from its end *)

Fixpoint insert_all {T} `{Adaptor T} (ins : T -> list T -> list T) (os : list object) (tmp : list T)
    : res adaptor_exn (list T) :=
  match os with
  | [] => Ok tmp
  | o :: os => let? x := as_ T o in insert_all ins os (ins x tmp)
  end.

Definition convert_set {T} `{Adaptor T} (ins : T -> list T -> list T) (o : object)
    : res adaptor_exn (list T) :=
  match o with
  | ARRAY os => insert_all ins (rev os) []
  | _ => Throw type_error
  end.

Inductive std_set (T : Type) := StdSet (l : list T).
Inductive multiset (T : Type) := Multiset (l : list T).
Arguments StdSet {T} l.
Arguments Multiset {T} l.

#[export] Instance set_adaptor (T : Type) `{Adaptor T} `{Compare T} : Adaptor (std_set T) := {
  convert o _ := let? l := convert_set set_insert o in Ok (StdSet l);
  pack '(StdSet l) o := pack_sequence l o;
  to_object '(StdSet l) := object_sequence l;
  default_value := StdSet [];
}.

#[export] Instance multiset_adaptor (T : Type) `{Adaptor T} `{Compare T} : Adaptor (multiset T) := {
  convert o _ := let? l := convert_set multiset_insert o in Ok (Multiset l);
  pack '(Multiset l) o := pack_sequence l o;
  to_object '(Multiset l) := object_sequence l;
  default_value := Multiset [];
}.

(** ** Maps *)

Section Pairs.
Context {K V : Type} `{Adaptor K} `{Adaptor V}.

Fixpoint pack_kvs (l : list (K * V)) (o : bytes) : res adaptor_exn bytes :=
  match l with
  | [] => Ok o
  | (k, v) :: l => let? o := pack k o in let? o := pack v o in pack_kvs l o
  end.

Definition pack_map_of (l : list (K * V)) (o : bytes) : res adaptor_exn bytes :=
  let? size := checked_get_container_size (len l) in pack_kvs l (pack_map size o).

Definition object_kv (kv : K * V) : res adaptor_exn (object * object) :=
  let? x := to_object kv.1 in let? y := to_object kv.2 in Ok (x, y).

Definition object_map_of (l : list (K * V)) : res adaptor_exn object :=
  match l with
  | [] => Ok (MAP [])
  | _ => let? _ := checked_get_container_size (len l) in
         let? os := map_res object_kv l in Ok (MAP os)
  end.

Context `{Compare K}.

(** [p->key.convert(key); p->val.convert(tmp[key])]: a key that comes again is converted
    over the value it has. *)
Fixpoint map_of (os : list (object * object)) (tmp : list (K * V)) : res adaptor_exn (list (K * V)) :=
  match os with
  | [] => Ok tmp
  | kv :: os =>
    let? k := as_ K kv.1 in
    let? v := convert kv.2 (map_at k tmp) in
    map_of os (map_store k v tmp)
  end.

Fixpoint multimap_of (os : list (object * object)) (tmp : list (K * V)) : res adaptor_exn (list (K * V)) :=
  match os with
  | [] => Ok tmp
  | kv :: os =>
    let? k := as_ K kv.1 in
    let? v := as_ V kv.2 in
    multimap_of os (multimap_insert k v tmp)
  end.

(** The elements of an [assoc_vector] are converted in place, then sorted by key. *)
Fixpoint convert_kvs (os : list (object * object)) (l : list (K * V)) : res adaptor_exn (list (K * V)) :=
  match os, l with
  | kv :: os, (k, v) :: l =>
    let? k := convert kv.1 k in
    let? v := convert kv.2 v in
    let? l := convert_kvs os l in Ok ((k, v) :: l)
  | _, _ => Ok []
  end.

Definition pair_first_less (x y : K * V) : bool := less x.1 y.1.

Definition resize_kvs (n : nat) (l : list (K * V)) : list (K * V) :=
  take n l ++ replicate (n - length l) (default_value, default_value).
End Pairs.

Inductive std_map (K V : Type) := StdMap (l : list (K * V)).
Inductive multimap (K V : Type) := Multimap (l : list (K * V)).
Inductive assoc_vector (K V : Type) := AssocVector (l : list (K * V)).
Arguments StdMap {K V} l.
Arguments Multimap {K V} l.
Arguments AssocVector {K V} l.

#[export] Instance map_adaptor (K V : Type) `{Adaptor K} `{Adaptor V} `{Compare K} :
    Adaptor (std_map K V) := {
  convert o _ :=
    match o with
    | MAP os => let? l := map_of os [] in Ok (StdMap l)
    | _ => Throw type_error
    end;
  pack '(StdMap l) o := pack_map_of l o;
  to_object '(StdMap l) := object_map_of l;
  default_value := StdMap [];
}.

#[export] Instance multimap_adaptor (K V : Type) `{Adaptor K} `{Adaptor V} `{Compare K} :
    Adaptor (multimap K V) := {
  convert o _ :=
    match o with
    | MAP os => let? l := multimap_of os [] in Ok (Multimap l)
    | _ => Throw type_error
    end;
  pack '(Multimap l) o := pack_map_of l o;
  to_object '(Multimap l) := object_map_of l;
  default_value := Multimap [];
}.

#[export] Instance assoc_vector_adaptor (K V : Type) `{Adaptor K} `{Adaptor V} `{Compare K} `{StdSort} :
    Adaptor (assoc_vector K V) := {
  convert o '(AssocVector l) :=
    match o with
    | MAP [] => Ok (AssocVector [])
    | MAP os => let? l := convert_kvs os (resize_kvs (length os) l) in
                Ok (AssocVector (std_sort pair_first_less l))
    | _ => Throw type_error
    end;
  pack '(AssocVector l) o := pack_map_of l o;
  to_object '(AssocVector l) := object_map_of l;
  default_value := AssocVector [];
}.
