(* ===== verification/ContainerLaws.v ===== *)
(** * The laws of the other value types

    Instances of [AdaptorLaws] for the types of Containers: what holds of
    integers, strings and vectors holds of sequences, arrays, pairs, optional
    values, byte containers and extension types built from them. The two types that
    do not write what the packer writes for their object ([v4raw_ref] and the
    integers of fixed width) have a round trip of their own. *)

From S2P Require Import Prelude FloatBits MsgObject Pack Parse Visitor Format Decode.
From S2P Require Import Roundtrip Adaptors AdaptorLaws Containers.

(** ** Sequences *)

Lemma sequence_laws {T} `{AdaptorLaws T} (l : list T) :
  len l < 2 ^ 32 -> Forall valid l -> exists o,
    object_sequence l = Ok o /\ (forall w, convert_sequence o w = Ok l) /\ wf_object o /\
    forall b, pack_sequence l b = Ok (pack_object o b).
Proof.
  intros Hl Hv. assert (Hvl : valid (Vector l)) by done.
  destruct (laws (Vector l) Hvl) as (o & E1 & E2 & Hw & E3).
  exists o. split_and!; [exact E1| |done|exact E3].
  intros w. specialize (E2 (Vector w)). simpl in E2. unfold convert_sequence.
  destruct o; try done. destruct (convert_all _ _); simpl in E2; congruence.
Qed.

Ltac sequence :=
  intros T HA HL [l] [Hl Hv];
  destruct (sequence_laws l Hl Hv) as (o & E1 & E2 & Hw & E3);
  exists o; simpl; split_and!; [done| |done|done];
  intros [w]; by rewrite E2.

#[export] Program Instance deque_laws (T : Type) `{AdaptorLaws T} : AdaptorLaws (deque T) := {
  valid v := match v with Deque l => len l < 2 ^ 32 /\ Forall valid l end }.
Next Obligation. sequence. Qed.

#[export] Program Instance list_laws (T : Type) `{AdaptorLaws T} : AdaptorLaws (std_list T) := {
  valid v := match v with StdList l => len l < 2 ^ 32 /\ Forall valid l end }.
Next Obligation. sequence. Qed.

#[export] Program Instance forward_list_laws (T : Type) `{AdaptorLaws T} : AdaptorLaws (forward_list T) := {
  valid v := match v with ForwardList l => len l < 2 ^ 32 /\ Forall valid l end }.
Next Obligation. sequence. Qed.

(** ** std::vector<bool>: the vector is left as it was by an empty array *)

#[export] Program Instance vector_bool_laws : AdaptorLaws vector_bool := {
  valid v := match v with VectorBool l => len l < 2 ^ 32 /\ l <> [] end }.
Next Obligation.
  intros [l] [Hl Hn]. destruct (sequence_laws l Hl) as (o & E1 & E2 & Hw & E3); [by apply Forall_true|].
  exists o. simpl. split_and!; [done| |done|done].
  intros [w]. specialize (E2 l). unfold convert_sequence in E2.
  destruct o as [| | | | | | | |os| |]; try done.
  assert (E : forall os ws, length ws = length os -> convert_all os ws = map_res (as_ bool) os).
  { clear. induction os as [|o os IH]; intros [|w ws] Hw; try done. simpl in *.
    rewrite IH by lia. by destruct o. }
  rewrite E in E2 by apply length_resize. destruct os; [by injection E2 as <-|]. by rewrite E2.
Qed.

Example vector_bool_keeps_elements :
  convert (ARRAY []) (VectorBool [true; false]) = Ok (VectorBool [true; false]).
Proof. reflexivity. Qed.

(** ** std::array *)

Lemma convert_prefix_all {T} `{AdaptorLaws T} (os : list object) (l ws : list T) :
  (forall ws, length ws = length l -> convert_all os ws = Ok l) -> length os = length l ->
  length ws = length l -> convert_prefix os ws = Ok l.
Proof.
  intros E Ho Hw. rewrite <- (E ws Hw). rewrite <- Ho in Hw. clear E Ho. revert ws Hw.
  induction os as [|o os IH]; intros [|w ws] Hw; try done. simpl in *.
  destruct (convert o w); [|done]. simpl. by rewrite IH by lia.
Qed.

Program Definition array_valid (N : nat) {T} `{AdaptorLaws T} (v : std_array N T) : Prop :=
  match v with StdArray l => length l = N /\ Z.of_nat N < 2 ^ 32 /\ Forall valid l end.

(** The arrays of [N] elements agree whatever array of [N] elements they overwrite. *)
Lemma array_laws (N : nat) {T} `{AdaptorLaws T} (v : std_array N T) :
  array_valid N v -> exists o,
    to_object v = Ok o /\ wf_object o /\ (forall b, pack v b = Ok (pack_object o b)) /\
    forall w : list T, length w = N -> convert o (StdArray (N := N) w) = Ok v.
Proof.
  destruct v as [l]. intros (Hl & HN & Hv). simpl.
  destruct (sequence_laws l) as (o & E1 & _ & Hw & E3); [unfold len; lia|done|].
  exists o. split_and!; [done..|]. intros w Hlw.
  destruct (convert_all_laws l Hv) as (os & F1 & Fl & F2 & _ & _).
  assert (Eo : o = ARRAY os).
  { unfold object_sequence in E1. destruct l as [|x l]; [by destruct os; simplify_eq|].
    rewrite checked_ok, F1 in E1 by (unfold len in *; lia). by injection E1. }
  subst o. simpl. destruct (Z.ltb_spec (Z.of_nat N) (len os)); [unfold len in *; lia|].
  by rewrite (convert_prefix_all os l) by (done || lia).
Qed.

(** ** Pairs *)

#[export] Program Instance pair_laws (A B : Type) `{AdaptorLaws A} `{AdaptorLaws B} :
  AdaptorLaws (pair A B) := { valid v := match v with Pair a b => valid a /\ valid b end }.
Next Obligation.
  intros A B HA LA HB LB [a b] [Ha Hb].
  destruct (laws a Ha) as (x & E1 & E2 & Hx & E3). destruct (laws b Hb) as (y & F1 & F2 & Hy & F3).
  exists (ARRAY [x; y]). simpl. rewrite E1, F1. simpl. split_and!; [done| |reflexivity|done..|].
  - intros [c d]. rewrite E2. simpl. by rewrite F2.
  - intros o. rewrite E3. simpl. by rewrite F3.
Qed.

(** ** Optional values: a value whose object is nil would come back as none *)

Definition nullable_valid {T} `{AdaptorLaws T} (v : option T) : Prop :=
  match v with None => True | Some v => valid v /\ to_object v <> Ok NIL end.

Lemma nullable_laws {T} `{AdaptorLaws T} (v : option T) : nullable_valid v -> exists o,
  object_nullable v = Ok o /\ convert_nullable o = Ok v /\ wf_object o /\
  forall b, pack_nullable v b = Ok (pack_object o b).
Proof.
  destruct v as [v|]; [intros [Hv Hn]|intros _; by exists NIL].
  destruct (laws v Hv) as (o & E1 & E2 & Hw & E3). exists o. simpl.
  split_and!; [done| |done..]. unfold convert_nullable, as_. rewrite E2. simpl.
  by destruct o.
Qed.

Ltac nullable :=
  intros T HA HL [v] Hv; destruct (nullable_laws v Hv) as (o & E1 & E2 & Hw & E3);
  exists o; simpl; split_and!; [done| |done..]; intros _; by rewrite E2.

#[export] Program Instance optional_laws (T : Type) `{AdaptorLaws T} : AdaptorLaws (optional T) := {
  valid v := match v with Optional v => nullable_valid v end }.
Next Obligation. nullable. Qed.

#[export] Program Instance shared_ptr_laws (T : Type) `{AdaptorLaws T} : AdaptorLaws (shared_ptr T) := {
  valid v := match v with SharedPtr v => nullable_valid v end }.
Next Obligation. nullable. Qed.

#[export] Program Instance unique_ptr_laws (T : Type) `{AdaptorLaws T} : AdaptorLaws (unique_ptr T) := {
  valid v := match v with UniquePtr v => nullable_valid v end }.
Next Obligation. nullable. Qed.

Example nil_optional_is_lost :
  (let? o := to_object (Optional (Some Nil)) in as_ (optional nil_t) o)%res = Ok (Optional None).
Proof. reflexivity. Qed.

(** ** Bytes *)

Lemma pack_binary_ok s b : len s < 2 ^ 32 -> pack_binary s b = Ok (pack_object (BIN s) b).
Proof.
  intros Hs. pose proof (len_nonneg s). unfold pack_binary. rewrite checked_ok by lia. simpl.
  unfold size32. rewrite wrap_small by lia. destruct (Z.eqb_spec (len s) 0) as [E|]; [|done].
  rewrite E. unfold pack_bin_body, append_buffer. by rewrite take_0, app_nil_r.
Qed.

#[export] Program Instance vector_char_laws : AdaptorLaws vector_char := {
  valid v := match v with VectorChar s => len s < 2 ^ 32 end }.
Next Obligation.
  intros [s] Hs. simpl in Hs. pose proof (len_nonneg s). exists (BIN s). simpl. rewrite checked_ok by lia.
  split_and!; [done..|]. intros b. by apply pack_binary_ok.
Qed.

#[export] Program Instance vector_unsigned_char_laws : AdaptorLaws vector_unsigned_char := {
  valid v := match v with VectorUnsignedChar s => len s < 2 ^ 32 end }.
Next Obligation.
  intros [s] Hs. simpl in Hs. pose proof (len_nonneg s). exists (BIN s). simpl. rewrite checked_ok by lia.
  split_and!; [done..|]. intros b. by apply pack_binary_ok.
Qed.

#[export] Program Instance raw_ref_laws : AdaptorLaws raw_ref := {
  valid v := match v with RawRef s => len s < 2 ^ 32 end }.
Next Obligation.
  intros [s] Hs. simpl in Hs. pose proof (len_nonneg s). exists (BIN s). split_and!; [done..|].
  intros b. simpl. unfold size32. by rewrite wrap_small by lia.
Qed.

(** ** Extension types *)

Definition ext_valid (d : bytes) : Prop := 0 < len d < 2 ^ 32.

#[export] Program Instance ext_laws : AdaptorLaws ext := {
  valid v := match v with Ext d => ext_valid d end }.
Next Obligation.
  intros [[|t d]] [Hp Hd]; [done|]. rewrite len_cons in *. pose proof (len_nonneg d).
  assert (Es : ext_size (Ext (t :: d)) = len d).
  { unfold ext_size. rewrite len_cons, (wrap_small 32 (1 + len d)), wrap_small; lia. }
  exists (EXT t d). unfold to_object, pack, convert, ext_adaptor. rewrite Es. split_and!.
  - cbn [ext_type ext_data]. change (drop 1 (t :: d)) with d. by rewrite take_ge by (unfold len; lia).
  - done.
  - simpl. lia.
  - intros b. simpl. unfold size32. by rewrite wrap_small by lia.
Qed.

#[export] Program Instance ext_ref_laws : AdaptorLaws ext_ref := {
  valid v := match v with ExtRef p s => p <> [] /\ len p = s + 1 /\ len p < 2 ^ 32 end }.
Next Obligation.
  intros [[|t d] s] (Hp & Hs & Hd); [done|]. rewrite len_cons in *. pose proof (len_nonneg d).
  assert (s = len d) as -> by lia. unfold ext_ref_adaptor, ext_ref_data, ext_ref_type, ext_ref_size.
  exists (EXT t d). simpl. rewrite (wrap_small 32 (len d + 1)) by lia. split_and!.
  - rewrite drop_0. by rewrite take_ge by (unfold len; lia).
  - intros _. unfold new_ext_ref. destruct (Z.eqb_spec (len d + 1) 0); [lia|]. do 2 f_equal. lia.
  - lia.
  - intros b. unfold size32. rewrite wrap_small by lia. unfold pack_ext_body, append_buffer.
    by rewrite take_take, Nat.min_id.
Qed.

(** The comparison of two references misses the last byte. *)
Example ext_refs_equal :
  ext_ref_eqb (ExtRef [chr 1; chr 2] 1) (ExtRef [chr 1; chr 3] 1) = true.
Proof. reflexivity. Qed.

(** ** Types with an encoding of their own *)

Lemma decode_leaf lim d o r : tok lim 1 d = Done (Leaf o) r -> decode lim d = Done o r.
Proof. intros H. unfold decode. cbn [dec]. by rewrite H. Qed.

Lemma neg_or_pos_object k v :
  int_min k <= v <= int_max k -> is_signed k = true -> object_integer k v = neg_or_pos v.
Proof.
  intros _ Hs. unfold object_integer, neg_or_pos. rewrite Hs.
  destruct (Z.ltb_spec v 0), (Z.leb_spec 0 v); done || lia.
Qed.

#[local] Opaque chr be tok u8.

Lemma tok_pack_fix lim depth k v rest :
  int_min (fix_int_kind k) <= v <= int_max (fix_int_kind k) ->
  tok lim depth (pack_fix k v [] ++ rest) = Done (Leaf (object_integer (fix_int_kind k) v)) rest.
Proof.
  intros Hv. pose proof (neg_or_pos_object _ _ Hv) as Hs. unfold int_min, int_max in Hv.
  destruct k; simpl in Hv; cbn [pack_fix fix_int_kind] in *; unfold object_integer in *;
    cbn [is_signed] in *; rewrite ?Hs by done.
  - unfold pack_fix_int8, take8. rewrite chr_be. apply tok_i8. lia.
  - apply tok_i16. lia.
  - apply tok_i32. lia.
  - apply tok_i64. lia.
  - unfold pack_fix_uint8, take8. rewrite chr_be. apply tok_u8. lia.
  - apply tok_u16. lia.
  - apply tok_u32. lia.
  - apply tok_u64. lia.
Qed.

(** An integer of fixed width is written with all its bytes and read back. *)
Lemma fix_int_roundtrip k v lim rest :
  int_min (fix_int_kind k) <= v <= int_max (fix_int_kind k) ->
  exists b o, pack (FixInt (k := k) v) [] = Ok b /\ len b = 1 + width (fix_int_kind k) / 8 /\
    to_object (FixInt (k := k) v) = Ok o /\ decode lim (b ++ rest) = Done o rest /\
    as_ (fix_int k) o = Ok (FixInt v).
Proof.
  intros Hv. exists (pack_fix k v []), (object_integer (fix_int_kind k) v).
  split_and!; [done|by destruct k|done|by apply decode_leaf, tok_pack_fix|].
  unfold as_. cbn [convert fix_int_adaptor].
  destruct (object_integer_ok _ _ Hv) as [Hw Hi].
  by rewrite (proj2 (convert_integer_ok _ _ _ Hw) (conj Hi Hv)).
Qed.

Lemma v4raw_roundtrip s lim rest :
  len s < 2 ^ 32 -> len s <= str_ lim ->
  exists b, pack (V4rawRef s) [] = Ok b /\ decode lim (b ++ rest) = Done (STR s) rest /\
    as_ v4raw_ref (STR s) = Ok (V4rawRef s).
Proof.
  intros Hs Hl. pose proof (len_nonneg s).
  exists (pack_v4raw_body s (len s) (pack_v4raw (len s) [])). split_and!; [done| |done].
  apply decode_leaf. unfold pack_v4raw_body, append_buffer.
  rewrite take_ge by (unfold len; lia). rewrite <- app_assoc. by apply tok_pack_v4raw.
Qed.
