(* ===== verification/OrderedSpec.v ===== *)
(** * What sets and maps promise

    The containers of Ordered against their mathematical counterparts, for any
    array or map they are converted from: a set is the sorted list of the distinct
    elements, a multiset of all of them, a map holds the last value of each key, a
    multimap the values of a key in their order. Then their [AdaptorLaws]: a container
    that is packed comes back as it was. *)

From stdpp Require Import sorting.
From S2P Require Import Prelude FloatBits MsgObject Pack Roundtrip Adaptors AdaptorLaws Containers.
From S2P Require Import ContainerLaws Ordered Visitor Format.

(** ** Orders *)

Class StrictWeak {T} (lt : T -> T -> bool) : Prop := {
  lt_irrefl x : lt x x = false;
  lt_trans x y z : lt x y = true -> lt y z = true -> lt x z = true;
  lt_neg_trans x y z : lt x y = false -> lt y z = false -> lt x z = false;
}.

Class StrictTotal {T} (lt : T -> T -> bool) : Prop := {
  total_weak :: StrictWeak lt;
  lt_total x y : lt x y = false -> lt y x = false -> x = y;
}.

Class SortLaws `{StdSort} : Prop := {
  sort_perm {A} (lt : A -> A -> bool) `{StrictWeak A lt} l : std_sort lt l ≡ₚ l;
  sort_sorted {A} (lt : A -> A -> bool) `{StrictWeak A lt} l :
    StronglySorted (fun x y => lt y x = false) (std_sort lt l);
}.

Section Order.
Context {T : Type} {LT : Compare T}.

Definition before (x y : T) : Prop := less x y = true.
Definition not_after (x y : T) : Prop := less y x = false.

Lemma lt_asym `{!StrictWeak less} (x y : T) : less x y = true -> less y x = false.
Proof.
  intros H. destruct (less y x) eqn:E; [|done].
  pose proof (lt_trans _ _ _ H E). by rewrite lt_irrefl in *.
Qed.

Lemma before_not_after `{!StrictWeak less} (x y : T) : before x y -> not_after x y.
Proof. apply lt_asym. Qed.

Lemma before_ne `{!StrictWeak less} (x y : T) : before x y -> x <> y.
Proof. intros H ->. unfold before in H. by rewrite lt_irrefl in H. Qed.

Lemma before_weak `{!StrictWeak less} (x y z : T) : before x y -> not_after y z -> before x z.
Proof.
  unfold before, not_after. intros H1 H2. destruct (less x z) eqn:E; [done|].
  pose proof (lt_neg_trans _ _ _ E H2). congruence.
Qed.

Lemma weak_sorted `{!StrictWeak less} (l : list T) : StronglySorted before l -> StronglySorted not_after l.
Proof.
  induction 1 as [|x l _ IH Hx]; constructor; [done|].
  eapply Forall_impl; [exact Hx|]. intros y. apply before_not_after.
Qed.
End Order.

#[export] Instance int_total k : StrictTotal (T := cint k) less.
Proof.
  repeat split; unfold less, int_compare; intros; repeat match goal with
    H : (_ <? _) = true |- _ => apply Z.ltb_lt in H
  | H : (_ <? _) = false |- _ => apply Z.ltb_ge in H end;
  try apply Z.ltb_lt; try apply Z.ltb_ge; lia.
Qed.

(** Two bytes: less, greater or the same. *)
Lemma byte_trichotomy (x y : byte) :
  ((u8 x <? u8 y) = true /\ (u8 y <? u8 x) = false) \/ ((u8 y <? u8 x) = true /\ (u8 x <? u8 y) = false) \/ x = y.
Proof.
  destruct (Z.ltb_spec (u8 x) (u8 y)), (Z.ltb_spec (u8 y) (u8 x)); auto; [lia|].
  right. right. apply u8_inj. lia.
Qed.

Lemma string_less_cons x y a b :
  string_less (x :: a) (y :: b) = true <->
  u8 x < u8 y \/ x = y /\ string_less a b = true.
Proof.
  simpl. destruct (Z.ltb_spec (u8 x) (u8 y)) as [H|H]; [tauto|].
  destruct (Z.ltb_spec (u8 y) (u8 x)) as [H'|H'].
  - split; [done|]. intros [?|[-> _]]; lia.
  - assert (x = y) as -> by (apply u8_inj; lia). naive_solver lia.
Qed.

Lemma string_total_order (a b : bytes) :
  string_less a b = false -> string_less b a = false -> a = b.
Proof.
  revert b. induction a as [|x a IH]; intros [|y b]; try done.
  simpl. destruct (byte_trichotomy x y) as [[-> ->]|[[-> ->]| ->]]; try done.
  rewrite Z.ltb_irrefl. intros H1 H2. by rewrite (IH b).
Qed.

Lemma string_less_trans (a b c : bytes) :
  string_less a b = true -> string_less b c = true -> string_less a c = true.
Proof.
  revert b c. induction a as [|x a IH]; intros [|y b] [|z c]; try done.
  rewrite !string_less_cons. intros [H1|[-> H1]] [H2|[-> H2]]; auto; [left; lia|]. eauto.
Qed.

#[export] Instance string_total : StrictTotal (T := bytes) less.
Proof.
  assert (I : forall a, string_less a a = false).
  { induction a as [|x a IH]; [done|]. simpl. by rewrite Z.ltb_irrefl. }
  split; [split; [exact I|exact string_less_trans|]|exact string_total_order].
  unfold less, string_compare. intros x y z Hxy Hyz. destruct (string_less x z) eqn:E; [|done].
  destruct (string_less y x) eqn:E1; [by rewrite (string_less_trans _ _ _ E1 E) in Hyz|].
  rewrite (string_total_order _ _ Hxy E1) in E. congruence.
Qed.

(** ** Insertion into a sorted list *)

Section Insertion.
Context {T : Type} {LT : Compare T} `{!StrictTotal (T := T) less}.

Lemma Forall_before_trans (x y : T) l : before x y -> Forall (before y) l -> Forall (before x) l.
Proof.
  intros Hx Hl. eapply Forall_impl; [exact Hl|]. intros z. unfold before in *. by apply lt_trans.
Qed.

Lemma set_insert_spec (x : T) l : StronglySorted before l ->
  StronglySorted before (set_insert x l) /\ forall y, y ∈ set_insert x l <-> y = x \/ y ∈ l.
Proof.
  induction 1 as [|y l Hl [IHs IHe] Hy]; simpl.
  { split; [by repeat constructor|]. intros z. set_solver. }
  destruct (less x y) eqn:Exy; [|destruct (less y x) eqn:Eyx].
  - split; [|set_solver]. constructor; [by constructor|].
    constructor; [done|]. by apply Forall_before_trans with y.
  - split; [|set_solver]. constructor; [done|]. rewrite Forall_forall in Hy |- *.
    intros z [->|Hz]%IHe; auto.
  - rewrite (lt_total x y Exy Eyx). split; [by constructor|]. set_solver.
Qed.

Lemma multiset_insert_spec {U} {LU : Compare U} `{!StrictWeak (T := U) less} (x : U) l :
  StronglySorted not_after l ->
  StronglySorted not_after (multiset_insert x l) /\ multiset_insert x l ≡ₚ x :: l.
Proof.
  induction 1 as [|y l Hl [IHs IHp] Hy]; simpl; [split; by repeat constructor|].
  destruct (less x y) eqn:E.
  - split; [|done]. constructor; [by constructor|]. constructor; [by apply before_not_after|].
    eapply Forall_impl; [exact Hy|]. intros z Hz. apply before_not_after. by apply before_weak with y.
  - split; [|rewrite IHp; by constructor]. constructor; [done|].
    rewrite IHp. by constructor.
Qed.

Context {V : Type} {AV : Adaptor V}.

Lemma multimap_insert_spec (k : T) (v : V) l : StronglySorted not_after l.*1 ->
  StronglySorted not_after (multimap_insert k v l).*1 /\ multimap_insert k v l ≡ₚ (k, v) :: l.
Proof.
  induction l as [|[k' v'] l IH]; simpl; [split; by repeat constructor|].
  intros [Hl Hy]%StronglySorted_inv. destruct (IH Hl) as [IHs IHp]. destruct (less k k') eqn:E.
  - split; [|done]. simpl. constructor; [by constructor|]. constructor; [by apply before_not_after|].
    eapply Forall_impl; [exact Hy|]. intros z Hz. apply before_not_after. by apply before_weak with k'.
  - simpl. split; [|rewrite IHp; by constructor]. constructor; [done|].
    rewrite IHp. simpl. by constructor.
Qed.

Context `{Countable T}.

Lemma lookup_below (k : T) (l : list (T * V)) : Forall (before k) l.*1 -> list_to_map (M := gmap T V) l !! k = None.
Proof.
  intros Hk. apply not_elem_of_list_to_map. intros Hin. rewrite Forall_forall in Hk.
  by eapply before_ne; [by apply Hk|].
Qed.

Lemma map_at_spec (k : T) (l : list (T * V)) : StronglySorted before l.*1 ->
  map_at k l = default default_value (list_to_map (M := gmap T V) l !! k).
Proof.
  induction l as [|[k' v'] l IH]; simpl; [done|]. intros [Hl Hy]%StronglySorted_inv.
  destruct (less k k') eqn:E1; [|destruct (less k' k) eqn:E2].
  - rewrite lookup_insert_ne by (intros ->; by apply (before_ne k k)).
    rewrite lookup_below; [done|]. by apply Forall_before_trans with k'.
  - rewrite lookup_insert_ne by (intros ->; by apply (before_ne k k)). by apply IH.
  - rewrite (lt_total k k' E1 E2). by rewrite lookup_insert_eq.
Qed.

Lemma map_store_spec (k : T) (v : V) l : StronglySorted before l.*1 ->
  StronglySorted before (map_store k v l).*1 /\
  (forall y, y ∈ (map_store k v l).*1 <-> y = k \/ y ∈ l.*1) /\
  list_to_map (M := gmap T V) (map_store k v l) = <[k := v]> (list_to_map l).
Proof.
  induction l as [|[k' v'] l IH]; simpl.
  { intros _. split; [by repeat constructor|]. split; [set_solver|done]. }
  intros [Hl Hy]%StronglySorted_inv. destruct (IH Hl) as (IHs & IHe & IHm).
  destruct (less k k') eqn:E1; [|destruct (less k' k) eqn:E2]; simpl.
  - split; [|split; [set_solver|done]]. constructor; [by constructor|].
    constructor; [done|]. by apply Forall_before_trans with k'.
  - split; [|split; [intros y; rewrite !elem_of_cons, IHe; tauto|]].
    + constructor; [done|]. rewrite Forall_forall in Hy |- *. intros z [->|Hz]%IHe; auto.
    + rewrite IHm. apply insert_insert_ne. intros ->. by apply (before_ne k k).
  - pose proof (lt_total k k' E1 E2) as <-. split; [by constructor|]. split; [set_solver|].
    by rewrite insert_insert_eq.
Qed.
End Insertion.

(** ** Conversions *)

Section Conversions.
Context {T : Type} {AT : Adaptor T} {LT : Compare T} `{!StrictTotal (T := T) less} `{Countable T}.
Context {V : Type} {AV : Adaptor V}.

(** What the elements, or the pairs, of an object stand for. *)
Definition elements (os : list object) (xs : list T) : Prop :=
  Forall2 (fun o x => as_ T o = Ok x) os xs.
Definition entries (os : list (object * object)) (kvs : list (T * V)) : Prop :=
  Forall2 (fun o kv => as_ T o.1 = Ok kv.1 /\ forall w, convert o.2 w = Ok kv.2) os kvs.

Lemma insert_all_ok ins os xs tmp : elements os xs ->
  insert_all ins os tmp = Ok (fold_left (fun l x => ins x l) xs tmp).
Proof.
  intros Hx. revert tmp. induction Hx as [|o x os xs E _ IH]; intros tmp; [done|].
  simpl. rewrite E. simpl. apply IH.
Qed.

Lemma convert_set_ok ins os xs : elements os xs ->
  convert_set ins (ARRAY os) = Ok (foldr ins [] xs).
Proof.
  intros Hx. simpl. rewrite (insert_all_ok ins (rev os) (rev xs)).
  - by rewrite <- fold_left_rev_right, rev_involutive.
  - unfold elements. rewrite !rev_alt. by apply Forall2_reverse.
Qed.

Lemma set_of_spec xs : StronglySorted before (foldr set_insert [] xs) /\
  forall x : T, x ∈ foldr set_insert [] xs <-> x ∈ xs.
Proof.
  induction xs as [|x xs [IHs IHe]]; simpl; [split; [constructor|done]|].
  destruct (set_insert_spec x _ IHs) as [Hs He]. split; [done|].
  intros y. by rewrite He, IHe, elem_of_cons.
Qed.

Lemma multiset_of_spec (xs : list T) : StronglySorted not_after (foldr multiset_insert [] xs) /\
  foldr multiset_insert [] xs ≡ₚ xs.
Proof.
  induction xs as [|x xs [IHs IHp]]; simpl; [split; by constructor|].
  destruct (multiset_insert_spec x _ IHs) as [Hs Hp]. split; [done|]. by rewrite Hp, IHp.
Qed.

Lemma map_of_ok os kvs tmp : entries os kvs ->
  map_of os tmp = Ok (fold_left (fun l kv => map_store kv.1 kv.2 l) kvs tmp).
Proof.
  intros Hx. revert tmp. induction Hx as [|o kv os kvs [Ek Ev] _ IH]; intros tmp; [done|].
  simpl. rewrite Ek. simpl. rewrite Ev. simpl. apply IH.
Qed.

Lemma multimap_of_ok os kvs tmp : entries os kvs ->
  multimap_of os tmp = Ok (fold_left (fun l kv => multimap_insert kv.1 kv.2 l) kvs tmp).
Proof.
  intros Hx. revert tmp. induction Hx as [|o kv os kvs [Ek Ev] _ IH]; intros tmp; [done|].
  simpl. rewrite Ek. simpl. unfold as_. rewrite Ev. simpl. apply IH.
Qed.

Lemma stores_spec (kvs tmp : list (T * V)) : StronglySorted before tmp.*1 ->
  let m := fold_left (fun l kv => map_store kv.1 kv.2 l) kvs tmp in
  StronglySorted before m.*1 /\
  list_to_map (M := gmap T V) m = fold_left (fun m kv => <[kv.1 := kv.2]> m) kvs (list_to_map tmp).
Proof.
  revert tmp. induction kvs as [|[k v] kvs IH]; intros tmp Ht; simpl; [done|].
  destruct (map_store_spec k v tmp Ht) as (Hs & _ & Hm).
  destruct (IH _ Hs) as [IHs IHm]. split; [done|]. by rewrite IHm, Hm.
Qed.

Lemma filter_above k (l : list (T * V)) : Forall (before k) l.*1 -> filter (fun kv => kv.1 = k) l = [].
Proof.
  induction l as [|[k' v] l IH]; [done|]. intros [Hk Hl]%Forall_cons.
  rewrite filter_cons_False; [by apply IH|]. simpl. intros ->. by apply (before_ne k k).
Qed.

Lemma multimap_insert_filter k v k' (l : list (T * V)) : StronglySorted not_after l.*1 ->
  filter (fun kv => kv.1 = k') (multimap_insert k v l) =
  filter (fun kv => kv.1 = k') l ++ filter (fun kv => kv.1 = k') [(k, v)].
Proof.
  induction l as [|[k1 v1] l IH]; simpl; [done|]. intros [Hl Hy]%StronglySorted_inv.
  destruct (less k k1) eqn:E.
  - destruct (decide (k = k')) as [<-|Hne].
    + assert (F : Forall (before k) ((k1, v1) :: l).*1).
      { constructor; [done|]. eapply Forall_impl; [exact Hy|]. intros z. by apply before_weak. }
      by rewrite !(filter_cons_True _ (k, v)), (filter_above k _ F) by done.
    + rewrite filter_cons_False by done. by rewrite (filter_cons_False _ (k, v)), app_nil_r.
  - rewrite !(filter_cons _ (k1, v1)). rewrite IH by done. by destruct (decide _).
Qed.

Lemma inserts_spec (kvs tmp : list (T * V)) : StronglySorted not_after tmp.*1 ->
  let m := fold_left (fun l kv => multimap_insert kv.1 kv.2 l) kvs tmp in
  StronglySorted not_after m.*1 /\ m ≡ₚ tmp ++ kvs /\
  forall k, filter (fun kv => kv.1 = k) m = filter (fun kv => kv.1 = k) (tmp ++ kvs).
Proof.
  revert tmp. induction kvs as [|[k v] kvs IH]; intros tmp Ht; simpl; [by rewrite app_nil_r|].
  destruct (multimap_insert_spec k v tmp Ht) as [Hs Hp].
  destruct (IH _ Hs) as (IHs & IHp & IHf). split_and!; [done| |].
  - rewrite IHp, Hp. by rewrite <- Permutation_middle.
  - intros k'. rewrite IHf, !filter_app, multimap_insert_filter by done.
    rewrite <- app_assoc. f_equal. by rewrite <- filter_app.
Qed.
End Conversions.



(** ** Laws *)

(** The objects of the elements of a list. *)
Lemma elements_laws {T} `{AdaptorLaws T} (l : list T) : len l < 2 ^ 32 -> Forall valid l ->
  exists os, object_sequence l = Ok (ARRAY os) /\ elements os l /\ wf_object (ARRAY os) /\
    forall b, pack_sequence l b = Ok (pack_object (ARRAY os) b).
Proof.
  intros Hl Hv. destruct (sequence_laws l Hl Hv) as (o & E1 & _ & Hw & E3).
  assert (M : exists os, map_res to_object l = Ok os /\ elements os l).
  { clear -Hv. induction Hv as [|x l Hx _ (os & E & He)]; [by exists []; split; [|constructor]|].
    destruct (laws x Hx) as (o & F1 & F2 & _). exists (o :: os). simpl. rewrite F1, E.
    split; [done|]. constructor; [apply F2|done]. }
  destruct M as (os & E & He). exists os. pose proof (len_nonneg l).
  assert (object_sequence l = Ok (ARRAY os)) as Eo.
  { unfold object_sequence. destruct l; [by simpl in E; simplify_eq|]. by rewrite checked_ok, E by lia. }
  rewrite Eo in E1. injection E1 as <-. done.
Qed.

Lemma set_insert_first {T} `{Compare T} (x : T) l : Forall (before x) l -> set_insert x l = x :: l.
Proof. destruct l as [|y l]; [done|]. intros [Hy _]%Forall_cons. simpl. by rewrite Hy. Qed.

Lemma multiset_insert_first {T} {LT : Compare T} `{!StrictTotal (T := T) less} (x : T) l :
  Forall (not_after x) l -> multiset_insert x l = x :: l.
Proof.
  induction l as [|y l IH]; [done|]. intros [Hy Hl]%Forall_cons. simpl.
  destruct (less x y) eqn:E; [done|]. rewrite (lt_total x y E Hy) in *. by rewrite IH.
Qed.

#[export] Program Instance set_laws (T : Type) `{AdaptorLaws T} {LT : Compare T}
  `{!StrictTotal (T := T) less} : AdaptorLaws (std_set T) := {
  valid v := match v with StdSet l => len l < 2 ^ 32 /\ Forall valid l /\ StronglySorted before l end }.
Next Obligation.
  intros T HA HL LT ST [l] (Hl & Hv & Hs). destruct (elements_laws l Hl Hv) as (os & E1 & He & Hw & E3).
  exists (ARRAY os). simpl in *. split_and!; [done| |apply Hw..|done]. intros _.
  pose proof (convert_set_ok set_insert os l He) as E. simpl in E. rewrite E. simpl. do 2 f_equal.
  clear -Hs. induction Hs as [|x l _ IH Hx]; [done|]. simpl. rewrite IH. by apply set_insert_first.
Qed.

#[export] Program Instance multiset_laws (T : Type) `{AdaptorLaws T} {LT : Compare T}
  `{!StrictTotal (T := T) less} : AdaptorLaws (multiset T) := {
  valid v := match v with Multiset l => len l < 2 ^ 32 /\ Forall valid l /\ StronglySorted not_after l end }.
Next Obligation.
  intros T HA HL LT ST [l] (Hl & Hv & Hs). destruct (elements_laws l Hl Hv) as (os & E1 & He & Hw & E3).
  exists (ARRAY os). simpl in *. split_and!; [done| |apply Hw..|done]. intros _.
  pose proof (convert_set_ok multiset_insert os l He) as E. simpl in E. rewrite E. simpl. do 2 f_equal.
  clear -Hs ST. induction Hs as [|x l _ IH Hx]; [done|]. simpl. rewrite IH. by apply multiset_insert_first.
Qed.

(** The objects of the pairs of a list. *)
Lemma entries_laws {K V} `{AdaptorLaws K} `{AdaptorLaws V} (l : list (K * V)) : len l < 2 ^ 32 ->
  Forall (fun kv => valid kv.1 /\ valid kv.2) l ->
  exists os, object_map_of l = Ok (MAP os) /\
    Forall2 (fun o kv => (forall w, convert o.1 w = Ok kv.1) /\ forall w, convert o.2 w = Ok kv.2) os l /\
    wf_object (MAP os) /\ forall b, pack_map_of l b = Ok (pack_object (MAP os) b).
Proof.
  intros Hl Hv. pose proof (len_nonneg l).
  assert (M : exists os, map_res object_kv l = Ok os /\
    Forall2 (fun o kv => (forall w, convert o.1 w = Ok kv.1) /\ forall w, convert o.2 w = Ok kv.2) os l /\
    Forall (fun kv => wf_object kv.1 /\ wf_object kv.2) os /\
    forall b, pack_kvs l b = Ok (pack_pairs os b)).
  { clear -Hv. induction Hv as [|[k v] l [Hk Hx] _ (os & E & He & Hw & Hp)].
    { exists []. by split_and!; constructor. }
    destruct (laws k Hk) as (x & K1 & K2 & K3 & K4). destruct (laws v Hx) as (y & V1 & V2 & V3 & V4).
    exists ((x, y) :: os). simpl. unfold object_kv at 1. simpl in *. rewrite K1, V1, E.
    split_and!; [done|by constructor..|]. intros b. rewrite K4. simpl. rewrite V4. simpl. by rewrite Hp. }
  destruct M as (os & E & He & Hw & Hp). exists os.
  assert (Hlen : len os = len l) by (unfold len; by rewrite (Forall2_length _ _ _ He)).
  split_and!; [|done|by apply wf_map; split; [lia|]|].
  - unfold object_map_of. rewrite checked_ok by lia. cbn [res_bind]. rewrite E. destruct l; [by simpl in E; simplify_eq|done].
  - intros b. unfold pack_map_of. rewrite checked_ok by lia. cbn [res_bind]. rewrite Hp, pack_object_MAP.
    unfold size32. by rewrite wrap_small, Hlen by lia.
Qed.

Lemma map_store_last {K V} {LK : Compare K} `{!StrictWeak (T := K) less} {AV : Adaptor V} k (v : V) l :
  Forall (fun k' => before k' k) l.*1 -> map_store k v l = l ++ [(k, v)].
Proof.
  induction l as [|[k' v'] l IH]; [done|]. intros [Hk Hl]%Forall_cons. simpl in *.
  rewrite (lt_asym _ _ Hk), Hk. by rewrite IH.
Qed.

Lemma multimap_insert_last {K V} {LK : Compare K} k (v : V) l :
  Forall (fun k' => not_after k' k) l.*1 -> multimap_insert k v l = l ++ [(k, v)].
Proof.
  induction l as [|[k' v'] l IH]; [done|]. intros [Hk Hl]%Forall_cons. simpl in *.
  rewrite Hk. by rewrite IH.
Qed.

(** Pairs added in their order end up behind one another. *)
Lemma adds_last {K V} (R : K -> K -> Prop) (add : K -> V -> list (K * V) -> list (K * V)) :
  (forall k v l, Forall (fun k' => R k' k) l.*1 -> add k v l = l ++ [(k, v)]) ->
  forall kvs tmp, StronglySorted R (tmp ++ kvs).*1 ->
  fold_left (fun l kv => add kv.1 kv.2 l) kvs tmp = tmp ++ kvs.
Proof.
  intros Ha. induction kvs as [|[k v] kvs IH]; intros tmp Hs; simpl; [by rewrite app_nil_r|].
  rewrite Ha.
  - rewrite IH; by rewrite <- app_assoc.
  - rewrite fmap_app in Hs. apply StronglySorted_app in Hs as (Hs & _ & _).
    apply Forall_forall. intros k' Hk'. apply Hs; [done|]. apply elem_of_cons. by left.
Qed.

#[export] Program Instance map_laws (K V : Type) `{AdaptorLaws K} `{AdaptorLaws V} {LK : Compare K}
  `{!StrictTotal (T := K) less} : AdaptorLaws (std_map K V) := {
  valid v := match v with StdMap l =>
    len l < 2 ^ 32 /\ Forall (fun kv => valid kv.1 /\ valid kv.2) l /\ StronglySorted before l.*1 end }.
Next Obligation.
  intros K V HK LawK HV LawV LK ST [l] (Hl & Hv & Hs).
  destruct (entries_laws l Hl Hv) as (os & E1 & He & Hw & E3).
  exists (MAP os). split_and!; [done| |done|done]. intros w. simpl. rewrite (map_of_ok os l).
  - simpl. by rewrite (adds_last before map_store map_store_last l []).
  - eapply Forall2_impl; [exact He|]. intros o kv [H1 H2]. split; [apply H1|exact H2].
Qed.

#[export] Program Instance multimap_laws (K V : Type) `{AdaptorLaws K} `{AdaptorLaws V} {LK : Compare K}
  : AdaptorLaws (multimap K V) := {
  valid v := match v with Multimap l =>
    len l < 2 ^ 32 /\ Forall (fun kv => valid kv.1 /\ valid kv.2) l /\ StronglySorted not_after l.*1 end }.
Next Obligation.
  intros K V HK LawK HV LawV LK [l] (Hl & Hv & Hs).
  destruct (entries_laws l Hl Hv) as (os & E1 & He & Hw & E3).
  exists (MAP os). split_and!; [done| |done|done]. intros w. simpl. rewrite (multimap_of_ok os l).
  - simpl. by rewrite (adds_last not_after multimap_insert multimap_insert_last l []).
  - eapply Forall2_impl; [exact He|]. intros o kv [H1 H2]. split; [apply H1|exact H2].
Qed.

(** ** [assoc_vector]: a vector sorted by key *)

#[export] Instance pair_first_weak {K V} {LK : Compare K} `{!StrictWeak (T := K) less} :
  StrictWeak (pair_first_less (K := K) (V := V)).
Proof.
  split; unfold pair_first_less; intros; [apply lt_irrefl|by eapply lt_trans|by eapply lt_neg_trans].
Qed.


Lemma key_unique {K V} {LK : Compare K} `{!StrictTotal (T := K) less} (l : list (K * V)) x y :
  StronglySorted before l.*1 -> x ∈ l -> y ∈ l -> x.1 = y.1 -> x = y.
Proof.
  induction l as [|z l IH]; simpl; [by intros _ ?%elem_of_nil|].
  intros [Hl Hz]%StronglySorted_inv. rewrite Forall_forall in Hz.
  rewrite !elem_of_cons. intros [->|Hx] [->|Hy] E; auto.
  - exfalso. apply (before_ne z.1 y.1); [|done]. by apply Hz, list_elem_of_fmap_2.
  - exfalso. apply (before_ne z.1 x.1); [|done]. by apply Hz, list_elem_of_fmap_2.
Qed.

Lemma sort_sorted_pairs {K V} {LK : Compare K} `{!StrictTotal (T := K) less} `{SortLaws} (l : list (K * V)) :
  StronglySorted before l.*1 -> std_sort pair_first_less l = l.
Proof.
  intros Hs. apply StronglySorted_unique_strong with (R := fun x y => pair_first_less y x = false).
  - intros x y Hx Hy H1 H2. rewrite (sort_perm pair_first_less l) in Hx.
    apply (key_unique l); [done..|]. by apply lt_total.
  - apply sort_sorted. apply _.
  - clear -Hs StrictTotal0. induction l as [|x l IH]; [constructor|].
    rewrite fmap_cons in Hs. apply StronglySorted_inv in Hs as [Hs Hx].
    constructor; [by apply IH|]. rewrite Forall_forall in Hx. apply Forall_forall. intros y Hy.
    by apply lt_asym, Hx, list_elem_of_fmap_2.
  - apply sort_perm. apply _.
Qed.

Lemma convert_kvs_ok {K V} `{Adaptor K} `{Adaptor V} os (l ws : list (K * V)) :
  Forall2 (fun o kv => (forall w, convert o.1 w = Ok kv.1) /\ forall w, convert o.2 w = Ok kv.2) os l ->
  length ws = length l -> convert_kvs os ws = Ok l.
Proof.
  intros He. revert ws. induction He as [|o [k v] os l [Ek Ev] _ IH]; intros [|[k' v'] ws] Hw; try done.
  simpl in *. rewrite Ek. simpl. rewrite Ev. simpl. by rewrite IH by lia.
Qed.

#[export] Program Instance assoc_vector_laws (K V : Type) `{AdaptorLaws K} `{AdaptorLaws V}
  {LK : Compare K} `{!StrictTotal (T := K) less} `{SortLaws} : AdaptorLaws (assoc_vector K V) := {
  valid v := match v with AssocVector l =>
    len l < 2 ^ 32 /\ Forall (fun kv => valid kv.1 /\ valid kv.2) l /\ StronglySorted before l.*1 end }.
Next Obligation.
  intros K V HK LawK HV LawV LK ST SS SL [l] (Hl & Hv & Hs).
  destruct (entries_laws l Hl Hv) as (os & E1 & He & Hw & E3).
  exists (MAP os). split_and!; [done| |done|done]. intros [ws]. cbn [convert assoc_vector_adaptor].
  destruct os as [|o os]; [by inversion He|].
  rewrite (convert_kvs_ok _ l) by (done || unfold resize_kvs;
    rewrite length_app, length_take, length_replicate, <- (Forall2_length _ _ _ He); lia).
  simpl. by rewrite sort_sorted_pairs.
Qed.

(** A sort that keeps the order of equivalent elements. *)
Definition insertion_sort : StdSort := fun A lt l => foldr (multiset_insert (H := lt)) [] l.

Lemma insertion_sort_laws : @SortLaws insertion_sort.
Proof.
  assert (S : forall A (lt : A -> A -> bool) (W : StrictWeak lt) l,
    StronglySorted (fun x y => lt y x = false) (insertion_sort A lt l) /\ insertion_sort A lt l ≡ₚ l).
  { intros A lt W l. induction l as [|x l [IHs IHp]]; [split; by constructor|].
    destruct (multiset_insert_spec (LU := lt) x _ IHs) as [Hs Hp]. split; [done|].
    unfold insertion_sort in *. simpl. rewrite Hp. by constructor. }
  split; intros; by apply S.
Qed.

(** ** A value of many types *)

Definition sample_type : Type :=
  tuple (cint C_int * (std_map bytes (pair (optional double) (std_set (cint C_short))) * (float * unit))).

Definition sample_value : sample_type :=
  Tuple (-7, (StdMap [([chr 97], Pair (Optional None) (StdSet [-1; 5]));
                      ([chr 98], Pair (Optional (Some (Double 0))) (StdSet []))], (Float 0x3f800000, tt))).

Definition sample_object : object :=
  ARRAY [NEGATIVE_INTEGER (-7);
         MAP [(STR [chr 97], ARRAY [NIL; ARRAY [NEGATIVE_INTEGER (-1); POSITIVE_INTEGER 5]]);
              (STR [chr 98], ARRAY [FLOAT64 0; ARRAY []])];
         FLOAT32 (widen 0x3f800000)].

