(* ===== verification/Unordered.v ===== *)
(** * Unordered containers

    Models the adaptors of std::unordered_set, std::unordered_multiset,
    std::unordered_map and std::unordered_multimap (v1/adaptor/cpp11/unordered_set.hpp,
    unordered_map.hpp), and what they promise. A container is the list of its
    elements in iteration order. The standard does not say what that order is, and
    lets any insertion change it: [Rehash] is how the library arranges the elements then. *)

From S2P Require Import Prelude FloatBits MsgObject Pack Roundtrip Adaptors AdaptorLaws Containers.
From S2P Require Import ContainerLaws Ordered OrderedSpec Visitor Format.

#[local] Open Scope res_scope.

(** The equality of keys, and the order after an insertion. *)
Class KeyEqual (T : Type) := key_equal : T -> T -> bool.
Class Rehash := arrange : forall {A : Type}, list A -> list A.

Class KeyEqualLaws (T : Type) `{KeyEqual T} : Prop :=
  key_equal_spec : forall x y : T, key_equal x y = true <-> x = y.
Class RehashLaws `{Rehash} : Prop := arrange_perm : forall {A} (l : list A), arrange l ≡ₚ l.

#[export] Instance int_key_equal (k : int_kind) : KeyEqual (cint k) := Z.eqb.
#[export] Instance string_key_equal : KeyEqual bytes := fun a b => bool_decide (a = b).

(** ** Insertion *)

Section Insertion.
Context `{Rehash} {K : Type} `{KeyEqual K}.

Definition unordered_insert (x : K) (l : list K) : list K :=
  if existsb (key_equal x) l then l else arrange (x :: l).

Definition unordered_multi_insert {A : Type} (x : A) (l : list A) : list A := arrange (x :: l).

Context {V : Type} `{Adaptor V}.

(** [tmp[key]]: the value of the slot, and the map with another value there. *)
Fixpoint slot (k : K) (l : list (K * V)) : option V :=
  match l with
  | [] => None
  | (k', v) :: l => if key_equal k k' then Some v else slot k l
  end.

Fixpoint overwrite (k : K) (v : V) (l : list (K * V)) : list (K * V) :=
  match l with
  | [] => []
  | (k', v') :: l => if key_equal k k' then (k', v) :: l else (k', v') :: overwrite k v l
  end.

Definition unordered_at (k : K) (l : list (K * V)) : V := default default_value (slot k l).

Definition unordered_store (k : K) (v : V) (l : list (K * V)) : list (K * V) :=
  match slot k l with Some _ => overwrite k v l | None => arrange ((k, v) :: l) end.
End Insertion.

(** ** Maps *)

Section Pairs.
Context `{Rehash} {K V : Type} `{Adaptor K} `{Adaptor V} `{KeyEqual K}.

Fixpoint unordered_map_of (os : list (object * object)) (tmp : list (K * V)) : res adaptor_exn (list (K * V)) :=
  match os with
  | [] => Ok tmp
  | kv :: os =>
    let? k := as_ K kv.1 in
    let? v := convert kv.2 (unordered_at k tmp) in
    unordered_map_of os (unordered_store k v tmp)
  end.

Fixpoint unordered_multimap_of (os : list (object * object)) (tmp : list (K * V))
    : res adaptor_exn (list (K * V)) :=
  match os with
  | [] => Ok tmp
  | kv :: os =>
    let? k := as_ K kv.1 in
    let? v := as_ V kv.2 in
    unordered_multimap_of os (unordered_multi_insert (k, v) tmp)
  end.
End Pairs.

(** ** The containers *)

Inductive unordered_set (T : Type) := UnorderedSet (l : list T).
Inductive unordered_multiset (T : Type) := UnorderedMultiset (l : list T).
Inductive unordered_map (K V : Type) := UnorderedMap (l : list (K * V)).
Inductive unordered_multimap (K V : Type) := UnorderedMultimap (l : list (K * V)).
Arguments UnorderedSet {T} l.
Arguments UnorderedMultiset {T} l.
Arguments UnorderedMap {K V} l.
Arguments UnorderedMultimap {K V} l.

#[export] Instance unordered_set_adaptor (T : Type) `{Rehash} `{Adaptor T} `{KeyEqual T} :
    Adaptor (unordered_set T) := {
  convert o _ := let? l := convert_set unordered_insert o in Ok (UnorderedSet l);
  pack '(UnorderedSet l) o := pack_sequence l o;
  to_object '(UnorderedSet l) := object_sequence l;
  default_value := UnorderedSet [];
}.

#[export] Instance unordered_multiset_adaptor (T : Type) `{Rehash} `{Adaptor T} :
    Adaptor (unordered_multiset T) := {
  convert o _ := let? l := convert_set unordered_multi_insert o in Ok (UnorderedMultiset l);
  pack '(UnorderedMultiset l) o := pack_sequence l o;
  to_object '(UnorderedMultiset l) := object_sequence l;
  default_value := UnorderedMultiset [];
}.

#[export] Instance unordered_map_adaptor (K V : Type) `{Rehash} `{Adaptor K} `{Adaptor V} `{KeyEqual K} :
    Adaptor (unordered_map K V) := {
  convert o _ :=
    match o with
    | MAP os => let? l := unordered_map_of os [] in Ok (UnorderedMap l)
    | _ => Throw type_error
    end;
  pack '(UnorderedMap l) o := pack_map_of l o;
  to_object '(UnorderedMap l) := object_map_of l;
  default_value := UnorderedMap [];
}.

#[export] Instance unordered_multimap_adaptor (K V : Type) `{Rehash} `{Adaptor K} `{Adaptor V} :
    Adaptor (unordered_multimap K V) := {
  convert o _ :=
    match o with
    | MAP os => let? l := unordered_multimap_of os [] in Ok (UnorderedMultimap l)
    | _ => Throw type_error
    end;
  pack '(UnorderedMultimap l) o := pack_map_of l o;
  to_object '(UnorderedMultimap l) := object_map_of l;
  default_value := UnorderedMultimap [];
}.

(** ** Equality

    [operator==] of these containers does not look at the order. *)

#[export] Instance unordered_set_equiv T : Equiv (unordered_set T) :=
  fun '(UnorderedSet l) '(UnorderedSet l') => l ≡ₚ l'.
#[export] Instance unordered_multiset_equiv T : Equiv (unordered_multiset T) :=
  fun '(UnorderedMultiset l) '(UnorderedMultiset l') => l ≡ₚ l'.
#[export] Instance unordered_map_equiv K V : Equiv (unordered_map K V) :=
  fun '(UnorderedMap l) '(UnorderedMap l') => l ≡ₚ l'.
#[export] Instance unordered_multimap_equiv K V : Equiv (unordered_multimap K V) :=
  fun '(UnorderedMultimap l) '(UnorderedMultimap l') => l ≡ₚ l'.

#[export] Instance unordered_set_equivalence T : Equivalence (≡@{unordered_set T}).
Proof. split; [intros [l]; exact (Permutation_refl l)|intros [l] [m]; exact (@Permutation_sym _ l m)|intros [l] [m] [n]; exact (@Permutation_trans _ l m n)]. Qed.
#[export] Instance unordered_multiset_equivalence T : Equivalence (≡@{unordered_multiset T}).
Proof. split; [intros [l]; exact (Permutation_refl l)|intros [l] [m]; exact (@Permutation_sym _ l m)|intros [l] [m] [n]; exact (@Permutation_trans _ l m n)]. Qed.
#[export] Instance unordered_map_equivalence K V : Equivalence (≡@{unordered_map K V}).
Proof. split; [intros [l]; exact (Permutation_refl l)|intros [l] [m]; exact (@Permutation_sym _ l m)|intros [l] [m] [n]; exact (@Permutation_trans _ l m n)]. Qed.
#[export] Instance unordered_multimap_equivalence K V : Equivalence (≡@{unordered_multimap K V}).
Proof. split; [intros [l]; exact (Permutation_refl l)|intros [l] [m]; exact (@Permutation_sym _ l m)|intros [l] [m] [n]; exact (@Permutation_trans _ l m n)]. Qed.

#[export] Instance int_key_equal_laws k : KeyEqualLaws (cint k).
Proof. intros x y. apply Z.eqb_eq. Qed.
#[export] Instance string_key_equal_laws : KeyEqualLaws bytes.
Proof. intros x y. apply bool_decide_eq_true. Qed.

(** ** Insertion, up to the order *)

Section Laws.
Context {RH : Rehash} {RL : RehashLaws} {K : Type} {KE : KeyEqual K} {KL : KeyEqualLaws K}.

Lemma existsb_key (x : K) l : existsb (key_equal x) l = true <-> x ∈ l.
Proof.
  rewrite existsb_exists. split.
  - intros (y & Hy & E). apply key_equal_spec in E as ->. by apply list_elem_of_In.
  - intros Hx. exists x. split; [by apply list_elem_of_In|]. by apply key_equal_spec.
Qed.

Lemma unordered_insert_spec (x : K) l : NoDup l ->
  NoDup (unordered_insert x l) /\ forall y, y ∈ unordered_insert x l <-> y = x \/ y ∈ l.
Proof.
  intros Hl. unfold unordered_insert. destruct (existsb _ l) eqn:E.
  - apply existsb_key in E. split; [done|]. set_solver.
  - assert (x ∉ l) by (rewrite <- existsb_key; congruence).
    rewrite arrange_perm. split; [by constructor|]. intros y. by rewrite arrange_perm, elem_of_cons.
Qed.

Lemma unordered_set_of_spec xs :
  NoDup (foldr unordered_insert [] xs) /\ forall x : K, x ∈ foldr unordered_insert [] xs <-> x ∈ xs.
Proof.
  induction xs as [|x xs [IHn IHe]]; simpl; [split; [constructor|done]|].
  destruct (unordered_insert_spec x _ IHn) as [Hn He]. split; [done|].
  intros y. by rewrite He, IHe, elem_of_cons.
Qed.

Lemma unordered_multiset_of_spec {A} (xs : list A) : foldr unordered_multi_insert [] xs ≡ₚ xs.
Proof. induction xs as [|x xs IH]; simpl; [done|]. unfold unordered_multi_insert at 1. by rewrite arrange_perm, IH. Qed.

Context {V : Type} {AV : Adaptor V} `{Countable K}.

Lemma slot_spec (k : K) (l : list (K * V)) : slot k l = list_to_map (M := gmap K V) l !! k.
Proof.
  induction l as [|[k' v] l IH]; simpl; [done|]. destruct (key_equal k k') eqn:E.
  - apply key_equal_spec in E as ->. by rewrite lookup_insert_eq.
  - rewrite lookup_insert_ne; [done|]. intros ->. rewrite (proj2 (key_equal_spec k k) eq_refl) in E. done.
Qed.

Lemma overwrite_spec (k : K) (v : V) l : is_Some (slot k l) ->
  (overwrite k v l).*1 = l.*1 /\
  list_to_map (M := gmap K V) (overwrite k v l) = <[k := v]> (list_to_map l).
Proof.
  induction l as [|[k' v'] l IH]; cbn [slot overwrite]; [by intros []|].
  destruct (key_equal k k') eqn:E; rewrite !fmap_cons, !list_to_map_cons.
  - intros _. apply key_equal_spec in E as ->. by rewrite insert_insert_eq.
  - intros Hk. destruct (IH Hk) as [-> ->]. split; [done|]. apply insert_insert_ne.
    intros ->. rewrite (proj2 (key_equal_spec k k) eq_refl) in E. done.
Qed.

Lemma unordered_store_spec (k : K) (v : V) l : NoDup l.*1 ->
  NoDup (unordered_store k v l).*1 /\
  list_to_map (M := gmap K V) (unordered_store k v l) = <[k := v]> (list_to_map l).
Proof.
  intros Hl. unfold unordered_store. destruct (slot k l) as [v'|] eqn:E.
  - destruct (overwrite_spec k v l) as [-> ->]; [by rewrite E|done].
  - rewrite slot_spec in E. apply not_elem_of_list_to_map in E.
    assert (Hn : NoDup ((k, v) :: l).*1) by by constructor.
    split; [by rewrite arrange_perm|]. rewrite (list_to_map_proper (arrange ((k, v) :: l)) ((k, v) :: l)); [done| |].
    + by rewrite arrange_perm.
    + apply arrange_perm.
Qed.

Lemma unordered_stores_spec (kvs tmp : list (K * V)) : NoDup tmp.*1 ->
  let m := fold_left (fun l kv => unordered_store kv.1 kv.2 l) kvs tmp in
  NoDup m.*1 /\
  list_to_map (M := gmap K V) m = fold_left (fun m kv => <[kv.1 := kv.2]> m) kvs (list_to_map tmp).
Proof.
  revert tmp. induction kvs as [|[k v] kvs IH]; intros tmp Ht; simpl; [done|].
  destruct (unordered_store_spec k v tmp Ht) as [Hn Hm]. destruct (IH _ Hn) as [IHn IHm].
  split; [done|]. by rewrite IHm, Hm.
Qed.

Lemma unordered_multimap_spec (kvs tmp : list (K * V)) :
  fold_left (fun l kv => unordered_multi_insert (kv.1, kv.2) l) kvs tmp ≡ₚ kvs ++ tmp.
Proof.
  revert tmp. induction kvs as [|[k v] kvs IH]; intros tmp; simpl; [done|].
  rewrite IH. unfold unordered_multi_insert. rewrite arrange_perm. by rewrite <- Permutation_middle.
Qed.
End Laws.

(** ** Conversions *)

Section Conversions.
Context {RH : Rehash} {RL : RehashLaws} {K V : Type} {AK : Adaptor K} {AV : Adaptor V}.
Context {KE : KeyEqual K} {KL : KeyEqualLaws K} `{Countable K}.

Lemma unordered_map_of_ok os (kvs tmp : list (K * V)) : entries os kvs ->
  unordered_map_of os tmp = Ok (fold_left (fun l kv => unordered_store kv.1 kv.2 l) kvs tmp).
Proof.
  intros Hx. revert tmp. induction Hx as [|o kv os kvs [Ek Ev] _ IH]; intros tmp; [done|].
  simpl. rewrite Ek. simpl. rewrite Ev. simpl. apply IH.
Qed.

Lemma unordered_multimap_of_ok os (kvs tmp : list (K * V)) : entries os kvs ->
  unordered_multimap_of os tmp = Ok (fold_left (fun l kv => unordered_multi_insert (kv.1, kv.2) l) kvs tmp).
Proof.
  intros Hx. revert tmp. induction Hx as [|o kv os kvs [Ek Ev] _ IH]; intros tmp; [done|].
  simpl. rewrite Ek. simpl. unfold as_. rewrite Ev. simpl. apply IH.
Qed.

Lemma unordered_sets_ok os (xs : list K) : elements os xs -> exists s m : list K,
  (forall w : unordered_set K, convert (ARRAY os) w = Ok (UnorderedSet s)) /\
  (forall w : unordered_multiset K, convert (ARRAY os) w = Ok (UnorderedMultiset m)) /\
  NoDup s /\ (forall x, x ∈ s <-> x ∈ xs) /\ m ≡ₚ xs.
Proof.
  intros Hx. exists (foldr unordered_insert [] xs), (foldr unordered_multi_insert [] xs).
  destruct (unordered_set_of_spec xs) as [Sn Se]. pose proof (unordered_multiset_of_spec xs) as Mp.
  split_and!; [..|done|done|done]; intros w; simpl; unfold convert_set;
    pose proof (convert_set_ok unordered_insert os xs Hx) as E1;
    pose proof (convert_set_ok unordered_multi_insert os xs Hx) as E2; simpl in E1, E2; by rewrite ?E1, ?E2.
Qed.

Lemma unordered_maps_ok os (kvs : list (K * V)) : entries os kvs -> exists m mm : list (K * V),
  (forall w : unordered_map K V, convert (MAP os) w = Ok (UnorderedMap m)) /\
  (forall w : unordered_multimap K V, convert (MAP os) w = Ok (UnorderedMultimap mm)) /\
  NoDup m.*1 /\ list_to_map m = fold_left (fun (m : gmap K V) kv => <[kv.1 := kv.2]> m) kvs ∅ /\ mm ≡ₚ kvs.
Proof.
  intros Hx. destruct (unordered_stores_spec kvs []) as [Mn Mm]; [constructor|].
  pose proof (unordered_multimap_spec kvs []) as Mp. rewrite app_nil_r in Mp.
  eexists _, _. split_and!; [..|exact Mn|exact Mm|exact Mp];
    intros w; simpl; [by rewrite (unordered_map_of_ok _ _ _ Hx)|by rewrite (unordered_multimap_of_ok _ _ _ Hx)].
Qed.
End Conversions.

(** Pairs with different keys, inserted one after the other. *)
Lemma fold_inserts {K V} `{Countable K} (kvs : list (K * V)) : NoDup kvs.*1 -> forall m,
  fold_left (fun (m : gmap K V) kv => <[kv.1 := kv.2]> m) kvs m = list_to_map kvs ∪ m.
Proof.
  induction kvs as [|[k v] kvs IH]; simpl; intros Hn m; [by rewrite (left_id_L ∅ _)|].
  apply NoDup_cons in Hn as [Hk Hn]. rewrite IH by done. rewrite <- insert_union_l.
  symmetry. apply insert_union_r. by apply not_elem_of_list_to_map.
Qed.

(** ** Round trips

    Some object stands for the container; it is what is packed, and converting it gives an
    equal container, whatever the order the sender and the receiver keep their elements in. *)

Definition comes_back {C : Type} `{Adaptor C} `{Equiv C} (v : C) : Prop :=
  exists o v', to_object v = Ok o /\ wf_object o /\ (forall b, pack v b = Ok (pack_object o b)) /\
    (forall w, convert o w = Ok v') /\ v' ≡ v.

(** C18. A message can carry an unordered container: what is packed is the encoding of one
    object, and converting it gives an equal container, though each program has the elements
    in an order of its own, which any insertion may change. *)
Theorem unordered_roundtrip {K V} `{AdaptorLaws K} `{AdaptorLaws V} {RH : Rehash} {RL : RehashLaws}
    {KE : KeyEqual K} {KL : KeyEqualLaws K} `{Countable K} :
  (forall l : list K, len l < 2 ^ 32 -> Forall valid l ->
    (NoDup l -> comes_back (UnorderedSet l)) /\ comes_back (UnorderedMultiset l)) /\
  (forall l : list (K * V), len l < 2 ^ 32 -> Forall (fun kv => valid kv.1 /\ valid kv.2) l ->
    (NoDup l.*1 -> comes_back (UnorderedMap l)) /\ comes_back (UnorderedMultimap l)).
Proof.
  split; intros l Hl Hv.
  - destruct (elements_laws l Hl Hv) as (os & E1 & He & Hw & E3).
    destruct (unordered_sets_ok os l He) as (s & m & C1 & C2 & Hn & Hs & Hm).
    split; [intros Hd; exists (ARRAY os), (UnorderedSet s)|exists (ARRAY os), (UnorderedMultiset m)];
      split_and!; try done. by apply NoDup_Permutation.
  - destruct (entries_laws l Hl Hv) as (os & E1 & He & Hw & E3).
    assert (Hen : entries os l).
    { eapply Forall2_impl; [exact He|]. intros o kv [H1' H2']. split; [apply H1'|exact H2']. }
    destruct (unordered_maps_ok os l Hen) as (m & mm & C1 & C2 & Hn & Hm & Hmm).
    split; [intros Hd; exists (MAP os), (UnorderedMap m)|exists (MAP os), (UnorderedMultimap mm)];
      split_and!; try done.
    rewrite (fold_inserts l Hd), (right_id_L ∅ _) in Hm. by apply (list_to_map_inj (M := gmap K)).
Qed.

(** A receiver that turns the order round at every insertion. *)
Definition reversing : Rehash := fun _ l => rev l.
Lemma reversing_laws : @RehashLaws reversing.
Proof. intros A l. apply Permutation_sym, Permutation_rev. Qed.

Definition sample_map : list (bytes * cint C_int) := [([chr 98], 1); ([chr 97], -2); ([chr 99], 3)].

Lemma unordered_roundtrip_witness :
  as_ (H := unordered_map_adaptor (H := reversing) bytes (cint C_int)) (unordered_map bytes (cint C_int))
    (MAP [(STR [chr 98], POSITIVE_INTEGER 1); (STR [chr 97], NEGATIVE_INTEGER (-2)); (STR [chr 99], POSITIVE_INTEGER 3);
          (STR [chr 97], POSITIVE_INTEGER 4)])
    = Ok (UnorderedMap [([chr 97], 4); ([chr 98], 1); ([chr 99], 3)]) /\
  comes_back (H := unordered_map_adaptor (H := reversing) bytes (cint C_int)) (UnorderedMap sample_map).
Proof.
  split; [vm_compute; reflexivity|].
  apply (@unordered_roundtrip bytes (cint C_int) _ _ _ _ reversing reversing_laws _ _ _ _).
  - reflexivity.
  - repeat constructor; vm_compute; congruence.
  - apply (bool_decide_unpack _). vm_compute. exact I.
Defined.
