(* ===== verification/StructSpec.v ===== *)
(** * Structs: what the generated conversions promise

    [struct_versions]: programs whose versions of a struct differ understand each
    other. Also the round trip of a struct packed as a map, the instance of
    [AdaptorLaws] for one packed as an array, and the inputs for which the
    conversions of Structs are undefined. *)

From S2P Require Import Prelude FloatBits MsgObject Pack Visitor Format Roundtrip Adaptors.
From S2P Require Import AdaptorLaws Containers ContainerLaws Structs.

(** ** Structs as arrays *)

Class ArrayStruct (T : Type) `{ElemsLaws T} := {
  array_longer (v w : T) os extra : valid_elems v -> object_elems v = Ok os ->
    convert_elems (os ++ extra) w = Ok v;
  array_shorter (v w : T) ov ow k : valid_elems v -> valid_elems w ->
    object_elems v = Ok ov -> object_elems w = Ok ow ->
    exists u, convert_elems (take k ov) w = Ok u /\ object_elems u = Ok (take k ov ++ drop k ow);
}.

#[export] Program Instance unit_array : ArrayStruct unit.
Next Obligation. by intros [] [] os extra _ _. Qed.
Next Obligation.
  intros [] [] ov ow k _ _ [= <-] [= <-]. exists tt. by rewrite take_nil, drop_nil.
Qed.

#[export] Program Instance cons_array (T R : Type) `{AdaptorLaws T} `{ArrayStruct R} : ArrayStruct (T * R).
Next Obligation.
  intros T R HA HL HT HE HS [x r] [y s] os extra [Hx Hr] E. simpl in *.
  destruct (laws x Hx) as (o & E1 & E2 & _). rewrite E1 in E. simpl in E.
  destruct (object_elems r) as [os'|] eqn:Er; [|done]. injection E as <-. simpl.
  rewrite E2. simpl. by rewrite (array_longer r s os' extra Hr Er).
Qed.
Next Obligation.
  intros T R HA HL HT HE HS [x r] [y s] ov ow k [Hx Hr] [Hy Hs] Ev Ew. simpl in *.
  destruct (laws x Hx) as (o & E1 & E2 & _). destruct (laws y Hy) as (o' & F1 & _).
  rewrite E1 in Ev. rewrite F1 in Ew. simpl in Ev, Ew.
  destruct (object_elems r) as [or|] eqn:Er; [|done]. injection Ev as <-.
  destruct (object_elems s) as [os|] eqn:Es; [|done]. injection Ew as <-.
  destruct k as [|k]; simpl.
  - exists (y, s). split; [done|]. simpl. by rewrite F1, Es.
  - destruct (array_shorter r s or os k Hr Hs Er Es) as (u & U1 & U2).
    exists (x, u). rewrite E2. simpl. rewrite U1. split; [done|]. simpl. by rewrite E1, U2.
Qed.

#[export] Program Instance define_array_laws (T : Type) `{ElemsLaws T} : AdaptorLaws (define_array T) := {
  valid v := match v with DefineArray a => valid_elems a /\ arity (T := T) < 2 ^ 32 end }.
Next Obligation.
  intros T HT HE [a] [Hv Ha]. destruct (elems_laws a Hv) as (os & E1 & El & E2 & Hw & E3).
  pose proof (len_nonneg os). exists (ARRAY os). simpl. rewrite E1. split_and!; [done| |lia|..].
  - intros [w]. by rewrite E2.
  - by apply wf_array; split; [lia|].
  - intros b. rewrite E3, <- El. change (Ok (pack_list os (pack_array (size32 os) b)) = Ok (E := adaptor_exn) (pack_object (ARRAY os) b)).
    by rewrite pack_object_ARRAY.
Qed.

(** ** Structs as maps *)

Definition nul_free (name : bytes) : Prop := Forall (fun c => u8 c <> 0) name.

Lemma until_nul_literal name : nul_free name -> until_nul (literal name) = name.
Proof.
  unfold literal. induction 1 as [|c name Hc _ IH]; [done|]. simpl.
  destruct (Z.eqb_spec (u8 c) 0); [done|]. by rewrite IH.
Qed.

(** The names a program can spell. *)
Definition spelled (names : list bytes) : Prop :=
  NoDup names /\ Forall (fun name => nul_free name /\ len name < 2 ^ 32 - 1) names.

(** Whether the key of a pair is one of [kept]; the pairs of [fv] that are, over those of [fw]. *)
Definition kept_pair (kept : bytes -> bool) (kv : object * object) : bool :=
  match kv.1 with STR s => kept s | _ => false end.
Definition merge (kept : bytes -> bool) (fv fw : list (object * object)) : list (object * object) :=
  zip_with (fun a b => if kept_pair kept a then a else b) fv fw.

Lemma literal_ok name b : nul_free name -> len name < 2 ^ 32 - 1 ->
  object_char_array (literal name) = Ok (STR name) /\
  pack_char_array (literal name) b = Ok (pack_object (STR name) b).
Proof.
  intros Hn Hl. pose proof (len_nonneg name). unfold object_char_array, pack_char_array.
  assert (0 <= len (literal name) < 2 ^ 32).
  { unfold literal. rewrite len_app. change (len [chr 0]) with 1. lia. }
  rewrite checked_ok, until_nul_literal by done.
  split; [done|]. simpl. unfold size32. by rewrite wrap_small by lia.
Qed.

Class MapStruct (T : Type) `{Fields T} := {
  fields_valid : T -> Prop;
  fields_objects names (v : T) : fields_valid v -> length names = field_count (T := T) ->
    Forall (fun name => nul_free name /\ len name < 2 ^ 32 - 1) names ->
    exists os : list object, length os = length names /\
      object_fields names v = Ok (zip (STR <$> names) os) /\ Forall wf_object os /\
      forall b, pack_fields names v b = Ok (pack_pairs (zip (STR <$> names) os) b);
  fields_merge names (kept : bytes -> bool) (kvmap : gmap bytes object) (v w : T) (ov ow : list object) : fields_valid v -> fields_valid w ->
    Forall (fun name => nul_free name /\ len name < 2 ^ 32 - 1) names ->
    object_fields names v = Ok (zip (STR <$> names) ov) -> length ov = length names ->
    object_fields names w = Ok (zip (STR <$> names) ow) -> length ow = length names ->
    Forall2 (fun name o => kvmap !! name = if kept name then Some o else None) names ov ->
    exists u, convert_fields names kvmap w = Ok u /\
      object_fields names u =
        Ok (merge kept (zip (STR <$> names) ov) (zip (STR <$> names) ow));
}.

#[export] Program Instance unit_map : MapStruct unit := { fields_valid _ := True }.
Next Obligation. intros [|name names] [] _ Hl _; [|done]. exists []. by split_and!. Qed.
Next Obligation.
  intros names kept kvmap [] [] ov ow _ _ _ Hv _ Hw _ _. exists tt. split; [done|].
  simpl in *. injection Hv as Hv. by rewrite <- Hv.
Qed.

#[export] Program Instance cons_map (T R : Type) `{AdaptorLaws T} `{MapStruct R} : MapStruct (T * R) := {
  fields_valid v := valid v.1 /\ fields_valid v.2 }.
Next Obligation.
  intros T R HA HL HF HM [|name names] [x r] [Hx Hr] Hl Hn; [done|].
  apply Forall_cons in Hn as [[Hn Hs] Hns]. simpl in *.
  destruct (laws x Hx) as (o & E1 & _ & Hw & E3).
  destruct (fields_objects names r Hr) as (os & Hos & F1 & Hws & F3); [by injection Hl|done|].
  exists (o :: os). destruct (literal_ok name [] Hn Hs) as [L _]. rewrite L, E1, F1. simpl.
  split_and!; [by rewrite Hos|done|by constructor|].
  intros b. rewrite (proj2 (literal_ok name b Hn Hs)). cbn [res_bind]. rewrite E3. cbn [res_bind].
  by rewrite F3.
Qed.
Next Obligation.
  intros T R HA HL HF HM [|name names] kept kvmap [x r] [y s] ov ow [Hx Hr] [Hy Hs] Hn Ev Lv Ew Lw Hk.
  { exists (y, s). split; [done|]. by inversion Hk. }
  destruct ov as [|o ov], ow as [|o' ow]; try done. simpl in Lv, Lw.
  apply Forall_cons in Hn as [[Hn Hl] Hns]. apply Forall2_cons in Hk as [Hk Hks]. simpl in *.
  destruct (literal_ok name [] Hn Hl) as [L _]. rewrite L in Ev, Ew |- *. simpl in Ev, Ew |- *.
  destruct (laws x Hx) as (ox & E1 & E2 & _). destruct (laws y Hy) as (oy & F1 & _).
  rewrite E1 in Ev. rewrite F1 in Ew. simpl in Ev, Ew.
  destruct (object_fields names r) as [lr|] eqn:Er; [|done]. injection Ev as -> Er'.
  destruct (object_fields names s) as [ls|] eqn:Es; [|done]. injection Ew as -> Es'.
  destruct (fields_merge names kept kvmap r s ov ow) as (u & U1 & U2);
    [done..|by rewrite Er, Er'|lia|by rewrite Es, Es'|lia|done|].
  rewrite Hk. destruct (kept name) eqn:K.
  - exists (x, u). rewrite E2. simpl. rewrite U1. split; [done|]. simpl. rewrite E1. simpl.
    rewrite U2. unfold merge, kept_pair. simpl. by rewrite K.
  - exists (y, u). simpl. rewrite U1. split; [done|]. simpl. rewrite F1. simpl.
    rewrite U2. unfold merge, kept_pair. simpl. by rewrite K.
Qed.

(** ** The table of the pairs of a message *)

Lemma emplace_found (kvs : list (bytes * object)) (m : gmap bytes object) k o :
  m !! k = Some o -> fold_left emplace kvs m !! k = Some o.
Proof.
  revert m. induction kvs as [|[k' o'] kvs IH]; intros m Hm; [done|]. simpl. apply IH.
  unfold emplace. simpl. destruct (m !! k') eqn:E; [done|].
  rewrite lookup_insert_ne; [done|]. intros ->. congruence.
Qed.

(** A key that comes once. *)
Lemma emplace_lookup (kvs : list (bytes * object)) (m : gmap bytes object) k o : m !! k = None ->
  (k, o) ∈ kvs -> (forall o', (k, o') ∈ kvs -> o' = o) -> fold_left emplace kvs m !! k = Some o.
Proof.
  revert m. induction kvs as [|[k' o'] kvs IH]; intros m Hm Hin Hu; [by apply elem_of_nil in Hin|].
  simpl. destruct (decide (k' = k)) as [->|Hne].
  - apply emplace_found. unfold emplace. simpl. rewrite Hm.
    rewrite (Hu o') by apply elem_of_cons, or_introl, eq_refl. by rewrite lookup_insert_eq.
  - apply IH.
    + unfold emplace. simpl. destruct (m !! k'); [done|]. by rewrite lookup_insert_ne.
    + apply elem_of_cons in Hin as [[= -> ->]|Hin]; done.
    + intros o1 H1. apply Hu, elem_of_cons. by right.
Qed.

Lemma emplace_missing (kvs : list (bytes * object)) (m : gmap bytes object) k : m !! k = None ->
  (forall o, (k, o) ∉ kvs) -> fold_left emplace kvs m !! k = None.
Proof.
  revert m. induction kvs as [|[k' o'] kvs IH]; intros m Hm Hk; [done|]. simpl. apply IH.
  - unfold emplace. simpl. destruct (m !! k'); [done|]. rewrite lookup_insert_ne; [done|].
    intros ->. apply (Hk o'), elem_of_cons. by left.
  - intros o H. apply (Hk o), elem_of_cons. by right.
Qed.

Definition key_pair (kv : object * object) : option (bytes * object) :=
  (fun k => (k, kv.2)) <$> key_string kv.1.

Lemma key_pairs os (kvs : list (bytes * object)) k o : mapM key_pair os = Some kvs ->
  (k, o) ∈ kvs <-> exists kv, kv ∈ os /\ key_string kv.1 = Some k /\ kv.2 = o.
Proof.
  intros H%mapM_Some. induction H as [|kv kv' os kvs E _ IH].
  { split; [by intros ?%elem_of_nil|]. by intros (? & ?%elem_of_nil & _). }
  unfold key_pair in E. destruct (key_string kv.1) as [k'|] eqn:Ek; simplify_eq/=.
  rewrite elem_of_cons, IH. setoid_rewrite elem_of_cons. split.
  - intros [[= -> ->]|(x & Hx & E1 & E2)]; eauto 6.
  - intros (x & [->|Hx] & E1 & E2); [left; congruence|eauto 6].
Qed.

(** The pairs of a struct, by name. *)
Lemma elem_of_struct (names : list bytes) (ov : list object) kv :
  kv ∈ zip (STR <$> names) ov <-> exists i name o, names !! i = Some name /\ ov !! i = Some o /\
    kv = (STR name, o).
Proof.
  rewrite list_elem_of_lookup. setoid_rewrite lookup_zip_with_Some. split.
  - intros (i & x & y & -> & Hx & Hy). rewrite list_lookup_fmap in Hx.
    apply fmap_Some in Hx as (name & Hn & ->). eauto 7.
  - intros (i & name & o & Hn & Ho & ->). exists i, (STR name), o. by rewrite list_lookup_fmap, Hn.
Qed.

(** A message of the kept members of a struct, in any order, and of pairs under other names. *)
Definition message_of (names : list bytes) (kept : bytes -> bool) (fv extra os : list (object * object)) : Prop :=
  os ≡ₚ filter (fun kv => kept_pair kept kv = true) fv ++ extra /\
  Forall (fun kv => exists k, key_string kv.1 = Some k /\ k ∉ names) extra.

Lemma message_table names kept (ov : list object) extra os :
  NoDup names -> length ov = length names ->
  message_of names kept (zip (STR <$> names) ov) extra os ->
  exists kvs, mapM key_pair os = Some kvs /\
    Forall2 (fun name o => fold_left emplace kvs ∅ !! name = if kept name then Some o else None) names ov.
Proof.
  intros Hn Hl [Hos Hex]. rewrite Forall_forall in Hex.
  assert (Hin : forall kv, kv ∈ os <->
    kept_pair kept kv = true /\ kv ∈ zip (STR <$> names) ov \/ kv ∈ extra).
  { intros kv. by rewrite Hos, elem_of_app, list_elem_of_filter. }
  destruct (mapM key_pair os) as [kvs|] eqn:E.
  2: { apply mapM_None in E. apply Exists_exists in E as (kv & Hkv & Hk). exfalso.
       unfold key_pair in Hk. apply fmap_None in Hk. apply Hin in Hkv as [[_ Hkv]|Hkv].
       - by apply elem_of_struct in Hkv as (i & name & o & _ & _ & ->).
       - destruct (Hex _ Hkv) as (k & Hk' & _). congruence. }
  exists kvs. split; [done|]. apply Forall2_same_length_lookup. split; [done|].
  intros i name o Hi Ho.
  assert (Only : forall kv k, kv ∈ os -> key_string kv.1 = Some k -> k = name ->
    kept name = true /\ kv.2 = o).
  { intros kv k Hkv Hk ->. apply Hin in Hkv as [[Hkp Hkv]|Hkv].
    - apply elem_of_struct in Hkv as (j & name' & o' & Hj & Hjo & ->). simpl in Hk. injection Hk as ->.
      rewrite (NoDup_lookup _ _ _ _ Hn Hj Hi) in Hjo. split; [done|]. simpl. congruence.
    - destruct (Hex _ Hkv) as (k & Hk' & Hnin). rewrite Hk in Hk'. injection Hk' as <-.
      destruct Hnin. by apply list_elem_of_lookup_2 in Hi. }
  destruct (kept name) eqn:K.
  - apply emplace_lookup; [done| |].
    + apply (key_pairs os kvs name o E). exists (STR name, o). split; [|done].
      apply Hin. left. split; [exact K|]. apply elem_of_struct. by exists i, name, o.
    + intros o' (kv & Hkv & Hk & <-)%(key_pairs os kvs name o' E). by apply (Only kv name).
  - apply emplace_missing; [done|]. intros o' (kv & Hkv & Hk & _)%(key_pairs os kvs name o' E).
    by destruct (Only kv name Hkv Hk eq_refl).
Qed.

(** C16. A struct sent by one version of a program can be read by another. As an
    array: members the sender has more are ignored, members it has not keep the
    value the reader gave them. As a map: in whatever order the pairs come and
    whatever other keys there are, each member whose name the message has takes its
    value from it, and the others keep theirs. *)
Theorem struct_versions {T} `{ArrayStruct T} `{MapStruct T} names (v w : T) :
  valid_elems v -> valid_elems w -> fields_valid v -> fields_valid w ->
  spelled names -> length names = field_count (T := T) ->
  exists ov ow fv fw,
    to_object (DefineArray v) = Ok (ARRAY ov) /\ to_object (DefineArray w) = Ok (ARRAY ow) /\
    (forall extra, convert (ARRAY (ov ++ extra)) (DefineArray w) = Ok (DefineArray v)) /\
    (forall k, exists u, convert (ARRAY (take k ov)) (DefineArray w) = Ok (DefineArray u) /\
      to_object (DefineArray u) = Ok (ARRAY (take k ov ++ drop k ow))) /\
    map_object names v = Ok (MAP fv) /\ map_object names w = Ok (MAP fw) /\
    forall kept extra os, message_of names kept fv extra os ->
      exists u, map_unpack names (MAP os) w = Some (Ok u) /\
        map_object names u = Ok (MAP (merge kept fv fw)).
Proof.
  intros Hv Hw Fv Fw [Hn Hs] Hl.
  destruct (elems_laws v Hv) as (ov & Ev & _). destruct (elems_laws w Hw) as (ow & Ew & _).
  destruct (fields_objects names v Fv Hl Hs) as (xv & Lv & Xv & _).
  destruct (fields_objects names w Fw Hl Hs) as (xw & Lw & Xw & _).
  exists ov, ow, (zip (STR <$> names) xv), (zip (STR <$> names) xw).
  unfold map_object. rewrite Xv, Xw. simpl. rewrite Ev, Ew. split_and!; try done.
  - intros extra. by rewrite (array_longer v w ov extra Hv Ev).
  - intros k. destruct (array_shorter v w ov ow k Hv Hw Ev Ew) as (u & U1 & U2).
    exists u. by rewrite U1, U2.
  - intros kept extra os Hm. destruct (message_table _ _ _ _ _ Hn Lv Hm) as (kvs & Ek & Ht).
    destruct (fields_merge names kept _ v w xv xw Fv Fw Hs Xv Lv Xw Lw Ht) as (u & U1 & U2).
    exists u. unfold map_unpack. change (fun kv : object * object => _) with key_pair.
    rewrite Ek, U1. by rewrite U2.
Qed.

(** A struct packed as a map comes back as it was, from any variable. *)
Lemma map_roundtrip {T} `{MapStruct T} lim names (v : T) rest fv :
  fields_valid v -> spelled names -> length names = field_count (T := T) ->
  Z.of_nat (length names) < 2 ^ 32 ->
  map_object names v = Ok (MAP fv) -> within lim 1 (MAP fv) = true ->
  exists b, map_pack names v [] = Ok b /\ decode lim (b ++ rest) = Done (MAP fv) rest.
Proof.
  intros Fv [Hn Hs] Hl H32 E Hi. destruct (fields_objects names v Fv Hl Hs) as (xv & Lv & Xv & Hw & Hp).
  unfold map_object in E. rewrite Xv in E. injection E as <-.
  assert (Hlen : len (zip (STR <$> names) xv) = Z.of_nat (length names)).
  { unfold len. rewrite length_zip_with, length_fmap. lia. }
  exists (encode (MAP (zip (STR <$> names) xv))). split.
  - unfold map_pack, encode. rewrite Hp, pack_object_MAP. unfold size32. by rewrite Hlen, <- Hl.
  - apply decode_encode; [|done]. apply wf_map. split; [by rewrite Hlen|].
    apply Forall_forall. intros kv (i & name & o & Hi1 & Ho & ->)%elem_of_struct. simpl.
    rewrite Forall_lookup in Hs. rewrite Forall_lookup in Hw. destruct (Hs i name Hi1). split; [lia|]. by eapply Hw.
Qed.

(** ** Messages no conversion should be given *)

Example integer_key_undefined :
  map_unpack (T := bool * unit) [[chr 97]] (MAP [(POSITIVE_INTEGER 1, NIL)]) (true, tt) = None.
Proof. reflexivity. Qed.

Example empty_array_undefined :
  convert_carray (T := bool) (ARRAY []) [true; false] = None /\
  convert_msgpack_tuple (T := bool * unit) (ARRAY []) (true, tt) = None.
Proof. by split. Qed.

(** A string shorter than a std::array<char, N> is read past its end. *)
Example short_string_undefined : convert_array_char (STR [chr 97]) [chr 0; chr 0] = None.
Proof. reflexivity. Qed.

(** ** A pixel with an opacity, sent to a program that knows colours only *)

Definition colour : Type := cint C_unsigned_char * (cint C_unsigned_char * unit).

Lemma struct_versions_witness :
  let names := [[chr 114]; [chr 103]] in
  let v : colour := (1, (2, tt)) in let w : colour := (8, (9, tt)) in
  exists ov ow fv fw,
    to_object (DefineArray v) = Ok (ARRAY ov) /\ to_object (DefineArray w) = Ok (ARRAY ow) /\
    (forall extra, convert (ARRAY (ov ++ extra)) (DefineArray w) = Ok (DefineArray v)) /\
    (forall k, exists u, convert (ARRAY (take k ov)) (DefineArray w) = Ok (DefineArray u) /\
      to_object (DefineArray u) = Ok (ARRAY (take k ov ++ drop k ow))) /\
    map_object names v = Ok (MAP fv) /\ map_object names w = Ok (MAP fw) /\
    forall kept extra os, message_of names kept fv extra os ->
      exists u, map_unpack names (MAP os) w = Some (Ok u) /\
        map_object names u = Ok (MAP (merge kept fv fw)).
Proof.
  intros names v w. apply struct_versions; [| | | | |reflexivity].
  1-4: split; [split; vm_compute; congruence|split; [split; vm_compute; congruence|exact I]].
  split; [by apply (bool_decide_unpack _); vm_compute|].
  repeat constructor; vm_compute; congruence.
Defined.

(** A later version of the sender has another member and writes it first. *)
Example opacity_ignored :
  map_unpack (T := colour) [[chr 114]; [chr 103]]
    (MAP [(STR [chr 97], POSITIVE_INTEGER 200); (STR [chr 103], POSITIVE_INTEGER 2)]) (8, (9, tt)) =
  Some (Ok (8, (2, tt))).
Proof. reflexivity. Qed.
