(* ===== verification/References.v ===== *)
(** * References to variables

    Models std::reference_wrapper (v1/adaptor/cpp11/reference_wrapper.hpp), [array_ref]
    (v1/adaptor/array_ref.hpp) and [size_equal_only] (v1/adaptor/size_equal_only.hpp): what
    they convert into is a variable of the program, which other references may name too.

    The variables of one type are a store. What reads or writes a variable that is not there
    is [None]. A conversion that throws leaves a store that nothing is said of. *)

From S2P Require Import Prelude FloatBits MsgObject Pack Roundtrip Adaptors AdaptorLaws Containers.
From S2P Require Import ContainerLaws Ordered Structs.

#[local] Open Scope res_scope.

(** ** [std::reference_wrapper<T>] *)

Section Wrapper.
Context {T : Type} `{Adaptor T}.
Implicit Types (p : Z) (st : gmap Z T).

Definition convert_reference (o : object) p st : partial (gmap Z T) :=
  x ← st !! p; Some (let? y := convert o x in Ok (<[p := y]> st)).
Definition pack_reference p st (o : bytes) : partial bytes := x ← st !! p; Some (pack x o).
Definition object_reference p st : partial object := x ← st !! p; Some (to_object x).
End Wrapper.

(** ** [array_ref]

    Of a sequence ([array_ref<T>]) or an array ([array_ref<T[N]>]): its variable holds the
    list of its elements. [None] is the null pointer of the default constructor. *)

Definition array_ref : Type := option Z.

Section ArrayRef.
Context {T : Type} `{Adaptor T}.
Implicit Types (v : array_ref) (st : gmap Z (list T)).

(** [size()] *)
Definition array_ref_size v st : option Z := p ← v; l ← st !! p; Some (len l).

(** For a sequence whose size is fixed, and for an array. *)
Definition convert_array_ref (o : object) v st : partial (gmap Z (list T)) :=
  match v with
  | None => Some (Throw type_error)
  | Some p =>
    match o with
    | ARRAY os =>
      l ← st !! p;
      Some (if len l <? len os then Throw type_error
            else let? l := convert_prefix os l in Ok (<[p := l]> st))
    | _ => Some (Throw type_error)
    end
  end.

(** [array_ref<std::vector<T>>] *)
Definition convert_vector_ref (o : object) v st : partial (gmap Z (list T)) :=
  match v with
  | None => Some (Throw type_error)
  | Some p =>
    match o with
    | ARRAY os =>
      l ← st !! p;
      Some (let? l := convert_all os (resize (length os) l) in Ok (<[p := l]> st))
    | _ => Some (Throw type_error)
    end
  end.

Definition pack_array_ref v st (o : bytes) : partial bytes :=
  match v with
  | None => Some (Throw type_error)
  | Some p =>
    l ← st !! p;
    Some (let? size := checked_get_container_size (len l) in pack_all l (pack_array size o))
  end.

Definition object_array_ref v st : partial object :=
  match v with
  | None => Some (Throw type_error)
  | Some p =>
    l ← st !! p;
    Some match l with
         | [] => Ok (ARRAY [])
         | _ => let? _ := checked_get_container_size (len l) in
                let? os := map_res to_object l in Ok (ARRAY os)
         end
  end.
End ArrayRef.

(** *** The operators of [array_ref<T>]: those of the sequence *)

Section Compare.
Context {T : Type} `{EqDecision T} `{Compare T}.
Implicit Types (v w : array_ref) (st : gmap Z (list T)).

(** std::lexicographical_compare *)
Fixpoint sequence_less (a b : list T) : bool :=
  match a, b with
  | _, [] => false
  | [], _ => true
  | x :: a, y :: b => if less x y then true else if less y x then false else sequence_less a b
  end.

Definition both {A} (f : list T -> list T -> A) v w st : option A :=
  p ← v; q ← w; a ← st !! p; b ← st !! q; Some (f a b).

Definition array_ref_eq v w st : option bool := both (fun a b => bool_decide (a = b)) v w st.
Definition array_ref_ne v w st : option bool := both (fun a b => negb (bool_decide (a = b))) v w st.
Definition array_ref_lt v w st : option bool := both sequence_less v w st.
Definition array_ref_gt v w st : option bool := both (fun a b => sequence_less b a) v w st.
Definition array_ref_le v w st : option bool := both (fun a b => negb (sequence_less b a)) v w st.
Definition array_ref_ge v w st : option bool := both (fun a b => negb (sequence_less a b)) v w st.
End Compare.

(** ** [size_equal_only] *)

(** [type::size]: of a container its size(), of a tuple the number of its elements. *)
Class HasSize (T : Type) := type_size : T -> Z.
#[export] Instance vector_size (T : Type) : HasSize (vector T) := fun '(Vector l) => len l.
#[export] Instance tuple_size (T : Type) `{TupleElems T} : HasSize (tuple T) := fun _ => arity (T := T).

Section SizeEqualOnly.
Context {T : Type} `{Adaptor T} `{HasSize T}.
Implicit Types (p : Z) (st : gmap Z T).

Definition convert_size_equal_only (o : object) p st : partial (gmap Z T) :=
  x ← st !! p;
  match o with
  | ARRAY os => if len os =? type_size x then convert_reference o p st else Some (Throw type_error)
  | MAP kvs => if len kvs =? type_size x then convert_reference o p st else Some (Throw type_error)
  | _ => Some (Throw type_error)
  end.
Definition pack_size_equal_only p st (o : bytes) : partial bytes := pack_reference p st o.
Definition object_size_equal_only p st : partial object := object_reference p st.
End SizeEqualOnly.

(** ** What they promise *)

(** What another variable, or another reference to the same one, sees afterwards. *)
Lemma reference_frame {T} `{Adaptor T} o p (st st' : gmap Z T) :
  convert_reference o p st = Some (Ok st') ->
  (exists x y, st !! p = Some x /\ convert o x = Ok y /\ st' !! p = Some y) /\
  forall q, q <> p -> st' !! q = st !! q.
Proof.
  unfold convert_reference. destruct (st !! p) as [x|] eqn:E; [|done]. simpl.
  destruct (convert o x) as [y|] eqn:Ec; [|done]. intros [= <-]. split.
  - exists x, y. by rewrite lookup_insert_eq.
  - intros q Hq. by rewrite lookup_insert_ne.
Qed.

(** A reference packs what its variable packs, and reads it back into any variable. *)
Lemma reference_roundtrip {T} `{AdaptorLaws T} p q (st : gmap Z T) v w :
  st !! p = Some v -> valid v -> st !! q = Some w ->
  exists o, object_reference p st = Some (Ok o) /\
    (forall b, pack_reference p st b = Some (Ok (pack_object o b))) /\
    convert_reference o q st = Some (Ok (<[q := v]> st)).
Proof.
  intros Hp Hv Hq. destruct (laws v Hv) as (o & Eo & Ec & _ & Ep). exists o.
  unfold object_reference, pack_reference, convert_reference. rewrite Hp, Hq. simpl. rewrite Eo, Ec.
  split_and!; [done| |done]. intros b. by rewrite Ep.
Qed.

Lemma convert_prefix_over {T} `{AdaptorLaws T} (os : list object) (l : list T) : forall ws us,
  (forall ws, length ws = length l -> convert_all os ws = Ok l) -> length os = length l ->
  length ws = length l -> convert_prefix os (ws ++ us) = Ok (l ++ us).
Proof.
  intros ws us E Ho Hw. rewrite <- Hw in Ho. specialize (E ws Hw). clear Hw. revert os l Ho E.
  induction ws as [|w ws IH]; intros [|o os] l Ho E; try done; simpl in *; [by injection E as <-|].
  destruct (convert o w) as [y|]; [|done]. simpl in *.
  destruct (convert_all os ws) as [ys|] eqn:Ea; [|done]. injection E as <-. simpl.
  by rewrite (IH os ys) by (done || lia).
Qed.

(** What is sent through an [array_ref] can be received through one, into a variable that has
    at least as many elements: these are overwritten, those after them and all other
    variables stay. Through an [array_ref] of a vector it is received whatever the vector
    held. Through the default [array_ref] nothing is sent or received. *)
Theorem array_refs_carry_sequences {T} `{AdaptorLaws T} p q (st : gmap Z (list T)) l us :
  st !! p = Some l -> st !! q = Some us -> Forall valid l -> len l < 2 ^ 32 ->
  exists o, object_array_ref (Some p) st = Some (Ok o) /\
    (forall b, pack_array_ref (Some p) st b = Some (Ok (pack_object o b))) /\
    convert_array_ref o (Some q) st =
      Some (if len us <? len l then Throw type_error else Ok (<[q := l ++ drop (length l) us]> st)) /\
    convert_vector_ref o (Some q) st = Some (Ok (<[q := l]> st)) /\
    convert_array_ref o None st = Some (Throw type_error) /\
    pack_array_ref None st [] = Some (Throw type_error) /\ object_array_ref None st = Some (Throw type_error).
Proof.
  intros Hp Hq Hl Hs. destruct (convert_all_laws l Hl) as (os & Eo & El & Ec & _ & Ep). exists (ARRAY os).
  pose proof (len_nonneg l). pose proof (checked_ok (len l) ltac:(lia)) as Hsize.
  assert (Elen : len os = len l) by (unfold len; lia).
  unfold object_array_ref, pack_array_ref, convert_array_ref, convert_vector_ref. rewrite Hp, Hq. simpl.
  rewrite Hsize, Eo, Elen. simpl. split_and!; try done.
  - destruct l; [by destruct os|done].
  - intros b. rewrite Ep. f_equal. f_equal. symmetry.
    replace (len l) with (size32 os) by (unfold size32; rewrite wrap_small; lia). apply pack_object_ARRAY.
  - destruct (Z.ltb_spec (len us) (len l)); [done|].
    rewrite <- (take_drop (length l) us) at 1.
    rewrite (convert_prefix_over os l (take (length l) us)); [done..|]. rewrite length_take. unfold len in *. lia.
  - rewrite Ec; [done|]. unfold resize. rewrite length_app, length_take, length_replicate. lia.
Qed.

(** [size_equal_only] takes an array as its variable does, when the sizes agree, and else
    refuses it. *)
Lemma size_equal_only_exact {T} `{Adaptor T} `{HasSize T} os p (st : gmap Z T) x :
  st !! p = Some x ->
  convert_size_equal_only (ARRAY os) p st =
    if len os =? type_size x then convert_reference (ARRAY os) p st else Some (Throw type_error).
Proof. intros Hp. unfold convert_size_equal_only. by rewrite Hp. Qed.

(** *** Two references to one variable, and operators *)

Definition two : gmap Z (list (cint C_int)) := {[ 1 := [10; 20; 30]; 2 := [10; 20] ]}.

(** What was received first is read by the second conversion, and overwritten. *)
Example aliased :
  (st ← convert_array_ref (ARRAY [POSITIVE_INTEGER 1; POSITIVE_INTEGER 2]) (Some 1) two;
   match st with
   | Ok st => convert_array_ref (ARRAY [POSITIVE_INTEGER 7]) (Some 1) st
   | Throw e => Some (Throw e)
   end) = Some (Ok (<[1 := [7; 2; 30]]> two)).
Proof. reflexivity. Qed.

Definition both_sizes : gmap Z (vector (cint C_int)) := {[ 1 := Vector [10; 20; 30] ]}.

(** A vector takes an array of any size; through [size_equal_only], of its own. *)
Example size_checked :
  convert_reference (ARRAY [POSITIVE_INTEGER 7]) 1 both_sizes = Some (Ok {[ 1 := Vector [7] ]}) /\
  convert_size_equal_only (ARRAY [POSITIVE_INTEGER 7]) 1 both_sizes = Some (Throw type_error).
Proof. by split. Qed.
