(* ===== verification/Handler.v ===== *)
(** * What a bound function runs in

    The thread-local objects a handler can reach ([this_handler], [this_session],
    [this_server]), the zones its results live in, and the exceptions that
    leave it: include/rpc/this_handler.h and .inl, this_session.h, this_server.h,
    lib/rpc/this_*.cc, detail/util.h and detail/client_error.cc, with the texts
    the library formats.

    A zone is an identity; [live] holds those not yet destroyed. An
    [object_handle] is an object, the zone its bytes are in, and the zone it
    owns: [set] changes the first two and not the third. Reading an
    object whose zone is gone is [Undefined]. *)

From S2P Require Import Prelude FloatBits MsgObject Pack Adaptors.
From Stdlib Require Import String.

(** ** Texts *)

Definition str (s : string) : bytes := list_byte_of_string s.

Fixpoint digits (fuel : nat) (n : Z) (acc : bytes) : bytes :=
  match fuel with
  | O => acc
  | S f =>
    let acc := chr (48 + n mod 10) :: acc in
    if n <? 10 then acc else digits f (n / 10) acc
  end.

(** [{}] on an integer of at most 64 bits. *)
Definition decimal (n : Z) : bytes :=
  if n <? 0 then chr 45 :: digits 20 (- n) [] else digits 20 n [].

Definition hex_digit (d : Z) : byte := chr (if d <? 10 then 48 + d else 87 + d).

(** [{:04x}] on a [uint16_t]. *)
Definition hex04 (n : Z) : bytes :=
  [hex_digit (n / 4096 mod 16); hex_digit (n / 256 mod 16); hex_digit (n / 16 mod 16);
   hex_digit (n mod 16)].

(** ** Exceptions and outcomes *)

Inductive code := no_such_function | wrong_arity | protocol_error.

Definition code_value (c : code) : Z :=
  match c with no_such_function => 1 | wrong_arity => 2 | protocol_error => 4 end.

(** [client_error::what()] *)
Definition client_error_what (c : code) (msg : bytes) : bytes :=
  str "client error C" ++ hex04 (code_value c) ++ str ": " ++ msg.

Inductive thrown :=
| client_error (what : bytes)
| std_exception (what : bytes)     (* any other class derived from std::exception *)
| handler_error
| handler_spec_response
| not_std.                         (* anything else *)

Inductive outcome (A : Type) :=
| Returns (a : A)
| Raises (t : thrown)
| Undefined.                       (* undefined behaviour of C++ *)
Arguments Returns {A} a.
Arguments Raises {A} t.
Arguments Undefined {A}.

Definition of_adaptor_exn (e : adaptor_exn) : thrown :=
  match e with
  | type_error => std_exception (str "std::bad_cast")
  | container_size_overflow => std_exception (str "container size overflow")
  end.

(** ** Zones and handles *)

Record zones := { live : gset Z; next_zone : Z }.

Definition no_zones : zones := {| live := ∅; next_zone := 0 |}.
Definition new_zone (z : zones) : Z * zones :=
  (next_zone z, {| live := {[next_zone z]} ∪ live z; next_zone := next_zone z + 1 |}).
Definition free_zone (o : option Z) (z : zones) : zones :=
  match o with
  | Some i => {| live := live z ∖ {[i]}; next_zone := next_zone z |}
  | None => z
  end.

Record handle := { h_obj : object; h_in : option Z; h_own : option Z }.

(** [object_handle()], and [set] with an object and where its bytes are. *)
Definition nil_handle : handle := {| h_obj := NIL; h_in := None; h_own := None |}.
Definition set_object (h : handle) (o : object) (at_ : option Z) : handle :=
  {| h_obj := o; h_in := at_; h_own := h_own h |}.

(** Does the object point to bytes or elements outside itself? *)
Definition external (o : object) : bool :=
  match o with
  | STR (_ :: _) | BIN (_ :: _) | ARRAY (_ :: _) | MAP (_ :: _) | EXT _ _ => true
  | _ => false
  end.

Definition is_live (z : zones) (o : option Z) : bool :=
  match o with Some i => bool_decide (i ∈ live z) | None => true end.

Definition readable (z : zones) (h : handle) : bool := negb (external (h_obj h)) || is_live z (h_in h).

(** ** Thread-local state *)

Record this_handler_t := { error_ : handle; resp_ : handle; resp_enabled_ : bool }.
Record this_session_t := { exit_ : bool; id_ : Z }.

Record locals := {
  this_handler : this_handler_t;
  this_session : this_session_t;
  stopping_ : bool;                (* this_server *)
}.

Definition new_locals : locals := {|
  this_handler := {| error_ := nil_handle; resp_ := nil_handle; resp_enabled_ := true |};
  this_session := {| exit_ := false; id_ := 0 |};
  stopping_ := false |}.

(** What a handler runs in: its thread's locals, the zones, standard output. *)
Record env := { loc : locals; heap : zones; console : bytes }.

Definition set_loc (l : locals) (e : env) : env :=
  {| loc := l; heap := heap e; console := console e |}.
Definition set_heap (z : zones) (e : env) : env :=
  {| loc := loc e; heap := z; console := console e |}.
Definition set_handler (h : this_handler_t) (l : locals) : locals :=
  {| this_handler := h; this_session := this_session l; stopping_ := stopping_ l |}.
Definition set_session (s : this_session_t) (l : locals) : locals :=
  {| this_handler := this_handler l; this_session := s; stopping_ := stopping_ l |}.
Definition set_stopping (b : bool) (l : locals) : locals :=
  {| this_handler := this_handler l; this_session := this_session l; stopping_ := b |}.

(** ** The effects of a handler *)

Definition H (A : Type) : Type := env -> outcome A * env.

Definition hret {A} (a : A) : H A := fun e => (Returns a, e).
Definition raise {A} (t : thrown) : H A := fun e => (Raises t, e).
Definition undefined {A} : H A := fun e => (Undefined, e).
Definition hbind {A B} (m : H A) (k : A -> H B) : H B := fun e =>
  match m e with
  | (Returns a, e) => k a e
  | (Raises t, e) => (Raises t, e)
  | (Undefined, e) => (Undefined, e)
  end.
Definition hget : H env := fun e => (Returns e, e).
Definition hmodify (f : env -> env) : H unit := fun e => (Returns tt, f e).
Definition lift {A} (m : res adaptor_exn A) : H A :=
  match m with Ok a => hret a | Throw e => raise (of_adaptor_exn e) end.

(** [try { m } catch ...]: [k] gets the exception. *)
Definition try_catch {A} (m : H A) (k : thrown -> H A) : H A := fun e =>
  match m e with (Raises t, e) => k t e | r => r end.

Declare Scope handler_scope.
Delimit Scope handler_scope with handler.
Notation "'do!' x := m 'in' k" := (hbind m (fun x => k))
  (at level 10, x pattern, m at level 100, k at level 200) : handler_scope.
#[local] Open Scope handler_scope.

Definition modify_handler (f : this_handler_t -> this_handler_t) : H unit :=
  hmodify (fun e => set_loc (set_handler (f (this_handler (loc e))) (loc e)) e).
Definition modify_session (f : this_session_t -> this_session_t) : H unit :=
  hmodify (fun e => set_loc (set_session (f (this_session (loc e))) (loc e)) e).

Definition alloc_zone : H Z := fun e =>
  let '(i, z) := new_zone (heap e) in (Returns i, set_heap z e).
Definition free (o : option Z) : H unit := hmodify (fun e => set_heap (free_zone o (heap e)) e).

(** [detail::pack]: the value as an object in a zone of its own, which goes away
    with the exception when the value is too large. *)
Definition pack_handle {T} `{Adaptor T} (v : T) : H handle :=
  do! o := lift (to_object v) in
  do! z := alloc_zone in
  hret {| h_obj := o; h_in := Some z; h_own := Some z |}.

(** ** [this_handler_t] *)

(** Assigning a handle destroys the zone the old one owned. *)
Definition respond_error {A T} `{Adaptor T} (err_obj : T) : H A :=
  do! h := pack_handle err_obj in
  do! e := hget in
  do! _ := free (h_own (error_ (this_handler (loc e)))) in
  do! _ := modify_handler (fun t => {| error_ := h; resp_ := resp_ t;
                                       resp_enabled_ := resp_enabled_ t |}) in
  raise handler_error.

Definition respond {T} `{Adaptor T} (resp_obj : T) : H unit :=
  do! h := pack_handle resp_obj in
  do! e := hget in
  do! _ := free (h_own (resp_ (this_handler (loc e)))) in
  modify_handler (fun t => {| error_ := error_ t; resp_ := h; resp_enabled_ := resp_enabled_ t |}).

Definition disable_response : H unit :=
  modify_handler (fun t => {| error_ := error_ t; resp_ := resp_ t; resp_enabled_ := false |}).
Definition enable_response : H unit :=
  modify_handler (fun t => {| error_ := error_ t; resp_ := resp_ t; resp_enabled_ := true |}).

Definition clear_handler : H unit :=
  do! _ := modify_handler (fun t => {| error_ := set_object (error_ t) NIL None;
                                       resp_ := set_object (resp_ t) NIL None;
                                       resp_enabled_ := resp_enabled_ t |}) in
  enable_response.

(** ** [this_session_t] and [this_server_t] *)

Definition post_exit : H unit := modify_session (fun s => {| exit_ := true; id_ := id_ s |}).
Definition clear_session : H unit := modify_session (fun s => {| exit_ := false; id_ := id_ s |}).
Definition set_id (v : Z) : H unit := modify_session (fun s => {| exit_ := exit_ s; id_ := v |}).
Definition session_id : H Z := do! e := hget in hret (id_ (this_session (loc e))).
Definition stop_server : H unit := hmodify (fun e => set_loc (set_stopping true (loc e)) e).
Definition cancel_stop : H unit := hmodify (fun e => set_loc (set_stopping false (loc e)) e).

(** ** Lemmas *)

Lemma hbind_returns {A B} (m : H A) (k : A -> H B) e a e' :
  m e = (Returns a, e') -> hbind m k e = k a e'.
Proof. unfold hbind. by intros ->. Qed.

Lemma hbind_raises {A B} (m : H A) (k : A -> H B) e t e' :
  m e = (Raises t, e') -> hbind m k e = (Raises t, e').
Proof. unfold hbind. by intros ->. Qed.

Lemma lift_ok {A} (a : A) : lift (Ok a) = hret a.
Proof. reflexivity. Qed.

(** A text of digits reads back as the number it was made from. *)
Definition value_of (l : bytes) : Z := fold_left (fun n b => n * 10 + (u8 b - 48)) l 0.

Lemma value_app k l n :
  fold_left (fun n b => n * 10 + (u8 b - 48)) (k ++ l) n =
  fold_left (fun n b => n * 10 + (u8 b - 48)) l (fold_left (fun n b => n * 10 + (u8 b - 48)) k n).
Proof. apply fold_left_app. Qed.

Lemma digits_value f : forall n acc, 0 <= n < 10 ^ Z.of_nat f -> (0 < f)%nat ->
  exists l, digits f n acc = l ++ acc /\ value_of l = n.
Proof.
  induction f as [|f IH]; intros n acc Hn Hf; [lia|]. cbn [digits].
  assert (Hm : forall m, 0 <= m < 10 -> u8 (chr (48 + m)) - 48 = m)
    by (intros m Hm; rewrite u8_chr_small by lia; lia).
  pose proof (Z.mod_pos_bound n 10 eq_refl) as Hb. destruct (Z.ltb_spec n 10).
  - exists [chr (48 + n mod 10)]. split; [done|]. unfold value_of. simpl.
    rewrite Hm by lia. rewrite Z.mod_small by lia. lia.
  - destruct f as [|f]; [simpl in Hn; lia|].
    destruct (IH (n / 10) (chr (48 + n mod 10) :: acc)) as (l & E & V); [|lia|].
    { rewrite Nat2Z.inj_succ, Z.pow_succ_r in Hn by lia.
      split; [apply Z.div_pos; lia|]. apply Z.div_lt_upper_bound; lia. }
    exists (l ++ [chr (48 + n mod 10)]). rewrite E. split; [by rewrite <- app_assoc|].
    unfold value_of in *. rewrite value_app, V. simpl. rewrite Hm by lia.
    pose proof (Z.div_mod n 10 ltac:(lia)). lia.
Qed.

Lemma decimal_value n : 0 <= n < 10 ^ 20 -> value_of (decimal n) = n.
Proof.
  intros Hn. unfold decimal. destruct (Z.ltb_spec n 0); [lia|].
  destruct (digits_value 20 n []) as (l & -> & <-); [exact Hn|lia|]. by rewrite app_nil_r.
Qed.

Lemma decimal_inj m n : 0 <= m < 10 ^ 20 -> 0 <= n < 10 ^ 20 -> decimal m = decimal n -> m = n.
Proof. intros Hm Hn E. rewrite <- (decimal_value m), <- (decimal_value n) by done. by rewrite E. Qed.
