(* ===== verification/Text.v ===== *)
(** * Objects as text

    Models [operator<<(std::ostream&, object const&)] of v1/object.hpp over a stream with
    the state the operator can see or change: the base of integers, the width (reset by
    every formatted output) and the fill character. [double_text] is what the stream makes
    of a double. For objects that JSON can express, the text is read back by [read], a
    reader written from the JSON grammar. *)

From S2P Require Import Prelude FloatBits MsgObject Adaptors Handler.

(** ** Streams *)

Record ostream := {
  out : bytes;
  hex : bool;                    (* std::hex, or std::dec *)
  width : Z;
  fill : byte;
}.

Definition set_hex (b : bool) (s : ostream) : ostream :=
  {| out := out s; hex := b; width := width s; fill := fill s |}.
Definition setw (n : Z) (s : ostream) : ostream :=
  {| out := out s; hex := hex s; width := n; fill := fill s |}.
Definition setfill (c : byte) (s : ostream) : ostream :=
  {| out := out s; hex := hex s; width := width s; fill := c |}.

(** Formatted output, adjusted to the right; and [write]. *)
Definition put (t : bytes) (s : ostream) : ostream :=
  {| out := out s ++ replicate (Z.to_nat (width s - len t)) (fill s) ++ t;
     hex := hex s; width := 0; fill := fill s |}.
Definition write (t : bytes) (s : ostream) : ostream :=
  {| out := out s ++ t; hex := hex s; width := width s; fill := fill s |}.

Fixpoint hex_digits (fuel : nat) (n : Z) (acc : bytes) : bytes :=
  match fuel with
  | O => acc
  | S f =>
    let acc := hex_digit (n mod 16) :: acc in
    if n <? 16 then acc else hex_digits f (n / 16) acc
  end.

(** Integers of at most 64 bits; in hexadecimal a negative one is its two's complement. *)
Definition put_integer (z : Z) (s : ostream) : ostream :=
  put (if hex s then hex_digits 16 (wrap 64 z) [] else decimal z) s.

(** ** [operator<<] *)

Definition put_char (c : byte) (s : ostream) : ostream :=
  match c with
  | Byte.x5c => put (str "\\") s
  | Byte.x22 => put [Byte.x5c; Byte.x22] s
  | Byte.x2f => put (str "\/") s
  | Byte.x08 => put (str "\b") s
  | Byte.x0c => put (str "\f") s
  | Byte.x0a => put (str "\n") s
  | Byte.x0d => put (str "\r") s
  | Byte.x09 => put (str "\t") s
  | _ =>
    let code := wrap 32 (i8 c) in
    if (code <? 0x20) || (code =? 0x7f) then
      let flags := hex s in
      set_hex flags
        (put_integer (Z.land code 0xff) (setfill Byte.x30 (setw 4 (set_hex true (put (str "\u") s)))))
    else put [c] s
  end.

Section Print.
Variable double_text : Z -> bytes.

Fixpoint print (o : object) (s : ostream) : ostream :=
  match o with
  | NIL => put (str "null") s
  | BOOLEAN b => put (str (if b then "true" else "false")) s
  | POSITIVE_INTEGER u64 => put_integer u64 s
  | NEGATIVE_INTEGER i64 => put_integer i64 s
  | FLOAT32 f64 | FLOAT64 f64 => put (double_text f64) s
  | STR t => put [Byte.x22] (fold_left (fun s c => put_char c s) t (put [Byte.x22] s))
  | BIN t => put [Byte.x22] (write t (put [Byte.x22] s))
  | EXT _ _ => put (str "EXT") s
  | ARRAY l =>
    let fix go l s := match l with [] => s | x :: l => go l (print x (put (str ", ") s)) end in
    put (str "]")
      (match l with [] => put (str "[") s | x :: l => go l (print x (put (str "[") s)) end)
  | MAP l =>
    let pair (kv : object * object) s := print kv.2 (put (str ":") (print kv.1 s)) in
    let fix go l s := match l with [] => s | kv :: l => go l (pair kv (put (str ", ") s)) end in
    put (str "}")
      (match l with [] => put (str "{") s | kv :: l => go l (pair kv (put (str "{") s)) end)
  end.

(** ** The text of an object *)

Definition is_control (c : byte) : bool := (u8 c <? 0x20) || (u8 c =? 0x7f).

(** The short escapes. *)
Definition short (c : byte) : option byte :=
  match c with
  | Byte.x5c => Some Byte.x5c | Byte.x22 => Some Byte.x22 | Byte.x2f => Some Byte.x2f
  | Byte.x08 => Some Byte.x62 | Byte.x0c => Some Byte.x66 | Byte.x0a => Some Byte.x6e
  | Byte.x0d => Some Byte.x72 | Byte.x09 => Some Byte.x74 | _ => None
  end.

Definition escape (c : byte) : bytes :=
  match short c with
  | Some e => [Byte.x5c; e]
  | None => if is_control c then str "\u" ++ hex04 (u8 c) else [c]
  end.

Definition quoted (t : bytes) : bytes := Byte.x22 :: concat (map escape t) ++ [Byte.x22].

(** The texts of the elements, with [", "] before all but the first. *)
Definition joined (ts : list bytes) : bytes :=
  match ts with [] => [] | t :: ts => t ++ concat (map (fun t => str ", " ++ t) ts) end.

Fixpoint render (o : object) : bytes :=
  match o with
  | NIL => str "null"
  | BOOLEAN b => str (if b then "true" else "false")
  | POSITIVE_INTEGER z | NEGATIVE_INTEGER z => decimal z
  | FLOAT32 z | FLOAT64 z => double_text z
  | STR t => quoted t
  | BIN t => Byte.x22 :: t ++ [Byte.x22]
  | EXT _ _ => str "EXT"
  | ARRAY l => str "[" ++ joined (map render l) ++ str "]"
  | MAP l => str "{" ++ joined (map (fun kv => render kv.1 ++ str ":" ++ render kv.2) l) ++ str "}"
  end.

(** A control character without a short escape was printed: the fill character is left
    changed. *)
Definition fills (c : byte) : bool :=
  match short c with Some _ => false | None => is_control c end.

Fixpoint leaves_fill (o : object) : bool :=
  match o with
  | STR t => existsb fills t
  | ARRAY l => existsb leaves_fill l
  | MAP l => existsb (fun kv => leaves_fill kv.1 || leaves_fill kv.2) l
  | _ => false
  end.

(** ** Reading it back *)

Definition hex_value (c : byte) : option Z :=
  let z := u8 c in
  if (48 <=? z) && (z <=? 57) then Some (z - 48)
  else if (97 <=? z) && (z <=? 102) then Some (z - 87) else None.

Definition long (e : byte) : byte :=
  match e with
  | Byte.x62 => Byte.x08 | Byte.x66 => Byte.x0c | Byte.x6e => Byte.x0a | Byte.x72 => Byte.x0d
  | Byte.x74 => Byte.x09 | e => e
  end.

(** The rest of a string literal. *)
Fixpoint read_string (d : bytes) : option (bytes * bytes) :=
  match d with
  | [] => None
  | Byte.x22 :: d => Some ([], d)
  | Byte.x5c :: Byte.x75 :: h3 :: h2 :: h1 :: h0 :: d =>
    a ← hex_value h3; b ← hex_value h2; c ← hex_value h1; e ← hex_value h0;
    '(s, d) ← read_string d;
    Some (chr (4096 * a + 256 * b + 16 * c + e) :: s, d)
  | Byte.x5c :: e :: d => '(s, d) ← read_string d; Some (long e :: s, d)
  | c :: d => '(s, d) ← read_string d; Some (c :: s, d)
  end.

Definition is_digit (c : byte) : bool := (48 <=? u8 c) && (u8 c <=? 57).

Fixpoint read_digits (n : Z) (d : bytes) : Z * bytes :=
  match d with
  | c :: r => if is_digit c then read_digits (10 * n + (u8 c - 48)) r else (n, d)
  | [] => (n, [])
  end.

Definition read_word (t : bytes) (o : object) (d : bytes) : option (object * bytes) :=
  if decide (take (length t) d = t) then Some (o, drop (length t) d) else None.

(** Elements up to the closing [last]; [one] reads one. *)
Fixpoint read_list {A} (one : bytes -> option (A * bytes)) (last : byte) (fuel : nat) (d : bytes)
    : option (list A * bytes) :=
  match fuel with
  | O => None
  | S f =>
    '(x, d) ← one d;
    match d with
    | [] => None
    | c :: d =>
      if decide (c = last) then Some ([x], d)
      else if decide (c = Byte.x2c) then
        '(l, d) ← read_list one last f (drop 1 d); Some (x :: l, d)
      else None
    end
  end.

Definition read_pair (one : bytes -> option (object * bytes)) (d : bytes)
    : option (object * object * bytes) :=
  '(k, d) ← one d;
  match d with
  | Byte.x3a :: d => '(v, d) ← one d; Some (k, v, d)
  | _ => None
  end.

Fixpoint read (fuel : nat) (d : bytes) : option (object * bytes) :=
  match fuel, d with
  | S f, Byte.x22 :: d => '(s, d) ← read_string d; Some (STR s, d)
  | S f, Byte.x5b :: Byte.x5d :: d => Some (ARRAY [], d)
  | S f, Byte.x5b :: d => '(l, d) ← read_list (read f) Byte.x5d f d; Some (ARRAY l, d)
  | S f, Byte.x7b :: Byte.x7d :: d => Some (MAP [], d)
  | S f, Byte.x7b :: d => '(l, d) ← read_list (read_pair (read f)) Byte.x7d f d; Some (MAP l, d)
  | S f, Byte.x2d :: d => let '(n, d) := read_digits 0 d in Some (NEGATIVE_INTEGER (- n), d)
  | S f, Byte.x6e :: _ => read_word (str "null") NIL d
  | S f, Byte.x74 :: _ => read_word (str "true") (BOOLEAN true) d
  | S f, Byte.x66 :: _ => read_word (str "false") (BOOLEAN false) d
  | S f, c :: _ =>
    if is_digit c then let '(n, d) := read_digits 0 d in Some (POSITIVE_INTEGER n, d) else None
  | _, _ => None
  end.

(** What JSON can express: no byte strings, extension types or doubles. *)
Fixpoint textual (o : object) : bool :=
  match o with
  | NIL | BOOLEAN _ | STR _ => true
  | POSITIVE_INTEGER z => (0 <=? z) && (z <? 2 ^ 64)
  | NEGATIVE_INTEGER z => (- 2 ^ 63 <=? z) && (z <? 0)
  | ARRAY l => forallb textual l
  | MAP l => forallb (fun kv => textual kv.1 && textual kv.2) l
  | _ => false
  end.

Definition no_digit (d : bytes) : Prop := match d with c :: _ => is_digit c = false | [] => True end.

End Print.

(** ** The text printed *)

Definition plain (s : ostream) : Prop := hex s = false /\ width s = 0.

(** [s] after the text [t]; [b] says that the fill character was changed. *)
Definition after (t : bytes) (b : bool) (s : ostream) : ostream :=
  {| out := out s ++ t; hex := false; width := 0; fill := if b then Byte.x30 else fill s |}.

Lemma after_plain t b s : plain (after t b s).
Proof. done. Qed.

Lemma after_after t t' b b' s : after t' b' (after t b s) = after (t ++ t') (b || b') s.
Proof. unfold after. simpl. by rewrite <- app_assoc; destruct b, b'. Qed.

Lemma put_plain t s : plain s -> put t s = after t false s.
Proof.
  intros [Hh Hw]. unfold put, after. rewrite Hw, Hh. pose proof (len_nonneg t).
  by replace (Z.to_nat (0 - len t)) with O by lia.
Qed.

Lemma put_integer_plain z s : plain s -> put_integer z s = after (decimal z) false s.
Proof. intros Hs. unfold put_integer. rewrite (proj1 Hs). by apply put_plain. Qed.

(** The four digits of a control character. *)
Definition code_of (c : byte) : Z := wrap 64 (Z.land (wrap 32 (i8 c)) 0xff).

Lemma put_char_cases c s : put_char c s =
  match short c with
  | Some e => put [Byte.x5c; e] s
  | None =>
    if is_control c then
      set_hex (hex s) (put (hex_digits 16 (code_of c) [])
        (setfill Byte.x30 (setw 4 (set_hex true (put (str "\u") s)))))
    else put [c] s
  end.
Proof. destruct c; reflexivity. Qed.

Lemma control_digits c : is_control c = true ->
  replicate (Z.to_nat (4 - len (hex_digits 16 (code_of c) []))) Byte.x30 ++ hex_digits 16 (code_of c) []
  = hex04 (u8 c).
Proof. destruct c; try discriminate; reflexivity. Qed.

Lemma put_char_plain c s : plain s -> put_char c s = after (escape c) (fills c) s.
Proof.
  intros Hs. rewrite put_char_cases. unfold escape, fills.
  destruct (short c); [by apply put_plain|]. destruct (is_control c) eqn:Ec; [|by apply put_plain].
  rewrite (put_plain (str "\u") s Hs). unfold after, put. cbn [out hex width fill setw setfill set_hex]. rewrite control_digits by done.
  by rewrite (proj1 Hs), <- app_assoc.
Qed.

Lemma put_chars_plain t : forall s, plain s ->
  fold_left (fun s c => put_char c s) t s = after (concat (map escape t)) (existsb fills t) s.
Proof.
  induction t as [|c t IH]; intros s Hs; simpl.
  - destruct s as [o h w f], Hs as [Hh Hw]. simpl in *. subst. unfold after. simpl.
    by rewrite app_nil_r.
  - rewrite put_char_plain, IH, after_after by done. done.
Qed.

Section Printed.
Variable double_text : Z -> bytes.
Abbreviation print := (print double_text).
Abbreviation render := (render double_text).

Lemma write_plain t s : plain s -> write t s = after t false s.
Proof. intros [Hh Hw]. unfold write, after. by rewrite Hh, Hw. Qed.

(** The elements after the first, printed by [p]. *)
Lemma go_plain {A} (p : A -> ostream -> ostream) (r : A -> bytes) (b : A -> bool) (go : list A -> ostream -> ostream) l :
  (forall s, go [] s = s) -> (forall x l s, go (x :: l) s = go l (p x (put (str ", ") s))) ->
  Forall (fun x => forall s, plain s -> p x s = after (r x) (b x) s) l ->
  forall s, plain s ->
  go l s = after (concat (map (fun t => str ", " ++ t) (map r l))) (existsb b l) s.
Proof.
  intros H0 H1 Hl. induction Hl as [|x l Hx Hl IH]; intros s Hs.
  - rewrite H0. destruct s as [o h w f], Hs as [Hh Hw]. simpl in *. subst. unfold after. simpl.
    by rewrite app_nil_r.
  - rewrite H1, put_plain, Hx, after_after, IH, after_after by done. simpl. done.
Qed.

Lemma joined_plain {A} (p : A -> ostream -> ostream) (r : A -> bytes) (b : A -> bool) (go : list A -> ostream -> ostream)
    (op cl : bytes) l :
  (forall s, go [] s = s) -> (forall x l s, go (x :: l) s = go l (p x (put (str ", ") s))) ->
  Forall (fun x => forall s, plain s -> p x s = after (r x) (b x) s) l ->
  forall s, plain s ->
  put cl (match l with [] => put op s | x :: l => go l (p x (put op s)) end) =
  after (op ++ joined (map r l) ++ cl) (existsb b l) s.
Proof.
  intros H0 H1 Hl s Hs. destruct Hl as [|x l Hx Hl].
  - rewrite (put_plain op) by done. rewrite put_plain, after_after by done. done.
  - rewrite (put_plain op), Hx, after_after by done.
    rewrite (go_plain p r b go l H0 H1 Hl), after_after by done.
    rewrite put_plain, after_after by done. simpl. rewrite <- !app_assoc, orb_false_r. done.
Qed.

Lemma print_after o : forall s, plain s -> print o s = after (render o) (leaves_fill o) s.
Proof.
  induction o as [| | | | | | t | t | l IH | l IH |] using object_ind'; intros s Hs.
  - by apply put_plain.
  - by apply put_plain.
  - by apply put_integer_plain.
  - by apply put_integer_plain.
  - by apply put_plain.
  - by apply put_plain.
  - cbn [Text.print]. rewrite (put_plain [Byte.x22] s), put_chars_plain, after_after by done.
    rewrite put_plain, after_after by done. simpl. by rewrite orb_false_r.
  - cbn [Text.print]. rewrite (put_plain [Byte.x22] s), write_plain, after_after by done.
    rewrite put_plain, after_after by done. done.
  - cbn [Text.print]. by apply (joined_plain print render leaves_fill).
  - cbn [Text.print].
    apply (joined_plain (fun kv s => print kv.2 (put (str ":") (print kv.1 s)))
      (fun kv => render kv.1 ++ str ":" ++ render kv.2) (fun kv => leaves_fill kv.1 || leaves_fill kv.2));
      [done|done| |done].
    eapply Forall_impl; [exact IH|]. intros [k v] [Hk Hv] s' Hs'. simpl in *.
    rewrite Hk, put_plain, after_after, Hv, after_after by done.
    by rewrite orb_false_r, <- app_assoc.
  - by apply put_plain.
Qed.

End Printed.

(** ** Reading the text *)

Lemma read_escape c d : read_string (escape c ++ d) = '(s, d) ← read_string d; Some (c :: s, d).
Proof. destruct c; cbn; destruct (read_string d) as [[? ?]|]; reflexivity. Qed.

Lemma read_quoted t d : read_string (concat (map escape t) ++ Byte.x22 :: d) = Some (t, d).
Proof.
  induction t as [|c t IH]; [done|]. simpl. rewrite <- app_assoc, read_escape, IH. done.
Qed.

Lemma digits_head fuel : forall n acc, exists c t, digits (S fuel) n acc = c :: t /\ is_digit c = true.
Proof.
  induction fuel as [|fuel IH]; intros n acc;
    assert (Hd : is_digit (chr (48 + n mod 10)) = true)
      by (pose proof (Z.mod_pos_bound n 10 eq_refl); unfold is_digit; rewrite u8_chr_small by lia; lia);
    cbn [digits]; destruct (n <? 10); eauto.
Qed.

Lemma read_one_digit m z d : 0 <= z < 10 ->
  read_digits m (chr (48 + z) :: d) = read_digits (10 * m + z) d.
Proof.
  intros Hz. cbn [read_digits]. unfold is_digit. rewrite u8_chr_small by lia.
  replace ((48 <=? 48 + z) && (48 + z <=? 57)) with true by (symmetry; lia).
  by replace (48 + z - 48) with z by lia.
Qed.

Lemma digits_S fuel n acc : digits (S fuel) n acc =
  if n <? 10 then chr (48 + n mod 10) :: acc else digits fuel (n / 10) (chr (48 + n mod 10) :: acc).
Proof. done. Qed.

Lemma read_all_digits fuel : forall n acc, 0 <= n < 10 ^ Z.of_nat (S fuel) ->
  exists k, forall m, read_digits m (digits (S fuel) n acc) = read_digits (m * 10 ^ k + n) acc.
Proof.
  induction fuel as [|fuel IH]; intros n acc Hn; pose proof (Z.mod_pos_bound n 10 eq_refl);
    rewrite digits_S; destruct (Z.ltb_spec n 10) as [Hlt|Hge].
  1, 3: exists 1; intros m; rewrite read_one_digit, Z.mod_small by lia; f_equal; lia.
  - change (10 ^ Z.of_nat 1) with 10 in Hn. lia.
  - assert (Hq : 0 <= n / 10 < 10 ^ Z.of_nat (S fuel)).
    { split; [apply Z.div_pos; lia|]. apply Z.div_lt_upper_bound; [lia|].
      rewrite Nat2Z.inj_succ, Z.pow_succ_r in Hn by lia. lia. }
    destruct (IH (n / 10) (chr (48 + n mod 10) :: acc) Hq) as (k & Hk).
    destruct (Z.le_gt_cases 0 k) as [Hk0|Hk0].
    + exists (k + 1). intros m. rewrite Hk, read_one_digit by lia. f_equal.
      rewrite Z.pow_add_r by lia. change (10 ^ 1) with 10. pose proof (Z.div_mod n 10). lia.
    + exists k. intros m. rewrite Hk, read_one_digit by lia. f_equal.
      rewrite Z.pow_neg_r by lia. pose proof (Z.div_mod n 10). lia.
Qed.

Lemma read_no_digit n d : no_digit d -> read_digits n d = (n, d).
Proof. destruct d as [|c d]; [done|]. simpl. by intros ->. Qed.

Lemma digits_app fuel : forall n acc d, digits fuel n (acc ++ d) = digits fuel n acc ++ d.
Proof. induction fuel as [|fuel IH]; intros n acc d; [done|]. cbn [digits]. destruct (n <? 10); [done|apply (IH _ (_ :: _))]. Qed.

Lemma read_decimal n d : 0 <= n < 2 ^ 64 -> no_digit d ->
  read_digits 0 (digits 20 n [] ++ d) = (n, d).
Proof.
  intros Hn Hd. rewrite <- digits_app. assert (2 ^ 64 < 10 ^ 20) by reflexivity.
  destruct (read_all_digits 19 n ([] ++ d)) as (k & ->); [change (Z.of_nat 20) with 20; lia|].
  by rewrite read_no_digit.
Qed.

(** *** The shape of [read] *)

Lemma read_number f c d : is_digit c = true ->
  read (S f) (c :: d) = let '(n, r) := read_digits 0 (c :: d) in Some (POSITIVE_INTEGER n, r).
Proof. destruct c; try discriminate; reflexivity. Qed.

Definition closing (d : bytes) : Prop :=
  match d with Byte.x5d :: _ | Byte.x7d :: _ => True | _ => False end.

Lemma read_array f d : ~ closing d -> 
  read (S f) (Byte.x5b :: d) = '(l, r) ← read_list (read f) Byte.x5d f d; Some (ARRAY l, r).
Proof. destruct d as [|c d]; [done|]. destruct c; try reflexivity. simpl. tauto. Qed.

Lemma read_map f d : ~ closing d ->
  read (S f) (Byte.x7b :: d) = '(l, r) ← read_list (read_pair (read f)) Byte.x7d f d; Some (MAP l, r).
Proof. destruct d as [|c d]; [done|]. destruct c; try reflexivity. simpl. tauto. Qed.

(** Elements that [one] reads are read as a list. *)
Lemma read_joined {A} (one : bytes -> option (A * bytes)) (r : A -> bytes) (last : byte) d :
  is_digit last = false -> last <> Byte.x2c -> forall l x fuel,
  Forall (fun x => forall d, no_digit d -> one (r x ++ d) = Some (x, d)) (x :: l) ->
  (length l < fuel)%nat ->
  read_list one last fuel (joined (map r (x :: l)) ++ last :: d) = Some (x :: l, d).
Proof.
  intros Hl Hc. induction l as [|y l IH]; intros x [|fuel] Hf Hlen; [lia| |simpl in Hlen; lia|];
    apply Forall_cons in Hf as [Hx Hf]; cbn [read_list].
  - simpl. rewrite app_nil_r, Hx by done. simpl. by rewrite decide_True.
  - change (joined (map r (x :: y :: l))) with (r x ++ str ", " ++ joined (map r (y :: l))).
    specialize (IH y fuel Hf ltac:(simpl in Hlen; lia)). rewrite <- !app_assoc, Hx by done.
    set (t := joined (map r (y :: l)) ++ last :: d) in *. simpl.
    rewrite decide_False by congruence. by rewrite drop_0, IH.
Qed.

Lemma joined_length (ts : list bytes) :
  Forall (fun t => (length t <= length (joined ts))%nat) ts /\ (length ts <= S (length (joined ts)))%nat.
Proof.
  destruct ts as [|t ts]; [split; [done|simpl; lia]|]. cbn [joined]. rewrite length_app.
  assert (H : Forall (fun u => (length u <= length (concat (map (fun t => str ", " ++ t) ts)))%nat) ts /\
    (length ts <= length (concat (map (fun t => str ", " ++ t) ts)))%nat).
  { induction ts as [|u ts [IH1 IH2]]; [done|]. cbn [map concat]. rewrite !length_app.
    change (length (str ", ")) with 2%nat. cbn [length].
    split; [|lia]. constructor; [lia|]. eapply Forall_impl; [exact IH1|]. cbv beta. lia. }
  destruct H as [H1 H2]. split; [|cbn [length]; lia]. constructor; [lia|].
  eapply Forall_impl; [exact H1|]. cbv beta. lia.
Qed.

Lemma digit_opens c d : is_digit c = true -> ~ closing (c :: d).
Proof. destruct c; try discriminate; intros _ []. Qed.

Lemma decimal_opens z d : ~ closing (decimal z ++ d).
Proof.
  unfold decimal. destruct (z <? 0); [by intros []|].
  destruct (digits_head 19 z []) as (c & t & -> & Hd). by apply (digit_opens c (t ++ d)).
Qed.

Lemma joined_opens t ts d : (forall d, ~ closing (t ++ d)) -> ~ closing (joined (t :: ts) ++ d).
Proof. intros H. cbn [joined]. rewrite <- app_assoc. apply H. Qed.

Section Roundtrip.
Variable double_text : Z -> bytes.
Abbreviation print := (print double_text).
Abbreviation render := (render double_text).

Lemma render_opens o d : textual o = true -> ~ closing (render o ++ d).
Proof.
  destruct o as [|b|z|z| | |t| |l|l|]; intros H; try discriminate; cbn [Text.render].
  - simpl. tauto.
  - destruct b; simpl; tauto.
  - apply decimal_opens.
  - apply decimal_opens.
  - simpl. tauto.
  - simpl. tauto.
  - simpl. tauto.
Qed.

(** [o] is read back by enough fuel. *)
Definition reads_back (o : object) : Prop := forall fuel d,
  (length (render o) <= fuel)%nat -> no_digit d -> read fuel (render o ++ d) = Some (o, d).

Lemma array_back l : Forall (fun o => textual o = true -> reads_back o) l ->
  textual (ARRAY l) = true -> reads_back (ARRAY l).
Proof.
  intros IH Ht [|fuel] d Hf Hd; [simpl in Hf; lia|]. destruct l as [|x l]; [done|].
  cbn [Text.render] in *. cbn [textual] in Ht. rewrite forallb_forall in Ht.
  assert (Hx : textual x = true) by (apply Ht; by left).
  pose proof (joined_length (map render (x :: l))) as [Hj1 Hj2].
  rewrite !length_app in Hf. simpl in Hf. rewrite length_map in Hj2. simpl in Hj2.
  rewrite <- !app_assoc. change (str "[" ++ ?t) with (Byte.x5b :: t).
  rewrite read_array by (apply joined_opens; intros; by apply render_opens).
  change (str "]" ++ d) with (Byte.x5d :: d).
  rewrite read_joined; [done|done|done| |simpl in *; lia].
  rewrite Forall_forall in IH. rewrite Forall_forall in Hj1. rewrite Forall_forall. intros y Hy d' Hd'.
  apply (IH y Hy); [apply Ht; by apply list_elem_of_In| |done].
  pose proof (Hj1 (render y) (list_elem_of_fmap_2 render _ _ Hy)). simpl in *. lia.
Qed.

Lemma map_back l : Forall (fun kv => (textual kv.1 = true -> reads_back kv.1) /\
    (textual kv.2 = true -> reads_back kv.2)) l ->
  textual (MAP l) = true -> reads_back (MAP l).
Proof.
  intros IH Ht [|fuel] d Hf Hd; [simpl in Hf; lia|]. destruct l as [|x l]; [done|].
  cbn [Text.render] in *. cbn [textual] in Ht. rewrite forallb_forall in Ht.
  assert (Hx : textual x.1 = true) by (specialize (Ht x (or_introl eq_refl)); by apply andb_prop in Ht as [? _]).
  set (r := fun kv : object * object => render kv.1 ++ str ":" ++ render kv.2) in *.
  pose proof (joined_length (map r (x :: l))) as [Hj1 Hj2].
  rewrite !length_app in Hf. simpl in Hf. rewrite length_map in Hj2. simpl in Hj2.
  rewrite <- !app_assoc. change (str "{" ++ ?t) with (Byte.x7b :: t).
  rewrite read_map by (apply joined_opens; intros; unfold r; rewrite <- app_assoc; by apply render_opens).
  change (str "}" ++ d) with (Byte.x7d :: d).
  rewrite read_joined; [done|done|done| |simpl in *; lia].
  rewrite Forall_forall in IH. rewrite Forall_forall in Hj1. rewrite Forall_forall. intros y Hy d' Hd'.
  pose proof (Hj1 (r y) (list_elem_of_fmap_2 r _ _ Hy)) as Hl. unfold r in Hl at 1.
  rewrite !length_app in Hl. simpl in Hl, Hf.
  specialize (Ht y ltac:(by apply list_elem_of_In)). apply andb_prop in Ht as [Hk Hv].
  destruct (IH y Hy) as [IHk IHv]. unfold read_pair, r. rewrite <- !app_assoc.
  rewrite IHk by (done || lia). simpl. rewrite IHv by (done || lia). by destruct y.
Qed.

Lemma render_back o : textual o = true -> reads_back o.
Proof.
  induction o as [|b|z|z| | |t| |l IH|l IH|] using object_ind'; intros Ht; try discriminate.
  - intros [|fuel] d Hf Hd; [simpl in Hf; lia|]. done.
  - intros [|fuel] d Hf Hd; [by destruct b; simpl in Hf; lia|]. by destruct b.
  - cbn [textual] in Ht. intros fuel d Hf Hd. cbn [Text.render] in *. unfold decimal in *.
    destruct (Z.ltb_spec z 0); [lia|]. destruct (digits_head 19 z []) as (c & t & Eq & Hc).
    destruct fuel as [|fuel]; [rewrite Eq in Hf; simpl in Hf; lia|].
    pose proof (read_decimal z d ltac:(lia) Hd) as Hr. rewrite Eq in *. simpl app in *.
    rewrite read_number by done. by rewrite Hr.
  - cbn [textual] in Ht. intros fuel d Hf Hd. cbn [Text.render] in *. unfold decimal in *.
    destruct (Z.ltb_spec z 0); [|lia].
    destruct fuel as [|fuel]; [cbn [length] in Hf; lia|].
    assert (2 ^ 63 < 2 ^ 64) by reflexivity.
    pose proof (read_decimal (- z) d ltac:(lia) Hd) as Hr.
    change ((chr 45 :: digits 20 (- z) []) ++ d) with (Byte.x2d :: (digits 20 (- z) [] ++ d)).
    cbn [read]. rewrite Hr. by rewrite Z.opp_involutive.
  - intros [|fuel] d Hf Hd; [simpl in Hf; lia|]. cbn [Text.render]. unfold quoted. simpl.
    rewrite <- app_assoc. simpl. by rewrite read_quoted.
  - by apply array_back.
  - by apply map_back.
Qed.


End Roundtrip.


(** *** What the text does not tell *)

(** Byte strings are not escaped: an array of two prints as an array of one. *)
Example bin_not_escaped double_text :
  render double_text (ARRAY [BIN (str "a"); BIN (str "b")]) =
  render double_text (ARRAY [BIN ([chr 97; chr 34] ++ str ", " ++ [chr 34; chr 98])]).
Proof. reflexivity. Qed.

(** The fill character left behind pads what is printed next. *)
Example fill_left_behind double_text :
  out (put (str "7") (setw 3 (print double_text (STR [chr 1])
    {| out := []; hex := false; width := 0; fill := chr 32 |}))) =
  quoted [chr 1] ++ str "007".
Proof. reflexivity. Qed.
