(* ===== verification/Response.v ===== *)
(** * Responses

    Models [response] (detail/response.h, detail/response.cc): the four ways one is
    made, what is captured into it after the handler, and its bytes. A
    [shared_ptr<object_handle>] is an option; dereferencing a null one and
    reading an object whose zone is gone are [Undefined]. *)

From S2P Require Import Prelude FloatBits MsgObject Pack Adaptors Handler.

#[local] Open Scope handler_scope.

Record response := {
  r_id : Z;
  r_error : option handle;
  r_result : option handle;
  r_empty : bool;
}.

Definition new_response : response := {| r_id := 0; r_error := None; r_result := None; r_empty := false |}.

Definition empty : response := {| r_id := 0; r_error := None; r_result := None; r_empty := true |}.

(** [make_result], on a value and on the handle of a bound function. *)
Definition make_result {T} `{Adaptor T} (id : Z) (result : T) : H response :=
  do! h := pack_handle result in
  hret {| r_id := id; r_error := None; r_result := Some h; r_empty := false |}.

Definition make_result_handle (id : Z) (r : handle) : response :=
  {| r_id := id; r_error := None; r_result := Some r; r_empty := false |}.

Definition make_error {T} `{Adaptor T} (id : Z) (error : T) : H response :=
  do! h := pack_handle error in
  hret {| r_id := id; r_error := Some h; r_result := None; r_empty := false |}.

(** [response_type]: the tuple on the wire. *)
Definition response_type : Type :=
  tuple (cint C_unsigned_int * (cint C_unsigned_int * (object * (object * unit)))).

(** The constructor from a received message: the error is cloned, the result keeps the
    message's zone. *)
Definition response_of (o : handle) : H response :=
  do! r := lift (as_ response_type (h_obj o)) in
  let '(Tuple (_, (id, (error_obj, (result, _))))) := r in
  do! error := (if is_nil error_obj then hret None
                else do! h := pack_handle error_obj in hret (Some h)) in
  hret {| r_id := id; r_error := error;
          r_result := Some {| h_obj := result; h_in := h_in o; h_own := h_own o |};
          r_empty := false |}.

(** The object of a handle, for reading. *)
Definition read (h : handle) : H object :=
  do! e := hget in
  if readable (heap e) h then hret (h_obj h) else undefined.

Definition get_data (r : response) : H bytes :=
  do! error := match r_error r with Some h => read h | None => hret NIL end in
  do! result := match r_result r with Some h => read h | None => hret NIL end in
  let t : response_type := Tuple (1, (r_id r, (error, (result, tt)))) in
  lift (pack t []).

(** The object is copied shallowly and the zone stays where it was. *)
Definition capture_result (h : handle) (r : response) : H response :=
  let result := default nil_handle (r_result r) in
  hret {| r_id := r_id r; r_error := r_error r;
          r_result := Some (set_object result (h_obj h) (h_in h)); r_empty := r_empty r |}.

(** [error_ = std::shared_ptr<object_handle>()] leaves it null. *)
Definition capture_error (h : handle) (r : response) : H response :=
  match r_error r with
  | None => undefined
  | Some error =>
    hret {| r_id := r_id r; r_error := Some (set_object error (h_obj h) (h_in h));
            r_result := r_result r; r_empty := r_empty r |}
  end.

(** ** The message a response is *)

Definition response_object (id : Z) (error result : object) : object :=
  ARRAY [POSITIVE_INTEGER 1; POSITIVE_INTEGER id; error; result].

Definition held (h : option handle) : object := match h with Some h => h_obj h | None => NIL end.

Lemma pack_uint32 v b : 0 <= v < 2 ^ 32 ->
  pack_integer C_unsigned_int v b = pack_object (POSITIVE_INTEGER v) b.
Proof.
  intros Hv. unfold pack_integer, pack_unsigned_int, pack_unsigned, dispatch. simpl.
  unfold pack_imp_uint32, pack_uint64, pack_imp_uint64. split_cmp; done.
Qed.

Lemma pack_response id error result : 0 <= id < 2 ^ 32 ->
  pack (Tuple (1, (id, (error, (result, tt)))) : response_type) [] =
    Ok (encode (response_object id error result)).
Proof.
  intros Hid. cbn -[pack_object pack_integer].
  change (checked_get_container_size _) with (@Ok adaptor_exn Z 4). cbn -[pack_object pack_integer].
  rewrite !pack_uint32 by lia.
  unfold encode, response_object. by rewrite pack_object_ARRAY.
Qed.

(** Is everything the response needs still in memory? *)
Definition intact (z : zones) (r : response) : bool :=
  match r_error r with Some h => readable z h | None => true end &&
  match r_result r with Some h => readable z h | None => true end.

Lemma get_data_ok r e : 0 <= r_id r < 2 ^ 32 -> intact (heap e) r = true ->
  get_data r e = (Returns (encode (response_object (r_id r) (held (r_error r)) (held (r_result r)))), e).
Proof.
  intros Hid [He Hr]%andb_true_iff. unfold get_data.
  assert (R : forall h : option handle,
    match h with Some h => readable (heap e) h | None => true end = true ->
    match h with Some h => read h | None => hret NIL end e = (Returns (held h), e)).
  { intros [h|] Hh; [|done]. unfold read, hbind, hget. by rewrite Hh. }
  rewrite (hbind_returns _ _ _ _ _ (R _ He)), (hbind_returns _ _ _ _ _ (R _ Hr)).
  by rewrite pack_response.
Qed.

Lemma get_data_undefined r e : intact (heap e) r = false -> fst (get_data r e) = Undefined.
Proof.
  intros Hi. unfold get_data, hbind, intact in *.
  destruct (r_error r) as [h|]; unfold read, hbind, hget;
    [destruct (readable (heap e) h); [|done]|]; simpl in *;
    (destruct (r_result r) as [g|]; [|done]; destruct (readable (heap e) g); done).
Qed.

(** ** Reading one back *)

Lemma convert_uint32 v : 0 <= v < 2 ^ 32 -> convert_integer C_unsigned_int (POSITIVE_INTEGER v) = Ok v.
Proof.
  intros Hv. unfold convert_integer, convert_integer_unsigned. simpl.
  change (int_max C_unsigned_int) with 4294967295. destruct (Z.ltb_spec 4294967295 v); [lia|].
  unfold cast. simpl. by rewrite wrap_small.
Qed.

Lemma as_response id error result : 0 <= id < 2 ^ 32 ->
  as_ response_type (response_object id error result) = Ok (Tuple (1, (id, (error, (result, tt))))).
Proof.
  intros Hid. unfold as_, response_object. cbn -[convert_integer].
  rewrite convert_uint32 by lia. cbn -[convert_integer]. by rewrite convert_uint32.
Qed.

Lemma response_of_object id error result at_ e :
  0 <= id < 2 ^ 32 ->
  exists r e', response_of {| h_obj := response_object id error result; h_in := at_; h_own := at_ |} e
                 = (Returns r, e') /\
    r_id r = id /\ r_empty r = false /\
    r_result r = Some {| h_obj := result; h_in := at_; h_own := at_ |} /\
    match r_error r with Some h => error <> NIL /\ h_obj h = error | None => error = NIL end.
Proof.
  intros Hid. unfold response_of. simpl h_obj. rewrite as_response, lift_ok by done.
  unfold hbind at 1, hret at 1. destruct error; simpl; eexists _, _; (split; [reflexivity|]);
    simpl; split_and!; done.
Qed.

(** A response that was sent is read as the same response: the id, the error
    (present exactly when it is not nil) and the result. *)
Theorem response_roundtrip id error result at_ e :
  0 <= id < 2 ^ 32 ->
  exists r e', response_of {| h_obj := response_object id error result; h_in := at_; h_own := at_ |} e
                 = (Returns r, e') /\
    r_id r = id /\ held (r_error r) = error /\ (r_error r = None <-> error = NIL) /\
    held (r_result r) = result /\ r_empty r = false.
Proof.
  intros Hid. destruct (response_of_object id error result at_ e Hid) as (r & e' & E & H1 & H2 & H3 & H4).
  exists r, e'. rewrite H3. split_and!; try done; destruct (r_error r) as [h|]; naive_solver.
Qed.

Lemma response_roundtrip_witness :
  exists r e', response_of {| h_obj := response_object 7 (STR (str "no")) (BOOLEAN true);
      h_in := Some 3; h_own := Some 3 |} {| loc := new_locals; heap := no_zones; console := [] |}
      = (Returns r, e') /\
    r_id r = 7 /\ held (r_error r) = STR (str "no") /\ (r_error r = None <-> STR (str "no") = NIL) /\
    held (r_result r) = BOOLEAN true /\ r_empty r = false.
Proof. apply response_roundtrip. lia. Defined.

(** Capturing an error into a response that has none dereferences a null
    pointer; into one that has, it replaces the error and keeps the rest. *)
Lemma capture_error_needs_one h r e :
  capture_error h r e =
    match r_error r with
    | None => (Undefined, e)
    | Some old =>
      (Returns {| r_id := r_id r;
                  r_error := Some {| h_obj := h_obj h; h_in := h_in h; h_own := h_own old |};
                  r_result := r_result r; r_empty := r_empty r |}, e)
    end.
Proof. unfold capture_error. by destruct (r_error r). Qed.
