(* ===== verification/Dispatcher.v ===== *)
(** * The dispatcher

    Models [dispatcher] (dispatcher.h, dispatcher.inl, lib/rpc/dispatcher.cc): the
    registry of functors, the four kinds of adaptor that [bind] makes, and the
    dispatch of calls and notifications with every exception they catch.

    The code reads [via.array.size] without looking at the type; on an object that is
    not an array this is the low half of what the union holds ([via_array_size]),
    where [unset] is what nil and bool leave there. *)

From S2P Require Import Prelude FloatBits MsgObject Pack Visitor Adaptors Handler Response.

#[local] Open Scope handler_scope.

#[export] Program Instance byte_countable : Countable byte :=
  inj_countable Byte.to_N Byte.of_N _.
Next Obligation. intros b. apply Byte.of_to_N. Qed.

(** ** Functors: [func_kind_info]'s four cases, by result and arguments *)

Inductive functor : Type :=
| VoidZero (f : H unit)
| VoidArgs (A : Type) (HA : TupleElems A) (f : A -> H unit)
| ResultZero (R : Type) (HR : Adaptor R) (f : H R)
| ResultArgs (A R : Type) (HA : TupleElems A) (HR : Adaptor R) (f : A -> H R).

Definition functor_arity (F : functor) : Z :=
  match F with
  | VoidZero _ | ResultZero _ _ _ => 0
  | VoidArgs A HA _ | ResultArgs A _ HA _ _ => arity (T := A)
  end.

(** [adaptor_type] and [funcs_]. *)
Abbreviation adaptor_type := (object -> H handle).
Abbreviation dispatcher := (gmap bytes adaptor_type).

(** [what()] of the exceptions of [unpack]. *)
Definition unpack_what (e : unpack_exn) : bytes :=
  match e with
  | parse_error_exn => str "parse error"
  | insufficient_bytes_exn => str "insufficient bytes"
  | array_size_overflow => str "array size overflow"
  | map_size_overflow => str "map size overflow"
  | str_size_overflow => str "str size overflow"
  | bin_size_overflow => str "bin size overflow"
  | ext_size_overflow => str "ext size overflow"
  | depth_size_overflow => str "depth size overflow"
  | invalid_access => []
  end.

Section Dispatcher.
Variable unset : object -> Z.

Definition via_array_size (o : object) : Z :=
  wrap 32 match o with
  | NIL => unset o
  | BOOLEAN b => Z.shiftl (unset o) 8 + (if b then 1 else 0)
  | POSITIVE_INTEGER z | NEGATIVE_INTEGER z | FLOAT32 z | FLOAT64 z => z
  | STR s | BIN s | EXT _ s => len s
  | ARRAY l => len l
  | MAP l => len l
  end.

(** ** Binding *)

(** Of the two numbers the functors pass the second is the caller's. *)
Definition enforce_arg_count (func : bytes) (found expected : Z) : H unit :=
  if found =? expected then hret tt
  else raise (client_error (client_error_what wrong_arity
    (str "Function '" ++ func ++ str "' was called with an invalid number of arguments. Expected: "
     ++ decimal expected ++ str ", got: " ++ decimal found))).

(** The lambda stored for a functor. *)
Definition adaptor (name : bytes) (F : functor) : adaptor_type := fun args =>
  match F with
  | VoidZero func =>
    do! _ := enforce_arg_count name 0 (via_array_size args) in
    do! _ := func in
    hret nil_handle
  | VoidArgs A HA func =>
    do! _ := enforce_arg_count name (arity (T := A)) (via_array_size args) in
    do! t := lift (as_ (tuple A) args) in
    let '(Tuple args_real) := t in
    do! _ := func args_real in
    hret nil_handle
  | ResultZero R HR func =>
    do! _ := enforce_arg_count name 0 (via_array_size args) in
    do! r := func in
    pack_handle r
  | ResultArgs A R HA HR func =>
    do! _ := enforce_arg_count name (arity (T := A)) (via_array_size args) in
    do! t := lift (as_ (tuple A) args) in
    let '(Tuple args_real) := t in
    do! r := func args_real in
    pack_handle r
  end.

(** [std::logic_error], with its text. *)
Definition enforce_unique_name (d : dispatcher) (func : bytes) : res bytes unit :=
  match d !! func with
  | Some _ => Throw (str "Function name already bound: '" ++ func ++
                     str "'. Please use unique function names")
  | None => Ok tt
  end.

Definition bind_kind (d : dispatcher) (name : bytes) (F : functor) : res bytes dispatcher :=
  (let? _ := enforce_unique_name d name in Ok (<[name := adaptor name F]> d))%res.

Definition bind (d : dispatcher) (name : bytes) (F : functor) : res bytes dispatcher :=
  (let? _ := enforce_unique_name d name in bind_kind d name F)%res.

Definition unbind (d : dispatcher) (name : bytes) : dispatcher := delete name d.

(** The order in which [unordered_map] lists its keys is not specified. *)
Definition names (d : dispatcher) : gset bytes := dom d.

(** ** Dispatch *)

Definition call_t : Type := tuple (cint C_signed_char * (cint C_unsigned_int * (bytes * (object * unit)))).
Definition notification_t : Type := tuple (cint C_signed_char * (bytes * (object * unit))).

Definition not_found_text (name : bytes) (args : object) : bytes :=
  str "rpclib: server could not find function '" ++ name ++ str "' with argument count " ++
  decimal (via_array_size args) ++ str ".".
Definition std_exception_text (name : bytes) (args : object) (what : bytes) : bytes :=
  str "rpclib: function '" ++ name ++ str "' (called with " ++ decimal (via_array_size args) ++
  str " arg(s)) threw an exception. The exception contained this information: " ++ what ++ str ".".
Definition not_std_text (name : bytes) (args : object) : bytes :=
  str "rpclib: function '" ++ name ++ str "' (called with " ++ decimal (via_array_size args) ++
  str " arg(s)) threw an exception. The exception is not derived from std::exception. No further information available.".

Definition dispatch_call (d : dispatcher) (msg : object) (suppress_exceptions : bool) : H response :=
  do! t := lift (as_ call_t msg) in
  let '(Tuple (_, (id, (name, (args, _))))) := t in
  match d !! name with
  | Some func =>
    try_catch (do! result := func args in hret (make_result_handle id result))
      (fun t => match t with
       | client_error what => make_error id (str "rpclib: " ++ what)
       | std_exception what =>
         if suppress_exceptions then make_error id (std_exception_text name args what) else raise t
       | handler_error | handler_spec_response => make_error id (not_found_text name args)
       | not_std =>
         if suppress_exceptions then make_error id (not_std_text name args) else raise t
       end)
  | None => make_error id (not_found_text name args)
  end.

Definition dispatch_notification (d : dispatcher) (msg : object) (suppress_exceptions : bool)
    : H response :=
  do! t := lift (as_ notification_t msg) in
  let '(Tuple (_, (name, (args, _)))) := t in
  match d !! name with
  | Some func =>
    try_catch (do! _ := func args in hret empty)
      (fun t => match t with
       | handler_error | handler_spec_response => hret empty
       | _ => if suppress_exceptions then hret empty else raise t
       end)
  | None => hret empty
  end.

Definition dispatch (d : dispatcher) (msg : object) (suppress_exceptions : bool) : H response :=
  let n := via_array_size msg in
  if n =? 3 then dispatch_notification d msg suppress_exceptions
  else if n =? 4 then dispatch_call d msg suppress_exceptions
  else hret empty.

(** [dispatch] on a buffer: its first object, and the response is dropped. Reading
    takes [fuel] for the object's nesting; an exception of [unpack] is not
    caught. *)
Definition dispatch_buffer (fuel : nat) (d : dispatcher) (msg : bytes) : H unit :=
  match unpack fuel msg 0 None default_limit with
  | Some (Ok (Some o, _, _)) => do! _ := dispatch d o false in hret tt
  | Some (Throw invalid_access) | Some (Ok (None, _, _)) | None => undefined
  | Some (Throw e) => raise (std_exception (unpack_what e))
  end.

End Dispatcher.
