(* ===== verification/DispatcherSpec.v ===== *)
(** * What the dispatcher promises

    A call of a bound function with the arguments it takes is answered with its
    result; every other call is answered with an error or ends in an
    exception, as the code decides; a notification is never answered. *)

From S2P Require Import Prelude FloatBits MsgObject Pack Adaptors Roundtrip AdaptorLaws.
From S2P Require Import Handler Response Dispatcher.

#[local] Open Scope handler_scope.

(** ** Messages *)

(** What [async_call] and [send] put on the wire. *)
Definition call_object (id : Z) (name : bytes) (args : object) : object :=
  ARRAY [POSITIVE_INTEGER 0; POSITIVE_INTEGER id; STR name; args].
Definition notification_object (name : bytes) (args : object) : object :=
  ARRAY [POSITIVE_INTEGER 2; STR name; args].

(** The message the code takes for a call: four elements, of which the type byte,
    the id and the name convert. The type byte is not looked at. *)
Definition is_call (msg : object) (id : Z) (name : bytes) (args : object) : Prop :=
  exists ty tail, msg = ARRAY tail /\ length tail = 4%nat /\
    as_ call_t msg = Ok (Tuple (ty, (id, (name, (args, tt))))).

Lemma call_object_is_call id name args :
  0 <= id < 2 ^ 32 -> is_call (call_object id name args) id name args.
Proof.
  intros Hid. eexists 0, _. split; [reflexivity|]. split; [done|].
  unfold as_. cbn -[convert_integer]. change (convert_integer C_signed_char _) with (@Ok adaptor_exn Z 0).
  cbn -[convert_integer]. by rewrite convert_uint32.
Qed.

(** ** What a functor computes on argument objects *)

Inductive computes : functor -> list object -> env -> object -> env -> Prop :=
| computes_VoidZero f e e' : f e = (Returns tt, e') -> computes (VoidZero f) [] e NIL e'
| computes_VoidArgs A HA (HL : @ElemsLaws A HA) f v os e e' :
    valid_elems v -> object_elems v = Ok os -> arity (T := A) < 2 ^ 32 ->
    f v e = (Returns tt, e') -> computes (VoidArgs A HA f) os e NIL e'
| computes_ResultZero R HR f r o e e' :
    f e = (Returns r, e') -> to_object r = Ok o -> computes (ResultZero R HR f) [] e o e'
| computes_ResultArgs A R HA HR (HL : @ElemsLaws A HA) f v os r o e e' :
    valid_elems v -> object_elems v = Ok os -> arity (T := A) < 2 ^ 32 ->
    f v e = (Returns r, e') -> to_object r = Ok o -> computes (ResultArgs A R HA HR f) os e o e'.

(** [e'] is [e] with at most one more zone. *)
Definition grows (e e' : env) : Prop :=
  loc e' = loc e /\ console e' = console e /\
  (heap e' = heap e \/ heap e' = snd (new_zone (heap e))).

Lemma grows_refl e : grows e e.
Proof. unfold grows. auto. Qed.

Lemma pack_handle_ok {T} `{Adaptor T} (v : T) o e :
  to_object v = Ok o ->
  pack_handle v e = (Returns {| h_obj := o; h_in := Some (next_zone (heap e)); h_own := Some (next_zone (heap e)) |},
                     set_heap (snd (new_zone (heap e))) e).
Proof. unfold pack_handle. by intros ->. Qed.

Lemma new_zone_grows e : grows e (set_heap (snd (new_zone (heap e))) e).
Proof. unfold grows. simpl. auto. Qed.

(** A handle that can be read. *)
Definition holds (e : env) (h : handle) (o : object) : Prop :=
  h_obj h = o /\ readable (heap e) h = true.

Lemma pack_handle_holds {T} `{Adaptor T} (v : T) o e :
  to_object v = Ok o -> exists h e', pack_handle v e = (Returns h, e') /\ holds e' h o /\ grows e e'.
Proof.
  intros Ho. rewrite (pack_handle_ok v o e Ho). eexists _, _. split; [done|].
  split; [|apply new_zone_grows]. split; [done|]. unfold readable, is_live. simpl.
  apply orb_true_iff. right. apply bool_decide_eq_true. set_solver.
Qed.

Lemma pack_text s e : len s < 2 ^ 32 ->
  exists h e', pack_handle s e = (Returns h, e') /\ holds e' h (STR s) /\ grows e e'.
Proof.
  intros Hs. apply pack_handle_holds. simpl. pose proof (len_nonneg s). by rewrite checked_ok by lia.
Qed.

Lemma make_error_ok id s e : len s < 2 ^ 32 ->
  exists h e', make_error id s e =
    (Returns {| r_id := id; r_error := Some h; r_result := None; r_empty := false |}, e') /\
    holds e' h (STR s) /\ grows e e'.
Proof.
  intros Hs. destruct (pack_text s e Hs) as (h & e' & E & Hh & Hg). exists h, e'.
  unfold make_error. by rewrite (hbind_returns _ _ _ _ _ E).
Qed.

Section Spec.
Variable unset : object -> Z.

Lemma via_array_size_ARRAY l : len l < 2 ^ 32 -> via_array_size unset (ARRAY l) = len l.
Proof. intros. apply wrap_small. pose proof (len_nonneg l). lia. Qed.

Lemma enforce_ok func n : enforce_arg_count func n n = hret tt.
Proof. unfold enforce_arg_count. by rewrite Z.eqb_refl. Qed.

Lemma as_args {A} {HA : TupleElems A} (HL : @ElemsLaws A HA) (v : A) os :
  valid_elems v -> object_elems v = Ok os ->
  as_ (tuple A) (ARRAY os) = Ok (Tuple v) /\ len os = arity (T := A).
Proof.
  intros Hv Ho. destruct (elems_laws v Hv) as (os' & E & El & Ec & _). rewrite E in Ho.
  injection Ho as ->. split; [|done]. unfold as_. simpl. by rewrite Ec.
Qed.

(** The stored lambda does what its functor does. *)
Lemma adaptor_computes name F os e o e' :
  computes F os e o e' ->
  exists h e'', adaptor unset name F (ARRAY os) e = (Returns h, e'') /\ holds e'' h o /\ grows e' e''.
Proof.
  intros C. destruct C as [f e e' E|A HA HL f v os e e' Hv Ho Ha E|R HR f r o e e' E Ho
                          |A R HA HR HL f v os r o e e' Hv Ho Ha E Hr]; cbn [adaptor].
  - rewrite via_array_size_ARRAY, enforce_ok by done. unfold hbind, hret. rewrite E.
    eexists _, _. split; [done|]. split; [done|apply grows_refl].
  - destruct (as_args HL v os Hv Ho) as [Has Hl].
    rewrite via_array_size_ARRAY, Hl, enforce_ok, Has by lia. unfold hbind, hret, lift.
    unfold hret. rewrite E. eexists _, _. split; [done|]. split; [done|apply grows_refl].
  - rewrite via_array_size_ARRAY, enforce_ok by done. unfold hbind, hret. rewrite E.
    by apply pack_handle_holds.
  - destruct (as_args HL v os Hv Ho) as [Has Hl].
    rewrite via_array_size_ARRAY, Hl, enforce_ok, Has by lia. unfold hbind, hret, lift.
    unfold hret. rewrite E. by apply pack_handle_holds.
Qed.

Lemma bind_lookup d0 d name F :
  bind unset d0 name F = Ok d -> d !! name = Some (adaptor unset name F).
Proof.
  unfold bind, bind_kind. destruct (enforce_unique_name d0 name); [|done].
  simpl. intros [= <-]. apply lookup_insert_eq.
Qed.

(** A call goes to [dispatch_call] with its parts. *)
Lemma dispatch_is_call d msg id name args ss e :
  is_call msg id name args ->
  dispatch unset d msg ss e =
    match d !! name with
    | Some func =>
      try_catch (do! result := func args in hret (make_result_handle id result))
        (fun t => match t with
         | client_error what => make_error id (str "rpclib: " ++ what)
         | std_exception what =>
           if ss then make_error id (std_exception_text unset name args what) else raise t
         | handler_error | handler_spec_response => make_error id (not_found_text unset name args)
         | not_std => if ss then make_error id (not_std_text unset name args) else raise t
         end) e
    | None => make_error id (not_found_text unset name args) e
    end.
Proof.
  intros (ty & l & -> & Hl & Has). unfold dispatch.
  assert (Hn : len l = 4) by (unfold len; lia).
  rewrite via_array_size_ARRAY, Hn by lia. cbv beta zeta iota. simpl (4 =? 3). simpl (4 =? 4). cbv iota.
  unfold dispatch_call. rewrite Has. unfold lift, hbind at 1, hret at 1. by destruct (d !! name).
Qed.

(** C33. A call of a bound function, with the arguments it takes, is answered
    with its result: the response carries the call's id, no error, and the object
    of the value the function returned (nil for a void function), still in
    memory; of the environment only the function's own effects and the
    result's zone remain. *)
Theorem call_returns_result d0 d msg id name F os ss e o e' :
  bind unset d0 name F = Ok d -> is_call msg id name (ARRAY os) -> computes F os e o e' ->
  exists h e'', dispatch unset d msg ss e = (Returns (make_result_handle id h), e'') /\
    holds e'' h o /\ grows e' e''.
Proof.
  intros Hb%bind_lookup Hc Hf.
  destruct (adaptor_computes name F os e o e' Hf) as (h & e'' & E & Hh & Hg).
  exists h, e''. rewrite (dispatch_is_call _ _ _ _ _ _ _ Hc), Hb.
  unfold try_catch. by rewrite (hbind_returns _ _ _ _ _ E).
Qed.

Definition wrong_arity_text (name : bytes) (expected got : Z) : bytes :=
  str "rpclib: client error C0002: Function '" ++ name ++
  str "' was called with an invalid number of arguments. Expected: " ++ decimal expected ++
  str ", got: " ++ decimal got.

(** A call with the wrong number of arguments does not run the function and
    is answered with an error; but the error says the numbers the wrong way
    round: it claims that the number given was expected, and that the number
    the function takes was got. *)
Theorem wrong_arity_reported_swapped d0 d msg id name F args ss e :
  bind unset d0 name F = Ok d -> is_call msg id name args ->
  via_array_size unset args <> functor_arity F ->
  len (wrong_arity_text name (via_array_size unset args) (functor_arity F)) < 2 ^ 32 ->
  exists h e', dispatch unset d msg ss e =
      (Returns {| r_id := id; r_error := Some h; r_result := None; r_empty := false |}, e') /\
    holds e' h (STR (wrong_arity_text name (via_array_size unset args) (functor_arity F))) /\
    grows e e'.
Proof.
  intros Hb%bind_lookup Hc Hn Hs.
  rewrite (dispatch_is_call _ _ _ _ _ _ _ Hc), Hb.
  assert (E : adaptor unset name F args e =
    (Raises (client_error (client_error_what wrong_arity (str "Function '" ++ name ++
     str "' was called with an invalid number of arguments. Expected: "
     ++ decimal (via_array_size unset args) ++ str ", got: " ++ decimal (functor_arity F)))), e)).
  { unfold adaptor, enforce_arg_count. destruct F; simpl functor_arity in *;
      
      (rewrite (proj2 (Z.eqb_neq _ _) (not_eq_sym Hn))); done. }
  unfold try_catch. rewrite (hbind_raises _ _ _ _ _ E).
  by apply (make_error_ok id (wrong_arity_text name (via_array_size unset args) (functor_arity F))).
Qed.

(** C35. A notification is never answered, whatever the function does or the
    message holds, and whether it is bound or not. *)
Theorem notification_never_answered d msg ss e r e' :
  via_array_size unset msg = 3 -> dispatch unset d msg ss e = (Returns r, e') -> r = empty.
Proof.
  unfold dispatch. intros ->. simpl. unfold dispatch_notification, hbind at 1.
  destruct (lift (as_ notification_t msg) e) as [[t|t|] e1]; [|done..].
  destruct t as [(ty & name & args & u)]. destruct (d !! name) as [func|]; [|by intros [= <- <-]].
  unfold try_catch, hbind. destruct (func args e1) as [[h|t|] e2]; [by intros [= <- <-]| |done].
  destruct t; try (by intros [= <- <-]); destruct ss; by intros [= <- <-].
Qed.


Lemma unsuppressed_calls_raise (d : dispatcher) msg id name args e (func : adaptor_type) t e1 :
  is_call msg id name args -> d !! name = Some func -> func args e = (Raises t, e1) ->
  match t with std_exception _ | not_std => True | _ => False end ->
  dispatch unset d msg false e = (Raises t, e1).
Proof.
  intros Hc Hd Hf Ht. rewrite (dispatch_is_call _ _ _ _ _ _ _ Hc). rewrite Hd. unfold try_catch.
  rewrite (hbind_raises _ _ _ _ _ Hf). by destruct t.
Qed.

(** Names are unique: a free name can be bound once, which adds that name
    and changes no other; while it is bound every other binding of it is
    refused; and unbinding it restores the registry. *)
Theorem bind_unique d name F :
  match bind unset d name F with
  | Ok d' => d !! name = None /\ d' !! name = Some (adaptor unset name F) /\
      names d' = {[name]} ∪ names d /\ (forall n, n <> name -> d' !! n = d !! n) /\
      (forall G, exists e, bind unset d' name G = Throw e) /\ unbind d' name = d
  | Throw _ => is_Some (d !! name)
  end.
Proof.
  unfold bind, bind_kind, enforce_unique_name. destruct (d !! name) eqn:E; simpl; [done|].
  split; [done|]. split; [by rewrite lookup_insert_eq|].
  split; [apply dom_insert_L|]. split; [intros n Hn; by rewrite lookup_insert_ne|]. split.
  - intros G. rewrite lookup_insert_eq. simpl. eauto.
  - unfold unbind. rewrite delete_insert_id; done.
Qed.

End Spec.

(** ** Witnesses *)

Definition no_unset (o : object) : Z := 0.
Definition start_env : env := {| loc := new_locals; heap := no_zones; console := [] |}.

(** [void ping()] and [int add(int, int)] without overflow. *)
Definition ping : functor := VoidZero (hret tt).
Definition add_functor : functor :=
  ResultArgs (cint C_int * (cint C_int * unit)) (cint C_int) _ _
    (fun v => hret (v.1 + v.2.1) : H (cint C_int)).

Definition bound (name : bytes) (F : functor) : dispatcher :=
  match bind no_unset ∅ name F with Ok d => d | Throw _ => ∅ end.

Lemma call_returns_result_witness :
  exists h e'', dispatch no_unset (bound (str "add") add_functor)
      (call_object 7 (str "add") (ARRAY [POSITIVE_INTEGER 2; POSITIVE_INTEGER 3])) false start_env
      = (Returns (make_result_handle 7 h), e'') /\
    holds e'' h (POSITIVE_INTEGER 5) /\ grows start_env e''.
Proof.
  eapply (call_returns_result no_unset ∅ _ _ 7 (str "add") add_functor
    [POSITIVE_INTEGER 2; POSITIVE_INTEGER 3] false start_env).
  - reflexivity.
  - apply call_object_is_call. lia.
  - eapply (computes_ResultArgs _ _ _ _ _ _ (2, (3, tt)) _ 5);
      [repeat split; vm_compute; congruence|reflexivity..].
Defined.

Lemma wrong_arity_reported_swapped_witness :
  exists h e', dispatch no_unset (bound (str "ping") ping)
      (call_object 7 (str "ping") (ARRAY [NIL])) false start_env
      = (Returns {| r_id := 7; r_error := Some h; r_result := None; r_empty := false |}, e') /\
    holds e' h (STR (wrong_arity_text (str "ping") 1 0)) /\ grows start_env e'.
Proof.
  apply (wrong_arity_reported_swapped no_unset ∅ _ _ 7 (str "ping") ping (ARRAY [NIL]) false start_env).
  - reflexivity.
  - apply call_object_is_call. lia.
  - vm_compute. congruence.
  - reflexivity.
Defined.

Lemma notification_never_answered_witness :
  dispatch no_unset (bound (str "ping") ping)
    (notification_object (str "ping") (ARRAY [])) false start_env = (Returns empty, start_env) /\
  empty = empty.
Proof.
  assert (E : dispatch no_unset (bound (str "ping") ping)
    (notification_object (str "ping") (ARRAY [])) false start_env = (Returns empty, start_env))
    by reflexivity.
  split; [exact E|]. eapply notification_never_answered; [|exact E]. reflexivity.
Defined.

