(* ===== verification/AsyncWriter.v ===== *)
(** * The write queue

    Models [async_writer] (detail/async_writer.h), which the client and the server
    sessions share: a queue of buffers of which the front one is being written.
    All of it but the exit flag runs on the write strand, so each operation is one
    step. Starting a second asynchronous write, or writing the front of an empty
    queue, would be [Undefined]. *)

From S2P Require Import Prelude Adaptors Handler.

Record async_writer := {
  write_queue : list bytes;
  writer_exit : bool;              (* exit_ *)
  pending : bool;                  (* an async_write of the front is under way *)
  is_open : bool;                  (* the socket *)
  wire : bytes;                    (* what the peer was sent *)
}.

Definition new_writer : async_writer :=
  {| write_queue := []; writer_exit := false; pending := false; is_open := true; wire := [] |}.

Definition set_queue (q : list bytes) (w : async_writer) : async_writer :=
  {| write_queue := q; writer_exit := writer_exit w; pending := pending w; is_open := is_open w;
     wire := wire w |}.
Definition set_pending (b : bool) (w : async_writer) : async_writer :=
  {| write_queue := write_queue w; writer_exit := writer_exit w; pending := b;
     is_open := is_open w; wire := wire w |}.
Definition transmit (d : bytes) (w : async_writer) : async_writer :=
  {| write_queue := write_queue w; writer_exit := writer_exit w; pending := false;
     is_open := is_open w; wire := wire w ++ d |}.

Definition is_closed (w : async_writer) : bool := writer_exit w.

(** [close] sets the flag at once; [close_socket] is what it posts to the strand. *)
Definition close (w : async_writer) : async_writer :=
  {| write_queue := write_queue w; writer_exit := true; pending := pending w;
     is_open := is_open w; wire := wire w |}.
Definition close_socket (w : async_writer) : async_writer :=
  {| write_queue := write_queue w; writer_exit := writer_exit w; pending := pending w;
     is_open := false; wire := wire w |}.

Definition do_write (w : async_writer) : outcome async_writer :=
  if writer_exit w then Returns w
  else match write_queue w with
  | [] => Undefined
  | _ :: _ => if pending w then Undefined else Returns (set_pending true w)
  end.

Definition write (data : bytes) (w : async_writer) : outcome async_writer :=
  let w := set_queue (write_queue w ++ [data]) w in
  if 1 <? len (write_queue w) then Returns w else do_write w.

(** The completion of [async_write]: all of the front was sent, or an error
    came after some of it. *)
Definition on_sent (w : async_writer) : outcome async_writer :=
  match write_queue w with
  | [] => Undefined
  | item :: q =>
    let w := set_queue q (transmit item w) in
    if 0 <? len q then (if writer_exit w then Returns w else do_write w) else Returns w
  end.

Definition on_send_error (transferred : nat) (w : async_writer) : outcome async_writer :=
  match write_queue w with
  | [] => Undefined
  | item :: _ => Returns (transmit (take transferred item) w)
  end.

(** ** Runs *)

Inductive writer_op :=
| Write (data : bytes) | Sent | SendFailed (transferred : nat) | Close | CloseSocket.

Definition enabled (op : writer_op) (w : async_writer) : bool :=
  match op with Sent | SendFailed _ => pending w | _ => true end.

Definition writer_step (op : writer_op) (w : async_writer) : outcome async_writer :=
  match op with
  | Write data => write data w
  | Sent => on_sent w
  | SendFailed n => on_send_error n w
  | Close => Returns (close w)
  | CloseSocket => Returns (close_socket w)
  end.

(** The operations in order; [None] when one is not enabled. *)
Fixpoint writer_run (ops : list writer_op) (w : async_writer) : option (outcome async_writer) :=
  match ops with
  | [] => Some (Returns w)
  | op :: ops =>
    if enabled op w then
      match writer_step op w with
      | Returns w => writer_run ops w
      | o => Some o
      end
    else None
  end.

Definition written (ops : list writer_op) : list bytes :=
  concat (map (fun op => match op with Write d => [d] | _ => [] end) ops).

Definition failed (ops : list writer_op) : bool :=
  existsb (fun op => match op with SendFailed _ => true | _ => false end) ops.

(** ** The invariant

    [all] is what was given to [write] and [bad] whether a write failed: the queue
    holds what is not sent, in order, and a write is under way whenever there is something
    to send and neither an error nor a close stopped the chain. *)

Record writer_ok (all : list bytes) (bad : bool) (w : async_writer) : Prop := {
  ok_front : pending w = true -> write_queue w <> [] /\ bad = false;
  ok_chain : write_queue w <> [] -> pending w = false -> bad = true \/ writer_exit w = true;
  ok_sent : if bad then exists done q, all = done ++ q /\ write_queue w = q /\ q <> [] /\
                exists k, wire w = concat done ++ take k (hd [] q)
            else exists done, all = done ++ write_queue w /\ wire w = concat done;
}.

Lemma new_writer_ok : writer_ok [] false new_writer.
Proof. split; simpl; [done|done|by exists []]. Qed.

Lemma len_snoc_gt1 {A} (q : list A) x : (1 <? len (q ++ [x])) = bool_decide (q <> []).
Proof.
  rewrite len_app. change (len [x]) with 1. destruct q as [|y q]; [done|].
  rewrite len_cons. pose proof (len_nonneg q). by destruct (Z.ltb_spec 1 (1 + len q + 1)); [|lia].
Qed.

Lemma write_ok all bad w d :
  writer_ok all bad w -> exists w', write d w = Returns w' /\ writer_ok (all ++ [d]) bad w'.
Proof.
  intros [Hf Hc Hs]. unfold write. cbn [set_queue write_queue]. rewrite len_snoc_gt1.
  destruct (decide (write_queue w = [])) as [E|E].
  - rewrite E in *. rewrite bool_decide_eq_false_2 by (by intros []).
    destruct bad; [by destruct Hs as (? & ? & _ & <- & ? & _)|].
    destruct Hs as (dn & Ha & Hw). rewrite app_nil_r in Ha. subst dn.
    assert (Hp : pending w = false) by (destruct (pending w); [by destruct (Hf eq_refl)|done]).
    unfold do_write. simpl. rewrite Hp.
    destruct (writer_exit w) eqn:Ex; (eexists; split; [done|]); split; simpl; try done;
      try (by right); by exists all.
  - rewrite bool_decide_eq_true_2 by done. eexists. split; [done|]. split; simpl.
    + intros Hp. destruct (Hf Hp) as [_ ->]. split; [by destruct (write_queue w)|done].
    + intros _ Hp. by apply Hc.
    + destruct bad.
      * destruct Hs as (dn & q & -> & Hq & Hn & k & Hw). exists dn, (q ++ [d]).
        rewrite app_assoc, Hq. split_and!; [done|done|by destruct q|]. exists k.
        rewrite Hw. by destruct q.
      * destruct Hs as (dn & -> & Hw). exists dn. by rewrite app_assoc.
Qed.

Lemma on_sent_ok all bad w :
  writer_ok all bad w -> pending w = true ->
  exists w', on_sent w = Returns w' /\ writer_ok all bad w'.
Proof.
  intros [Hf Hc Hs] Hp. destruct (Hf Hp) as [Hn ->]. destruct Hs as (dn & Ha & Hw).
  unfold on_sent. destruct (write_queue w) as [|item q] eqn:E; [done|].
  assert (Hs' : exists dn', all = dn' ++ q /\ wire w ++ item = concat dn').
  { exists (dn ++ [item]). rewrite <- app_assoc. split; [done|].
    rewrite concat_app, Hw. simpl. by rewrite app_nil_r. }
  destruct q as [|next q].
  - eexists. split; [done|]. by split; simpl.
  - rewrite len_cons. pose proof (len_nonneg q). destruct (Z.ltb_spec 0 (1 + len q)); [|lia].
    unfold do_write. simpl. destruct (writer_exit w) eqn:Ex; (eexists; split; [done|]); split; simpl; try done.
    intros _ _. by right.
Qed.

Lemma on_send_error_ok all bad n w :
  writer_ok all bad w -> pending w = true ->
  exists w', on_send_error n w = Returns w' /\ writer_ok all true w'.
Proof.
  intros [Hf Hc Hs] Hp. destruct (Hf Hp) as [Hn ->]. destruct Hs as (dn & Ha & Hw).
  unfold on_send_error. destruct (write_queue w) as [|item q] eqn:E; [done|].
  eexists. split; [done|]. split; simpl; [done|by left|].
  exists dn, (item :: q). rewrite E. split_and!; [done|done|done|]. exists n. by rewrite Hw.
Qed.

Lemma close_ok all bad w : writer_ok all bad w ->
  writer_ok all bad (close w) /\ writer_ok all bad (close_socket w).
Proof. intros [Hf Hc Hs]. split; split; simpl; auto. Qed.

Lemma writer_step_ok op all bad w :
  writer_ok all bad w -> enabled op w = true ->
  exists w', writer_step op w = Returns w' /\
    writer_ok (all ++ written [op]) (bad || failed [op]) w'.
Proof.
  intros Hw He. unfold written. simpl. rewrite orb_false_r, app_nil_r.
  destruct op; simpl in *; rewrite ?app_nil_r, ?orb_false_r, ?orb_true_r.
  - by apply write_ok.
  - by apply on_sent_ok.
  - by eapply on_send_error_ok.
  - eexists. split; [done|]. by apply close_ok.
  - eexists. split; [done|]. by apply close_ok.
Qed.

Lemma writer_run_ok ops : forall all bad w o,
  writer_ok all bad w -> writer_run ops w = Some o ->
  exists w', o = Returns w' /\ writer_ok (all ++ written ops) (bad || failed ops) w'.
Proof.
  induction ops as [|op ops IH]; intros all bad w o Hw Hr; cbn [writer_run] in Hr.
  - injection Hr as <-. exists w. unfold written. simpl. by rewrite app_nil_r, orb_false_r.
  - destruct (enabled op w) eqn:He; [|done].
    destruct (writer_step_ok op all bad w Hw He) as (w1 & E & Hw1). rewrite E in Hr.
    destruct (IH _ _ _ _ Hw1 Hr) as (w' & -> & Hw'). exists w'. split; [done|].
    replace (written (op :: ops)) with (written [op] ++ written ops)
      by (unfold written; simpl; by rewrite app_nil_r).
    replace (failed (op :: ops)) with (failed [op] || failed ops)
      by (unfold failed; simpl; by rewrite orb_false_r).
    by rewrite app_assoc, orb_assoc.
Qed.

(** C31. Buffers are written whole, once and in the order they were given, one
    at a time: however writes, completions, failures and closing interleave, no
    second asynchronous write is started and no empty queue is read; what the
    peer was sent is a prefix of everything given to [write]; and what it
    was not sent is exactly what is queued, unless a write failed. *)
Theorem writes_in_order ops o :
  writer_run ops new_writer = Some o ->
  exists w, o = Returns w /\
    (exists rest, concat (written ops) = wire w ++ rest /\
       (failed ops = false -> rest = concat (write_queue w))) /\
    (pending w = true -> write_queue w <> []) /\
    (write_queue w <> [] -> failed ops = false -> writer_exit w = false -> pending w = true).
Proof.
  intros Hr. destruct (writer_run_ok _ _ _ _ _ new_writer_ok Hr) as (w & -> & [Hf Hc Hs]).
  simpl in *. exists w. split; [done|]. split_and!.
  - destruct (failed ops).
    + destruct Hs as (dn & q & -> & _ & Hq & k & ->). destruct q as [|item q]; [done|]. simpl.
      exists (drop k item ++ concat q). rewrite concat_app. simpl.
      rewrite <- app_assoc. split; [|done]. f_equal. by rewrite app_assoc, take_drop.
    + destruct Hs as (dn & -> & ->). exists (concat (write_queue w)). by rewrite concat_app.
  - intros Hp. by destruct (Hf Hp).
  - intros Hq Hfl He. destruct (pending w) eqn:Ep; [done|].
    destruct (Hc Hq eq_refl) as [E|E]; congruence.
Qed.

Lemma sends_all q : forall w, write_queue w = q -> pending w = true -> writer_exit w = false ->
  q <> [] -> exists w', writer_run (replicate (length q) Sent) w = Some (Returns w') /\
    write_queue w' = [] /\ pending w' = false /\ wire w' = wire w ++ concat q.
Proof.
  induction q as [|item q IH]; intros w Hq Hp He Hn; [done|]. cbn [length replicate writer_run enabled].
  rewrite Hp. cbn [writer_step]. unfold on_sent. rewrite Hq. destruct q as [|next q].
  - eexists. split; [done|]. simpl. by rewrite app_nil_r.
  - rewrite len_cons. pose proof (len_nonneg q). destruct (Z.ltb_spec 0 (1 + len q)); [|lia].
    unfold do_write. simpl. rewrite He. 
    destruct (IH (set_pending true (set_queue (next :: q) (transmit item w)))) as (w' & E & H1 & H2 & H3);
      [done..|]. exists w'. split; [exact E|]. split_and!; [done|done|].
    rewrite H3. simpl. by rewrite <- app_assoc.
Qed.

(** C32. Nothing stays unsent: after any run without failures on an open writer, as
    many completions as there are queued buffers empty the queue, and the
    peer has then received everything that was ever given to [write]. *)
Theorem everything_is_sent ops w :
  writer_run ops new_writer = Some (Returns w) -> failed ops = false -> writer_exit w = false ->
  exists w', writer_run (replicate (length (write_queue w)) Sent) w = Some (Returns w') /\
    write_queue w' = [] /\ wire w' = concat (written ops).
Proof.
  intros Hr Hfl He. destruct (writer_run_ok _ _ _ _ _ new_writer_ok Hr) as (w1 & [= <-] & [Hf Hc Hs]).
  simpl in *. rewrite Hfl in *. destruct Hs as (dn & Ha & Hw).
  destruct (decide (write_queue w = [])) as [E|E].
  - rewrite E in *. exists w. rewrite app_nil_r in Ha. subst. done.
  - assert (Hp : pending w = true).
    { destruct (pending w) eqn:Ep; [done|]. destruct (Hc E eq_refl); congruence. }
    destruct (sends_all _ w eq_refl Hp He E) as (w' & H1 & H2 & _ & H3).
    exists w'. rewrite H3, Hw, Ha, concat_app. done.
Qed.

(** *** After a failure *)

(** The chain of writes is broken: something is queued and nothing is under way. *)
Definition stalled (w : async_writer) : Prop := write_queue w <> [] /\ pending w = false.

Lemma stalled_step op w :
  stalled w -> enabled op w = true ->
  exists w', writer_step op w = Returns w' /\ stalled w' /\ wire w' = wire w /\
    write_queue w' = write_queue w ++ written [op].
Proof.
  intros [Hq Hp] He. unfold written. destruct op as [d| |n| |]; simpl in *; try congruence;
    rewrite ?app_nil_r; try (eexists; split_and!; done).
  unfold write. cbn [set_queue write_queue]. rewrite len_snoc_gt1, bool_decide_eq_true_2 by done.
  eexists. split; [done|]. split; [split; [by destruct (write_queue w)|done]|done].
Qed.

(** A write that fails is never tried again, and neither is anything after it: whatever is
    done with the writer later, the peer gets nothing more, and what is written is
    queued for ever. *)
Theorem failed_write_stalls n ops w w' :
  pending w = true -> write_queue w <> [] -> on_send_error n w = Returns w' ->
  forall o, writer_run ops w' = Some o ->
  exists w'', o = Returns w'' /\ wire w'' = wire w' /\ write_queue w'' = write_queue w ++ written ops.
Proof.
  intros Hp Hq He. assert (Hs : stalled w' /\ write_queue w' = write_queue w).
  { unfold on_send_error in He. destruct (write_queue w) eqn:E; [done|]. injection He as <-.
    split; [split; simpl; [by rewrite E|done]|done]. }
  destruct Hs as [Hs <-]. clear He Hq Hp. revert w' Hs.
  induction ops as [|op ops IH]; intros w1 Hs o Hr; cbn [writer_run] in Hr.
  - injection Hr as <-. exists w1. unfold written. simpl. by rewrite app_nil_r.
  - destruct (enabled op w1) eqn:Ee; [|done].
    destruct (stalled_step op w1 Hs Ee) as (w2 & E & Hs2 & Hw2 & Hq2). rewrite E in Hr.
    destruct (IH w2 Hs2 o Hr) as (w3 & -> & Hw3 & Hq3). exists w3. split; [done|].
    split; [congruence|]. rewrite Hq3, Hq2, <- app_assoc. f_equal.
    unfold written. simpl. by rewrite app_nil_r.
Qed.

(** ** Witnesses *)

Definition sample_ops : list writer_op :=
  [Write (str "ab"); Write (str "c"); Sent; Write (str "d")].

Lemma writes_in_order_witness :
  exists w, writer_run (sample_ops ++ [SendFailed 0; Close]) new_writer = Some (Returns w) /\
    exists w', Returns w = Returns w' /\
    (exists rest, concat (written (sample_ops ++ [SendFailed 0; Close])) = wire w' ++ rest /\
       (failed (sample_ops ++ [SendFailed 0; Close]) = false -> rest = concat (write_queue w'))) /\
    (pending w' = true -> write_queue w' <> []) /\
    (write_queue w' <> [] -> failed (sample_ops ++ [SendFailed 0; Close]) = false ->
     writer_exit w' = false -> pending w' = true).
Proof. eexists. split; [reflexivity|]. apply writes_in_order. reflexivity. Defined.

Lemma everything_is_sent_witness :
  exists w, writer_run sample_ops new_writer = Some (Returns w) /\
    exists w', writer_run (replicate (length (write_queue w)) Sent) w = Some (Returns w') /\
      write_queue w' = [] /\ wire w' = concat (written sample_ops).
Proof. eexists. split; [reflexivity|]. apply everything_is_sent; reflexivity. Defined.

Lemma failed_write_stalls_witness :
  exists w w', writer_run sample_ops new_writer = Some (Returns w) /\ on_send_error 1 w = Returns w' /\
    exists w'', Returns w'' = writer_step Close w' /\
    (exists w3, Returns w'' = Returns w3 /\ wire w3 = wire w' /\
       write_queue w3 = write_queue w ++ written [Close]).
Proof.
  do 2 eexists. split; [reflexivity|]. split; [reflexivity|]. eexists. split; [reflexivity|].
  eapply (failed_write_stalls 1 [Close]); [..|reflexivity]; [| |reflexivity]; done.
Defined.
