(* ===== verification/Receiver.v ===== *)
(** * The receiving side, as an interface

    What the client and the server sessions need of their unpacker: given the bytes of one
    read, it returns the objects that became complete. [Receiver] is the operation and
    [ReceiverLaws] the promise; [buffer_receiver] is the obvious implementation
    on a list of bytes, and [unpacker_receiver] the unpacker of the code, with its
    buffers, zones and object memory. *)

From S2P Require Import Prelude FloatBits MsgObject Parse Visitor Format Decode Unpacker UnpackerSpec.

Class Receiver (S : Type) := feed : bytes -> S -> res unpacker_exn (list object) * S.

(** [max] is the size of a read, and objects nest at most [nesting] deep. *)
Class ReceiverLaws (S : Type) `{Receiver S} (lim : unpack_limit) (max : Z) (nesting : nat) := {
  (** [s] has been given everything up to the unfinished object that starts with [d]. *)
  awaiting : bytes -> S -> Prop;
  awaiting_short d s : awaiting d s -> decode lim d = Short;
  feed_ok d0 d s os rest :
    awaiting d0 s -> len d <= max -> len (d0 ++ d) < 2 ^ 32 ->
    stream lim (d0 ++ d) os rest -> Forall (fun o => (depth o <= nesting)%nat) os ->
    match feed d s with
    | (Ok os', s') => os' = os /\ awaiting rest s'
    | (Throw e, _) => e = bad_alloc
    end;
}.

(** ** A list of bytes *)

Fixpoint decode_all (fuel : nat) (lim : unpack_limit) (d : bytes)
    : res unpacker_exn (list object) * bytes :=
  match fuel with
  | O => (Throw out_of_fuel, d)
  | S f =>
    match decode lim d with
    | Done o r =>
      match decode_all f lim r with
      | (Ok os, r) => (Ok (o :: os), r)
      | (Throw e, r) => (Throw e, r)
      end
    | Short => (Ok [], d)
    | Fail e => (Throw (unpack_error e), d)
    | NoFuel => (Throw out_of_fuel, d)
    end
  end.

Definition buffer_receiver (lim : unpack_limit) : Receiver bytes := fun d s =>
  decode_all (S (length (s ++ d))) lim (s ++ d).

Lemma decode_all_stream lim : forall fuel d os rest,
  stream lim d os rest -> (length os < fuel)%nat -> decode_all fuel lim d = (Ok os, rest).
Proof.
  induction fuel as [|fuel IH]; intros d os rest Hs Hf; [lia|]. cbn [decode_all].
  destruct Hs as [d Hd|d o r os rest Hd Hs]; rewrite Hd; [done|].
  by rewrite (IH r os rest Hs ltac:(simpl in Hf; lia)).
Qed.

Lemma stream_short lim d os rest : stream lim d os rest -> decode lim rest = Short.
Proof. induction 1; done. Qed.

Definition buffer_awaiting (lim : unpack_limit) (d s : bytes) : Prop := d = s /\ decode lim d = Short.

Lemma buffer_feed_ok lim max nesting d0 d s os rest :
  buffer_awaiting lim d0 s -> len d <= max -> len (d0 ++ d) < 2 ^ 32 ->
  stream lim (d0 ++ d) os rest -> Forall (fun o => (depth o <= nesting)%nat) os ->
  match buffer_receiver lim d s with
  | (Ok os', s') => os' = os /\ buffer_awaiting lim rest s'
  | (Throw e, _) => e = bad_alloc
  end.
Proof.
  intros [<- _] _ _ Hs _. unfold buffer_receiver. rewrite (decode_all_stream _ _ _ _ _ Hs).
  - split; [done|]. split; [done|]. by eapply stream_short.
  - pose proof (stream_length _ _ _ _ Hs). lia.
Qed.

Lemma buffer_awaiting_short lim d s : buffer_awaiting lim d s -> decode lim d = Short.
Proof. by intros [_ H]. Qed.

Definition buffer_receiver_laws lim max nesting :
  @ReceiverLaws bytes (buffer_receiver lim) lim max nesting :=
  {| awaiting := buffer_awaiting lim : bytes -> bytes -> Prop;
     awaiting_short := buffer_awaiting_short lim;
     feed_ok := buffer_feed_ok lim max nesting |}.

(** ** The unpacker *)

Definition unpacker_receiver (malloc_ok : Z -> bool) (max : Z) (nesting : nat) : Receiver unpacker :=
  fun d s =>
    match on_chunk malloc_ok max d s with
    | (Ok hs, s') =>
      match mapM (h_get nesting) hs with
      | Some os => (Ok os, s')
      | None => (Throw out_of_fuel, s')
      end
    | (Throw e, s') => (Throw e, s')
    end.

Lemma read_handles nesting hs os :
  Forall2 reads_as hs os -> Forall (fun o => (depth o <= nesting)%nat) os ->
  mapM (h_get nesting) hs = Some os.
Proof.
  induction 1 as [|h o hs os Hr _ IH]; intros Hd; [done|]. apply Forall_cons in Hd as [Hd1 Hd2].
  simpl. rewrite (Hr nesting Hd1). simpl. by rewrite (IH Hd2).
Qed.

Definition unpacker_awaiting (max : Z) (lim : unpack_limit) (d : bytes) (s : unpacker) : Prop :=
  exists others c0, reading max others s c0 d /\ m_limit (holder c0) = lim.

Section Laws.
Context (malloc_ok : Z -> bool) (max : Z) (nesting : nat) (lim : unpack_limit).
Context (malloc_bound : forall n, malloc_ok n = true -> n <= cap) (max_pos : 0 <= max <= cap).

Lemma unpacker_feed_ok d0 d s os rest :
  unpacker_awaiting max lim d0 s -> len d <= max -> len (d0 ++ d) < 2 ^ 32 ->
  stream lim (d0 ++ d) os rest -> Forall (fun o => (depth o <= nesting)%nat) os ->
  match unpacker_receiver malloc_ok max nesting d s with
  | (Ok os', s') => os' = os /\ unpacker_awaiting max lim rest s'
  | (Throw e, _) => e = bad_alloc
  end.
Proof.
  intros (others & c0 & Hr & Hl) Hd Hsz Hs Hn. unfold unpacker_receiver.
  pose proof (on_chunk_ok malloc_ok malloc_bound max max_pos d os rest others s c0 d0 lim
    Hr Hl Hd Hsz Hs) as H.
  destruct (on_chunk malloc_ok max d s) as [[hs|e] s']; [|done].
  destruct H as (Hf & c1 & Hr1 & Hl1). rewrite (read_handles _ _ _ Hf Hn).
  split; [done|]. by exists (zones hs ++ others), c1.
Qed.

Lemma unpacker_awaiting_short d s : unpacker_awaiting max lim d s -> decode lim d = Short.
Proof. intros (others & c0 & (_ & _ & _ & Hd & _) & Hl). by rewrite <- Hl. Qed.

Definition unpacker_receiver_laws :
  @ReceiverLaws unpacker (unpacker_receiver malloc_ok max nesting) lim max nesting :=
  {| awaiting := unpacker_awaiting max lim : bytes -> unpacker -> Prop;
     awaiting_short := unpacker_awaiting_short;
     feed_ok := unpacker_feed_ok |}.

End Laws.

(** A new unpacker with room for a read awaits its first object. *)
Definition start_receiver (malloc_ok : Z -> bool) (max : Z) (initial : Z) (lim : unpack_limit)
    : res unpacker_exn unpacker :=
  match new_unpacker malloc_ok default_reference_func initial lim with
  | Ok s =>
    match reserve_buffer malloc_ok max s with (Ok _, s) => Ok s | (Throw e, _) => Throw e end
  | Throw e => Throw e
  end.

Lemma start_receiver_awaits malloc_ok max initial lim s
    (Hm : forall n, malloc_ok n = true -> n <= cap) (Hmax : 0 <= max <= cap) :
  start_receiver malloc_ok max initial lim = Ok s -> unpacker_awaiting max lim [] s.
Proof.
  unfold start_receiver. destruct (new_unpacker _ _ _ _) as [s0|e] eqn:E0; [|done].
  destruct (reserve_buffer malloc_ok max s0) as [[[]|e] s1] eqn:E1; [|done]. intros [= ->].
  destruct (lifetime_reading _ _ _ _ _ _ _ Hm Hmax E0 E1) as (c0 & H). by exists [], c0.
Qed.

(** ** Reads in sequence, against the interface *)

Section Client.
Context {S : Type} `{HR : Receiver S} {lim max nesting} {HL : @ReceiverLaws S HR lim max nesting}.

Fixpoint feed_all (ds : list bytes) (s : S) : res unpacker_exn (list object) * S :=
  match ds with
  | [] => (Ok [], s)
  | d :: ds =>
    match feed d s with
    | (Ok os, s) =>
      match feed_all ds s with (Ok os', s) => (Ok (os ++ os'), s) | (Throw e, s) => (Throw e, s) end
    | (Throw e, s) => (Throw e, s)
    end
  end.

Lemma feed_all_ok : forall ds d0 s os rest,
  awaiting d0 s -> Forall (fun d => len d <= max) ds -> len (d0 ++ concat ds) < 2 ^ 32 ->
  stream lim (d0 ++ concat ds) os rest -> Forall (fun o => (depth o <= nesting)%nat) os ->
  match feed_all ds s with
  | (Ok os', s') => os' = os /\ awaiting rest s'
  | (Throw e, _) => e = bad_alloc
  end.
Proof.
  induction ds as [|d ds IH]; intros d0 s os rest Ha Hds Hsz Hs Hn; cbn [feed_all concat] in *.
  - rewrite app_nil_r in *. pose proof (awaiting_short _ _ Ha) as Hd.
    inversion Hs as [? ?|? ? ? ? ? Hd' _]; subst; [done|congruence].
  - apply Forall_cons in Hds as [Hd Hds]. rewrite app_assoc in Hsz, Hs.
    destruct (stream_split lim _ (Datatypes.S (length (d0 ++ d))) (d0 ++ d) os rest ltac:(lia) Hs)
      as (os1 & mid & os2 & H1 & H2 & ->).
    apply Forall_app in Hn as [Hn1 Hn2]. pose proof (len_nonneg (concat ds)).
    pose proof (feed_ok d0 d s os1 mid Ha Hd ltac:(rewrite len_app in Hsz; lia) H1 Hn1) as Hf.
    destruct (feed d s) as [[os'|e] s1]; [|done]. destruct Hf as [-> Ha1].
    assert (Hm : len (mid ++ concat ds) < 2 ^ 32)
      by (pose proof (stream_rest_len _ _ _ _ H1); len_lia).
    pose proof (IH mid s1 os2 rest Ha1 Hds Hm H2 Hn2) as Hr.
    destruct (feed_all ds s1) as [[os'|e] s2]; [|done]. destruct Hr as [-> Hr]. done.
Qed.

End Client.
