(* ===== verification/UnpackerV1Spec.v ===== *)
(** * The two unpackers agree

    The unpacker of UnpackerV1 and that of Unpacker, in lock step: the same buffer, the
    same counts and zones, and contexts that UnpackV1Spec relates. So what UnpackerSpec
    promises of the one holds of the other. *)

From S2P Require Import Prelude Alloc FloatBits MsgObject Parse ParseLoop Visitor Format Tokens Decode Stream Morphism.
From S2P Require UnpackV1.
From S2P Require Import UnpackV1Spec Unpacker UnpackerSpec Receiver.
From S2P Require UnpackerV1.

(** The older unpacker with the buffer of [s] and the context [c]. *)
Definition with_ctx (c : UnpackV1.context) (s : unpacker) : UnpackerV1.unpacker :=
  {| UnpackerV1.mem := mem s; UnpackerV1.m_buffer := m_buffer s; UnpackerV1.m_used := m_used s;
     UnpackerV1.m_free := m_free s;
     UnpackerV1.m_off := m_off s; UnpackerV1.m_parsed := m_parsed s; UnpackerV1.m_z := m_z s;
     UnpackerV1.m_initial_buffer_size := m_initial_buffer_size s; UnpackerV1.m_ctx := c; UnpackerV1.counts := counts s;
     UnpackerV1.next_id := next_id s |}.

(** The same result in related states. Of the depth the two have different views. *)
Definition agrees {A B} (R : A -> B -> Prop) (x1 : res unpacker_exn (A * UnpackerV1.unpacker))
    (x2 : res unpacker_exn B * unpacker) : Prop :=
  match x2 with
  | (Ok b, s) => exists a c, x1 = Ok (a, with_ctx c s) /\ R a b /\ ctx_rel c (cx s)
  | (Throw e, _) => e = unpack_error depth_size_overflow \/ x1 = Throw e
  end.

Definition sim {A B} (R : A -> B -> Prop) (m1 : UnpackerV1.M A) (m2 : M B) : Prop :=
  forall c s, ctx_rel c (cx s) -> agrees R (m1 (with_ctx c s)) (m2 s).

Lemma agrees_bind {A B A' B'} (R : A -> B -> Prop) (R' : A' -> B' -> Prop) m1 m2 k1 k2 c s :
  agrees R (m1 (with_ctx c s)) (m2 s) ->
  (forall a b c' s', m2 s = (Ok b, s') -> R a b -> ctx_rel c' (cx s') -> agrees R' (k1 a (with_ctx c' s')) (k2 b s')) ->
  agrees R' (UnpackerV1.bind m1 k1 (with_ctx c s)) (bind m2 k2 s).
Proof.
  intros H Hk. unfold UnpackerV1.bind, bind. destruct (m2 s) as [[b|e] s'] eqn:E; simpl in H.
  - destruct H as (a & c' & -> & Hr & Hc). by eapply Hk.
  - destruct H as [->| ->]; [by left|by right].
Qed.

Lemma sim_bind {A B A' B'} (R : A -> B -> Prop) (R' : A' -> B' -> Prop) m1 m2 k1 k2 :
  sim R m1 m2 -> (forall a b, R a b -> sim R' (k1 a) (k2 b)) -> sim R' (UnpackerV1.bind m1 k1) (bind m2 k2).
Proof.
  intros Hm Hk c s Hc. eapply agrees_bind; [by apply Hm|]. intros a b c' s' _ Hr Hc'. by apply (Hk a b Hr).
Qed.

Lemma sim_ret {A B} (R : A -> B -> Prop) a b : R a b -> sim R (UnpackerV1.ret a) (ret b).
Proof. intros Hr c s Hc. by exists a, c. Qed.

Lemma sim_throw {A B} (R : A -> B -> Prop) e : sim R (UnpackerV1.throw e) (throw e).
Proof. intros c s Hc. by right. Qed.

(** A change of what is not the context. *)
Lemma sim_modify f1 f2 :
  (forall c s, f1 (with_ctx c s) = with_ctx c (f2 s)) -> (forall s, cx (f2 s) = cx s) ->
  sim eq (UnpackerV1.modify f1) (modify f2).
Proof. intros Hf Hc c s Hr. exists tt, c. unfold UnpackerV1.modify. rewrite Hf. split_and!; [done..|]. by rewrite Hc. Qed.

Ltac solve_modify := apply sim_modify; intros; reflexivity.

(** What is read of the state. *)
Definition same_state (s1 : UnpackerV1.unpacker) (s2 : unpacker) : Prop :=
  exists c, s1 = with_ctx c s2 /\ ctx_rel c (cx s2).

Lemma sim_get : sim same_state UnpackerV1.get get.
Proof. intros c s Hc. exists (with_ctx c s), c. split_and!; [done| |done]. by exists c. Qed.

(** ** Contexts *)

Lemma rel_referenced c1 c2 : ctx_rel c1 c2 ->
  UnpackV1.m_referenced (UnpackV1.m_user c1) = m_referenced (holder c2).
Proof. intros [(fs & back & below & _ & _ & _ & _ & _ & _ & _ & H & _) _]. exact H. Qed.

Lemma agree_ref b u v : agree u v -> agree (UnpackV1.set_referenced b u) (set_referenced b v).
Proof. intros (H1 & H2 & _ & H4). by split_and!. Qed.

Lemma rel_set_ref b c s : ctx_rel c (cx s) ->
  ctx_rel (UnpackV1.set_stack (UnpackV1.m_stack c) (UnpackV1.set_referenced b (UnpackV1.m_user c)) c)
    (cx (set_ref b s)).
Proof.
  intros [(fs & back & below & E1 & E2 & Hf & [Hr1 Hz1] & [Hs2 Hb2 Hz2 Hi2 Hh2] & Ha) Ht].
  split; [|exact Ht]. exists fs, back, below. split_and!; try done. by apply agree_ref.
Qed.

(** What both contexts are when an object has been taken out. *)
Lemma rel_init c1 c2 s : last (UnpackV1.m_stack c1) = Some s -> agree (UnpackV1.m_user c1) (holder c2) ->
  UnpackV1.cells (UnpackV1.m_user c1) = ∅ -> UnpackV1.blocks (UnpackV1.m_user c1) = [] ->
  rel2 1 (holder c2) [] -> ctx_rel (UnpackV1.init c1) (init c2).
Proof.
  intros Es Ha Hcl Hbl [_ Hb (_ & _ & Hh) _ _]. split; [|done].
  exists [], (UnpackV1.set_obj CNil s), []. split; [simpl; by rewrite Es|]. do 2 (split; [done|]).
  split; [|split; [|exact Ha]].
  - split; [done|]. simpl. rewrite Hcl, Hbl. split_and!; [apply NoDup_nil_2|done|done].
  - split; try done. split_and!; [apply NoDup_nil_2|done|]. intros b i Hi. simpl in Hi.
    specialize (Hh b i Hi). unfold heap in *. simpl. by rewrite delete_insert_eq.
Qed.

(** ** The buffer *)

Lemma sim_init_count b : sim eq (UnpackerV1.init_count b) (init_count b).
Proof. solve_modify. Qed.

Lemma sim_get_count b : sim eq (UnpackerV1.get_count b) (get_count b).
Proof.
  intros c s Hc. unfold UnpackerV1.get_count, get_count. simpl. destruct (counts s !! b) as [n|]; [by exists n, c|by right].
Qed.

Lemma sim_incr_count b : sim eq (UnpackerV1.incr_count b) (incr_count b).
Proof. apply (sim_bind eq); [apply sim_get_count|]. intros n ? <-. solve_modify. Qed.

Lemma sim_decr_count b : sim eq (UnpackerV1.decr_count b) (decr_count b).
Proof. apply (sim_bind eq); [apply sim_get_count|]. intros n ? <-. solve_modify. Qed.

Lemma sim_fresh : sim eq UnpackerV1.fresh fresh.
Proof. intros c s Hc. by exists (next_id s), c. Qed.

Lemma sim_push_finalizer b : sim eq (UnpackerV1.push_finalizer b) (push_finalizer b).
Proof. solve_modify. Qed.

Lemma sim_finalizers z : sim eq (UnpackerV1.call_finalizers z) (call_finalizers z).
Proof.
  induction z as [|b z IH]; [by apply sim_ret|]. apply (sim_bind eq); [apply sim_decr_count|by intros].
Qed.

Lemma sim_set_ref b :
  sim eq (UnpackerV1.modify (fun s => UnpackerV1.set_user (UnpackV1.set_referenced b (UnpackerV1.user s)) s))
    (modify (set_ref b)).
Proof. intros c s Hc. eexists tt, _. split; [reflexivity|]. split; [done|]. by apply rel_set_ref. Qed.

Section Alloc.
Variable malloc_ok : Z -> bool.

Lemma sim_realloc size : sim eq (UnpackerV1.realloc_buffer malloc_ok size) (realloc_buffer malloc_ok size).
Proof.
  unfold UnpackerV1.realloc_buffer, realloc_buffer. apply (sim_bind same_state); [apply sim_get|].
  intros s1 s (c & -> & Hc). cbn [UnpackerV1.m_used UnpackerV1.m_free UnpackerV1.m_off
    UnpackerV1.m_initial_buffer_size with_ctx].
  destruct (grow _ _ _) as [n|]; [|apply sim_throw].
  destruct (malloc_ok n); [solve_modify|apply sim_throw].
Qed.

Lemma sim_replace size : sim eq (UnpackerV1.replace_buffer malloc_ok size) (replace_buffer malloc_ok size).
Proof.
  unfold UnpackerV1.replace_buffer, replace_buffer. apply (sim_bind same_state); [apply sim_get|].
  intros s1 s (c & -> & Hc). cbn [UnpackerV1.m_used UnpackerV1.m_free UnpackerV1.m_off
    UnpackerV1.m_initial_buffer_size with_ctx].
  destruct (grow _ _ _) as [n|]; [|apply sim_throw].
  destruct (malloc_ok n); [|apply sim_throw].
  apply (sim_bind eq); [apply sim_fresh|]. intros tmp ? <-.
  apply (sim_bind eq); [apply sim_init_count|]. intros _ _ _.
  apply (sim_bind eq).
  - unfold UnpackerV1.user. simpl. rewrite (rel_referenced _ _ Hc). unfold referenced.
    destruct (m_referenced (holder (cx s))); [|apply sim_decr_count].
    apply (sim_bind eq); [apply sim_push_finalizer|]. intros _ _ _. apply sim_set_ref.
  - intros _ _ _. solve_modify.
Qed.

Lemma sim_expand size : sim eq (UnpackerV1.expand_buffer malloc_ok size) (expand_buffer malloc_ok size).
Proof.
  unfold UnpackerV1.expand_buffer, expand_buffer. apply (sim_bind same_state); [apply sim_get|].
  intros s1 s (c & -> & Hc). simpl.
  apply (sim_bind eq); [destruct (_ =? _); [apply sim_get_count|by apply sim_ret]|]. intros n ? <-.
  unfold UnpackerV1.user. simpl. rewrite (rel_referenced _ _ Hc). unfold referenced. set (r := _ && _ && negb _).
  apply (sim_bind eq); [destruct r; [solve_modify|by apply sim_ret]|]. intros _ _ _.
  apply (sim_bind same_state); [apply sim_get|]. intros s1 s' (c' & -> & Hc'). simpl.
  destruct (r && _); [by apply sim_ret|].
  destruct (m_off s' =? COUNTER_SIZE); [apply sim_realloc|apply sim_replace].
Qed.

Lemma sim_reserve size : sim eq (UnpackerV1.reserve_buffer malloc_ok size) (reserve_buffer malloc_ok size).
Proof.
  apply (sim_bind same_state); [apply sim_get|]. intros s1 s (c & -> & Hc). simpl.
  destruct (size <=? m_free s); [by apply sim_ret|apply sim_expand].
Qed.
End Alloc.

Lemma sim_write d : sim eq (UnpackerV1.write_buffer d) (write_buffer d).
Proof.
  apply (sim_bind same_state); [apply sim_get|]. intros s1 s (c & -> & Hc). simpl.
  destruct (_ <? _); [apply sim_throw|solve_modify].
Qed.

Lemma sim_consumed n : sim eq (UnpackerV1.buffer_consumed n) (buffer_consumed n).
Proof. solve_modify. Qed.

(** ** Objects *)

(** The object is the same, and so are the buffers that stay alive for it. *)
Definition same_handle (h1 : UnpackerV1.object_handle) (h2 : object_handle) : Prop :=
  UnpackerV1.h_zone h1 = h_zone h2 /\ exists o, forall fuel, (depth o <= fuel)%nat ->
    UnpackerV1.h_get fuel h1 = Some o /\ h_get fuel h2 = Some o.

Definition same_next (x : bool * UnpackerV1.object_handle * bool) (y : bool * object_handle * bool) : Prop :=
  x.1.1 = y.1.1 /\ x.2 = y.2 /\ same_handle x.1.2 y.1.2.

Lemma same_empty : same_handle UnpackerV1.empty_handle empty_handle.
Proof. split; [done|]. exists NIL. intros [|fuel] Hf; simpl in Hf; [lia|]. by split. Qed.

(** The parser is called on a buffer of less than 4 GiB. *)
Definition sized (s : unpacker) : Prop := m_used s + m_free s < 2 ^ 32.

Lemma taken_len others s : ok others s -> len (take (Z.to_nat (m_used s)) (mem s)) = m_used s.
Proof. intros []. unfold len in *. rewrite length_take. lia. Qed.

Lemma execute_imp_rel others c s : ok others s -> sized s -> ctx_rel c (cx s) ->
  match execute_imp s with
  | (Ok PARSE_SUCCESS, s') => exists c', UnpackerV1.execute_imp (with_ctx c s) = Ok (1, with_ctx c' s') /\
      done_rel (UnpackV1.data c') (UnpackV1.m_user c') (holder (cx s'))
  | (Ok PARSE_CONTINUE, s') => exists c', UnpackerV1.execute_imp (with_ctx c s) = Ok (0, with_ctx c' s') /\
      ctx_rel c' (cx s')
  | (Ok _, _) => False
  | (Throw e, _) => e = unpack_error depth_size_overflow \/ UnpackerV1.execute_imp (with_ctx c s) = Throw e \/
      e = unpack_error parse_error_exn /\ exists s', UnpackerV1.execute_imp (with_ctx c s) = Ok (-1, s')
  end.
Proof.
  intros Hok Hsz Hc. pose proof (taken_len _ _ Hok) as Hl. pose proof Hok as [Ho Hm Hf Hcap Hi Hcx Hn Hfr].
  unfold sized in Hsz. destruct (execute_rel (take (Z.to_nat (m_used s)) (mem s)) (m_off s) c (cx s)) as (f2 & E2 & H);
    [lia|lia|done|done|].
  unfold execute_imp, UnpackerV1.execute_imp, UnpackerV1.bind, UnpackerV1.get, UnpackerV1.modify,
    bind, get, modify. simpl. rewrite E2.
  destruct H as [(c' & ->)|(f1 & -> & H)]; [by left|].
  pose proof (execute_returns (take (Z.to_nat (m_used s)) (mem s)) (m_off s) (cx s) ltac:(lia) Hcx) as Hret.
  rewrite E2 in Hret. destruct H as [l1 l2 _|n c1 c2 Hr|n c1 c2 Hd|n c1 c2|e c2|f1 c2].
  - done.
  - destruct (m_off s <? n); by exists c1.
  - destruct (m_off s <? n); by exists c1.
  - right. right. split; [done|]. destruct (m_off s <? n); by eexists.
  - right. by left.
  - by left.
Qed.

Lemma done_agrees c v : done_rel (UnpackV1.data c) (UnpackV1.m_user c) v ->
  agree (UnpackV1.m_user c) v /\ rel2 1 v [] /\ exists s, last (UnpackV1.m_stack c) = Some s.
Proof.
  intros (o & c1 & Ed & _ & [Hr _] & Ha). split; [done|]. split; [done|]. unfold UnpackV1.data in Ed.
  destruct (last (UnpackV1.m_stack c)) as [s|]; [by exists s|done].
Qed.

Lemma done_handle o1 u v z : done_rel o1 u v ->
  same_handle {| UnpackerV1.h_obj := o1; UnpackerV1.h_cells := UnpackV1.cells u; UnpackerV1.h_zone := Some z |}
    {| h_cells := cells v; h_zone := Some z |}.
Proof.
  intros (o & c1 & -> & Hs & [_ (c2 & Hlk & Ho)] & _). split; [done|]. exists o. intros fuel Hf.
  unfold UnpackerV1.h_get, h_get. cbn [UnpackerV1.h_obj UnpackerV1.h_cells h_cells].
  change (cells v !! (0, 0) = Some c2) in Hlk. rewrite Hlk.
  assert (Hsub : heap v ⊆ cells v) by apply delete_subseteq. apply (shows_mono _ _ _ _ Hsub) in Ho.
  split; by apply shows_read.
Qed.

Lemma next_rel others c s : ok others s -> sized s -> ctx_rel c (cx s) ->
  agrees same_next (UnpackerV1.next (with_ctx c s)) (next s).
Proof.
  intros Hok Hsz Hc. pose proof (execute_imp_rel others c s Hok Hsz Hc) as H.
  unfold UnpackerV1.next, next, parser_next, UnpackerV1.bind at 1, bind at 1 2.
  destruct (execute_imp s) as [[r|e] s'].
  2:{ destruct H as [->| [->|[-> [s1 ->]]]]; [by left|by right..]. }
  destruct r; try done; destruct H as (c' & -> & Hr); cbn [Z.ltb Z.eqb Z.compare Pos.compare ret].
  2:{ exists (false, UnpackerV1.empty_handle, false), c'. split_and!; [done|split_and!; [done..|apply same_empty]|done]. }
  destruct (done_agrees _ _ Hr) as (Ha & H2 & st & Est). pose proof (proj1 (proj2 (proj2 Ha))) as Href.
  unfold UnpackerV1.release_zone, UnpackerV1.flush_zone, UnpackerV1.push_finalizer, UnpackerV1.incr_count,
    UnpackerV1.get_count, UnpackerV1.reset, UnpackerV1.modify, UnpackerV1.ret,
    release_zone, flush_zone, push_finalizer, incr_count, get_count, reset, modify, ret,
    UnpackerV1.bind, UnpackerV1.get, bind, get.
  unfold UnpackerV1.user, referenced. cbn [UnpackerV1.m_ctx with_ctx]. rewrite Href.
  destruct (m_referenced (holder (cx s'))) eqn:Er.
  - cbn -[UnpackV1.init init lookup]. destruct (counts s' !! m_buffer s') as [n|]; [|by right].
    eexists _, _. split; [reflexivity|]. split; [split_and!; [done..|exact (done_handle _ _ _ _ Hr)]|].
    eapply rel_init; [exact Est|by apply agree_ref|done..|]. by destruct H2.
  - cbn -[UnpackV1.init init lookup]. eexists _, _. split; [reflexivity|]. split; [split_and!; [done..|exact (done_handle _ _ _ _ Hr)]|].
    eapply rel_init; [exact Est|exact Ha|done..|]. by destruct H2.
Qed.

(** The calls kept for backward compatibility, in the order programs make them, are [next]. *)
Definition next_by_steps : UnpackerV1.M (bool * UnpackerV1.object_handle * bool) :=
  UnpackerV1.bind UnpackerV1.execute (fun b =>
    if b : bool then
      UnpackerV1.bind UnpackerV1.get (fun s =>
      UnpackerV1.bind UnpackerV1.release_zone (fun '(memory, z) =>
      UnpackerV1.bind UnpackerV1.get (fun s' =>
      UnpackerV1.bind UnpackerV1.reset (fun _ =>
        UnpackerV1.ret (true, {| UnpackerV1.h_obj := UnpackerV1.data s'; UnpackerV1.h_cells := memory;
          UnpackerV1.h_zone := Some z |}, UnpackV1.m_referenced (UnpackerV1.user s))))))
    else UnpackerV1.ret (false, UnpackerV1.empty_handle, false)).

Lemma next_execute s : UnpackerV1.next s = next_by_steps s.
Proof.
  unfold UnpackerV1.next, next_by_steps, UnpackerV1.execute. unfold UnpackerV1.bind at 1 6 7.
  destruct (UnpackerV1.execute_imp s) as [[r s1]|e]; [|done].
  destruct (r <? 0); [done|]. by destruct (r =? 0).
Qed.

(** ** The size of the buffer *)

Lemma execute_imp_size s r s' : execute_imp s = (Ok r, s') -> m_used s' = m_used s /\ m_free s' = m_free s.
Proof.
  unfold execute_imp, bind, get, modify, throw, ret. destruct (execute _ _ _) as [[| |]|]; try done.
  destruct (_ <? _); by intros [= _ <-].
Qed.

Lemma next_size s x s' : next s = (Ok x, s') -> m_used s' = m_used s /\ m_free s' = m_free s.
Proof.
  unfold next, parser_next, bind at 1 2. destruct (execute_imp s) as [[r|e] s1] eqn:E; [|done].
  apply execute_imp_size in E as [<- <-]. destruct r; cbn [ret]; try (by intros [= _ <-]).
  unfold release_zone, flush_zone, push_finalizer, incr_count, get_count, reset, modify, ret, bind, get.
  destruct (referenced s1); [|by intros [= _ <-]]. cbn -[lookup].
  destruct (counts s1 !! m_buffer s1); [|done]. by intros [= _ <-].
Qed.

Section Sized.
Variable malloc_ok : Z -> bool.
Hypothesis malloc_bound : forall n, malloc_ok n = true -> n < 2 ^ 32.

Lemma bound_cap n : malloc_ok n = true -> n <= cap.
Proof. intros H%malloc_bound. unfold cap. lia. Qed.

Lemma wrapped_room n used : 0 <= used -> used <= n < 2 ^ 32 -> used + wrap 64 (n - used) < 2 ^ 32.
Proof. intros. rewrite wrap_small by lia. lia. Qed.

Lemma realloc_sized size others s s' : ok others s -> 0 <= size <= cap ->
  realloc_buffer malloc_ok size s = (Ok tt, s') -> sized s'.
Proof.
  intros [] Hs. unfold cap in *. unfold realloc_buffer, bind, get.
  destruct (grow_ok (wrap 64 ((m_used s + m_free s) * 2)) (wrap 64 (size + m_used s)))
    as (r & -> & Hr & Hb); [apply wrap_range; lia..|].
  destruct (malloc_ok r) eqn:Em; [|done]. apply malloc_bound in Em. intros [= <-].
  rewrite wrap_small in Hr by lia. apply wrapped_room; lia.
Qed.

Lemma replace_sized size others s s' : ok others s -> 0 <= size <= cap ->
  replace_buffer malloc_ok size s = (Ok tt, s') -> sized s'.
Proof.
  intros [] Hs. unfold cap in *. unfold replace_buffer, bind, get.
  rewrite (wrap_small 64 (m_used s - m_off s)) by lia.
  destruct (grow_ok (m_initial_buffer_size s) (wrap 64 (size + (m_used s - m_off s) + COUNTER_SIZE)))
    as (r & -> & Hr & Hb); [lia|apply wrap_range; lia|].
  unfold COUNTER_SIZE in *. rewrite wrap_small in Hr by lia.
  destruct (malloc_ok r) eqn:Em; [|done]. apply malloc_bound in Em.
  rewrite (wrap_small 64 (m_used s - m_off s + 4)) by lia. cbn [fresh init_count modify].
  destruct (referenced s); repeat case_match; try done; intros [= <-]; apply wrapped_room; lia.
Qed.

Lemma enlarge_sized size others s s' : ok others s -> 0 <= size <= cap ->
  (if m_off s =? COUNTER_SIZE then realloc_buffer malloc_ok size else replace_buffer malloc_ok size) s =
    (Ok tt, s') -> sized s'.
Proof. intros. destruct (m_off s =? COUNTER_SIZE); [by eapply realloc_sized|by eapply replace_sized]. Qed.

Lemma reserve_sized size others s s' : ok others s -> sized s -> 0 <= size <= cap ->
  reserve_buffer malloc_ok size s = (Ok tt, s') -> sized s'.
Proof.
  intros Hok Hsz Hs. unfold reserve_buffer, bind at 1, get at 1.
  destruct (_ <=? _); [by intros [= <-]|].
  pose proof (enlarge_sized size others s s' Hok Hs) as He.
  pose proof (counted_get _ _ _ (ok_counts _ _ Hok)) as Hg.
  unfold expand_buffer, bind, get, get_count, ret, modify.
  destruct (Z.eqb_spec (m_used s) (m_off s)) as [Eu|]; [rewrite Hg|exact He].
  set (b := true && _ && _). destruct b; [|exact He].
  destruct (rewind_ok others s Hok Eu) as [Hr _]. cbn [andb].
  assert (Hsz' : sized (rewind s)).
  { destruct Hok. unfold sized, rewind, COUNTER_SIZE, cap in *. simpl. rewrite wrap_small by lia. lia. }
  destruct (size <=? m_free (rewind s)); [by intros [= <-]|]. by eapply enlarge_sized.
Qed.

(** ** The read loop *)

Lemma next_ok others c1 s b h r s' : ok others s -> sized s -> ctx_rel c1 (cx s) -> next s = (Ok (b, h, r), s') ->
  ok (if b then zone_of h ++ others else others) s'.
Proof.
  intros Hok Hsz Hr. destruct (run_total (pending s) (cx s) (ok_ctx _ _ Hok)) as [x Hx].
  pose proof (next_run others s x Hok Hx) as H. destruct x as [t rest c|e c].
  - pose proof (execute_imp_rel others c1 s Hok Hsz Hr) as Ht.
    pose proof (execute_imp_run others s _ Hok Hx) as (s0 & E & _). rewrite E in Ht.
    destruct t; try done; [destruct H as (h' & s1 & -> & _ & _ & Hk & _); by intros [= <- <- <- <-]|].
    pose proof (run_ctx_ok _ _ _ _ (ok_ctx _ _ Hok) Hx) as Hc.
    destruct H as (s1 & -> & _ & _ & Hk & _). intros [= <- <- <- <-]. by apply Hk.
  - destruct H as (s1 & ->). done.
Qed.

Lemma next_sized s x s' : sized s -> next s = (Ok x, s') -> sized s'.
Proof. intros Hs E%next_size. unfold sized in *. lia. Qed.

(** In the state both are in, the buffer is well-formed. *)
Definition agrees_ok {A B} (R : A -> B -> Prop) (owners : B -> list Z)
    (x1 : res unpacker_exn (A * UnpackerV1.unpacker))
    (x2 : res unpacker_exn B * unpacker) : Prop :=
  agrees R x1 x2 /\ forall b s, x2 = (Ok b, s) -> ok (owners b) s /\ sized s.

Lemma agrees_ok_bind {A B A' B'} (R : A -> B -> Prop) (R' : A' -> B' -> Prop) os os' m1 m2 k1 k2 c s :
  agrees_ok R os (m1 (with_ctx c s)) (m2 s) ->
  (forall a b c' s', R a b -> ctx_rel c' (cx s') -> ok (os b) s' -> sized s' ->
     agrees_ok R' os' (k1 a (with_ctx c' s')) (k2 b s')) ->
  agrees_ok R' os' (UnpackerV1.bind m1 k1 (with_ctx c s)) (bind m2 k2 s).
Proof.
  intros [Ha Ho] Hk. unfold UnpackerV1.bind, bind. destruct (m2 s) as [[b|e] s'] eqn:E; simpl in Ha.
  - destruct Ha as (a & c' & -> & Hr & Hc). destruct (Ho b s' eq_refl) as [Hok Hsz]. by apply Hk.
  - split; [|done]. destruct Ha as [->| ->]; [by left|by right].
Qed.

Lemma agrees_ok_ret {A B} (R : A -> B -> Prop) os a b c s :
  R a b -> ctx_rel c (cx s) -> ok (os b) s -> sized s -> agrees_ok R os (UnpackerV1.ret a (with_ctx c s)) (ret b s).
Proof. intros. split; [by exists a, c|]. by intros b' s' [= <- <-]. Qed.

Lemma next_agrees others c s : ok others s -> sized s -> ctx_rel c (cx s) ->
  agrees_ok same_next (fun x => if x.1.1 then zone_of x.1.2 ++ others else others) (UnpackerV1.next (with_ctx c s)) (next s).
Proof.
  intros. split; [by eapply next_rel|]. intros [[b h] r] s' E. split; [by eapply next_ok|by eapply next_sized].
Qed.

Lemma ok_owners os os' s : os = os' -> ok os s -> ok os' s.
Proof. by intros ->. Qed.

Lemma drain_agrees fuel : forall others c s, ok others s -> sized s -> ctx_rel c (cx s) ->
  agrees_ok (Forall2 same_handle) (fun hs => zones hs ++ others) (UnpackerV1.drain fuel (with_ctx c s)) (drain fuel s).
Proof.
  induction fuel as [|fuel IH]; intros others c s Hok Hsz Hc; cbn [drain UnpackerV1.drain]; [split; [by right|done]|].
  eapply agrees_ok_bind; [by apply next_agrees|].
  intros [[b1 h1] r1] [[b h] r] c1 s1 (Eb & Er & Hh) Hc1 Hok1 Hsz1. simpl in Eb, Hh, Hok1. subst b1.
  destruct b; [|by apply agrees_ok_ret].
  eapply agrees_ok_bind; [by apply IH|]. intros hs1 hs c2 s2 Hhs Hc2 Hok2 Hsz2.
  apply agrees_ok_ret; [by constructor|done| |done]. revert Hok2. apply ok_owners.
  unfold zones. simpl. rewrite concat_app. simpl. by rewrite app_nil_r, app_assoc.
Qed.

Variable max : Z.
Hypothesis max_pos : 0 <= max <= cap.

Lemma reserve_agrees others c s : ok others s -> sized s -> ctx_rel c (cx s) ->
  agrees_ok eq (fun _ => others) (UnpackerV1.reserve_buffer malloc_ok max (with_ctx c s)) (reserve_buffer malloc_ok max s).
Proof.
  intros Hok Hsz Hc. split; [by apply sim_reserve|]. intros [] s' E. split; [|by eapply reserve_sized].
  pose proof (reserve_ok malloc_ok bound_cap max others s Hok max_pos) as H. rewrite E in H. apply H.
Qed.

(** What the caller writes into the buffer, and says. *)
Lemma receive_agrees d others c s : ok others s -> sized s -> ctx_rel c (cx s) ->
  agrees_ok eq (fun _ => others)
    (UnpackerV1.bind (UnpackerV1.write_buffer d) (fun _ => UnpackerV1.buffer_consumed (len d)) (with_ctx c s))
    (bind (write_buffer d) (fun _ => buffer_consumed (len d)) s).
Proof.
  intros Hok Hsz Hc. split.
  - apply (sim_bind eq); [apply sim_write|intros; apply sim_consumed|done].
  - intros [] s' E. destruct (Z.leb_spec (len d) (m_free s)) as [Hd|Hd].
    + destruct (receive_ok d others s Hok Hd) as (s1 & E1 & Hok1 & _ & _ & _ & Hf). rewrite E1 in E.
      injection E as <-. split; [done|]. revert E1. unfold write_buffer, buffer_consumed, bind, get, modify.
      destruct (_ <? _); [done|]. intros [= <-]. unfold sized in *. simpl in *. rewrite Hf.
      pose proof (len_nonneg d). destruct Hok. rewrite wrap_small by lia. lia.
    + revert E. unfold write_buffer, bind, get. destruct (Z.ltb_spec (m_free s) (len d)); [done|lia].
Qed.

Lemma bind_assoc1 {A B C} (m : UnpackerV1.M A) (k : A -> UnpackerV1.M B) (k' : B -> UnpackerV1.M C) s :
  UnpackerV1.bind m (fun a => UnpackerV1.bind (k a) k') s = UnpackerV1.bind (UnpackerV1.bind m k) k' s.
Proof. unfold UnpackerV1.bind. destruct (m s) as [[a s']|e]; [|done]. done. Qed.

Lemma bind_assoc2 {A B C} (m : M A) (k : A -> M B) (k' : B -> M C) s :
  bind m (fun a => bind (k a) k') s = bind (bind m k) k' s.
Proof. unfold bind. destruct (m s) as [[a|e] s']; done. Qed.

Lemma get_agrees others c s : ok others s -> sized s -> ctx_rel c (cx s) ->
  agrees_ok same_state (fun _ => others) (UnpackerV1.get (with_ctx c s)) (get s).
Proof. intros. split; [by apply sim_get|]. by intros b s' [= <- <-]. Qed.

Lemma on_chunk_agrees d others c s : ok others s -> sized s -> ctx_rel c (cx s) ->
  agrees_ok (Forall2 same_handle) (fun hs => zones hs ++ others)
    (UnpackerV1.on_chunk malloc_ok max d (with_ctx c s)) (on_chunk malloc_ok max d s).
Proof.
  intros Hok Hsz Hc. unfold UnpackerV1.on_chunk, on_chunk.
  rewrite (bind_assoc1 (UnpackerV1.write_buffer d) (fun _ => UnpackerV1.buffer_consumed (len d)) (fun _ => _)).
  rewrite (bind_assoc2 (write_buffer d) (fun _ => buffer_consumed (len d)) (fun _ => _)).
  eapply agrees_ok_bind; [by apply receive_agrees|]. intros ? ? c1 s1 _ Hc1 Hok1 Hsz1.
  eapply agrees_ok_bind; [by apply get_agrees|]. intros ? s1' c2 s2 (c' & -> & _) Hc2 Hok2 Hsz2.
  eapply agrees_ok_bind; [by apply drain_agrees|]. intros hs1 hs c3 s3 Hhs Hc3 Hok3 Hsz3.
  eapply agrees_ok_bind; [by apply get_agrees|]. intros ? s4' c4 s4 (c'' & -> & _) Hc4 Hok4 Hsz4.
  eapply (agrees_ok_bind eq _ (fun _ => zones hs ++ others)).
  - unfold UnpackerV1.buffer_capacity, buffer_capacity. simpl.
    destruct (_ <? max); [by apply reserve_agrees|by apply agrees_ok_ret].
  - intros ? ? c5 s5 _ Hc5 Hok5 Hsz5. by apply agrees_ok_ret.
Qed.

Lemma on_chunks_agrees ds : forall others c s, ok others s -> sized s -> ctx_rel c (cx s) ->
  agrees (Forall2 same_handle) (UnpackerV1.on_chunks malloc_ok max ds (with_ctx c s)) (on_chunks malloc_ok max ds s).
Proof.
  induction ds as [|d ds IH]; intros others c s Hok Hsz Hc; cbn [on_chunks UnpackerV1.on_chunks].
  - by apply (sim_ret (Forall2 same_handle)).
  - destruct (on_chunk_agrees d others c s Hok Hsz Hc) as [Ha Ho]. eapply agrees_bind; [exact Ha|].
    intros hs1 hs c1 s1 E Hhs Hc1. destruct (Ho _ _ E) as [Hok1 Hsz1].
    eapply agrees_bind; [by eapply IH|]. intros hs1' hs' c2 s2 _ Hhs' Hc2.
    apply (sim_ret (Forall2 same_handle)); [by apply Forall2_app|done].
Qed.

Lemma new_agrees f initial lim s1 s2 : limits_ok (Some f) lim ->
  UnpackerV1.new_unpacker malloc_ok f initial lim = Ok s1 -> new_unpacker malloc_ok f initial lim = Ok s2 ->
  exists c, s1 = with_ctx c s2 /\ ctx_rel c (cx s2) /\ ok [] s2 /\ sized s2.
Proof.
  intros Hl H1 H2. destruct (new_ok _ _ _ _ _ bound_cap H2) as (Hok & _ & _). revert H1 H2.
  unfold UnpackerV1.new_unpacker, new_unpacker. set (n := if initial <? COUNTER_SIZE then COUNTER_SIZE else initial).
  assert (4 <= n) by (unfold n, COUNTER_SIZE; destruct (Z.ltb_spec initial 4); lia).
  destruct (malloc_ok n) eqn:E; [|done]. apply malloc_bound in E. intros [= <-] [= <-].
  eexists. split; [reflexivity|]. split; [by apply fresh_rel|]. split; [done|].
  unfold COUNTER_SIZE. apply wrapped_room; lia.
Qed.

(** ** The end of a connection *)

Lemma finalizers1 z os c s : ctx_rel c (cx s) -> counted (counts s) (z ++ os) ->
  exists s' c', UnpackerV1.call_finalizers z (with_ctx c s) = Ok (tt, with_ctx c' s') /\ counted (counts s') os /\
    m_buffer s' = m_buffer s /\ m_z s' = m_z s /\ ctx_rel c' (cx s').
Proof.
  intros Hc Hn. destruct (finalizers_ok z os s Hn) as (s' & E & H). pose proof (sim_finalizers z c s Hc) as Ha.
  rewrite E in Ha. destruct Ha as ([] & c' & Ha & _ & Hc'). exists s', c'. split_and!; try apply H; done.
Qed.

Lemma drop_handles1 : forall hs1 hs os c s, Forall2 same_handle hs1 hs -> ctx_rel c (cx s) ->
  counted (counts s) (concat (map zone_of hs) ++ os) ->
  exists s' c', UnpackerV1.drop_handles hs1 (with_ctx c s) = Ok (tt, with_ctx c' s') /\ counted (counts s') os /\
    m_buffer s' = m_buffer s /\ m_z s' = m_z s /\ ctx_rel c' (cx s').
Proof.
  induction hs1 as [|h1 hs1 IH]; intros hs os c s Hh Hc Hn; inversion Hh as [|? h ? hs' [Ez _] Hhs]; subst.
  { by exists s, c. }
  cbn [UnpackerV1.drop_handles map concat] in *. rewrite <- app_assoc in Hn.
  destruct (finalizers1 _ _ _ _ Hc Hn) as (s1 & c1 & E1 & Hn1 & Hb1 & Hz1 & Hc1).
  assert (E : UnpackerV1.drop_handle h1 (with_ctx c s) = Ok (tt, with_ctx c1 s1)).
  { unfold UnpackerV1.drop_handle. rewrite Ez. unfold zone_of in E1. by destruct (h_zone h). }
  destruct (IH _ _ _ _ Hhs Hc1 Hn1) as (s2 & c2 & E2 & Hn2 & Hb2 & Hz2 & Hc2). exists s2, c2.
  unfold UnpackerV1.bind. rewrite E, E2. split_and!; congruence || done.
Qed.

(** Both orders of destruction release what is left. *)
Lemma destroy1 c s : ctx_rel c (cx s) -> counted (counts s) (m_buffer s :: m_z s) ->
  exists s', UnpackerV1.destroy (with_ctx c s) = Ok (tt, s') /\ UnpackerV1.counts s' = ∅.
Proof.
  intros Hc Hn. destruct (finalizers1 [m_buffer s] (m_z s) c s Hc Hn) as (s1 & c1 & E1 & Hn1 & _ & Hz1 & Hc1).
  rewrite <- (app_nil_r (m_z s)) in Hn1. destruct (finalizers1 _ _ _ _ Hc1 Hn1) as (s2 & c2 & E2 & Hn2 & _).
  cbn [UnpackerV1.call_finalizers] in E1.
  unfold UnpackerV1.destroy, UnpackerV1.bind, UnpackerV1.get, UnpackerV1.modify, UnpackerV1.ret in *. simpl in *.
  destruct (UnpackerV1.decr_count _ _) as [[[] s3]|e]; [|done]. injection E1 as ->. rewrite E2.
  eexists. split; [done|]. apply map_eq. intros b. simpl. rewrite (Hn2 b). by rewrite lookup_empty.
Qed.
End Sized.

(** ** Claims *)

(** Room for a first read, and the reads. *)
Definition receive1 (malloc_ok : Z -> bool) (max : Z) (ds : list bytes)
    : UnpackerV1.M (list UnpackerV1.object_handle) :=
  UnpackerV1.bind (UnpackerV1.reserve_buffer malloc_ok max) (fun _ => UnpackerV1.on_chunks malloc_ok max ds).
Definition receive2 (malloc_ok : Z -> bool) (max : Z) (ds : list bytes) : M (list object_handle) :=
  bind (reserve_buffer malloc_ok max) (fun _ => on_chunks malloc_ok max ds).

Lemma receive_rel malloc_ok max f initial lim s1 s2 ds :
  (forall n, malloc_ok n = true -> n < 2 ^ 32) -> 0 <= max <= cap -> limits_ok (Some f) lim ->
  UnpackerV1.new_unpacker malloc_ok f initial lim = Ok s1 -> new_unpacker malloc_ok f initial lim = Ok s2 ->
  agrees (Forall2 same_handle) (receive1 malloc_ok max ds s1) (receive2 malloc_ok max ds s2).
Proof.
  intros Hm Hmax Hl H1 H2. destruct (new_agrees malloc_ok Hm _ _ _ _ _ Hl H1 H2) as (c & -> & Hc & Hok & Hsz).
  destruct (reserve_agrees malloc_ok Hm max Hmax [] c s2 Hok Hsz Hc) as [Ha Ho].
  eapply agrees_bind; [exact Ha|]. intros ? ? c' s' E _ Hc'. destruct (Ho _ _ E) as [Hok' Hsz'].
  by eapply on_chunks_agrees.
Qed.


(** *** The older unpacker as a receiver *)

Definition v1_receiver (malloc_ok : Z -> bool) (max : Z) (nesting : nat) : Receiver UnpackerV1.unpacker :=
  fun d s =>
    match UnpackerV1.on_chunk malloc_ok max d s with
    | Ok (hs, s') =>
      match mapM (UnpackerV1.h_get nesting) hs with
      | Some os => (Ok os, s')
      | None => (Throw out_of_fuel, s')
      end
    | Throw e => (Throw e, s)
    end.

Definition v1_awaiting (max : Z) (lim : unpack_limit) (d : bytes) (s : UnpackerV1.unpacker) : Prop :=
  exists c s2, s = with_ctx c s2 /\ ctx_rel c (cx s2) /\ sized s2 /\ unpacker_awaiting max lim d s2.

Lemma same_reads h1 h o n : same_handle h1 h -> reads_as h o -> (depth o <= n)%nat -> UnpackerV1.h_get n h1 = Some o.
Proof.
  intros [_ (o' & Ho)] Hr Hn. destruct (Ho (depth o + depth o')%nat ltac:(lia)) as [_ E].
  rewrite (Hr (depth o + depth o')%nat ltac:(lia)) in E. injection E as <-. by apply Ho.
Qed.

Lemma same_reads_all n : forall hs1 hs os, Forall2 same_handle hs1 hs -> Forall2 reads_as hs os ->
  Forall (fun o => (depth o <= n)%nat) os -> mapM (UnpackerV1.h_get n) hs1 = Some os.
Proof.
  induction hs1 as [|h1 hs1 IH]; intros hs os H1 H2 Hd; inversion H1; subst; inversion H2; subst; [done|].
  apply Forall_cons in Hd as [Hd Hds]. simpl. erewrite same_reads by done. simpl. by erewrite IH.
Qed.

Section Laws.
Context (malloc_ok : Z -> bool) (max : Z) (nesting : nat) (lim : unpack_limit).
Context (malloc_bound : forall n, malloc_ok n = true -> n < 2 ^ 32) (max_pos : 0 <= max <= cap).

Lemma v1_feed_ok d0 d s os rest :
  v1_awaiting max lim d0 s -> len d <= max -> len (d0 ++ d) < 2 ^ 32 ->
  stream lim (d0 ++ d) os rest -> Forall (fun o => (depth o <= nesting)%nat) os ->
  match v1_receiver malloc_ok max nesting d s with
  | (Ok os', s') => os' = os /\ v1_awaiting max lim rest s'
  | (Throw e, _) => e = bad_alloc
  end.
Proof.
  intros (c & s2 & -> & Hc & Hsz & others & c0 & Hr & Hl) Hd Hlen Hs Hn. unfold v1_receiver.
  pose proof (on_chunk_ok malloc_ok (bound_cap _ malloc_bound) max max_pos d os rest others s2 c0 d0 lim
    Hr Hl Hd Hlen Hs) as H.
  destruct (on_chunk_agrees malloc_ok malloc_bound max max_pos d others c s2 (proj1 Hr) Hsz Hc) as [Ha Ho].
  destruct (on_chunk malloc_ok max d s2) as [[hs|e] s']; simpl in Ha.
  - destruct Ha as (hs1 & c' & -> & Hhs & Hc'), H as (Hf & c1 & Hr1 & Hl1).
    rewrite (same_reads_all _ _ _ _ Hhs Hf Hn). split; [done|]. exists c', s'. split_and!; [done|done| |].
    + by eapply Ho.
    + by exists (zones hs ++ others), c1.
  - subst e. by destruct Ha as [| ->].
Qed.

Lemma v1_awaiting_short d s : v1_awaiting max lim d s -> decode lim d = Short.
Proof. intros (c & s2 & _ & _ & _ & H). by eapply unpacker_awaiting_short. Qed.

Definition v1_receiver_laws :
  @ReceiverLaws UnpackerV1.unpacker (v1_receiver malloc_ok max nesting) lim max nesting :=
  {| awaiting := v1_awaiting max lim : bytes -> UnpackerV1.unpacker -> Prop;
     awaiting_short := v1_awaiting_short;
     feed_ok := v1_feed_ok |}.
End Laws.

(** A new one, with room for a read. *)
Definition start_receiver1 (malloc_ok : Z -> bool) (max initial : Z) (lim : unpack_limit)
    : res unpacker_exn UnpackerV1.unpacker :=
  match UnpackerV1.new_unpacker malloc_ok default_reference_func initial lim with
  | Ok s =>
    match UnpackerV1.reserve_buffer malloc_ok max s with Ok (_, s) => Ok s | Throw e => Throw e end
  | Throw e => Throw e
  end.

Lemma start_receiver1_awaits malloc_ok max initial lim s
    (Hm : forall n, malloc_ok n = true -> n < 2 ^ 32) (Hmax : 0 <= max <= cap)
    (Hl : limits_ok (Some default_reference_func) lim) :
  start_receiver1 malloc_ok max initial lim = Ok s -> v1_awaiting max lim [] s.
Proof.
  unfold start_receiver1. destruct (UnpackerV1.new_unpacker _ _ _ _) as [s1|e] eqn:E1; [|done].
  assert (E2 : exists s2, new_unpacker malloc_ok default_reference_func initial lim = Ok s2).
  { revert E1. unfold UnpackerV1.new_unpacker, new_unpacker. destruct (malloc_ok _); [by eexists|done]. }
  destruct E2 as [s2 E2]. destruct (new_agrees malloc_ok Hm _ _ _ _ _ Hl E1 E2) as (c & -> & Hc & Hok & Hsz).
  destruct (reserve_agrees malloc_ok Hm max Hmax [] c s2 Hok Hsz Hc) as [Ha Ho].
  destruct (reserve_buffer malloc_ok max s2) as [[[]|e] s3] eqn:E3; simpl in Ha.
  - destruct Ha as (u & c' & -> & _ & Hc'). intros [= <-]. destruct (Ho _ _ eq_refl) as [Hok3 Hsz3].
    exists c', s3. split_and!; [done|done|done|]. apply (start_receiver_awaits malloc_ok max initial lim s3 (bound_cap _ Hm) Hmax).
    unfold start_receiver. by rewrite E2, E3.
  - pose proof (reserve_ok malloc_ok (bound_cap _ Hm) max [] s2 Hok Hmax) as Hr. rewrite E3 in Hr. simpl in Hr. subst e.
    by destruct Ha as [| ->].
Qed.

Lemma small_malloc_sized n : small_malloc n = true -> n < 2 ^ 32.
Proof. unfold small_malloc. intros H%Z.leb_le. lia. Qed.

(** Three chunks: the first object ends in the last, which also begins a second. *)
Definition chunks1 : list bytes := [[chr 0x93; chr 1]; [chr 0xc0; chr 0xa2; chr 65]; [chr 66; chr 0x92]].
Definition first1 : UnpackerV1.unpacker :=
  match UnpackerV1.new_unpacker small_malloc default_reference_func 64 default_limit with
  | Ok s => s
  | Throw _ => with_ctx (UnpackV1.new_context (UnpackV1.new_user None default_limit))
                 {| mem := []; m_buffer := 0; m_used := 0; m_free := 0; m_off := 0; m_parsed := 0;
                    m_initial_buffer_size := 0; cx := new_context (new_visitor None default_limit);
                    m_z := []; counts := ∅; next_id := 0 |}
  end.


(** What the chunks are to it. *)
Example receive_sample :
  match receive1 small_malloc 8 chunks1 first1 with
  | Ok (hs, s) => mapM (UnpackerV1.h_get 5) hs = Some [ARRAY [POSITIVE_INTEGER 1; NIL; STR [chr 65; chr 66]]] /\
      UnpackerV1.nonparsed_size s = 0 /\ UnpackerV1.message_size s = 1
  | Throw _ => False
  end /\
  receive1 small_malloc 8 [[chr 0x01; chr 0xc1]] first1 = Throw (unpack_error parse_error_exn).
Proof. vm_compute. done. Qed.
