(* ===== verification/Server.v ===== *)
(** * The server and its sessions

    Models [server_session] (detail/server_session.h and .cc) and [server]
    (lib/rpc/server.cc) as one state that events change: the sessions, each with its
    unpacker, writer and write strand; the work posted to the io_service; the
    worker threads with their thread-local state; the acceptor. A worker may
    take any posted work ([Work]), and the tasks of a strand run in order but on any
    worker ([Strand]). A handler runs in one step.

    A lambda that captured [self] keeps its session alive; those of the session exit
    and the server exit captured only [this], and running one on a session
    that is gone is [Undefined]. An exception that leaves an event leaves
    io_service::run, and with it ends the program when a worker thread runs it. *)

From S2P Require Import Prelude FloatBits MsgObject Visitor Adaptors Handler Response Dispatcher.
From S2P Require Import AsyncWriter Unpacker Receiver.

#[local] Open Scope handler_scope.

Section Server.
Context {rx : Type} `{Receiver rx}.
Variable new_pac : rx.                     (* a new unpacker, with room for a read *)
Variable unset : object -> Z.
Variable disp_ : dispatcher.
Variable suppress_exceptions_ : bool.

(** ** The state *)

Inductive task :=
| TWrite (resp : response) (z : Z)         (* write(resp.get_data()), holding the message's zone *)
| TShutdown                                (* the socket is shut down and closed *)
| TCloseSession                            (* parent_->close_session(self) *)
| TClose                                   (* close() *)
| TCloseSessions.                          (* parent_->close_sessions() *)

Record session := {
  pac : rx;
  writer : async_writer;
  strand : list task;
  is_reading : bool;                       (* an async_read_some is under way *)
}.

Record job := { j_session : Z; j_msg : object; j_zone : Z }.

Record server := {
  sessions : gmap Z session;
  sessions_ : list Z;                      (* what the server itself keeps alive *)
  next_session : Z;
  jobs : list job;                         (* posted to the io_service *)
  workers : gmap Z locals;                 (* the threads' thread-local state *)
  memory : zones;
  output : bytes;
  accepting : option bool;                 (* an async_accept is under way; cancelled? *)
}.

Definition new_server : server :=
  {| sessions := ∅; sessions_ := []; next_session := 0; jobs := []; workers := ∅;
     memory := no_zones; output := []; accepting := Some false |}.

Definition set_sessions (m : gmap Z session) (s : server) : server :=
  {| sessions := m; sessions_ := sessions_ s; next_session := next_session s; jobs := jobs s;
     workers := workers s; memory := memory s; output := output s; accepting := accepting s |}.
Definition set_listed (l : list Z) (s : server) : server :=
  {| sessions := sessions s; sessions_ := l; next_session := next_session s; jobs := jobs s;
     workers := workers s; memory := memory s; output := output s; accepting := accepting s |}.
Definition set_jobs (l : list job) (s : server) : server :=
  {| sessions := sessions s; sessions_ := sessions_ s; next_session := next_session s; jobs := l;
     workers := workers s; memory := memory s; output := output s; accepting := accepting s |}.
Definition set_memory (z : zones) (s : server) : server :=
  {| sessions := sessions s; sessions_ := sessions_ s; next_session := next_session s;
     jobs := jobs s; workers := workers s; memory := z; output := output s;
     accepting := accepting s |}.
Definition set_accepting (a : option bool) (s : server) : server :=
  {| sessions := sessions s; sessions_ := sessions_ s; next_session := next_session s;
     jobs := jobs s; workers := workers s; memory := memory s; output := output s;
     accepting := a |}.
Definition put_session (sid : Z) (x : session) (s : server) : server :=
  set_sessions (<[sid := x]> (sessions s)) s.

Definition with_writer (w : async_writer) (x : session) : session :=
  {| pac := pac x; writer := w; strand := strand x; is_reading := is_reading x |}.
Definition with_strand (l : list task) (x : session) : session :=
  {| pac := pac x; writer := writer x; strand := l; is_reading := is_reading x |}.
Definition with_pac (p : rx) (x : session) : session :=
  {| pac := p; writer := writer x; strand := strand x; is_reading := is_reading x |}.
Definition with_reading (b : bool) (x : session) : session :=
  {| pac := pac x; writer := writer x; strand := strand x; is_reading := b |}.

(** Is anything keeping the session alive? *)
Definition holds_self (t : task) : bool :=
  match t with TWrite _ _ | TShutdown | TCloseSession => true | TClose | TCloseSessions => false end.

Definition kept_alive (s : server) (sid : Z) : bool :=
  bool_decide (sid ∈ sessions_ s) || existsb (fun j => j_session j =? sid) (jobs s) ||
  match sessions s !! sid with
  | Some x => is_reading x || pending (writer x) || existsb holds_self (strand x)
  | None => false
  end.

(** ** Running code on a worker *)

Definition env_of (s : server) (t : Z) : env :=
  {| loc := default new_locals (workers s !! t); heap := memory s; console := output s |}.

Definition commit (s : server) (t : Z) (e : env) : server :=
  {| sessions := sessions s; sessions_ := sessions_ s; next_session := next_session s;
     jobs := jobs s; workers := <[t := loc e]> (workers s); memory := heap e;
     output := console e; accepting := accepting s |}.

Definition this_server_stopping (s : server) (t : Z) : bool := stopping_ (loc (env_of s t)).

(** ** [server_session] *)

(** [server_session::close]: the flag at once, the rest posted to the strand. *)
Definition close_session_of (x : session) : session :=
  {| pac := pac x; writer := close (writer x); strand := strand x ++ [TShutdown; TCloseSession];
     is_reading := is_reading x |}.

(** What the posted work does with a message: the tasks it posts to the strand. *)
Definition handle_message (sid : Z) (msg : object) (z : Z) : H (list task) :=
  do! _ := clear_handler in
  do! _ := clear_session in
  do! _ := set_id sid in
  do! _ := cancel_stop in
  do! resp := dispatch unset disp_ msg suppress_exceptions_ in
  do! e := hget in
  if negb (resp_enabled_ (this_handler (loc e))) then hret []
  else
    do! resp :=
      (if negb (is_nil (h_obj (error_ (this_handler (loc e)))))
       then capture_error (error_ (this_handler (loc e))) resp
       else if negb (is_nil (h_obj (resp_ (this_handler (loc e)))))
       then capture_result (resp_ (this_handler (loc e))) resp
       else hret resp) in
    hret ((if r_empty resp then [] else [TWrite resp z]) ++
          (if exit_ (this_session (loc e)) then [TClose] else []) ++
          (if stopping_ (loc e) then [TCloseSessions] else [])).

(** Does a posted task hold on to the message's zone? *)
Definition keeps_zone (ts : list task) : bool :=
  existsb (fun t => match t with TWrite _ _ => true | _ => false end) ts.

Definition run_job (t : Z) (j : job) (s : server) : outcome server :=
  match handle_message (j_session j) (j_msg j) (j_zone j) (env_of s t) with
  | (Returns ts, e) =>
    let s := commit s t e in
    let s := if keeps_zone ts then s else set_memory (free_zone (Some (j_zone j)) (memory s)) s in
    match sessions s !! j_session j with
    | Some x => Returns (put_session (j_session j) (with_strand (strand x ++ ts) x) s)
    | None => Undefined
    end
  | (Raises x, _) => Raises x
  | (Undefined, _) => Undefined
  end.

(** The zones a response owns, and its message's, go with the lambda. *)
Definition free_response (resp : response) (z : Z) (m : zones) : zones :=
  let own h := match h with Some h => h_own h | None => None end in
  free_zone (Some z) (free_zone (own (r_result resp)) (free_zone (own (r_error resp)) m)).

Definition post_messages (sid : Z) (os : list object) (s : server) : server :=
  fold_left (fun s o =>
    let '(z, m) := new_zone (memory s) in
    set_memory m (set_jobs (jobs s ++ [{| j_session := sid; j_msg := o; j_zone := z |}]) s)) os s.

Definition of_unpacker_exn {A} (e : unpacker_exn) : outcome A :=
  match e with
  | bad_alloc => Raises (std_exception (str "std::bad_alloc"))
  | unpack_error invalid_access => Undefined
  | unpack_error e => Raises (std_exception (unpack_what e))
  | use_after_free | buffer_overflow | out_of_fuel => Undefined
  end.

(** The completion of a read: with bytes, with a disconnection, or with another error. *)
Definition on_read (sid : Z) (d : bytes) (x : session) (s : server) : outcome server :=
  if is_closed (writer x) then Returns (put_session sid (with_reading false x) s)
  else match feed d (pac x) with
  | (Ok os, p) => Returns (post_messages sid os (put_session sid (with_pac p x) s))
  | (Throw e, _) => of_unpacker_exn e
  end.

Definition on_disconnected (sid : Z) (x : session) (s : server) : server :=
  let x := with_reading false x in
  put_session sid (if is_closed (writer x) then x else close_session_of x) s.

Definition on_read_error (sid : Z) (x : session) (s : server) : server :=
  put_session sid (with_reading false x) s.

(** ** [server] *)

(** [start_accept]'s handler. The session reads before it is listed; the acceptor
    goes on unless the thread that runs this was told to stop. *)
Definition on_accept (t : Z) (ok : bool) (s : server) : server :=
  let s := if ok then
      let sid := next_session s in
      let x := {| pac := new_pac; writer := new_writer; strand := []; is_reading := true |} in
      {| sessions := <[sid := x]> (sessions s); sessions_ := sessions_ s ++ [sid];
         next_session := sid + 1; jobs := jobs s; workers := workers s; memory := memory s;
         output := output s; accepting := accepting s |}
    else s in
  set_accepting (if this_server_stopping s t then None else Some false) s.

Definition close_sessions (t : Z) (s : server) : server :=
  let sessions_copy := sessions_ s in
  let s := set_listed [] s in
  let s := fold_left (fun s sid =>
    match sessions s !! sid with
    | Some x => put_session sid (close_session_of x) s
    | None => s
    end) sessions_copy s in
  if this_server_stopping s t then set_accepting (match accepting s with Some _ => Some true | None => None end) s
  else s.

Fixpoint remove_first (sid : Z) (l : list Z) : list Z :=
  match l with
  | [] => []
  | x :: l => if x =? sid then l else x :: remove_first sid l
  end.

Definition close_session (sid : Z) (s : server) : server :=
  set_listed (remove_first sid (sessions_ s)) s.

(** ** The write strand *)

Definition run_task (t sid : Z) (k : task) (x : session) (s : server) : outcome server :=
  match k with
  | TWrite resp z =>
    match get_data resp (env_of s t) with
    | (Returns d, _) =>
      match write d (writer x) with
      | Returns w =>
        Returns (set_memory (free_response resp z (memory s)) (put_session sid (with_writer w x) s))
      | Raises e => Raises e
      | Undefined => Undefined
      end
    | (Raises e, _) => Raises e
    | (Undefined, _) => Undefined
    end
  | TShutdown => Returns (put_session sid (with_writer (close_socket (writer x)) x) s)
  | TCloseSession => Returns (close_session sid s)
  | TClose => if kept_alive s sid then Returns (put_session sid (close_session_of x) s) else Undefined
  | TCloseSessions => if kept_alive s sid then Returns (close_sessions t s) else Undefined
  end.

(** ** Events *)

Inductive event :=
| Accepted (t : Z) (ok : bool)
| Received (sid : Z) (d : bytes)
| Disconnected (sid : Z)
| ReadError (sid : Z)
| Work (t : Z) (k : nat)
| Strand (t sid : Z)
| WriteDone (sid : Z)
| WriteFailed (sid : Z) (transferred : nat).

Definition update_writer (sid : Z) (x : session) (o : outcome async_writer) (s : server)
    : outcome server :=
  match o with
  | Returns w => Returns (put_session sid (with_writer w x) s)
  | Raises e => Raises e
  | Undefined => Undefined
  end.

(** One event; [None] when it cannot happen. *)
Definition step (ev : event) (s : server) : option (outcome server) :=
  match ev with
  | Accepted t ok =>
    match accepting s with
    | None => None
    | Some cancelled => if ok && cancelled then None else Some (Returns (on_accept t ok s))
    end
  | Received sid d =>
    x ← sessions s !! sid; if is_reading x : bool then Some (on_read sid d x s) else None
  | Disconnected sid =>
    x ← sessions s !! sid;
    if is_reading x : bool then Some (Returns (on_disconnected sid x s)) else None
  | ReadError sid =>
    x ← sessions s !! sid;
    if is_reading x : bool then Some (Returns (on_read_error sid x s)) else None
  | Work t k =>
    j ← jobs s !! k;
    let s := set_jobs (take k (jobs s) ++ drop (Datatypes.S k) (jobs s)) s in
    Some (run_job t j s)
  | Strand t sid =>
    x ← sessions s !! sid;
    match strand x with
    | [] => None
    | k :: ks =>
      let x := with_strand ks x in
      Some (run_task t sid k x (put_session sid x s))
    end
  | WriteDone sid =>
    x ← sessions s !! sid;
    if pending (writer x) then Some (update_writer sid x (on_sent (writer x)) s) else None
  | WriteFailed sid n =>
    x ← sessions s !! sid;
    if pending (writer x) then Some (update_writer sid x (on_send_error n (writer x)) s) else None
  end.

Fixpoint run (evs : list event) (s : server) : option (outcome server) :=
  match evs with
  | [] => Some (Returns s)
  | ev :: evs =>
    match step ev s with
    | Some (Returns s) => run evs s
    | o => o
    end
  end.

Lemma run_app evs evs' : forall s s', run evs s = Some (Returns s') -> run (evs ++ evs') s = run evs' s'.
Proof.
  induction evs as [|ev evs IH]; intros s s' E; simpl in *; [by injection E as ->|].
  destruct (step ev s) as [[s1|x|]|]; [by apply IH|done..].
Qed.

End Server.
