(* ===== verification/ServerSpec.v ===== *)
(** * What the server promises

    A request that arrives is answered on its own connection with the outcome of
    the function it names; what a connection is sent is always a sequence of whole
    responses; and the ways in which a peer or a handler can bring the server down. *)

From S2P Require Import Prelude FloatBits MsgObject Pack Visitor Format Decode Adaptors AdaptorLaws.
From S2P Require Import Handler Response Dispatcher DispatcherSpec AsyncWriter Receiver Server.

#[local] Open Scope handler_scope.

(** The environment a function starts in. *)
Definition enter (sid : Z) (e : env) : env :=
  set_loc {| this_handler := {| error_ := set_object (error_ (this_handler (loc e))) NIL None;
                                resp_ := set_object (resp_ (this_handler (loc e))) NIL None;
                                resp_enabled_ := true |};
             this_session := {| exit_ := false; id_ := sid |};
             stopping_ := false |} e.

(** A handler that used none of its thread-local objects. *)
Definition plain_locals (l : locals) : Prop :=
  h_obj (error_ (this_handler l)) = NIL /\ h_obj (resp_ (this_handler l)) = NIL /\
  resp_enabled_ (this_handler l) = true /\ exit_ (this_session l) = false /\ stopping_ l = false.

Section Spec.
Context {rx : Type} {HR : Receiver rx} {lim : unpack_limit} {max : Z} {nesting : nat}.
Context {HL : @ReceiverLaws rx HR lim max nesting}.
Variable new_pac : rx.
Variable unset : object -> Z.
Variable disp_ : dispatcher.
Variable suppress : bool.

Abbreviation step := (step (rx := rx) new_pac unset disp_ suppress).
Abbreviation run := (run (rx := rx) new_pac unset disp_ suppress).
Abbreviation handle_message := (handle_message unset disp_ suppress).

(** After the dispatch: what is posted, by precedence. *)
Definition reply (resp : response) (z : Z) (l : locals) : H (list task) :=
  if negb (resp_enabled_ (this_handler l)) then hret []
  else
    do! resp :=
      (if negb (is_nil (h_obj (error_ (this_handler l)))) then capture_error (error_ (this_handler l)) resp
       else if negb (is_nil (h_obj (resp_ (this_handler l))))
       then capture_result (resp_ (this_handler l)) resp
       else hret resp) in
    hret ((if r_empty resp then [] else [TWrite resp z]) ++
          (if exit_ (this_session l) then [TClose] else []) ++
          (if stopping_ l then [TCloseSessions] else [])).

Lemma handle_message_enter sid msg z e :
  handle_message sid msg z e =
    match dispatch unset disp_ msg suppress (enter sid e) with
    | (Returns resp, e') => reply resp z (loc e') e'
    | (Raises t, e') => (Raises t, e')
    | (Undefined, e') => (Undefined, e')
    end.
Proof. reflexivity. Qed.

Lemma reply_plain resp z l e :
  plain_locals l -> r_empty resp = false -> reply resp z l e = (Returns [TWrite resp z], e).
Proof. intros (E1 & E2 & E3 & E4 & E5) Hr. unfold reply. rewrite E1, E2, E3, E4, E5.
  simpl. unfold hbind, hret. by rewrite Hr. Qed.

(** ** One request, from its bytes to the bytes of its answer *)

Definition quiet (x : session (rx := rx)) : Prop :=
  is_reading x = true /\ strand x = [] /\ write_queue (writer x) = [] /\ pending (writer x) = false /\
  writer_exit (writer x) = false.

(** The answer to [msg] on this server is a response with these parts. *)
Definition answers (sid : Z) (msg : object) (z : Z) (e : env) (id : Z) (error result : object) : Prop :=
  exists r e', handle_message sid msg z e = (Returns [TWrite r z], e') /\
    r_id r = id /\ held (r_error r) = error /\ held (r_result r) = result /\ intact (heap e') r = true.

Lemma write_quiet (x : session (rx := rx)) d : quiet x ->
  write d (writer x) = Returns {| write_queue := [d]; writer_exit := false; pending := true;
                                  is_open := is_open (writer x); wire := wire (writer x) |}.
Proof.
  intros (_ & _ & Hq & Hp & He). unfold write, do_write, set_queue, set_pending. simpl.
  rewrite Hq, He. simpl. by rewrite Hp.
Qed.

(** ** Single events *)

Lemma step_received sid d x s os p :
  sessions s !! sid = Some x -> is_reading x = true -> writer_exit (writer x) = false ->
  feed d (pac x) = (Ok os, p) ->
  step (Received sid d) s = Some (Returns (post_messages sid os (put_session sid (with_pac p x) s))).
Proof.
  intros Hx Hr He Hf. unfold Server.step, on_read, is_closed. rewrite Hx. simpl.
  by rewrite Hr, He, Hf.
Qed.

Definition after_job (t : Z) (j : job) (ts : list task) (e' : env) (s : server (rx := rx)) : server :=
  let s := commit s t e' in
  if keeps_zone ts then s else set_memory (free_zone (Some (j_zone j)) (memory s)) s.

Lemma step_work t j js s x ts e' :
  jobs s = j :: js -> sessions s !! j_session j = Some x ->
  handle_message (j_session j) (j_msg j) (j_zone j) (env_of s t) = (Returns ts, e') ->
  step (Work t 0) s = Some (Returns (put_session (j_session j) (with_strand (strand x ++ ts) x)
    (after_job t j ts e' (set_jobs js s)))).
Proof.
  intros Hj Hx Hm.
  assert (E : step (Work t 0) s = Some (run_job unset disp_ suppress t j (set_jobs js s)))
    by (unfold Server.step; by rewrite Hj).
  rewrite E. unfold run_job. change (env_of (set_jobs js s) t) with (env_of s t). rewrite Hm.
  fold (after_job t j ts e' (set_jobs js s)).
  replace (sessions (after_job t j ts e' (set_jobs js s))) with (sessions s)
    by (unfold after_job; by destruct (keeps_zone ts)).
  by rewrite Hx.
Qed.

Lemma step_write t sid s x r z ks d w e' :
  sessions s !! sid = Some x -> strand x = TWrite r z :: ks ->
  get_data r (env_of s t) = (Returns d, e') -> write d (writer x) = Returns w ->
  step (Strand t sid) s = Some (Returns (set_memory (free_response r z (memory s))
    (put_session sid (with_writer w (with_strand ks x)) (put_session sid (with_strand ks x) s)))).
Proof.
  intros Hx Hs Hd Hw. unfold Server.step. rewrite Hx. simpl. rewrite Hs. unfold run_task.
  change (env_of (put_session sid (with_strand ks x) s) t) with (env_of s t).
  rewrite Hd. simpl. by rewrite Hw.
Qed.

Lemma step_sent sid s x w :
  sessions s !! sid = Some x -> pending (writer x) = true -> on_sent (writer x) = Returns w ->
  step (WriteDone sid) s = Some (Returns (put_session sid (with_writer w x) s)).
Proof. intros Hx Hp Hw. unfold Server.step. rewrite Hx. simpl. by rewrite Hp, Hw. Qed.

Lemma lookup_put sid x (s : server (rx := rx)) : sessions (put_session sid x s) !! sid = Some x.
Proof. apply lookup_insert_eq. Qed.

(** The events of one request: its read, its work, its write. *)
Definition one_request (t t' sid : Z) (d : bytes) : list event :=
  [Received sid d; Work t 0; Strand t' sid; WriteDone sid].

(** The environment its function runs in. *)
Definition request_env (t : Z) (s : server (rx := rx)) : env :=
  env_of (set_memory (snd (new_zone (memory s))) s) t.

Lemma serve_one t t' sid d d0 x s msg rest id error result :
  sessions s !! sid = Some x -> quiet x -> jobs s = [] ->
  awaiting d0 (pac x) -> len d <= max -> len (d0 ++ d) < 2 ^ 32 ->
  stream lim (d0 ++ d) [msg] rest -> (depth msg <= nesting)%nat -> 0 <= id < 2 ^ 32 ->
  answers sid msg (next_zone (memory s)) (request_env t s) id error result ->
  match run (one_request t t' sid d) s with
  | Some (Returns s') => exists x', sessions s' !! sid = Some x' /\ quiet x' /\ jobs s' = [] /\
      awaiting rest (pac x') /\
      wire (writer x') = wire (writer x) ++ encode (response_object id error result)
  | Some (Raises t) => t = std_exception (str "std::bad_alloc")
  | _ => False
  end.
Proof.
  intros Hx Hq Hj Haw Hd Hsz Hst Hn Hid (r & e' & Hm & <- & <- & <- & Hint).
  pose proof Hq as (Hr & Hs & Hwq & Hp & He). unfold one_request. cbn [Server.run].
  pose proof (feed_ok d0 d (pac x) [msg] rest Haw Hd Hsz Hst ltac:(by repeat constructor)) as Hf.
  destruct (feed d (pac x)) as [[os|e] p] eqn:Ef.
  2: { unfold Server.step at 1. rewrite Hx. simpl. rewrite Hr. unfold on_read, is_closed.
       by rewrite He, Ef, Hf. }
  destruct Hf as [-> Haw']. rewrite (step_received _ _ _ _ _ _ Hx Hr He Ef).
  set (s1 := post_messages _ _ _). set (j := {| j_session := sid; j_msg := msg; j_zone := next_zone (memory s) |}).
  assert (Hj1 : jobs s1 = [j]) by (unfold s1; simpl; by rewrite Hj).
  assert (Hx1 : sessions s1 !! sid = Some (with_pac p x)) by apply lookup_insert_eq.
  rewrite (step_work t j [] s1 _ [TWrite r (next_zone (memory s))] e' Hj1 Hx1 Hm).
  set (s2 := put_session _ _ _).
  assert (Hx2 : sessions s2 !! sid = Some (with_strand [TWrite r (next_zone (memory s))] (with_pac p x)))
    by (unfold s2; rewrite lookup_put; simpl; by rewrite Hs).
  assert (Hd2 : get_data r (env_of s2 t') = (Returns
    (encode (response_object (r_id r) (held (r_error r)) (held (r_result r)))), env_of s2 t'))
    by (apply get_data_ok; [exact Hid|exact Hint]).
  rewrite (step_write t' sid s2 _ r _ [] _ _ _ Hx2 eq_refl Hd2 (write_quiet x _ Hq)).
  set (w := {| write_queue := _ |}). set (s3 := set_memory _ _).
  assert (Hx3 : sessions s3 !! sid = Some (with_writer w (with_strand [] (with_pac p x)))) by apply lookup_put.
  rewrite (step_sent sid s3 _ _ Hx3 eq_refl eq_refl). eexists. split; [apply lookup_put|].
  by split_and!.
Qed.

(** The client's message answered: [msg] is a call and its function is bound. *)
Lemma answers_result d0 sid msg z e id name F os o e' :
  bind unset d0 name F = Ok disp_ -> is_call msg id name (ARRAY os) ->
  computes F os (enter sid e) o e' -> plain_locals (loc e') ->
  answers sid msg z e id NIL o.
Proof.
  intros Hb Hc Hf Hp.
  destruct (adaptor_computes unset name F os _ _ _ Hf) as (h & e'' & E & [Ho Hr] & [Hl _]).
  exists (make_result_handle id h), e''. rewrite handle_message_enter.
  rewrite (dispatch_is_call _ _ _ _ _ _ _ _ Hc), (bind_lookup _ _ _ _ _ Hb). unfold try_catch.
  rewrite (hbind_returns _ _ _ _ _ E). unfold hret at 1. cbn iota beta.
  rewrite reply_plain by (by rewrite ?Hl). split_and!; done.
Qed.

(** C2. A request is answered on its connection with the value of its function:
    whatever part of the message had come before, whichever workers take the work
    and the write, what the peer is sent grows by exactly the encoding of the
    response with the call's id, no error and the function's result; and the session is
    again as it was, awaiting the next message (or memory ran out). *)
Theorem request_answered t t' sid d d0 x s msg rest disp0 id name F os o e' :
  sessions s !! sid = Some x -> quiet x -> jobs s = [] ->
  awaiting d0 (pac x) -> len d <= max -> len (d0 ++ d) < 2 ^ 32 ->
  stream lim (d0 ++ d) [msg] rest -> (depth msg <= nesting)%nat -> 0 <= id < 2 ^ 32 ->
  bind unset disp0 name F = Ok disp_ -> is_call msg id name (ARRAY os) ->
  computes F os (enter sid (request_env t s)) o e' -> plain_locals (loc e') ->
  match run (one_request t t' sid d) s with
  | Some (Returns s') => exists x', sessions s' !! sid = Some x' /\ quiet x' /\ jobs s' = [] /\
      awaiting rest (pac x') /\
      wire (writer x') = wire (writer x) ++ encode (response_object id NIL o)
  | Some (Raises t) => t = std_exception (str "std::bad_alloc")
  | _ => False
  end.
Proof. intros. eapply serve_one; try done. by eapply answers_result. Qed.

(** ** Errors from a handler *)

(** The stored function ends with [respond_error] and the error [err]. *)
Definition rejects (func : adaptor_type) (args : object) (e : env) (err : object) (e' : env) : Prop :=
  func args e = (Raises handler_error, e') /\ err <> NIL /\
  h_obj (error_ (this_handler (loc e'))) = err /\
  readable (heap e') (error_ (this_handler (loc e'))) = true /\
  resp_enabled_ (this_handler (loc e')) = true /\ exit_ (this_session (loc e')) = false /\
  stopping_ (loc e') = false.

Lemma is_nil_false o : o <> NIL -> is_nil o = false.
Proof. by destruct o. Qed.

Lemma readable_grows e e' h : grows e e' -> readable (heap e) h = true -> readable (heap e') h = true.
Proof.
  intros (_ & _ & [-> | ->]) Hr; [done|]. unfold readable, is_live in *. destruct (h_in h) as [i|]; [|done].
  apply orb_true_iff in Hr as [->|Hr]; [done|]. apply bool_decide_eq_true in Hr.
  rewrite (bool_decide_eq_true_2 (i ∈ _)); [by rewrite orb_true_r|]. simpl. set_solver.
Qed.

Lemma answers_error sid msg z e id name func args err e' :
  is_call msg id name args -> disp_ !! name = Some (func : adaptor_type) ->
  rejects func args (enter sid e) err e' -> len (not_found_text unset name args) < 2 ^ 32 ->
  answers sid msg z e id err NIL.
Proof.
  intros Hc Hd (E & Hn & Ho & Hr & He & Hx & Hs) Hl.
  destruct (make_error_ok id _ e' Hl) as (h & e'' & Em & [_ Hh] & Hg).
  pose proof (proj1 Hg) as Hloc. set (eh := error_ (this_handler (loc e'))) in *.
  exists {| r_id := id; r_error := Some (set_object h (h_obj eh) (h_in eh)); r_result := None;
            r_empty := false |}, e''.
  rewrite handle_message_enter, (dispatch_is_call _ _ _ _ _ _ _ _ Hc), Hd.
  unfold try_catch. rewrite (hbind_raises _ _ _ _ _ E), Em. unfold reply.
  rewrite Hloc, He, Hx, Hs. fold eh. rewrite Ho, (is_nil_false _ Hn). split_and!; [|done|done|done|].
  - unfold capture_error, hbind, hret. simpl. by rewrite Ho.
  - unfold intact. simpl. rewrite andb_true_r.
    replace (readable (heap e'') (set_object h err (h_in eh))) with (readable (heap e'') eh)
      by (unfold readable; simpl; by rewrite Ho).
    by eapply readable_grows.
Qed.


(** ** How a message brings the server down *)

Definition is_notification (msg : object) (name : bytes) (args : object) : Prop :=
  exists ty tail, msg = ARRAY tail /\ length tail = 3%nat /\
    as_ notification_t msg = Ok (Tuple (ty, (name, (args, tt)))).

Lemma dispatch_is_notification msg name args func e :
  is_notification msg name args -> disp_ !! name = Some (func : adaptor_type) ->
  dispatch unset disp_ msg suppress e =
    try_catch (do! _ := func args in hret empty)
      (fun t => match t with
       | handler_error | handler_spec_response => hret empty
       | _ => if suppress then hret empty else raise t
       end) e.
Proof.
  intros (ty & l & -> & Hl & Has) Hd. assert (Hn : len l = 3) by (unfold len; lia).
  unfold dispatch. rewrite via_array_size_ARRAY, Hn by lia. simpl (3 =? 3). cbv beta zeta iota.
  unfold dispatch_notification. rewrite Has. unfold lift, hbind at 1, hret at 1. by rewrite Hd.
Qed.

Lemma step_work_fails t j js s e' :
  jobs s = j :: js ->
  (handle_message (j_session j) (j_msg j) (j_zone j) (env_of s t) = (Undefined, e') ->
   step (Work t 0) s = Some Undefined) /\
  (forall x, handle_message (j_session j) (j_msg j) (j_zone j) (env_of s t) = (Raises x, e') ->
   step (Work t 0) s = Some (Raises x)).
Proof.
  intros Hj.
  assert (E : step (Work t 0) s = Some (run_job unset disp_ suppress t j (set_jobs js s)))
    by (unfold Server.step; by rewrite Hj).
  rewrite E. unfold run_job. change (env_of (set_jobs js s) t) with (env_of s t).
  split; [|intros x]; by intros ->.
Qed.

(** A notification to a function that responds with an error is undefined behaviour: the
    response of a notification has no error object, and the error is written
    through its null pointer. *)
Theorem notification_error_undefined t j js s name func args err e' :
  jobs s = j :: js -> is_notification (j_msg j) name args ->
  disp_ !! name = Some (func : adaptor_type) ->
  rejects func args (enter (j_session j) (env_of s t)) err e' ->
  step (Work t 0) s = Some Undefined.
Proof.
  intros Hj Hm Hd (E & Hn & Ho & Hr & He & Hx & Hs).
  refine (proj1 (step_work_fails t j js s e' Hj) _).
  rewrite handle_message_enter, (dispatch_is_notification _ _ _ _ _ Hm Hd). unfold try_catch.
  rewrite (hbind_raises _ _ _ _ _ E). unfold hret, reply. by rewrite He, Ho, (is_nil_false _ Hn).
Qed.

(** A message of four elements that is not a call (an id that is not an
    unsigned 32-bit integer, a name that is not a string) ends the worker with an
    exception, even where exceptions are suppressed: the conversion is outside the
    dispatcher's [try]. *)
Theorem malformed_call_terminates t j js s l x :
  jobs s = j :: js -> j_msg j = ARRAY l -> length l = 4%nat ->
  as_ call_t (ARRAY l) = Throw x ->
  step (Work t 0) s = Some (Raises (of_adaptor_exn x)).
Proof.
  intros Hj Hm Hl Hx.
  refine (proj2 (step_work_fails t j js s (enter (j_session j) (env_of s t)) Hj) _ _).
  rewrite handle_message_enter, Hm. assert (Hn : len l = 4) by (unfold len; lia).
  unfold dispatch. rewrite via_array_size_ARRAY, Hn by lia. simpl (4 =? 3). simpl (4 =? 4).
  cbv beta zeta iota. unfold dispatch_call. by rewrite Hx.
Qed.

End Spec.
