(* ===== verification/ServerSafety.v ===== *)
(** * What a connection is sent

    Over any sequence of events: every buffer given to a session's writer is one
    encoded response, so that the connection carries whole responses, one after
    the other, and at any moment a prefix of that. *)

From S2P Require Import Prelude FloatBits MsgObject Pack Adaptors.
From S2P Require Import Handler Response Dispatcher AsyncWriter Receiver Server ServerSpec.

#[local] Open Scope handler_scope.

(** ** Ids are 32 bits wide *)

Definition is_id (id : Z) : Prop := 0 <= id < 2 ^ 32.

Lemma convert_uint32_range o z : convert_integer C_unsigned_int o = Ok z -> is_id z.
Proof.
  unfold convert_integer, convert_integer_unsigned. simpl. destruct o; try done.
  destruct (_ <? _); [done|]. intros [= <-]. unfold cast. simpl. apply (wrap_range 32). lia.
Qed.

Lemma as_call_id msg ty id r : as_ call_t msg = Ok (Tuple (ty, (id, r))) -> is_id id.
Proof.
  unfold as_. destruct msg as [| | | | | | | |l| |]; try done. simpl.
  destruct l as [|o1 [|o2 l]]; simpl.
  - intros [= _ <- _]. unfold is_id. lia.
  - destruct (convert_integer C_signed_char o1); simpl; [|done]. intros [= _ <- _]. unfold is_id. lia.
  - destruct (convert_integer C_signed_char o1); simpl; [|done].
    destruct (convert_integer C_unsigned_int o2) as [i|] eqn:E; simpl; [|done].
    destruct (match l with [] => _ | _ => _ end); simpl; [|done].
    intros [= _ <- _]. by eapply convert_uint32_range.
Qed.

Lemma make_error_id {T} `{Adaptor T} id (v : T) e r e' :
  make_error id v e = (Returns r, e') -> r_id r = id.
Proof.
  unfold make_error, hbind. destruct (pack_handle v e) as [[h|t|] e1]; [|done..]. by intros [= <- _].
Qed.

Section Safety.
Context {rx : Type} {HR : Receiver rx}.
Variable new_pac : rx.
Variable unset : object -> Z.
Variable disp_ : dispatcher.
Variable suppress : bool.

Lemma dispatch_id msg e r e' :
  dispatch unset disp_ msg suppress e = (Returns r, e') -> is_id (r_id r).
Proof.
  unfold dispatch. destruct (_ =? 3); [|destruct (_ =? 4)].
  - unfold dispatch_notification, hbind at 1.
    destruct (lift _ e) as [[[(ty & name & args & u)]|t|] e1]; [|done..].
    destruct (disp_ !! name) as [func|]; [|by intros [= <- _]].
    unfold try_catch, hbind. destruct (func args e1) as [[h|t|] e2]; [by intros [= <- _]| |done].
    destruct t; destruct suppress; by intros [= <- _].
  - unfold dispatch_call. destruct (as_ call_t msg) as [t|x] eqn:Ea; [|done].
    destruct t as [(ty & id & name & args & u)]. apply as_call_id in Ea as Hid.
    unfold lift, hbind at 1, hret at 1.
    assert (M : forall (v : bytes) e, make_error id v e = (Returns r, e') -> is_id (r_id r))
      by (intros v e0 Hm; by rewrite (make_error_id _ _ _ _ _ Hm)).
    destruct (disp_ !! name) as [func|]; [|apply M].
    unfold try_catch, hbind. destruct (func args e) as [[h|t|] e2]; [by intros [= <- _]| |done].
    destruct t; try apply M; destruct suppress; try apply M; done.
  - intros [= <- _]. unfold is_id. simpl. lia.
Qed.

(** ** The invariant *)

Definition is_response (d : bytes) : Prop :=
  exists id error result, is_id id /\ d = encode (response_object id error result).

Definition task_ok (k : task) : Prop :=
  match k with TWrite r _ => is_id (r_id r) | _ => True end.

Definition session_ok (x : session (rx := rx)) : Prop :=
  (exists all bad, writer_ok all bad (writer x) /\ Forall is_response all) /\ Forall task_ok (strand x).

Definition inv (s : server (rx := rx)) : Prop := map_Forall (fun _ x => session_ok x) (sessions s).

Lemma reply_ok resp z l e ts e' :
  is_id (r_id resp) -> reply resp z l e = (Returns ts, e') -> Forall task_ok ts.
Proof.
  intros Hid. unfold reply. destruct (negb (resp_enabled_ _)); [by intros [= <- _]|].
  assert (K : forall m : H response, (forall e r e', m e = (Returns r, e') -> is_id (r_id r)) ->
    (do! r := m in hret ((if r_empty r then [] else [TWrite r z]) ++
      (if exit_ (this_session l) then [TClose] else []) ++
      (if stopping_ l then [TCloseSessions] else []))) e = (Returns ts, e') -> Forall task_ok ts).
  { intros m Hm. unfold hbind. destruct (m e) as [[r|t|] e1] eqn:E; [|done..]. intros [= <- _].
    apply Hm in E. apply Forall_app. split; [destruct (r_empty r); [by constructor|by apply Forall_singleton]|].
    apply Forall_app. split; [destruct (exit_ _)|destruct (stopping_ _)];
      (by constructor) || by apply Forall_singleton. }
  apply K. intros e0 r e1. destruct (negb _); [|destruct (negb _)].
  - unfold capture_error. destruct (r_error resp); [|done]. by intros [= <- _].
  - by intros [= <- _].
  - by intros [= <- _].
Qed.

Lemma handle_message_ok sid msg z e ts e' :
  handle_message unset disp_ suppress sid msg z e = (Returns ts, e') -> Forall task_ok ts.
Proof.
  rewrite handle_message_enter. destruct (dispatch _ _ _ _ _) as [[r|t|] e1] eqn:E; [|done..].
  apply reply_ok. by eapply dispatch_id.
Qed.

Lemma get_data_response r e d e' :
  is_id (r_id r) -> get_data r e = (Returns d, e') -> is_response d.
Proof.
  intros Hid. destruct (intact (heap e) r) eqn:Hi.
  - rewrite get_data_ok by done. intros [= <- _]. by eexists _, _, _.
  - pose proof (get_data_undefined r e Hi) as Hu. intros E. by rewrite E in Hu.
Qed.

Lemma put_inv sid x s : inv s -> session_ok x -> inv (put_session sid x s).
Proof. intros. by apply map_Forall_insert_2. Qed.

Lemma close_session_of_ok x : session_ok x -> session_ok (close_session_of x).
Proof.
  intros [(all & bad & Hw & Ha) Hs]. split; simpl.
  - exists all, bad. split; [by apply close_ok|done].
  - apply Forall_app. by repeat constructor.
Qed.

Lemma write_session_ok x d w :
  session_ok x -> is_response d -> write d (writer x) = Returns w -> session_ok (with_writer w x).
Proof.
  intros [(all & bad & Hw & Ha) Hs] Hd E. destruct (write_ok _ _ _ d Hw) as (w' & E' & Hw').
  rewrite E in E'. injection E' as ->. split; [|done]. exists (all ++ [d]), bad.
  split; [done|]. apply Forall_app. split; [done|by apply Forall_singleton].
Qed.

Lemma close_sessions_inv t s : inv s -> inv (close_sessions t s).
Proof.
  intros Hs. unfold close_sessions. set (f := fold_left _ _ _).
  assert (H : inv f); [|by destruct (this_server_stopping f t)].
  unfold f. clear f. generalize (sessions_ s). intros l.
  assert (H : inv (set_listed [] s)) by done. revert H. generalize (set_listed [] s).
  induction l as [|sid l IH]; intros s' Hs'; [done|]. simpl. apply IH.
  destruct (sessions s' !! sid) as [x|] eqn:E; [|done]. apply put_inv; [done|].
  apply close_session_of_ok. by eapply (map_Forall_lookup_1 _ _ _ _ Hs').
Qed.

Lemma run_job_inv t j s s' :
  inv s -> run_job unset disp_ suppress t j s = Returns s' -> inv s'.
Proof.
  intros Hs. unfold run_job. destruct (handle_message _ _ _ _ _ _ _) as [[ts|x|] e] eqn:E; [|done..].
  apply handle_message_ok in E. set (s1 := if keeps_zone ts then _ else _).
  assert (Hs1 : inv s1) by (unfold s1; by destruct (keeps_zone ts)).
  destruct (sessions s1 !! j_session j) as [x|] eqn:Hx; [|done]. intros [= <-].
  apply put_inv; [done|]. destruct (map_Forall_lookup_1 _ _ _ _ Hs1 Hx) as [Hw Hk].
  split; [done|]. simpl. by apply Forall_app.
Qed.

Lemma run_task_inv t sid k x s s' :
  inv s -> session_ok x -> task_ok k -> run_task t sid k x s = Returns s' -> inv s'.
Proof.
  intros Hs Hx Hk. destruct k as [r z| | | |]; simpl.
  - destruct (get_data r (env_of s t)) as [[d|e|] e1] eqn:Ed; [|done..].
    destruct (write d (writer x)) as [w|e|] eqn:Ew; [|done..]. intros [= <-].
    apply (put_inv sid (with_writer w x) s Hs). eapply write_session_ok; [done| |done].
    by eapply get_data_response.
  - intros [= <-]. apply put_inv; [done|]. destruct Hx as [(all & bad & Hw & Ha) Hk'].
    split; [|done]. exists all, bad. split; [by apply close_ok|done].
  - by intros [= <-].
  - destruct (kept_alive s sid); [|done]. intros [= <-]. apply put_inv; [done|].
    by apply close_session_of_ok.
  - destruct (kept_alive s sid); [|done]. intros [= <-]. by apply close_sessions_inv.
Qed.

Lemma update_writer_inv sid x o s s' all bad :
  inv s -> session_ok x -> Forall is_response all ->
  (exists w, o = Returns w /\ writer_ok all bad w) ->
  update_writer sid x o s = Returns s' -> inv s'.
Proof.
  intros Hs [_ Hk] Ha (w & -> & Hw) [= <-]. apply put_inv; [done|]. split; [|done]. by exists all, bad.
Qed.

Lemma on_accept_inv t ok s : inv s -> inv (on_accept new_pac t ok s).
Proof.
  intros Hs. unfold on_accept. destruct ok; [|done]. apply (put_inv (next_session s)); [done|].
  split; simpl; [|done]. exists [], false. split; [apply new_writer_ok|done].
Qed.

Lemma post_messages_inv sid os : forall s, inv s -> inv (post_messages sid os s).
Proof.
  unfold post_messages. induction os as [|o os IH]; intros s Hs; [done|]. by apply IH.
Qed.

Lemma on_read_inv sid d x s s' :
  inv s -> session_ok x -> on_read sid d x s = Returns s' -> inv s'.
Proof.
  intros Hs Hx. unfold on_read. destruct (is_closed (writer x)).
  - intros [= <-]. by apply put_inv.
  - destruct (feed d (pac x)) as [[os|e] p].
    + intros [= <-]. by apply post_messages_inv, put_inv.
    + destruct e as [|e| | |]; try done. by destruct e.
Qed.

Lemma server_step_inv ev s s' :
  inv s -> step new_pac unset disp_ suppress ev s = Some (Returns s') -> inv s'.
Proof.
  intros Hs. destruct ev as [t ok|sid d|sid|sid|t k|t sid|sid|sid n]; simpl.
  - destruct (accepting s); [|done]. destruct (ok && _); [done|]. intros [= <-]. by apply on_accept_inv.
  - destruct (sessions s !! sid) as [x|] eqn:Hx; [|done]. simpl. destruct (is_reading x); [|done].
    intros [= E]. eapply on_read_inv; [exact Hs| |exact E]. by eapply (map_Forall_lookup_1 _ _ _ _ Hs).
  - destruct (sessions s !! sid) as [x|] eqn:Hx; [|done]. simpl. destruct (is_reading x); [|done].
    pose proof (map_Forall_lookup_1 _ _ _ _ Hs Hx) as Hok. intros [= <-]. apply put_inv; [done|].
    simpl. destruct (is_closed (writer x)); [done|]. by apply close_session_of_ok.
  - destruct (sessions s !! sid) as [x|] eqn:Hx; [|done]. simpl. destruct (is_reading x); [|done].
    intros [= <-]. apply put_inv; [done|]. by apply (map_Forall_lookup_1 _ _ _ _ Hs Hx).
  - destruct (jobs s !! k) as [j|]; [|done]. simpl. intros [= E]. by eapply run_job_inv, E.
  - destruct (sessions s !! sid) as [x|] eqn:Hx; [|done]. simpl.
    destruct (map_Forall_lookup_1 _ _ _ _ Hs Hx) as [Hw Hk].
    destruct (strand x) as [|k ks]; [done|]. apply Forall_cons in Hk as [Hk1 Hk2]. intros [= E].
    eapply run_task_inv; [| |exact Hk1|exact E]; [by apply put_inv|done].
  - destruct (sessions s !! sid) as [x|] eqn:Hx; [|done]. simpl.
    pose proof (map_Forall_lookup_1 _ _ _ _ Hs Hx) as Hok. destruct (pending (writer x)) eqn:Hp; [|done].
    intros [= E]. pose proof Hok as [(all & bad & Hw & Ha) _].
    eapply update_writer_inv; [done|done|exact Ha| |exact E]. by apply on_sent_ok.
  - destruct (sessions s !! sid) as [x|] eqn:Hx; [|done]. simpl.
    pose proof (map_Forall_lookup_1 _ _ _ _ Hs Hx) as Hok. destruct (pending (writer x)) eqn:Hp; [|done].
    intros [= E]. pose proof Hok as [(all & bad & Hw & Ha) _].
    eapply update_writer_inv; [done|done|exact Ha| |exact E]. by eapply on_send_error_ok.
Qed.

Lemma run_inv evs : forall s s', inv s -> run new_pac unset disp_ suppress evs s = Some (Returns s') -> inv s'.
Proof.
  induction evs as [|ev evs IH]; intros s s' Hs; simpl; [by intros [= <-]|].
  destruct (step _ _ _ _ ev s) as [[s1|x|]|] eqn:E; [|done..]. apply IH. by eapply server_step_inv.
Qed.


End Safety.
