(* ===== verification/ServerLife.v ===== *)
(** * The life of a server object

    Models what Server leaves out of server.cc: the [server] objects and the [impl] each
    points to, the worker threads (detail/thread_group.h), stopping, destruction and
    moves. An [impl] and its sessions point back to the server they were made for
    ([parent_]); a thread starts by reading the server it was made by. Using an
    object that is gone, or through a null pointer, is [Undefined].

    What a session does is in Server; here it is only its use of the server. *)

From S2P Require Import Prelude Handler.

(** ** The state *)

Inductive thread :=
| Starting (this : Z)                      (* created, with [this] captured *)
| Running (io : Z)                         (* in io_service::run *)
| Finished.

Record impl := {
  parent_ : Z;
  io_stopped : bool;
  loop_workers_ : list thread;
  sessions_ : list Z;
  suppress_exceptions_ : bool;
}.

Record server := { pimpl : option Z; disp_ : option Z }.

(** A session, kept alive by what is posted to the io_service of [s_io]. *)
Record session := { s_io : Z; s_parent : Z; s_disp : option Z; s_suppress : bool }.

Record state := {
  servers : gmap Z server;                 (* the variables that hold a server *)
  impls : gmap Z impl;
  sessions : gmap Z session;
  callers : list Z;                        (* the io_services other threads are in [run] of *)
  fresh : Z;
}.

Definition start : state := {| servers := ∅; impls := ∅; sessions := ∅; callers := []; fresh := 0 |}.

Definition set_servers (m : gmap Z server) (s : state) : state :=
  {| servers := m; impls := impls s; sessions := sessions s; callers := callers s; fresh := fresh s |}.
Definition set_impls (m : gmap Z impl) (s : state) : state :=
  {| servers := servers s; impls := m; sessions := sessions s; callers := callers s; fresh := fresh s |}.
Definition set_sessions (m : gmap Z session) (s : state) : state :=
  {| servers := servers s; impls := impls s; sessions := m; callers := callers s; fresh := fresh s |}.
Definition set_callers (l : list Z) (s : state) : state :=
  {| servers := servers s; impls := impls s; sessions := sessions s; callers := l; fresh := fresh s |}.
Definition put_impl (i : Z) (x : impl) (s : state) : state := set_impls (<[i := x]> (impls s)) s.

Definition with_workers (l : list thread) (x : impl) : impl :=
  {| parent_ := parent_ x; io_stopped := io_stopped x; loop_workers_ := l; sessions_ := sessions_ x;
     suppress_exceptions_ := suppress_exceptions_ x |}.
Definition with_stopped (x : impl) : impl :=
  {| parent_ := parent_ x; io_stopped := true; loop_workers_ := loop_workers_ x; sessions_ := sessions_ x;
     suppress_exceptions_ := suppress_exceptions_ x |}.
Definition with_sessions (l : list Z) (x : impl) : impl :=
  {| parent_ := parent_ x; io_stopped := io_stopped x; loop_workers_ := loop_workers_ x; sessions_ := l;
     suppress_exceptions_ := suppress_exceptions_ x |}.
Definition with_suppress (b : bool) (x : impl) : impl :=
  {| parent_ := parent_ x; io_stopped := io_stopped x; loop_workers_ := loop_workers_ x;
     sessions_ := sessions_ x; suppress_exceptions_ := b |}.

(** ** Dereferencing *)

(** The impl that the server at [p] points to. *)
Definition impl_of (p : Z) (s : state) : option (Z * impl) :=
  sv ← servers s !! p; i ← pimpl sv; x ← impls s !! i; Some (i, x).

(** [pimpl->...]: a change of the impl. *)
Definition through (p : Z) (f : impl -> impl) (s : state) : outcome state :=
  match impl_of p s with
  | Some (i, x) => Returns (put_impl i (f x) s)
  | None => Undefined
  end.

(** ** [server] *)

Definition new_server (p : Z) (s : state) : state :=
  let i := fresh s in
  {| servers := <[p := {| pimpl := Some i; disp_ := Some i |}]> (servers s);
     impls := <[i := {| parent_ := p; io_stopped := false; loop_workers_ := []; sessions_ := [];
                        suppress_exceptions_ := false |}]> (impls s);
     sessions := sessions s; callers := callers s; fresh := i + 1 |}.

Definition finished (t : thread) : bool := match t with Finished => true | _ => false end.

(** [thread_group::join_all]; [None]: it waits. *)
Definition join_all (x : impl) : option unit :=
  if forallb finished (loop_workers_ x) then Some tt else None.

(** The destructor of the impl at [i], which joins its threads: what it owns goes with
    it, and so does what was posted to its io_service. *)
Definition delete_impl (i : Z) (s : state) : option (outcome state) :=
  match impls s !! i with
  | None => Some Undefined
  | Some x =>
    _ ← join_all x;
    Some (if bool_decide (i ∈ callers s) then Undefined
          else Returns (set_impls (delete i (impls s))
                          (set_sessions (filter (fun kv => s_io kv.2 <> i) (sessions s)) s)))
  end.

(** [unique_ptr]: the impl it held is deleted. *)
Definition reset_pimpl (old : option Z) (s : state) : option (outcome state) :=
  match old with None => Some (Returns s) | Some i => delete_impl i s end.

(** [server::operator=(server &&)]. *)
Definition move_assign (q p : Z) (s : state) : option (outcome state) :=
  if q =? p then Some (Returns s)
  else match servers s !! q, servers s !! p with
       | Some sq, Some sp =>
         r ← reset_pimpl (pimpl sq) s;
         Some match r with
              | Returns s => Returns (set_servers (<[p := {| pimpl := None; disp_ := None |}]>
                                        (<[q := sp]> (servers s))) s)
              | r => r
              end
       | _, _ => Some Undefined
       end.

(** [server::server(server &&)] *)
Definition move_construct (q p : Z) (s : state) : option (outcome state) :=
  move_assign q p (set_servers (<[q := {| pimpl := None; disp_ := None |}]> (servers s)) s).

Definition suppress_exceptions (p : Z) (b : bool) (s : state) : outcome state :=
  through p (with_suppress b) s.

Definition async_run (p : Z) (worker_threads : nat) (s : state) : outcome state :=
  through p (fun x => with_workers (loop_workers_ x ++ replicate worker_threads (Starting p)) x) s.

Definition close_sessions (p : Z) (s : state) : outcome state := through p (with_sessions []) s.

Definition close_session (p n : Z) (s : state) : outcome state :=
  through p (fun x => with_sessions (filter (fun m => m <> n) (sessions_ x)) x) s.

(** The first half of [stop], which the destructor begins with too; the second waits. *)
Definition stop_io (p : Z) (s : state) : outcome state := through p with_stopped s.

Definition stop_join (p : Z) (s : state) : option (outcome state) :=
  match impl_of p s with
  | Some (_, x) => if io_stopped x then _ ← join_all x; Some (Returns s) else None
  | None => Some Undefined
  end.

(** [server::~server], after [io_.stop()]. *)
Definition destroy (p : Z) (s : state) : option (outcome state) :=
  match servers s !! p with
  | None => Some Undefined
  | Some sv =>
    let gone s := set_servers (delete p (servers s)) s in
    match pimpl sv with
    | None => Some (Returns (gone s))
    | Some i =>
      match impls s !! i with
      | None => Some Undefined
      | Some x =>
        if io_stopped x then
          r ← delete_impl i s;
          Some match r with Returns s => Returns (gone s) | r => r end
        else None
      end
    end
  end.

(** ** Threads and sessions *)

Fixpoint leave (i : Z) (l : list Z) : list Z :=
  match l with [] => [] | j :: l => if j =? i then l else j :: leave i l end.

(** The lambda of [async_run] reads [pimpl->io_], and runs it. *)
Definition thread_start (i : Z) (k : nat) (x : impl) (s : state) : option (outcome state) :=
  match loop_workers_ x !! k with
  | Some (Starting this) =>
    Some match impl_of this s with
         | Some (j, _) => Returns (put_impl i (with_workers (<[k := Running j]> (loop_workers_ x)) x) s)
         | None => Undefined
         end
  | _ => None
  end.

(** [io_service::run] returns once the service is stopped. *)
Definition thread_finish (i : Z) (k : nat) (x : impl) (s : state) : option (outcome state) :=
  match loop_workers_ x !! k with
  | Some (Running j) =>
    match impls s !! j with
    | None => Some Undefined
    | Some y => if io_stopped y
                then Some (Returns (put_impl i (with_workers (<[k := Finished]> (loop_workers_ x)) x) s))
                else None
    end
  | _ => None
  end.

(** Does some thread run the io_service of [i]? *)
Definition served (i : Z) (s : state) : bool :=
  bool_decide (i ∈ callers s) ||
  existsb (fun kv => existsb (fun t => match t with Running j => j =? i | _ => false end) (loop_workers_ kv.2))
    (map_to_list (impls s)).

(** The handler of [start_accept], with a connection. *)
Definition on_accept (i : Z) (x : impl) (s : state) : outcome state :=
  match servers s !! parent_ x with
  | None => Undefined
  | Some sv =>
    let n := fresh s in
    Returns {| servers := servers s;
       impls := <[i := with_sessions (sessions_ x ++ [n]) x]> (impls s);
       sessions := <[n := {| s_io := i; s_parent := parent_ x; s_disp := disp_ sv;
                             s_suppress := suppress_exceptions_ x |}]> (sessions s);
       callers := callers s; fresh := n + 1 |}
  end.

(** ** Events *)

Inductive event :=
| New (p : Z)
| MoveConstruct (q p : Z)
| MoveAssign (q p : Z)
| Suppress (p : Z) (b : bool)
| AsyncRun (p : Z) (worker_threads : nat)
| Run (p : Z)                              (* [run] is called on some thread *)
| RunReturns (i : Z)
| StopIo (p : Z)
| StopJoin (p : Z)
| CloseSessions (p : Z)
| Destroy (p : Z)
| ThreadStart (i : Z) (k : nat)
| ThreadFinish (i : Z) (k : nat)
| Accept (i : Z)
| Message (n : Z)                          (* a session dispatches a message *)
| SessionCloses (n : Z)                    (* parent_->close_session(self) *)
| SessionStops (n : Z).                    (* parent_->close_sessions() *)

(** A session runs only on a thread that runs its io_service. *)
Definition on_session (n : Z) (s : state) (f : session -> outcome state) : option (outcome state) :=
  x ← sessions s !! n;
  if served (s_io x) s then Some (f x) else None.

(** One event; [None]: it cannot happen, or not yet. *)
Definition step (ev : event) (s : state) : option (outcome state) :=
  match ev with
  | New p => match servers s !! p with None => Some (Returns (new_server p s)) | Some _ => None end
  | MoveConstruct q p => match servers s !! q with None => move_construct q p s | Some _ => None end
  | MoveAssign q p => move_assign q p s
  | Suppress p b => Some (suppress_exceptions p b s)
  | AsyncRun p n => Some (async_run p n s)
  | Run p => Some match impl_of p s with
                  | Some (i, _) => Returns (set_callers (i :: callers s) s)
                  | None => Undefined
                  end
  | RunReturns i =>
    if bool_decide (i ∈ callers s) then
      x ← impls s !! i;
      if io_stopped x then Some (Returns (set_callers (leave i (callers s)) s)) else None
    else None
  | StopIo p => Some (stop_io p s)
  | StopJoin p => stop_join p s
  | CloseSessions p => Some (close_sessions p s)
  | Destroy p => destroy p s
  | ThreadStart i k => x ← impls s !! i; thread_start i k x s
  | ThreadFinish i k => x ← impls s !! i; thread_finish i k x s
  | Accept i => x ← impls s !! i; if served i s then Some (on_accept i x s) else None
  | Message n => on_session n s (fun x => match s_disp x with Some _ => Returns s | None => Undefined end)
  | SessionCloses n => on_session n s (fun x => close_session (s_parent x) n s)
  | SessionStops n => on_session n s (fun x => close_sessions (s_parent x) s)
  end.

Fixpoint run (evs : list event) (s : state) : option (outcome state) :=
  match evs with
  | [] => Some (Returns s)
  | ev :: evs => match step ev s with Some (Returns s) => run evs s | r => r end
  end.

(** ** A program that does not move its servers

    Its operations are on servers that are there, and no server is destroyed while a thread
    is in its [run]. *)

Definition proper (ev : event) (s : state) : Prop :=
  match ev with
  | MoveConstruct _ _ | MoveAssign _ _ => False
  | Suppress p _ | AsyncRun p _ | Run p | StopIo p | StopJoin p | CloseSessions p => is_Some (servers s !! p)
  | Destroy p => is_Some (servers s !! p) /\ forall i x, impl_of p s = Some (i, x) -> i ∉ callers s
  | _ => True
  end.

Fixpoint disciplined (evs : list event) (s : state) : Prop :=
  match evs with
  | [] => True
  | ev :: evs => proper ev s /\ match step ev s with Some (Returns s) => disciplined evs s | _ => True end
  end.

(** ** The pointers

    Servers and impls point to each other, threads run the io_service of the server that made
    them, and sessions have a dispatcher and point to the server of their io_service. *)

Definition own_thread (i p : Z) (t : thread) : Prop :=
  match t with Starting q => q = p | Running j => j = i | Finished => True end.

Record live (s : state) : Prop := {
  live_server p sv : servers s !! p = Some sv -> exists i d x,
    sv = {| pimpl := Some i; disp_ := Some d |} /\ impls s !! i = Some x /\ parent_ x = p;
  live_impl i x : impls s !! i = Some x -> i < fresh s /\
    (exists d, servers s !! parent_ x = Some {| pimpl := Some i; disp_ := Some d |}) /\
    Forall (own_thread i (parent_ x)) (loop_workers_ x);
  live_session n y : sessions s !! n = Some y -> is_Some (s_disp y) /\
    exists x, impls s !! s_io y = Some x /\ s_parent y = parent_ x;
  live_callers i : i ∈ callers s -> is_Some (impls s !! i);
}.

Lemma live_start : live start.
Proof. split; [intros p sv|intros i x|intros n y|intros i]; simpl; rewrite ?lookup_empty, ?elem_of_nil; done. Qed.

Lemma impl_of_live s p sv : live s -> servers s !! p = Some sv ->
  exists i d x, sv = {| pimpl := Some i; disp_ := Some d |} /\ impl_of p s = Some (i, x) /\
    impls s !! i = Some x /\ parent_ x = p.
Proof.
  intros L Hp. destruct (live_server s L p sv Hp) as (i & d & x & -> & Hi & Hx).
  exists i, d, x. unfold impl_of. rewrite Hp. simpl. by rewrite Hi.
Qed.

Lemma impl_of_Some s p i x : impl_of p s = Some (i, x) -> impls s !! i = Some x.
Proof.
  unfold impl_of. intros (sv & _ & H)%bind_Some. apply bind_Some in H as (j & _ & H).
  apply bind_Some in H as (y & Hy & [= <- <-]). done.
Qed.

Lemma put_impl_live s i x y : live s -> impls s !! i = Some x -> parent_ y = parent_ x ->
  Forall (own_thread i (parent_ x)) (loop_workers_ y) -> live (put_impl i y s).
Proof.
  intros L Hi Hp Ht. split; simpl.
  - intros p sv Hsv. destruct (live_server s L p sv Hsv) as (j & d & z & -> & Hj & Hz).
    destruct (decide (i = j)) as [<-|Hne].
    + exists i, d, y. rewrite lookup_insert_eq. split_and!; [done|done|congruence].
    + exists j, d, z. by rewrite lookup_insert_ne.
  - intros j z [[<- <-]|[Hne Hj]]%lookup_insert_Some; [|by apply (live_impl s L)].
    destruct (live_impl s L i x Hi) as (H1 & H2 & _). by rewrite Hp.
  - intros n z Hn. destruct (live_session s L n z Hn) as (H1 & w & Hw & Hz). split; [done|].
    destruct (decide (i = s_io z)) as [E|Hne].
    + exists y. rewrite <- E, Hi in *. rewrite lookup_insert_eq. split; congruence.
    + exists w. by rewrite lookup_insert_ne.
  - intros j Hj. rewrite lookup_insert_is_Some'. right. by apply (live_callers s L).
Qed.

Lemma through_live s p f : live s -> is_Some (servers s !! p) ->
  (forall i x, impls s !! i = Some x -> parent_ x = p -> Forall (own_thread i p) (loop_workers_ x) ->
    parent_ (f x) = parent_ x /\ Forall (own_thread i p) (loop_workers_ (f x))) ->
  exists s', through p f s = Returns s' /\ live s'.
Proof.
  intros L [sv Hp] Hf. destruct (impl_of_live s p sv L Hp) as (i & d & x & -> & Hi & Hx & Hpx).
  unfold through. rewrite Hi. eexists. split; [done|].
  destruct (live_impl s L i x Hx) as (_ & _ & Ht). rewrite Hpx in Ht. destruct (Hf i x Hx Hpx Ht) as [H1 H2].
  apply put_impl_live with x; [done|done|done|]. by rewrite Hpx.
Qed.

Lemma delete_impl_live s p i d x s' :
  live s -> servers s !! p = Some {| pimpl := Some i; disp_ := Some d |} -> impls s !! i = Some x -> parent_ x = p ->
  i ∉ callers s -> delete_impl i s = Some s' ->
  exists s1, s' = Returns s1 /\ live (set_servers (delete p (servers s1)) s1).
Proof.
  intros L Hp Hi Hx Hc. unfold delete_impl. rewrite Hi. intros (_ & _ & [= <-])%bind_Some.
  rewrite bool_decide_eq_false_2 by done. eexists. split; [done|]. split; simpl.
  - intros q sv [Hq Hsv]%lookup_delete_Some. destruct (live_server s L q sv Hsv) as (j & e & y & -> & Hj & Hy).
    exists j, e, y. split_and!; [done| |done]. rewrite lookup_delete_ne; [done|]. intros <-. congruence.
  - intros j y [Hj Hy]%lookup_delete_Some. destruct (live_impl s L j y Hy) as (H1 & (e & He) & H3).
    split_and!; [done| |done]. exists e. rewrite lookup_delete_ne; [done|]. intros E. rewrite <- E, Hp in He. congruence.
  - intros n y [Hn Hne]%map_lookup_filter_Some. simpl in Hne.
    destruct (live_session s L n y Hn) as (H1 & w & Hw & Hz). split; [done|]. exists w.
    by rewrite lookup_delete_ne.
  - intros j Hj. rewrite lookup_delete_ne; [by apply (live_callers s L)|]. by intros <-.
Qed.

(** ** Every event keeps them *)

Definition safe (r : outcome state) : Prop := exists s, r = Returns s /\ live s.

Lemma new_live s p : live s -> servers s !! p = None -> live (new_server p s).
Proof.
  intros L Hp. split; simpl.
  - intros q sv [[<- <-]|[Hq Hsv]]%lookup_insert_Some.
    + eexists _, _, _. split; [done|]. by rewrite lookup_insert_eq.
    + destruct (live_server s L q sv Hsv) as (j & d & y & -> & Hj & Hy). exists j, d, y.
      destruct (live_impl s L j y Hj) as [? _]. rewrite lookup_insert_ne by lia. done.
  - intros j y [[<- <-]|[Hj Hy]]%lookup_insert_Some; simpl.
    + split; [lia|]. split; [exists (fresh s); by rewrite lookup_insert_eq|constructor].
    + destruct (live_impl s L j y Hy) as (H1 & (d & Hd) & H3). split_and!; [lia| |done].
      exists d. rewrite lookup_insert_ne; [done|]. intros E. rewrite <- E in Hd. congruence.
  - intros n y Hn. destruct (live_session s L n y Hn) as (H1 & w & Hw & Hz). split; [done|]. exists w.
    destruct (live_impl s L _ _ Hw) as [? _]. rewrite lookup_insert_ne by lia. done.
  - intros j Hj. apply lookup_insert_is_Some'. right. by apply (live_callers s L).
Qed.

Lemma elem_leave i j l : i ∈ leave j l -> i ∈ l.
Proof.
  induction l as [|k l IH]; simpl; [done|]. destruct (k =? j); rewrite ?elem_of_cons; tauto.
Qed.

Lemma set_callers_live s l : live s -> (forall i, i ∈ l -> is_Some (impls s !! i)) -> live (set_callers l s).
Proof. intros [L1 L2 L3 L4] Hl. by split. Qed.

Lemma worker_live s i x k t : live s -> impls s !! i = Some x -> own_thread i (parent_ x) t ->
  live (put_impl i (with_workers (<[k := t]> (loop_workers_ x)) x) s).
Proof.
  intros L Hi Ht. destruct (live_impl s L i x Hi) as (_ & _ & Hw). apply put_impl_live with x; [done..|].
  simpl. by apply Forall_insert.
Qed.

Lemma thread_live s i x k t : live s -> impls s !! i = Some x -> loop_workers_ x !! k = Some t ->
  own_thread i (parent_ x) t.
Proof.
  intros L Hi Hk. destruct (live_impl s L i x Hi) as (_ & _ & Hw). by apply (Forall_lookup_1 _ _ k t Hw).
Qed.

Lemma destroy_live s p r : live s -> is_Some (servers s !! p) ->
  (forall i x, impl_of p s = Some (i, x) -> i ∉ callers s) -> destroy p s = Some r -> safe r.
Proof.
  intros L [sv Hp] Hc. destruct (impl_of_live s p sv L Hp) as (i & d & x & -> & Hi & Hx & Hpx).
  unfold destroy. rewrite Hp. simpl. rewrite Hx. destruct (io_stopped x); [|done].
  intros (r1 & E & [= <-])%bind_Some. specialize (Hc i x Hi).
  destruct (delete_impl_live s p i d x r1 L Hp Hx Hpx Hc E) as (s1 & -> & L1). by eexists.
Qed.

Lemma accept_live s i x : live s -> impls s !! i = Some x -> safe (on_accept i x s).
Proof.
  intros L Hi. destruct (live_impl s L i x Hi) as (Hlt & (d & Hd) & Hw). unfold on_accept. rewrite Hd.
  eexists. split; [done|]. split; simpl.
  - intros q sv Hsv. destruct (live_server s L q sv Hsv) as (j & e & y & -> & Hj & Hy).
    destruct (decide (i = j)) as [<-|Hne].
    + eexists _, _, _. split; [done|]. rewrite lookup_insert_eq. split; [done|]. simpl. congruence.
    + exists j, e, y. by rewrite lookup_insert_ne.
  - intros j y [[<- <-]|[Hj Hy]]%lookup_insert_Some; simpl; [split_and!; [lia|by exists d|done]|].
    destruct (live_impl s L j y Hy) as (H1 & H2 & H3). split_and!; [lia|done|done].
  - assert (Hs : forall j w, impls s !! j = Some w -> exists w',
      <[i:=with_sessions (sessions_ x ++ [fresh s]) x]> (impls s) !! j = Some w' /\ parent_ w' = parent_ w).
    { intros j w Hw'. destruct (decide (i = j)) as [<-|Hne].
      - eexists. rewrite lookup_insert_eq. split; [done|]. simpl. congruence.
      - exists w. by rewrite lookup_insert_ne. }
    intros n y [[<- <-]|[Hn Hy]]%lookup_insert_Some; simpl.
    + split; [done|]. destruct (Hs i x Hi) as (w' & Hw' & Hp'). exists w'. split; [exact Hw'|done].
    + destruct (live_session s L n y Hy) as (H1 & w & Hw' & Hz). split; [done|].
      destruct (Hs _ w Hw') as (w' & H2 & H3). exists w'. split; [exact H2|congruence].
  - intros j Hj. apply lookup_insert_is_Some'. right. by apply (live_callers s L).
Qed.

Lemma session_parent s n y : live s -> sessions s !! n = Some y -> is_Some (servers s !! s_parent y).
Proof.
  intros L Hn. destruct (live_session s L n y Hn) as (_ & x & Hx & ->).
  destruct (live_impl s L _ x Hx) as (_ & (d & Hd) & _). by eexists.
Qed.

Lemma step_live ev s r : live s -> proper ev s -> step ev s = Some r -> safe r.
Proof.
  intros L. destruct ev as [p|q p|q p|p b|p n|p|i|p|p|p|p|i k|i k|i|n|n|n]; cbn [proper step]; try done.
  - intros _. destruct (servers s !! p) eqn:E; [done|]. intros [= <-]. eexists. split; [done|]. by apply new_live.
  - intros Hp [= <-]. by apply through_live.
  - intros Hp [= <-]. apply through_live; [done..|]. intros i x _ _ Hw. split; [done|].
    apply Forall_app. split; [done|]. by apply Forall_replicate.
  - intros [sv Hp] [= <-]. destruct (impl_of_live s p sv L Hp) as (i & d & x & _ & -> & Hx & _).
    eexists. split; [done|]. apply set_callers_live; [done|].
    intros j [->|Hj]%elem_of_cons; [by eexists|by apply (live_callers s L)].
  - intros _. destruct (bool_decide _); [|done]. intros (x & Hx & E)%bind_Some. destruct (io_stopped x); [|done].
    injection E as <-. eexists. split; [done|]. apply set_callers_live; [done|].
    intros j Hj. by apply (live_callers s L), (elem_leave j i).
  - intros Hp [= <-]. by apply through_live.
  - intros [sv Hp]. destruct (impl_of_live s p sv L Hp) as (i & d & x & _ & E & _). unfold stop_join. rewrite E.
    destruct (io_stopped x); [|done]. intros (_ & _ & [= <-])%bind_Some. by exists s.
  - intros Hp [= <-]. by apply through_live.
  - intros [Hp Hc]. by apply destroy_live.
  - intros _ (x & Hx & E)%bind_Some. unfold thread_start in E. destruct (loop_workers_ x !! k) as [[this| |]|] eqn:Ek; [|done..].
    pose proof (thread_live s i x k _ L Hx Ek) as Ht. simpl in Ht. subst this.
    destruct (live_impl s L i x Hx) as (_ & (d & Hd) & _). unfold impl_of in E. rewrite Hd in E. simpl in E.
    rewrite Hx in E. injection E as <-. eexists. split; [done|]. by apply worker_live.
  - intros _ (x & Hx & E)%bind_Some. unfold thread_finish in E. destruct (loop_workers_ x !! k) as [[|j|]|] eqn:Ek; [done| |done..].
    pose proof (thread_live s i x k _ L Hx Ek) as Ht. simpl in Ht. subst j. rewrite Hx in E.
    destruct (io_stopped x); [|done]. injection E as <-. eexists. split; [done|]. by apply worker_live.
  - intros _ (x & Hx & E)%bind_Some. destruct (served i s); [|done]. injection E as <-. by apply accept_live.
  - intros _ (y & Hy & E)%bind_Some. destruct (served (s_io y) s); [|done]. injection E as <-.
    destruct (live_session s L n y Hy) as ([d ->] & _). by exists s.
  - intros _ (y & Hy & E)%bind_Some. destruct (served (s_io y) s); [|done]. injection E as <-.
    apply through_live; [done|by apply session_parent with n|done].
  - intros _ (y & Hy & E)%bind_Some. destruct (served (s_io y) s); [|done]. injection E as <-.
    apply through_live; [done|by apply session_parent with n|done].
Qed.

Lemma run_live evs : forall s r, live s -> disciplined evs s -> run evs s = Some r -> safe r.
Proof.
  induction evs as [|ev evs IH]; intros s r L D E; cbn [run disciplined] in *; [injection E as <-; by exists s|].
  destruct D as [Hp D]. destruct (step ev s) as [r1|] eqn:E1; [|done].
  destruct (step_live ev s r1 L Hp E1) as (s1 & -> & L1). by apply (IH s1).
Qed.

(** ** Shutting down *)

Lemma life_run_app evs evs' : forall s s', run evs s = Some (Returns s') -> run (evs ++ evs') s = run evs' s'.
Proof.
  induction evs as [|ev evs IH]; intros s s' E; simpl in *; [by injection E as ->|].
  destruct (step ev s) as [[s1|x|]|]; [by apply IH|done..].
Qed.

Definition thread_event (ev : event) : Prop :=
  match ev with ThreadStart _ _ | ThreadFinish _ _ => True | _ => False end.

Lemma put_put i x y s : put_impl i y (put_impl i x s) = put_impl i y s.
Proof. unfold put_impl, set_impls. simpl. by rewrite insert_insert_eq. Qed.

Lemma with_with l l' x : with_workers l (with_workers l' x) = with_workers l x.
Proof. done. Qed.

(** A thread of a server that is stopped ends. *)
Lemma thread_ends s i x k t : live s -> impls s !! i = Some x -> io_stopped x = true ->
  loop_workers_ x !! k = Some t ->
  exists evs, Forall thread_event evs /\
    run evs s = Some (Returns (put_impl i (with_workers (<[k := Finished]> (loop_workers_ x)) x) s)).
Proof.
  intros L Hi Hs Hk. pose proof (thread_live s i x k t L Hi Hk) as Ht.
  assert (R : forall s x, impls s !! i = Some x -> io_stopped x = true -> loop_workers_ x !! k = Some (Running i) ->
    step (ThreadFinish i k) s = Some (Returns (put_impl i (with_workers (<[k := Finished]> (loop_workers_ x)) x) s))).
  { clear. intros s x Hi Hs Hk. cbn [step]. rewrite Hi. simpl. unfold thread_finish. by rewrite Hk, Hi, Hs. }
  destruct t as [q|j|]; simpl in Ht; [subst q|subst j|].
  - exists [ThreadStart i k; ThreadFinish i k]. split; [by repeat constructor|]. cbn [run].
    destruct (live_impl s L i x Hi) as (_ & (d & Hd) & _).
    assert (E : step (ThreadStart i k) s =
      Some (Returns (put_impl i (with_workers (<[k := Running i]> (loop_workers_ x)) x) s))).
    { cbn [step]. rewrite Hi. simpl. unfold thread_start, impl_of. rewrite Hk, Hd. simpl. by rewrite Hi. }
    rewrite E. set (x1 := with_workers _ x). rewrite (R (put_impl i x1 s) x1).
    + rewrite put_put. simpl. by rewrite list_insert_insert_eq.
    + apply lookup_insert_eq.
    + done.
    + simpl. apply list_lookup_insert_eq. by eapply lookup_lt_Some.
  - exists [ThreadFinish i k]. split; [by repeat constructor|]. cbn [run]. by rewrite (R s x Hi Hs Hk).
  - exists []. split; [constructor|]. cbn [run]. rewrite list_insert_id by done. do 2 f_equal.
    unfold put_impl. rewrite insert_id; [by destruct s|]. rewrite Hi. by destruct x.
Qed.

Lemma threads_end i l : forall m s x, live s -> impls s !! i = Some x -> io_stopped x = true ->
  loop_workers_ x = replicate m Finished ++ l ->
  exists evs y, Forall thread_event evs /\ run evs s = Some (Returns (put_impl i y s)) /\
    live (put_impl i y s) /\ parent_ y = parent_ x /\ io_stopped y = true /\ forallb finished (loop_workers_ y) = true.
Proof.
  induction l as [|t l IH]; intros m s x L Hi Hs Hw.
  - exists [], x. rewrite app_nil_r in Hw.
    assert (E : put_impl i x s = s) by (unfold put_impl; rewrite insert_id by done; by destruct s).
    rewrite E. split_and!; try done. rewrite Hw. clear. by induction m.
  - assert (Hk : loop_workers_ x !! m = Some t).
    { rewrite Hw, lookup_app_r by (rewrite length_replicate; lia). by rewrite length_replicate, Nat.sub_diag. }
    destruct (thread_ends s i x m t L Hi Hs Hk) as (evs & F & E). set (x1 := with_workers _ x) in E.
    assert (L1 : live (put_impl i x1 s)) by by apply worker_live.
    destruct (IH (S m) _ x1 L1) as (evs' & y & F' & E' & L2 & Hp & Hst & Hf).
    + apply lookup_insert_eq.
    + done.
    + simpl. rewrite Hw, insert_app_r_alt by (rewrite length_replicate; lia). rewrite length_replicate, Nat.sub_diag.
      simpl. change (Finished :: replicate m Finished ++ l) with (replicate (S m) Finished ++ l).
      rewrite replicate_S_end, <- app_assoc. done.
    + exists (evs ++ evs'), y. rewrite put_put in *. split_and!; try done.
      * by apply Forall_app.
      * by rewrite (life_run_app _ _ _ _ E).
Qed.

(** What can be done with a server at any time: [stop] it, let its threads end, destroy it. *)
Definition can_be_destroyed (p : Z) (s : state) : Prop :=
  exists evs s', Forall thread_event evs /\ run (StopIo p :: evs ++ [Destroy p]) s = Some (Returns s') /\
    live s' /\ servers s' = delete p (servers s) /\
    (forall i x, impls s' !! i = Some x -> parent_ x <> p) /\
    forall n y, sessions s' !! n = Some y -> s_parent y <> p.

Lemma live_not_there s p : live s -> servers s !! p = None ->
  (forall i x, impls s !! i = Some x -> parent_ x <> p) /\ forall n y, sessions s !! n = Some y -> s_parent y <> p.
Proof.
  intros L Hp. split.
  - intros i x Hi <-. destruct (live_impl s L i x Hi) as (_ & (d & Hd) & _). congruence.
  - intros n y Hn <-. destruct (session_parent s n y L Hn). congruence.
Qed.

Lemma shutdown s p sv : live s -> servers s !! p = Some sv ->
  (forall i x, impl_of p s = Some (i, x) -> i ∉ callers s) -> can_be_destroyed p s.
Proof.
  intros L Hp Hc. destruct (impl_of_live s p sv L Hp) as (i & d & x & -> & Hi & Hx & Hpx). specialize (Hc i x Hi).
  assert (Hst : step (StopIo p) s = Some (Returns (put_impl i (with_stopped x) s))).
  { cbn [step]. unfold stop_io, through. by rewrite Hi. }
  destruct (live_impl s L i x Hx) as (_ & _ & Hw).
  assert (L1 : live (put_impl i (with_stopped x) s)) by by apply put_impl_live with x.
  destruct (threads_end i (loop_workers_ x) 0 _ (with_stopped x) L1 (lookup_insert_eq _ _ _) eq_refl eq_refl)
    as (evs & y & F & E & L2 & Hpy & Hsy & Hf). rewrite put_put in *.
  set (s2 := put_impl i y s) in *. assert (Hy : impls s2 !! i = Some y) by apply lookup_insert_eq.
  assert (Hd : exists s1, delete_impl i s2 = Some (Returns s1) /\ servers s1 = servers s2).
  { unfold delete_impl, join_all. rewrite Hy, Hf. simpl. rewrite bool_decide_eq_false_2 by done. by eexists. }
  destruct Hd as (s1 & Hd & Hs1).
  destruct (delete_impl_live s2 p i d y (Returns s1) L2 Hp Hy) as (s3 & [= <-] & L3); [by rewrite Hpy|done|exact Hd|].
  assert (Hds : destroy p s2 = Some (Returns (set_servers (delete p (servers s1)) s1))).
  { unfold destroy. change (servers s2) with (servers s). rewrite Hp. simpl (pimpl _). cbv iota.
    by rewrite Hy, Hsy, Hd. }
  exists evs. eexists. split; [done|]. split.
  { cbn [run]. rewrite Hst, (life_run_app _ _ _ _ E). cbn [run step]. by rewrite Hds. }
  split; [done|]. split; [simpl; by rewrite Hs1|].
  apply live_not_there; [done|]. simpl. apply lookup_delete_eq.
Qed.

(** C5. In a program that does not move its servers, and destroys none while a thread is in its
    [run], nothing the server objects do is undefined, in any interleaving of the program, the
    worker threads and the sessions: no pointer to a server or to its state dangles or is null. At
    any time a server that no thread is in the [run] of can be stopped and destroyed: its threads
    end, and neither its state nor a session of it is left. *)
Theorem unmoved_servers_are_safe evs r :
  disciplined evs start -> run evs start = Some r ->
  exists s, r = Returns s /\ live s /\
    forall p sv, servers s !! p = Some sv -> (forall i x, impl_of p s = Some (i, x) -> i ∉ callers s) ->
      can_be_destroyed p s.
Proof.
  intros D E. destruct (run_live evs start r live_start D E) as (s & -> & L). exists s.
  split; [done|]. split; [done|]. intros p sv Hp Hc. by apply shutdown with sv.
Qed.

(** A server with two threads: one has accepted a connection before the second has begun. *)
Definition sample_life : list event :=
  [New 1; AsyncRun 1 2; ThreadStart 0 0; Accept 0; Message 1; Suppress 1 true; New 2; Accept 0; SessionCloses 1;
   SessionStops 3; StopIo 1; ThreadFinish 0 0; ThreadStart 0 1; ThreadFinish 0 1; StopJoin 1; Destroy 1].

Lemma unmoved_servers_are_safe_witness :
  exists s, run sample_life start = Some (Returns s) /\ servers s !! 1 = None /\ sessions s = ∅ /\
    is_Some (servers s !! 2) /\ can_be_destroyed 2 s.
Proof.
  destruct (run sample_life start) as [r|] eqn:E; [|vm_compute in E; discriminate E].
  assert (D : disciplined sample_life start).
  { vm_compute. repeat (split; [first [exact I | eexists; reflexivity | split; [eexists; reflexivity|];
      intros i x [= <- _]; apply not_elem_of_nil]|]). exact I. }
  destruct (unmoved_servers_are_safe sample_life r D E) as (s & -> & L & H). exists s. split; [done|].
  vm_compute in E. injection E as <-. split; [vm_compute; reflexivity|]. split; [vm_compute; reflexivity|].
  split; [vm_compute; eexists; reflexivity|]. eapply (H 2); [vm_compute; reflexivity|].
  intros i x _. apply not_elem_of_nil.
Defined.

(** ** Moves

    The impl and what was made for it go on pointing to the server that was moved from. *)

Lemma served_spec i s : served i s = true <->
  i ∈ callers s \/ exists j y, impls s !! j = Some y /\ Running i ∈ loop_workers_ y.
Proof.
  unfold served. rewrite orb_true_iff, bool_decide_eq_true, existsb_exists. f_equiv. split.
  - intros ([j y] & Hin & E). apply existsb_exists in E as (t & Ht & Et). destruct t as [|k|]; [done| |done].
    apply Z.eqb_eq in Et as ->. exists j, y. apply list_elem_of_In, elem_of_map_to_list in Hin.
    split; [done|]. by apply list_elem_of_In.
  - intros (j & y & Hj & Hy). exists (j, y). split; [by apply list_elem_of_In, elem_of_map_to_list|].
    apply existsb_exists. exists (Running i). split; [by apply list_elem_of_In|apply Z.eqb_refl].
Qed.

(** A server that is moved from one variable to another serves nobody: the sessions accepted
    from then on have no dispatcher, and their first message, or their end, is
    undefined; a thread of it that has not begun reads a null pointer; and when the variable
    it was moved from is gone, accepting a connection is undefined. *)
Theorem moved_server_serves_nobody s p q sv i x :
  live s -> servers s !! p = Some sv -> impl_of p s = Some (i, x) -> servers s !! q = None ->
  exists s1, step (MoveConstruct q p) s = Some (Returns s1) /\
    (forall k, loop_workers_ x !! k = Some (Starting p) -> step (ThreadStart i k) s1 = Some Undefined) /\
    (served i s = true -> exists s2, step (Accept i) s1 = Some (Returns s2) /\
       step (Message (fresh s)) s2 = Some Undefined /\ step (SessionCloses (fresh s)) s2 = Some Undefined) /\
    exists s3, step (Destroy p) s1 = Some (Returns s3) /\
      (served i s = true -> step (Accept i) s3 = Some Undefined).
Proof.
  intros L Hp Hi Hq. destruct (impl_of_live s p sv L Hp) as (i' & d & x' & -> & Hi' & Hx & Hpx).
  rewrite Hi in Hi'. injection Hi' as <- <-. assert (Hne : q <> p) by congruence.
  set (moved := {| pimpl := None; disp_ := None |}).
  set (s1 := set_servers (<[p := moved]> (<[q := {| pimpl := Some i; disp_ := Some d |}]>
               (<[q := moved]> (servers s)))) (set_servers (<[q := moved]> (servers s)) s)).
  exists s1. assert (Hp1 : servers s1 !! p = Some moved) by apply lookup_insert_eq. split.
  { cbn [step]. rewrite Hq. unfold move_construct, move_assign. destruct (Z.eqb_spec q p); [done|].
    simpl (servers _). rewrite lookup_insert_eq, lookup_insert_ne, Hp by done. done. }
  assert (N : impl_of p s1 = None) by (unfold impl_of; by rewrite Hp1).
  assert (Hx1 : impls s1 !! i = Some x) by done.
  split_and!.
  - intros k Hk. cbn [step]. rewrite Hx1. simpl (_ ≫= _). unfold thread_start. by rewrite Hk, N.
  - intros Hs. assert (Hs1 : served i s1 = true) by done. eexists. split.
    { cbn [step]. rewrite Hx1. simpl (_ ≫= _). rewrite Hs1. unfold on_accept. by rewrite Hpx, Hp1. }
    set (s2 := Build_state _ _ _ _ _). assert (Hs2 : served i s2 = true).
    { apply served_spec. apply served_spec in Hs1 as [Hc|(j & y & Hj & Hy)]; [by left|right].
      destruct (decide (i = j)) as [<-|Hij].
      - eexists i, _. split; [apply lookup_insert_eq|]. simpl. congruence.
      - exists j, y. split; [|done]. simpl. by rewrite lookup_insert_ne. }
    assert (Hn : sessions s2 !! fresh s = Some {| s_io := i; s_parent := p; s_disp := None;
                                                 s_suppress := suppress_exceptions_ x |}).
    { simpl. by rewrite lookup_insert_eq. }
    assert (N2 : impl_of p s2 = None) by (unfold impl_of; simpl; by rewrite lookup_insert_eq).
    unfold step, on_session. rewrite Hn. simpl (_ ≫= _). rewrite Hs2. split; [done|].
    unfold close_session, through. simpl (s_parent _). by rewrite N2.
  - eexists. split; [cbn [step]; unfold destroy; rewrite Hp1; reflexivity|].
    intros Hs. set (s3 := set_servers _ s1). assert (Hs3 : served i s3 = true) by done.
    cbn [step]. change (impls s3) with (impls s1). rewrite Hx1. simpl (_ ≫= _). rewrite Hs3.
    unfold on_accept. simpl (servers _). by rewrite Hpx, lookup_delete_eq.
Qed.
