(* ===== verification/Client.v ===== *)
(** * The client

    Models [client] (include/rpc/client.inl, lib/rpc/client.cc) and [rpc_error]:
    calls numbered by an atomic int, the work posted to the client's strand, the
    table of ongoing calls with their promises, and the read handler that
    resolves them. One thread runs the io_service, so posted work, reads and
    write completions are single steps; the application's calls interleave with
    them at will.

    A promise is an identity; its shared state holds nothing, a value or an exception.
    An exception that leaves a handler leaves the io thread's function and ends the
    program ([Raises]). *)

From S2P Require Import Prelude FloatBits MsgObject Pack Visitor Adaptors Handler Response.
From S2P Require Import AsyncWriter Unpacker Receiver Server.

#[local] Open Scope handler_scope.

(** ** Promises *)

Inductive call_exn :=
| rpc_error (what func_name : bytes) (error : handle)
| broken_promise
| future_error.                    (* already satisfied, already retrieved *)

Inductive shared_state := Empty | Value (h : handle) | Exception (x : call_exn).

Record promise := { state_of : shared_state; retrieved : bool (* get_future was called *) }.

Definition new_promise : promise := {| state_of := Empty; retrieved := false |}.

(** [set_value] and [set_exception]: once. *)
Definition satisfy (v : shared_state) (p : promise) : option promise :=
  match state_of p with
  | Empty => Some {| state_of := v; retrieved := retrieved p |}
  | _ => None
  end.

(** The destructor of an unsatisfied promise. *)
Definition abandon (p : promise) : promise :=
  match state_of p with
  | Empty => {| state_of := Exception broken_promise; retrieved := retrieved p |}
  | _ => p
  end.

(** ** The state *)

Inductive connection_state := initial | connected | disconnected | reset.

Inductive posted :=
| PCall (idx : Z) (func_name : bytes) (p : Z) (buffer : bytes)   (* post(buffer, idx, func_name, p) *)
| PSend (buffer : bytes)                                         (* post(buffer) *)
| PErase (id : Z).                                               (* ongoing_calls_.erase(id) *)

Section Client.
Context {rx : Type} `{Receiver rx}.

Record client := {
  call_idx_ : Z;
  ongoing_calls_ : gmap Z (bytes * Z);
  promises : gmap Z promise;
  next_promise : Z;
  strand_ : list posted;
  pac_ : rx;
  writer_ : async_writer;
  reading : bool;                  (* an async_read_some is under way *)
  connecting : bool;
  is_connected_ : bool;
  state_ : connection_state;
  connection_ec_ : option Z;
  timeout_ : option Z;
  c_heap : zones;
}.

Definition new_client (new_pac : rx) : client :=
  {| call_idx_ := 0; ongoing_calls_ := ∅; promises := ∅; next_promise := 0; strand_ := [];
     pac_ := new_pac; writer_ := new_writer; reading := false; connecting := true;
     is_connected_ := false; state_ := initial; connection_ec_ := None; timeout_ := None;
     c_heap := no_zones |}.

Definition set_calls (m : gmap Z (bytes * Z)) (ps : gmap Z promise) (n : Z) (c : client) : client :=
  {| call_idx_ := call_idx_ c; ongoing_calls_ := m; promises := ps; next_promise := n;
     strand_ := strand_ c; pac_ := pac_ c; writer_ := writer_ c; reading := reading c;
     connecting := connecting c; is_connected_ := is_connected_ c; state_ := state_ c;
     connection_ec_ := connection_ec_ c; timeout_ := timeout_ c; c_heap := c_heap c |}.
Definition set_idx (i : Z) (c : client) : client :=
  {| call_idx_ := i; ongoing_calls_ := ongoing_calls_ c; promises := promises c;
     next_promise := next_promise c; strand_ := strand_ c; pac_ := pac_ c; writer_ := writer_ c;
     reading := reading c; connecting := connecting c; is_connected_ := is_connected_ c;
     state_ := state_ c; connection_ec_ := connection_ec_ c; timeout_ := timeout_ c;
     c_heap := c_heap c |}.
Definition set_strand (l : list posted) (c : client) : client :=
  {| call_idx_ := call_idx_ c; ongoing_calls_ := ongoing_calls_ c; promises := promises c;
     next_promise := next_promise c; strand_ := l; pac_ := pac_ c; writer_ := writer_ c;
     reading := reading c; connecting := connecting c; is_connected_ := is_connected_ c;
     state_ := state_ c; connection_ec_ := connection_ec_ c; timeout_ := timeout_ c;
     c_heap := c_heap c |}.
Definition set_io (p : rx) (w : async_writer) (z : zones) (c : client) : client :=
  {| call_idx_ := call_idx_ c; ongoing_calls_ := ongoing_calls_ c; promises := promises c;
     next_promise := next_promise c; strand_ := strand_ c; pac_ := p; writer_ := w;
     reading := reading c; connecting := connecting c; is_connected_ := is_connected_ c;
     state_ := state_ c; connection_ec_ := connection_ec_ c; timeout_ := timeout_ c; c_heap := z |}.
Definition set_connection (rd cg cd : bool) (st : connection_state) (ec : option Z) (c : client)
    : client :=
  {| call_idx_ := call_idx_ c; ongoing_calls_ := ongoing_calls_ c; promises := promises c;
     next_promise := next_promise c; strand_ := strand_ c; pac_ := pac_ c; writer_ := writer_ c;
     reading := rd; connecting := cg; is_connected_ := cd; state_ := st; connection_ec_ := ec;
     timeout_ := timeout_ c; c_heap := c_heap c |}.
Definition set_timeout (t : option Z) (c : client) : client :=
  {| call_idx_ := call_idx_ c; ongoing_calls_ := ongoing_calls_ c; promises := promises c;
     next_promise := next_promise c; strand_ := strand_ c; pac_ := pac_ c; writer_ := writer_ c;
     reading := reading c; connecting := connecting c; is_connected_ := is_connected_ c;
     state_ := state_ c; connection_ec_ := connection_ec_ c; timeout_ := t; c_heap := c_heap c |}.
Definition set_promise (p : Z) (x : promise) (c : client) : client :=
  set_calls (ongoing_calls_ c) (<[p := x]> (promises c)) (next_promise c) c.
Definition post (k : posted) (c : client) : client := set_strand (strand_ c ++ [k]) c.

(** ** Connecting *)

(** The handler of [async_connect]. *)
Definition on_connected (ec : option Z) (c : client) : client :=
  match ec with
  | None => set_connection true false true connected (connection_ec_ c) c
  | Some e => set_connection (reading c) false (is_connected_ c) disconnected (Some e) c
  end.

Inductive wait_result := Proceed | Blocked | SystemError (ec : Z) | ConnTimeout (ms : Z).

(** One turn of [wait_conn]'s loop; [expired]: [wait_for] came back because the time was over. *)
Definition wait_conn (expired : bool) (c : client) : wait_result :=
  if is_connected_ c then Proceed
  else match connection_ec_ c with
  | Some ec => SystemError ec
  | None =>
    match timeout_ c with
    | Some ms => if expired then ConnTimeout ms else Blocked
    | None => Blocked
    end
  end.

(** [what()] of the [rpc::timeout] it throws then. *)
Definition conn_timeout_text (addr : bytes) (port ms : Z) : bytes :=
  str "rpc::timeout: " ++ str "Timeout of " ++ decimal ms ++ str "ms while connecting to " ++
  addr ++ str ":" ++ decimal port.

(** ** Calls *)

(** [++call_idx_] on an atomic int. *)
Definition get_next_call_idx (c : client) : Z * client :=
  let i := sext 32 (call_idx_ c + 1) in (i, set_idx i c).

Definition call_type (A : Type) `{TupleElems A} : Type :=
  tuple (cint C_unsigned_char * (cint C_int * (bytes * (tuple A * unit)))).
Definition send_type (A : Type) `{TupleElems A} : Type :=
  tuple (cint C_unsigned_char * (bytes * (tuple A * unit))).

(** [async_call] after [wait_conn]: the promise whose future is returned. *)
Definition async_call {A} `{TupleElems A} (func_name : bytes) (args : A) (c : client)
    : res adaptor_exn (Z * client) :=
  let '(idx, c) := get_next_call_idx c in
  (let? buffer := pack (Tuple (0, (idx, (func_name, (Tuple args, tt)))) : call_type A) [] in
   let p := next_promise c in
   let c := set_calls (ongoing_calls_ c)
              (<[p := {| state_of := Empty; retrieved := true |}]> (promises c)) (p + 1) c in
   Ok (p, post (PCall idx func_name p buffer) c))%res.

(** [send]: it does not wait for the connection. *)
Definition send {A} `{TupleElems A} (func_name : bytes) (args : A) (c : client)
    : res adaptor_exn client :=
  (let? buffer := pack (Tuple (2, (func_name, (Tuple args, tt))) : send_type A) [] in
   Ok (post (PSend buffer) c))%res.

Inductive call_outcome := Result (h : handle) | CallException (x : call_exn) | Timeout (what : bytes).

Definition throw_timeout (func_name : bytes) (timeout : Z) : call_outcome :=
  Timeout (str "rpc::timeout: " ++ str "Timeout of " ++ decimal timeout ++
           str "ms while calling RPC function '" ++ func_name ++ str "'").

(** The rest of [call]: waiting for the future, until it is ready or, with a timeout set, the
    time is over ([expired]). [None]: it still waits. *)
Definition finish_call (func_name : bytes) (p : Z) (expired : bool) (c : client) : option call_outcome :=
  x ← promises c !! p;
  match state_of x with
  | Value h => Some (Result h)
  | Exception e => Some (CallException e)
  | Empty =>
    match timeout_ c with
    | Some t => if expired then Some (throw_timeout func_name t) else None
    | None => None
    end
  end.

(** [wait_all_responses]: each ongoing call's future is asked for again.
    [None]: it waits for one. *)
Fixpoint wait_all (calls : list (Z * (bytes * Z))) (ps : gmap Z promise) : option (res call_exn unit) :=
  match calls with
  | [] => Some (Ok tt)
  | (_, (_, p)) :: calls =>
    x ← ps !! p;
    if retrieved x : bool then Some (Throw future_error)
    else match state_of x with
    | Empty => None
    | _ => wait_all calls (<[p := {| state_of := state_of x; retrieved := true |}]> ps)
    end
  end.

Definition wait_all_responses (c : client) : option (res call_exn unit) :=
  wait_all (map_to_list (ongoing_calls_ c)) (promises c).

(** ** The strand *)

Definition do_client_write (d : bytes) (c : client) : outcome client :=
  match write d (writer_ c) with
  | Returns w => Returns (set_io (pac_ c) w (c_heap c) c)
  | Raises x => Raises x
  | Undefined => Undefined
  end.

(** [insert] does nothing for a key that is there, and the new promise goes; [erase]
    destroys the promise with its entry. *)
Definition insert_call (id : Z) (func_name : bytes) (p : Z) (c : client) : client :=
  match ongoing_calls_ c !! id with
  | Some _ =>
    match promises c !! p with
    | Some x => set_promise p (abandon x) c
    | None => c
    end
  | None => set_calls (<[id := (func_name, p)]> (ongoing_calls_ c)) (promises c) (next_promise c) c
  end.

Definition erase_call (id : Z) (c : client) : client :=
  match ongoing_calls_ c !! id with
  | Some (_, p) =>
    let ps := match promises c !! p with
              | Some x => <[p := abandon x]> (promises c)
              | None => promises c
              end in
    set_calls (delete id (ongoing_calls_ c)) ps (next_promise c) c
  | None => c
  end.

Definition run_posted (k : posted) (c : client) : outcome client :=
  match k with
  | PCall idx func_name p buffer =>
    do_client_write buffer (insert_call (wrap 32 idx) func_name p c)
  | PSend buffer => do_client_write buffer c
  | PErase id => Returns (erase_call id c)
  end.

(** ** Reading *)

(** [ongoing_calls_[id]]: an entry with a default promise where there is none. *)
Definition current_call (id : Z) (c : client) : bytes * Z * client :=
  match ongoing_calls_ c !! id with
  | Some (name, p) => (name, p, c)
  | None =>
    let p := next_promise c in
    ([], p, set_calls (<[id := ([], p)]> (ongoing_calls_ c)) (<[p := new_promise]> (promises c)) (p + 1) c)
  end.

(** What the response resolves the promise with. When it is satisfied already, [set_value]
    throws, and [set_exception] in the [catch] throws again. *)
Definition resolve (r : response) (c : client) : outcome client :=
  let '(name, p, c) := current_call (r_id r) c in
  match promises c !! p with
  | None => Undefined
  | Some x =>
    let v := match r_error r with
             | Some e => Exception (rpc_error (str "rpc::rpc_error during call") name e)
             | None => Value (default nil_handle (r_result r))
             end in
    match satisfy v x with
    | Some x => Returns (post (PErase (r_id r)) (set_promise p x c))
    | None => Raises (std_exception (str "std::future_error: Promise already satisfied"))
    end
  end.

(** One received object, in a zone of its own. *)
Definition on_message (o : object) (c : client) : outcome client :=
  let '(z, m) := new_zone (c_heap c) in
  let e := {| loc := new_locals; heap := m; console := [] |} in
  match response_of {| h_obj := o; h_in := Some z; h_own := Some z |} e with
  | (Returns r, e) => resolve r (set_io (pac_ c) (writer_ c) (heap e) c)
  | (Raises x, _) => Raises x
  | (Undefined, _) => Undefined
  end.

Fixpoint on_messages (os : list object) (c : client) : outcome client :=
  match os with
  | [] => Returns c
  | o :: os =>
    match on_message o c with
    | Returns c => on_messages os c
    | x => x
    end
  end.

(** The read handler. *)
Definition on_bytes (d : bytes) (c : client) : outcome client :=
  match feed d (pac_ c) with
  | (Ok os, p) => on_messages os (set_io p (writer_ c) (c_heap c) c)
  | (Throw e, _) => of_unpacker_exn e
  end.

Inductive read_failure := eof | connection_reset | other_failure.

(** Nothing is told to the calls under way. *)
Definition on_read_failure (f : read_failure) (c : client) : client :=
  let st := match f with eof | connection_reset => disconnected | other_failure => state_ c end in
  set_connection false (connecting c) (is_connected_ c) st (connection_ec_ c) c.

(** ** Events *)

Inductive client_event :=
| Connected (ec : option Z)
| AsyncCall (A : Type) (HA : TupleElems A) (func_name : bytes) (args : A)
| Send (A : Type) (HA : TupleElems A) (func_name : bytes) (args : A)
| SetTimeout (t : option Z)
| Posted                           (* the strand runs its next task *)
| Bytes (d : bytes)
| ReadFailure (f : read_failure)
| Written
| WriteError (transferred : nat).

Definition update (o : outcome async_writer) (c : client) : outcome client :=
  match o with
  | Returns w => Returns (set_io (pac_ c) w (c_heap c) c)
  | Raises x => Raises x
  | Undefined => Undefined
  end.

(** One event; [None] when it cannot happen. A call that throws changes the index only, and
    one that times out while connecting changes nothing. *)
Definition client_step (ev : client_event) (c : client) : option (outcome client) :=
  match ev with
  | Connected ec => if connecting c then Some (Returns (on_connected ec c)) else None
  | AsyncCall A HA name args =>
    match wait_conn false c with
    | Proceed =>
      match async_call name args c with
      | Ok (_, c) => Some (Returns c)
      | Throw _ => Some (Returns (snd (get_next_call_idx c)))
      end
    | Blocked => None
    | SystemError _ | ConnTimeout _ => Some (Returns c)
    end
  | Send A HA name args =>
    match send name args c with Ok c => Some (Returns c) | Throw _ => Some (Returns c) end
  | SetTimeout t => Some (Returns (set_timeout t c))
  | Posted =>
    match strand_ c with
    | [] => None
    | k :: ks => Some (run_posted k (set_strand ks c))
    end
  | Bytes d => if reading c then Some (on_bytes d c) else None
  | ReadFailure f => if reading c then Some (Returns (on_read_failure f c)) else None
  | Written => if pending (writer_ c) then Some (update (on_sent (writer_ c)) c) else None
  | WriteError n => if pending (writer_ c) then Some (update (on_send_error n (writer_ c)) c) else None
  end.

Fixpoint client_run (evs : list client_event) (c : client) : option (outcome client) :=
  match evs with
  | [] => Some (Returns c)
  | ev :: evs =>
    match client_step ev c with
    | Some (Returns c) => client_run evs c
    | o => o
    end
  end.

End Client.
