(* ===== verification/ClientSpec.v ===== *)
(** * What the client promises

    A call is sent as the message the server expects, and every response resolves the promise
    of its own call and no other; and the cases in which a call's future is
    never resolved or a response ends the program. *)

From S2P Require Import Prelude FloatBits MsgObject Pack Visitor Format Decode Roundtrip.
From S2P Require Import Adaptors AdaptorLaws Handler Response AsyncWriter Receiver.
From S2P Require Import Server Client.

(** ** What is sent *)

Definition call_message (idx : Z) (name : bytes) (args : object) : object :=
  ARRAY [POSITIVE_INTEGER 0; object_integer C_int idx; STR name; args].

Definition waiting {rx} (id : Z) (name : bytes) (p : Z) (c : client (rx := rx)) : Prop :=
  ongoing_calls_ c !! id = Some (name, p) /\
  promises c !! p = Some {| state_of := Empty; retrieved := true |}.

Lemma int_valid i : int_min C_int <= sext 32 i <= int_max C_int.
Proof.
  change (int_min C_int) with (-2147483648). change (int_max C_int) with 2147483647.
  unfold sext. pose proof (wrap_range 32 i ltac:(lia)) as H. change (2 ^ 32) with 4294967296 in *.
  change (2 ^ (32 - 1)) with 2147483648. cbv zeta. destruct (Z.ltb_spec (wrap 32 i) 2147483648); lia.
Qed.

Lemma call_packs {A} {HA : TupleElems A} (HL : @ElemsLaws A HA) idx name (v : A) os :
  valid_elems v -> object_elems v = Ok os -> arity (T := A) < 2 ^ 32 -> len name < 2 ^ 32 ->
  int_min C_int <= idx <= int_max C_int ->
  pack (Tuple (0, (idx, (name, (Tuple v, tt)))) : call_type A) [] =
    Ok (encode (call_message idx name (ARRAY os))) /\ wf_object (call_message idx name (ARRAY os)).
Proof.
  intros Hv Ho Ha Hn Hi.
  destruct (elems_laws v Hv) as (os' & E & El & _). rewrite Ho in E. injection E as <-.
  pose proof (len_nonneg os). pose proof (len_nonneg name).
  destruct (laws (Tuple (0, (idx, (name, (Tuple v, tt)))) : call_type A)) as (o & Eo & _ & Hw & Ep).
  { split; [|done]. split; [vm_compute; intuition congruence|].
    split; [exact Hi|]. split; [exact Hn|]. split; [by split|exact I]. }
  assert (o = call_message idx name (ARRAY os)) as ->; [|by rewrite Ep].
  cbn -[object_integer checked_get_container_size] in Eo. rewrite Ho in Eo.
  rewrite (checked_ok (len name)), (checked_ok (arity (T := A))) in Eo by lia. simpl in Eo.
  by injection Eo as <-.
Qed.

(** A call sends one message: the type 0, the next call index, the name and the
    arguments, encoded; the promise whose future is returned is new; and
    nothing else changes. *)
Theorem async_call_message {rx A} {HA : TupleElems A} (HL : @ElemsLaws A HA) name (v : A) os
    (c : client (rx := rx)) :
  valid_elems v -> object_elems v = Ok os -> arity (T := A) < 2 ^ 32 -> len name < 2 ^ 32 ->
  let idx := sext 32 (call_idx_ c + 1) in
  exists c', async_call name v c = Ok (next_promise c, c') /\
    call_idx_ c' = idx /\
    strand_ c' = strand_ c ++ [PCall idx name (next_promise c) (encode (call_message idx name (ARRAY os)))] /\
    promises c' = <[next_promise c := {| state_of := Empty; retrieved := true |}]> (promises c) /\
    ongoing_calls_ c' = ongoing_calls_ c /\ writer_ c' = writer_ c /\ pac_ c' = pac_ c.
Proof.
  intros Hv Ho Ha Hn idx. unfold async_call, get_next_call_idx. cbv zeta. fold idx.
  destruct (call_packs HL idx name v os Hv Ho Ha Hn (int_valid _)) as [-> _].
  eexists. split; [reflexivity|]. by split_and!.
Qed.

(** After 2^31 - 1 calls the index wraps to a negative number, and what the
    client then sends is not a call for the dispatcher: the id does not convert. *)
Theorem call_index_overflow {rx A} {HA : TupleElems A} (HL : @ElemsLaws A HA) name (v : A) os
    (c : client (rx := rx)) :
  valid_elems v -> object_elems v = Ok os -> arity (T := A) < 2 ^ 32 -> len name < 2 ^ 32 ->
  call_idx_ c = 2 ^ 31 - 1 ->
  exists c' msg, async_call name v c = Ok (next_promise c, c') /\
    strand_ c' = strand_ c ++ [PCall (- 2 ^ 31) name (next_promise c) (encode msg)] /\
    as_ Dispatcher.call_t msg = Throw type_error.
Proof.
  intros Hv Ho Ha Hn Hi. unfold async_call, get_next_call_idx. rewrite Hi.
  change (sext 32 (2 ^ 31 - 1 + 1)) with (- 2 ^ 31).
  destruct (call_packs HL (- 2 ^ 31) name v os Hv Ho Ha Hn (int_valid (2 ^ 31))) as [-> _].
  eexists _, (call_message (- 2 ^ 31) name (ARRAY os)). split; [reflexivity|].
  split; [reflexivity|]. reflexivity.
Qed.

Section Spec.
Context {rx : Type} {HR : Receiver rx} {lim : unpack_limit} {max : Z} {nesting : nat}.
Context {HL : @ReceiverLaws rx HR lim max nesting}.
Implicit Type c : client (rx := rx).

(** ** Responses *)

(** What a future is resolved with: the result, or the error under the function's name. *)
Definition resolved_as (name : bytes) (error result : object) (st : shared_state) : Prop :=
  match st with
  | Value h => error = NIL /\ h_obj h = result
  | Exception (rpc_error _ func_name h) => error <> NIL /\ h_obj h = error /\ func_name = name
  | _ => False
  end.

(** Of the client only the promise [p] and the strand (and the zones) changed. *)
Definition only_resolves (p : Z) (x : promise) (id : Z) c c' : Prop :=
  promises c' = <[p := x]> (promises c) /\ ongoing_calls_ c' = ongoing_calls_ c /\
  strand_ c' = strand_ c ++ [PErase id] /\ pac_ c' = pac_ c /\ reading c' = reading c /\
  next_promise c' = next_promise c.

(** Receiving a response is resolving it. *)
Lemma on_message_response id error result c :
  0 <= id < 2 ^ 32 ->
  exists r m, on_message (response_object id error result) c =
      resolve r (set_io (pac_ c) (writer_ c) m c) /\ r_id r = id /\
    forall name, resolved_as name error result
      match r_error r with
      | Some e => Exception (rpc_error (str "rpc::rpc_error during call") name e)
      | None => Value (default nil_handle (r_result r))
      end.
Proof.
  intros Hid. unfold on_message. cbn [new_zone]. destruct (response_of_object id error result
    (Some (next_zone (c_heap c))) {| loc := new_locals; heap := snd (new_zone (c_heap c)); console := [] |} Hid)
    as (r & e' & E & H1 & _ & H3 & H4).
  exists r, (heap e'). cbn [new_zone snd] in E. rewrite E. split; [done|]. split; [done|].
  intros name. rewrite H3. destruct (r_error r) as [h|]; simpl; naive_solver.
Qed.

Lemma on_response id name p error result c :
  0 <= id < 2 ^ 32 -> waiting id name p c ->
  exists c' x, on_message (response_object id error result) c = Returns c' /\
    only_resolves p x id c c' /\ resolved_as name error result (state_of x) /\ retrieved x = true.
Proof.
  intros Hid [Hc Hp]. destruct (on_message_response id error result c Hid) as (r & m & -> & <- & Hr).
  unfold resolve, current_call. cbn [set_io ongoing_calls_]. rewrite Hc.
  cbn [set_io promises]. rewrite Hp. unfold satisfy. cbn [state_of retrieved].
  eexists _, _. split; [reflexivity|]. split; [by split_and!|]. split; [apply Hr|done].
Qed.

(** A batch of responses, each to a call under way. *)
Record answer := { a_id : Z; a_name : bytes; a_promise : Z; a_error : object; a_result : object }.

Definition answer_object (a : answer) : object := response_object (a_id a) (a_error a) (a_result a).

Definition answered c (a : answer) : Prop :=
  exists x, promises c !! a_promise a = Some x /\
    resolved_as (a_name a) (a_error a) (a_result a) (state_of x).

Lemma on_responses : forall l c,
  NoDup (map a_promise l) ->
  Forall (fun a => 0 <= a_id a < 2 ^ 32 /\ waiting (a_id a) (a_name a) (a_promise a) c) l ->
  exists c', on_messages (map answer_object l) c = Returns c' /\ Forall (answered c') l /\
    (forall p, p ∉ map a_promise l -> promises c' !! p = promises c !! p) /\
    ongoing_calls_ c' = ongoing_calls_ c /\ strand_ c' = strand_ c ++ map (fun a => PErase (a_id a)) l /\
    pac_ c' = pac_ c /\ reading c' = reading c.
Proof.
  induction l as [|a l IH]; intros c Hnd Hw.
  - exists c. split_and!; try done. simpl. by rewrite app_nil_r.
  - apply NoDup_cons in Hnd as [Hni Hnd]. apply Forall_cons in Hw as [[Hid Ha] Hw].
    destruct (on_response _ _ _ (a_error a) (a_result a) c Hid Ha)
      as (c1 & x & E & (Ep & Eo & Es & Epac & Er & _) & Hx & _).
    destruct (IH c1 Hnd) as (c' & E' & Hans & Hoth & Ho & Hs & Hpac & Hrd).
    { apply Forall_forall. intros b Hb. rewrite Forall_forall in Hw.
      destruct (Hw b Hb) as [Hid' [H1 H2]]. split; [done|]. split; [by rewrite Eo|].
      rewrite Ep, lookup_insert_ne; [done|]. intros Heq. apply Hni. rewrite Heq.
      apply list_elem_of_fmap. by exists b. }
    exists c'. cbn [map on_messages]. unfold answer_object at 1. rewrite E. split; [done|].
    split_and!; try congruence.
    + constructor; [|done]. exists x. rewrite (Hoth _ Hni), Ep. by rewrite lookup_insert_eq.
    + intros p Hp. apply not_elem_of_cons in Hp as [Hp1 Hp2]. rewrite (Hoth _ Hp2), Ep.
      by rewrite lookup_insert_ne.
    + rewrite Hs, Es. simpl. by rewrite <- app_assoc.
Qed.

(** C6. Every response resolves its own call: when bytes arrive that complete any number of
    responses, in any order, each future under way gets the result, or the
    error as [rpc_error] with its function's name, of the response with its id;
    every other future is left alone; and no exception escapes (short of
    memory). *)
Theorem responses_resolve_calls d d0 l rest c :
  reading c = true -> awaiting d0 (pac_ c) -> len d <= max -> len (d0 ++ d) < 2 ^ 32 ->
  stream lim (d0 ++ d) (map answer_object l) rest ->
  Forall (fun a => (depth (answer_object a) <= nesting)%nat) l ->
  NoDup (map a_promise l) ->
  Forall (fun a => 0 <= a_id a < 2 ^ 32 /\ waiting (a_id a) (a_name a) (a_promise a) c) l ->
  match client_step (Bytes d) c with
  | Some (Returns c') => Forall (answered c') l /\
      (forall p, p ∉ map a_promise l -> promises c' !! p = promises c !! p) /\
      ongoing_calls_ c' = ongoing_calls_ c /\ awaiting rest (pac_ c') /\ reading c' = true
  | Some (Raises t) => t = std_exception (str "std::bad_alloc")
  | _ => False
  end.
Proof.
  intros Hr Haw Hd Hsz Hst Hn Hnd Hw. simpl. rewrite Hr. unfold on_bytes.
  pose proof (feed_ok d0 d (pac_ c) _ rest Haw Hd Hsz Hst ltac:(by apply Forall_map)) as Hf.
  destruct (feed d (pac_ c)) as [[os|e] p]; [|by rewrite Hf]. destruct Hf as [-> Haw'].
  destruct (on_responses l (set_io p (writer_ c) (c_heap c) c) Hnd Hw)
    as (c' & -> & Hans & Hoth & Ho & _ & Hpac & Hrd).
  split_and!; [done|exact Hoth|exact Ho|by rewrite Hpac|by rewrite Hrd].
Qed.

(** ** A response too many *)

(** A second response to a call in one read ends the program: [set_value] throws
    because the promise is satisfied, and so does [set_exception] in the
    handler of that. *)
Theorem duplicate_response_terminates id name p error result error' result' c :
  0 <= id < 2 ^ 32 -> waiting id name p c ->
  exists t, on_messages [response_object id error result; response_object id error' result'] c = Raises t.
Proof.
  intros Hid Hw. destruct (on_response id name p error result c Hid Hw) as (c1 & x & E & Ho & Hx & _).
  cbn [on_messages]. rewrite E. destruct Ho as (Ep & Eo & _). destruct Hw as [Hc _].
  destruct (on_message_response id error' result' c1 Hid) as (r & m & -> & <- & _).
  unfold resolve, current_call. cbn [set_io ongoing_calls_]. rewrite Eo, Hc.
  cbn [set_io promises]. rewrite Ep, lookup_insert_eq. unfold satisfy.
  destruct (state_of x) as [|h|y]; [done|by eexists..].
Qed.

(** A response that comes before its call is registered, one nobody asked
    for, costs that call its answer: the call is not registered and its future gets
    [broken_promise], although its message is sent. *)
Theorem unsolicited_response_breaks_call id name error result q buffer c :
  0 <= id < 2 ^ 31 -> ongoing_calls_ c !! id = None -> q < next_promise c ->
  promises c !! q = Some {| state_of := Empty; retrieved := true |} ->
  exists c1, on_message (response_object id error result) c = Returns c1 /\
    forall c2, run_posted (PCall id name q buffer) c1 = Returns c2 ->
      promises c2 !! q = Some {| state_of := Exception broken_promise; retrieved := true |} /\
      ongoing_calls_ c2 = ongoing_calls_ c1.
Proof.
  intros Hid Hn Hq Hp.
  destruct (on_message_response id error result c ltac:(lia)) as (r & m & -> & E & _).
  unfold resolve, current_call. rewrite E. cbn [set_io ongoing_calls_]. rewrite Hn.
  cbn [promises set_calls]. rewrite lookup_insert_eq. eexists. split; [reflexivity|]. intros c2.
  unfold run_posted. rewrite wrap_small by lia. unfold insert_call. simpl.
  rewrite lookup_insert_eq, !lookup_insert_ne, Hp by lia. unfold do_client_write.
  destruct (write buffer _) as [w|t|]; [|done..]. intros [= <-]. simpl. by rewrite lookup_insert_eq.
Qed.

(** ** Waiting for everything *)

Lemma wait_all_retrieved : forall calls ps,
  Forall (fun kv => exists x, ps !! kv.2.2 = Some x /\ retrieved x = true) calls -> calls <> [] ->
  wait_all calls ps = Some (Throw future_error).
Proof.
  intros [|[id [name p]] calls] ps Hf Hn; [done|]. apply Forall_cons in Hf as [(x & Hx & Hr) _].
  simpl in *. rewrite Hx. simpl. by rewrite Hr.
Qed.

(** [wait_all_responses] throws whenever calls are under way: it asks their promises
    for a second future. *)
Theorem wait_all_responses_throws c :
  ongoing_calls_ c <> ∅ ->
  (forall id name p, ongoing_calls_ c !! id = Some (name, p) ->
   exists x, promises c !! p = Some x /\ retrieved x = true) ->
  wait_all_responses c = Some (Throw future_error).
Proof.
  intros Hn Hw. apply wait_all_retrieved.
  - apply Forall_forall. intros [id [name p]] Hin. apply elem_of_map_to_list in Hin.
    exact (Hw _ _ _ Hin).
  - intros E. by apply map_to_list_empty_iff in E.
Qed.

End Spec.
