(* ===== verification/ClientSafety.v ===== *)
(** * The client's promises over time

    An invariant of every state the client can reach, and what follows for the futures an
    application holds: a resolved one never changes, and once the connection is
    lost the calls under way are never resolved. *)

From S2P Require Import Prelude FloatBits MsgObject Visitor Format Adaptors Handler Response.
From S2P Require Import AsyncWriter Receiver Server Client ClientSpec.

(** What the strand still has to register, and to erase. *)
Definition to_insert (l : list posted) : list Z :=
  omap (fun k => match k with PCall _ _ p _ => Some p | _ => None end) l.
Definition to_erase (l : list posted) : list Z :=
  omap (fun k => match k with PErase id => Some id | _ => None end) l.

Lemma to_insert_app k l : to_insert (k ++ l) = to_insert k ++ to_insert l.
Proof. apply omap_app. Qed.
Lemma to_erase_app k l : to_erase (k ++ l) = to_erase k ++ to_erase l.
Proof. apply omap_app. Qed.

(** A future keeps what it has: nothing, or the value it was resolved with. *)
Definition futures_kept (ps ps' : gmap Z promise) : Prop :=
  forall p x, ps !! p = Some x -> exists x', ps' !! p = Some x' /\
    (state_of x <> Empty -> state_of x' = state_of x).

Lemma futures_kept_refl ps : futures_kept ps ps.
Proof. intros p x Hx. by exists x. Qed.

Lemma futures_kept_trans ps ps' ps'' : futures_kept ps ps' -> futures_kept ps' ps'' -> futures_kept ps ps''.
Proof.
  intros H1 H2 p x Hx. destruct (H1 p x Hx) as (x' & Hx' & E1). destruct (H2 p x' Hx') as (x'' & Hx'' & E2).
  exists x''. split; [done|]. intros Hn. rewrite E2, E1; [done|done|]. by rewrite E1.
Qed.

Section Safety.
Context {rx : Type} {HR : Receiver rx}.
Implicit Type c : client (rx := rx).

Definition satisfied c (p : Z) : Prop := exists x, promises c !! p = Some x /\ state_of x <> Empty.

Record wf c : Prop := {
  wf_next p : is_Some (promises c !! p) -> p < next_promise c;
  wf_known id name p : ongoing_calls_ c !! id = Some (name, p) -> is_Some (promises c !! p);
  wf_inj id id' name name' p : ongoing_calls_ c !! id = Some (name, p) ->
    ongoing_calls_ c !! id' = Some (name', p) -> id = id';
  wf_insert p : p ∈ to_insert (strand_ c) -> is_Some (promises c !! p) /\
    forall id name, ongoing_calls_ c !! id <> Some (name, p);
  wf_insert_once : NoDup (to_insert (strand_ c));
  wf_erase id : id ∈ to_erase (strand_ c) ->
    exists name p, ongoing_calls_ c !! id = Some (name, p) /\ satisfied c p;
  wf_erase_once : NoDup (to_erase (strand_ c));
}.

Lemma new_client_wf (p : rx) : wf (new_client p).
Proof.
  split; simpl; try (by intros; simplify_map_eq); try set_solver; try constructor.
Qed.

(** [c'] differs from [c] in other fields only. *)
Definition same_calls c c' : Prop :=
  ongoing_calls_ c' = ongoing_calls_ c /\ promises c' = promises c /\
  next_promise c' = next_promise c /\ strand_ c' = strand_ c.

Lemma same_calls_wf c c' : same_calls c c' -> wf c -> wf c'.
Proof.
  intros (E1 & E2 & E3 & E4) [H1 H2 H3 H4 H5 H6 H7].
  split; unfold satisfied; rewrite ?E1, ?E2, ?E3, ?E4; done.
Qed.

Definition kept c c' : Prop := futures_kept (promises c) (promises c').

Lemma kept_refl c : kept c c.
Proof. apply futures_kept_refl. Qed.

Lemma kept_eq c c' : promises c' = promises c -> kept c c'.
Proof. intros E. unfold kept. rewrite E. apply futures_kept_refl. Qed.

Lemma kept_same c c' : same_calls c c' -> kept c c'.
Proof. intros (_ & E & _). by apply kept_eq. Qed.

Lemma kept_trans c c' c'' : kept c c' -> kept c' c'' -> kept c c''.
Proof. apply futures_kept_trans. Qed.

Lemma abandon_state x : state_of x <> Empty -> state_of (abandon x) = state_of x.
Proof. unfold abandon. intros Hn. destruct (state_of x) eqn:E; congruence. Qed.

(** ** The operations *)

(** A new promise, held by no entry yet. *)
Lemma new_promise_wf c x :
  wf c -> let c' := set_calls (ongoing_calls_ c) (<[next_promise c := x]> (promises c)) (next_promise c + 1) c in
  wf c' /\ kept c c'.
Proof.
  intros [H1 H2 H3 H4 H5 H6 H7] c'.
  assert (Hnew : promises c !! next_promise c = None).
  { destruct (promises c !! next_promise c) eqn:E; [|done].
    specialize (H1 (next_promise c) ltac:(by rewrite E)). lia. }
  assert (Hold : forall p, is_Some (promises c !! p) ->
    <[next_promise c := x]> (promises c) !! p = promises c !! p).
  { intros p Hp. rewrite lookup_insert_ne; [done|]. intros <-. by rewrite Hnew in Hp; destruct Hp. }
  split; [split|]; simpl.
  - intros p Hp. destruct (decide (p = next_promise c)) as [->|Hne]; [lia|].
    rewrite lookup_insert_ne in Hp by done. specialize (H1 p Hp). lia.
  - intros id name p Hp. specialize (H2 _ _ _ Hp). by rewrite (Hold p H2).
  - done.
  - intros p Hp. destruct (H4 p Hp) as [Hs Ho]. split; [|done]. by rewrite (Hold p Hs).
  - done.
  - intros id Hid. destruct (H6 id Hid) as (name & p & Hp & y & Hy & Hn). exists name, p.
    split; [done|]. exists y. simpl. by rewrite Hold.
  - done.
  - intros p y Hy. exists y. split; [|done]. simpl. by rewrite Hold.
Qed.

Lemma async_call_wf {A} {HA : TupleElems A} name (v : A) c p c' :
  wf c -> async_call name v c = Ok (p, c') -> wf c' /\ kept c c'.
Proof.
  intros Hw. unfold async_call, get_next_call_idx.
  destruct (pack _ []) as [buffer|e]; [|done]. intros [= <- <-].
  set (c0 := set_idx _ c). assert (Hw0 : wf c0) by by apply (same_calls_wf c).
  destruct (new_promise_wf c0 {| state_of := Empty; retrieved := true |} Hw0) as [Hw1 Hk].
  set (c1 := set_calls _ _ _ c0) in *. split; [|done].
  destruct Hw1 as [H1 H2 H3 H4 H5 H6 H7].
  assert (Hfresh : next_promise c ∉ to_insert (strand_ c)).
  { intros Hin. destruct (wf_insert c Hw _ Hin) as [Hs _]. pose proof (wf_next c Hw _ Hs). lia. }
  split; cbn [post set_strand ongoing_calls_ promises next_promise strand_];
    rewrite ?to_insert_app, ?to_erase_app; simpl; rewrite ?app_nil_r; try done.
  - intros q. rewrite elem_of_app, list_elem_of_singleton. intros [Hq|Hq]; [by apply H4|]. subst q.
    split; [by rewrite lookup_insert_eq|]. intros id nm Hid.
    pose proof (wf_next c Hw _ (wf_known c Hw _ _ _ Hid)). lia.
  - apply NoDup_app. split; [done|]. split; [|apply NoDup_singleton].
    intros q Hq Hq'. apply list_elem_of_singleton in Hq'. by subst q.
Qed.

Lemma post_send_wf b c : wf c -> wf (post (PSend b) c) /\ kept c (post (PSend b) c).
Proof.
  intros [H1 H2 H3 H4 H5 H6 H7]. split; [|by apply kept_eq].
  split; cbn [post set_strand ongoing_calls_ promises next_promise strand_];
    rewrite ?to_insert_app, ?to_erase_app; simpl; rewrite ?app_nil_r; done.
Qed.

Lemma do_client_write_same d c c' : do_client_write d c = Returns c' -> same_calls c c'.
Proof. unfold do_client_write. destruct (write d _); [|done..]. by intros [= <-]. Qed.

Lemma insert_call_wf id name p c ks :
  wf c -> to_insert (strand_ c) = p :: to_insert ks -> to_erase (strand_ c) = to_erase ks ->
  wf (insert_call id name p (set_strand ks c)) /\ kept c (insert_call id name p (set_strand ks c)).
Proof.
  intros [H1 H2 H3 H4 H5 H6 H7] Ei Ee. rewrite Ei in H4, H5. rewrite Ee in H6, H7.
  apply NoDup_cons in H5 as [Hni Hnd]. destruct (H4 p (list_elem_of_here p _)) as [[x Hx] Hp].
  unfold insert_call. cbn [ongoing_calls_ set_strand promises].
  destruct (ongoing_calls_ c !! id) as [e|] eqn:Eid.
  - rewrite Hx.
    assert (Hk : kept c (set_promise p (abandon x) (set_strand ks c))).
    { intros q y Hy. simpl. destruct (decide (q = p)) as [->|Hne].
      - rewrite lookup_insert_eq. eexists. split; [done|]. intros Hn. simplify_eq.
        by apply abandon_state.
      - rewrite lookup_insert_ne by done. by exists y. }
    assert (Hsome : forall q, is_Some (<[p:=abandon x]> (promises c) !! q) <-> is_Some (promises c !! q)).
    { intros q. destruct (decide (q = p)) as [->|Hne].
      - rewrite lookup_insert_eq, Hx. split; by eexists.
      - by rewrite lookup_insert_ne. }
    split; [|done]. split; simpl.
    + intros q Hq. by apply H1, Hsome.
    + intros i n q Hq. by eapply Hsome, H2.
    + done.
    + intros q Hq. destruct (H4 q) as [Hs Ho]; [by right|]. split; [by apply Hsome|done].
    + done.
    + intros i Hi. destruct (H6 i Hi) as (n & q & Hq & y & Hy & Hn). exists n, q. split; [done|].
      destruct (Hk q y Hy) as (y' & Hy' & E). exists y'. split; [exact Hy'|]. by rewrite E.
    + done.
  - split; [|by apply kept_eq]. split; simpl.
    + done.
    + intros i n q. rewrite lookup_insert_Some. intros [[_ [= _ <-]]|[_ Hq]]; [by eexists|by eapply H2].
    + intros i i' n n' q. rewrite !lookup_insert_Some.
      intros [[<- [= _ <-]]|[Hi Hq]] [[<- Hq']|[Hi' Hq']]; [done| | |by eapply H3].
      * by destruct (Hp i' n').
      * injection Hq' as _ <-. by destruct (Hp i n).
    + intros q Hq. destruct (H4 q) as [Hs Ho]; [by right|]. split; [done|]. intros i n.
      rewrite lookup_insert_Some. intros [[_ [= _ <-]]|[_ Hi]]; [done|by eapply Ho].
    + done.
    + intros i Hi. destruct (H6 i Hi) as (n & q & Hq & Hs). exists n, q. split; [|done].
      rewrite lookup_insert_ne; [done|]. intros <-. congruence.
    + done.
Qed.

Lemma erase_call_wf id c ks :
  wf c -> strand_ c = PErase id :: ks ->
  wf (erase_call id (set_strand ks c)) /\ kept c (erase_call id (set_strand ks c)).
Proof.
  intros [H1 H2 H3 H4 H5 H6 H7] Es. rewrite Es in *. simpl in H4, H5, H6, H7.
  apply NoDup_cons in H7 as [Hni Hnd].
  destruct (H6 id (list_elem_of_here id _)) as (name & p & Hp & x & Hx & Hn).
  unfold erase_call. cbn [ongoing_calls_ set_strand promises]. rewrite Hp, Hx.
  assert (Ea : <[p:=abandon x]> (promises c) = promises c).
  { apply insert_id. rewrite Hx. f_equal. unfold abandon. by destruct (state_of x). }
  rewrite Ea. split; [|by apply kept_eq]. split; simpl.
  - done.
  - intros i n q [_ Hq]%lookup_delete_Some. by eapply H2.
  - intros i i' n n' q [_ Hq]%lookup_delete_Some [_ Hq']%lookup_delete_Some. by eapply H3.
  - intros q Hq. destruct (H4 q Hq) as [Hs Ho]. split; [done|]. intros i n [_ Hi]%lookup_delete_Some.
    by eapply Ho.
  - done.
  - intros i Hi. destruct (H6 i) as (n & q & Hq & Hs); [by right|]. exists n, q. split; [|done].
    rewrite lookup_delete_ne; [done|]. by intros <-.
  - done.
Qed.

Lemma run_posted_wf k ks c c' :
  wf c -> strand_ c = k :: ks -> run_posted k (set_strand ks c) = Returns c' -> wf c' /\ kept c c'.
Proof.
  intros Hw Es. destruct k as [idx name p b|b|id]; unfold run_posted.
  - intros E%do_client_write_same.
    destruct (insert_call_wf (wrap 32 idx) name p c ks Hw) as [Hw' Hk]; [by rewrite Es..|].
    split; [by eapply same_calls_wf|]. eapply kept_trans; [exact Hk|by apply kept_same].
  - intros E%do_client_write_same.
    assert (Hw' : wf (set_strand ks c)).
    { destruct Hw as [H1 H2 H3 H4 H5 H6 H7]. rewrite Es in *. by split. }
    split; [by eapply same_calls_wf|]. by apply (kept_trans c (set_strand ks c)), kept_same; [by apply kept_eq|].
  - intros [= <-]. by apply erase_call_wf.
Qed.

Lemma current_call_wf id c name p c' :
  wf c -> current_call id c = (name, p, c') ->
  wf c' /\ kept c c' /\ ongoing_calls_ c' !! id = Some (name, p) /\ strand_ c' = strand_ c.
Proof.
  intros Hw. unfold current_call. destruct (ongoing_calls_ c !! id) as [[n q]|] eqn:E.
  - intros [= <- <- <-]. split_and!; [done|apply kept_refl|done|done].
  - intros [= <- <- <-]. destruct (new_promise_wf c new_promise Hw) as [Hw' Hk].
    split_and!; [|exact Hk|apply lookup_insert_eq|done].
    destruct Hw' as [H1 H2 H3 H4 H5 H6 H7]. simpl in *.
    assert (Hnew : forall i n, ongoing_calls_ c !! i <> Some (n, next_promise c)).
    { intros i n Hi. pose proof (wf_next c Hw _ (wf_known c Hw _ _ _ Hi)). lia. }
    split; simpl; try done.
    + intros i n q. rewrite lookup_insert_Some. intros [[_ [= _ <-]]|[_ Hq]]; [|by eapply H2].
      by rewrite lookup_insert_eq.
    + intros i i' n n' q. rewrite !lookup_insert_Some.
      intros [[<- [= _ <-]]|[Hi Hq]] [[<- Hq']|[Hi' Hq']]; [done| | |by eapply H3].
      * by destruct (Hnew i' n').
      * injection Hq' as _ <-. by destruct (Hnew i n).
    + intros q Hq. destruct (wf_insert c Hw q Hq) as [Hs Ho]. split; [by apply H4|]. intros i n.
      rewrite lookup_insert_Some. intros [[_ [= _ <-]]|[_ Hi]]; [|by eapply Ho].
      pose proof (wf_next c Hw _ Hs). lia.
    + intros i Hi. destruct (H6 i Hi) as (n & q & Hq & Hs). exists n, q. split; [|done].
      rewrite lookup_insert_ne; [done|]. intros <-. congruence.
Qed.

Lemma resolve_wf r c c' : wf c -> resolve r c = Returns c' -> wf c' /\ kept c c'.
Proof.
  intros Hw. unfold resolve. destruct (current_call (r_id r) c) as [[name p] c0] eqn:E0.
  destruct (current_call_wf _ _ _ _ _ Hw E0) as (Hw0 & Hk0 & Ho & Hs).
  destruct (promises c0 !! p) as [x|] eqn:Hx; [|done].
  set (v := match r_error r with Some _ => _ | None => _ end).
  assert (Hv : v <> Empty) by (unfold v; by destruct (r_error r)).
  unfold satisfy. destruct (state_of x) eqn:Ex; [|done..]. intros [= <-].
  set (x' := {| state_of := v; retrieved := _ |}).
  assert (Hk : kept c0 (post (PErase (r_id r)) (set_promise p x' c0))).
  { intros q y Hy. simpl. destruct (decide (q = p)) as [->|Hne].
    - rewrite lookup_insert_eq. eexists. split; [done|]. intros Hn. congruence.
    - rewrite lookup_insert_ne by done. by exists y. }
  split; [|by eapply kept_trans]. destruct Hw0 as [H1 H2 H3 H4 H5 H6 H7].
  assert (Hsome : forall q, is_Some (<[p:=x']> (promises c0) !! q) <-> is_Some (promises c0 !! q)).
  { intros q. destruct (decide (q = p)) as [->|Hne].
    - rewrite lookup_insert_eq, Hx. split; by eexists.
    - by rewrite lookup_insert_ne. }
  assert (Hsat : forall q, q = p \/ satisfied c0 q -> satisfied (post (PErase (r_id r)) (set_promise p x' c0)) q).
  { intros q [->|(y & Hy & Hn)]; [exists x'; simpl; by rewrite lookup_insert_eq|].
    destruct (Hk q y Hy) as (y' & Hy' & E). exists y'. split; [exact Hy'|]. by rewrite E. }
  assert (Hni : r_id r ∉ to_erase (strand_ c0)).
  { intros Hin. destruct (H6 _ Hin) as (n & q & Hq & y & Hy & Hn). rewrite Ho in Hq.
    injection Hq as <- <-. congruence. }
  split; cbn [post set_strand set_promise set_calls ongoing_calls_ promises next_promise strand_];
    rewrite ?to_insert_app, ?to_erase_app; simpl; rewrite ?app_nil_r; try done.
  - intros q Hq. by apply H1, Hsome.
  - intros i n q Hq. by eapply Hsome, H2.
  - intros q Hq. destruct (H4 q Hq) as [Hs' Ho']. split; [by apply Hsome|done].
  - intros i. rewrite elem_of_app, list_elem_of_singleton. intros [Hi| ->].
    + destruct (H6 i Hi) as (n & q & Hq & Hs'). exists n, q. split; [done|]. apply Hsat. by right.
    + exists name, p. split; [done|]. apply Hsat. by left.
  - apply NoDup_app. split; [done|]. split; [|apply NoDup_singleton].
    intros q Hq Hq'. apply list_elem_of_singleton in Hq'. by subst q.
Qed.

Lemma on_messages_wf : forall os c c', wf c -> on_messages os c = Returns c' -> wf c' /\ kept c c'.
Proof.
  induction os as [|o os IH]; intros c c' Hw; cbn [on_messages].
  - intros [= <-]. split; [done|apply kept_refl].
  - destruct (on_message o c) as [c1|t|] eqn:E; [|done..]. intros E'. unfold on_message in E.
    destruct (new_zone (c_heap c)) as [z m].
    destruct (response_of _ _) as [[r|t|] e]; [|done..].
    set (c0 := set_io _ _ _ c) in E. assert (Hs : same_calls c c0) by done.
    destruct (resolve_wf r c0 c1 (same_calls_wf _ _ Hs Hw) E) as [Hw1 Hk1].
    destruct (IH c1 c' Hw1 E') as [Hw' Hk']. split; [done|].
    eapply kept_trans; [by apply kept_same|]. by eapply kept_trans.
Qed.

Lemma client_step_wf ev c c' :
  wf c -> client_step ev c = Some (Returns c') -> wf c' /\ kept c c'.
Proof.
  intros Hw. assert (S : forall c1, same_calls c c1 -> wf c1 /\ kept c c1).
  { intros c1 H. split; [by eapply same_calls_wf|by apply kept_same]. }
  destruct ev as [ec|A HA name v|A HA name v|t| |d|f| |n]; cbn [client_step].
  - destruct (connecting c); [|done]. intros [= <-]. apply S. by destruct ec.
  - destruct (wait_conn false c); [|done|intros [= <-]; by apply S..].
    destruct (async_call name v c) as [[p c1]|e] eqn:E; [|intros [= <-]; by apply S].
    intros [= <-]. by eapply async_call_wf.
  - unfold send. destruct (pack _ _); simpl; [|intros [= <-]; by apply S].
    intros [= <-]. by apply post_send_wf.
  - intros [= <-]. by apply S.
  - destruct (strand_ c) as [|k ks] eqn:E; [done|]. intros [= E']. by eapply run_posted_wf.
  - destruct (reading c); [|done]. intros [= E]. unfold on_bytes in E.
    destruct (feed d (pac_ c)) as [[os|e] p].
    + set (c0 := set_io _ _ _ c) in E. assert (Hs : same_calls c c0) by done.
      destruct (on_messages_wf os c0 c' (same_calls_wf _ _ Hs Hw) E) as [Hw' Hk'].
      split; [done|]. by eapply kept_trans; [apply kept_same|].
    + destruct e as [|e| | |]; try done. by destruct e.
  - destruct (reading c); [|done]. intros [= <-]. by apply S.
  - destruct (pending (writer_ c)); [|done]. destruct (on_sent (writer_ c)); try done.
    intros [= <-]. by apply S.
  - destruct (pending (writer_ c)); [|done]. destruct (on_send_error n (writer_ c)); try done.
    intros [= <-]. by apply S.
Qed.

Lemma client_run_wf : forall evs c c',
  wf c -> client_run evs c = Some (Returns c') -> wf c' /\ kept c c'.
Proof.
  induction evs as [|ev evs IH]; intros c c' Hw; cbn [client_run].
  - intros [= <-]. split; [done|apply kept_refl].
  - destruct (client_step ev c) as [[c1|t|]|] eqn:E; [|done..]. intros E'.
    destruct (client_step_wf ev c c1 Hw E) as [Hw1 Hk1]. destruct (IH c1 c' Hw1 E') as [Hw' Hk'].
    split; [done|by eapply kept_trans].
Qed.

(** ** What follows *)


Definition offline c : Prop := reading c = false /\ connecting c = false.

Lemma insert_call_waits id name p id' name' p' c ks :
  wf c -> p' ∈ to_insert (strand_ c) -> waiting id name p c ->
  waiting id name p (insert_call id' name' p' (set_strand ks c)).
Proof.
  intros Hw Hin [Ho Hp]. destruct (wf_insert c Hw p' Hin) as [[y Hy] Hn].
  unfold insert_call. cbn [ongoing_calls_ set_strand promises].
  destruct (ongoing_calls_ c !! id') as [e|] eqn:E.
  - rewrite Hy. split; [done|]. simpl. rewrite lookup_insert_ne; [done|]. intros ->. by apply (Hn id name).
  - split; [|done]. simpl. rewrite lookup_insert_ne; [done|]. congruence.
Qed.

Lemma erase_call_waits id name p id' c ks :
  wf c -> id' ∈ to_erase (strand_ c) -> waiting id name p c ->
  waiting id name p (erase_call id' (set_strand ks c)).
Proof.
  intros Hw Hin [Ho Hp]. destruct (wf_erase c Hw id' Hin) as (n & q & Hq & y & Hy & Hn).
  unfold erase_call. cbn [ongoing_calls_ set_strand promises]. rewrite Hq, Hy.
  assert (id' <> id) by (intros ->; rewrite Ho in Hq; injection Hq as <- <-; rewrite Hp in Hy;
    injection Hy as <-; by apply Hn).
  split; simpl; [by rewrite lookup_delete_ne|]. destruct (decide (q = p)) as [->|Hne].
  - pose proof (wf_inj c Hw _ _ _ _ _ Hq Ho). done.
  - by rewrite lookup_insert_ne.
Qed.

Lemma same_waits id name p c c' : same_calls c c' -> waiting id name p c -> waiting id name p c'.
Proof. intros (E1 & E2 & _) [H1 H2]. split; by rewrite ?E1, ?E2. Qed.

Lemma offline_step ev id name p c c' :
  wf c -> offline c -> waiting id name p c -> client_step ev c = Some (Returns c') ->
  offline c' /\ waiting id name p c'.
Proof.
  intros Hw [Hr Hc] Hwait. destruct ev as [ec|A HA nm v|A HA nm v|t| |d|f| |n]; cbn [client_step];
    rewrite ?Hr, ?Hc; try done.
  - destruct (wait_conn false c); [|done|by intros [= <-]..].
    unfold async_call, get_next_call_idx. destruct (pack _ _) as [b|e]; simpl; intros [= <-]; [|done].
    split; [done|]. destruct Hwait as [Ho Hp]. split; [done|]. simpl.
    rewrite lookup_insert_ne; [done|]. pose proof (wf_next c Hw p ltac:(by rewrite Hp)). lia.
  - unfold send. destruct (pack _ _); simpl; by intros [= <-].
  - by intros [= <-].
  - destruct (strand_ c) as [|k ks] eqn:E; [done|]. intros [= E'].
    destruct k as [idx n q b|b|i]; unfold run_posted in E'.
    + pose proof (insert_call_waits id name p (wrap 32 idx) n q c ks Hw
        ltac:(rewrite E; by left) Hwait) as Hw'.
      assert (Ho : offline (insert_call (wrap 32 idx) n q (set_strand ks c)))
        by (unfold insert_call; repeat case_match; done).
      split; [|by eapply same_waits, Hw'; apply do_client_write_same in E'].
      unfold do_client_write in E'. destruct (write b _); [|done..]. by injection E' as <-.
    + split; [|by apply (same_waits id name p (set_strand ks c)); [apply do_client_write_same in E'|]].
      unfold do_client_write in E'. destruct (write b _); [|done..]. by injection E' as <-.
    + injection E' as <-. split; [unfold erase_call; repeat case_match; done|].
      apply erase_call_waits; [done| |done]. rewrite E. by left.
  - destruct (pending (writer_ c)); [|done]. destruct (on_sent (writer_ c)); try done. by intros [= <-].
  - destruct (pending (writer_ c)); [|done]. destruct (on_send_error n (writer_ c)); try done.
    by intros [= <-].
Qed.


End Safety.
