(* ===== verification/ClientLife.v ===== *)
(** * The life of a client object

    Models the constructor and the destructor of [client] (lib/rpc/client.cc): resolving the
    address, stopping the io_service, joining the thread, and what goes with the
    [impl]: the calls under way and the work that was posted and never ran. Between
    the two the client is that of Client.

    What resolving gives is a parameter. The application does not use a client it
    destroys; the handler at hand, and others until the thread sees the stop, may
    still run. *)

From S2P Require Import Prelude FloatBits MsgObject Visitor Adaptors Handler Response.
From S2P Require Import AsyncWriter Receiver Server Client ClientSpec ClientSafety.

Section Life.
Context {rx : Type} {HR : Receiver rx}.
Implicit Type c : client (rx := rx).

(** ** Construction *)

(** [client::client]: the error the resolver throws, with no thread started. *)
Definition construct (resolve : bytes -> bytes -> res Z unit) (new_pac : rx) (addr : bytes) (port : Z)
    : res Z (client (rx := rx)) :=
  match resolve addr (decimal port) with
  | Ok _ => Ok (new_client new_pac)
  | Throw ec => Throw ec
  end.

(** ** Destruction *)

Definition abandon_at (p : Z) (ps : gmap Z promise) : gmap Z promise :=
  match ps !! p with Some x => <[p := abandon x]> ps | None => ps end.

(** [ongoing_calls_] goes, and its promises with it. *)
Definition drop_calls (calls : gmap Z (bytes * Z)) (ps : gmap Z promise) : gmap Z promise :=
  foldr (fun e => abandon_at e.2.2) ps (map_to_list calls).

(** The io_service goes, and the handlers that did not run: the last pointer to the promise of
    a call, but only a plain pointer to the buffer of a notification. *)
Fixpoint drop_posted (l : list posted) (ps : gmap Z promise) (leaked : list bytes)
    : gmap Z promise * list bytes :=
  match l with
  | [] => (ps, leaked)
  | PCall _ _ p _ :: l => drop_posted l (abandon_at p ps) leaked
  | PSend b :: l => drop_posted l ps (leaked ++ [b])
  | PErase _ :: l => drop_posted l ps leaked
  end.

(** The destructor of the [impl], members last to first: what becomes of the futures, and the
    buffers nobody frees. *)
Definition destroy c : gmap Z promise * list bytes :=
  drop_posted (strand_ c) (drop_calls (ongoing_calls_ c) (promises c)) [].

(** ** The life of a client *)

Inductive client_life :=
| Alive (c : client (rx := rx)) (stopping : bool)         (* has the destructor been entered? *)
| Destroyed (futures : gmap Z promise) (leaked : list bytes).

Inductive life_event :=
| Event (ev : client_event)
| Stop                                   (* ~client: io_.stop() *)
| Join.                                  (* io_thread_.join(), and the impl is destroyed *)

Definition by_application (ev : client_event) : bool :=
  match ev with AsyncCall _ _ _ _ | Send _ _ _ _ | SetTimeout _ => true | _ => false end.

Definition life_step (ev : life_event) (l : client_life) : option (outcome client_life) :=
  match ev, l with
  | Event ev, Alive c stopping =>
    if stopping && by_application ev then None
    else match client_step ev c with
         | Some (Returns c) => Some (Returns (Alive c stopping))
         | Some (Raises x) => Some (Raises x)
         | Some Undefined => Some Undefined
         | None => None
         end
  | Stop, Alive c false => Some (Returns (Alive c true))
  | Join, Alive c true => let '(ps, leaked) := destroy c in Some (Returns (Destroyed ps leaked))
  | _, _ => None
  end.

Fixpoint life_run (evs : list life_event) (l : client_life) : option (outcome client_life) :=
  match evs with
  | [] => Some (Returns l)
  | ev :: evs => match life_step ev l with Some (Returns l) => life_run evs l | r => r end
  end.

(** What a thread waiting in [future::get] gets; [None]: it waits. *)
Definition future_get (ps : gmap Z promise) (p : Z) : option call_outcome :=
  x ← ps !! p;
  match state_of x with
  | Value h => Some (Result h)
  | Exception e => Some (CallException e)
  | Empty => None
  end.

Definition futures_of (l : client_life) : gmap Z promise :=
  match l with Alive c _ => promises c | Destroyed ps _ => ps end.

(** ** What becomes of the promises *)

Lemma abandon_at_lookup p ps q :
  abandon_at p ps !! q = if decide (q = p) then abandon <$> ps !! q else ps !! q.
Proof.
  unfold abandon_at. destruct (decide (q = p)) as [->|Hne].
  - destruct (ps !! p) as [x|] eqn:E; [by rewrite lookup_insert_eq|by rewrite E].
  - destruct (ps !! p) as [x|]; [by rewrite lookup_insert_ne|done].
Qed.

Lemma abandon_twice x : abandon (abandon x) = abandon x.
Proof. unfold abandon. destruct x as [[] r]; done. Qed.

(** The promises of [l] are abandoned, the others kept. *)
Definition abandoned (l : list Z) (ps ps' : gmap Z promise) : Prop :=
  forall q, ps' !! q = if decide (q ∈ l) then abandon <$> ps !! q else ps !! q.

Lemma abandoned_nil ps : abandoned [] ps ps.
Proof. intros q. by rewrite decide_False by apply not_elem_of_nil. Qed.

Lemma abandoned_at p l ps ps' : abandoned l ps ps' -> abandoned (p :: l) ps (abandon_at p ps').
Proof.
  intros H q. rewrite abandon_at_lookup, (H q). destruct (decide (q = p)) as [->|Hne].
  - rewrite (decide_True (P := p ∈ p :: l)) by apply list_elem_of_here.
    destruct (decide (p ∈ l)); [|done]. destruct (ps !! p); [|done]. simpl. by rewrite abandon_twice.
  - destruct (decide (q ∈ l)), (decide (q ∈ p :: l)); try done; set_solver.
Qed.

Lemma abandoned_more l l' ps ps' ps'' : abandoned l ps ps' -> abandoned l' ps' ps'' -> abandoned (l' ++ l) ps ps''.
Proof.
  intros H1 H2 q. rewrite (H2 q), (H1 q). destruct (decide (q ∈ l)), (decide (q ∈ l')), (decide (q ∈ l' ++ l));
    try done; try set_solver. destruct (ps !! q); [|done]. simpl. by rewrite abandon_twice.
Qed.

Definition held_by_calls (calls : gmap Z (bytes * Z)) : list Z := map (fun e => e.2.2) (map_to_list calls).

Lemma drop_calls_abandons calls ps : abandoned (held_by_calls calls) ps (drop_calls calls ps).
Proof.
  unfold held_by_calls, drop_calls. induction (map_to_list calls) as [|e l IH]; [apply abandoned_nil|].
  by apply abandoned_at.
Qed.

Lemma drop_posted_abandons l : forall ps leaked,
  exists ids, ids ≡ₚ to_insert l /\ abandoned ids ps (fst (drop_posted l ps leaked)).
Proof.
  induction l as [|k l IH]; intros ps leaked; cbn [drop_posted].
  - exists []. split; [done|]. apply abandoned_nil.
  - destruct k as [i n p b|b|i]; [|by apply IH..].
    destruct (IH (abandon_at p ps) leaked) as (ids & E & H). exists (ids ++ [p]).
    split; [rewrite E; simpl; apply Permutation_app_comm|].
    eapply abandoned_more; [|exact H]. apply abandoned_at, abandoned_nil.
Qed.

Lemma destroy_abandons c : abandoned (to_insert (strand_ c) ++ held_by_calls (ongoing_calls_ c)) (promises c) (fst (destroy c)).
Proof.
  unfold destroy. destruct (drop_posted_abandons (strand_ c) (drop_calls (ongoing_calls_ c) (promises c)) [])
    as (ids & E & H). intros q. pose proof (abandoned_more _ _ _ _ _ (drop_calls_abandons (ongoing_calls_ c) (promises c)) H q) as Hq.
  rewrite Hq. destruct (decide (q ∈ ids ++ _)) as [Hin|Hin]; rewrite E in Hin.
  - by rewrite decide_True.
  - by rewrite decide_False.
Qed.

(** The buffers of the notifications that were never written. *)
Lemma drop_posted_leaks l : forall ps leaked,
  snd (drop_posted l ps leaked) = leaked ++ omap (fun k => match k with PSend b => Some b | _ => None end) l.
Proof.
  induction l as [|k l IH]; intros ps leaked; [by rewrite app_nil_r|].
  destruct k as [i n p b|b|i]; simpl; rewrite IH; [done|by rewrite <- app_assoc|done].
Qed.

(** ** Who holds an unresolved promise

    The strand, until the call is registered, and then its entry. *)

Definition holder c (p : Z) : Prop :=
  p ∈ to_insert (strand_ c) \/ exists id name, ongoing_calls_ c !! id = Some (name, p).

Definition all_held c : Prop := forall p x, promises c !! p = Some x -> state_of x = Empty -> holder c p.

Lemma same_calls_held c c' : same_calls c c' -> all_held c -> all_held c'.
Proof. intros (E1 & E2 & _ & E4) H p x. unfold holder. rewrite E1, E2, E4. apply H. Qed.

Lemma abandon_settled x : state_of (abandon x) <> Empty.
Proof. unfold abandon. destruct x as [[] r]; done. Qed.

Lemma async_call_held {A} {HA : TupleElems A} name (v : A) c p c' :
  all_held c -> async_call name v c = Ok (p, c') -> all_held c'.
Proof.
  intros H. unfold async_call, get_next_call_idx. destruct (pack _ []) as [buffer|e]; [|done]. intros [= <- <-].
  intros q y. simpl. rewrite lookup_insert_Some. unfold holder. simpl. rewrite to_insert_app. simpl.
  intros [[<- _]|[_ Hq]] Hy; [left; set_solver|]. destruct (H q y Hq Hy) as [Hin|?]; [left; set_solver|by right].
Qed.

Lemma post_held k c : all_held c -> all_held (post k c).
Proof.
  intros H q y Hq Hy. unfold holder. simpl. rewrite to_insert_app. destruct (H q y Hq Hy); [left; set_solver|by right].
Qed.

Lemma insert_call_held id name p c ks :
  all_held c -> to_insert (strand_ c) = p :: to_insert ks -> all_held (insert_call id name p (set_strand ks c)).
Proof.
  intros H Es. unfold insert_call. simpl. destruct (ongoing_calls_ c !! id) as [e|] eqn:Eid.
  - assert (H' : forall q y, promises c !! q = Some y -> state_of y = Empty -> q <> p -> holder (set_strand ks c) q).
    { intros q y Hq Hy Hne. destruct (H q y Hq Hy) as [Hin|?]; [left|by right]. rewrite Es in Hin. set_solver. }
    destruct (promises c !! p) as [x|] eqn:Ep.
    + intros q y. simpl. rewrite lookup_insert_Some. intros [[<- <-]|[Hne Hq]] Hy; [by destruct (abandon_settled x)|].
      by apply (H' q y).
    + intros q y Hq Hy. apply (H' q y); [done..|]. intros ->. simpl in Hq. congruence.
  - intros q y Hq Hy. unfold holder. simpl in *. destruct (H q y Hq Hy) as [Hin|(i & n & Hi)].
    + rewrite Es in Hin. apply elem_of_cons in Hin as [->|Hin]; [right|by left]. exists id, name. apply lookup_insert_eq.
    + right. exists i, n. rewrite lookup_insert_ne; [done|]. congruence.
Qed.

Lemma erase_call_held id c ks :
  all_held c -> strand_ c = PErase id :: ks -> all_held (erase_call id (set_strand ks c)).
Proof.
  intros H Es. assert (H' : forall q y, promises c !! q = Some y -> state_of y = Empty -> holder (set_strand ks c) q).
  { intros q y Hq Hy. destruct (H q y Hq Hy) as [Hin|?]; [left|by right]. rewrite Es in Hin. done. }
  unfold erase_call. simpl. destruct (ongoing_calls_ c !! id) as [[n p]|] eqn:Eid; [|exact H'].
  intros q y Hq Hy. simpl in Hq. assert (Hold : promises c !! q = Some y /\ (q = p -> promises c !! p = None)).
  { destruct (promises c !! p) as [x|] eqn:Ep; [|done]. apply lookup_insert_Some in Hq as [[<- <-]|[Hne Hq]];
      [by destruct (abandon_settled x)|]. split; [done|]. congruence. }
  destruct Hold as [Hq' Hne]. destruct (H' q y Hq' Hy) as [?|(i & m & Hi)]; [by left|right].
  exists i, m. simpl in *. rewrite lookup_delete_ne; [done|]. intros <-. rewrite Eid in Hi. injection Hi as _ ->.
  rewrite Hne in Hq' by done. done.
Qed.

Lemma run_posted_held k ks c c' :
  all_held c -> strand_ c = k :: ks -> run_posted k (set_strand ks c) = Returns c' -> all_held c'.
Proof.
  intros H Es. destruct k as [idx name p b|b|id]; unfold run_posted.
  - intros E%do_client_write_same. eapply same_calls_held; [exact E|]. apply insert_call_held; [done|by rewrite Es].
  - intros E%do_client_write_same. eapply same_calls_held; [exact E|]. intros q y Hq Hy.
    destruct (H q y Hq Hy) as [Hin|?]; [left|by right]. by rewrite Es in Hin.
  - intros [= <-]. by apply erase_call_held.
Qed.

Lemma current_call_held id c name p c' : all_held c -> current_call id c = (name, p, c') -> all_held c'.
Proof.
  intros H. unfold current_call. destruct (ongoing_calls_ c !! id) as [[n q]|] eqn:E; intros [= <- <- <-]; [done|].
  intros q y. unfold holder. simpl. rewrite lookup_insert_Some. intros [[<- _]|[_ Hq]] Hy.
  - right. exists id, []. apply lookup_insert_eq.
  - destruct (H q y Hq Hy) as [?|(i & m & Hi)]; [by left|right]. exists i, m.
    rewrite lookup_insert_ne; [done|]. congruence.
Qed.

Lemma resolve_held r c c' : all_held c -> resolve r c = Returns c' -> all_held c'.
Proof.
  intros H. unfold resolve. destruct (current_call (r_id r) c) as [[name p] c0] eqn:E0.
  pose proof (current_call_held _ _ _ _ _ H E0) as H0. destruct (promises c0 !! p) as [x|] eqn:Hx; [|done].
  set (v := match r_error r with Some _ => _ | None => _ end).
  assert (Hv : v <> Empty) by (unfold v; by destruct (r_error r)).
  unfold satisfy. destruct (state_of x); [|done..]. intros [= <-]. apply post_held.
  intros q y. simpl. rewrite lookup_insert_Some. intros [[_ <-]|[_ Hq]] Hy; [done|]. by apply (H0 q y).
Qed.

Lemma on_messages_held : forall os c c', all_held c -> on_messages os c = Returns c' -> all_held c'.
Proof.
  induction os as [|o os IH]; intros c c' H; cbn [on_messages]; [by intros [= <-]|].
  destruct (on_message o c) as [c1|t|] eqn:E; [|done..]. apply IH. unfold on_message in E.
  destruct (new_zone (c_heap c)) as [z m]. destruct (response_of _ _) as [[r|t|] e]; [|done..].
  eapply resolve_held; [|exact E]. by apply (same_calls_held c).
Qed.

Lemma client_step_held ev c c' : all_held c -> client_step ev c = Some (Returns c') -> all_held c'.
Proof.
  intros H. assert (S : forall c1, same_calls c c1 -> all_held c1) by (intros c1 Hs; by eapply same_calls_held).
  destruct ev as [ec|A HA name v|A HA name v|t| |d|f| |n]; cbn [client_step].
  - destruct (connecting c); [|done]. intros [= <-]. apply S. by destruct ec.
  - destruct (wait_conn false c); [|done|intros [= <-]; by apply S..].
    destruct (async_call name v c) as [[p c1]|e] eqn:E; [|intros [= <-]; by apply S].
    intros [= <-]. by eapply async_call_held.
  - unfold send. destruct (pack _ _); simpl; [|intros [= <-]; by apply S]. intros [= <-]. by apply post_held.
  - intros [= <-]. by apply S.
  - destruct (strand_ c) as [|k ks] eqn:E; [done|]. intros [= E']. by eapply run_posted_held.
  - destruct (reading c); [|done]. intros [= E]. unfold on_bytes in E. destruct (feed d (pac_ c)) as [[os|e] p].
    + eapply on_messages_held; [|exact E]. by apply S.
    + destruct e as [|e| | |]; try done. by destruct e.
  - destruct (reading c); [|done]. intros [= <-]. by apply S.
  - destruct (pending (writer_ c)); [|done]. destruct (on_sent (writer_ c)); try done. intros [= <-]. by apply S.
  - destruct (pending (writer_ c)); [|done]. destruct (on_send_error n (writer_ c)); try done. intros [= <-]. by apply S.
Qed.

(** ** Every state of a life *)

(** While it lives, a client's promises are consistent, and the unresolved ones held; when it is gone
    none is unresolved. *)
Definition life_ok (l : client_life) : Prop :=
  match l with
  | Alive c _ => wf c /\ all_held c
  | Destroyed ps _ => forall p x, ps !! p = Some x -> state_of x <> Empty
  end.

Lemma abandoned_kept l ps ps' : abandoned l ps ps' -> futures_kept ps ps'.
Proof.
  intros H p x Hx. rewrite (H p), Hx. destruct (decide (p ∈ l)); [|by exists x].
  exists (abandon x). split; [done|]. apply abandon_state.
Qed.

Lemma holder_elem c p :
  holder c p <-> p ∈ to_insert (strand_ c) ++ held_by_calls (ongoing_calls_ c).
Proof.
  unfold holder, held_by_calls. rewrite elem_of_app. apply or_iff_compat_l. rewrite list_elem_of_fmap. split.
  - intros (id & name & H). exists (id, (name, p)). split; [done|]. by apply elem_of_map_to_list.
  - intros ([id [name q]] & -> & H). exists id, name. by apply elem_of_map_to_list in H.
Qed.

Lemma construct_ok resolve_addr new_pac addr port c :
  construct resolve_addr new_pac addr port = Ok c -> life_ok (Alive c false).
Proof.
  unfold construct. destruct (resolve_addr _ _); [|done]. intros [= <-]. split; [apply new_client_wf|].
  intros p x. simpl. by rewrite lookup_empty.
Qed.

Lemma destroy_settles c p x : all_held c -> fst (destroy c) !! p = Some x -> state_of x <> Empty.
Proof.
  intros Hh. rewrite (destroy_abandons c p). destruct (decide _) as [Hin|Hin]; intros Hx.
  - destruct (promises c !! p) as [y|]; [|done]. injection Hx as <-. apply abandon_settled.
  - intros He. apply Hin, holder_elem. by apply (Hh p x).
Qed.

Lemma life_step_ok ev l l' :
  life_ok l -> life_step ev l = Some (Returns l') -> life_ok l' /\ futures_kept (futures_of l) (futures_of l').
Proof.
  destruct ev as [ev| |], l as [c stopping|ps leaked]; try done; cbn [life_step].
  - intros [Hw Hh]. destruct (stopping && by_application ev); [done|].
    destruct (client_step ev c) as [[c'|t|]|] eqn:E; [|done..]. intros [= <-].
    destruct (client_step_wf _ _ _ Hw E) as [Hw' Hk]. split; [|exact Hk]. split; [done|]. by eapply client_step_held.
  - intros Hok. destruct stopping; [done|]. intros [= <-]. split; [done|]. apply futures_kept_refl.
  - intros [_ Hh]. destruct stopping; [|done]. pose proof (destroy_abandons c) as Ha.
    pose proof (destroy_settles c) as Hs. destruct (destroy c) as [ps leaked]. intros [= <-]. split.
    + intros p x Hx. by eapply Hs.
    + by eapply abandoned_kept.
Qed.

Lemma life_run_ok : forall evs l l',
  life_ok l -> life_run evs l = Some (Returns l') -> life_ok l' /\ futures_kept (futures_of l) (futures_of l').
Proof.
  induction evs as [|ev evs IH]; intros l l' Hok; cbn [life_run].
  - intros [= <-]. split; [done|]. apply futures_kept_refl.
  - destruct (life_step ev l) as [[l1|t|]|] eqn:E; [|done..]. intros E'.
    destruct (life_step_ok _ _ _ Hok E) as [Hok1 Hk]. destruct (IH _ _ Hok1 E') as [Hok' Hk'].
    split; [done|]. by eapply futures_kept_trans.
Qed.

(** The buffers of the notifications that wait in the strand. *)
Definition unsent (l : list posted) : list bytes :=
  omap (fun k => match k with PSend b => Some b | _ => None end) l.

Lemma stop_and_join c :
  life_run [Stop; Join] (Alive c false) = Some (Returns (Destroyed (fst (destroy c)) (unsent (strand_ c)))).
Proof.
  cbn [life_run life_step]. pose proof (drop_posted_leaks (strand_ c)
    (drop_calls (ongoing_calls_ c) (promises c)) []) as E. fold (destroy c) in E.
  destruct (destroy c) as [ps leaked]. simpl in E. by subst leaked.
Qed.

Lemma settled_get ps p x : ps !! p = Some x -> state_of x <> Empty -> exists r, future_get ps p = Some r.
Proof. intros Hp Hx. unfold future_get. rewrite Hp. simpl. destruct (state_of x); [done|by eexists..]. Qed.

(** C9. Nobody waits for ever on a client that was destroyed: however it lived, and whatever its
    thread still ran while it was stopping, each future the application got has a value or an
    exception once the destructor is through, and the one it had before if it had one. The
    destructor of a client that is not being destroyed yet can always run, what has no
    response by then gets broken_promise, and the buffers of the notifications still in the
    strand are never freed. *)
Theorem destroyed_client_settles_futures resolve_addr new_pac addr port c0 evs l :
  construct resolve_addr new_pac addr port = Ok c0 ->
  life_run evs (Alive c0 false) = Some (Returns l) ->
  (forall evs' ps leaked p, life_run evs' l = Some (Returns (Destroyed ps leaked)) ->
     is_Some (futures_of l !! p) ->
     exists r, future_get ps p = Some r /\ forall r0, future_get (futures_of l) p = Some r0 -> r = r0) /\
  (forall c, l = Alive c false -> exists ps,
     life_run [Stop; Join] l = Some (Returns (Destroyed ps (unsent (strand_ c)))) /\
     forall p x, promises c !! p = Some x -> state_of x = Empty ->
       future_get ps p = Some (CallException broken_promise)).
Proof.
  intros H0 H1. apply construct_ok in H0. destruct (life_run_ok _ _ _ H0 H1) as [Hok _]. split.
  - intros evs' ps leaked p H2 [x Hx]. destruct (life_run_ok _ _ _ Hok H2) as [Hd Hk].
    destruct (Hk p x Hx) as (x' & Hx' & E). destruct (settled_get ps p x' Hx' (Hd p x' Hx')) as [r Hr].
    exists r. split; [done|]. intros r0. revert Hr. unfold future_get. simpl in Hx'. rewrite Hx, Hx'. simpl.
    destruct (state_of x) eqn:Ex; [done|rewrite E by done; congruence..].
  - intros c ->. exists (fst (destroy c)). split; [apply stop_and_join|]. intros p x Hx He. destruct Hok as [_ Hh].
    unfold future_get. rewrite (destroy_abandons c p), decide_True, Hx by (apply holder_elem; by apply (Hh p x)).
    simpl. unfold abandon. by rewrite He.
Qed.
End Life.
