(* ===== verification/RemoteCall.v ===== *)
(** * A remote call, from the caller to the function and back

    The client and a session of the server composed: the bytes one sends are those the
    other receives. Both are taken against the [Receiver] interface. *)

From S2P Require Import Prelude FloatBits MsgObject Pack Visitor Format Roundtrip Adaptors AdaptorLaws.
From S2P Require Import Handler Response Dispatcher DispatcherSpec AsyncWriter Receiver.
From S2P Require Import Server ServerSpec Client ClientSpec.

Section RemoteCall.
Context {rx : Type} {HR : Receiver rx} {lim : unpack_limit} {max : Z} {nesting : nat}.
Context {HL : @ReceiverLaws rx HR lim max nesting}.
Context (max_small : max < 2 ^ 32).

(** The server: its functions and what it was started with. *)
Context (new_pac : rx) (unset : object -> Z) (disp_ : dispatcher) (suppress : bool).

(** A message that one read can hold and both sides accept. *)
Record fits (o : object) : Prop := {
  fits_wf : wf_object o;
  fits_limit : within lim 1 o = true;
  fits_depth : (depth o <= nesting)%nat;
  fits_read : len (encode o) <= max;
}.

Lemma fits_stream o s : fits o -> awaiting [] s -> stream lim ([] ++ encode o) [o] [].
Proof.
  intros [Hw Hl _ _] Ha. pose proof (awaiting_short _ _ Ha) as Hs.
  pose proof (decode_encode lim o [] Hw Hl) as Hd. rewrite app_nil_r in Hd.
  eapply stream_more; [exact Hd|by constructor].
Qed.

(** A connected client with no work at hand. *)
Definition idle_client (c : client (rx := rx)) : Prop :=
  is_connected_ c = true /\ reading c = true /\ strand_ c = [] /\ awaiting [] (pac_ c) /\
  write_queue (writer_ c) = [] /\ pending (writer_ c) = false /\ writer_exit (writer_ c) = false.

(** The call: it is made, its message handed to the writer, and sent. *)
Definition calling {A} {HA : TupleElems A} (name : bytes) (v : A) : list client_event :=
  [AsyncCall A HA name v; Posted; Written].

Lemma call_sent {A} {HA : TupleElems A} (HE : @ElemsLaws A HA) name (v : A) os (c : client (rx := rx)) :
  idle_client c -> valid_elems v -> object_elems v = Ok os -> arity (T := A) < 2 ^ 32 ->
  len name < 2 ^ 32 -> 0 <= call_idx_ c < 2 ^ 31 - 1 ->
  ongoing_calls_ c !! (call_idx_ c + 1) = None ->
  let id := call_idx_ c + 1 in
  exists c', client_run (calling name v) c = Some (Returns c') /\
    waiting id name (next_promise c) c' /\ reading c' = true /\ pac_ c' = pac_ c /\
    wire (writer_ c') = wire (writer_ c) ++ encode (call_object id name (ARRAY os)).
Proof.
  intros (Hcon & Hrd & Hst & Haw & Hq & Hp & He) Hv Ho Ha Hn Hi Hno id.
  unfold calling. cbn [client_run client_step]. unfold wait_conn. rewrite Hcon.
  unfold async_call, get_next_call_idx.
  assert (Hid : sext 32 (call_idx_ c + 1) = id) by (apply sext_wrap; lia). rewrite Hid.
  assert (Hr : int_min C_int <= id <= int_max C_int).
  { change (int_min C_int) with (-2147483648). change (int_max C_int) with 2147483647. lia. }
  destruct (call_packs HE id name v os Hv Ho Ha Hn Hr) as [-> _]. simpl res_bind. cbn iota beta.
  cbn [post set_strand set_calls set_idx strand_ promises ongoing_calls_ next_promise]. rewrite Hst.
  cbn [app run_posted]. unfold insert_call. cbn [set_strand ongoing_calls_ post].
  rewrite (wrap_small 32 id) by lia. cbn [set_calls set_idx ongoing_calls_]. fold id in Hno. rewrite Hno.
  unfold do_client_write, write. cbn [set_calls set_idx set_strand post writer_ set_queue write_queue].
  rewrite Hq. cbn [app]. change (1 <? len [_]) with false. cbn iota.
  unfold do_write. cbn [set_queue writer_exit write_queue pending]. rewrite He, Hp.
  unfold call_message. replace (object_integer C_int id) with (POSITIVE_INTEGER id)
    by (unfold object_integer; simpl; destruct (Z.ltb_spec id 0); [lia|done]).
  eexists. split; [reflexivity|]. simpl. split; [|by split_and!].
  split; simpl; apply lookup_insert_eq.
Qed.

(** C1. A remote call is a call: for a function of any signature built from the modelled
    types, calling it by name through an idle client and an idle session of a
    server that has it bound gives the caller, as its type, exactly the value
    the function returns on the caller's arguments; whatever workers the
    server uses, and unless one of the two runs out of memory. *)
Theorem remote_call_returns {A R} {HA : TupleElems A} {HRes : Adaptor R}
    (HE : @ElemsLaws A HA) (HLR : @AdaptorLaws R HRes)
    name (f : A -> H R) disp0 (v : A) os r o c t t' sid x (s : server (rx := rx)) e' :
  let id := call_idx_ c + 1 in
  idle_client c -> 0 <= call_idx_ c < 2 ^ 31 - 1 -> ongoing_calls_ c !! id = None ->
  sessions s !! sid = Some x -> quiet x -> jobs s = [] -> awaiting [] (pac x) ->
  bind unset disp0 name (ResultArgs A R HA HRes f) = Ok disp_ ->
  valid_elems v -> object_elems v = Ok os -> arity (T := A) < 2 ^ 32 -> len name < 2 ^ 32 ->
  f v (enter sid (request_env t s)) = (Returns r, e') -> plain_locals (loc e') ->
  valid r -> to_object r = Ok o ->
  fits (call_object id name (ARRAY os)) -> fits (response_object id NIL o) ->
  exists c1 request, client_run (calling name v) c = Some (Returns c1) /\
    wire (writer_ c1) = wire (writer_ c) ++ request /\
    match run new_pac unset disp_ suppress (one_request t t' sid request) s with
    | Some (Returns s1) => exists x1 response, sessions s1 !! sid = Some x1 /\ quiet x1 /\
        wire (writer x1) = wire (writer x) ++ response /\
        match client_step (Bytes response) c1 with
        | Some (Returns c2) => exists h,
            finish_call name (next_promise c) false c2 = Some (Result h) /\ as_ R (h_obj h) = Ok r
        | Some (Raises t) => t = std_exception (str "std::bad_alloc")
        | _ => False
        end
    | Some (Raises t) => t = std_exception (str "std::bad_alloc")
    | _ => False
    end.
Proof.
  intros id Hc Hi Hno Hx Hq Hj Hax Hb Hv Ho Ha Hn Hf Hp Hvr Hor Hfc Hfr.
  destruct (call_sent HE name v os c Hc Hv Ho Ha Hn Hi Hno) as (c1 & E1 & Hw1 & Hr1 & Hpac1 & Hwire1).
  exists c1, (encode (call_object id name (ARRAY os))). split; [done|]. split; [done|].
  assert (Hcall : computes (ResultArgs A R HA HRes f) os (enter sid (request_env t s)) o e')
    by (eapply computes_ResultArgs; eauto).
  assert (Hic : is_call (call_object id name (ARRAY os)) id name (ARRAY os))
    by (apply call_object_is_call; lia).
  pose proof (serve_one new_pac unset disp_ suppress t t' sid _ [] x s _ [] id NIL o Hx Hq Hj Hax
    (fits_read _ Hfc) ltac:(pose proof (fits_read _ Hfc); simpl; lia) (fits_stream _ _ Hfc Hax)
    (fits_depth _ Hfc) ltac:(lia)
    (answers_result unset disp_ suppress _ _ _ _ _ _ _ _ _ _ _ Hb Hic Hcall Hp)) as Hs.
  destruct (run _ _ _ _ _ s) as [[s1|e|]|]; [|done..].
  destruct Hs as (x1 & Hx1 & Hq1 & _ & _ & Hwire). exists x1, (encode (response_object id NIL o)).
  split; [done|]. split; [done|]. split; [done|].
  destruct Hc as (_ & _ & _ & Hac & _). cbn [client_step]. rewrite Hr1. unfold on_bytes. rewrite Hpac1.
  pose proof (feed_ok [] _ (pac_ c) [response_object id NIL o] [] Hac (fits_read _ Hfr)
    ltac:(pose proof (fits_read _ Hfr); simpl; lia) (fits_stream _ _ Hfr Hac)
    ltac:(constructor; [apply Hfr|constructor])) as Hfeed.
  destruct (feed _ (pac_ c)) as [[os'|e] p]; [|by rewrite Hfeed]. destruct Hfeed as [-> _].
  destruct (on_response id name (next_promise c) NIL o (set_io p (writer_ c1) (c_heap c1) c1) ltac:(lia) Hw1)
    as (c2 & y & E2 & (Ep & _) & Hy & _). cbn [on_messages]. rewrite E2.
  unfold finish_call. rewrite Ep, lookup_insert_eq. simpl.
  destruct (state_of y) as [|h|[? ? h| |]]; try done; [|by destruct Hy as [? _]].
  exists h. split; [done|]. destruct Hy as [_ ->]. destruct (laws r Hvr) as (o' & Eo & Hconv & _).
  rewrite Hor in Eo. injection Eo as <-. apply Hconv.
Qed.

End RemoteCall.
