(* ===== verification/ExampleClient.v ===== *)
(** * The example client

    Models [wait_any] of src/client.cpp, which waits for the first of several futures by
    polling them in turn, against the client of Client: while it polls, the client
    goes on. The rest of the file is a script of calls and prints; what its calls give is
    the theorem of RemoteCall. *)

From S2P Require Import Prelude Handler Response AsyncWriter Receiver Server Client ClientSafety.

Section WaitAny.
Context {rx : Type} {HR : Receiver rx}.

(** The state of the client when the [n]-th poll ends. *)
Context (moment : nat -> client (rx := rx)).

(** A [std::future]: the promise it belongs to, or nothing once its value was taken. *)
Definition future : Type := option Z.

Definition ready (p : Z) (c : client (rx := rx)) : bool :=
  match promises c !! p with
  | Some x => match state_of x with Empty => false | _ => true end
  | None => false
  end.

(** The [for] loop from index [i] and poll [t] on: the poll it is at when it ends, and the
    index it returns. Only a valid future is polled, and each poll takes a millisecond or ends
    at once. *)
Fixpoint poll_all (i : nat) (futures : list future) (t : nat) : nat * option nat :=
  match futures with
  | [] => (t, None)
  | None :: fs => poll_all (S i) fs t
  | Some p :: fs => if ready p (moment t) then (S t, Some i) else poll_all (S i) fs (S t)
  end.

(** The [while] loop; [None]: it still runs. *)
Fixpoint wait_any (fuel : nat) (futures : list future) (t : nat) : option (nat * nat) :=
  match fuel with
  | O => None
  | S f =>
    match poll_all 0 futures t with
    | (t, Some i) => Some (i, t)
    | (t, None) => wait_any f futures t
    end
  end.

(** ** What it does *)

(** The client runs from one poll to the next. *)
Context (start : rx).
Hypothesis moment_start : exists evs, client_run evs (new_client start) = Some (Returns (moment 0)).
Hypothesis moment_step : forall t, exists evs, client_run evs (moment t) = Some (Returns (moment (S t))).

Lemma moment_wf t : wf (moment t).
Proof.
  induction t as [|t IH].
  - destruct moment_start as [evs E]. by destruct (client_run_wf _ _ _ (new_client_wf start) E).
  - destruct (moment_step t) as [evs E]. by destruct (client_run_wf _ _ _ IH E).
Qed.

Lemma ready_stays p t u : (t <= u)%nat -> ready p (moment t) = true -> ready p (moment u) = true.
Proof.
  induction 1 as [|u _ IH]; [done|]. intros H. specialize (IH H). clear H.
  destruct (moment_step u) as [evs E]. destruct (client_run_wf _ _ _ (moment_wf u) E) as [_ Hk].
  unfold ready in *. destruct (promises (moment u) !! p) as [x|] eqn:Hp; [|done].
  destruct (Hk p x Hp) as (x' & -> & Hx'). destruct (state_of x) eqn:Ex; [done|..];
    by rewrite Hx' by done.
Qed.

(** One pass: it polls no more often than there are futures, returns the index of one
    that is ready, and found every one before it empty. *)
Lemma poll_all_spec fs : forall i t t' r, poll_all i fs t = (t', r) ->
  (t <= t' <= t + length fs)%nat /\
  match r with
  | Some j => (i <= j)%nat /\ (t < t')%nat /\ exists p, fs !! (j - i)%nat = Some (Some p) /\
      ready p (moment (pred t')) = true /\
      forall k q, (k < j - i)%nat -> fs !! k = Some (Some q) -> ready q (moment t) = false
  | None => forall p, Some p ∈ fs -> (t < t')%nat /\ ready p (moment t) = false
  end.
Proof.
  induction fs as [|[p|] fs IH]; intros i t t' r; simpl.
  - intros [= <- <-]. split; [lia|]. by intros p ?%elem_of_nil.
  - destruct (ready p (moment t)) eqn:Er.
    + intros [= <- <-]. split; [lia|]. split; [lia|]. split; [lia|]. exists p.
      rewrite Nat.sub_diag. split_and!; [done..|lia].
    + intros H. destruct (IH _ _ _ _ H) as [Ht Hr]. split; [lia|]. destruct r as [j|].
      * destruct Hr as (Hi & Htt & q & Hq & Hrq & Hbefore). split; [lia|]. split; [lia|].
        exists q. replace (j - i)%nat with (S (j - S i)) by lia. split_and!; [done|done|].
        intros [|k] q' Hk; [by intros [= <-]|]. intros Hq'. simpl in Hq'.
        destruct (ready q' (moment t)) eqn:E'; [|done].
        rewrite <- (Hbefore k q'); [symmetry; by apply (ready_stays q' t (S t)); [lia|]|lia|done].
      * intros q [[= ->]|Hq]%elem_of_cons; [split; [lia|done]|].
        destruct (Hr q Hq) as [Hlt Hf]. split; [lia|]. destruct (ready q (moment t)) eqn:E'; [|done].
        rewrite <- Hf. symmetry. by apply (ready_stays q t (S t)); [lia|].
  - intros H. destruct (IH _ _ _ _ H) as [Ht Hr]. split; [lia|]. destruct r as [j|].
    + destruct Hr as (Hi & Htt & q & Hq & Hrq & Hbefore). split; [lia|]. split; [lia|].
      exists q. replace (j - i)%nat with (S (j - S i)) by lia. split_and!; [done|done|].
      intros [|k] q' Hk; [done|]. intros Hq'. apply (Hbefore k); [lia|done].
    + intros q [|Hq]%elem_of_cons; [done|]. by apply Hr.
Qed.

Lemma wait_any_within futures p t0 : Some p ∈ futures -> ready p (moment t0) = true ->
  forall d t, (t0 <= t + d)%nat -> (t <= t0 + length futures)%nat ->
  exists i t' q s, wait_any (S d) futures t = Some (i, t') /\ (t' <= t0 + 2 * length futures)%nat /\
    futures !! i = Some (Some q) /\ ready q (moment (pred t')) = true /\ (s < t' <= s + length futures)%nat /\
    forall k q', (k < i)%nat -> futures !! k = Some (Some q') -> ready q' (moment s) = false.
Proof.
  intros Hp Hr. induction d as [|d IH]; intros t Hd Ht; cbn [wait_any];
    destruct (poll_all 0 futures t) as [t' r] eqn:E;
    destruct (poll_all_spec _ _ _ _ _ E) as [Hb Hs]; destruct r as [i|].
  - destruct Hs as (_ & Hlt & q & Hq & Hrq & Hbefore). rewrite Nat.sub_0_r in *.
    exists i, t', q, t. split_and!; [done|lia|done|done|lia|lia|]. intros k q' Hk. by apply Hbefore.
  - exfalso. destruct (Hs p Hp) as [_ Hf]. rewrite (ready_stays p t0 t) in Hf; [done|lia|done].
  - destruct Hs as (_ & Hlt & q & Hq & Hrq & Hbefore). rewrite Nat.sub_0_r in *.
    exists i, t', q, t. split_and!; [done|lia|done|done|lia|lia|]. intros k q' Hk. by apply Hbefore.
  - destruct (Hs p Hp) as [Hlt Hf]. apply IH; [lia|].
    destruct (decide (t0 <= t)%nat) as [Hle|]; [|lia].
    rewrite (ready_stays p t0 t) in Hf; [done|lia|done].
Qed.

(** C23. Waiting for any of several futures ends, at the latest after two more rounds of polls, once
    one of them is resolved, whatever the client does meanwhile: it returns the index
    of a future that is ready and stays so, and every valid one before it was
    still empty when its last round of polls began. While none is resolved
    it goes on, for ever if none ever is. *)
Theorem wait_any_first futures :
  (forall p t0, Some p ∈ futures -> ready p (moment t0) = true ->
    exists fuel i t' q s, wait_any fuel futures 0 = Some (i, t') /\
      (t' <= t0 + 2 * length futures)%nat /\ futures !! i = Some (Some q) /\
      (forall u, (pred t' <= u)%nat -> ready q (moment u) = true) /\
      (s < t' <= s + length futures)%nat /\
      forall k q', (k < i)%nat -> futures !! k = Some (Some q') -> ready q' (moment s) = false) /\
  ((forall p t, Some p ∈ futures -> ready p (moment t) = false) ->
    forall fuel, wait_any fuel futures 0 = None).
Proof.
  split.
  - intros p t0 Hp Hr.
    destruct (wait_any_within futures p t0 Hp Hr t0 0) as (i & t' & q & s & E & Hb & Hq & Hrq & Hs & Hk);
      [lia..|].
    exists (S t0), i, t', q, s. split_and!; try done; try lia.
    intros u Hu. by apply (ready_stays q (pred t')).
  - intros Hn fuel. generalize 0%nat as t. induction fuel as [|f IH]; intros t; [done|]. cbn [wait_any].
    destruct (poll_all 0 futures t) as [t' [i|]] eqn:E; [|apply IH]. exfalso.
    destruct (poll_all_spec _ _ _ _ _ E) as [_ (_ & _ & q & Hq & Hrq & _)].
    rewrite Hn in Hrq; [done|]. by apply list_elem_of_lookup_2 in Hq.
Qed.
End WaitAny.
