(* ===== verification/ExampleServer.v ===== *)
(** * The example server

    The four functions of src/server.cpp and their registration, what a client gets
    from each, and runs of the server that end badly. The quotient of two doubles is
    the processor's ([fdiv]); printing appends to standard output, and sleeping
    does nothing. *)

From S2P Require Import Prelude FloatBits MsgObject Pack Visitor Format Adaptors AdaptorLaws.
From S2P Require Import Handler Response Dispatcher DispatcherSpec AsyncWriter UnpackerSpec Receiver.
From S2P Require Import Server ServerSpec ServerSafety.

#[local] Open Scope handler_scope.

(** ** The functions *)

(** An [int] result; overflow is undefined. *)
Definition int_result (z : Z) : H (cint C_int) :=
  if (int_min C_int <=? z) && (z <=? int_max C_int) then hret z else undefined.

Definition int2 : Type := cint C_int * (cint C_int * unit).
Definition double2 : Type := double * (double * unit).

Definition add (v : int2) : H (cint C_int) := int_result (v.1 + v.2.1).

(** [slow_square(x, delay_ms)] *)
Definition slow_square (v : int2) : H (cint C_int) := int_result (v.1 * v.1).

Definition print (s : bytes) : H unit :=
  hmodify (fun e => {| loc := loc e; heap := heap e; console := console e ++ s |}).

Definition echo (v : bytes * unit) : H bytes :=
  do! _ := print (str "echo: " ++ v.1 ++ [chr 10]) in
  hret v.1.

Section Division.
Variable fdiv : Z -> Z -> Z.

Definition divide (v : double2) : H double :=
  let '(Double a, (Double b, _)) := v in
  if f64_eqb b 0 then respond_error (str "division by zero") else hret (Double (fdiv a b)).

Definition int2_elems : TupleElems int2 := _.
Definition double2_elems : TupleElems double2 := _.
Definition text_elems : TupleElems (bytes * unit) := _.

Definition add_functor : functor := ResultArgs int2 (cint C_int) int2_elems _ add.
Definition slow_square_functor : functor := ResultArgs int2 (cint C_int) int2_elems _ slow_square.
Definition divide_functor : functor := ResultArgs double2 double double2_elems _ divide.
Definition echo_functor : functor := ResultArgs (bytes * unit) bytes text_elems _ echo.

(** The four [bind]s of [main]. *)
Definition main_bind (unset : object -> Z) : res bytes dispatcher :=
  (let? d := bind unset ∅ (str "add") add_functor in
   let? d := bind unset d (str "slow_square") slow_square_functor in
   let? d := bind unset d (str "divide") divide_functor in
   bind unset d (str "echo") echo_functor)%res.

Definition functions : dispatcher :=
  match main_bind no_unset with Ok d => d | Throw _ => ∅ end.

(** ** What they compute *)

Definition int_object (z : Z) : object := object_integer C_int z.
Definition is_int (z : Z) : Prop := int_min C_int <= z <= int_max C_int.

Lemma int_result_ok z e : is_int z -> int_result z e = (Returns z, e).
Proof.
  unfold is_int, int_result. intros [H1 H2]. rewrite (proj2 (Z.leb_le _ _) H1), (proj2 (Z.leb_le _ _) H2).
  done.
Qed.

Lemma add_computes a b e :
  is_int a -> is_int b -> is_int (a + b) ->
  computes add_functor [int_object a; int_object b] e (int_object (a + b)) e.
Proof.
  intros Ha Hb Hab. eapply (computes_ResultArgs _ _ _ _ _ _ (a, (b, tt)) _ (a + b));
    [by split; [exact Ha|split; [exact Hb|]]|done|done|by apply int_result_ok|done].
Qed.

(** The zone of the thread's last error, if any, was made before. *)
Definition error_zone_old (e : env) : Prop :=
  match h_own (error_ (this_handler (loc e))) with Some i => i < next_zone (heap e) | None => True end.

(** The functions of the example server, on the objects a client sends: [add] gives the sum
    and [slow_square] the square where they are representable, [echo] prints the
    text and gives it back, [divide] by anything but zero gives the quotient, and by a zero
    of either sign it responds with the error "division by zero". *)
Theorem server_functions e a b s (d1 d2 : Z) :
  is_int a -> is_int b -> len s < 2 ^ 32 -> 0 <= d1 < 2 ^ 64 -> 0 <= d2 < 2 ^ 64 ->
  (is_int (a + b) -> computes add_functor [int_object a; int_object b] e (int_object (a + b)) e) /\
  (is_int (a * a) -> computes slow_square_functor [int_object a; int_object b] e (int_object (a * a)) e) /\
  computes echo_functor [STR s] e (STR s)
    {| loc := loc e; heap := heap e; console := console e ++ str "echo: " ++ s ++ [chr 10] |} /\
  (f64_eqb d2 0 = false ->
   computes divide_functor [FLOAT64 d1; FLOAT64 d2] e (FLOAT64 (fdiv d1 d2)) e) /\
  (f64_eqb d2 0 = true -> plain_locals (loc e) -> error_zone_old e ->
   exists e', rejects (adaptor no_unset (str "divide") divide_functor)
     (ARRAY [FLOAT64 d1; FLOAT64 d2]) e (STR (str "division by zero")) e').
Proof.
  intros Ha Hb Hs H1 H2. pose proof (len_nonneg s). split_and!.
  - by apply add_computes.
  - intros Haa. eapply (computes_ResultArgs _ _ _ _ _ _ (a, (b, tt)) _ (a * a));
      [by split; [exact Ha|split; [exact Hb|]]|done|done|by apply int_result_ok|done].
  - eapply (computes_ResultArgs _ _ _ _ _ _ (s, tt) _ s); [by split| |done|reflexivity|];
      simpl; by rewrite checked_ok by lia.
  - intros Hz. eapply (computes_ResultArgs _ _ _ _ _ _ (Double d1, (Double d2, tt)) _ (Double (fdiv d1 d2)));
      [by split; [exact H1|split; [exact H2|]]|done|done|simpl; by rewrite Hz|done].
  - intros Hz (_ & _ & He & Hx & Hst) Hold.
    assert (E : adaptor no_unset (str "divide") divide_functor (ARRAY [FLOAT64 d1; FLOAT64 d2]) e =
      hbind (divide (Double d1, (Double d2, tt))) pack_handle e) by reflexivity.
    unfold rejects. rewrite E. unfold divide. rewrite Hz. eexists. split; [reflexivity|].
    simpl. split_and!; try done. unfold readable, is_live. simpl.
    apply bool_decide_eq_true. unfold error_zone_old in Hold.
    destruct (h_own _) as [i|]; simpl; [|set_solver]. assert (next_zone (heap e) <> i) by lia. set_solver.
Qed.

End Division.
