(* ===== verification/ExampleRuns.v ===== *)
(** * Runs of the example server

    The example's functions behind a server with the unpacker of the code (reads of
    1024 bytes): the good case as a witness of the general theorems, and runs in which two
    messages, one message or an unlucky schedule bring the server down. *)

From S2P Require Import Prelude FloatBits MsgObject Pack Visitor Format Roundtrip Adaptors AdaptorLaws.
From S2P Require Unpacker.
From S2P Require Import UnpackerSpec.
From S2P Require Import Handler Response Dispatcher DispatcherSpec AsyncWriter.
From S2P Require Import Receiver Server ServerSpec ServerSafety ExampleServer.

Definition nan_div (a b : Z) : Z := 0x7ff8000000000000.

#[export] Instance rx_unpacker : Receiver Unpacker.unpacker := unpacker_receiver small_malloc 1024 16.

Lemma max_ok : 0 <= 1024 <= cap.
Proof. unfold cap. lia. Qed.

Definition rx_laws : @ReceiverLaws _ rx_unpacker default_limit 1024 16 :=
  unpacker_receiver_laws small_malloc 1024 16 default_limit small_malloc_bound max_ok.

Definition start : res Unpacker.unpacker_exn Unpacker.unpacker :=
  start_receiver small_malloc 1024 64 default_limit.

Definition pac0 : Unpacker.unpacker :=
  match start with
  | Ok s => s
  | Throw _ => {| Unpacker.mem := []; Unpacker.m_buffer := 0; Unpacker.m_used := 0;
      Unpacker.m_free := 0; Unpacker.m_off := 0; Unpacker.m_parsed := 0;
      Unpacker.m_initial_buffer_size := 0;
      Unpacker.cx := Parse.new_context (new_visitor None default_limit);
      Unpacker.m_z := []; Unpacker.counts := ∅; Unpacker.next_id := 0 |}
  end.

Lemma pac0_awaits : unpacker_awaiting 1024 default_limit [] pac0.
Proof. apply (start_receiver_awaits small_malloc 1024 64); [apply small_malloc_bound|apply max_ok|reflexivity]. Qed.

(** The example server, with these functions. *)
Definition serve (d : dispatcher) : list event -> option (outcome server) :=
  fun evs => run pac0 no_unset d false evs new_server.
Definition demo : dispatcher := functions nan_div.

Definition one : object := FLOAT64 0x3ff0000000000000.
Definition zero : object := FLOAT64 0.
Definition divide_call (id : Z) : bytes :=
  encode (call_object id (str "divide") (ARRAY [one; zero])).

(** ** Runs that end badly *)

(** Two calls that are both answered with [respond_error], one after the other on
    the same worker, are undefined behaviour: the first response still refers to
    the zone of the thread's error object, which the second [respond_error] destroys
    before the first response is written. Two divisions by zero that arrive
    in one read of a single-threaded server do it. *)
Theorem two_rejections_use_after_free :
  serve demo [Accepted 1 true; Received 0 (divide_call 1 ++ divide_call 2);
              Work 1 0; Work 1 0; Strand 1 0] = Some Undefined.
Proof. vm_compute. reflexivity. Qed.

(** A call with an argument of the wrong type ends the example server: the
    [type_error] of the conversion is rethrown by the dispatcher, since the example
    does not suppress exceptions, and leaves the worker's thread. *)
Theorem wrong_argument_type_terminates :
  serve demo [Accepted 1 true;
              Received 0 (encode (call_object 1 (str "add") (ARRAY [STR (str "1"); one]))); Work 1 0] =
    Some (Raises (std_exception (str "std::bad_cast"))).
Proof. vm_compute. reflexivity. Qed.

(** A function that ends its session, and one that stops the server. *)
Definition quit : dispatcher := bound (str "quit") (VoidZero post_exit).
Definition halt : dispatcher := bound (str "halt") (VoidZero stop_server).

(** A session exit that a handler requests while its client disconnects is undefined
    behaviour: the posted task captured only [this], and by the time the strand runs it
    the session is gone. *)
Theorem exit_after_disconnect_use_after_free :
  serve quit [Accepted 1 true; Received 0 (encode (call_object 1 (str "quit") (ARRAY [])));
              Disconnected 0; Work 1 0; Strand 1 0; Strand 1 0; Strand 1 0; Strand 1 0] = Some Undefined.
Proof. vm_compute. reflexivity. Qed.

Definition halt_request : list event :=
  [Accepted 1 true; Received 0 (encode (call_object 1 (str "halt") (ARRAY []))); Work 1 0].

(** A handler's request to stop the server is lost when another worker runs the posted
    task: the flag is thread-local. On the handler's own worker the acceptor is cancelled; on
    any other the sessions are closed and the server goes on accepting. *)
Theorem stop_lost_on_other_worker :
  match serve halt (halt_request ++ [Strand 1 0; Strand 1 0]),
        serve halt (halt_request ++ [Strand 2 0; Strand 2 0]) with
  | Some (Returns s1), Some (Returns s2) =>
    accepting s1 = Some true /\ sessions_ s1 = [] /\
    accepting s2 = Some false /\ sessions_ s2 = []
  | _, _ => False
  end.
Proof. vm_compute. auto. Qed.

(** ** Witnesses *)

Definition s0 : server := on_accept pac0 1 true new_server.
Definition x0 : session :=
  {| pac := pac0; writer := new_writer; strand := []; is_reading := true |}.

Lemma quiet_x0 : quiet x0.
Proof. by repeat split. Qed.

Lemma stream_one o : wf_object o -> within default_limit 1 o = true ->
  stream default_limit ([] ++ encode o) [o] [].
Proof.
  intros Hw Hl. pose proof (decode_encode default_limit o [] Hw Hl) as Hd. rewrite app_nil_r in Hd.
  eapply stream_more; [exact Hd|]. constructor. reflexivity.
Qed.

Definition add_call : object := call_object 1 (str "add") (ARRAY [int_object 2; int_object 3]).
Definition divide_object : object := call_object 1 (str "divide") (ARRAY [one; zero]).

Definition adder : dispatcher := bound (str "add") add_functor.

Lemma request_answered_witness :
  match run pac0 no_unset adder false (one_request 1 2 0 (encode add_call)) s0 with
  | Some (Returns s') => exists x', sessions s' !! 0 = Some x' /\ quiet x' /\ jobs s' = [] /\
      unpacker_awaiting 1024 default_limit [] (pac x') /\
      wire (writer x') = wire (writer x0) ++ encode (response_object 1 NIL (int_object (2 + 3)))
  | Some (Raises t) => t = std_exception (str "std::bad_alloc")
  | _ => False
  end.
Proof.
  eapply (request_answered (HL := rx_laws) pac0 no_unset adder false 1 2 0 (encode add_call) [] x0 s0
    add_call [] ∅ 1 (str "add") add_functor _ (int_object (2 + 3)));
    [reflexivity|apply quiet_x0|reflexivity|apply pac0_awaits|vm_compute; congruence|vm_compute; reflexivity| | | | | | |].
  - apply stream_one; [|reflexivity]. repeat split; vm_compute; intuition congruence.
  - vm_compute. lia.
  - lia.
  - reflexivity.
  - apply call_object_is_call. lia.
  - apply add_computes; vm_compute; intuition congruence.
  - by repeat split.
Defined.

Definition divider : dispatcher := bound (str "divide") (divide_functor nan_div).
Definition divide_adaptor : adaptor_type := adaptor no_unset (str "divide") (divide_functor nan_div).
Definition by_zero : object := STR (str "division by zero").

(** The environment in which a division by zero ends. *)
Definition divided (e : env) : env := snd (divide_adaptor (ARRAY [one; zero]) e).

Lemma divide_rejects sid (s : server (rx := Unpacker.unpacker)) :
  memory s = no_zones \/ memory s = snd (new_zone no_zones) -> workers s = ∅ ->
  rejects divide_adaptor (ARRAY [one; zero]) (enter sid (env_of s 1)) by_zero
    (divided (enter sid (env_of s 1))).
Proof.
  intros Hm Hw. unfold divided, env_of. rewrite Hw. destruct Hm as [-> | ->];
    (split; [reflexivity|]); by split_and!.
Qed.


(** The same division as a notification, waiting to be worked on. *)
Definition divide_job : job :=
  {| j_session := 0; j_msg := notification_object (str "divide") (ARRAY [one; zero]); j_zone := 0 |}.

Lemma notification_error_undefined_witness :
  step pac0 no_unset divider false (Work 1 0) (set_jobs [divide_job] s0) = Some Undefined.
Proof.
  eapply (notification_error_undefined pac0 no_unset divider false 1 divide_job [] (set_jobs [divide_job] s0)
    (str "divide") divide_adaptor (ARRAY [one; zero]) by_zero).
  - reflexivity.
  - eexists 2, _. by repeat split.
  - reflexivity.
  - apply divide_rejects; [by left|reflexivity].
Defined.

Definition bad_job : job :=
  {| j_session := 0; j_msg := ARRAY [NIL; NIL; NIL; NIL]; j_zone := 0 |}.

Lemma malformed_call_terminates_witness :
  step pac0 no_unset demo true (Work 1 0) (set_jobs [bad_job] s0) =
    Some (Raises (std_exception (str "std::bad_cast"))).
Proof.
  apply (malformed_call_terminates pac0 no_unset demo true 1 bad_job [] (set_jobs [bad_job] s0)
    [NIL; NIL; NIL; NIL] type_error); reflexivity.
Defined.

Definition add_events : list event :=
  [Accepted 1 true; Received 0 (encode add_call); Work 1 0; Strand 2 0].
Definition add_state : server :=
  match serve adder add_events with Some (Returns s) => s | _ => new_server end.
Definition add_session : session :=
  match sessions add_state !! 0 with Some x => x | None => x0 end.


Lemma server_functions_witness :
  let e := enter 0 start_env in
  (is_int (2 + 3) -> computes add_functor [int_object 2; int_object 3] e (int_object (2 + 3)) e) /\
  (is_int (2 * 2) -> computes slow_square_functor [int_object 2; int_object 3] e (int_object (2 * 2)) e) /\
  computes echo_functor [STR (str "hi")] e (STR (str "hi"))
    {| loc := loc e; heap := heap e; console := console e ++ str "echo: " ++ str "hi" ++ [chr 10] |} /\
  (f64_eqb 0 0 = false ->
   computes (divide_functor nan_div) [FLOAT64 0x3ff0000000000000; FLOAT64 0] e
     (FLOAT64 (nan_div 0x3ff0000000000000 0)) e) /\
  (f64_eqb 0 0 = true -> plain_locals (loc e) -> error_zone_old e ->
   exists e', rejects (adaptor no_unset (str "divide") (divide_functor nan_div))
     (ARRAY [FLOAT64 0x3ff0000000000000; FLOAT64 0]) e (STR (str "division by zero")) e').
Proof.
  intros e. apply (server_functions nan_div e 2 3 (str "hi") 0x3ff0000000000000 0);
    vm_compute; intuition congruence.
Defined.
