(* ===== verification/ExampleMain.v ===== *)
(** * The main function of the example client

    Models [main] of src/client.cpp, the whole script: its calls, its futures, what it
    prints and where, and its exceptions. What it needs of [rpc::client] is the class
    [Rpc]; what a server with the example's functions makes of that is [Served], and
    against it the output is the one the README gives. *)

From S2P Require Import Prelude FloatBits MsgObject Adaptors AdaptorLaws Handler Response Dispatcher.
From S2P Require Import ExampleServer.

(** ** Exceptions

    [rpc::rpc_error], and the rest by what [what()] says: [std::bad_cast], [rpc::timeout],
    [std::future_error], [rpc::system_error]. *)

Inductive exn :=
| RpcError (what func_name : bytes) (error : handle)
| StdException (what : bytes).

Definition what (e : exn) : bytes := match e with RpcError w _ _ | StdException w => w end.

(** ** The client, as [main] uses it

    A future is named by its promise. [None]: it waits for ever, or ends the program. *)

Class Rpc (W : Type) := {
  async_call : forall A, TupleElems A -> bytes -> A -> W -> option (res exn Z * W);
  get : Z -> W -> option (res exn handle * W);
  ready : Z -> W -> bool * W;                    (* wait_for(1 ms) == ready *)
  now : W -> Z * W;                              (* steady_clock, in milliseconds *)
}.

Section Main.
Context {W : Type}.


Record streams := { cout_ : bytes; cerr_ : bytes }.

Definition state : Type := W * streams.
Definition M (A : Type) : Type := state -> option (res exn A * state).

Definition mret {A} (a : A) : M A := fun s => Some (Ok a, s).
Definition mbind {A B} (m : M A) (k : A -> M B) : M B := fun s =>
  match m s with
  | Some (Ok a, s) => k a s
  | Some (Throw e, s) => Some (Throw e, s)
  | None => None
  end.
Definition try_catch {A} (m : M A) (k : exn -> M A) : M A := fun s =>
  match m s with Some (Throw e, s) => k e s | r => r end.
Definition throw {A} (e : exn) : M A := fun s => Some (Throw e, s).
Definition undefined {A} : M A := fun _ => None.
End Main.

Declare Scope main_scope.
Delimit Scope main_scope with main.
Notation "'let*' x := m 'in' k" := (mbind m (fun x => k))
  (at level 10, x pattern, m at level 100, k at level 200) : main_scope.
Notation "m ';;' k" := (mbind m (fun _ => k)) (at level 100, k at level 200, right associativity) : main_scope.
#[local] Open Scope main_scope.

Section Program.
Context {W : Type} {RW : Rpc W} (double_text : Z -> bytes).

Abbreviation M := (M (W := W)).

Definition on_client {A} (f : W -> option (res exn A * W)) : M A := fun s =>
  match f s.1 with Some (r, w) => Some (r, (w, s.2)) | None => None end.

Definition cout (t : bytes) : M unit := fun s =>
  Some (Ok tt, (s.1, {| cout_ := cout_ s.2 ++ t; cerr_ := cerr_ s.2 |})).
Definition cerr (t : bytes) : M unit := fun s =>
  Some (Ok tt, (s.1, {| cout_ := cout_ s.2; cerr_ := cerr_ s.2 ++ t |})).
Definition nl : bytes := [chr 10].

Definition client_async {A} `{TupleElems A} (name : bytes) (args : A) : M Z :=
  on_client (async_call A _ name args).
Definition client_get (p : Z) : M handle := on_client (get p).
Definition client_now : M Z := on_client (fun w => let '(t, w) := now w in Some (Ok t, w)).

(** [client::call] with no timeout set. *)
Definition client_call {A} `{TupleElems A} (name : bytes) (args : A) : M handle :=
  let* fut := client_async name args in
  client_get fut.

(** [as<T>()] *)
Definition as_value (T : Type) `{Adaptor T} (h : handle) : M T :=
  match as_ T (h_obj h) with
  | Ok v => mret v
  | Throw type_error => throw (StdException (str "std::bad_cast"))
  | Throw container_size_overflow => throw (StdException (str "container size overflow"))
  end.

Definition as_int : handle -> M Z := as_value (cint C_int).

(** ** Several futures

    A future whose value was taken is not valid. *)

Abbreviation future := (option Z).

Fixpoint poll_all (i : nat) (futures : list future) : M (option nat) :=
  match futures with
  | [] => mret None
  | None :: fs => poll_all (S i) fs
  | Some p :: fs =>
    let* b := on_client (fun w => let '(b, w) := ready p w in Some (Ok b, w)) in
    if b : bool then mret (Some i) else poll_all (S i) fs
  end.

Fixpoint wait_any (fuel : nat) (futures : list future) : M nat :=
  match fuel with
  | O => undefined
  | S f =>
    let* r := poll_all 0 futures in
    match r with Some i => mret i | None => wait_any f futures end
  end.

(** [futures[i].get()] *)
Definition get_at (i : nat) (futures : list future) : M handle :=
  match futures !! i with Some (Some p) => client_get p | _ => undefined end.

Definition delays : list Z := [900; 300; 600].

(** The loop that fills the vector, from [i] on. *)
Fixpoint call_all (i : nat) (ds : list Z) : M (list future) :=
  match ds with
  | [] => mret []
  | d :: ds =>
    let* p := client_async (str "slow_square") ((sext 32 (Z.of_nat i + 2), (d, tt)) : int2) in
    let* fs := call_all (S i) ds in
    mret (Some p :: fs)
  end.

(** The loop that collects the rest. *)
Fixpoint collect (i first : nat) (futures : list future) : M unit :=
  match futures with
  | [] => mret tt
  | f :: fs =>
    (if (i =? first)%nat then mret tt
     else cout (str "Call #" ++ decimal (Z.of_nat i) ++ str " = ") ;;
          let* h := match f with Some p => client_get p | None => undefined end in
          let* v := as_int h in
          cout (decimal v ++ nl)) ;;
    collect (S i) first fs
  end.

(** ** The script *)

Definition synchronous : M unit :=
  let* h := client_call (str "add") ((2, (3, tt)) : int2) in
  let* sum := as_int h in
  cout (str "add(2, 3) = " ++ decimal sum ++ nl).

Definition asynchronous : M unit :=
  let* fut := client_async (str "add") ((10, (20, tt)) : int2) in
  cout (str "async add(10, 20) sent, waiting..." ++ nl) ;;
  cout (str "async add(10, 20) = ") ;;
  let* h := client_get fut in
  let* v := as_int h in
  cout (decimal v ++ nl).

Definition several (fuel : nat) : M unit :=
  let* futures := call_all 0 delays in
  let* start := client_now in
  let* first := wait_any fuel futures in
  let* stop := client_now in
  let ms := stop - start in
  cout (str "First result: call #" ++ decimal (Z.of_nat first) ++ str " (delay " ++
        decimal (nth first delays 0) ++ str " ms) = ") ;;
  let* h := get_at first futures in
  let* v := as_int h in
  cout (decimal v ++ str ", after " ++ decimal ms ++ str " ms" ++ nl) ;;
  collect 0 first futures.

Definition failing : M unit :=
  try_catch
    (let* h := client_call (str "divide") ((Double 0x3ff0000000000000, (Double 0, tt)) : double2) in
     let* r := as_value double h in
     cout (str "divide = " ++ double_text (match r with Double d => d end) ++ nl))
    (fun e => match e with
     | RpcError _ func_name error =>
       cout (str "Server error in '" ++ func_name ++ str "': ") ;;
       let* s := as_value bytes error in
       cout (s ++ nl)
     | StdException _ => throw e
     end).

(** [main]: what it returns. *)
Definition main (fuel : nat) : M Z :=
  try_catch
    (synchronous ;;
     asynchronous ;;
     several fuel ;;
     failing ;;
     client_call (str "echo") ((str "Hello from client", tt) : bytes * unit) ;;
     cout (str "Done." ++ nl) ;;
     mret 0)
    (fun e => cerr (str "Client error: " ++ what e ++ nl) ;; mret 1).
End Program.

(** ** What the server answers

    The result of a call to one of the example's functions, or the error. *)

Inductive replies : bytes -> list object -> res object object -> Prop :=
| replies_add a b : is_int a -> is_int b -> is_int (a + b) ->
    replies (str "add") [int_object a; int_object b] (Ok (int_object (a + b)))
| replies_square a d : is_int a -> is_int d -> is_int (a * a) ->
    replies (str "slow_square") [int_object a; int_object d] (Ok (int_object (a * a)))
| replies_divide a b : 0 <= a < 2 ^ 64 -> 0 <= b < 2 ^ 64 -> f64_eqb b 0 = true ->
    replies (str "divide") [FLOAT64 a; FLOAT64 b] (Throw (STR (str "division by zero")))
| replies_echo s : len s < 2 ^ 32 -> replies (str "echo") [STR s] (Ok (STR s)).

(** What [get] gives then. *)
Definition given (name : bytes) (r : res object object) (x : res exn handle) : Prop :=
  match r, x with
  | Ok o, Ok h => h_obj h = o
  | Throw e, Throw (RpcError _ n h) => n = name /\ h_obj h = e
  | _, _ => False
  end.

(** A client connected to the example's server: [serving w m] says that [w] is one whose
    valid futures are those of [m]. A future that is polled gets ready before long. *)
Class Served (W : Type) {RW : Rpc W} := {
  serving : W -> gmap Z (bytes * res object object) -> Prop;
  patience : W -> nat;
  async_call_served A (HA : TupleElems A) name (v : A) os r w m :
    serving w m -> object_elems v = Ok os -> replies name os r ->
    exists p w', async_call A HA name v w = Some (Ok p, w') /\ m !! p = None /\
      serving w' (<[p := (name, r)]> m);
  get_served p name r w m :
    serving w m -> m !! p = Some (name, r) ->
    exists x w', get p w = Some (x, w') /\ given name r x /\ serving w' (delete p m);
  ready_served p w m :
    serving w m -> is_Some (m !! p) ->
    let '(b, w') := ready p w in
    serving w' m /\ (patience w' <= patience w)%nat /\ (b = false -> (patience w' < patience w)%nat);
  now_served w m : serving w m -> let '(_, w') := now w in serving w' m;
}.

(** ** What it prints *)

Definition squares : list Z := [4; 9; 16].

Definition line (i : nat) : bytes :=
  str "Call #" ++ decimal (Z.of_nat i) ++ str " = " ++ decimal (nth i squares 0) ++ nl.

(** The output, when the call [first] is the first seen to be done, [ms] milliseconds after the
    start. *)
Definition expected (first : nat) (ms : Z) : bytes :=
  str "add(2, 3) = 5" ++ nl ++
  str "async add(10, 20) sent, waiting..." ++ nl ++
  str "async add(10, 20) = 30" ++ nl ++
  str "First result: call #" ++ decimal (Z.of_nat first) ++ str " (delay " ++
    decimal (nth first delays 0) ++ str " ms) = " ++ decimal (nth first squares 0) ++
    str ", after " ++ decimal ms ++ str " ms" ++ nl ++
  concat (map line (List.filter (fun i => negb (i =? first)%nat) [0; 1; 2]%nat)) ++
  str "Server error in 'divide': division by zero" ++ nl ++
  str "Done." ++ nl.

#[local] Opaque str decimal nl.

Section Proofs.
Context {W : Type} {RW : Rpc W} {SW : Served W} (double_text : Z -> bytes).

Abbreviation M := (M (W := W)).
Abbreviation state := (state (W := W)).

(** [m] ends, without an exception. *)
Definition runs {A} (m : M A) (s : state) (P : A -> state -> Prop) : Prop :=
  exists a s', m s = Some (Ok a, s') /\ P a s'.

Lemma runs_bind {A B} (m : M A) (k : A -> M B) s P :
  runs m s (fun a s' => runs (k a) s' P) -> runs (mbind m k) s P.
Proof. intros (a & s' & E & H). unfold runs, mbind. by rewrite E. Qed.

Lemma runs_ret {A} (a : A) s (P : A -> state -> Prop) : P a s -> runs (mret a) s P.
Proof. intros H. by exists a, s. Qed.

Lemma runs_mono {A} (m : M A) s (P Q : A -> state -> Prop) :
  runs m s P -> (forall a s', P a s' -> Q a s') -> runs m s Q.
Proof. intros (a & s' & E & H) HQ. exists a, s'. auto. Qed.

Definition said (t : bytes) (w : W) (s : state) : state :=
  (w, {| cout_ := cout_ s.2 ++ t; cerr_ := cerr_ s.2 |}).

Lemma said_nothing (s : state) : said [] s.1 s = s.
Proof. destruct s as [w [o e]]. unfold said. simpl. by rewrite app_nil_r. Qed.

Lemma said_nothing_at w (s : state) : said [] w s = (w, s.2).
Proof. destruct s as [w' [o e]]. unfold said. simpl. by rewrite app_nil_r. Qed.

Lemma runs_cout t s (P : unit -> state -> Prop) : P tt (said t s.1 s) -> runs (cout t) s P.
Proof. intros H. by exists tt, (said t s.1 s). Qed.

Lemma runs_async {A} {HA : TupleElems A} name (v : A) os r s m (P : Z -> state -> Prop) :
  serving s.1 m -> object_elems v = Ok os -> replies name os r ->
  (forall p w', m !! p = None -> serving w' (<[p := (name, r)]> m) -> P p (w', s.2)) ->
  runs (client_async name v) s P.
Proof.
  intros Hs Ho Hr HP. destruct (async_call_served A HA name v os r s.1 m Hs Ho Hr) as (p & w' & E & Hp & Hs').
  exists p, (w', s.2). split; [|by apply HP]. unfold client_async, on_client. by rewrite E.
Qed.

Lemma runs_get p name o s m (P : handle -> state -> Prop) :
  serving s.1 m -> m !! p = Some (name, Ok o) ->
  (forall h w', h_obj h = o -> serving w' (delete p m) -> P h (w', s.2)) ->
  runs (client_get p) s P.
Proof.
  intros Hs Hp HP. destruct (get_served p name (Ok o) s.1 m Hs Hp) as (x & w' & E & Hg & Hs').
  destruct x as [h|]; [|by destruct Hg]. exists h, (w', s.2). split; [|by apply HP].
  unfold client_get, on_client. by rewrite E.
Qed.

(** A call, with nothing else under way or with. *)
Lemma runs_call {A} {HA : TupleElems A} name (v : A) os o s m (P : handle -> state -> Prop) :
  serving s.1 m -> object_elems v = Ok os -> replies name os (Ok o) ->
  (forall h w', h_obj h = o -> serving w' m -> P h (w', s.2)) -> runs (client_call name v) s P.
Proof.
  intros Hs Ho Hr HP. apply runs_bind. eapply runs_async; [done..|]. intros p w' Hp Hs'.
  eapply (runs_get p name o _ (<[p := (name, Ok o)]> m)); [done|apply lookup_insert_eq|].
  intros h w2 Hh. rewrite delete_insert_id by done. by apply HP.
Qed.

Lemma runs_as_int h n s (P : Z -> state -> Prop) :
  h_obj h = int_object n -> is_int n -> P n s -> runs (as_int h) s P.
Proof.
  intros Hh Hn HP. unfold as_int, as_value. rewrite Hh. unfold as_.
  destruct (object_integer_ok C_int n Hn) as [Hw Hi]. unfold int_object. simpl.
  rewrite (proj2 (convert_integer_ok C_int _ n Hw) (conj Hi Hn)). by apply runs_ret.
Qed.

(** ** The parts of the script *)

(** The state is still served, and [t] was printed. *)
Definition prints (t : bytes) (m : gmap Z (bytes * res object object)) (s s' : state) : Prop :=
  exists w', serving w' m /\ s' = said t w' s.

Lemma prints_then t u w1 (s s' : state) m : prints u m (said t w1 s) s' -> prints (t ++ u) m s s'.
Proof. intros (w & H & ->). exists w. split; [done|]. unfold said. simpl. by rewrite app_assoc. Qed.

Ltac small := vm_compute; intuition congruence.

Lemma synchronous_runs s m :
  serving s.1 m -> runs synchronous s (fun _ => prints (str "add(2, 3) = 5" ++ nl) m s).
Proof.
  intros Hs. apply runs_bind. eapply runs_call; [done|reflexivity|apply (replies_add 2 3); small|].
  intros h w' Hh Hs'. apply runs_bind. eapply runs_as_int; [done|small|]. apply runs_cout.
  exists w'. by split.
Qed.

Lemma asynchronous_runs s m :
  serving s.1 m ->
  runs asynchronous s (fun _ => prints (str "async add(10, 20) sent, waiting..." ++ nl ++
                                        str "async add(10, 20) = 30" ++ nl) m s).
Proof.
  intros Hs. apply runs_bind. eapply runs_async; [done|reflexivity|apply (replies_add 10 20); small|].
  intros p w' Hp Hs'. apply runs_bind, runs_cout. apply runs_bind, runs_cout. apply runs_bind.
  eapply (runs_get p); [exact Hs'|apply lookup_insert_eq|]. intros h w2 Hh Hs2.
  rewrite delete_insert_id in Hs2 by done.
  apply runs_bind. eapply runs_as_int; [done|small|]. apply runs_cout.
  exists w2. split; [done|]. unfold said. simpl. rewrite <- !app_assoc. done.
Qed.

(** The futures of the calls to [slow_square] made so far. *)
Definition squaring (fs : list (option Z)) (i : nat) (m : gmap Z (bytes * res object object)) : Prop :=
  NoDup fs /\ forall k f, fs !! k = Some f -> exists p, f = Some p /\
    m !! p = Some (str "slow_square", Ok (int_object (nth (i + k) squares 0))).

Lemma call_all_runs ds : forall i s m, (i + length ds = 3)%nat -> ds = drop i delays ->
  serving s.1 m ->
  runs (call_all i ds) s (fun fs s' => exists m' w', length fs = length ds /\ squaring fs i m' /\
    (forall p x, m !! p = Some x -> m' !! p = Some x /\ Some p ∉ fs) /\
    (forall p, Some p ∉ fs -> m' !! p = m !! p) /\ serving w' m' /\ s' = said [] w' s).
Proof.
  induction ds as [|d ds IH]; intros i s m Hi Hd Hs; cbn [call_all].
  - apply runs_ret. exists m, s.1. split_and!; try done.
    + split; [constructor|]. done.
    + intros p x Hx. split; [done|apply not_elem_of_nil].
    + by rewrite said_nothing.
  - assert (Hdi : delays !! i = Some d /\ ds = drop (S i) delays).
    { rewrite <- (Nat.add_0_r i), <- lookup_drop, <- Hd. split; [done|].
      rewrite Nat.add_0_r. replace (S i) with (i + 1)%nat by lia. rewrite <- drop_drop, <- Hd. done. }
    destruct Hdi as [Hdi Hds]. simpl in Hi.
    set (n := sext 32 (Z.of_nat i + 2)).
    assert (Hn : is_int n /\ is_int d /\ is_int (n * n) /\ n * n = nth i squares 0).
    { destruct i as [|[|[|i]]]; [..|lia]; injection Hdi as <-; vm_compute; intuition congruence. }
    destruct Hn as (Hn & Hdr & Hnn & Hsq).
    apply runs_bind. eapply runs_async; [done|reflexivity|by apply (replies_square n d)|].
    intros p w' Hp Hs'. apply runs_bind. eapply runs_mono.
    { apply (IH (S i) (w', s.2) _ ltac:(lia) Hds Hs'). }
    intros fs s2 (m' & w2 & Hl & [Hnd Hsqs] & Hold & Hsame & Hs2 & ->). apply runs_ret.
    destruct (Hold p _ (lookup_insert_eq _ _ _)) as [Hpm Hpn].
    exists m', w2. split_and!; [simpl; lia| | |  |done|done].
    + split; [by apply NoDup_cons|]. intros [|k] f Hf.
      * injection Hf as <-. exists p. rewrite Nat.add_0_r, <- Hsq. done.
      * rewrite Nat.add_succ_r. by apply Hsqs.
    + intros q x Hq. assert (Hne : p <> q) by congruence.
      destruct (Hold q x) as [H1 H2]; [by rewrite lookup_insert_ne|]. split; [done|].
      intros [[= ->]|H]%elem_of_cons; done.
    + intros q Hq. apply not_elem_of_cons in Hq as [Hq1 Hq2]. rewrite Hsame by done.
      apply lookup_insert_ne. congruence.
Qed.

(** Waiting for any: it ends, with the index of one of the futures. *)
Lemma poll_all_runs m fs : forall i s, serving s.1 m ->
  (forall f, f ∈ fs -> exists p, f = Some p /\ is_Some (m !! p)) ->
  runs (poll_all i fs) s (fun r s' => serving s'.1 m /\ s'.2 = s.2 /\ (patience s'.1 <= patience s.1)%nat /\
    match r with
    | Some j => (i <= j < i + length fs)%nat
    | None => fs <> [] -> (patience s'.1 < patience s.1)%nat
    end).
Proof.
  induction fs as [|f fs IH]; intros i s Hs Hf; cbn [poll_all].
  - apply runs_ret. by split_and!.
  - destruct (Hf f (list_elem_of_here _ _)) as (p & -> & Hp).
    pose proof (ready_served p s.1 m Hs Hp) as R. apply runs_bind. unfold runs at 1, on_client.
    destruct (ready p s.1) as [b w']. destruct R as (Hs' & Hle & Hlt).
    exists b, (w', s.2). split; [done|]. destruct b.
    + apply runs_ret. split_and!; [done|done|done|lia|simpl; lia].
    + eapply runs_mono; [apply (IH (S i) (w', s.2) Hs')|].
      * intros g Hg. apply Hf. by apply list_elem_of_further.
      * simpl. intros r s2 (H1 & H2 & H3 & H4). specialize (Hlt eq_refl). split_and!; [done|done|lia|].
        destruct r as [j|]; simpl; lia.
Qed.

Lemma wait_any_runs m fs fuel : forall s, serving s.1 m -> fs <> [] ->
  (forall f, f ∈ fs -> exists p, f = Some p /\ is_Some (m !! p)) -> (patience s.1 < fuel)%nat ->
  runs (wait_any fuel fs) s (fun j s' => serving s'.1 m /\ s'.2 = s.2 /\ (j < length fs)%nat).
Proof.
  induction fuel as [|fuel IH]; intros s Hs Hne Hf Hp; [lia|]. cbn [wait_any]. apply runs_bind.
  eapply runs_mono; [by apply poll_all_runs|]. intros [j|] s' (Hs' & E & Hle & Hr).
  - apply runs_ret. split_and!; [done|done|lia].
  - specialize (Hr Hne). eapply runs_mono; [apply (IH s' Hs' Hne Hf); lia|]. intros j s2. by rewrite E.
Qed.

(** The futures from [i] on, but for the one whose value was taken. *)
Definition left_over (first i : nat) (fs : list (option Z)) (m : gmap Z (bytes * res object object)) : Prop :=
  NoDup fs /\ forall k f, fs !! k = Some f -> (i + k <> first)%nat -> exists p, f = Some p /\
    m !! p = Some (str "slow_square", Ok (int_object (nth (i + k) squares 0))).

Lemma square_small i : is_int (nth i squares 0).
Proof. destruct i as [|[|[|[|i]]]]; vm_compute; intuition congruence. Qed.

Definition lines (first i n : nat) : bytes :=
  concat (map line (List.filter (fun k => negb (k =? first)%nat) (seq i n))).

Lemma left_over_tail first i f fs m m' :
  left_over first i (f :: fs) m ->
  (forall p, f <> Some p -> m' !! p = m !! p) -> left_over first (S i) fs m'.
Proof.
  intros [[Hf Hn]%NoDup_cons H] Hm. split; [done|]. intros k g Hg Hk.
  destruct (H (S k) g Hg) as (p & -> & Hp); [lia|]. exists p. split; [done|].
  rewrite Hm; [by rewrite Nat.add_succ_r in Hp|]. intros ->. by apply list_elem_of_lookup_2 in Hg.
Qed.

Lemma collect_runs first fs : forall i s m, serving s.1 m -> left_over first i fs m ->
  runs (collect i first fs) s (fun _ s' => exists m', prints (lines first i (length fs)) m' s s').
Proof.
  induction fs as [|f fs IH]; intros i s m Hs Hl; cbn [collect].
  - apply runs_ret. exists m, s.1. split; [done|]. by rewrite said_nothing.
  - apply runs_bind. unfold lines. cbn [length seq List.filter].
    destruct (Nat.eqb_spec i first) as [->|Hne]; cbn [negb].
    + apply runs_ret. apply (IH (S first) s m Hs). by eapply left_over_tail.
    + destruct (proj2 Hl 0%nat f eq_refl ltac:(lia)) as (p & -> & Hp). rewrite Nat.add_0_r in Hp.
      apply runs_bind, runs_cout. apply runs_bind. eapply (runs_get p); [done|exact Hp|].
      intros h w' Hh Hs'. apply runs_bind. eapply runs_as_int; [exact Hh|apply square_small|]. apply runs_cout.
      eapply runs_mono; [eapply (IH (S i)); [exact Hs'|]|].
      * eapply left_over_tail; [exact Hl|]. intros q Hq. apply lookup_delete_ne. congruence.
      * intros _ s' (m' & H). exists m'. apply (prints_then _ _ w'). cbn [map concat].
        destruct H as (w2 & H1 & ->). exists w2. split; [done|]. unfold said, line, lines. cbn [fst snd cout_ cerr_].
        by rewrite <- !app_assoc.
Qed.

Definition first_result (first : nat) (ms : Z) : bytes :=
  str "First result: call #" ++ decimal (Z.of_nat first) ++ str " (delay " ++
  decimal (nth first delays 0) ++ str " ms) = " ++ decimal (nth first squares 0) ++
  str ", after " ++ decimal ms ++ str " ms" ++ nl ++ lines first 0 3.

Lemma runs_client_now s m (P : Z -> state -> Prop) :
  serving s.1 m -> (forall t w', serving w' m -> P t (w', s.2)) -> runs client_now s P.
Proof.
  intros Hs HP. pose proof (now_served s.1 m Hs) as H. unfold runs, client_now, on_client.
  destruct (now s.1) as [t w']. exists t, (w', s.2). auto.
Qed.

(** Enough rounds of polls for whatever state the wait begins in; [patience] may depend on
    what was called before, so the bound is there and not given in advance. *)
Lemma several_runs s m :
  serving s.1 m -> exists N, forall fuel, (N <= fuel)%nat ->
  runs (several fuel) s (fun _ s' => exists first ms m', (first < 3)%nat /\ prints (first_result first ms) m' s s').
Proof.
  intros Hs. destruct (call_all_runs delays 0 s m eq_refl eq_refl Hs)
    as (fs & s1 & E & m1 & w1 & Hl & [Hnd Hsq] & _ & _ & Hs1 & ->).
  rewrite said_nothing_at in E. set (s1 := (w1, s.2)) in *.
  destruct (runs_client_now s1 m1 (fun _ s' => serving s'.1 m1 /\ s'.2 = s.2) Hs1) as (t1 & s2 & En & Hs2 & E2); [by split|].
  exists (S (patience s2.1)). intros fuel Hfuel. unfold several.
  apply runs_bind. exists fs, s1. split; [done|]. apply runs_bind. exists t1, s2. split; [done|].
  apply runs_bind. eapply runs_mono; [apply (wait_any_runs m1 fs fuel s2 Hs2)|].
  - intros ->. done.
  - intros f Hf. apply list_elem_of_lookup_1 in Hf as [k Hk]. destruct (Hsq k f Hk) as (p & -> & Hp). eauto.
  - lia.
  - intros first s3 (Hs3 & E3 & Hfirst). destruct (Hsq first (nth first fs None)) as (p & Ep & Hp).
    { destruct (lookup_lt_is_Some_2 fs first Hfirst) as [f Hf]. rewrite Hf. f_equal.
      symmetry. by apply nth_lookup_Some. }
    apply runs_bind. eapply (runs_client_now s3 m1); [done|]. intros t2 w4 Hs4. cbv zeta.
    apply runs_bind, runs_cout. apply runs_bind. unfold get_at.
    assert (Efp : fs !! first = Some (Some p)).
    { rewrite <- Ep. destruct (lookup_lt_is_Some_2 fs first Hfirst) as [f Hf]. rewrite Hf. f_equal.
      symmetry. by apply nth_lookup_Some. }
    rewrite Efp. eapply (runs_get p); [exact Hs4|exact Hp|]. intros h w5 Hh Hs5.
    apply runs_bind. eapply runs_as_int; [exact Hh|apply square_small|]. apply runs_bind, runs_cout.
    eapply runs_mono; [eapply (collect_runs first fs 0); [exact Hs5|]|].
    + split; [done|]. intros k f Hf Hk. destruct (Hsq k f Hf) as (q & -> & Hq). exists q. split; [done|].
      rewrite lookup_delete_ne; [done|]. intros ->. apply Hk. by apply (NoDup_lookup fs k first (Some q)).
    + intros _ s' (m' & w6 & H6 & ->). exists first, (t2 - t1), m'. rewrite Hl in *.
      split; [done|]. exists w6. split; [done|]. unfold said, first_result. cbn [fst snd cout_ cerr_].
      rewrite E3, E2. by rewrite <- !app_assoc.
Qed.

(** [m] ends with an exception. *)
Definition throws {A} (m : M A) (s : state) (P : exn -> state -> Prop) : Prop :=
  exists e s', m s = Some (Throw e, s') /\ P e s'.

Lemma main_throws_bind {A B} (m : M A) (k : A -> M B) s P : throws m s P -> throws (mbind m k) s P.
Proof. intros (e & s' & E & H). unfold throws, mbind. rewrite E. eauto. Qed.

Lemma runs_catch {A} (m : M A) (k : exn -> M A) s P :
  throws m s (fun e s' => runs (k e) s' P) -> runs (try_catch m k) s P.
Proof. intros (e & s' & E & H). unfold runs, try_catch. by rewrite E. Qed.

Lemma runs_try {A} (m : M A) (k : exn -> M A) s P : runs m s P -> runs (try_catch m k) s P.
Proof. intros (a & s' & E & H). unfold runs, try_catch. rewrite E. eauto. Qed.

Lemma throws_call {A} {HA : TupleElems A} name (v : A) os o s m (P : exn -> state -> Prop) :
  serving s.1 m -> object_elems v = Ok os -> replies name os (Throw o) ->
  (forall t h w', h_obj h = o -> serving w' m -> P (RpcError t name h) (w', s.2)) ->
  throws (client_call name v) s P.
Proof.
  intros Hs Ho Hr HP. destruct (async_call_served A HA name v os _ s.1 m Hs Ho Hr) as (p & w1 & E1 & Hp & Hs1).
  destruct (get_served p _ _ w1 _ Hs1 (lookup_insert_eq _ _ _)) as (x & w2 & E2 & Hg & Hs2).
  rewrite delete_insert_id in Hs2 by done. destruct x as [|[t n h|]]; [done| |done]. destruct Hg as [-> Hh].
  exists (RpcError t name h), (w2, s.2). split; [|by apply HP].
  unfold client_call, mbind, client_async, client_get, on_client. rewrite E1. cbn [fst snd]. by rewrite E2.
Qed.

Lemma failing_runs s m :
  serving s.1 m ->
  runs (failing double_text) s (fun _ s' =>
    prints (str "Server error in 'divide': division by zero" ++ nl) m s s').
Proof.
  intros Hs. apply runs_catch, main_throws_bind.
  eapply (throws_call _ _ [FLOAT64 0x3ff0000000000000; FLOAT64 0]); [exact Hs|reflexivity|by apply replies_divide|].
  intros t h w' Hh Hs'. apply runs_bind, runs_cout. apply runs_bind. unfold as_value. rewrite Hh.
  apply runs_ret, runs_cout. exists w'. split; [done|]. unfold said. cbn [fst snd cout_ cerr_].
  by rewrite <- !app_assoc.
Qed.

(** C24. [main] of the example client, connected to a server with the example's functions,
    ends, returns 0, writes nothing to standard error, and prints what the README
    says: whichever of the three calls is seen to be done first and however long that
    takes, and whatever order their responses come in. *)
Theorem main_prints w :
  serving w ∅ -> exists N, forall fuel, (N <= fuel)%nat -> exists first ms w' m,
    (first < 3)%nat /\ serving w' m /\
    main double_text fuel (w, {| cout_ := []; cerr_ := [] |}) =
      Some (Ok 0, (w', {| cout_ := expected first ms; cerr_ := [] |})).
Proof.
  intros Hs. set (s := (w, {| cout_ := []; cerr_ := [] |}) : state).
  destruct (synchronous_runs s ∅ Hs) as ([] & s1 & E1 & w1 & H1 & ->).
  set (s1 := said _ w1 s) in *.
  destruct (asynchronous_runs s1 ∅ H1) as ([] & s2 & E2 & w2 & H2 & ->). set (s2 := said _ w2 s1) in *.
  destruct (several_runs s2 ∅ H2) as (N & H3). exists N. intros fuel Hfuel.
  destruct (H3 fuel Hfuel) as ([] & s3 & E3 & first & ms & m & Hfirst & w3 & Hs3 & ->).
  set (s3 := said _ w3 s2) in *.
  assert (R : runs (main double_text fuel) s (fun r s' => exists w', serving w' m /\ r = 0 /\
    s' = (w', {| cout_ := expected first ms; cerr_ := [] |}))).
  { apply runs_try. apply runs_bind. exists tt, s1. split; [done|].
    apply runs_bind. exists tt, s2. split; [done|]. apply runs_bind. exists tt, s3. split; [done|].
    apply runs_bind. eapply runs_mono; [by apply (failing_runs s3 m)|]. intros _ s4 (w4 & H4 & ->).
    apply runs_bind. eapply (runs_call _ _ _ (STR (str "Hello from client"))); [exact H4|reflexivity|
      apply (replies_echo (str "Hello from client")); vm_compute; reflexivity|].
    intros h w5 Hh H5. apply runs_bind, runs_cout, runs_ret. exists w5. split; [done|]. split; [done|].
    unfold said, expected, first_result, lines, s3, s2, s1, s. cbn [fst snd cout_ cerr_ seq].
    unfold said. cbn [fst snd cout_ cerr_]. unfold first_result, lines. cbn [seq]. rewrite app_nil_l, <- !app_assoc. done. }
  destruct R as (r & s' & E & w' & Hw & -> & ->). by exists first, ms, w', m.
Qed.
End Proofs.

(** The README's example. *)
Example readme : expected 1 300 =
  str "add(2, 3) = 5
async add(10, 20) sent, waiting...
async add(10, 20) = 30
First result: call #1 (delay 300 ms) = 9, after 300 ms
Call #0 = 4
Call #2 = 16
Server error in 'divide': division by zero
Done.
".
Proof. vm_compute. reflexivity. Qed.
