(* ===== verification/MainRuns.v ===== *)
(** * Runs of the example client's main function

    [main] against the functions of the example server, called directly through the code
    that handles a message; and against the whole of the two programs: the client, its
    strand and its buffers, and a session of the server, exchanging bytes. *)

From S2P Require Import Prelude FloatBits MsgObject Pack Visitor Format Roundtrip Adaptors AdaptorLaws.
From S2P Require Unpacker.
From S2P Require Import UnpackerSpec.
From S2P Require Import Handler Response Dispatcher DispatcherSpec AsyncWriter Receiver.
From S2P Require Import Server ServerSpec ExampleServer ExampleRuns.
From S2P Require Client ExampleMain.

#[local] Open Scope handler_scope.

(** ** What keeps the thread's error zone older than the next one *)

Definition keeps {A} (m : H A) : Prop := forall e, error_zone_old e -> error_zone_old (snd (m e)).

Lemma keeps_ret {A} (a : A) : keeps (hret a).
Proof. by intros e. Qed.
Lemma keeps_raise {A} t : keeps (raise (A := A) t).
Proof. by intros e. Qed.
Lemma keeps_undefined {A} : keeps (undefined (A := A)).
Proof. by intros e. Qed.
Lemma keeps_get : keeps hget.
Proof. by intros e. Qed.
Lemma keeps_bind {A B} (m : H A) (k : A -> H B) : keeps m -> (forall a, keeps (k a)) -> keeps (hbind m k).
Proof.
  intros Hm Hk e He. specialize (Hm e He). unfold hbind.
  destruct (m e) as [[a|t|] e']; [by apply Hk|done|done].
Qed.
Lemma keeps_catch {A} (m : H A) (k : thrown -> H A) : keeps m -> (forall t, keeps (k t)) -> keeps (try_catch m k).
Proof.
  intros Hm Hk e He. specialize (Hm e He). unfold try_catch.
  destruct (m e) as [[a|t|] e']; [done|by apply Hk|done].
Qed.
Lemma keeps_lift {A} (r : res adaptor_exn A) : keeps (lift r).
Proof. destruct r; [apply keeps_ret|apply keeps_raise]. Qed.
Lemma keeps_pack {T} {HT : Adaptor T} (v : T) : keeps (pack_handle v).
Proof.
  apply keeps_bind; [apply keeps_lift|]. intros o e He. unfold error_zone_old in *. simpl.
  destruct (h_own _); [lia|done].
Qed.

Create HintDb keeps.
#[local] Hint Resolve keeps_ret keeps_raise keeps_undefined keeps_get keeps_bind keeps_catch keeps_lift keeps_pack : keeps.

Lemma keeps_respond_error {A T} {HT : Adaptor T} (v : T) : keeps (respond_error (A := A) v).
Proof.
  intros e He. unfold respond_error, pack_handle, hbind, lift. destruct (to_object v) as [o|x]; [|done].
  unfold error_zone_old. simpl. destruct (h_own _); simpl; lia.
Qed.
#[local] Hint Resolve keeps_respond_error : keeps.

Section Server.
Context (fdiv : Z -> Z -> Z).

Lemma functions_eq : functions fdiv =
  <[str "echo" := adaptor no_unset (str "echo") echo_functor]>
  (<[str "divide" := adaptor no_unset (str "divide") (divide_functor fdiv)]>
  (<[str "slow_square" := adaptor no_unset (str "slow_square") slow_square_functor]>
  (<[str "add" := adaptor no_unset (str "add") add_functor]> ∅))).
Proof. reflexivity. Qed.

Lemma keeps_arity name n m : keeps (enforce_arg_count name n m).
Proof. unfold enforce_arg_count. destruct (n =? m); auto with keeps. Qed.
#[local] Hint Resolve keeps_arity : keeps.

Lemma functions_keep name f args : functions fdiv !! name = Some f -> keeps (f args).
Proof.
  rewrite functions_eq. intros H.
  repeat (apply lookup_insert_Some in H as [[_ <-]|[_ H]]); [..|by rewrite lookup_empty in H];
    cbn [adaptor add_functor slow_square_functor divide_functor echo_functor];
    (apply keeps_bind; [auto with keeps|intros _]; apply keeps_bind; [auto with keeps|intros [v]]).
  - apply keeps_bind; [|auto with keeps]. apply keeps_bind; [by intros e|auto with keeps].
  - apply keeps_bind; [|auto with keeps]. destruct v as [[a] [[b] u]]. simpl. destruct (f64_eqb b 0); auto with keeps.
  - apply keeps_bind; [|auto with keeps]. unfold slow_square, int_result. destruct (_ && _); auto with keeps.
  - apply keeps_bind; [|auto with keeps]. unfold add, int_result. destruct (_ && _); auto with keeps.
Qed.

Lemma dispatch_keeps msg : keeps (dispatch no_unset (functions fdiv) msg false).
Proof.
  assert (Hk : forall name f args, functions fdiv !! name = Some f -> keeps (f args)) by apply functions_keep.
  assert (Hm : forall id (t : bytes), keeps (make_error id t)) by (intros; unfold make_error; auto with keeps).
  unfold dispatch, dispatch_notification, dispatch_call. cbv zeta.
  destruct (_ =? 3); [|destruct (_ =? 4); [|auto with keeps]].
  - apply keeps_bind; [auto with keeps|]. intros [[ty [name [args u]]]].
    destruct (functions fdiv !! name) as [f|] eqn:E; [|auto with keeps].
    apply keeps_catch; [apply keeps_bind; [by apply (Hk name)|auto with keeps]|]. intros []; auto with keeps.
  - apply keeps_bind; [auto with keeps|]. intros [[ty [id [name [args u]]]]].
    destruct (functions fdiv !! name) as [f|] eqn:E; [|auto with keeps].
    apply keeps_catch; [apply keeps_bind; [by apply (Hk name)|auto with keeps]|]. intros []; auto with keeps.
Qed.

Lemma handle_keeps sid msg z : keeps (handle_message no_unset (functions fdiv) false sid msg z).
Proof.
  unfold handle_message. do 4 (apply keeps_bind; [by intros e|intros _]).
  apply keeps_bind; [apply dispatch_keeps|]. intros resp. apply keeps_bind; [auto with keeps|]. intros e.
  destruct (negb _); [auto with keeps|]. apply keeps_bind; [|auto with keeps].
  repeat case_match; unfold capture_error, capture_result; repeat case_match; auto with keeps.
Qed.

(** ** Calling the functions directly *)

(** What the server's thread has, the futures, and how many polls are in vain. *)
Record desk := { d_env : env; d_next : Z; d_futures : gmap Z (res ExampleMain.exn handle); d_wait : nat }.

(** What the client makes of a response. *)
Definition outcome_of (name : bytes) (r : response) : res ExampleMain.exn handle :=
  match r_error r with
  | Some h => if is_nil (h_obj h) then Ok (default nil_handle (r_result r))
              else Throw (ExampleMain.RpcError (str "rpc::rpc_error during call") name h)
  | None => Ok (default nil_handle (r_result r))
  end.

#[export] Instance desk_rpc : ExampleMain.Rpc desk := {
  async_call A HA name v w :=
    match object_elems v with
    | Throw _ => None
    | Ok os =>
      match handle_message no_unset (functions fdiv) false 0 (call_object 1 name (ARRAY os)) 0 (d_env w) with
      | (Returns [TWrite r _], e) =>
        Some (Ok (d_next w), {| d_env := e; d_next := d_next w + 1;
          d_futures := <[d_next w := outcome_of name r]> (d_futures w); d_wait := d_wait w |})
      | _ => None
      end
    end;
  get p w :=
    x ← d_futures w !! p;
    Some (x, {| d_env := d_env w; d_next := d_next w; d_futures := delete p (d_futures w); d_wait := d_wait w |});
  ready p w :=
    match d_wait w with
    | O => (true, w)
    | S n => (false, {| d_env := d_env w; d_next := d_next w; d_futures := d_futures w; d_wait := n |})
    end;
  now w := (0, w);
}.

Definition desk_serving (w : desk) (m : gmap Z (bytes * res object object)) : Prop :=
  error_zone_old (d_env w) /\
  forall p, match d_futures w !! p, m !! p with
            | Some x, Some (name, r) => ExampleMain.given name r x /\ p < d_next w
            | None, None => True
            | _, _ => False
            end.

(** The functions of the server do what [replies] says. *)
Lemma functions_bind name F :
  functions fdiv !! name = Some (adaptor no_unset name F) ->
  bind no_unset (delete name (functions fdiv)) name F = Ok (functions fdiv).
Proof.
  intros H. unfold bind, bind_kind, enforce_unique_name. rewrite lookup_delete_eq. simpl. f_equal.
  by rewrite insert_delete_eq, insert_id.
Qed.

Lemma add_bound : functions fdiv !! str "add" = Some (adaptor no_unset (str "add") add_functor).
Proof. reflexivity. Qed.
Lemma square_bound :
  functions fdiv !! str "slow_square" = Some (adaptor no_unset (str "slow_square") slow_square_functor).
Proof. reflexivity. Qed.
Lemma divide_bound :
  functions fdiv !! str "divide" = Some (adaptor no_unset (str "divide") (divide_functor fdiv)).
Proof. reflexivity. Qed.
Lemma echo_bound : functions fdiv !! str "echo" = Some (adaptor no_unset (str "echo") echo_functor).
Proof. reflexivity. Qed.

Lemma enter_plain sid e : plain_locals (loc (enter sid e)).
Proof. by repeat split. Qed.

Lemma replies_answered name os r e :
  ExampleMain.replies name os r -> error_zone_old e ->
  answers no_unset (functions fdiv) false 0 (call_object 1 name (ARRAY os)) 0 e 1
    (match r with Ok _ => NIL | Throw x => x end) (match r with Ok o => o | Throw _ => NIL end).
Proof.
  assert (Hcall : forall n l, is_call (call_object 1 n (ARRAY l)) 1 n (ARRAY l)) by (intros; by apply call_object_is_call).
  assert (H0 : is_int 0) by (vm_compute; intuition congruence).
  intros Hr He. set (e1 := enter 0 e). assert (He1 : error_zone_old e1) by done.
  destruct Hr as [a b Ha Hb Hab|a d Ha Hd Haa|a b Ha Hb Hz|s Hs].
  - destruct (server_functions fdiv e1 a b [] 0 0 Ha Hb) as (H & _); [done..|].
    eapply answers_result; [by apply functions_bind, add_bound|done|by apply H|apply enter_plain].
  - destruct (server_functions fdiv e1 a d [] 0 0 Ha Hd) as (_ & H & _); [done..|].
    eapply answers_result; [by apply functions_bind, square_bound|done|by apply H|apply enter_plain].
  - destruct (server_functions fdiv e1 0 0 [] a b H0 H0) as (_ & _ & _ & _ & H); [done..|].
    destruct (H Hz (enter_plain 0 e) He1) as (e' & H').
    eapply answers_error; [done|apply divide_bound|exact H'|]. vm_compute. reflexivity.
  - destruct (server_functions fdiv e1 0 0 s 0 0 H0 H0 Hs) as (_ & _ & H & _); [done..|].
    eapply answers_result; [by apply functions_bind, echo_bound|done|exact H|apply enter_plain].
Qed.

#[export] Program Instance desk_served : ExampleMain.Served desk := {
  serving := desk_serving;
  patience w := d_wait w;
}.
Next Obligation.
  intros A HA name v os r w m [He Hf] Ho Hr. cbn [ExampleMain.async_call desk_rpc]. rewrite Ho.
  destruct (replies_answered name os r (d_env w) Hr He) as (resp & e' & E & _ & Hre & Hrr & _).
  pose proof (handle_keeps 0 (call_object 1 name (ARRAY os)) 0 (d_env w) He) as He'. rewrite E in He' |- *.
  do 2 eexists. split; [reflexivity|]. assert (Hfresh : m !! d_next w = None).
  { specialize (Hf (d_next w)). destruct (d_futures w !! d_next w), (m !! d_next w) as [[? ?]|]; try done. lia. }
  split; [done|]. split; [done|]. intros p. cbn [d_futures d_next]. destruct (decide (d_next w = p)) as [<-|Hne].
  - rewrite !lookup_insert_eq. split; [|lia]. unfold outcome_of. destruct r as [o|x]; cbn [ExampleMain.given].
    + unfold held in *. destruct (r_error resp) as [h|]; [rewrite Hre; simpl|];
        (destruct (r_result resp) as [h'|]; simpl; [done|by rewrite <- Hrr]).
    + assert (Hx : x <> NIL) by (intros ->; inversion Hr).
      unfold held in Hre. destruct (r_error resp) as [h|]; [|by subst]. rewrite (is_nil_false (h_obj h)) by congruence.
      done.
  - rewrite !lookup_insert_ne by done. specialize (Hf p).
    destruct (d_futures w !! p), (m !! p) as [[? ?]|]; try done. split; [apply Hf|lia].
Qed.
Next Obligation.
  intros p name r w m [He Hf] Hp. pose proof (Hf p) as Hpf. rewrite Hp in Hpf. cbn [ExampleMain.get desk_rpc].
  destruct (d_futures w !! p) as [x|]; [|done]. do 2 eexists. split; [reflexivity|]. split; [apply Hpf|].
  split; [done|]. intros q. cbn [d_futures d_next]. destruct (decide (p = q)) as [<-|Hne].
  - by rewrite !lookup_delete_eq.
  - rewrite !lookup_delete_ne by done. apply Hf.
Qed.
Next Obligation.
  intros p w m [He Hf] _. cbn [ExampleMain.ready desk_rpc]. destruct (d_wait w) as [|n] eqn:E.
  - split_and!; [done|lia|done].
  - split_and!; [by split|simpl; lia|simpl; lia].
Qed.
Next Obligation. by intros w m H. Qed.

Definition new_desk (wait : nat) : desk :=
  {| d_env := {| loc := new_locals; heap := no_zones; console := [] |}; d_next := 0;
     d_futures := ∅; d_wait := wait |}.

End Server.

(** Five polls in vain. *)
Lemma main_prints_witness :
  exists N, forall fuel, (N <= fuel)%nat -> exists first ms w' m,
    (first < 3)%nat /\ ExampleMain.serving (Served := desk_served nan_div) w' m /\
    ExampleMain.main (RW := desk_rpc nan_div) (fun _ => []) fuel
      (new_desk 5, {| ExampleMain.cout_ := []; ExampleMain.cerr_ := [] |}) =
      Some (Ok 0, (w', {| ExampleMain.cout_ := ExampleMain.expected first ms; ExampleMain.cerr_ := [] |})).
Proof.
  apply (ExampleMain.main_prints (SW := desk_served nan_div) (fun _ => []) (new_desk 5)).
  split; [done|]. intros p. done.
Defined.

(** ** The two programs, whole

    The client and one session of the server, connected: what one has written and the other
    not yet received, and which of the jobs at hand the server's worker takes next. *)

Record system := {
  client_ : Client.client (rx := Unpacker.unpacker);
  server_ : server (rx := Unpacker.unpacker);
  to_server : nat;                     (* bytes of the client's that have arrived *)
  to_client : nat;
  order : list nat;
}.

Definition client_runs (evs : list Client.client_event) (y : system) : option system :=
  match Client.client_run evs (client_ y) with
  | Some (Returns c) => Some {| client_ := c; server_ := server_ y; to_server := to_server y;
                                to_client := to_client y; order := order y |}
  | _ => None
  end.

Definition server_runs (evs : list event) (y : system) : option system :=
  match run pac0 no_unset demo false evs (server_ y) with
  | Some (Returns s) => Some {| client_ := client_ y; server_ := s; to_server := to_server y;
                                to_client := to_client y; order := order y |}
  | _ => None
  end.

(** All that the client wrote arrives in one read of the session, and the other way round. *)
Definition deliver_request (y : system) : option system :=
  let d := wire (Client.writer_ (client_ y)) in
  y ← server_runs [Received 0 (drop (to_server y) d)] y;
  Some {| client_ := client_ y; server_ := server_ y; to_server := length d;
          to_client := to_client y; order := order y |}.

Definition deliver_response (y : system) : option system :=
  x ← sessions (server_ y) !! 0;
  let d := wire (writer x) in
  y ← client_runs [Client.Bytes (drop (to_client y) d); Client.Posted] y;
  Some {| client_ := client_ y; server_ := server_ y; to_server := to_server y;
          to_client := length d; order := order y |}.

(** The [k]-th of the jobs, from the worker to the promise in the client. *)
Definition serve_job (k : nat) (y : system) : option system :=
  y ← server_runs [Work 1 k; Strand 1 0; WriteDone 0] y;
  deliver_response y.

Definition next_job (y : system) : option system :=
  serve_job (hd 0%nat (order y))
    {| client_ := client_ y; server_ := server_ y; to_server := to_server y;
       to_client := to_client y; order := tl (order y) |}.

Definition result_of (p : Z) (y : system) : option (res ExampleMain.exn handle) :=
  x ← Client.promises (client_ y) !! p;
  match Client.state_of x with
  | Client.Empty => None
  | Client.Value h => Some (Ok h)
  | Client.Exception (Client.rpc_error what name e) => Some (Throw (ExampleMain.RpcError what name e))
  | Client.Exception _ => Some (Throw (ExampleMain.StdException (str "std::future_error")))
  end.

(** Waiting, while the server works; at most [fuel] jobs. *)
Fixpoint wait_for (fuel : nat) (p : Z) (y : system) : option (res ExampleMain.exn handle * system) :=
  match result_of p y with
  | Some x => Some (x, y)
  | None => match fuel with O => None | S f => y ← next_job y; wait_for f p y end
  end.

#[export] Instance system_rpc : ExampleMain.Rpc system := {
  async_call A HA name v y :=
    let p := Client.next_promise (client_ y) in
    y ← client_runs [Client.AsyncCall A HA name v; Client.Posted; Client.Written] y;
    y ← deliver_request y;
    Some (Ok p, y);
  get p y := wait_for 9 p y;
  ready p y := match result_of p y with
               | Some _ => (true, y)
               | None => (false, default y (next_job y))
               end;
  now y := (0, y);
}.

Definition connected (o : list nat) : system :=
  {| client_ := Client.on_connected None (Client.new_client pac0); server_ := s0;
     to_server := 0; to_client := 0; order := o |}.

(** The worker takes the first job, for the first two calls, and then the three at hand in
    this order. *)
Definition output (o : list nat) : option bytes :=
  match ExampleMain.main (fun _ => []) 9 (connected ([0; 0] ++ o)%nat,
      {| ExampleMain.cout_ := []; ExampleMain.cerr_ := [] |}) with
  | Some (Ok 0, (_, t)) => Some (ExampleMain.cout_ t)
  | _ => None
  end.

(** Every order of the three concurrent calls. The loop polls the futures in turn and each poll
    in vain lets one job end, so the call that ends first need not be the one seen first: in the
    second order, call 0 ends while future 0 is polled and call 2 while future 1 is, and it is
    future 2 that is found ready. *)
Example client_and_server_run :
  map output [[0; 0; 0]; [0; 1; 0]; [1; 0; 0]; [1; 1; 0]; [2; 0; 0]; [2; 1; 0]]%nat =
  map (fun first => Some (ExampleMain.expected first 0)) [0; 2; 1; 1; 2; 2]%nat.
Proof. vm_compute. reflexivity. Qed.
