(* ===== verification/ClientRuns.v ===== *)
(** * Runs of the client

    A client with the unpacker of the code: the call "add"(2, 3) made, answered and
    returned, and the witnesses of the client's theorems on it. *)

From S2P Require Import Prelude FloatBits MsgObject Pack Visitor Format Roundtrip Adaptors AdaptorLaws.
From S2P Require Unpacker UnpackerV1.
From S2P Require Import UnpackerSpec.
From S2P Require Import Handler Response Dispatcher DispatcherSpec AsyncWriter Receiver.
From S2P Require Import Server ServerSpec ExampleServer ExampleRuns Client ClientSpec ClientSafety ClientLife RemoteCall UnpackerV1Spec.
From S2P Require Import ExampleClient.

Definition client0 : client := new_client pac0.

(** Connected, and then with one call registered and sent. *)
Definition online : client := on_connected None client0.

Definition add_args : int2 := (2, (3, tt)).
Definition call_events : list client_event :=
  [Connected None; AsyncCall int2 int2_elems (str "add") add_args; Posted; Written].
Definition called : client :=
  match client_run call_events client0 with Some (Returns c) => c | _ => client0 end.

Definition args_objects : list object := [int_object 2; int_object 3].

Definition int2_laws : @ElemsLaws int2 int2_elems := _.

Lemma args_valid : @valid_elems int2 int2_elems int2_laws add_args.
Proof.
  assert (H2 : is_int 2) by (vm_compute; intuition congruence).
  assert (H3 : is_int 3) by (vm_compute; intuition congruence).
  exact (conj H2 (conj H3 I)).
Qed.

Lemma called_ok : client_run call_events client0 = Some (Returns called).
Proof. vm_compute. reflexivity. Qed.

Lemma called_waits : waiting 1 (str "add") 0 called.
Proof. by split. Qed.

Lemma async_call_message_witness :
  exists c', async_call (str "add") add_args online = Ok (0, c') /\
    call_idx_ c' = 1 /\
    strand_ c' = strand_ online ++
      [PCall 1 (str "add") 0 (encode (call_message 1 (str "add") (ARRAY args_objects)))] /\
    promises c' = <[0 := {| state_of := Empty; retrieved := true |}]> (promises online) /\
    ongoing_calls_ c' = ongoing_calls_ online /\ writer_ c' = writer_ online /\ pac_ c' = pac_ online.
Proof.
  apply (async_call_message int2_laws (str "add") add_args args_objects online);
    [apply args_valid|reflexivity|vm_compute; reflexivity|vm_compute; reflexivity].
Defined.

Definition worn : client := set_idx (2 ^ 31 - 1) online.

Lemma call_index_overflow_witness :
  exists c' msg, async_call (str "add") add_args worn = Ok (0, c') /\
    strand_ c' = strand_ worn ++ [PCall (- 2 ^ 31) (str "add") 0 (encode msg)] /\
    as_ call_t msg = Throw type_error.
Proof.
  apply (call_index_overflow int2_laws (str "add") add_args args_objects worn);
    [apply args_valid|reflexivity|vm_compute; reflexivity|vm_compute; reflexivity|reflexivity].
Defined.

Definition five : answer :=
  {| a_id := 1; a_name := str "add"; a_promise := 0; a_error := NIL; a_result := int_object 5 |}.

Lemma responses_resolve_calls_witness :
  match client_step (Bytes (encode (answer_object five))) called with
  | Some (Returns c') => Forall (answered c') [five] /\
      (forall p, p ∉ map a_promise [five] -> promises c' !! p = promises called !! p) /\
      ongoing_calls_ c' = ongoing_calls_ called /\
      unpacker_awaiting 1024 default_limit [] (pac_ c') /\ reading c' = true
  | Some (Raises t) => t = std_exception (str "std::bad_alloc")
  | _ => False
  end.
Proof.
  apply (responses_resolve_calls (HL := rx_laws) _ [] [five] [] called);
    [reflexivity|apply pac0_awaits|vm_compute; congruence|vm_compute; reflexivity| | | |].
  - apply stream_one; [|reflexivity]. repeat split; vm_compute; intuition congruence.
  - constructor; [vm_compute; lia|constructor].
  - apply NoDup_singleton.
  - constructor; [|constructor]. split; [vm_compute; intuition congruence|apply called_waits].
Defined.

Lemma duplicate_response_terminates_witness :
  exists t, on_messages [response_object 1 NIL (int_object 5); response_object 1 NIL (int_object 6)]
    called = Raises t.
Proof.
  apply (duplicate_response_terminates 1 (str "add") 0 _ _ _ _ called); [lia|apply called_waits].
Defined.

(** The call posted, and not yet registered. *)
Definition posting : client :=
  match client_run [Connected None; AsyncCall int2 int2_elems (str "add") add_args] client0 with
  | Some (Returns c) => c | _ => client0 end.

Lemma unsolicited_response_breaks_call_witness :
  exists c1, on_message (response_object 1 NIL NIL) posting = Returns c1 /\
    forall c2, run_posted (PCall 1 (str "add") 0 (encode add_call)) c1 = Returns c2 ->
      promises c2 !! 0 = Some {| state_of := Exception broken_promise; retrieved := true |} /\
      ongoing_calls_ c2 = ongoing_calls_ c1.
Proof.
  apply (unsolicited_response_breaks_call 1 (str "add") NIL NIL 0 _ posting);
    [lia|reflexivity|vm_compute; reflexivity|reflexivity].
Defined.

Lemma wait_all_responses_throws_witness : wait_all_responses called = Some (Throw future_error).
Proof.
  apply (wait_all_responses_throws called).
  - intros E. assert (F : ongoing_calls_ called !! 1 = (∅ : gmap Z (bytes * Z)) !! 1) by by rewrite E.
    change (ongoing_calls_ called !! 1) with (Some (str "add", 0)) in F. done.
  - intros id name p. change (ongoing_calls_ called) with ({[1 := (str "add", 0)]} : gmap Z (bytes * Z)).
    intros H. apply lookup_singleton_Some in H as [_ [= <- <-]].
    exists {| state_of := Empty; retrieved := true |}. done.
Defined.

(** The answer received, and then the connection lost. *)
Definition answer_events : list client_event := call_events ++ [Bytes (encode (answer_object five))].
Definition answered_client : client :=
  match client_run answer_events client0 with Some (Returns c) => c | _ => client0 end.
Definition later : list client_event := [Posted; ReadFailure eof; SetTimeout (Some 100)].
Definition later_client : client :=
  match client_run later answered_client with Some (Returns c) => c | _ => client0 end.
Definition resolved : promise :=
  match promises answered_client !! 0 with Some x => x | None => new_promise end.


Definition lost : client :=
  match client_run (ReadFailure eof :: [SetTimeout None]) called with
  | Some (Returns c) => c | _ => client0 end.


(** Destroyed with a call under way and a notification in the strand. *)
Definition life_events : list life_event :=
  map Event (call_events ++ [Send int2 int2_elems (str "add") add_args]).
Definition live : client_life (rx := Unpacker.unpacker) :=
  match life_run life_events (Alive client0 false) with Some (Returns l) => l | _ => Alive client0 false end.
Definition live_client : client := match live with Alive c _ => c | _ => client0 end.

Lemma destroyed_client_settles_futures_witness :
  exists ps, life_run [Stop; Join] live =
      Some (Returns (Destroyed ps [encode (ARRAY [int_object 2; STR (str "add"); ARRAY args_objects])])) /\
    future_get ps 0 = Some (CallException broken_promise).
Proof.
  destruct (destroyed_client_settles_futures (fun _ _ => Ok tt) pac0 (str "127.0.0.1") 8080 client0 life_events live)
    as [_ H]; [reflexivity|vm_compute; reflexivity|].
  destruct (H live_client) as (ps & Hrun & Hget); [vm_compute; reflexivity|].
  exists ps. split; [exact Hrun|]. apply (Hget 0 {| state_of := Empty; retrieved := true |}); vm_compute; reflexivity.
Defined.

Lemma remote_call_returns_witness :
  exists c1 request, client_run (calling (str "add") add_args) online = Some (Returns c1) /\
    wire (writer_ c1) = wire (writer_ online) ++ request /\
    match run pac0 no_unset adder false (one_request 1 2 0 request) s0 with
    | Some (Returns s1) => exists x1 response, sessions s1 !! 0 = Some x1 /\ quiet x1 /\
        wire (writer x1) = wire (writer x0) ++ response /\
        match client_step (Bytes response) c1 with
        | Some (Returns c2) => exists h,
            finish_call (str "add") 0 false c2 = Some (Result h) /\ as_ (cint C_int) (h_obj h) = Ok 5
        | Some (Raises t) => t = std_exception (str "std::bad_alloc")
        | _ => False
        end
    | Some (Raises t) => t = std_exception (str "std::bad_alloc")
    | _ => False
    end.
Proof.
  eapply (remote_call_returns (HL := rx_laws) ltac:(lia) pac0 no_unset adder false int2_laws _ (str "add") add ∅
    add_args args_objects 5 (int_object 5) online 1 2 0 x0 s0);
    [split_and!; try reflexivity; apply pac0_awaits|vm_compute; intuition congruence|reflexivity
    |reflexivity|apply quiet_x0|reflexivity|apply pac0_awaits|reflexivity|apply args_valid|reflexivity
    |vm_compute; reflexivity|vm_compute; reflexivity|reflexivity|by repeat split
    |vm_compute; intuition congruence|reflexivity| |].
  - split; [repeat split; vm_compute; intuition congruence|reflexivity|vm_compute; lia|vm_compute; congruence].
  - split; [repeat split; vm_compute; intuition congruence|reflexivity|vm_compute; lia|vm_compute; congruence].
Defined.

(** The client polled: two polls while the call is under way, then the answer is there. *)
Definition polled (t : nat) : client :=
  match t with 0%nat | 1%nat => called | _ => answered_client end.

Lemma polled_steps t : exists evs, client_run evs (polled t) = Some (Returns (polled (S t))).
Proof.
  destruct t as [|[|t]]; cbn [polled].
  - by exists [].
  - exists [Bytes (encode (answer_object five))]. vm_compute. reflexivity.
  - by exists [].
Qed.

Lemma wait_any_first_witness :
  let futures := [None; Some 0] in
  exists fuel i t' q s, wait_any polled fuel futures 0 = Some (i, t') /\ (t' <= 2 + 2 * 2)%nat /\
    futures !! i = Some (Some q) /\
    (forall u, (pred t' <= u)%nat -> ready q (polled u) = true) /\ (s < t' <= s + 2)%nat /\
    forall k q', (k < i)%nat -> futures !! k = Some (Some q') -> ready q' (polled s) = false.
Proof.
  intros futures.
  apply (proj1 (wait_any_first polled pac0 (ex_intro _ call_events called_ok) polled_steps futures) 0 2%nat).
  - apply elem_of_cons. right. apply elem_of_cons. by left.
  - vm_compute. reflexivity.
Defined.

(** ** With the older unpacker

    Everything proved of the client against the interface holds of it there, too. *)

Definition v1_rx : Receiver UnpackerV1.unpacker := v1_receiver small_malloc 1024 16.
Definition pac1 : UnpackerV1.unpacker :=
  match start_receiver1 small_malloc 1024 64 default_limit with Ok s => s | Throw _ => first1 end.

Lemma pac1_awaits : v1_awaiting 1024 default_limit [] pac1.
Proof.
  apply (start_receiver1_awaits small_malloc 1024 64); [apply small_malloc_sized|apply max_ok| |reflexivity].
  right. intros []; simpl; lia.
Qed.

Definition answered1 : option (outcome client) :=
  @client_run _ v1_rx (call_events ++ [Bytes (encode (answer_object five))]) (new_client pac1).

Example answered_with_v1 :
  match answered1 with
  | Some (Returns c) =>
    match finish_call (str "add") 0 false c with
    | Some (Result h) => as_ (cint C_int) (h_obj h)
    | _ => Throw type_error
    end
  | _ => Throw type_error
  end = Ok 5.
Proof. vm_compute. reflexivity. Qed.
